(* ===== verification/_CoqProject ===== *)
-Q . S2P
Prelude.v
Sha256.v
Chain.v
HashRing.v
Proto.v
Paxos.v
PaxosLog.v
PaxosNet.v
PaxosSafety.v
Directory.v
DirectoryProps.v
Replica.v
RingWatch.v
BlockStore.v
LRU.v
Float64.v
FloatRound.v
PagedList.v
Paged.v
PagedProps.v
StoreCounts.v
CacheNode.v
Gateway.v
GatewayProps.v
GatewayMetrics.v
Failover.v
PutMatch.v
Events.v
Prefetch.v
Warmer.v
Collectors.v
Heal.v
Agent.v
Loadgen.v
LoadRun.v
Flags.v
Boot.v
