(* ===== verification/Prelude.v ===== *)
(** * PrefixMesh: a verification development

    PrefixMesh is a distributed cache of prompt prefixes.  A prompt is cut into blocks
    whose IDs form a hash chain; a consistent hash ring places every block on [rf]
    cache nodes; a gateway finds the longest cached prefix of a chain and writes new
    blocks back; directory replicas agree on the ring with Paxos; a prefetcher learns
    demand and repairs replicas after a ring change.  This library models these parts
    from the Go sources and proves what each promises to the others.

    ** The parts, and where they are modelled

    - Prelude.v (this file): machine integers with their wrap-around, bytes, strings,
      gRPC statuses and results, [sort.Search], the list lemmas and the automation
      (hint database [go]; [word_lia], [len_lia], [bind_step]) of all files.
    - Sha256.v: [crypto/sha256], executable.
    - Chain.v (internal/chain/chain.go): [Root], [Next], [Chunk], [Build].
    - HashRing.v (internal/hashring/ring.go): [New] for every iteration order of the Go
      map, [Owners] with its binary search and clockwise walk.
    - Proto.v (gen/prefixmesh/v1/*.pb.go): the messages as records, without the codec.
    - Paxos.v (internal/paxos/{paxos,log,node}.go): [Acceptor], [Log] and [Node] of one
      replica; PaxosLog.v: the learner's invariant and [Submit]; PaxosNet.v: the replicas
      composed by a step relation over a message soup; PaxosSafety.v: agreement.
    - Directory.v (internal/directory/{state,server,monitor}.go): the replicated state
      machine, the RPC handlers, the transport and the failure detector;
      DirectoryProps.v: their properties, on top of PaxosSafety.v; Replica.v: one replica
      under every RPC, Paxos message (its own proposals reach it without an RPC) and
      background tick.
    - RingWatch.v (internal/ringwatch/watcher.go): the fleet's view of the ring.  Its
      lemmas are proved against the class [RingSource], which the directory implements;
      the theorem on agreement is about what directory replicas send.
    - BlockStore.v (internal/blockstore/store.go): the Go interface as the class [Store],
      its contract as [StoreSpec], the contract with room as [StoreRoom].  LRU.v
      (lru.go) and PagedList.v, Paged.v, PagedProps.v (paged.go, with Float64.v for its
      scores) are the two implementations and instances.  StoreCounts.v: their
      statistics are exact ([StoreCounts], the contract of the counters).
    - CacheNode.v (internal/cachenode/{server,collector}.go): the RPC handlers and the
      telemetry deltas over any store that keeps the contract.
    - Gateway.v (internal/gateway/server.go): [Match], [PutBlocks], [emitAccess] over a
      cluster of stores; GatewayProps.v: exactness, failover, rebalancing; GatewayMetrics.v:
      the handlers with their metrics and broken streams, of which Gateway.v is the
      erasure; PutMatch.v: writing and matching composed.
    - Failover.v: the background loops ([RunGapFiller], [runFailureDetector], the
      watcher's [Run]) and what they bring about together, from a node that falls silent
      to a gateway that matches without it.
    - Events.v (internal/events/{events,bus,kafka}.go): the in-memory bus, the Kafka
      consumer's loop.
    - Prefetch.v (internal/prefetch/prefetch.go): demand, sweeping, warm plans.
    - Warmer.v, Agent.v (internal/cachenode/{warmer,agent}.go): executing warm commands;
      membership of a node as two interleaved goroutines.
    - Collectors.v (internal/cachenode/collector.go, internal/directory/collector.go): the
      Prometheus collectors as instances of one interface, the telemetry loop;
      FloatRound.v: the conversions to [float64] they rely on.
    - Heal.v: Prefetch.v, Warmer.v and Gateway.v composed over a fleet of nodes.
    - Loadgen.v (cmd/loadgen/main.go): the benchmark's workers, against the class
      [GatewayClient], which Gateway.v implements, and the numbers of its report;
      LoadRun.v: all workers interleaved, as [main] runs them.
    - Flags.v (cmd/gateway/main.go, cmd/directory/main.go): the address-list parsers.
    - Boot.v (cmd/*/main.go, [directory.New], [NewNode]): what each program starts from its
      flags, the transport's connections, backoff.

    ** How code is represented

    A pure function is a function; a method under its mutex is one state transformer.  An
    operation that can panic returns an [option] ([None] is the panic); an operation that
    returns an error returns a [result].  Maps are [gmap]; wherever the code ranges over
    a map, the order is an argument or a permutation.  Goroutines of a fan-out are
    processed in an arbitrary order ([sched]); goroutines that share a channel or a
    network are step relations (PaxosNet, [DirectoryProps.wstep], [Agent.agent_step],
    [LoadRun.pstep]).
    Clocks, random sources, [math.Exp2], gRPC dialing and the answers of remote peers
    are arguments; the protobuf codec is a parameter of which only the round trip is
    assumed, and the wire may re-encode a value as long as it keeps its meaning.

    ** What is proved

    - Control plane: agreement on every log slot and state machine replication (C1, C2);
      an epoch determines the membership everywhere (C3), so watchers at one epoch route
      alike (C4); the log applies values in order (C22) and a replica stays well-formed
      whatever reaches it (C23); [Submit] means applied, and succeeds on a quiet slot
      (C24, C25); the transport implements the network and a cluster with the right
      flags boots into its initial state (C26, C27); failure detector, ring stream and
      watcher (C28 to C30).
    - Data plane: [Match] is the longest servable prefix (C5); its retry loop returns
      within two iterations with that answer for the ring it ended on (C37);
      what was written is matched (C6); after a ring change the mesh restores its
      replication factor (C7); chains survive a ring change and the loss of a node
      (C9, C10).
    - Both together: a dead node is detected, leaves the ring, and no stored chain gets
      shorter (C8).
    - Addressing: prompts share the IDs of their common prefix and no others, and an ID
      determines its prefix, up to a SHA-256 collision and for names and block sizes in
      range (C11, C12; C40 is what happens beyond); owner
      lists are the distinct members clockwise, move minimally and do not depend on
      iteration order (C13 to C15).
    - Stores: both refine a list of blocks in recency order (C16, C18); the paged store
      never panics or corrupts a block, accounts for every page, and evicts the lowest
      sampled score (C17, C19, C21); the statistics of both are exact (C20); handlers
      answer exactly and fence stale epochs (C31, C32).
    - The parts of healing: warm plans, warm commands, the agent (C33 to C35), and the
      bound on tracked demand (C36).
    - The benchmark ends, with an error or an exact report (C38).
    - Corners that differ from the comments: C39, C40.
    Other theorems (metrics that never decrease and are consistent, the telemetry feed,
    access events, the bus and the Kafka consumer, commit confluence, upload streams,
    backoff, connections, joins, gaps, flags and address lists, the load generator's
    accounting and report) are stated where their definitions are.

    ** Bounds and fuel

    Loops that are not structural carry fuel equal to a size of their input (tokens,
    virtual nodes, map entries, replicas), and their lemmas show that more fuel changes
    nothing or that the loop's exit was reached.  The retry loop of [Match] has fuel 2:
    C37 shows it has returned by then.  A remote node answers or fails for the whole
    of one [Match], and a call that fails has not reached its store.  Ballots hold 56 bits of round, so the
    safety theorems speak of executions of fewer than 2^56 steps; epochs and slots
    are below 2^64.  The paged store has at most 2^31 pages (page numbers are [int32])
    and capacities below 2^63; payloads are below 2^62 bytes, so that sizes fit an [int].

    ** Not modelled

    The Kafka and Prometheus client libraries, HTTP serving, flag registration, listeners
    and the generated gRPC stubs are calls of libraries or generated code; metrics are
    modelled as the updates and values the code hands to them.  Log lines, the passing
    of time in sleeps (their durations are modelled), and what the load generator
    prints around its numbers have no effect on the modelled state.  Acceptors
    keep their state in memory and the sources exclude restarts, so the model has none.
    Float arithmetic rounds every operation, as Go does where it does not fuse a
    multiplication and an addition. *)

From stdpp Require Export base tactics gmap fin_maps sets list strings numbers sorting pretty.
From Stdlib Require Export Strings.Byte.
From Stdlib Require Export Lia.

#[global] Open Scope general_if_scope.

(** ** Machine integers

    [uint64], [uint32] and [uint8] are [N] with the wrap-around written out at
    the operations that can overflow; [int], [time.Duration] and [int32] are [Z]. *)
Declare Scope go_scope.
Delimit Scope go_scope with go.

Definition two64 : N := 18446744073709551616.
Definition two32 : N := 4294967296.

Definition u64 (x : N) : N := (x `mod` two64)%N.
Definition u32 (x : N) : N := (x `mod` two32)%N.
Definition u8 (x : N) : N := (x `mod` 256)%N.
(** Go's [int] and [time.Duration] wrap at 64 bits. *)
Definition int64 (z : Z) : Z :=
  ((z + 9223372036854775808) `mod` 18446744073709551616 - 9223372036854775808)%Z.
(** [int32(i)] of a Go [int]: two's-complement truncation. *)
Definition int32 (z : Z) : Z := ((z + 2147483648) `mod` 4294967296 - 2147483648)%Z.

Notation "x +₆₄ y" := (u64 (x + y)) (at level 50, left associativity) : go_scope.
(** Unsigned subtraction wraps: [x - y + 2^64 mod 2^64]. *)
Definition sub64 (x y : N) : N := u64 (x + (two64 - u64 y)).
Notation "x -₆₄ y" := (sub64 x y) (at level 50, left associativity) : go_scope.

Ltac unfold_words := unfold sub64, u64, u32, u8, int32, two64, two32 in *.
(** [word_lia]: linear arithmetic through the word-size wrap-arounds. *)
Ltac word_lia :=
  unfold_words; zify; Z.to_euclidean_division_equations; lia.

(** ** Automation

    [go] is the development's hint database: facts about word sizes and codecs that
    close side conditions with [auto with go], and rewrites used by [len_lia], linear
    arithmetic up to the lengths of list operations.  [bind_step] runs the option
    monad after a call was rewritten with its result. *)
Create HintDb go discriminated.
#[export] Hint Rewrite @length_fmap @length_app @length_take @length_drop @length_insert
  @length_replicate @length_seq @length_imap : go.
Ltac len_lia := autorewrite with go in *; simpl in *; lia.
Ltac bind_step := cbn [mbind option_bind].

Lemma u64_lt x : (u64 x < two64)%N.
Proof. word_lia. Qed.
Lemma u64_small x : (x < two64)%N → u64 x = x.
Proof. intros. word_lia. Qed.
Lemma u32_small x : (x < two32)%N → u32 x = x.
Proof. intros. word_lia. Qed.
Lemma sub64_small x y : (y ≤ x)%N → (x < two64)%N → sub64 x y = (x - y)%N.
Proof. intros. word_lia. Qed.
Lemma sub64_add64 x y : (y < two64)%N → u64 (y + sub64 x y) = u64 x.
Proof. intros. word_lia. Qed.
Lemma int32_small z : (0 ≤ z < 2147483648)%Z → int32 z = z.
Proof. intros. word_lia. Qed.
Lemma int64_small z : (0 ≤ z < 9223372036854775808)%Z → int64 z = z.
Proof. unfold int64. intros. rewrite Z.mod_small; lia. Qed.

#[export] Hint Resolve u64_lt u64_small u32_small sub64_small int32_small int64_small : go.

(** Times are nanoseconds; [Time.Sub] saturates at the range of [Duration]. *)
Definition time_Sub (now last : Z) : Z :=
  Z.max (-9223372036854775808) (Z.min 9223372036854775807 (now - last)).

(** ** Bytes *)
Abbreviation bytes := (list byte).

#[global] Instance byte_eq_dec : EqDecision byte := Byte.byte_eq_dec.
#[global] Program Instance byte_countable : Countable byte :=
  inj_countable Byte.to_N Byte.of_N _.
Next Obligation. intros b. apply Byte.of_to_N. Qed.
#[global] Instance byte_inhabited : Inhabited byte := populate x00.

(** [byte(x)]: truncation of an unsigned integer to eight bits. *)
Definition byte_of (x : N) : byte := default x00 (Byte.of_N (u8 x)).

Lemma to_N_byte_of x : Byte.to_N (byte_of x) = u8 x.
Proof.
  unfold byte_of. destruct (Byte.of_N (u8 x)) as [b|] eqn:Hb; simpl.
  - by apply Byte.to_of_N in Hb.
  - apply Byte.of_N_None_iff in Hb. word_lia.
Qed.

Lemma byte_of_to_N b : byte_of (Byte.to_N b) = b.
Proof.
  pose proof (Byte.to_N_bounded b). unfold byte_of, u8.
  rewrite N.mod_small by lia. by rewrite Byte.of_to_N.
Qed.

(** [encoding/binary.BigEndian.PutUint32] and [Uint64], and the 64-bit
    writer SHA-256 uses for the message length. *)
Fixpoint be_bytes (n : nat) (x : N) : bytes :=
  match n with
  | O => []
  | S n' => byte_of (N.shiftr x (8 * N.of_nat n')) :: be_bytes n' x
  end.

Definition PutUint32 (x : N) : bytes := be_bytes 4 x.
#[global] Arguments PutUint32 : simpl never.

Definition be_value (bs : bytes) : N :=
  foldl (λ acc b, (acc * 256 + Byte.to_N b)%N) 0%N bs.

(** [binary.BigEndian.Uint64(b[:8])]; [None] is the slice panic of a [b] with
    fewer than eight bytes. *)
Definition Uint64 (b : bytes) : option N :=
  if decide (8 ≤ length b) then Some (be_value (take 8 b)) else None.

Lemma length_be_bytes n x : length (be_bytes n x) = n.
Proof. by induction n as [|n IH]; simpl; [|rewrite IH]. Qed.

Lemma be_value_app l1 l2 acc :
  foldl (λ acc b, (acc * 256 + Byte.to_N b)%N) acc (l1 ++ l2) =
  foldl (λ acc b, (acc * 256 + Byte.to_N b)%N)
    (foldl (λ acc b, (acc * 256 + Byte.to_N b)%N) acc l1) l2.
Proof. apply foldl_app. Qed.

Lemma be_value_bytes_acc n x acc :
  foldl (λ acc b, (acc * 256 + Byte.to_N b)%N) acc (be_bytes n x) =
  (acc * 256 ^ N.of_nat n + x `mod` 256 ^ N.of_nat n)%N.
Proof.
  revert acc. induction n as [|n IH]; intros acc; cbn [be_bytes foldl].
  { rewrite N.mod_1_r. lia. }
  rewrite IH, to_N_byte_of, N.shiftr_div_pow2. unfold u8.
  rewrite N.pow_mul_r. change (2 ^ 8)%N with 256%N.
  rewrite Nat2N.inj_succ, N.pow_succ_r'.
  pose proof (N.pow_nonzero 256 (N.of_nat n) ltac:(lia)) as Hnz.
  set (p := (256 ^ N.of_nat n)%N) in *.
  rewrite (N.mul_comm 256 p), N.Div0.mod_mul_r. lia.
Qed.

Lemma be_value_bytes n x : be_value (be_bytes n x) = (x `mod` 256 ^ N.of_nat n)%N.
Proof. unfold be_value. rewrite be_value_bytes_acc. lia. Qed.

Lemma PutUint32_inj x y :
  (x < two32)%N → (y < two32)%N → PutUint32 x = PutUint32 y → x = y.
Proof.
  intros Hx Hy Heq%(f_equal be_value). unfold PutUint32 in Heq.
  rewrite !be_value_bytes in Heq. change (256 ^ N.of_nat 4)%N with two32 in Heq.
  word_lia.
Qed.

Lemma length_PutUint32 x : length (PutUint32 x) = 4.
Proof. apply length_be_bytes. Qed.

(** A Go [string] as the bytes it holds. *)
Fixpoint string_bytes (s : string) : bytes :=
  match s with
  | EmptyString => []
  | String a s' => Ascii.byte_of_ascii a :: string_bytes s'
  end.

Lemma string_bytes_inj s1 s2 : string_bytes s1 = string_bytes s2 → s1 = s2.
Proof.
  revert s2. induction s1 as [|a s1 IH]; intros [|b s2]; simpl; try done.
  intros [= Hab Hs]. f_equal; [|by apply IH].
  rewrite <-(Ascii.ascii_of_byte_of_ascii a), <-(Ascii.ascii_of_byte_of_ascii b).
  by rewrite Hab.
Qed.

(** [string(b)] of a byte slice: Go strings hold arbitrary bytes. *)
Fixpoint bytes_string (b : bytes) : string :=
  match b with
  | [] => EmptyString
  | x :: b' => String (Ascii.ascii_of_byte x) (bytes_string b')
  end.

Lemma string_bytes_string b : string_bytes (bytes_string b) = b.
Proof.
  induction b as [|x b IH]; simpl; [done|].
  by rewrite IH, Ascii.byte_of_ascii_of_byte.
Qed.

Lemma bytes_string_bytes s : bytes_string (string_bytes s) = s.
Proof.
  induction s as [|a s IH]; simpl; [done|].
  by rewrite IH, Ascii.ascii_of_byte_of_ascii.
Qed.

#[export] Hint Rewrite length_be_bytes length_PutUint32 string_bytes_string bytes_string_bytes
  byte_of_to_N to_N_byte_of : go.
#[export] Hint Resolve string_bytes_inj PutUint32_inj : go.

(** ** Errors

    gRPC handlers return a value or a [status]; the message keeps the text the
    code formats. *)
Inductive code := InvalidArgument | FailedPrecondition | Unavailable | Internal.
#[global] Instance code_eq_dec : EqDecision code.
Proof. solve_decision. Defined.

Record status := Status { st_code : code; st_msg : string }.

Inductive result (E A : Type) : Type :=
| Ok (a : A)
| Err (e : E).
Arguments Ok {E A} a.
Arguments Err {E A} e.

#[global] Instance result_ret E : MRet (result E) := λ A a, Ok a.
#[global] Instance result_bind E : MBind (result E) := λ A B f m,
  match m with Ok a => f a | Err e => Err e end.

Definition is_ok {E A} (r : result E A) : bool :=
  match r with Ok _ => true | Err _ => false end.

(** ** [sort.Search]

    The Go standard library's binary search, [Search(n, f)]: the loop keeps
    [f (i-1) = false] and [f j = true] and halves the interval; [n] is enough
    fuel because the interval shrinks at every iteration. *)
Fixpoint search_loop (fuel : nat) (f : nat → bool) (i j : nat) : nat :=
  match fuel with
  | O => i
  | S fuel =>
      if i <? j then
        let h := (i + j) / 2 in
        if f h then search_loop fuel f i h else search_loop fuel f (S h) j
      else i
  end.

Definition Search (n : nat) (f : nat → bool) : nat := search_loop n f 0 n.

Lemma search_loop_spec fuel f i j :
  j - i ≤ fuel → i ≤ j →
  (∀ a b, a ≤ b → f a = true → f b = true) →
  (∀ a, a < i → f a = false) →
  let r := search_loop fuel f i j in
  i ≤ r ≤ j ∧ (∀ a, a < r → f a = false) ∧ (r < j → f r = true).
Proof.
  intros Hfuel Hij Hmono Hlo.
  revert i j Hfuel Hij Hlo. induction fuel as [|fuel IH]; intros i j Hfuel Hij Hlo; cbn [search_loop]; cbv zeta.
  { split_and!; [lia|lia|done|lia]. }
  destruct (Nat.ltb_spec i j) as [Hlt|Hge]; [|split_and!; [lia|lia|done|lia]].
  assert (i ≤ (i + j) / 2 < j) as [Hh1 Hh2].
  { split; [apply Nat.div_le_lower_bound|apply Nat.Div0.div_lt_upper_bound]; lia. }
  set (h := (i + j) / 2) in *. destruct (f h) eqn:Hfh.
  - destruct (IH i h) as (Hr & Hr1 & Hr2); [lia|lia|done|].
    split_and!; [lia|lia|done|]. intros _.
    destruct (decide (search_loop fuel f i h < h)) as [|Hnlt]; [by apply Hr2|].
    by replace (search_loop fuel f i h) with h by lia.
  - destruct (IH (S h) j) as (Hr & Hr1 & Hr2); [lia|lia| |].
    { intros a Ha. destruct (f a) eqn:Hfa; [|done].
      rewrite (Hmono a h) in Hfh; [done|lia|done]. }
    split_and!; [lia|lia|done|done].
Qed.

(** ** Lists *)

(** Keep the first occurrence of every element. *)
Fixpoint nub_acc {A} `{EqDecision A} (seen l : list A) : list A :=
  match l with
  | [] => []
  | x :: l => if decide (x ∈ seen) then nub_acc seen l else x :: nub_acc (x :: seen) l
  end.
Definition nub {A} `{EqDecision A} (l : list A) : list A := nub_acc [] l.

Section nub.
Context {A : Type} `{EqDecision A}.
Implicit Types (x : A) (l seen : list A).

Lemma nub_acc_ext seen seen' l :
  (∀ x, x ∈ seen ↔ x ∈ seen') → nub_acc seen l = nub_acc seen' l.
Proof.
  revert seen seen'. induction l as [|y l IH]; intros seen seen' Hs; simpl; [done|].
  destruct (decide (y ∈ seen)), (decide (y ∈ seen')); try naive_solver.
  f_equal. apply IH. set_solver.
Qed.

Lemma elem_of_nub_acc seen l x : x ∈ nub_acc seen l ↔ x ∈ l ∧ x ∉ seen.
Proof.
  revert seen. induction l as [|y l IH]; intros seen; simpl; [set_solver|].
  destruct (decide (y ∈ seen)); rewrite ?elem_of_cons, IH, ?elem_of_cons;
    destruct (decide (x = y)); naive_solver.
Qed.

Lemma elem_of_nub l x : x ∈ nub l ↔ x ∈ l.
Proof. unfold nub. rewrite elem_of_nub_acc. set_solver. Qed.

Lemma NoDup_nub_acc seen l : NoDup (nub_acc seen l).
Proof.
  revert seen. induction l as [|y l IH]; intros seen; simpl; [constructor|].
  destruct (decide (y ∈ seen)); [done|]. constructor; [|done].
  rewrite elem_of_nub_acc. set_solver.
Qed.

Lemma NoDup_nub l : NoDup (nub l).
Proof. apply NoDup_nub_acc. Qed.

Lemma filter_nub_acc (P : A → Prop) `{∀ x, Decision (P x)} seen l :
  filter P (nub_acc seen l) = nub_acc seen (filter P l).
Proof.
  revert seen. induction l as [|y l IH]; intros seen; simpl; [done|].
  rewrite (filter_cons _ y l). destruct (decide (P y)) as [HP|HP]; simpl.
  - destruct (decide (y ∈ seen)); [done|].
    rewrite filter_cons, decide_True by done. by rewrite IH.
  - destruct (decide (y ∈ seen)); [done|].
    rewrite filter_cons, decide_False by done. rewrite IH. clear IH.
    assert (∀ l', Forall P l' → nub_acc (y :: seen) l' = nub_acc seen l') as Heq.
    { clear -HP. intros l'. revert seen. induction l' as [|z l' IH]; intros seen Hall; [done|].
      inv Hall. simpl. destruct (decide (z ∈ seen)) as [Hz|Hz].
      - rewrite decide_True by set_solver. by apply IH.
      - rewrite decide_False by (rewrite elem_of_cons; naive_solver). f_equal.
        rewrite <-(IH (z :: seen)) by done. apply nub_acc_ext. set_solver. }
    apply Heq, Forall_forall. intros z Hz. by apply list_elem_of_filter in Hz as [].
Qed.

Lemma filter_nub (P : A → Prop) `{∀ x, Decision (P x)} l :
  filter P (nub l) = nub (filter P l).
Proof. apply filter_nub_acc. Qed.
End nub.

Lemma elem_of_concat {A} (x : A) (ls : list (list A)) :
  x ∈ concat ls ↔ ∃ l, x ∈ l ∧ l ∈ ls.
Proof.
  rewrite list_elem_of_In, in_concat. setoid_rewrite <-list_elem_of_In. naive_solver.
Qed.

Lemma filter_all {A} (P : A → Prop) `{∀ x, Decision (P x)} (l : list A) :
  Forall P l → filter P l = l.
Proof. induction 1; [done|]. rewrite filter_cons, decide_True by done. by f_equal. Qed.

Lemma filter_none {A} (P : A → Prop) `{∀ x, Decision (P x)} (l : list A) :
  Forall (λ x, ¬ P x) l → filter P l = [].
Proof. induction 1; [done|]. by rewrite filter_cons, decide_False. Qed.

Lemma filter_fmap {A B} (f : A → B) (P : B → Prop) `{∀ x, Decision (P x)} (l : list A) :
  filter P (f <$> l) = f <$> filter (λ x, P (f x)) l.
Proof.
  induction l as [|x l IH]; [done|]. rewrite fmap_cons, !filter_cons.
  destruct (decide (P (f x))); simpl; by rewrite ?fmap_cons, IH.
Qed.

Lemma filter_comm {A} (P Q : A → Prop) `{∀ x, Decision (P x)} `{∀ x, Decision (Q x)} (l : list A) :
  filter P (filter Q l) = filter Q (filter P l).
Proof.
  induction l as [|x l IH]; [done|]. rewrite !(filter_cons _ x).
  destruct (decide (P x)), (decide (Q x)); rewrite ?filter_cons;
    repeat (first [rewrite decide_True by done|rewrite decide_False by done]); by rewrite ?IH.
Qed.

Lemma StronglySorted_filter {A} (R : relation A) (P : A → Prop) `{∀ x, Decision (P x)} (l : list A) :
  StronglySorted R l → StronglySorted R (filter P l).
Proof.
  induction 1 as [|x l Hs IH Hx]; [constructor|]. rewrite filter_cons.
  destruct (decide (P x)); [|done]. constructor; [done|].
  apply Forall_forall. intros y [_ Hy]%list_elem_of_filter.
  by eapply Forall_forall in Hx.
Qed.

#[export] Hint Resolve NoDup_nub NoDup_nub_acc StronglySorted_filter : go.

(** Invariants of a left fold. *)
Lemma foldl_inv {A B} (P : B → Prop) (f : B → A → B) (l : list A) (b : B) :
  P b → (∀ b x, x ∈ l → P b → P (f b x)) → P (foldl f b l).
Proof.
  revert b. induction l as [|x l IH]; intros b Hb Hf; simpl; [done|].
  apply IH; [apply Hf; [by left|done]|]. intros b' y Hy. apply Hf. by right.
Qed.

(** Extending a strictly increasing list past its last element. *)
Lemma StronglySorted_snoc (l : list N) y :
  StronglySorted N.lt l → (∀ x, last l = Some x → (x < y)%N) → StronglySorted N.lt (l ++ [y]).
Proof.
  induction 1 as [|x l Hs IH Hx]; intros Hlast; simpl; [by repeat constructor|].
  destruct (decide (l = [])) as [->|Hne].
  { repeat constructor. by apply Hlast. }
  destruct (last l) as [z|] eqn:Hz; [|by apply last_None in Hz].
  constructor.
  - apply IH. intros w [= <-]. apply Hlast. destruct l; [done|]. by rewrite last_cons, Hz.
  - apply Forall_app. split; [done|]. constructor; [|constructor].
    assert (z ∈ l) as Hin by (by apply last_Some_elem_of).
    eapply Forall_forall in Hx; [|exact Hin].
    assert (z < y)%N; [|lia]. apply Hlast. destruct l; [done|]. by rewrite last_cons, Hz.
Qed.

(** Filters that agree on the elements of the list. *)
Lemma filter_ext_in {A} (P Q : A → Prop) `{∀ x, Decision (P x)} `{∀ x, Decision (Q x)} (l : list A) :
  (∀ x, x ∈ l → P x ↔ Q x) → filter P l = filter Q l.
Proof.
  induction l as [|x l IH]; intros Heq; [done|]. rewrite !filter_cons.
  rewrite IH by (intros; apply Heq; by right).
  destruct (decide (P x)), (decide (Q x)); try done; exfalso; specialize (Heq x ltac:(by left)); naive_solver.
Qed.

Lemma NoDup_fmap_inj {A B} (f : A → B) (l : list A) x y :
  NoDup (f <$> l) → x ∈ l → y ∈ l → f x = f y → x = y.
Proof.
  induction l as [|z l IH]; intros Hnd Hx Hy Hf; [set_solver|].
  apply NoDup_cons in Hnd as [Hz Hnd].
  apply elem_of_cons in Hx as [->|Hx], Hy as [->|Hy]; [done| | |by apply IH].
  - destruct Hz. apply list_elem_of_fmap. eauto.
  - destruct Hz. apply list_elem_of_fmap. eauto.
Qed.

Lemma NoDup_fmap_in {A B} (f : A → B) (l : list A) :
  NoDup l → (∀ x y, x ∈ l → y ∈ l → f x = f y → x = y) → NoDup (f <$> l).
Proof.
  induction 1 as [|x l Hx Hnd IH]; intros Hinj; [constructor|]. rewrite fmap_cons. constructor.
  - intros (y & Hy & Hin)%list_elem_of_fmap.
    rewrite (Hinj x y) in Hx by (set_solver || done). done.
  - apply IH. intros y z ???. apply Hinj; set_solver.
Qed.

(** Removal by moving the last element into the hole. *)
Section swap_remove.
Context {A : Type} (l : list A) (i : nat) (v x : A).
Context (Hv : l !! i = Some v) (Hx : last l = Some x).
Let l' := take (length (<[i := x]> l) - 1) (<[i := x]> l).

Lemma swap_remove_perm : v :: l' ≡ₚ l.
Proof.
  subst l'. apply list_elem_of_split_length in Hv as (l1 & l2 & -> & ->).
  rewrite length_insert. rewrite (insert_app_r_alt l1) by lia. rewrite Nat.sub_diag. simpl.
  rewrite length_app. simpl. destruct l2 as [|y l2 _] using rev_ind.
  - rewrite take_app_length' by (simpl; lia). by rewrite <-Permutation_middle, app_nil_r.
  - assert (y = x) as ->.
    { rewrite app_comm_cons, app_assoc, last_snoc in Hx. congruence. }
    rewrite length_app. simpl. rewrite app_comm_cons, app_assoc, take_app_length'
      by (rewrite length_app; simpl; lia).
    solve_Permutation.
Qed.

Lemma swap_remove_lookup j y :
  NoDup l → l' !! j = Some y → (y = x ∧ j = i) ∨ (y ≠ x ∧ l !! j = Some y).
Proof.
  subst l'. intros Hnd Hj. rewrite length_insert in Hj.
  pose proof (lookup_lt_Some _ _ _ Hj) as Hlt. rewrite length_take, length_insert in Hlt.
  rewrite lookup_take_lt in Hj by lia.
  apply list_lookup_insert_Some in Hj as [(-> & -> & _)|[Hne Hj]]; [by left|right].
  split; [|done]. intros ->. rewrite last_lookup in Hx.
  assert (j = Init.Nat.pred (length l)) by (by eapply NoDup_lookup). lia.
Qed.
End swap_remove.
