(* ===== verification/Sha256.v ===== *)
(** * SHA-256 (Go's [crypto/sha256])

    The hash the chain and the ring are built on, as FIPS 180-4 defines it, on
    32-bit words kept in [N].  It is executable; the only fact the rest of the
    development uses is that a digest has 32 bytes ([length_sha256]). *)

From S2P Require Import Prelude.

Module Sha256.
Local Open Scope N_scope.

Definition rotr (x n : N) : N :=
  N.lor (N.shiftr x n) (u32 (N.shiftl x (32 - n))).
Definition shr (x n : N) : N := N.shiftr x n.
Definition add32 (x y : N) : N := u32 (x + y).
Definition not32 (x : N) : N := N.lxor x 4294967295.

Definition Ch (x y z : N) : N := N.lxor (N.land x y) (N.land (not32 x) z).
Definition Maj (x y z : N) : N :=
  N.lxor (N.lxor (N.land x y) (N.land x z)) (N.land y z).
Definition bsig0 (x : N) : N := N.lxor (N.lxor (rotr x 2) (rotr x 13)) (rotr x 22).
Definition bsig1 (x : N) : N := N.lxor (N.lxor (rotr x 6) (rotr x 11)) (rotr x 25).
Definition ssig0 (x : N) : N := N.lxor (N.lxor (rotr x 7) (rotr x 18)) (shr x 3).
Definition ssig1 (x : N) : N := N.lxor (N.lxor (rotr x 17) (rotr x 19)) (shr x 10).

(** The constants are not listed but derived from their definition: the first
    32 fractional bits of the cube roots (round constants) and square roots
    (initial state) of the first primes. *)
Definition is_prime (p : nat) : bool :=
  forallb (λ d, negb (Nat.eqb (p mod d) 0)) (seq 2 (p - 2)).
Definition primes (n : nat) : list N :=
  N.of_nat <$> take n (List.filter is_prime (seq 2 310)).

(** Integer cube root by trying bits from 2^35 down. *)
Fixpoint icbrt (bit : nat) (n r : N) : N :=
  let r' := r + 2 ^ N.of_nat bit in
  let r := if r' * r' * r' <=? n then r' else r in
  match bit with
  | O => r
  | S bit => icbrt bit n r
  end.

Definition cbrt_frac (p : N) : N := u32 (icbrt 35 (p * 2 ^ 96) 0).
Definition sqrt_frac (p : N) : N := u32 (N.sqrt (p * 2 ^ 64)).

Definition K : list N := Eval vm_compute in (cbrt_frac <$> primes 64).

Record regs := Regs { ra : N; rb : N; rc : N; rd : N; re : N; rf : N; rg : N; rh : N }.

Definition H0 : regs := Eval vm_compute in
  match sqrt_frac <$> primes 8 with
  | [a; b; c; d; e; f; g; h] => Regs a b c d e f g h
  | _ => Regs 0 0 0 0 0 0 0 0
  end.

(** The message schedule, newest word first: [w] holds [W_{t-1}, W_{t-2}, ...]. *)
Definition sched_next (w : list N) : N :=
  let at_ i := default 0 (w !! (i - 1)%nat) in
  add32 (add32 (ssig1 (at_ 2%nat)) (at_ 7%nat)) (add32 (ssig0 (at_ 15%nat)) (at_ 16%nat)).

Fixpoint extend (n : nat) (w : list N) : list N :=
  match n with
  | O => w
  | S n => extend n (sched_next w :: w)
  end.

Definition round (r : regs) (kw : N * N) : regs :=
  let '(k, w) := kw in
  let t1 := add32 (add32 (rh r) (bsig1 (re r)))
                  (add32 (Ch (re r) (rf r) (rg r)) (add32 k w)) in
  let t2 := add32 (bsig0 (ra r)) (Maj (ra r) (rb r) (rc r)) in
  Regs (add32 t1 t2) (ra r) (rb r) (rc r) (add32 (rd r) t1) (re r) (rf r) (rg r).

Definition add_regs (x y : regs) : regs :=
  Regs (add32 (ra x) (ra y)) (add32 (rb x) (rb y)) (add32 (rc x) (rc y)) (add32 (rd x) (rd y))
       (add32 (re x) (re y)) (add32 (rf x) (rf y)) (add32 (rg x) (rg y)) (add32 (rh x) (rh y)).

(** Compress one 64-byte block given as its sixteen words. *)
Definition compress (h : regs) (ws : list N) : regs :=
  add_regs h (foldl round h (zip K (reverse (extend 48 (reverse ws))))).

Fixpoint words (n : nat) (b : bytes) : list N :=
  match n with
  | O => []
  | S n => be_value (take 4 b) :: words n (drop 4 b)
  end.

Fixpoint blocks (n : nat) (h : regs) (b : bytes) : regs :=
  match n with
  | O => h
  | S n => blocks n (compress h (words 16 b)) (drop 64 b)
  end.

(** Padding: [0x80], zeros up to 56 modulo 64, and the bit length in 64 bits. *)
Definition pad (msg : bytes) : bytes :=
  let len := length msg in
  msg ++ [x80] ++ replicate ((119 - len mod 64) mod 64)%nat x00
      ++ be_bytes 8 (8 * N.of_nat len).

Definition digest (r : regs) : bytes :=
  be_bytes 4 (ra r) ++ be_bytes 4 (rb r) ++ be_bytes 4 (rc r) ++ be_bytes 4 (rd r) ++
  be_bytes 4 (re r) ++ be_bytes 4 (rf r) ++ be_bytes 4 (rg r) ++ be_bytes 4 (rh r).

Definition sha256 (msg : bytes) : bytes :=
  let p := pad msg in digest (blocks (length p / 64)%nat H0 p).

Lemma length_digest r : length (digest r) = 32%nat.
Proof. unfold digest. by rewrite !length_app, !length_be_bytes. Qed.

Lemma length_sha256 msg : length (sha256 msg) = 32%nat.
Proof. apply length_digest. Qed.

(** The standard test vector for the message [abc]. *)
Example sha256_abc :
  be_value (sha256 (string_bytes "abc")) =
  0xba7816bf8f01cfea414140de5dae2223b00361a396177a9cb410ff61f20015ad.
Proof. vm_compute. reflexivity. Qed.
End Sha256.
#[global] Opaque Sha256.sha256.
