(* ===== verification/Chain.v ===== *)
(** * Content addressing: src/internal/chain/chain.go

    A prompt is cut into blocks of [blockSize] tokens and the block IDs form a
    SHA-256 chain.  [Root], [Next], [Chunk] and [Build] are the functions of the
    package; a Go panic is [None].  The theorems say when two chains share an
    ID: exactly when the token prefixes agree, or two of the byte strings that
    were actually hashed collide. *)

From S2P Require Import Prelude Sha256.

Module Chain.
Import Sha256.

Definition HashSize : nat := 32.

(** [BlockID] is Go's [[32]byte]. *)
Abbreviation BlockID := bytes.

(** [uint32(blockSize)] of a Go [int]. *)
Definition uint32_of_int (z : Z) : N := Z.to_N (z `mod` 4294967296)%Z.

(** The bytes [Root] feeds to the hash. *)
Definition root_input (modelID : string) (blockSize : Z) : bytes :=
  string_bytes modelID ++ PutUint32 (uint32_of_int blockSize).

Definition Root (modelID : string) (blockSize : Z) : BlockID :=
  sha256 (root_input modelID blockSize).

(** The bytes [Next] feeds to the hash: the parent, then each token in
    big-endian order. *)
Definition next_input (parent : BlockID) (tokens : list N) : bytes :=
  parent ++ concat (PutUint32 <$> tokens).

Definition Next (parent : BlockID) (tokens : list N) : BlockID :=
  sha256 (next_input parent tokens).

(** [tokens[lo:hi]] for in-range bounds. *)
Definition slice {A} (l : list A) (lo hi : nat) : list A := take (hi - lo) (drop lo l).

(** The loop [for start := 0; start < len(tokens); start += blockSize]; every
    iteration advances by at least one, so [len(tokens)] iterations suffice. *)
Fixpoint chunk_loop (fuel : nat) (tokens : list N) (blockSize start : nat) : list (list N) :=
  match fuel with
  | O => []
  | S fuel =>
      if start <? length tokens then
        let end_ := (start + blockSize) `min` length tokens in
        slice tokens start end_ :: chunk_loop fuel tokens blockSize (start + blockSize)
      else []
  end.

Definition Chunk (tokens : list N) (blockSize : Z) : option (list (list N)) :=
  if (blockSize <=? 0)%Z then None
  else Some (chunk_loop (length tokens) tokens (Z.to_nat blockSize) 0).

(** The loop of [Build]: [parent = Next(parent, blk); ids[i] = parent]. *)
Fixpoint build_loop (parent : BlockID) (blocks : list (list N)) : list BlockID :=
  match blocks with
  | [] => []
  | blk :: blocks => let parent := Next parent blk in parent :: build_loop parent blocks
  end.

Definition Build (modelID : string) (blockSize : Z) (tokens : list N) : option (list BlockID) :=
  let parent := Root modelID blockSize in
  blocks ← Chunk tokens blockSize;
  Some (build_loop parent blocks).

(** The byte strings a call of [Build] hashes, root first. *)
Fixpoint inputs_loop (parent : BlockID) (blocks : list (list N)) : list bytes :=
  match blocks with
  | [] => []
  | blk :: blocks => next_input parent blk :: inputs_loop (Next parent blk) blocks
  end.

Definition hash_inputs (modelID : string) (blockSize : Z) (blocks : list (list N)) : list bytes :=
  root_input modelID blockSize :: inputs_loop (Root modelID blockSize) blocks.

(** Two of the hashed strings are different and have the same digest. *)
Definition collision (l1 l2 : list bytes) : Prop :=
  ∃ p q, p ∈ l1 ∧ q ∈ l2 ∧ p ≠ q ∧ sha256 p = sha256 q.

(** ** Chunking *)
Lemma chunk_loop_nil fuel bs start tokens :
  length tokens ≤ start → chunk_loop fuel tokens bs start = [].
Proof.
  intros Hle. destruct fuel; simpl; [done|].
  by rewrite (proj2 (Nat.ltb_ge _ _) Hle).
Qed.

Lemma chunk_loop_step fuel bs start tokens :
  start < length tokens → 0 < bs →
  chunk_loop (S fuel) tokens bs start =
  take bs (drop start tokens) :: chunk_loop fuel tokens bs (start + bs).
Proof.
  intros Hlt Hbs. cbn [chunk_loop]. rewrite (proj2 (Nat.ltb_lt _ _) Hlt).
  f_equal. unfold slice.
  destruct (Nat.min_spec (start + bs) (length tokens)) as [[? ->]|[? ->]].
  - f_equal. lia.
  - rewrite !take_ge; rewrite ?length_drop; [done|lia..].
Qed.

Lemma chunk_loop_fuel fuel fuel' bs start tokens :
  0 < bs → length tokens - start ≤ fuel → length tokens - start ≤ fuel' →
  chunk_loop fuel tokens bs start = chunk_loop fuel' tokens bs start.
Proof.
  intros Hbs. revert fuel' start. induction fuel as [|fuel IH]; intros fuel' start H1 H2.
  { by rewrite !chunk_loop_nil by lia. }
  destruct (decide (start < length tokens)); [|by rewrite !chunk_loop_nil by lia].
  destruct fuel' as [|fuel']; [lia|].
  rewrite !chunk_loop_step by done. f_equal. apply IH; lia.
Qed.

(** The blocks in order are the prompt from [start]. *)
Lemma concat_chunk_loop fuel bs start tokens :
  0 < bs → length tokens - start ≤ fuel →
  concat (chunk_loop fuel tokens bs start) = drop start tokens.
Proof.
  intros Hbs. revert start. induction fuel as [|fuel IH]; intros start Hf.
  { rewrite drop_ge by lia. done. }
  destruct (decide (start < length tokens)).
  - rewrite chunk_loop_step by done. simpl. rewrite IH by lia.
    rewrite <-drop_drop. apply take_drop.
  - rewrite chunk_loop_nil, drop_ge by lia. done.
Qed.

Lemma concat_take_chunk_loop k bs fuel start tokens :
  0 < bs → length tokens - start ≤ fuel →
  concat (take k (chunk_loop fuel tokens bs start)) = take (k * bs) (drop start tokens).
Proof.
  intros Hbs. revert k start. induction fuel as [|fuel IH]; intros k start Hf.
  { rewrite drop_ge by lia. simpl. by rewrite !take_nil. }
  destruct k as [|k]; [done|].
  destruct (decide (start < length tokens)).
  - rewrite chunk_loop_step by done. cbn [take concat]. rewrite IH by lia.
    rewrite <-drop_drop, Nat.mul_succ_l, Nat.add_comm. apply take_take_drop.
  - rewrite chunk_loop_nil, drop_ge by lia. by rewrite !take_nil.
Qed.

(** Looking only at the first [k] blocks looks only at [k * bs] tokens. *)
Lemma take_chunk_loop k fuel bs start t1 t2 :
  0 < bs → length t1 - start ≤ fuel → length t2 - start ≤ fuel →
  take (k * bs) (drop start t1) = take (k * bs) (drop start t2) →
  take k (chunk_loop fuel t1 bs start) = take k (chunk_loop fuel t2 bs start).
Proof.
  intros Hbs. revert k start. induction fuel as [|fuel IH]; intros k start H1 H2 Heq; [done|].
  destruct k as [|k]; [done|]. rewrite Nat.mul_succ_l in Heq.
  assert (take bs (drop start t1) = take bs (drop start t2)) as Hhd.
  { apply (f_equal (take bs)) in Heq. rewrite !take_take in Heq.
    by rewrite Nat.min_l in Heq by lia. }
  assert (take (k * bs) (drop (start + bs) t1) = take (k * bs) (drop (start + bs) t2)) as Htl.
  { apply (f_equal (drop bs)) in Heq. rewrite !skipn_firstn_comm, !drop_drop in Heq.
    by replace (k * bs + bs - bs) with (k * bs) in Heq by lia. }
  assert (start < length t1 ↔ start < length t2) as Hlen.
  { apply (f_equal length) in Hhd. rewrite !length_take, !length_drop in Hhd. lia. }
  destruct (decide (start < length t1)).
  - rewrite !chunk_loop_step by tauto. simpl. f_equal; [done|]. apply IH; [lia|lia|done].
  - by rewrite !chunk_loop_nil by lia.
Qed.

Lemma lookup_chunk_loop fuel bs start i blk tokens :
  0 < bs → length tokens - start ≤ fuel →
  chunk_loop fuel tokens bs start !! i = Some blk →
  blk = take bs (drop (start + i * bs) tokens) ∧ blk ≠ [].
Proof.
  intros Hbs. revert start i. induction fuel as [|fuel IH]; intros start i Hf; [done|].
  destruct (decide (start < length tokens)); [|by rewrite chunk_loop_nil by lia].
  rewrite chunk_loop_step by done. destruct i as [|i]; simpl.
  - intros [= <-]. rewrite Nat.add_0_r. split; [done|].
    intros Hn%(f_equal length). rewrite length_take, length_drop in Hn. simpl in Hn. lia.
  - intros Hi. apply IH in Hi as [-> ?]; [|lia].
    split; [do 2 f_equal; lia|done].
Qed.

(** ** The chain as the list of hashed inputs *)
Lemma build_loop_inputs parent blocks :
  build_loop parent blocks = sha256 <$> inputs_loop parent blocks.
Proof.
  revert parent. induction blocks as [|blk blocks IH]; intros parent; simpl; [done|].
  by rewrite IH.
Qed.

Lemma length_build_loop parent blocks : length (build_loop parent blocks) = length blocks.
Proof. revert parent. induction blocks as [|b blocks IH]; intros parent; simpl; [done|]. by rewrite IH. Qed.

Lemma build_loop_take k parent blocks :
  take k (build_loop parent blocks) = build_loop parent (take k blocks).
Proof.
  revert parent k. induction blocks as [|blk blocks IH]; intros parent [|k]; simpl; try done.
  by rewrite IH.
Qed.

Lemma inputs_loop_parent p blocks i q :
  (p :: inputs_loop (sha256 p) blocks) !! S i = Some q →
  ∃ p' blk, (p :: inputs_loop (sha256 p) blocks) !! i = Some p' ∧
    blocks !! i = Some blk ∧ q = next_input (sha256 p') blk.
Proof.
  revert p i. induction blocks as [|blk blocks IH]; intros p i; [done|].
  destruct i as [|i]; simpl.
  - intros [= <-]. eauto.
  - intros Hq. apply IH in Hq as (p' & blk' & ? & ? & ->). eauto.
Qed.

Lemma Build_Some modelID bs tokens ids :
  Build modelID bs tokens = Some ids →
  (0 < bs)%Z ∧
  let blocks := chunk_loop (length tokens) tokens (Z.to_nat bs) 0 in
  Chunk tokens bs = Some blocks ∧ ids = build_loop (Root modelID bs) blocks.
Proof.
  unfold Build, Chunk. destruct (Z.leb_spec bs 0); simpl; [done|]. naive_solver.
Qed.

Lemma PutUint32s_inj l1 l2 :
  Forall (λ t, (t < two32)%N) l1 → Forall (λ t, (t < two32)%N) l2 →
  concat (PutUint32 <$> l1) = concat (PutUint32 <$> l2) → l1 = l2.
Proof.
  intros H1. revert l2. induction H1 as [|x l1 Hx H1 IH]; intros [|y l2] H2;
    rewrite ?fmap_cons, ?concat_cons.
  - done.
  - discriminate.
  - discriminate.
  - inv H2. intros [Hh Ht]%app_inj_1; [|by rewrite !length_PutUint32].
    apply PutUint32_inj in Hh; [|done..]. subst. f_equal. by apply IH.
Qed.

Lemma next_input_inj p1 p2 t1 t2 :
  length p1 = length p2 →
  Forall (λ t, (t < two32)%N) t1 → Forall (λ t, (t < two32)%N) t2 →
  next_input p1 t1 = next_input p2 t2 → p1 = p2 ∧ t1 = t2.
Proof.
  intros Hlen H1 H2 Heq. unfold next_input in Heq.
  apply app_inj_1 in Heq as [-> Heq]; [|done].
  split; [done|]. by apply PutUint32s_inj.
Qed.

Lemma root_input_inj m1 m2 b1 b2 :
  (0 < b1 < 4294967296)%Z → (0 < b2 < 4294967296)%Z →
  root_input m1 b1 = root_input m2 b2 → m1 = m2 ∧ b1 = b2.
Proof.
  intros Hb1 Hb2 Heq. unfold root_input in Heq.
  apply app_inj_2 in Heq as [Hm Hb]; [|by rewrite !length_PutUint32].
  apply string_bytes_inj in Hm. split; [done|]. unfold uint32_of_int in Hb.
  rewrite !Z.mod_small in Hb by lia.
  apply PutUint32_inj in Hb; unfold two32; lia.
Qed.

Lemma length_next_input parent blk :
  length (next_input parent blk) = length parent + 4 * length blk.
Proof.
  unfold next_input. rewrite length_app. f_equal.
  induction blk as [|t blk IH]; [done|].
  rewrite fmap_cons, concat_cons, length_app, length_PutUint32, IH. simpl. lia.
Qed.

Lemma length_root_input m b : length (root_input m b) = length (string_bytes m) + 4.
Proof. unfold root_input. by rewrite length_app, length_PutUint32. Qed.

(** With a model name under 32 bytes, no [Next] input is a [Root] input: it is
    longer. *)
Lemma root_next_differ m b parent blk :
  length (string_bytes m) < 32 → length parent = 32 → blk ≠ [] →
  root_input m b ≠ next_input parent blk.
Proof.
  intros Hm Hp Hblk Heq%(f_equal length).
  rewrite length_root_input, length_next_input, Hp in Heq.
  apply Hblk, nil_length_inv. lia.
Qed.

(** Walking two chains back to their roots: equal digests at depths [i] and [j]
    mean equal depths and equal blocks, or a collision on the way. *)
Lemma shared_digest m1 m2 b1 b2 bl1 bl2 i j p q :
  length (string_bytes m1) < 32 → length (string_bytes m2) < 32 →
  (∀ blk, blk ∈ bl1 ∨ blk ∈ bl2 → blk ≠ [] ∧ Forall (λ t, (t < two32)%N) blk) →
  hash_inputs m1 b1 bl1 !! i = Some p → hash_inputs m2 b2 bl2 !! j = Some q →
  sha256 p = sha256 q →
  (i = j ∧ root_input m1 b1 = root_input m2 b2 ∧ take i bl1 = take j bl2) ∨
  collision (hash_inputs m1 b1 bl1) (hash_inputs m2 b2 bl2).
Proof.
  intros Hm1 Hm2 Hbl. revert j p q. induction i as [|i IH]; intros j p q Hp Hq Hpq;
    (destruct (decide (p = q)) as [<-|Hne];
     [|right; exists p, q; split_and!; by eauto using list_elem_of_lookup_2]).
  - destruct j as [|j]; [left; naive_solver|].
    apply inputs_loop_parent in Hq as (q' & blk & _ & Hblk & ->).
    exfalso. eapply (root_next_differ m1 b1 (sha256 q') blk);
      [done|apply length_sha256|eapply Hbl; eauto using list_elem_of_lookup_2|].
    by injection Hp.
  - apply inputs_loop_parent in Hp as (p' & blk1 & Hp' & Hblk1 & ->).
    destruct j as [|j].
    + exfalso. eapply (root_next_differ m2 b2 (sha256 p') blk1);
        [done|apply length_sha256|eapply Hbl; eauto using list_elem_of_lookup_2|].
      by injection Hq.
    + apply inputs_loop_parent in Hq as (q' & blk2 & Hq' & Hblk2 & Heq).
      apply next_input_inj in Heq as [Hpar ->];
        [|by rewrite !length_sha256|eapply Hbl; eauto using list_elem_of_lookup_2..].
      destruct (IH j p' q' Hp' Hq' Hpar) as [(-> & ? & Htake)|?]; [left|by right].
      split_and!; [done|done|]. by erewrite !take_S_r, Htake by done.
Qed.

(** Two chains with one root, compared at one depth: no bound on the model's name. *)
Lemma shared_digest_at m bs bl1 bl2 i p q :
  (∀ blk, blk ∈ bl1 ∨ blk ∈ bl2 → Forall (λ t, (t < two32)%N) blk) →
  hash_inputs m bs bl1 !! i = Some p → hash_inputs m bs bl2 !! i = Some q → sha256 p = sha256 q →
  take i bl1 = take i bl2 ∨ collision (hash_inputs m bs bl1) (hash_inputs m bs bl2).
Proof.
  intros Hbl. revert p q. induction i as [|i IH]; intros p q Hp Hq Hpq; [by left|].
  destruct (decide (p = q)) as [<-|Hne];
    [|right; exists p, q; split_and!; by eauto using list_elem_of_lookup_2].
  apply inputs_loop_parent in Hp as (p' & blk1 & Hp' & Hblk1 & ->).
  apply inputs_loop_parent in Hq as (q' & blk2 & Hq' & Hblk2 & Heq).
  apply next_input_inj in Heq as [Hpar ->];
    [|by rewrite !length_sha256|eapply Hbl; eauto using list_elem_of_lookup_2..].
  destruct (IH p' q' Hp' Hq' Hpar) as [Htake|?]; [left|by right].
  by erewrite !take_S_r, Htake by done.
Qed.

Lemma length_chunk_loop fuel bs start tokens :
  0 < bs → length tokens - start ≤ fuel →
  length (chunk_loop fuel tokens bs start) = (length tokens - start + bs - 1) / bs.
Proof.
  intros Hbs. revert start. induction fuel as [|fuel IH]; intros start Hf.
  { simpl. symmetry. apply Nat.div_small. lia. }
  destruct (decide (start < length tokens)).
  - rewrite chunk_loop_step by done. simpl. rewrite IH by lia.
    destruct (decide (start + bs < length tokens)).
    + replace (length tokens - start + bs - 1)
        with ((length tokens - (start + bs) + bs - 1) + 1 * bs) by lia.
      rewrite Nat.div_add by lia. lia.
    + replace (length tokens - (start + bs)) with 0 by lia.
      rewrite (Nat.div_small (0 + bs - 1)) by lia.
      apply Nat.div_unique with (length tokens - start - 1); lia.
  - rewrite chunk_loop_nil by lia. symmetry. apply Nat.div_small. lia.
Qed.

(** A prompt of one block. *)
Lemma Build_one m bs tokens :
  (0 < bs)%Z → 0 < length tokens ≤ Z.to_nat bs → Build m bs tokens = Some [Next (Root m bs) tokens].
Proof.
  intros Hbs Hlen. unfold Build, Chunk. rewrite (proj2 (Z.leb_gt bs 0)) by done. bind_step.
  destruct (length tokens) as [|n] eqn:Hn; [lia|].
  rewrite chunk_loop_step by lia. rewrite chunk_loop_nil by lia. by rewrite drop_0, take_ge by lia.
Qed.

(** ** Properties *)

(** [Chunk] partitions the prompt: concatenating the blocks gives the tokens
    back, there are ceil(len/blockSize) of them, none is empty or longer than
    the block size, and only the last may be shorter. *)
Theorem chunk_partition tokens bs blocks :
  Chunk tokens bs = Some blocks →
  concat blocks = tokens ∧
  length blocks = (length tokens + Z.to_nat bs - 1) / Z.to_nat bs ∧
  (∀ i blk, blocks !! i = Some blk →
     0 < length blk ≤ Z.to_nat bs ∧ (S i < length blocks → length blk = Z.to_nat bs)).
Proof.
  unfold Chunk. destruct (Z.leb_spec bs 0); [done|]. intros [= <-].
  assert (0 < Z.to_nat bs) as Hbs by lia. set (b := Z.to_nat bs) in *.
  split_and!.
  - by rewrite concat_chunk_loop, drop_0 by lia.
  - rewrite length_chunk_loop by lia. by rewrite Nat.sub_0_r.
  - intros i blk Hi.
    apply lookup_chunk_loop in Hi as [-> Hne]; [|lia..].
    split.
    + split; [|len_lia]. destruct (take b _); [done|simpl; lia].
    + intros HS. apply lookup_lt_is_Some_2 in HS as [blk' HS].
      apply lookup_chunk_loop in HS as [-> Hne']; [|lia..].
      rewrite length_take, length_drop.
      destruct (decide (length tokens ≤ 0 + S i * b)); [|lia].
      rewrite drop_ge in Hne' by lia. by rewrite take_nil in Hne'.
Qed.

(** C12. Two prompts of one model and block size share exactly the IDs of the blocks they
    share.  [Build] never fails for a positive block size and gives one ID per block,
    ceil(len/blockSize) of them; if the prompts agree on their first [k] blocks, the
    first [k] IDs are equal (the contract a prefix lookup relies on); and if they have
    the same ID at some position, they agree on all tokens up to and including that
    block, or two of the strings these very chains hash are a SHA-256 collision. *)
Theorem build_shared_prefix m bs t1 t2 :
  (0 < bs)%Z →
  let b := Z.to_nat bs in
  ∃ ids1 ids2, Build m bs t1 = Some ids1 ∧ Build m bs t2 = Some ids2 ∧
    length ids1 = (length t1 + b - 1) / b ∧ length ids2 = (length t2 + b - 1) / b ∧
    (∀ k, take (k * b) t1 = take (k * b) t2 → take k ids1 = take k ids2) ∧
    (∀ i x, Forall (λ t, (t < two32)%N) t1 → Forall (λ t, (t < two32)%N) t2 →
       ids1 !! i = Some x → ids2 !! i = Some x →
       take (S i * b) t1 = take (S i * b) t2 ∨
       ∃ bl1 bl2, Chunk t1 bs = Some bl1 ∧ Chunk t2 bs = Some bl2 ∧
         collision (hash_inputs m bs bl1) (hash_inputs m bs bl2)).
Proof.
  intros Hbs b. unfold Build, Chunk. rewrite (proj2 (Z.leb_gt bs 0)) by done. bind_step.
  assert (0 < b) as Hb by (unfold b; lia). fold b.
  eexists _, _. split_and!; [done..| | | |].
  - by rewrite length_build_loop, length_chunk_loop, Nat.sub_0_r by lia.
  - by rewrite length_build_loop, length_chunk_loop, Nat.sub_0_r by lia.
  - intros k Heq. rewrite !build_loop_take. f_equal. set (f := length t1 `max` length t2).
    rewrite (chunk_loop_fuel (length t1) f), (chunk_loop_fuel (length t2) f) by lia.
    apply take_chunk_loop; rewrite ?drop_0; auto; lia.
  - intros i x Ht1 Ht2 Hi Hj.
    set (bl1 := chunk_loop _ t1 _ _) in *. set (bl2 := chunk_loop _ t2 _ _) in *.
    rewrite build_loop_inputs, list_lookup_fmap in Hi, Hj.
    apply fmap_Some in Hi as (p & Hp & ->). apply fmap_Some in Hj as (q & Hq & Hpq).
    destruct (shared_digest_at m bs bl1 bl2 (S i) p q) as [Htake|Hcol]; [|done|done|done| |right; eauto].
    + intros blk [Hin|Hin]; apply list_elem_of_lookup_1 in Hin as [n Hn];
        apply lookup_chunk_loop in Hn as [-> _]; try lia; by apply Forall_take, Forall_drop.
    + left. apply (f_equal (@concat N)) in Htake. unfold bl1, bl2 in Htake.
      by rewrite !concat_take_chunk_loop in Htake by lia.
Qed.

(** C11. A block ID encodes its whole prefix, for model names under 32 bytes and block
    sizes under 2^32 (beyond them it does not: see [build_cross_model_overlap]).  If
    two such chains have an ID in common, at any depths, then model, block size
    and depth agree and so do the token prefixes up to that block, or two of the
    strings these very chains hash are a SHA-256 collision. *)
Theorem build_id_encodes_prefix m1 m2 b1 b2 t1 t2 ids1 ids2 i j x :
  length (string_bytes m1) < 32 → length (string_bytes m2) < 32 →
  (b1 < 4294967296)%Z → (b2 < 4294967296)%Z →
  Forall (λ t, (t < two32)%N) t1 → Forall (λ t, (t < two32)%N) t2 →
  Build m1 b1 t1 = Some ids1 → Build m2 b2 t2 = Some ids2 →
  ids1 !! i = Some x → ids2 !! j = Some x →
  (m1 = m2 ∧ b1 = b2 ∧ i = j ∧ take (S i * Z.to_nat b1) t1 = take (S i * Z.to_nat b1) t2) ∨
  ∃ bl1 bl2, Chunk t1 b1 = Some bl1 ∧ Chunk t2 b2 = Some bl2 ∧
    collision (hash_inputs m1 b1 bl1) (hash_inputs m2 b2 bl2).
Proof.
  intros Hm1 Hm2 Hb1 Hb2 Ht1 Ht2 [Hp1 [Hc1 ->]]%Build_Some [Hp2 [Hc2 ->]]%Build_Some Hi Hj.
  rewrite Hc1, Hc2.
  set (bl1 := chunk_loop _ t1 _ _) in *. set (bl2 := chunk_loop _ t2 _ _) in *.
  rewrite build_loop_inputs, list_lookup_fmap in Hi, Hj.
  apply fmap_Some in Hi as (p & Hp & ->). apply fmap_Some in Hj as (q & Hq & Hpq).
  destruct (shared_digest m1 m2 b1 b2 bl1 bl2 (S i) (S j) p q)
    as [(Hij & Hroot & Htake)|Hcol]; [done|done| |done|done|done| |right; eauto].
  - intros blk [Hin|Hin]; apply list_elem_of_lookup_1 in Hin as [n Hn];
      apply lookup_chunk_loop in Hn as [-> ?]; try lia;
      (split; [done|]); by apply Forall_take, Forall_drop.
  - left. apply root_input_inj in Hroot as [-> ->]; [|lia..].
    injection Hij as ->. split_and!; [done..|].
    apply (f_equal (@concat N)) in Htake. unfold bl1, bl2 in Htake.
    by rewrite !concat_take_chunk_loop in Htake by lia.
Qed.

(** C40. The comment on [Root] says chains of different models or block sizes never
    collide.  They do, with no hash collision.  [Root] and [Next] hash from the same
    input space: the model whose name is the digest [Root m 1] and whose block size is
    a token [t] hashes for its root the very bytes [m] hashes for the block [[t]], so
    with a different pair (model, block size) it continues the chain of [m] and shares
    its last ID.  And the block size is hashed modulo 2^32: sizes that differ by 2^32
    have one root and identical chains for every prompt of at most one block. *)
Theorem build_cross_model_overlap m t u :
  (1 < t < two32)%N →
  let m' := bytes_string (Root m 1) in
  (m', Z.of_N t) ≠ (m, 1%Z) ∧ (length (string_bytes m) ≠ 32 → m' ≠ m) ∧
  root_input m' (Z.of_N t) = next_input (Root m 1) [t] ∧
  (∃ h x, Build m 1 [t; u] = Some [h; x] ∧ Build m' (Z.of_N t) [u] = Some [x]) ∧
  ∀ bs tokens, (0 < bs)%Z → 0 < length tokens ≤ Z.to_nat bs →
    ∃ x, Build m bs tokens = Some [x] ∧ Build m (bs + 4294967296) tokens = Some [x].
Proof.
  intros Ht m'.
  assert (root_input m' (Z.of_N t) = next_input (Root m 1) [t]) as Hin.
  { unfold root_input, next_input, m', uint32_of_int.
    rewrite string_bytes_string, Z.mod_small, N2Z.id by (unfold two32 in Ht; lia).
    cbn [fmap list_fmap concat]. by rewrite app_nil_r. }
  split_and!; [intros [= _ ?]; lia| |done| |].
  - intros Hm Heq. apply Hm. rewrite <-Heq. unfold m'. rewrite string_bytes_string. apply length_sha256.
  - exists (Next (Root m 1) [t]), (Next (Next (Root m 1) [t]) [u]). split; [done|].
    rewrite Build_one by (simpl; lia). unfold Root at 1. rewrite Hin. done.
  - intros bs tokens Hbs Hlen. exists (Next (Root m bs) tokens). split; [by apply Build_one|].
    rewrite Build_one by lia. unfold Root, root_input, uint32_of_int.
    by rewrite <-Zplus_mod_idemp_r, Z_mod_same_full, Z.add_0_r.
Qed.

(** ** Witnesses *)
Lemma chunk_partition_witness :
  Chunk [1; 2; 3]%N 2 = Some [[1; 2]; [3]]%N ∧ concat [[1; 2]; [3]]%N = [1; 2; 3]%N.
Proof.
  split; [reflexivity|]. apply (chunk_partition [1; 2; 3]%N 2 [[1; 2]; [3]]%N). reflexivity.
Defined.

Lemma build_shared_prefix_witness :
  ∃ ids1 ids2, Build "sim-7b" 2 [1; 2; 3]%N = Some ids1 ∧ Build "sim-7b" 2 [1; 2; 4; 5; 6]%N = Some ids2 ∧
    length ids1 = 2 ∧ length ids2 = 3 ∧ take 1 ids1 = take 1 ids2.
Proof.
  destruct (build_shared_prefix "sim-7b" 2 [1; 2; 3]%N [1; 2; 4; 5; 6]%N)
    as (ids1 & ids2 & H1 & H2 & H3 & H4 & H5 & _); [reflexivity|].
  exists ids1, ids2. split_and!; [exact H1|exact H2|exact H3|exact H4|apply (H5 1); reflexivity].
Defined.

Lemma build_id_encodes_prefix_witness :
  let id := Next (Root "sim-7b" 2) [1; 2]%N in
  (take 2 [1; 2; 3]%N = take 2 [1; 2; 4; 5]%N) ∨
  ∃ bl1 bl2, Chunk [1; 2; 3]%N 2 = Some bl1 ∧ Chunk [1; 2; 4; 5]%N 2 = Some bl2 ∧
    collision (hash_inputs "sim-7b" 2 bl1) (hash_inputs "sim-7b" 2 bl2).
Proof.
  intros id.
  destruct (build_id_encodes_prefix "sim-7b" "sim-7b" 2 2 [1; 2; 3]%N [1; 2; 4; 5]%N
    (build_loop (Root "sim-7b" 2) [[1; 2]; [3]]%N)
    (build_loop (Root "sim-7b" 2) [[1; 2]; [4; 5]]%N) 0 0 id) as [(_ & _ & _ & H)|H];
    [simpl; lia|simpl; lia|reflexivity|reflexivity|repeat constructor|repeat constructor|
     reflexivity|reflexivity|reflexivity|reflexivity|left; exact H|right; exact H].
Defined.

Lemma build_cross_model_overlap_witness :
  ∃ h x, Build "sim-7b" 1 [7; 9]%N = Some [h; x] ∧
    Build (bytes_string (Root "sim-7b" 1)) 7 [9]%N = Some [x].
Proof.
  destruct (build_cross_model_overlap "sim-7b" 7 9) as (_ & _ & _ & H & _); [split; reflexivity|]. exact H.
Defined.
End Chain.
