(* ===== verification/HashRing.v ===== *)
(** * The consistent hash ring: src/internal/hashring/ring.go

    A ring is the list of virtual nodes sorted by point together with the
    node addresses.  [New] ranges over a Go map, whose iteration order is not
    specified: [New_from] takes that order as an argument and [new_order_independent]
    shows that it does not matter.  [Owners] is the clockwise walk; [walk] is its
    reference definition. *)

From S2P Require Import Prelude Sha256.

Module HashRing.
Import Sha256.

Definition DefaultVNodes : Z := 128.

Record vnode := Vnode { point : N; nodeID : string }.
#[global] Instance vnode_eq_dec : EqDecision vnode.
Proof. solve_decision. Defined.

Record Ring := MkRing {
  Epoch : N;
  vnodes : list vnode;        (* sorted by point *)
  addrs : gmap string string  (* nodeID -> addr *)
}.

(** The comparison passed to [sort.Slice]. *)
Definition less (va vb : vnode) : bool :=
  if negb (point va =? point vb)%N then (point va <? point vb)%N
  else String.ltb (nodeID va) (nodeID vb).

(** A slice is sorted when no later element is [less] than an earlier one. *)
Definition vnode_le (va vb : vnode) : Prop := less vb va = false.
#[global] Instance vnode_le_dec : RelDecision vnode_le.
Proof. intros a b. unfold vnode_le. apply _. Defined.

(** [binary.BigEndian.Uint64(h[:8])] of the digest of [fmt.Appendf(nil, "%s#%d", id, i)]. *)
Definition vnode_point (id : string) (i : nat) : N :=
  be_value (take 8 (sha256 (string_bytes (id +:+ "#" +:+ pretty (N.of_nat i))))).

(** The inner loop of [New]: the virtual nodes of one member. *)
Definition node_vnodes (vnodesPerNode : nat) (id : string) : list vnode :=
  (λ i, Vnode (vnode_point id i) id) <$> seq 0 vnodesPerNode.

(** [New] for one iteration order of the [nodes] map. *)
Definition New_from (epoch : N) (order : list (string * string)) (vnodesPerNode : Z) : Ring :=
  let vpn := Z.to_nat (if (vnodesPerNode <=? 0)%Z then DefaultVNodes else vnodesPerNode) in
  MkRing epoch
    (merge_sort vnode_le (concat ((λ '(id, _), node_vnodes vpn id) <$> order)))
    (foldl (λ m '(id, addr), <[id := addr]> m) ∅ order).

Definition New (epoch : N) (nodes : gmap string string) (vnodesPerNode : Z) : Ring :=
  New_from epoch (map_to_list nodes) vnodesPerNode.

(** The predicate of the [sort.Search] call; past the end it is never asked. *)
Definition at_or_after (vs : list vnode) (key : N) (i : nat) : bool :=
  match vs !! i with Some v => (key <=? point v)%N | None => true end.

(** The loop of [Owners]; [len(r.vnodes)] iterations at most. *)
Fixpoint owners_loop (fuel : nat) (vs : list vnode) (i n scanned : nat)
    (seen : gset string) (out : list string) : list string :=
  match fuel with
  | O => out
  | S fuel =>
      if (scanned <? length vs) && (length out <? n) then
        match vs !! ((i + scanned) mod length vs) with
        | None => out
        | Some v =>
            let id := nodeID v in
            if decide (id ∈ seen) then owners_loop fuel vs i n (S scanned) seen out
            else owners_loop fuel vs i n (S scanned) ({[id]} ∪ seen) (out ++ [id])
        end
      else out
  end.

(** [None] is the panic of [blockID[:8]] on a short ID. *)
Definition Owners (r : Ring) (blockID : bytes) (n : Z) : option (list string) :=
  if (length (vnodes r) =? 0) || (n <=? 0)%Z then Some []
  else
    let n := if (n >? Z.of_nat (size (addrs r)))%Z then Z.of_nat (size (addrs r)) else n in
    key ← Uint64 blockID;
    let i := Search (length (vnodes r)) (at_or_after (vnodes r) key) in
    Some (owners_loop (length (vnodes r)) (vnodes r) i (Z.to_nat n) 0 ∅ []).

(** [Owner] returns [(nodeID, addr, ok)]; [Some None] is [ok = false]. *)
Definition Owner (r : Ring) (blockID : bytes) : option (option (string * string)) :=
  owners ← Owners r blockID 1;
  Some (match owners with
        | [] => None
        | o :: _ => Some (o, default "" (addrs r !! o))
        end).

Definition Nodes (r : Ring) : gmap string string := addrs r.
Definition Size (r : Ring) : nat := size (addrs r).

(** ** The order of virtual nodes *)
Lemma ltb_irrefl_le a b : String.ltb a b = false ↔ String.le b a.
Proof.
  unfold String.le, String.leb, String.ltb. rewrite (String.compare_antisym a b).
  destruct (String.compare b a); simpl; naive_solver.
Qed.

Lemma vnode_le_spec a b :
  vnode_le a b ↔
  (point a < point b)%N ∨ (point a = point b ∧ String.le (nodeID a) (nodeID b)).
Proof.
  unfold vnode_le, less. destruct (N.eqb_spec (point b) (point a)) as [->|Hne]; simpl.
  - rewrite ltb_irrefl_le. split; [by right|intros [?|[_ ?]]; [lia|done]].
  - rewrite N.ltb_ge. split; [left; lia|intros [?|[? _]]; [lia|congruence]].
Qed.

#[global] Instance vnode_le_trans : Transitive vnode_le.
Proof.
  intros a b c. rewrite !vnode_le_spec. intros [?|[? H1]] [?|[? H2]]; [left; lia..|].
  right. split; [congruence|]. by etrans.
Qed.
#[global] Instance vnode_le_total : Total vnode_le.
Proof.
  intros a b. rewrite !vnode_le_spec.
  destruct (N.lt_trichotomy (point a) (point b)) as [?|[?|?]]; [auto| |auto].
  destruct (total String.le (nodeID a) (nodeID b)); auto.
Qed.
#[global] Instance vnode_le_antisymm : AntiSymm (=) vnode_le.
Proof.
  intros [pa ia] [pb ib]. rewrite !vnode_le_spec. simpl. intros [?|[? H1]] [?|[? H2]]; [lia..|].
  f_equal; [done|]. by apply (anti_symm String.le).
Qed.

(** ** Building the ring *)
Lemma foldl_insert_list_to_map (l : list (string * string)) (m : gmap string string) :
  NoDup l.*1 →
  foldl (λ m '(id, addr), <[id := addr]> m) m l = list_to_map l ∪ m.
Proof.
  revert m. induction l as [|[k v] l IH]; intros m Hnd; simpl; [by rewrite (left_id_L ∅ (∪))|].
  apply NoDup_cons in Hnd as [Hk Hnd]. rewrite IH by done.
  rewrite <-insert_union_r by by apply not_elem_of_list_to_map.
  by rewrite insert_union_l.
Qed.

Lemma addrs_New_from epoch order vpn (nodes : gmap string string) :
  order ≡ₚ map_to_list nodes → addrs (New_from epoch order vpn) = nodes.
Proof.
  intros Hperm. simpl.
  assert (NoDup order.*1) as Hnd by (rewrite Hperm; apply NoDup_fst_map_to_list).
  rewrite foldl_insert_list_to_map by done.
  rewrite (right_id_L ∅ (∪)), (list_to_map_proper _ _ Hnd Hperm).
  apply list_to_map_to_list.
Qed.

Lemma vnodes_New_from_perm epoch order order' vpn :
  order ≡ₚ order' → vnodes (New_from epoch order vpn) = vnodes (New_from epoch order' vpn).
Proof.
  intros Hperm. apply (StronglySorted_unique vnode_le);
    [apply StronglySorted_merge_sort; apply _..|].
  simpl. rewrite !merge_sort_Permutation. by rewrite Hperm.
Qed.

(** ** Well-formed rings

    Sorted, and a node has a virtual node exactly when it has an address. *)
Record ring_wf (r : Ring) : Prop := {
  wf_sorted : StronglySorted vnode_le (vnodes r);
  wf_nodes : ∀ id, id ∈ nodeID <$> vnodes r ↔ is_Some (addrs r !! id)
}.

Definition effective_vnodes (vpn : Z) : nat :=
  Z.to_nat (if (vpn <=? 0)%Z then DefaultVNodes else vpn).

Lemma effective_vnodes_pos vpn : 0 < effective_vnodes vpn.
Proof. unfold effective_vnodes, DefaultVNodes. destruct (Z.leb_spec vpn 0); lia. Qed.

Lemma elem_of_node_vnodes k id v :
  v ∈ node_vnodes k id ↔ nodeID v = id ∧ ∃ i, i < k ∧ point v = vnode_point id i.
Proof.
  unfold node_vnodes. rewrite list_elem_of_fmap. split.
  - intros (i & -> & Hi%elem_of_seq). simpl. split; [done|]. exists i. split; [lia|done].
  - intros [<- (i & Hi & Hp)]. exists i. split; [|apply elem_of_seq; lia].
    destruct v; simpl in *; congruence.
Qed.

Lemma elem_of_vnodes_New epoch nodes vpn v :
  v ∈ vnodes (New epoch nodes vpn) ↔
  v ∈ node_vnodes (effective_vnodes vpn) (nodeID v) ∧ is_Some (nodes !! nodeID v).
Proof.
  unfold New, New_from. cbn [vnodes]. rewrite merge_sort_Permutation. fold (effective_vnodes vpn).
  rewrite elem_of_concat. split.
  - intros (l & Hv & ([id a] & -> & Hid)%list_elem_of_fmap).
    apply elem_of_map_to_list in Hid. pose proof Hv as [<- _]%elem_of_node_vnodes. eauto.
  - intros [Hv [a Ha]]. eexists. split; [exact Hv|]. apply list_elem_of_fmap.
    exists (nodeID v, a). split; [done|]. by apply elem_of_map_to_list.
Qed.

Lemma New_wf epoch nodes vpn : ring_wf (New epoch nodes vpn).
Proof.
  split; [apply StronglySorted_merge_sort; apply _|].
  intros id. unfold New at 2. rewrite (addrs_New_from _ _ _ nodes) by done.
  rewrite list_elem_of_fmap. split.
  - intros (v & -> & [_ ?]%elem_of_vnodes_New). done.
  - intros Hid. exists (Vnode (vnode_point id 0) id). split; [done|].
    apply elem_of_vnodes_New. split; [|done]. apply elem_of_node_vnodes. simpl.
    split; [done|]. exists 0. split; [apply effective_vnodes_pos|done].
Qed.

(** ** The reference walk

    The node IDs met clockwise from [key], each at its first occurrence. *)
Definition clockwise (vs : list vnode) (key : N) : list vnode :=
  filter (λ v, key ≤ point v)%N vs ++ filter (λ v, point v < key)%N vs.
Definition walk (r : Ring) (key : N) : list string :=
  nub (nodeID <$> clockwise (vnodes r) key).

Lemma at_or_after_mono vs key a b :
  StronglySorted vnode_le vs → a ≤ b →
  at_or_after vs key a = true → at_or_after vs key b = true.
Proof.
  unfold at_or_after. intros Hs Hab. destruct (vs !! b) as [vb|] eqn:Hb; [|done].
  destruct (lookup_lt_is_Some_2 vs a) as [va Ha]; [apply lookup_lt_Some in Hb; lia|].
  rewrite Ha, !N.leb_le. intros Hk. destruct (decide (a = b)) as [->|]; [congruence|].
  assert (vnode_le va vb) as Hle%vnode_le_spec.
  { eapply (StronglySorted_app_1_elem_of _ (take (S a) vs) (drop (S a) vs)).
    - by rewrite take_drop.
    - apply list_elem_of_lookup. exists a. by rewrite lookup_take_lt by lia.
    - apply list_elem_of_lookup. exists (b - S a). rewrite lookup_drop.
      rewrite <-Hb. f_equal. lia. }
  lia.
Qed.

(** On a sorted ring the index found by the binary search cuts the list into
    the points below the key and the points at or above it. *)
Lemma search_cuts vs key :
  StronglySorted vnode_le vs →
  let i := Search (length vs) (at_or_after vs key) in
  i ≤ length vs ∧ drop i vs ++ take i vs = clockwise vs key.
Proof.
  intros Hs i.
  destruct (search_loop_spec (length vs) (at_or_after vs key) 0 (length vs))
    as (Hi & Hlo & Hhi); [lia|lia|intros; by eapply at_or_after_mono|lia|].
  fold (Search (length vs) (at_or_after vs key)) in Hi, Hlo, Hhi. fold i in Hi, Hlo, Hhi.
  split; [lia|].
  assert (Forall (λ v, point v < key)%N (take i vs)) as H1.
  { apply Forall_lookup. intros j v [Hj Hlt]%lookup_take_Some.
    specialize (Hlo j Hlt). unfold at_or_after in Hlo. rewrite Hj in Hlo.
    by apply N.leb_gt. }
  assert (Forall (λ v, key ≤ point v)%N (drop i vs)) as H2.
  { apply Forall_lookup. intros j v Hj. rewrite lookup_drop in Hj.
    assert (at_or_after vs key (i + j) = true) as Ht.
    { eapply at_or_after_mono; [done| |apply Hhi]; [lia|].
      apply lookup_lt_Some in Hj. lia. }
    unfold at_or_after in Ht. rewrite Hj in Ht. by apply N.leb_le. }
  unfold clockwise. rewrite <-(take_drop i vs) at 3 4. rewrite !filter_app.
  rewrite (filter_all (λ v, key ≤ point v)%N (drop i vs)) by done.
  rewrite (filter_all (λ v, point v < key)%N (take i vs)) by done.
  rewrite (filter_none (λ v, key ≤ point v)%N (take i vs)), (filter_none (λ v, point v < key)%N (drop i vs)).
  - by rewrite app_nil_r.
  - eapply Forall_impl; [exact H2|]. simpl. lia.
  - eapply Forall_impl; [exact H1|]. simpl. lia.
Qed.

Lemma lookup_rotation {A} (l : list A) i k :
  i ≤ length l → k < length l → (drop i l ++ take i l) !! k = l !! ((i + k) mod length l).
Proof.
  intros Hi Hk. destruct (decide (i + k < length l)).
  - rewrite lookup_app_l, lookup_drop, Nat.mod_small by (len_lia). done.
  - rewrite lookup_app_r, length_drop by (len_lia).
    rewrite lookup_take_lt by lia. f_equal.
    apply Nat.mod_unique with 1; lia.
Qed.

Lemma owners_loop_spec fuel vs i n scanned seen out :
  i ≤ length vs → scanned ≤ length vs → length vs - scanned ≤ fuel →
  length out ≤ n → (∀ x, x ∈ seen ↔ x ∈ out) →
  owners_loop fuel vs i n scanned seen out =
  take n (out ++ nub_acc out (nodeID <$> drop scanned (drop i vs ++ take i vs))).
Proof.
  intros Hi. set (rot := drop i vs ++ take i vs).
  assert (length rot = length vs) as Hrot.
  { unfold rot. rewrite length_app, length_drop, length_take. lia. }
  revert scanned seen out. induction fuel as [|fuel IH]; intros scanned seen out Hs Hf Hn Hseen.
  { rewrite (drop_ge rot) by lia. simpl. by rewrite app_nil_r, take_ge. }
  cbn [owners_loop]. destruct (Nat.ltb_spec scanned (length vs)) as [Hlt|]; simpl.
  2:{ rewrite (drop_ge rot) by lia. simpl. by rewrite app_nil_r, take_ge. }
  destruct (Nat.ltb_spec (length out) n) as [Hlt'|].
  2:{ by rewrite take_app_le, take_ge by lia. }
  rewrite <-lookup_rotation by done. fold rot.
  destruct (lookup_lt_is_Some_2 rot scanned) as [v Hv]; [lia|].
  rewrite Hv, (drop_S rot v scanned Hv). cbn [fmap list_fmap nub_acc].
  destruct (decide (nodeID v ∈ seen)) as [Hin|Hin].
  - rewrite decide_True by by apply Hseen. apply IH; [lia|lia|lia|done].
  - rewrite decide_False by (by rewrite <-Hseen).
    rewrite IH; [|lia|lia|len_lia|set_solver].
    rewrite <-app_assoc. do 2 f_equal. simpl. f_equal.
    apply nub_acc_ext. set_solver.
Qed.

Lemma clockwise_Permutation vs key : clockwise vs key ≡ₚ vs.
Proof.
  unfold clockwise. induction vs as [|v vs IH]; [done|]. rewrite !filter_cons.
  destruct (decide (key ≤ point v)%N), (decide (point v < key)%N); try lia; simpl.
  - by f_equiv.
  - rewrite <-Permutation_middle. by f_equiv.
Qed.

Lemma elem_of_walk r key id : ring_wf r → id ∈ walk r key ↔ is_Some (addrs r !! id).
Proof.
  intros Hwf. unfold walk. rewrite elem_of_nub, clockwise_Permutation. by apply wf_nodes.
Qed.

Lemma walk_Permutation r key : ring_wf r → walk r key ≡ₚ elements (dom (addrs r)).
Proof.
  intros Hwf. apply NoDup_Permutation; [apply NoDup_nub|apply NoDup_elements|].
  intros id. by rewrite elem_of_walk, elem_of_elements, elem_of_dom.
Qed.

Lemma length_walk r key : ring_wf r → length (walk r key) = size (addrs r).
Proof.
  intros Hwf. rewrite (walk_Permutation r key Hwf). by rewrite <-size_dom.
Qed.

Lemma vnodes_nil_walk r key : vnodes r = [] → walk r key = [].
Proof. intros Hv. unfold walk, clockwise. by rewrite Hv. Qed.

Lemma Owners_walk r blockID n key :
  ring_wf r → Uint64 blockID = Some key →
  Owners r blockID n = Some (take (Z.to_nat n) (walk r key)).
Proof.
  intros Hwf Hkey. unfold Owners.
  destruct (Nat.eqb_spec (length (vnodes r)) 0) as [Hnil|Hnil]; simpl.
  { apply nil_length_inv in Hnil. by rewrite vnodes_nil_walk, take_nil. }
  destruct (Z.leb_spec n 0); simpl; [by replace (Z.to_nat n) with 0 by lia|].
  rewrite Hkey. simpl. f_equal.
  destruct (search_cuts (vnodes r) key) as [Hi Hcut]; [apply Hwf|].
  rewrite owners_loop_spec; [|lia|lia|lia|simpl; lia|set_solver].
  rewrite drop_0, Hcut. simpl. fold (nub (nodeID <$> clockwise (vnodes r) key)).
  fold (walk r key). pose proof (length_walk r key Hwf).
  destruct (Z.gtb_spec n (Z.of_nat (size (addrs r)))); [|done].
  rewrite !take_ge by lia. done.
Qed.

Lemma walk_New_from_insert epoch epoch' nodes vpn x a key :
  nodes !! x = None →
  filter (λ id, id ≠ x) (walk (New epoch' (<[x := a]> nodes) vpn) key) =
  walk (New epoch nodes vpn) key.
Proof.
  intros Hx. unfold walk. rewrite filter_nub, filter_fmap. do 2 f_equal.
  unfold clockwise. rewrite filter_app, !(filter_comm (λ v, nodeID v ≠ x)).
  assert (filter (λ v, nodeID v ≠ x) (vnodes (New epoch' (<[x := a]> nodes) vpn)) =
    vnodes (New epoch nodes vpn)) as ->; [|done].
  unfold New, New_from. cbn [vnodes]. fold (effective_vnodes vpn).
  apply (StronglySorted_unique vnode_le).
  - apply StronglySorted_filter, StronglySorted_merge_sort; apply _.
  - apply StronglySorted_merge_sort; apply _.
  - rewrite !merge_sort_Permutation, map_to_list_insert by done.
    rewrite fmap_cons, concat_cons, filter_app.
    rewrite filter_none, filter_all; [done| |].
    + apply Forall_forall. intros v (l & Hv & ([id b] & -> & Hid)%list_elem_of_fmap)%elem_of_concat.
      apply elem_of_node_vnodes in Hv as [-> _]. intros ->.
      apply elem_of_map_to_list in Hid. congruence.
    + apply Forall_forall. intros v [-> _]%elem_of_node_vnodes. auto.
Qed.

(** Removing one element from a duplicate-free list changes its [n]-prefix by
    dropping that element and letting at most one more in at the end. *)
Lemma take_filter_ne (L : list string) (x : string) (n : nat) :
  NoDup L →
  (x ∉ take n L ∧ take n (filter (λ id, id ≠ x) L) = take n L) ∨
  ∃ pre post, take n L = pre ++ x :: post ∧
    (take n (filter (λ id, id ≠ x) L) = pre ++ post ∨
     ∃ y, take n (filter (λ id, id ≠ x) L) = pre ++ post ++ [y]).
Proof.
  intros Hnd. destruct (decide (x ∈ take n L)) as [Hin|Hin].
  - right. apply list_elem_of_split in Hin as (pre & post & Hsplit).
    exists pre, post. split; [done|].
    rewrite <-(take_drop n L) in Hnd. rewrite <-(take_drop n L), Hsplit, <-app_assoc.
    rewrite Hsplit, <-app_assoc in Hnd.
    pose proof (f_equal length Hsplit) as Hlen. rewrite length_take, length_app in Hlen. simpl in Hlen.
    apply NoDup_app in Hnd as (_ & Hpre & Hnd). simpl in Hnd.
    apply NoDup_cons in Hnd as [Hx Hnd].
    cbn [app]. rewrite filter_app, filter_cons, decide_False by auto.
    rewrite (filter_all _ pre), (filter_all _ (post ++ drop n L)).
    + rewrite take_app_ge by lia.
      destruct (drop n L) as [|y rest] eqn:Hd.
      * left. rewrite app_nil_r. f_equal. apply take_ge. lia.
      * right. exists y. f_equal.
        assert (n = length pre + S (length post)) as ->.
        { assert (n < length L); [|lia]. apply (f_equal length) in Hd.
          rewrite length_drop in Hd. simpl in Hd. lia. }
        replace (length pre + S (length post) - length pre) with (length post + 1) by lia.
        rewrite take_app_add. done.
    + apply Forall_forall. set_solver.
    + apply Forall_forall. intros y Hy ->. apply (Hpre x); set_solver.
  - left. split; [done|]. rewrite <-(take_drop n L) at 1. rewrite filter_app.
    rewrite (filter_all _ (take n L)) by (apply Forall_forall; set_solver).
    destruct (decide (n ≤ length L)).
    + rewrite take_app_le by (len_lia). rewrite take_take. f_equal. lia.
    + by rewrite (drop_ge L), app_nil_r, take_take, Nat.min_id by lia.
Qed.

Lemma addrs_New epoch nodes vpn : addrs (New epoch nodes vpn) = nodes.
Proof. by apply addrs_New_from. Qed.

Lemma Uint64_Some b : 8 ≤ length b → Uint64 b = Some (be_value (take 8 b)).
Proof. intros Hb. unfold Uint64. by rewrite decide_True. Qed.

(** The walk of a ring over [n] owners, as callers with a full block ID see it. *)
Lemma Owners_New epoch nodes vpn blockID n :
  8 ≤ length blockID →
  Owners (New epoch nodes vpn) blockID n =
  Some (take (Z.to_nat n) (walk (New epoch nodes vpn) (be_value (take 8 blockID)))).
Proof. intros Hb. apply Owners_walk; [apply New_wf|by apply Uint64_Some]. Qed.

(** Joining [x] inserts it at one position of an owner list. *)
Lemma owners_insert epoch epoch' nodes vpn x a blockID n O O' :
  nodes !! x = None → 8 ≤ length blockID →
  Owners (New epoch nodes vpn) blockID n = Some O →
  Owners (New epoch' (<[x := a]> nodes) vpn) blockID n = Some O' →
  (x ∉ O' ∧ O = O') ∨
  ∃ pre post, O' = pre ++ x :: post ∧ (O = pre ++ post ∨ ∃ y, O = pre ++ post ++ [y]).
Proof.
  intros Hx Hb. rewrite !Owners_New by done. intros [= <-] [= <-].
  rewrite <-(walk_New_from_insert epoch epoch' nodes vpn x a) by done.
  apply take_filter_ne, NoDup_nub.
Qed.

Lemma length_owners epoch nodes vpn blockID n O :
  8 ≤ length blockID → Owners (New epoch nodes vpn) blockID n = Some O →
  length O = Z.to_nat n `min` size nodes.
Proof.
  intros Hb. rewrite Owners_New by done. intros [= <-].
  rewrite length_take, length_walk by apply New_wf. by rewrite addrs_New.
Qed.

(** With two or more owners asked for, one owner survives a join. *)
Lemma owners_survivor epoch epoch' nodes vpn x a blockID n O O' :
  nodes !! x = None → nodes ≠ ∅ → 8 ≤ length blockID → (2 ≤ n)%Z →
  Owners (New epoch nodes vpn) blockID n = Some O →
  Owners (New epoch' (<[x := a]> nodes) vpn) blockID n = Some O' →
  ∃ o, o ∈ O ∧ o ∈ O' ∧ o ≠ x.
Proof.
  intros Hx Hne Hb Hn HO HO'.
  pose proof (length_owners _ _ _ _ _ _ Hb HO') as Hl'.
  rewrite map_size_insert_None in Hl' by done.
  assert (size nodes ≠ 0) as Hsz by by rewrite map_size_empty_iff.
  assert (NoDup O') as Hnd.
  { rewrite Owners_New in HO' by done. injection HO' as <-.
    eapply sublist_NoDup; [apply NoDup_nub|apply sublist_take]. }
  destruct (owners_insert _ _ _ _ _ _ _ _ _ _ Hx Hb HO HO')
    as [[Hx' ->]|(pre & post & -> & Hpp)].
  - destruct O' as [|o O']; [simpl in Hl'; lia|]. exists o. set_solver.
  - rewrite <-Permutation_middle in Hnd. apply NoDup_cons in Hnd as [Hxn _].
    destruct (pre ++ post) as [|o l] eqn:Hp.
    { apply app_nil in Hp as [-> ->]. simpl in Hl'. lia. }
    assert (o ∈ pre ++ post) as Ho by (rewrite Hp; set_solver). rewrite <-Hp in Hxn, Hpp.
    exists o. split_and!; [destruct Hpp as [->|[y ->]]; set_solver|set_solver|].
    by intros ->.
Qed.

(** ** Properties *)

(** C15. [New] is a function of the membership: whatever order the map is iterated
    in, and whatever sorted permutation the (unstable) [sort.Slice] leaves, the
    ring is the same, so all gateways and replicas derive identical rings. *)
Theorem new_order_independent epoch nodes vpn order vs :
  order ≡ₚ map_to_list nodes →
  vs ≡ₚ concat ((λ '(id, _), node_vnodes (effective_vnodes vpn) id) <$> order) →
  StronglySorted vnode_le vs →
  New_from epoch order vpn = New epoch nodes vpn ∧ vs = vnodes (New epoch nodes vpn).
Proof.
  intros Hord Hvs Hs. split.
  - pose proof (addrs_New_from epoch order vpn nodes Hord) as Ha.
    pose proof (addrs_New epoch nodes vpn) as Ha'.
    pose proof (vnodes_New_from_perm epoch order (map_to_list nodes) vpn Hord) as Hv.
    fold (New epoch nodes vpn) in Hv.
    unfold New, New_from in *. cbn [addrs vnodes] in *. congruence.
  - apply (StronglySorted_unique vnode_le); [done|apply New_wf|].
    rewrite Hvs. unfold New, New_from. cbn [vnodes].
    by rewrite merge_sort_Permutation, Hord.
Qed.

(** C14. [Owners] of a full block ID never panics and is the reference walk cut at
    [n]: distinct live members, clockwise from the key, exactly min(n, members). *)
Theorem owners_correct epoch nodes vpn blockID n :
  8 ≤ length blockID →
  ∃ O, Owners (New epoch nodes vpn) blockID n = Some O ∧
    O = take (Z.to_nat n) (walk (New epoch nodes vpn) (be_value (take 8 blockID))) ∧
    NoDup O ∧ length O = Z.to_nat n `min` size nodes ∧
    (∀ o, o ∈ O → is_Some (nodes !! o)).
Proof.
  intros Hb. eexists. split; [by apply Owners_New|]. split_and!; [done| | |].
  - eapply sublist_NoDup; [apply NoDup_nub|apply sublist_take].
  - by eapply length_owners; [|apply Owners_New].
  - intros o (i & Ho & _)%elem_of_take. apply list_elem_of_lookup_2 in Ho. rewrite <-(addrs_New epoch nodes vpn).
    by eapply elem_of_walk; [apply New_wf|].
Qed.

(** C13. Consistent hashing moves as little as possible: when [x] joins (or, read
    backwards, leaves) every owner list either stays the same or gains [x] at one
    position and loses at most its last entry.  With a replication factor of two
    or more the old and the new owners of a block therefore have a member in
    common, as the comment on [Owners] promises. *)
Theorem owners_join_minimal epoch epoch' nodes vpn x a blockID n O O' :
  nodes !! x = None → 8 ≤ length blockID →
  Owners (New epoch nodes vpn) blockID n = Some O →
  Owners (New epoch' (<[x := a]> nodes) vpn) blockID n = Some O' →
  ((x ∉ O' ∧ O = O') ∨
   ∃ pre post, O' = pre ++ x :: post ∧ (O = pre ++ post ∨ ∃ y, O = pre ++ post ++ [y])) ∧
  (nodes ≠ ∅ → (2 ≤ n)%Z → ∃ o, o ∈ O ∧ o ∈ O' ∧ o ≠ x).
Proof.
  intros Hx Hb HO HO'. split; [by eapply owners_insert|].
  intros Hne Hn. by eapply owners_survivor.
Qed.

(** ** Witnesses *)
Definition two_nodes : gmap string string := {["cn-1" := "a:1"; "cn-2" := "b:1"]}.

Lemma new_order_independent_witness :
  New_from 3 (reverse (map_to_list two_nodes)) 2 = New 3 two_nodes 2.
Proof.
  apply (new_order_independent 3 two_nodes 2 (reverse (map_to_list two_nodes))
    (vnodes (New_from 3 (reverse (map_to_list two_nodes)) 2))).
  - apply reverse_Permutation.
  - apply merge_sort_Permutation.
  - apply StronglySorted_merge_sort; apply _.
Defined.

Lemma owners_correct_witness :
  ∃ O, Owners (New 3 two_nodes 2) (replicate 32 x07) 5 = Some O ∧ length O = 2.
Proof.
  destruct (owners_correct 3 two_nodes 2 (replicate 32 x07) 5) as (O & HO & _ & _ & Hl & _);
    [simpl; lia|].
  exists O. split; [exact HO|]. exact Hl.
Defined.

Lemma owners_join_minimal_witness :
  ∃ o, o ∈ ["cn-1"; "cn-2"] ∧ o ∈ take 2 (walk (New 4 (<["cn-3" := "c:1"]> two_nodes) 2) 0) ∧
       o ≠ "cn-3".
Proof.
  destruct (owners_join_minimal 3 4 two_nodes 2 "cn-3" "c:1" (replicate 32 x00) 2
    ["cn-1"; "cn-2"] (take 2 (walk (New 4 (<["cn-3" := "c:1"]> two_nodes) 2) 0))) as [_ H].
  - reflexivity.
  - simpl. lia.
  - vm_compute. reflexivity.
  - apply Owners_New. simpl. lia.
  - apply H; [discriminate|lia].
Defined.
End HashRing.
