(* ===== verification/Proto.v ===== *)
(** * The protobuf messages: src/gen/prefixmesh/v1/*.pb.go

    One record per message the modelled code reads or writes, one inductive type
    for the [oneof] of [ClusterCommand].  Scalars are at their width ([uint64] and
    [uint32] as [N], [int64] as [Z]); a pointer to a message that may be nil is an
    [option]; [[]byte] fields are [bytes].  The internal bookkeeping fields of the
    generated structs ([state], [unknownFields], [sizeCache]) are not modelled. *)

From Stdlib Require Import Floats.SpecFloat.
From S2P Require Import Prelude.

Module pmv1.

(** ** common.proto *)
Record Block := MkBlock {
  BlockId : bytes;
  ParentId : bytes;
  ModelId : string;
  Payload : bytes;
  TokenCount : N;
  CostUs : N
}.

Record BlockRef := MkBlockRef { ref_BlockId : bytes; ref_NodeAddr : string }.

Record NodeInfo := MkNodeInfo {
  NodeId : string;
  Addr : string;
  CapacityBytes : N
}.

Record Ring := MkRing {
  ring_Epoch : N;
  ring_Nodes : list NodeInfo;
  ring_VnodesPerNode : N
}.

(** ** directory.proto *)
Record RebalanceLease := MkRebalanceLease {
  LeaseId : string;
  OldOwner : string;
  NewOwner : string;
  FromEpoch : N;
  ExpiresUnixMs : Z
}.

Inductive ClusterCommand :=
| NodeJoin (n : NodeInfo)
| NodeLeave (id : string)
| NodeDead (id : string)
| LeaseGrant (l : RebalanceLease)
| LeaseRelease (id : string)
| Noop (b : bool)
| CmdUnset.  (* no member of the oneof is set *)

#[global] Instance NodeInfo_eq_dec : EqDecision NodeInfo.
Proof. solve_decision. Defined.
#[global] Instance RebalanceLease_eq_dec : EqDecision RebalanceLease.
Proof. solve_decision. Defined.
#[global] Instance ClusterCommand_eq_dec : EqDecision ClusterCommand.
Proof. solve_decision. Defined.
#[global] Instance Block_eq_dec : EqDecision Block.
Proof. solve_decision. Defined.
#[global] Instance BlockRef_eq_dec : EqDecision BlockRef.
Proof. solve_decision. Defined.

Record PrepareRequest := MkPrepareRequest { prep_Slot : N; prep_Ballot : N }.
Record PrepareResponse := MkPrepareResponse {
  resp_Promised : bool;
  resp_AcceptedBallot : N;
  resp_AcceptedValue : option ClusterCommand;
  resp_PromisedBallot : N
}.
Record AcceptRequest := MkAcceptRequest {
  areq_Slot : N;
  areq_Ballot : N;
  areq_Value : option ClusterCommand
}.
Record AcceptResponse := MkAcceptResponse { aresp_Accepted : bool; aresp_PromisedBallot : N }.
Record LearnRequest := MkLearnRequest { learn_Slot : N; learn_Value : option ClusterCommand }.

Record HeartbeatRequest := MkHeartbeatRequest {
  hb_NodeId : string;
  hb_OccupancyBytes : N;
  hb_RingEpoch : N
}.

(** ** cachenode.proto *)
Record ContainsRequest := MkContainsRequest { creq_RingEpoch : N; creq_BlockIds : list bytes }.
Record ContainsResponse := MkContainsResponse { Present : list bool }.
Record GetBlocksRequest := MkGetBlocksRequest { greq_RingEpoch : N; greq_BlockIds : list bytes }.
Record CachePutRequest := MkCachePutRequest { preq_RingEpoch : N; preq_Block : option Block }.
Record CachePutResponse := MkCachePutResponse { presp_Stored : N; presp_Existing : N }.
Record TouchRequest := MkTouchRequest { treq_RingEpoch : N; treq_BlockIds : list bytes }.

(** ** gateway.proto *)
Record MatchRequest := MkMatchRequest { mreq_ModelId : string; mreq_Chain : list bytes }.
Record MatchResponse := MkMatchResponse {
  MatchedDepth : N;
  Refs : list BlockRef;
  mresp_RingEpoch : N
}.
Record PutBlocksResponse := MkPutBlocksResponse { pb_Stored : N; pb_Existing : N }.

(** ** events.proto *)
Record AccessEvent := MkAccessEvent {
  ChainHead : bytes;
  ev_ModelId : string;
  DepthRequested : N;
  DepthMatched : N;
  DeepestHit : option bytes;  (* nil when nothing matched *)
  NextMiss : option bytes;    (* nil on a full hit *)
  ev_TsUnixMs : Z;
  ev_Chain : list bytes
}.
Record WarmCommand := MkWarmCommand {
  warm_BlockId : bytes;
  warm_ParentId : bytes;
  warm_ModelId : string;
  SourceNode : string;       (* address of a peer that holds the block *)
  Confidence : spec_float;   (* float32 *)
  DeadlineUnixMs : Z;
  TargetNode : string
}.
Record NodeTelemetry := MkNodeTelemetry {
  tel_NodeId : string;
  OccupancyBytes : N;
  tel_CapacityBytes : N;
  Hits : N;
  Misses : N;
  Evictions : N;
  EvictedCostUs : N;
  tel_TsUnixMs : Z
}.
End pmv1.
