(* ===== verification/Paxos.v ===== *)
(** * One Paxos replica: src/internal/paxos/{paxos,log,node}.go

    [Acceptor], [Log] (the learner) and [Node] (the proposer) as state and
    operations.  Each method runs under its mutex, so each is one atomic state
    transformer.  A Go [[]byte] that may be nil is [option bytes].  The proposer's
    goroutines are the two collection loops over the replies in arrival order;
    what the network answers is an argument.  [PaxosNet] composes the same
    definitions into an asynchronous system and proves agreement. *)

From S2P Require Import Prelude.

Module Paxos.
Local Open Scope N_scope.

(** ** Ballots: [(round << 8) | replicaIndex] *)
Definition MakeBallot (round replicaIdx : N) : N :=
  N.lor (u64 (N.shiftl round 8)) replicaIdx.
Definition Round (b : N) : N := N.shiftr b 8.

(** ** Acceptor *)
Record acceptorSlot := AcceptorSlot {
  promised : N;
  acceptedBallot : N;
  acceptedValue : option bytes  (* None: nothing accepted *)
}.
Abbreviation Acceptor := (gmap N acceptorSlot).

Definition NewAcceptor : Acceptor := ∅.
Definition zero_slot : acceptorSlot := AcceptorSlot 0 0 None.

(** [slot]: get the slot's state, creating it when absent. *)
Definition acceptor_slot (a : Acceptor) (s : N) : acceptorSlot * Acceptor :=
  match a !! s with
  | Some sl => (sl, a)
  | None => (zero_slot, <[s := zero_slot]> a)
  end.

Record PrepareReply := MkPrepareReply {
  Promised : bool;
  AcceptedBallot : N;
  AcceptedValue : option bytes;
  PromisedBallot : N
}.
Record AcceptReply := MkAcceptReply { Accepted : bool; RejectBallot : N }.

Definition Prepare (a : Acceptor) (slot b : N) : PrepareReply * Acceptor :=
  let '(sl, a) := acceptor_slot a slot in
  if promised sl <? b then
    (MkPrepareReply true (acceptedBallot sl) (acceptedValue sl) b,
     <[slot := AcceptorSlot b (acceptedBallot sl) (acceptedValue sl)]> a)
  else
    (MkPrepareReply false (acceptedBallot sl) (acceptedValue sl) (promised sl), a).

Definition Accept (a : Acceptor) (slot b : N) (v : option bytes) : AcceptReply * Acceptor :=
  let '(sl, a) := acceptor_slot a slot in
  if promised sl <=? b then
    (MkAcceptReply true b, <[slot := AcceptorSlot b b v]> a)
  else (MkAcceptReply false (promised sl), a).

(** ** Log: chosen values, applied in slot order

    [app] is the state of the [apply] callback's owner. *)
Section log.
Context {S : Type} (apply : N → bytes → S → S).

Record Log := MkLog {
  chosen : gmap N bytes;
  applied : N;   (* next slot to apply *)
  maxSeen : N;   (* highest chosen slot + 1 *)
  app : S
}.

Definition NewLog (s0 : S) : Log := MkLog ∅ 0 0 s0.

(** The loop of [Commit]: apply the contiguous prefix.  Every iteration consumes
    a chosen slot, so [size chosen] iterations are enough. *)
Fixpoint apply_loop (fuel : nat) (l : Log) : Log :=
  match fuel with
  | O => l
  | Datatypes.S fuel =>
      match chosen l !! applied l with
      | None => l
      | Some v =>
          apply_loop fuel
            (MkLog (chosen l) (u64 (applied l + 1)) (maxSeen l) (apply (applied l) v (app l)))
      end
  end.

Definition Commit (slot : N) (value : bytes) (l : Log) : Log :=
  match chosen l !! slot with
  | Some prev => l  (* equal or conflicting: dropped, a conflict is only logged *)
  | None =>
      let ch := <[slot := value]> (chosen l) in
      let ms := if maxSeen l <? u64 (slot + 1) then u64 (slot + 1) else maxSeen l in
      apply_loop (size ch) (MkLog ch (applied l) ms (app l))
  end.

(** [for s := l.applied; ; s++]: at most one chosen slot is passed per step. *)
Fixpoint first_unchosen_loop (fuel : nat) (ch : gmap N bytes) (s : N) : N :=
  match fuel with
  | O => s
  | Datatypes.S fuel =>
      match ch !! s with
      | None => s
      | Some _ => first_unchosen_loop fuel ch (u64 (s + 1))
      end
  end.
Definition FirstUnchosen (l : Log) : N :=
  first_unchosen_loop (Datatypes.S (size (chosen l))) (chosen l) (applied l).

Fixpoint gap_loop (fuel : nat) (ch : gmap N bytes) (s maxSeen : N) : option N :=
  match fuel with
  | O => None
  | Datatypes.S fuel =>
      if s <? maxSeen then
        match ch !! s with
        | None => Some s
        | Some _ => gap_loop fuel ch (u64 (s + 1)) maxSeen
        end
      else None
  end.
(** [Some slot] is [(slot, true)]; [None] is [(0, false)]. *)
Definition Gap (l : Log) : option N :=
  gap_loop (Datatypes.S (size (chosen l))) (chosen l) (applied l) (maxSeen l).

Definition Applied (l : Log) : N := applied l.
End log.
Arguments Log S : clear implicits.
Arguments MkLog {S}.
Arguments NewLog {S}.

(** ** Node: the proposer *)
Record Config := MkConfig {
  Self : string;
  Replicas : list string;           (* all replica IDs including Self *)
  Equal : bytes → bytes → bool;
  Noop : bytes
}.

(** The index search of [NewNode] over the sorted replica IDs: the last match. *)
Definition string_sort (l : list string) : list string := merge_sort String.le l.
Fixpoint index_loop (self : string) (i : nat) (l : list string) (idx : option nat) : option nat :=
  match l with
  | [] => idx
  | id :: l => index_loop self (i + 1)%nat l (if decide (id = self) then Some i else idx)
  end.
(** [uint8(idx)]; [None] is the panic "Self not in Replicas". *)
Definition node_idx (cfg : Config) : option N :=
  i ← index_loop (Self cfg) 0 (string_sort (Replicas cfg)) None;
  Some (u8 (N.of_nat i)).

Definition majority (cfg : Config) : nat := (length (Replicas cfg) / 2 + 1)%nat.

(** Phase 1: the loop over [prepCh]; [None] is a reply with an error. *)
Record prep_acc := PrepAcc {
  promises : nat;
  adopted : option bytes;
  adoptedBallot : N;
  maxPromised : N
}.
Definition prep_step (acc : prep_acc) (res : option PrepareReply) : prep_acc :=
  match res with
  | None => acc
  | Some reply =>
      if Promised reply then
        let acc := PrepAcc (Datatypes.S (promises acc)) (adopted acc) (adoptedBallot acc) (maxPromised acc) in
        match AcceptedValue reply with
        | Some v =>
            if adoptedBallot acc <=? AcceptedBallot reply
            then PrepAcc (promises acc) (Some v) (AcceptedBallot reply) (maxPromised acc)
            else acc
        | None => acc
        end
      else if maxPromised acc <? PromisedBallot reply
      then PrepAcc (promises acc) (adopted acc) (adoptedBallot acc) (PromisedBallot reply)
      else acc
  end.
Definition collect_prepares (rs : list (option PrepareReply)) : prep_acc :=
  foldl prep_step (PrepAcc 0 None 0 0) rs.

(** Phase 2: the loop over [accCh]. *)
Definition acc_step (acc : nat * N) (res : option AcceptReply) : nat * N :=
  let '(accepts, maxP) := acc in
  match res with
  | None => acc
  | Some reply =>
      if Accepted reply then (Datatypes.S accepts, maxP)
      else if maxP <? RejectBallot reply then (accepts, RejectBallot reply) else acc
  end.
Definition collect_accepts (rs : list (option AcceptReply)) : nat * N :=
  foldl acc_step (0%nat, 0) rs.

(** [catchUpRound]: one atomic max (the compare-and-swap loop). *)
Definition catchUpRound (round promised : N) : N :=
  let target := Round promised in if target <=? round then round else target.

(** The end of phase 1: the proposal of phase 2, or the caught-up round. *)
Definition phase1_end (cfg : Config) (value : bytes) (rs : list (option PrepareReply)) : result N bytes :=
  let acc := collect_prepares rs in
  if (promises acc <? majority cfg)%nat then Err (maxPromised acc)
  else Ok (default value (adopted acc)).

(** The end of phase 2: chosen, or the ballot to catch up with. *)
Definition phase2_end (cfg : Config) (rs : list (option AcceptReply)) : result N unit :=
  let '(accepts, maxP) := collect_accepts rs in
  if (accepts <? majority cfg)%nat then Err maxP else Ok tt.

(** ** [runSlot] and [Submit] of one node against given network answers *)
Section submit.
Context {S : Type} (apply : N → bytes → S → S) (cfg : Config).

Record node := MkNode { round : N; log : Log S }.

(** What happens around one attempt: whether the context has ended, the replies
    of both phases in arrival order, and the Learn messages served meanwhile. *)
Record attempt_env := MkEnv {
  env_ctx_err : bool;
  env_prepares : list (option PrepareReply);
  env_accepts : list (option AcceptReply);
  env_learned : list (N * bytes)
}.

Definition learn_all (ls : list (N * bytes)) (l : Log S) : Log S :=
  foldl (λ l '(s, v), Commit apply s v l) l ls.

Definition runSlot (env : attempt_env) (n : node) (slot : N) (value : bytes) : node * option bytes :=
  let r := u64 (round n + 1) in
  let l := learn_all (env_learned env) (log n) in
  match phase1_end cfg value (env_prepares env) with
  | Err maxP => (MkNode (catchUpRound r maxP) l, None)
  | Ok proposal =>
      match phase2_end cfg (env_accepts env) with
      | Err maxP => (MkNode (catchUpRound r maxP) l, None)
      | Ok _ => (MkNode r (Commit apply slot proposal l), Some proposal)
      end
  end.

Inductive submit_error := ErrContext | ErrSubmitFailed.

(** [for attempt := 0; attempt < 20; attempt++]. *)
Fixpoint submit_loop (attempts : nat) (attempt : nat) (env : nat → attempt_env)
    (n : node) (value : bytes) : node * result submit_error unit :=
  match attempts with
  | O => (n, Err ErrSubmitFailed)
  | Datatypes.S attempts =>
      if env_ctx_err (env attempt) then (n, Err ErrContext)
      else
        let slot := FirstUnchosen (log n) in
        let '(n, res) := runSlot (env attempt) n slot value in
        match res with
        | None => submit_loop attempts (Datatypes.S attempt) env n value
        | Some chosen =>
            if Equal cfg chosen value then (n, Ok tt)
            else submit_loop attempts (Datatypes.S attempt) env n value
        end
  end.
Definition Submit (env : nat → attempt_env) (n : node) (value : bytes) :=
  submit_loop 20 0 env n value.

(** One tick of [RunGapFiller]. *)
Definition gap_filler_tick (env : nat → attempt_env) (n : node) : node :=
  match Gap (log n) with
  | Some _ => (Submit env n (Noop cfg)).1
  | None => n
  end.
End submit.
Arguments MkNode {S}.
End Paxos.
