(* ===== verification/PaxosLog.v ===== *)
(** * The learner: properties of [Log] (src/internal/paxos/log.go) and of [Submit]

    The invariant [log_inv] says what a log reachable through [Commit] looks like:
    everything below [applied] is chosen, [applied] is not, and the application
    state is the replay of the prefix.  From it: values are applied exactly once
    in slot order, commit order does not matter, and logs that agree slot by slot
    apply comparable prefixes. *)

From S2P Require Import Prelude Paxos.

Module PaxosLog.
Import Paxos.
Local Open Scope N_scope.

Section log.
Context {S : Type} (apply : N → bytes → S → S) (s0 : S).
Implicit Types (l : Log S) (ch : gmap N bytes).

(** Applying slots [0 .. n-1] in order. *)
Fixpoint replay ch (n : nat) : S :=
  match n with
  | O => s0
  | Datatypes.S n =>
      match ch !! N.of_nat n with
      | Some v => apply (N.of_nat n) v (replay ch n)
      | None => replay ch n
      end
  end.

(** Slots are [uint64]; the largest one is excluded so that [slot + 1] is exact. *)
Record log_pre l : Prop := {
  lp_bound : ∀ s, is_Some (chosen l !! s) → s < two64 - 1;
  lp_prefix : ∀ s, s < applied l → is_Some (chosen l !! s);
  lp_max : ∀ s, is_Some (chosen l !! s) → s < maxSeen l;
  lp_maxin : maxSeen l = 0 ∨ is_Some (chosen l !! (maxSeen l - 1));
  lp_app : app l = replay (chosen l) (N.to_nat (applied l))
}.
Record log_inv l : Prop := {
  li_pre : log_pre l;
  li_next : chosen l !! applied l = None
}.

Lemma prefix_size ch (n : nat) :
  (∀ s, s < N.of_nat n → is_Some (ch !! s)) → (n ≤ size ch)%nat.
Proof.
  intros Hall. rewrite <-(size_dom (D := gset N)).
  transitivity (size (list_to_set (N.of_nat <$> seq 0 n) : gset N)).
  - rewrite size_list_to_set by (apply NoDup_fmap_2; [apply _|apply NoDup_seq]).
    len_lia.
  - apply subseteq_size. intros s (i & -> & Hi%elem_of_seq)%elem_of_list_to_set%list_elem_of_fmap.
    apply elem_of_dom, Hall. lia.
Qed.

Lemma prefix_size_next ch (a : N) :
  (∀ s, s < a → is_Some (ch !! s)) → is_Some (ch !! a) → (N.to_nat a < size ch)%nat.
Proof.
  intros Hall Ha. apply (prefix_size ch (Datatypes.S (N.to_nat a))).
  intros s Hs. destruct (decide (s = a)) as [->|]; [done|]. apply Hall. lia.
Qed.

Lemma replay_succ ch a v :
  ch !! a = Some v → replay ch (N.to_nat (a + 1)) = apply a v (replay ch (N.to_nat a)).
Proof.
  intros Ha. replace (N.to_nat (a + 1)) with (Datatypes.S (N.to_nat a)) by lia.
  simpl. by rewrite N2Nat.id, Ha.
Qed.

Lemma replay_ext ch ch' n :
  (∀ s, s < N.of_nat n → ch !! s = ch' !! s) → replay ch n = replay ch' n.
Proof.
  induction n as [|n IH]; intros Heq; simpl; [done|].
  rewrite (Heq (N.of_nat n)) by lia. rewrite IH; [done|]. intros s Hs. apply Heq. lia.
Qed.

(** Replays of maps that agree up to the meaning the callback looks at. *)
Lemma replay_sem {C} (sem : bytes → C) ch ch' n :
  (∀ i v v' x, sem v = sem v' → apply i v x = apply i v' x) →
  (∀ s, s < N.of_nat n → sem <$> ch !! s = sem <$> ch' !! s) → replay ch n = replay ch' n.
Proof.
  intros Hap. induction n as [|n IH]; intros Heq; simpl; [done|].
  rewrite IH by (intros s Hs; apply Heq; lia). specialize (Heq (N.of_nat n) ltac:(lia)).
  destruct (ch !! N.of_nat n), (ch' !! N.of_nat n); simpl in Heq; try done.
  injection Heq as Heq. by apply Hap.
Qed.

Lemma apply_loop_spec fuel l :
  log_pre l → (size (chosen l) ≤ fuel + N.to_nat (applied l))%nat →
  let l' := apply_loop apply fuel l in
  log_inv l' ∧ chosen l' = chosen l ∧ maxSeen l' = maxSeen l ∧ applied l ≤ applied l'.
Proof.
  revert l. induction fuel as [|fuel IH]; intros l Hpre Hf; cbn [apply_loop]; cbv zeta.
  { split_and!; [|done|done|lia]. split; [done|].
    destruct (chosen l !! applied l) as [v|] eqn:Hv; [|done].
    pose proof (prefix_size_next (chosen l) (applied l) (lp_prefix l Hpre)
      ltac:(by rewrite Hv)). lia. }
  destruct (chosen l !! applied l) as [v|] eqn:Hv; [|split_and!; [by split|done|done|lia]].
  assert (applied l < two64 - 1) as Hb by (apply (lp_bound l Hpre); by rewrite Hv).
  rewrite u64_small by lia.
  destruct (IH (MkLog (chosen l) (applied l + 1) (maxSeen l) (apply (applied l) v (app l))))
    as (Hinv & Hch & Hms & Hap); simpl in *.
  - destruct Hpre as [H1 H2 H3 H4 H5]. split; simpl; [done| |done|done|].
    + intros s Hs. destruct (decide (s = applied l)) as [->|]; [by rewrite Hv|].
      apply H2. lia.
    + by rewrite (replay_succ _ _ _ Hv), H5.
  - lia.
  - split_and!; [done|done|done|lia].
Qed.

Lemma NewLog_inv : log_inv (NewLog s0).
Proof.
  split; [split|]; simpl; try done.
  - intros s [v Hv]. by rewrite lookup_empty in Hv.
  - intros s Hs. lia.
  - intros s [v Hv]. by rewrite lookup_empty in Hv.
  - by left.
Qed.

Lemma NewLog_empty s v : chosen (NewLog s0) !! s = Some v → False.
Proof. simpl. by rewrite lookup_empty. Qed.

Lemma chosen_apply_loop fuel l : chosen (apply_loop apply fuel l) = chosen l.
Proof.
  revert l. induction fuel as [|fuel IH]; intros l; simpl; [done|].
  destruct (chosen l !! applied l); [by rewrite IH|done].
Qed.

(** [Commit] never loses or replaces a chosen value. *)
Lemma Commit_keeps slot v l : chosen l ⊆ chosen (Commit apply slot v l).
Proof.
  unfold Commit. destruct (chosen l !! slot) eqn:Hs; [done|].
  rewrite chosen_apply_loop. by apply insert_subseteq.
Qed.

(** One [Commit] of a fresh slot: the chosen map grows, the invariant is kept. *)
Lemma Commit_spec l slot v :
  log_inv l → slot < two64 - 1 →
  log_inv (Commit apply slot v l) ∧
  chosen (Commit apply slot v l) =
    (match chosen l !! slot with Some _ => chosen l | None => <[slot := v]> (chosen l) end) ∧
  applied l ≤ applied (Commit apply slot v l).
Proof.
  intros [Hpre Hnext] Hslot. unfold Commit.
  destruct (chosen l !! slot) as [prev|] eqn:Hs; [split_and!; [by split|done|lia]|].
  rewrite u64_small by lia.
  set (ch := <[slot := v]> (chosen l)).
  set (ms := if maxSeen l <? slot + 1 then slot + 1 else maxSeen l).
  destruct (apply_loop_spec (size ch) (MkLog ch (applied l) ms (app l)))
    as (Hinv & Hch & _ & Hap); [|simpl; lia|by split_and!].
  destruct Hpre as [H1 H2 H3 H4 H5].
  assert (slot + 1 ≤ ms ∧ maxSeen l ≤ ms ∧ (ms = slot + 1 ∨ ms = maxSeen l)) as (Hm1 & Hm2 & Hm3).
  { unfold ms. destruct (N.ltb_spec (maxSeen l) (slot + 1)); lia. }
  assert (∀ s, is_Some (ch !! s) → s = slot ∨ is_Some (chosen l !! s)) as Hch.
  { intros s. unfold ch. rewrite lookup_insert_is_Some'. naive_solver. }
  assert (∀ s, is_Some (chosen l !! s) → is_Some (ch !! s)) as Hch'.
  { intros s ?. unfold ch. rewrite lookup_insert_is_Some'. auto. }
  split; simpl.
  - intros s [->|?%H1]%Hch; lia.
  - intros s Hlt. by apply Hch', H2.
  - intros s [->|?%H3]%Hch; lia.
  - destruct Hm3 as [->| ->].
    + right. replace (slot + 1 - 1) with slot by lia. unfold ch. by rewrite lookup_insert_eq.
    + destruct H4; [by left|right]. by apply Hch'.
  - rewrite H5. apply replay_ext. intros s Hlt. unfold ch.
    rewrite lookup_insert_ne; [done|]. intros ->.
    destruct (H2 s) as [w Hw]; [lia|]. congruence.
Qed.

(** The invariant determines the whole log from the chosen map. *)
Lemma log_inv_unique l1 l2 :
  log_inv l1 → log_inv l2 → chosen l1 = chosen l2 → l1 = l2.
Proof.
  intros [[_ P1 M1 I1 A1] N1] [[_ P2 M2 I2 A2] N2] Hch.
  assert (applied l1 = applied l2) as Hap.
  { destruct (N.lt_trichotomy (applied l1) (applied l2)) as [Hlt|[?|Hlt]]; [|done|].
    - apply P2 in Hlt as [v Hv]. congruence.
    - apply P1 in Hlt as [v Hv]. congruence. }
  assert (maxSeen l1 = maxSeen l2) as Hms.
  { rewrite Hch in M1, I1. destruct I1 as [I1|I1%M2], I2 as [I2|I2%M1]; lia. }
  destruct l1, l2; simpl in *. subst. done.
Qed.

Lemma FirstUnchosen_applied l : log_inv l → FirstUnchosen l = applied l.
Proof. intros [_ Hn]. unfold FirstUnchosen. simpl. by rewrite Hn. Qed.

Lemma learn_all_spec ls l :
  log_inv l → (∀ s v, (s, v) ∈ ls → s < two64 - 1) →
  log_inv (learn_all apply ls l) ∧ applied l ≤ applied (learn_all apply ls l) ∧
  (size (chosen (learn_all apply ls l)) ≤ size (chosen l) + length ls)%nat ∧
  (∀ s v, chosen l !! s = Some v → chosen (learn_all apply ls l) !! s = Some v) ∧
  (∀ s v, chosen (learn_all apply ls l) !! s = Some v → chosen l !! s = Some v ∨ (s, v) ∈ ls) ∧
  (∀ s v, (s, v) ∈ ls → is_Some (chosen (learn_all apply ls l) !! s)).
Proof.
  revert l. induction ls as [|[s v] ls IH]; intros l Hinv Hb; simpl.
  { split_and!; [done|lia|lia|auto|auto|set_solver]. }
  destruct (Commit_spec l s v Hinv) as (Hc & Hch & Hap); [apply (Hb s v); by left|].
  destruct (IH _ Hc) as (H1 & H2 & H3 & H4 & H5 & H6); [intros s' v' ?; apply (Hb s' v'); by right|].
  set (l1 := Commit apply s v l) in *.
  assert (is_Some (chosen l1 !! s)) as Hs.
  { rewrite Hch. destruct (chosen l !! s) eqn:E; [by rewrite E|by rewrite lookup_insert_eq]. }
  split_and!; [done|lia| | | |].
  - assert (size (chosen l1) ≤ Datatypes.S (size (chosen l)))%nat; [|lia].
    rewrite Hch. destruct (chosen l !! s) eqn:E; [lia|].
    by rewrite map_size_insert_None.
  - intros s' v' Hs'. apply H4. rewrite Hch. destruct (chosen l !! s) eqn:E; [done|].
    rewrite lookup_insert_ne; [done|congruence].
  - intros s' v' [Hs'|?]%H5; [|set_solver]. rewrite Hch in Hs'.
    destruct (chosen l !! s); [by left|].
    apply lookup_insert_Some in Hs' as [[-> ->]|[_ ?]]; [right; set_solver|by left].
  - intros s' v' [[= -> ->]|?]%elem_of_cons; [|by eapply H6].
    destruct Hs as [w Hw]. eauto.
Qed.

(** ** Properties *)

(** C22. The learner applies values exactly once and in slot order: from an empty
    log, after any sequence of commits the application state is the replay of
    slots 0 .. applied-1, all of them are chosen and slot [applied] is not; that
    slot is what [FirstUnchosen] returns, and [Gap] reports it exactly when a
    later slot is known to be chosen. *)
Theorem log_applies_in_order ls :
  (∀ s v, (s, v) ∈ ls → s < two64 - 1) →
  let l := learn_all apply ls (NewLog s0) in
  app l = replay (chosen l) (N.to_nat (applied l)) ∧
  (∀ s, s < applied l → is_Some (chosen l !! s)) ∧ chosen l !! applied l = None ∧
  FirstUnchosen l = applied l ∧
  (∀ s, Gap l = Some s ↔ s = applied l ∧ ∃ s', s < s' ∧ is_Some (chosen l !! s')).
Proof.
  intros Hb l.
  destruct (learn_all_spec ls (NewLog s0) NewLog_inv Hb) as (Hinv & _). fold l in Hinv.
  pose proof Hinv as [[H1 H2 H3 H4 H5] H6].
  split_and!; [done|done|done|by apply FirstUnchosen_applied|].
  intros s. unfold Gap. cbn [gap_loop]. rewrite H6.
  destruct (N.ltb_spec (applied l) (maxSeen l)) as [Hlt|Hge].
  - split; [intros [= <-]|by intros [-> _]]. split; [done|].
    destruct H4 as [?|H4]; [lia|]. exists (maxSeen l - 1). split; [|done].
    assert (maxSeen l - 1 ≠ applied l); [|lia].
    intros Heq. rewrite Heq, H6 in H4. by destruct H4.
  - split; [done|]. intros [-> (s' & Hs' & Hin%H3)]. lia.
Qed.

(** Delivery order and duplication of commits do not matter: two replicas
    that saw the same set of non-conflicting commits have identical logs,
    application state included. *)
Theorem log_commit_confluent ls ls' :
  (∀ s v, (s, v) ∈ ls → s < two64 - 1) →
  (∀ x, x ∈ ls ↔ x ∈ ls') →
  (∀ s v v', (s, v) ∈ ls → (s, v') ∈ ls → v = v') →
  learn_all apply ls (NewLog s0) = learn_all apply ls' (NewLog s0).
Proof.
  intros Hb Hsame Hfun.
  destruct (learn_all_spec ls (NewLog s0) NewLog_inv Hb) as (I1 & _ & _ & _ & F1 & T1).
  destruct (learn_all_spec ls' (NewLog s0) NewLog_inv) as (I2 & _ & _ & _ & F2 & T2).
  { intros s v Hin. apply (Hb s v). by apply Hsame. }
  apply log_inv_unique; [done..|]. apply map_eq. intros s. apply option_eq. intros v.
  split; intros Hv.
  - apply F1 in Hv as [Hv|Hv]; [by apply NewLog_empty in Hv|].
    destruct (T2 s v) as [w Hw]; [by apply Hsame|].
    pose proof (F2 _ _ Hw) as [Hw'|Hw']; [by apply NewLog_empty in Hw'|].
    rewrite Hw. f_equal. apply (Hfun s); [by apply Hsame|done].
  - apply F2 in Hv as [Hv|Hv]; [by apply NewLog_empty in Hv|].
    destruct (T1 s v) as [w Hw]; [by apply Hsame|].
    pose proof (F1 _ _ Hw) as [Hw'|Hw']; [by apply NewLog_empty in Hw'|].
    rewrite Hw. f_equal. apply (Hfun s); [done|by apply Hsame].
Qed.

(** ** [runSlot] and [Submit] *)
Context (cfg : Config).

Lemma applied_lt l : log_inv l → applied l < two64.
Proof.
  intros [[Hb Hp _ _ _] _]. destruct (N.lt_ge_cases (applied l) two64) as [|Hge]; [done|].
  specialize (Hb (two64 - 1) (Hp (two64 - 1) ltac:(unfold two64 in *; lia))). unfold two64 in *. lia.
Qed.

Lemma applied_le_size l : log_inv l → (N.to_nat (applied l) ≤ size (chosen l))%nat.
Proof.
  intros [Hp _]. apply prefix_size. intros s Hs. apply (lp_prefix l Hp). lia.
Qed.

Lemma runSlot_spec env (n n' : node) slot value res :
  log_inv (log n) → slot = applied (log n) → slot < two64 - 1 →
  (∀ s v, (s, v) ∈ env_learned env → s < two64 - 1) →
  runSlot apply cfg env n slot value = (n', res) →
  log_inv (log n') ∧
  (size (chosen (log n')) ≤ size (chosen (log n)) + length (env_learned env) + 1)%nat ∧
  (∀ p, res = Some p → slot < applied (log n') ∧
     ∃ w, chosen (log n') !! slot = Some w ∧ (w = p ∨ (slot, w) ∈ env_learned env)).
Proof.
  intros Hinv -> Hslot Hb. unfold runSlot.
  destruct (learn_all_spec (env_learned env) (log n) Hinv Hb) as (H1 & H2 & H3 & _ & H5 & _).
  set (l := learn_all apply (env_learned env) (log n)) in *.
  destruct (phase1_end _ _ _) as [p|maxP];
    [|intros [= <- <-]; split_and!; simpl; [done|lia|done]].
  destruct (phase2_end _ _) as [[]|maxP]; intros [= <- <-]; simpl;
    [|split_and!; [done|lia|done]].
  destruct (Commit_spec l (applied (log n)) p H1 Hslot) as (C1 & C2 & C3).
  set (l' := Commit apply (applied (log n)) p l) in *.
  assert (∃ w, chosen l' !! applied (log n) = Some w ∧
    (w = p ∨ (applied (log n), w) ∈ env_learned env)) as Hw.
  { rewrite C2. destruct (chosen l !! applied (log n)) as [w|] eqn:Hw.
    - exists w. split; [done|]. apply H5 in Hw as [Hw|]; [|by right].
      by rewrite (li_next _ Hinv) in Hw.
    - exists p. rewrite lookup_insert_eq. auto. }
  split_and!; [done| |].
  - rewrite C2. destruct (chosen l !! applied (log n)) eqn:E; [lia|].
    rewrite map_size_insert_None by done. lia.
  - intros p' [= <-]. split; [|done].
    assert (applied l' ≠ applied (log n)); [|lia].
    intros Heq. pose proof (li_next _ C1) as Hn. rewrite Heq in Hn.
    destruct Hw as (w & Hw & _). congruence.
Qed.

Definition learned_total (env : nat → attempt_env) (from k : nat) : nat :=
  sum_list ((λ i, length (env_learned (env i))) <$> seq from k).

(** The node before attempt [a + j] of a [Submit] whose attempt [a] starts at [n]. *)
Fixpoint node_before (env : nat → attempt_env) (value : bytes) (a : nat) (n : node) (j : nat) : node :=
  match j with
  | O => n
  | Datatypes.S j =>
      node_before env value (Datatypes.S a) (runSlot apply cfg (env a) n (FirstUnchosen (log n)) value).1 j
  end.
(** Attempt [i], made at node [n], ends [Submit]: a majority promises and accepts the
    proposal [p] in the slot [n] takes for the first unchosen one. *)
Definition decides env value (i : nat) (n n' : node) (p : bytes) : Prop :=
  env_ctx_err (env i) = false ∧ phase1_end cfg value (env_prepares (env i)) = Ok p ∧
  (majority cfg ≤ (collect_accepts (env_accepts (env i))).1)%nat ∧ Equal cfg p value = true ∧
  runSlot apply cfg (env i) n (FirstUnchosen (log n)) value = (n', Some p).

Lemma runSlot_decides env value i (n n' : node) p :
  env_ctx_err (env i) = false → Equal cfg p value = true →
  runSlot apply cfg (env i) n (FirstUnchosen (log n)) value = (n', Some p) → decides env value i n n' p.
Proof.
  intros Hctx Heq Hrun. pose proof Hrun as Hr. unfold runSlot in Hr. unfold decides.
  destruct (phase1_end _ _ _) as [q|]; [|done]. unfold phase2_end in Hr.
  destruct (collect_accepts _) as [k mp]. destruct (Nat.ltb_spec k (majority cfg)); [done|].
  injection Hr as _ ->. done.
Qed.

Lemma submit_loop_spec k a env (n n' : node) value :
  log_inv (log n) →
  (∀ i s v, (s, v) ∈ env_learned (env i) → s < two64 - 1) →
  N.of_nat (size (chosen (log n)) + learned_total env a k + k) < two64 - 1 →
  submit_loop apply cfg k a env n value = (n', Ok tt) →
  log_inv (log n') ∧ ∃ j p w, (j < k)%nat ∧
    let nj := node_before env value a n j in let slot := FirstUnchosen (log nj) in
    decides env value (a + j) nj n' p ∧ log_inv (log nj) ∧ slot < applied (log n') ∧
    chosen (log n') !! slot = Some w ∧ (w = p ∨ (slot, w) ∈ env_learned (env (a + j)%nat)).
Proof.
  revert a n. induction k as [|k IH]; intros a n Hinv Hb Hsz; [done|]. cbn [submit_loop].
  destruct (env_ctx_err (env a)) eqn:Hctx; [done|].
  destruct (runSlot _ _ _ _ _ _) as [n1 res] eqn:Hrun.
  change (learned_total env a (Datatypes.S k)) with
    (length (env_learned (env a)) + learned_total env (Datatypes.S a) k)%nat in Hsz.
  pose proof (applied_le_size _ Hinv) as Hle. pose proof (FirstUnchosen_applied _ Hinv) as Hfu.
  pose proof Hrun as Hspec. apply runSlot_spec in Hspec as (Hinv1 & Hsz1 & Hres); [|done|done|lia|by intros; eapply Hb].
  assert (submit_loop apply cfg k (Datatypes.S a) env n1 value = (n', Ok tt) →
    log_inv (log n') ∧ ∃ j p w, (j < Datatypes.S k)%nat ∧
      let nj := node_before env value a n j in let slot := FirstUnchosen (log nj) in
      decides env value (a + j) nj n' p ∧ log_inv (log nj) ∧ slot < applied (log n') ∧
      chosen (log n') !! slot = Some w ∧ (w = p ∨ (slot, w) ∈ env_learned (env (a + j)%nat))) as Hnext.
  { intros Hl. destruct (IH (Datatypes.S a) n1 Hinv1 Hb ltac:(lia) Hl) as (Hi & j & p & w & Hj & Hrest).
    split; [done|]. exists (Datatypes.S j), p, w. split; [lia|]. cbn [node_before]. rewrite Hrun, <-Nat.add_succ_comm. exact Hrest. }
  destruct res as [p|]; [|exact Hnext]. destruct (Equal cfg p value) eqn:Heq; [|exact Hnext].
  intros [= <-]. split; [done|]. destruct (Hres p eq_refl) as (Hap & w & Hw & Hor).
  exists 0%nat, p, w. split; [lia|]. cbv zeta. cbn [node_before]. rewrite Nat.add_0_r.
  split_and!; [by apply runSlot_decides|done|done|done|done].
Qed.

(** C24. When [Submit] returns nil the command is committed and applied on this replica
    (what [Join] relies on).  One of its at most 20 attempts decided it, starting
    from the node the earlier attempts left: a majority promised and accepted the
    value [p], [Equal] to the submitted one, in the slot that attempt read as the first
    unchosen one.  That slot was indeed free and the next to apply; now it is applied,
    and it holds [p], or the value a Learn message for this very slot delivered during
    that attempt (which by agreement is the same command). *)
Theorem submit_ok_applied env (n n' : node) value :
  log_inv (log n) →
  (∀ i s v, (s, v) ∈ env_learned (env i) → s < two64 - 1) →
  N.of_nat (size (chosen (log n)) + learned_total env 0 20 + 20) < two64 - 1 →
  Submit apply cfg env n value = (n', Ok tt) →
  log_inv (log n') ∧ ∃ j p w, (j < 20)%nat ∧
    let nj := node_before env value 0 n j in let slot := FirstUnchosen (log nj) in
    decides env value j nj n' p ∧
    slot = applied (log nj) ∧ chosen (log nj) !! slot = None ∧
    slot < applied (log n') ∧ chosen (log n') !! slot = Some w ∧
    (w = p ∨ (slot, w) ∈ env_learned (env j)).
Proof.
  intros Hinv Hb Hsz Hs. destruct (submit_loop_spec 20 0 env n n' value Hinv Hb Hsz Hs)
    as (Hi & j & p & w & Hj & Hd & Hij & Hap & Hw & Hor).
  split; [done|]. exists j, p, w. pose proof (FirstUnchosen_applied _ Hij) as Hfu.
  cbv zeta. split_and!; [done|done|done|rewrite Hfu; apply (li_next _ Hij)|done|done|done].
Qed.

Lemma collect_prepares_fresh rs :
  (∀ r, Some r ∈ rs → Promised r = true ∧ AcceptedValue r = None) →
  collect_prepares rs = PrepAcc (length (List.filter (λ o, match o with Some _ => true | None => false end) rs)) None 0 0.
Proof.
  intros Hr. rewrite <-(Nat.add_0_l (length _)). unfold collect_prepares.
  revert Hr. generalize 0%nat as k. induction rs as [|[r|] rs IH]; intros k Hr; simpl.
  - f_equal. lia.
  - destruct (Hr r) as [-> Hv]; [by left|]. rewrite Hv. rewrite IH by (intros; apply Hr; by right).
    f_equal. lia.
  - apply IH. intros. apply Hr. by right.
Qed.

(** An attempt that succeeds with an [Equal] value ends the loop. *)
Lemma submit_loop_done k a env (n n' : node) value p :
  env_ctx_err (env a) = false →
  runSlot apply cfg (env a) n (FirstUnchosen (log n)) value = (n', Some p) →
  Equal cfg p value = true →
  submit_loop apply cfg (Datatypes.S k) a env n value = (n', Ok tt).
Proof. intros Hctx Hrun Heq. cbn [submit_loop]. by rewrite Hctx, Hrun, Heq. Qed.

(** Committing the next slot of a log without later entries applies it alone. *)
Lemma Commit_next l v :
  chosen l !! applied l = None → chosen l !! (applied l + 1) = None → applied l < two64 - 1 →
  chosen (Commit apply (applied l) v l) = <[applied l := v]> (chosen l) ∧
  app (Commit apply (applied l) v l) = apply (applied l) v (app l) ∧
  applied (Commit apply (applied l) v l) = applied l + 1.
Proof.
  intros Hn Hn1 Hlt. unfold Commit. rewrite Hn, map_size_insert_None by done.
  cbn [apply_loop chosen applied]. rewrite lookup_insert_eq, (u64_small (applied l + 1)) by lia.
  set (l1 := MkLog _ _ _ _). enough (∀ fuel, apply_loop apply fuel l1 = l1) as -> by done.
  intros [|fuel]; [done|]. simpl. rewrite lookup_insert_ne by lia. by rewrite Hn1.
Qed.

(** A quiet slot: [Submit] ends at its first attempt with its own value. *)
Lemma Submit_quiet env (n : node) value :
  chosen (log n) !! applied (log n) = None →
  env_ctx_err (env 0%nat) = false → env_learned (env 0%nat) = [] →
  Equal cfg value value = true →
  (∀ r, Some r ∈ env_prepares (env 0%nat) → Promised r = true ∧ AcceptedValue r = None) →
  (majority cfg ≤ promises (collect_prepares (env_prepares (env 0%nat))))%nat →
  (majority cfg ≤ (collect_accepts (env_accepts (env 0%nat))).1)%nat →
  FirstUnchosen (log n) = applied (log n) ∧
  Submit apply cfg env n value =
    (MkNode (u64 (round n + 1)) (Commit apply (applied (log n)) value (log n)), Ok tt).
Proof.
  intros Hn Hctx Hlearn Heq Hfresh Hp Ha.
  assert (FirstUnchosen (log n) = applied (log n)) as Hfu
    by (unfold FirstUnchosen; simpl; by rewrite Hn).
  split; [done|]. apply (submit_loop_done 19 0 env n _ value value); [done| |done].
  rewrite Hfu. unfold runSlot, phase1_end, phase2_end.
  rewrite (proj2 (Nat.ltb_ge _ _) Hp), collect_prepares_fresh, Hlearn by done.
  destruct (collect_accepts _) as [k mp]. simpl in Ha. by rewrite (proj2 (Nat.ltb_ge _ _) Ha).
Qed.

(** C25. Liveness on a quiet slot: if a majority promises, none of the promises
    carries an accepted value, and a majority accepts, then [Submit] of a value
    equal to itself succeeds at the first attempt and its value is chosen in the
    slot [FirstUnchosen] returned. *)
Theorem submit_succeeds env (n : node) value :
  log_inv (log n) → applied (log n) < two64 - 1 →
  env_ctx_err (env 0%nat) = false → env_learned (env 0%nat) = [] →
  Equal cfg value value = true →
  (∀ r, Some r ∈ env_prepares (env 0%nat) → Promised r = true ∧ AcceptedValue r = None) →
  (majority cfg ≤ promises (collect_prepares (env_prepares (env 0%nat))))%nat →
  (majority cfg ≤ (collect_accepts (env_accepts (env 0%nat))).1)%nat →
  ∃ n', Submit apply cfg env n value = (n', Ok tt) ∧
    chosen (log n') !! FirstUnchosen (log n) = Some value.
Proof.
  intros Hinv Hlt Hctx Hlearn Heq Hfresh Hp Ha.
  destruct (Submit_quiet env n value (li_next _ Hinv)) as [Hfu Hs]; [done..|].
  eexists. split; [exact Hs|]. rewrite Hfu. simpl.
  destruct (Commit_spec (log n) (applied (log n)) value Hinv Hlt) as (_ & -> & _).
  rewrite (li_next _ Hinv). apply lookup_insert_eq.
Qed.
End log.

(** ** Witnesses: a log of byte strings, [apply] appends *)
Abbreviation demo_apply := (λ (_ : N) (v x : bytes), x ++ v).
Definition demo_cfg : Config :=
  MkConfig "r1" ["r1"; "r2"; "r3"] (λ a b, bool_decide (a = b)) [x00].
Definition demo_env (_ : nat) : attempt_env :=
  MkEnv false [Some (MkPrepareReply true 0 None 256); None; Some (MkPrepareReply true 0 None 256)]
    [Some (MkAcceptReply true 256); Some (MkAcceptReply true 256); None] [].

Lemma log_applies_in_order_witness :
  let l := learn_all demo_apply [(1, [x02]); (0, [x01]); (5, [x03])] (NewLog []) in
  app l = [x01; x02] ∧ Gap l = Some 2.
Proof.
  destruct (log_applies_in_order demo_apply [] [(1, [x02]); (0, [x01]); (5, [x03])])
    as (_ & _ & _ & _ & Hgap).
  { intros s v Hin. repeat (apply elem_of_cons in Hin as [[= -> _]|Hin]; [done|]).
    by apply elem_of_nil in Hin. }
  split; [vm_compute; reflexivity|]. apply Hgap. split; [vm_compute; reflexivity|].
  exists 5. split; [done|]. exists [x03]. vm_compute. reflexivity.
Defined.

Lemma log_commit_confluent_witness :
  learn_all demo_apply [(0, [x01]); (1, [x02])] (NewLog []) =
  learn_all demo_apply [(1, [x02]); (0, [x01]); (1, [x02])] (NewLog []).
Proof.
  apply log_commit_confluent.
  - intros s v [[= -> _]|[[= -> _]|Hin%elem_of_nil]%elem_of_cons]%elem_of_cons; done.
  - intros x. set_solver.
  - intros s v v' [[= -> ->]|[[= -> ->]|Hin%elem_of_nil]%elem_of_cons]%elem_of_cons; try done;
      set_solver.
Defined.

(** The first attempt loses (one promise), the second decides. *)
Definition demo_env2 (i : nat) : attempt_env :=
  if (i =? 0)%nat then MkEnv false [Some (MkPrepareReply true 0 None 256); None; None] [] [] else demo_env i.
Lemma submit_ok_applied_witness :
  let n := MkNode 0 (NewLog []) in let n' := (Submit demo_apply demo_cfg demo_env2 n [x01]).1 in
  Submit demo_apply demo_cfg demo_env2 n [x01] = (n', Ok tt) ∧ applied (log n') = 1 ∧
  ∃ j p, decides demo_apply demo_cfg demo_env2 [x01] j (node_before demo_apply demo_cfg demo_env2 [x01] 0 n j) n' p ∧
    chosen (log n') !! FirstUnchosen (log (node_before demo_apply demo_cfg demo_env2 [x01] 0 n j)) = Some p.
Proof.
  intros n n'. split; [vm_compute; reflexivity|]. split; [vm_compute; reflexivity|].
  destruct (submit_ok_applied demo_apply [] demo_cfg demo_env2 n n' [x01])
    as (_ & j & p & w & Hj & Hd & _ & _ & _ & Hw & Hor).
  - apply NewLog_inv.
  - intros i s v. unfold demo_env2. by destruct (i =? 0)%nat; intros []%elem_of_nil.
  - vm_compute. reflexivity.
  - vm_compute. reflexivity.
  - exists j, p. split; [exact Hd|]. destruct Hor as [<-|Hin]; [exact Hw|].
    exfalso. unfold demo_env2 in Hin. destruct (j =? 0)%nat; by apply elem_of_nil in Hin.
Defined.

Lemma submit_succeeds_witness :
  ∃ n', Submit demo_apply demo_cfg demo_env (MkNode 0 (NewLog [])) [x01] = (n', Ok tt) ∧
    chosen (log n') !! 0 = Some [x01].
Proof.
  apply (submit_succeeds demo_apply [] demo_cfg demo_env (MkNode 0 (NewLog [])) [x01]).
  - apply NewLog_inv.
  - done.
  - done.
  - done.
  - done.
  - intros r. simpl. set_solver.
  - done.
  - done.
Defined.
End PaxosLog.
