(* ===== verification/PaxosNet.v ===== *)
(** * Agreement of multi-decree Paxos over an asynchronous network

    The replicas of [Paxos] composed by a step relation.  Requests and replies
    live in a message soup that only grows: a message may be delivered late, many
    times, in any order or never, and any call may fail (a [None] result).  The
    proposer of a replica follows [Node.runSlot]: it starts at
    [FirstUnchosen], collects one result per replica in each phase and acts on
    [phase1_end] and [phase2_end].  [submitMu] allows one proposal per replica at
    a time.

    The transport may re-encode a value on the wire (protobuf bytes are not
    canonical): it preserves only its meaning [sem].  Agreement is therefore
    stated up to [sem]. *)

From S2P Require Import Prelude Paxos PaxosLog.

Module PaxosNet.
Import Paxos PaxosLog.
Local Open Scope N_scope.

Inductive msg :=
| MPrepare (s b : N)
| MPromise (p : string) (s b : N) (r : PrepareReply)
| MAccept (s b : N) (v : bytes)
| MAccepted (p : string) (s b : N) (r : AcceptReply)
| MLearn (s : N) (v : bytes).

Inductive phase :=
| Phase1 (got : list (string * option PrepareReply))
| Phase2 (proposal : bytes) (got : list (string * option AcceptReply)).

(** A [runSlot] in progress. *)
Record running := MkRunning { run_slot : N; run_ballot : N; run_value : bytes; run_phase : phase }.

Section net.
Context {C S : Type} (sem : bytes → C) (apply : N → bytes → S → S) (s0 : S).
Context (replicas : list string) (equal : bytes → bytes → bool) (noop : bytes).

Definition cfg_of (self : string) : Config := MkConfig self replicas equal noop.
Definition idx (self : string) : N := default 0 (node_idx (cfg_of self)).

Record replica := MkReplica {
  r_acc : Acceptor;
  r_round : N;
  r_log : Log S;
  r_run : option running
}.
Record net := MkNet { nodes : string → replica; msgs : list msg }.

Definition upd (f : string → replica) (p : string) (x : replica) : string → replica :=
  λ q, if decide (q = p) then x else f q.

Definition init : net := MkNet (λ _, MkReplica NewAcceptor 0 (NewLog s0) None) [].

(** A reply after the wire: the accepted value may have been re-encoded. *)
Definition wire_reply (r r' : PrepareReply) : Prop :=
  Promised r' = Promised r ∧ AcceptedBallot r' = AcceptedBallot r ∧
  PromisedBallot r' = PromisedBallot r ∧
  sem <$> AcceptedValue r' = sem <$> AcceptedValue r.

Definition set_acc (x : replica) (a : Acceptor) : replica :=
  MkReplica a (r_round x) (r_log x) (r_run x).
Definition set_run (x : replica) (g : option running) : replica :=
  MkReplica (r_acc x) (r_round x) (r_log x) g.
Definition set_log (x : replica) (l : Log S) : replica :=
  MkReplica (r_acc x) (r_round x) l (r_run x).

Inductive step : net → net → Prop :=
| step_start st n value :
    n ∈ replicas → r_run (nodes st n) = None →
    let x := nodes st n in
    let slot := FirstUnchosen (r_log x) in
    let r := u64 (r_round x + 1) in
    let b := MakeBallot r (idx n) in
    step st (MkNet (upd (nodes st) n (MkReplica (r_acc x) r (r_log x)
                      (Some (MkRunning slot b value (Phase1 [])))))
                   (MPrepare slot b :: msgs st))
| step_prepare st p s b r r' a :
    p ∈ replicas → MPrepare s b ∈ msgs st →
    Prepare (r_acc (nodes st p)) s b = (r, a) → wire_reply r r' →
    step st (MkNet (upd (nodes st) p (set_acc (nodes st p) a)) (MPromise p s b r' :: msgs st))
| step_got_promise st n p s b v got res :
    n ∈ replicas → r_run (nodes st n) = Some (MkRunning s b v (Phase1 got)) →
    p ∈ replicas → p ∉ got.*1 →
    (∀ r, res = Some r → MPromise p s b r ∈ msgs st) →
    step st (MkNet (upd (nodes st) n (set_run (nodes st n)
                      (Some (MkRunning s b v (Phase1 (got ++ [(p, res)])))))) (msgs st))
| step_phase1_fail st n s b v got maxP :
    n ∈ replicas → r_run (nodes st n) = Some (MkRunning s b v (Phase1 got)) →
    length got = length replicas → phase1_end (cfg_of n) v got.*2 = Err maxP →
    let x := nodes st n in
    step st (MkNet (upd (nodes st) n
                      (MkReplica (r_acc x) (catchUpRound (r_round x) maxP) (r_log x) None)) (msgs st))
| step_phase1_ok st n s b v got proposal :
    n ∈ replicas → r_run (nodes st n) = Some (MkRunning s b v (Phase1 got)) →
    length got = length replicas → phase1_end (cfg_of n) v got.*2 = Ok proposal →
    step st (MkNet (upd (nodes st) n (set_run (nodes st n)
                      (Some (MkRunning s b v (Phase2 proposal []))))) (MAccept s b proposal :: msgs st))
| step_accept st p s b v v' r a :
    p ∈ replicas → MAccept s b v ∈ msgs st → sem v' = sem v →
    Accept (r_acc (nodes st p)) s b (Some v') = (r, a) →
    step st (MkNet (upd (nodes st) p (set_acc (nodes st p) a)) (MAccepted p s b r :: msgs st))
| step_got_accepted st n p s b v proposal got res :
    n ∈ replicas → r_run (nodes st n) = Some (MkRunning s b v (Phase2 proposal got)) →
    p ∈ replicas → p ∉ got.*1 →
    (∀ r, res = Some r → MAccepted p s b r ∈ msgs st) →
    step st (MkNet (upd (nodes st) n (set_run (nodes st n)
                      (Some (MkRunning s b v (Phase2 proposal (got ++ [(p, res)])))))) (msgs st))
| step_phase2_fail st n s b v proposal got maxP :
    n ∈ replicas → r_run (nodes st n) = Some (MkRunning s b v (Phase2 proposal got)) →
    length got = length replicas → phase2_end (cfg_of n) got.*2 = Err maxP →
    let x := nodes st n in
    step st (MkNet (upd (nodes st) n
                      (MkReplica (r_acc x) (catchUpRound (r_round x) maxP) (r_log x) None)) (msgs st))
| step_phase2_ok st n s b v proposal got :
    n ∈ replicas → r_run (nodes st n) = Some (MkRunning s b v (Phase2 proposal got)) →
    length got = length replicas → phase2_end (cfg_of n) got.*2 = Ok tt →
    let x := nodes st n in
    step st (MkNet (upd (nodes st) n
                      (MkReplica (r_acc x) (r_round x) (Commit apply s proposal (r_log x)) None))
                   (MLearn s proposal :: msgs st))
| step_learn st p s v v' :
    p ∈ replicas → MLearn s v ∈ msgs st → sem v' = sem v →
    step st (MkNet (upd (nodes st) p
                      (set_log (nodes st p) (Commit apply s v' (r_log (nodes st p))))) (msgs st)).

(** States reachable in exactly [k] steps. *)
Inductive reach : nat → net → Prop :=
| reach_init : reach 0 init
| reach_step k st st' : reach k st → step st st' → reach (Datatypes.S k) st'.

(** [j] further steps. *)
Inductive steps (st : net) : nat → net → Prop :=
| steps_refl : steps st 0 st
| steps_step j st' st'' : steps st j st' → step st' st'' → steps st (Datatypes.S j) st''.
End net.
End PaxosNet.
