(* ===== verification/PaxosSafety.v ===== *)
(** * Paxos agreement: the proof

    Ballots are owned by one replica and used for one slot and one proposal;
    acceptors never go back on a promise; a phase-2 proposal carries the evidence
    of a promising majority; two majorities intersect.  The invariants are kept
    in three records, proved separately over the step relation of [PaxosNet]:
    [inv_ballots] (proposers and requests), [inv_acceptors] (acceptors and
    replies) and [inv_chosen] (evidence, learners). *)

From S2P Require Import Prelude Paxos PaxosLog PaxosNet.

Module PaxosSafety.
Import Paxos PaxosLog PaxosNet.
Local Open Scope N_scope.

(** ** Ballots *)
Definition two56 : N := 72057594037927936.

Lemma MakeBallot_value r i : r < two56 → i < 256 → MakeBallot r i = r * 256 + i.
Proof.
  unfold two56. intros Hr Hi. unfold MakeBallot.
  assert (N.shiftl r 8 = r * 256) as -> by (rewrite N.shiftl_mul_pow2; done).
  rewrite u64_small by word_lia.
  rewrite <-N.lxor_lor, <-N.add_nocarry_lxor; [done| |];
    (apply N.bits_inj_0; intros m; rewrite N.land_spec;
     destruct (N.lt_ge_cases m 8) as [Hm|Hm];
     [change (r * 256) with (r * 2 ^ 8); by rewrite N.mul_pow2_bits_low
     |rewrite (N.bits_above_log2 i), andb_false_r; [done|]];
     destruct (decide (i = 0)) as [->|]; [simpl; lia|];
     apply N.log2_lt_pow2; [lia|]; apply N.lt_le_trans with (2 ^ 8); [done|];
     by apply N.pow_le_mono_r).
Qed.

Lemma Round_MakeBallot r i : r < two56 → i < 256 → Round (MakeBallot r i) = r.
Proof.
  intros Hr Hi. unfold Round. rewrite MakeBallot_value, N.shiftr_div_pow2 by done.
  change (2 ^ 8) with 256. symmetry. apply N.div_unique with i; lia.
Qed.

Lemma MakeBallot_inj r r' i i' :
  r < two56 → r' < two56 → i < 256 → i' < 256 →
  MakeBallot r i = MakeBallot r' i' → r = r' ∧ i = i'.
Proof. intros ????. rewrite !MakeBallot_value by done. lia. Qed.

(** ** Replica indices *)
Lemma index_loop_spec self i l acc :
  index_loop self i l acc = acc ∧ self ∉ l ∨
  ∃ j, index_loop self i l acc = Some (i + j)%nat ∧ l !! j = Some self.
Proof.
  revert i acc. induction l as [|id l IH]; intros i acc; simpl; [left; set_solver|].
  destruct (IH (i + 1)%nat (if decide (id = self) then Some i else acc))
    as [[-> Hn]|(j & -> & Hj)].
  - destruct (decide (id = self)) as [->|]; [right|left; set_solver].
    exists 0%nat. split; [f_equal; lia|done].
  - right. exists (Datatypes.S j). split; [f_equal; lia|done].
Qed.

Section idx.
Context (replicas : list string) (equal : bytes → bytes → bool) (noop : bytes).
Hypothesis replicas_nodup : NoDup replicas.
Hypothesis replicas_small : (length replicas ≤ 256)%nat.

Abbreviation idx := (idx replicas equal noop).

Lemma idx_lookup n :
  n ∈ replicas → ∃ j, (j < 256)%nat ∧ idx n = N.of_nat j ∧
    node_idx (cfg_of replicas equal noop n) = Some (N.of_nat j) ∧
    string_sort replicas !! j = Some n.
Proof.
  intros Hn. unfold PaxosNet.idx, node_idx. simpl.
  destruct (index_loop_spec n 0 (string_sort replicas) None) as [[_ Hout]|(j & -> & Hj)].
  { destruct Hout. unfold string_sort. by rewrite merge_sort_Permutation. }
  exists j. pose proof (lookup_lt_Some _ _ _ Hj) as Hlt. unfold string_sort in Hlt.
  rewrite (Permutation_length (merge_sort_Permutation String.le replicas)) in Hlt.
  simpl. unfold u8. rewrite N.mod_small by lia. split_and!; [lia|done|done|done].
Qed.

Lemma idx_lt n : n ∈ replicas → idx n < 256.
Proof. intros (j & ? & -> & _)%idx_lookup. lia. Qed.

Lemma idx_inj n n' : n ∈ replicas → n' ∈ replicas → idx n = idx n' → n = n'.
Proof.
  intros (j & _ & -> & _ & Hj)%idx_lookup (j' & _ & -> & _ & Hj')%idx_lookup.
  intros ->%Nat2N.inj. congruence.
Qed.

(** Two majorities of the replica list share a member. *)
Lemma majorities_meet self (Q1 Q2 : list string) :
  NoDup Q1 → NoDup Q2 → Q1 ⊆ replicas → Q2 ⊆ replicas →
  (majority (cfg_of replicas equal noop self) ≤ length Q1)%nat →
  (majority (cfg_of replicas equal noop self) ≤ length Q2)%nat →
  ∃ p, p ∈ Q1 ∧ p ∈ Q2.
Proof.
  clear replicas_nodup replicas_small.
  intros H1 H2 S1 S2 L1 L2. unfold majority, cfg_of in *. cbn [Replicas] in *.
  destruct (decide (Exists (λ p, p ∈ Q2) Q1)) as [(p & ? & ?)%Exists_exists|Hno]; [eauto|].
  exfalso. assert (NoDup (Q1 ++ Q2)) as Hnd.
  { apply NoDup_app. split_and!; [done| |done]. intros p Hp1 Hp2.
    apply Hno, Exists_exists. eauto. }
  assert (length (Q1 ++ Q2) ≤ length replicas)%nat as Hlen.
  { apply submseteq_length, NoDup_submseteq; [done|]. set_solver. }
  rewrite length_app in Hlen.
  pose proof (Nat.div_mod_eq (length replicas) 2).
  pose proof (Nat.mod_upper_bound (length replicas) 2 ltac:(done)). lia.
Qed.
End idx.

(** ** Acceptors *)
Definition slot_of (a : Acceptor) (s : N) : acceptorSlot := default zero_slot (a !! s).

Lemma acceptor_slot_spec a s sl a' :
  acceptor_slot a s = (sl, a') → sl = slot_of a s ∧ ∀ s', slot_of a' s' = slot_of a s'.
Proof.
  unfold acceptor_slot, slot_of. destruct (a !! s) as [x|] eqn:Hs; intros [= <- <-]; [done|].
  split; [done|]. intros s'. destruct (decide (s = s')) as [<-|].
  - by rewrite lookup_insert_eq, Hs.
  - by rewrite lookup_insert_ne.
Qed.

Lemma Prepare_spec a s b r a' :
  Prepare a s b = (r, a') →
  let sl := slot_of a s in
  AcceptedBallot r = acceptedBallot sl ∧ AcceptedValue r = acceptedValue sl ∧
  (∀ s', s' ≠ s → slot_of a' s' = slot_of a s') ∧
  (promised sl < b ∧ Promised r = true ∧ PromisedBallot r = b ∧
     slot_of a' s = AcceptorSlot b (acceptedBallot sl) (acceptedValue sl) ∨
   b ≤ promised sl ∧ Promised r = false ∧ PromisedBallot r = promised sl ∧
     slot_of a' s = sl).
Proof.
  unfold Prepare. destruct (acceptor_slot a s) as [sl a1] eqn:Hsl.
  apply acceptor_slot_spec in Hsl as [-> Hsame].
  destruct (N.ltb_spec (promised (slot_of a s)) b); intros [= <- <-]; simpl.
  - split_and!; [done..| |].
    + intros s' ?. unfold slot_of at 1. rewrite lookup_insert_ne by done. apply Hsame.
    + left. split_and!; [done..|]. unfold slot_of at 1. by rewrite lookup_insert_eq.
  - split_and!; [done..|by intros|]. right. by split_and!.
Qed.

Lemma Accept_spec a s b v r a' :
  Accept a s b v = (r, a') →
  let sl := slot_of a s in
  (∀ s', s' ≠ s → slot_of a' s' = slot_of a s') ∧
  (promised sl ≤ b ∧ Accepted r = true ∧ RejectBallot r = b ∧
     slot_of a' s = AcceptorSlot b b v ∨
   b < promised sl ∧ Accepted r = false ∧ RejectBallot r = promised sl ∧ slot_of a' s = sl).
Proof.
  unfold Accept. destruct (acceptor_slot a s) as [sl a1] eqn:Hsl.
  apply acceptor_slot_spec in Hsl as [-> Hsame].
  destruct (N.leb_spec (promised (slot_of a s)) b); intros [= <- <-]; simpl.
  - split.
    + intros s' ?. unfold slot_of at 1. rewrite lookup_insert_ne by done. apply Hsame.
    + left. split_and!; [done..|]. unfold slot_of at 1. by rewrite lookup_insert_eq.
  - split; [by intros|]. right. by split_and!.
Qed.

(** ** The collection loops *)
Lemma collect_prepares_max K rs :
  (∀ r, Some r ∈ rs → Round (PromisedBallot r) ≤ K) →
  Round (maxPromised (collect_prepares rs)) ≤ K.
Proof.
  intros Hr. unfold collect_prepares.
  apply (foldl_inv (λ acc, Round (maxPromised acc) ≤ K)); [apply N.le_0_l|].
  intros acc [r|] Hin Hacc; [|done]. unfold prep_step.
  destruct (Promised r); simpl; repeat case_match; simpl; auto.
Qed.

Lemma collect_accepts_max K rs :
  (∀ r, Some r ∈ rs → Round (RejectBallot r) ≤ K) → Round (collect_accepts rs).2 ≤ K.
Proof.
  intros Hr. unfold collect_accepts.
  apply (foldl_inv (λ acc, Round acc.2 ≤ K)); [apply N.le_0_l|].
  intros [a mp] [r|] Hin Hacc; [|done]. unfold acc_step. repeat case_match; simpl in *; auto.
Qed.

Definition is_promise (o : option PrepareReply) : bool :=
  match o with Some r => Promised r | None => false end.
Definition is_accept (o : option AcceptReply) : bool :=
  match o with Some r => Accepted r | None => false end.

(** What phase 1 has adopted: the value of the highest accepted ballot among the
    promises seen. *)
Definition adopt_ok (rs : list (option PrepareReply)) (ad : option bytes) (ab : N) : Prop :=
  match ad with
  | None => ab = 0 ∧ ∀ r, Some r ∈ rs → Promised r = true → AcceptedValue r = None
  | Some v => ∃ r, Some r ∈ rs ∧ Promised r = true ∧ AcceptedValue r = Some v ∧
      AcceptedBallot r = ab ∧
      ∀ r', Some r' ∈ rs → Promised r' = true → is_Some (AcceptedValue r') →
        AcceptedBallot r' ≤ ab
  end.

Lemma adopt_skip rs ad ab o :
  (∀ r, o = Some r → Promised r = true → AcceptedValue r = None ∨ AcceptedBallot r < ab) →
  adopt_ok rs ad ab → adopt_ok (rs ++ [o]) ad ab.
Proof.
  intros Ho. unfold adopt_ok. destruct ad as [v|].
  - intros (r & ? & ? & ? & ? & Hmax). exists r. split_and!; [set_solver|done..|].
    intros r' [?|<-%list_elem_of_singleton]%elem_of_app Hp [w Hw]; [by eauto|].
    destruct (Ho r' eq_refl Hp); [congruence|lia].
  - intros [-> Hnone]. split; [done|].
    intros r' [?|<-%list_elem_of_singleton]%elem_of_app Hp; [by eauto|].
    destruct (Ho r' eq_refl Hp); [done|lia].
Qed.

Lemma adopt_take rs ad ab r v :
  Promised r = true → AcceptedValue r = Some v → ab ≤ AcceptedBallot r →
  adopt_ok rs ad ab → adopt_ok (rs ++ [Some r]) (Some v) (AcceptedBallot r).
Proof.
  intros Hp Hv Hle Hok. exists r. split_and!; [set_solver|done..|].
  intros r' [Hin|[= ->]%list_elem_of_singleton]%elem_of_app Hp' Hs; [|done].
  destruct ad as [w|]; simpl in Hok.
  - destruct Hok as (_ & _ & _ & _ & _ & Hmax). specialize (Hmax r' Hin Hp' Hs). lia.
  - destruct Hok as [_ Hnone]. rewrite (Hnone r' Hin Hp') in Hs. by destruct Hs.
Qed.

(** Phase 1 counts the promises and adopts the value of the highest ballot. *)
Lemma collect_prepares_spec rs :
  let acc := collect_prepares rs in
  promises acc = length (List.filter is_promise rs) ∧
  adopt_ok rs (adopted acc) (adoptedBallot acc).
Proof.
  unfold collect_prepares. induction rs as [|o rs IH] using rev_ind; simpl; [set_solver|].
  rewrite foldl_app, List.filter_app, length_app. simpl.
  set (acc := foldl prep_step _ rs) in *. destruct IH as [Hn Had]. unfold prep_step.
  destruct o as [r|]; simpl; [|split; [lia|by apply adopt_skip]].
  destruct (Promised r) eqn:Hp; simpl.
  - destruct (AcceptedValue r) as [v|] eqn:Hv; simpl.
    + destruct (N.leb_spec (adoptedBallot acc) (AcceptedBallot r)); simpl; (split; [lia|]).
      * by eapply adopt_take.
      * apply adopt_skip; [|done]. intros r' [= <-] _. by right.
    + split; [lia|]. apply adopt_skip; [|done]. intros r' [= <-] _. by left.
  - assert (adopt_ok (rs ++ [Some r]) (adopted acc) (adoptedBallot acc)).
    { apply adopt_skip; [|done]. intros r' [= <-] ?. congruence. }
    case_match; simpl; (split; [lia|done]).
Qed.

Lemma collect_accepts_spec rs :
  (collect_accepts rs).1 = length (List.filter is_accept rs).
Proof.
  unfold collect_accepts. induction rs as [|o rs IH] using rev_ind; simpl; [done|].
  rewrite foldl_app, List.filter_app, length_app. simpl.
  destruct (foldl acc_step _ rs) as [a mp]. simpl in *.
  destruct o as [r|]; simpl; [|lia]. destruct (Accepted r); simpl; [lia|].
  case_match; simpl; lia.
Qed.

(** The replicas whose result passes a test, out of one result per replica. *)
Definition voters {A} (f : A → bool) (got : list (string * A)) : list string :=
  (List.filter (λ x, f x.2) got).*1.

Lemma elem_of_voters {A} (f : A → bool) got p :
  p ∈ voters f got ↔ ∃ x, (p, x) ∈ got ∧ f x = true.
Proof.
  unfold voters. rewrite list_elem_of_fmap. split.
  - intros ([p' x] & -> & [Hin Hf]%list_elem_of_In%filter_In). exists x.
    by rewrite list_elem_of_In.
  - intros (x & Hin & Hf). exists (p, x). split; [done|].
    apply list_elem_of_In, filter_In. by rewrite <-list_elem_of_In.
Qed.

Lemma voters_nodup {A} (f : A → bool) got : NoDup got.*1 → NoDup (voters f got).
Proof.
  unfold voters. induction got as [|[p x] got IH]; simpl; [done|].
  intros [Hp Hnd]%NoDup_cons. destruct (f x); simpl; [|by apply IH].
  apply NoDup_cons. split; [|by apply IH].
  intros (y & Hin & _)%elem_of_voters. apply Hp, list_elem_of_fmap. by exists (p, y).
Qed.

Lemma length_voters {A} (f : A → bool) got :
  length (voters f got) = length (List.filter f got.*2).
Proof.
  unfold voters. rewrite length_fmap. induction got as [|[p x] got IH]; simpl; [done|].
  destruct (f x); simpl; by rewrite IH.
Qed.

Lemma voters_subset {A} (f : A → bool) got rs : got.*1 ⊆ rs → voters f got ⊆ rs.
Proof.
  intros Hsub p (x & Hin & _)%elem_of_voters. apply Hsub, list_elem_of_fmap. by exists (p, x).
Qed.

Lemma catchUpRound_le K r m : r ≤ K → Round m ≤ K → r ≤ catchUpRound r m ≤ K.
Proof. unfold catchUpRound. intros. destruct (N.leb_spec (Round m) r); lia. Qed.

Lemma catchUpRound_ge r m : r ≤ catchUpRound r m.
Proof. unfold catchUpRound. destruct (N.leb_spec (Round m) r); lia. Qed.

Section safety.
Context {C S : Type} (sem : bytes → C) (apply : N → bytes → S → S) (s0 : S).
Context (replicas : list string) (equal : bytes → bytes → bool) (noop : bytes).
Hypothesis replicas_nodup : NoDup replicas.
Hypothesis replicas_small : (length replicas ≤ 256)%nat.

Abbreviation idx := (idx replicas equal noop).
Abbreviation cfg_of := (cfg_of replicas equal noop).
Abbreviation net := (@net S).
Abbreviation step := (step sem apply replicas equal noop).
Implicit Types (st : net).

(** [owned st b]: some replica has used [b] in a round it has reached. *)
Definition owned st (b : N) : Prop :=
  ∃ n r, n ∈ replicas ∧ b = MakeBallot r (idx n) ∧ r ≤ r_round (nodes st n).

Definition run_ok st (n : string) (g : running) : Prop :=
  MPrepare (run_slot g) (run_ballot g) ∈ msgs st ∧
  (∃ r, r ≤ r_round (nodes st n) ∧ run_ballot g = MakeBallot r (idx n)) ∧
  match run_phase g with
  | Phase1 got =>
      (∀ s v, MAccept s (run_ballot g) v ∉ msgs st) ∧ NoDup got.*1 ∧ got.*1 ⊆ replicas ∧
      (∀ p r, (p, Some r) ∈ got → MPromise p (run_slot g) (run_ballot g) r ∈ msgs st)
  | Phase2 proposal got =>
      MAccept (run_slot g) (run_ballot g) proposal ∈ msgs st ∧ NoDup got.*1 ∧ got.*1 ⊆ replicas ∧
      (∀ p r, (p, Some r) ∈ got → MAccepted p (run_slot g) (run_ballot g) r ∈ msgs st)
  end.

(** Rounds stay below the number of steps, so ballots do not wrap. *)
Record inv_rounds (K : N) st : Prop := {
  ir_round : ∀ n, n ∈ replicas → r_round (nodes st n) ≤ K;
  ir_promise : ∀ p s b r, MPromise p s b r ∈ msgs st → Round (PromisedBallot r) ≤ K;
  ir_accepted : ∀ p s b r, MAccepted p s b r ∈ msgs st → Round (RejectBallot r) ≤ K;
  ir_acceptor : ∀ p s, p ∈ replicas → Round (promised (slot_of (r_acc (nodes st p)) s)) ≤ K
}.

Record inv_ballots st : Prop := {
  ib_owned : ∀ s b, MPrepare s b ∈ msgs st → owned st b;
  ib_slot : ∀ s s' b, MPrepare s b ∈ msgs st → MPrepare s' b ∈ msgs st → s = s';
  ib_accept : ∀ s b v, MAccept s b v ∈ msgs st → MPrepare s b ∈ msgs st;
  ib_value : ∀ s b v v', MAccept s b v ∈ msgs st → MAccept s b v' ∈ msgs st → v = v';
  ib_run : ∀ n g, n ∈ replicas → r_run (nodes st n) = Some g → run_ok st n g
}.

(** Splits membership in the extended soup and the node that moved. *)
Ltac soup :=
  repeat match goal with
  | H : _ ∈ _ :: _ |- _ => apply elem_of_cons in H as [H|H]; [simplify_eq|]
  end.
Ltac step_cases H := inv H; repeat match goal with x := _ |- _ => subst x end; simpl in *.
Ltac moved := unfold upd in *; repeat case_decide; simplify_eq/=.

Lemma owned_Round K st b :
  inv_rounds K st → K < two56 → owned st b → Round b ≤ K.
Proof.
  intros Hr HK (n & r & Hn & -> & Hle). pose proof (ir_round K st Hr n Hn).
  rewrite Round_MakeBallot; [lia|lia|by apply idx_lt].
Qed.

Lemma owned_unique K st n n' r r' :
  inv_rounds K st → K < two56 → n ∈ replicas → n' ∈ replicas →
  r ≤ K → r' ≤ K → MakeBallot r (idx n) = MakeBallot r' (idx n') → n = n' ∧ r = r'.
Proof.
  intros Hr HK Hn Hn' ?? Heq.
  apply MakeBallot_inj in Heq as [-> Hi]; [|lia|lia|by apply idx_lt..].
  split; [by eapply idx_inj|done].
Qed.

Lemma round_mono K st st' n :
  inv_rounds K st → K + 1 < two56 → step st st' → n ∈ replicas →
  r_round (nodes st n) ≤ r_round (nodes st' n).
Proof.
  intros Hr HK Hs Hn. pose proof (ir_round K st Hr n Hn).
  step_cases Hs; moved; try lia.
  - rewrite u64_small by (unfold two56 in *; word_lia). lia.
  - apply catchUpRound_ge.
  - apply catchUpRound_ge.
Qed.

Lemma got_promised K st n s b v got :
  inv_rounds K st → inv_ballots st → n ∈ replicas →
  r_run (nodes st n) = Some (MkRunning s b v (Phase1 got)) →
  ∀ r, Some r ∈ got.*2 → Round (PromisedBallot r) ≤ K.
Proof.
  intros Hr Hb Hn Hrun r ([p o] & Heq & Hin)%list_elem_of_fmap. simpl in Heq. subst o.
  destruct (ib_run st Hb n _ Hn Hrun) as (_ & _ & _ & _ & _ & Hgot).
  eapply (ir_promise K st Hr), Hgot, Hin.
Qed.

Lemma got_accepted K st n s b v pr got :
  inv_rounds K st → inv_ballots st → n ∈ replicas →
  r_run (nodes st n) = Some (MkRunning s b v (Phase2 pr got)) →
  ∀ r, Some r ∈ got.*2 → Round (RejectBallot r) ≤ K.
Proof.
  intros Hr Hb Hn Hrun r ([p o] & Heq & Hin)%list_elem_of_fmap. simpl in Heq. subst o.
  destruct (ib_run st Hb n _ Hn Hrun) as (_ & _ & _ & _ & _ & Hgot).
  eapply (ir_accepted K st Hr), Hgot, Hin.
Qed.

Lemma phase1_fail_round K cfg v rs maxP :
  (∀ r, Some r ∈ rs → Round (PromisedBallot r) ≤ K) →
  phase1_end cfg v rs = Err maxP → Round maxP ≤ K.
Proof.
  intros Hr. unfold phase1_end. case_match; [|done]. intros [= <-].
  by apply collect_prepares_max.
Qed.

Lemma phase2_fail_round K cfg rs maxP :
  (∀ r, Some r ∈ rs → Round (RejectBallot r) ≤ K) →
  phase2_end cfg rs = Err maxP → Round maxP ≤ K.
Proof.
  intros Hr. unfold phase2_end. pose proof (collect_accepts_max K rs Hr).
  destruct (collect_accepts rs) as [a mp]. case_match; [|done]. by intros [= <-].
Qed.

Lemma inv_rounds_round K st st' n :
  inv_rounds K st → inv_ballots st → K + 1 < two56 → step st st' → n ∈ replicas →
  r_round (nodes st' n) ≤ K + 1.
Proof.
  intros Hr Hb HK Hs Hn. pose proof (ir_round K st Hr n Hn).
  step_cases Hs; moved; try lia.
  - rewrite u64_small by (unfold two56 in *; word_lia). lia.
  - eapply N.le_trans; [apply catchUpRound_le with (K := K); [done|]|lia].
    eapply phase1_fail_round; [eapply got_promised|]; done.
  - eapply N.le_trans; [apply catchUpRound_le with (K := K); [done|]|lia].
    eapply phase2_fail_round; [eapply got_accepted|]; done.
Qed.

(** What an acceptor can come to promise: its old ballot or the request's. *)
Lemma acceptor_promised st st' p s :
  step st st' → p ∈ replicas →
  let sl := slot_of (r_acc (nodes st p)) s in
  let sl' := slot_of (r_acc (nodes st' p)) s in
  promised sl' = promised sl ∨
  MPrepare s (promised sl') ∈ msgs st ∨ (∃ v, MAccept s (promised sl') v ∈ msgs st).
Proof.
  intros Hs Hp. step_cases Hs; moved; auto.
  - apply Prepare_spec in H1 as (_ & _ & Hne & Hcase).
    destruct (decide (s = s1)) as [->|]; [|rewrite Hne by done; by left].
    destruct Hcase as [(_ & _ & _ & ->)|(_ & _ & _ & ->)]; simpl; auto.
  - apply Accept_spec in H2 as (Hne & Hcase).
    destruct (decide (s = s1)) as [->|]; [|rewrite Hne by done; by left].
    destruct Hcase as [(_ & _ & _ & ->)|(_ & _ & _ & ->)]; simpl; eauto.
Qed.

Lemma request_Round K st s b :
  inv_rounds K st → inv_ballots st → K < two56 →
  MPrepare s b ∈ msgs st ∨ (∃ v, MAccept s b v ∈ msgs st) → Round b ≤ K.
Proof.
  intros Hr Hb HK Hin. eapply owned_Round; [done|done|].
  destruct Hin as [Hin|[v Hin%(ib_accept st Hb)]]; by eapply ib_owned.
Qed.

Lemma inv_rounds_step K st st' :
  inv_rounds K st → inv_ballots st → K + 1 < two56 → step st st' → inv_rounds (K + 1) st'.
Proof.
  intros Hr Hb HK Hs. split.
  - intros n Hn. by eapply inv_rounds_round.
  - intros p s b r Hin.
    assert (MPromise p s b r ∈ msgs st → Round (PromisedBallot r) ≤ K + 1) as Hold.
    { intros ?%(ir_promise K st Hr). lia. }
    step_cases Hs; soup; auto.
    match goal with H : Prepare _ _ _ = _, W : wire_reply _ _ _ |- _ =>
      apply Prepare_spec in H as (_ & _ & _ & Hcase); destruct W as (_ & _ & -> & _) end.
    apply N.le_trans with K; [|lia].
    destruct Hcase as [(_ & _ & -> & _)|(_ & _ & -> & _)];
      [eapply request_Round; eauto; lia|by apply ir_acceptor].
  - intros p s b r Hin.
    assert (MAccepted p s b r ∈ msgs st → Round (RejectBallot r) ≤ K + 1) as Hold.
    { intros ?%(ir_accepted K st Hr). lia. }
    step_cases Hs; soup; auto.
    match goal with H : Accept _ _ _ _ = _ |- _ => apply Accept_spec in H as (_ & Hcase) end.
    apply N.le_trans with K; [|lia].
    destruct Hcase as [(_ & _ & -> & _)|(_ & _ & -> & _)];
      [eapply request_Round; eauto; lia|by apply ir_acceptor].
  - intros p s Hp. apply N.le_trans with K; [|lia].
    destruct (acceptor_promised st st' p s Hs Hp) as [->|Hreq];
      [by apply ir_acceptor|eapply request_Round; eauto; lia].
Qed.

Lemma msgs_mono st st' m : step st st' → m ∈ msgs st → m ∈ msgs st'.
Proof. intros Hs Hin. step_cases Hs; rewrite ?elem_of_cons; auto. Qed.

Lemma owned_mono K st st' b :
  inv_rounds K st → K + 1 < two56 → step st st' → owned st b → owned st' b.
Proof.
  intros Hr HK Hs (n & r & Hn & -> & Hle). exists n, r. split_and!; [done..|].
  pose proof (round_mono K st st' n Hr HK Hs Hn). lia.
Qed.

(** The ballot of a new [runSlot] is in no request. *)
Lemma new_ballot_fresh K st n s :
  inv_rounds K st → inv_ballots st → K + 1 < two56 → n ∈ replicas →
  MPrepare s (MakeBallot (r_round (nodes st n) + 1) (idx n)) ∉ msgs st.
Proof.
  intros Hr Hb HK Hn Hin. apply (ib_owned st Hb) in Hin as (n' & r & Hn' & Heq & Hle).
  pose proof (ir_round K st Hr n Hn). pose proof (ir_round K st Hr n' Hn').
  apply MakeBallot_inj in Heq as [Heq Hi]; [|lia|lia|by apply idx_lt..].
  apply idx_inj in Hi as ->; [lia|done..].
Qed.

Lemma run_ok_mono K st st' n g :
  inv_rounds K st → K + 1 < two56 → step st st' → n ∈ replicas → run_ok st n g →
  (∀ s v, MAccept s (run_ballot g) v ∈ msgs st' → MAccept s (run_ballot g) v ∈ msgs st) →
  run_ok st' n g.
Proof.
  intros Hr HK Hs Hn (H1 & (r & Hle & Hb) & H3) Hnew.
  pose proof (round_mono K st st' n Hr HK Hs Hn).
  split_and!; [by eapply msgs_mono|exists r; split; [lia|done]|].
  destruct (run_phase g).
  - destruct H3 as (Hno & Hnd & Hsub & Hgot). split_and!; [|done|done|].
    + intros s v Hin. by eapply Hno, Hnew.
    + intros. eapply msgs_mono; eauto.
  - destruct H3 as (Hin & Hnd & Hsub & Hgot). split_and!; [by eapply msgs_mono|done|done|].
    intros. eapply msgs_mono; eauto.
Qed.

(** Two replicas never run the same ballot. *)
Lemma run_ballot_differ K st n n' g g' :
  inv_rounds K st → K < two56 → n ∈ replicas → n' ∈ replicas → n ≠ n' →
  run_ok st n g → run_ok st n' g' → run_ballot g ≠ run_ballot g'.
Proof.
  intros Hr HK Hn Hn' Hne (_ & (r & Hle & ->) & _) (_ & (r' & Hle' & ->) & _) Heq.
  pose proof (ir_round K st Hr n Hn). pose proof (ir_round K st Hr n' Hn').
  apply MakeBallot_inj in Heq as [_ Hi]; [|lia|lia|by apply idx_lt..].
  by apply idx_inj in Hi.
Qed.

Lemma inv_ballots_requests K st st' :
  inv_rounds K st → inv_ballots st → K + 1 < two56 → step st st' →
  (∀ s b, MPrepare s b ∈ msgs st' → owned st' b) ∧
  (∀ s s' b, MPrepare s b ∈ msgs st' → MPrepare s' b ∈ msgs st' → s = s') ∧
  (∀ s b v, MAccept s b v ∈ msgs st' → MPrepare s b ∈ msgs st') ∧
  (∀ s b v v', MAccept s b v ∈ msgs st' → MAccept s b v' ∈ msgs st' → v = v').
Proof.
  intros Hr Hb HK Hs. pose proof Hs as Hs'.
  pose proof (λ b, owned_mono K st st' b Hr HK Hs') as Hown.
  pose proof (λ m, msgs_mono st st' m Hs') as Hmono.
  split_and!.
  - intros s b Hin.
    assert (MPrepare s b ∈ msgs st → owned st' b) as Hold by eauto using ib_owned.
    step_cases Hs; soup; auto.
    exists n, (u64 (r_round (nodes st n) + 1)). split_and!; [done..|].
    simpl. unfold upd. by rewrite decide_True.
  - intros s s' b H1 H2. pose proof (ib_slot st Hb s s' b) as Hold.
    step_cases Hs; soup; auto; exfalso;
      pose proof (ir_round K st Hr n H) as Hrn;
      rewrite u64_small in * by (unfold two56 in *; word_lia);
      by eapply (new_ballot_fresh K st n).
  - intros s b v Hin.
    assert (MAccept s b v ∈ msgs st → MPrepare s b ∈ msgs st') as Hold by eauto using ib_accept.
    step_cases Hs; soup; auto.
    apply Hmono. by edestruct (ib_run st Hb n) as [? _].
  - intros s b v v' H1 H2. pose proof (ib_value st Hb s b v v') as Hold.
    step_cases Hs; soup; auto; exfalso;
      match goal with Hn : ?n ∈ replicas, Hg : r_run (nodes _ ?n) = Some ?g |- _ =>
        destruct (ib_run st Hb n g Hn Hg) as (_ & _ & Hno & _) end;
      by eapply Hno.
Qed.

Lemma inv_ballots_run K st st' n g :
  inv_rounds K st → inv_ballots st → K + 1 < two56 → step st st' →
  n ∈ replicas → r_run (nodes st' n) = Some g → run_ok st' n g.
Proof.
  intros Hr Hb HK Hs Hn Hrun. pose proof Hs as Hs'.
  pose proof (λ g' Hg, run_ok_mono K st st' n g' Hr HK Hs' Hn (ib_run st Hb n g' Hn Hg)) as Hold.
  pose proof (λ m, msgs_mono st st' m Hs') as Hmono.
  step_cases Hs; unfold upd in Hrun; case_decide; simplify_eq/=;
    try (apply Hold; [done|]; intros; soup; done).
  - (* start *) split_and!; simpl.
    + by left.
    + exists (u64 (r_round (nodes st n0) + 1)). split; [|done].
      unfold upd. by rewrite decide_True.
    + split_and!; [|constructor|set_solver|set_solver].
      intros s v Hin. soup. apply (ib_accept st Hb) in Hin.
      pose proof (ir_round K st Hr n0 Hn). rewrite u64_small in Hin by (unfold two56 in *; word_lia).
      by eapply (new_ballot_fresh K st n0).
  - (* promise collected *)
    destruct (Hold _ H0) as (H5 & H6 & H7 & H8 & H9 & H10); [by intros; soup|].
    split_and!; [done|done|]; simpl in *. split_and!; [done|..].
    + rewrite fmap_app. apply NoDup_app. split_and!; [done|set_solver|apply NoDup_singleton].
    + rewrite fmap_app. set_solver.
    + intros p' r' [Hin|Hin]%elem_of_app; [by apply H10|].
      apply list_elem_of_singleton in Hin. simplify_eq. by apply H3.
  - (* phase 1 ok, the proposer itself *)
    destruct (ib_run st Hb n0 _ Hn H0) as (H5 & H6 & _). split_and!; simpl in *.
    + by right.
    + destruct H6 as (r & Hle & ->). exists r. split; [|done]. unfold upd. by rewrite decide_True.
    + split_and!; [by left|constructor|set_solver|set_solver].
  - (* phase 1 ok, another replica *)
    apply Hold; [done|]. intros s' v' Hin. soup; [|done]. exfalso.
    eapply (run_ballot_differ K st n n0 g); [done|lia|done|done|done| | |].
    + by apply ib_run.
    + by apply ib_run.
    + done.
  - (* accept collected *)
    destruct (Hold _ H0) as (H5 & H6 & H7 & H8 & H9 & H10); [by intros; soup|].
    split_and!; [done|done|]; simpl in *. split_and!; [done|..].
    + rewrite fmap_app. apply NoDup_app. split_and!; [done|set_solver|apply NoDup_singleton].
    + rewrite fmap_app. set_solver.
    + intros p' r' [Hin|Hin]%elem_of_app; [by apply H10|].
      apply list_elem_of_singleton in Hin. simplify_eq. by apply H3.
Qed.

Lemma inv_ballots_step K st st' :
  inv_rounds K st → inv_ballots st → K + 1 < two56 → step st st' → inv_ballots st'.
Proof.
  intros Hr Hb HK Hs. destruct (inv_ballots_requests K st st') as (H1 & H2 & H3 & H4); [done..|].
  split; [done..|]. intros n g. by eapply inv_ballots_run.
Qed.

(** ** Acceptors and their replies *)
Abbreviation acc st p s := (slot_of (r_acc (nodes st p)) s).

Record inv_acceptors st : Prop := {
  ia_vote : ∀ p s b r, MAccepted p s b r ∈ msgs st → Accepted r = true →
    b ≤ acceptedBallot (acc st p s) ∧ is_Some (acceptedValue (acc st p s)) ∧
    ∃ v, MAccept s b v ∈ msgs st;
  ia_promise : ∀ p s b r, MPromise p s b r ∈ msgs st → Promised r = true →
    b ≤ promised (acc st p s);
  ia_order : ∀ p s, acceptedBallot (acc st p s) ≤ promised (acc st p s);
  ia_value : ∀ p s v, acceptedValue (acc st p s) = Some v →
    ∃ v0, MAccept s (acceptedBallot (acc st p s)) v0 ∈ msgs st ∧ sem v = sem v0;
  ia_history : ∀ p s b r b' r', MPromise p s b r ∈ msgs st → Promised r = true →
    MAccepted p s b' r' ∈ msgs st → Accepted r' = true → b' < b →
    is_Some (AcceptedValue r) ∧ b' ≤ AcceptedBallot r;
  ia_adopt : ∀ p s b r v, MPromise p s b r ∈ msgs st → Promised r = true →
    AcceptedValue r = Some v →
    AcceptedBallot r < b ∧ ∃ v0, MAccept s (AcceptedBallot r) v0 ∈ msgs st ∧ sem v = sem v0
}.

(** How one slot of one acceptor can change. *)
Lemma acceptor_move st st' p s :
  step st st' →
  acc st' p s = acc st p s ∨
  (∃ b, promised (acc st p s) < b ∧
     acc st' p s = AcceptorSlot b (acceptedBallot (acc st p s)) (acceptedValue (acc st p s))) ∨
  (∃ b v v', promised (acc st p s) ≤ b ∧ MAccept s b v ∈ msgs st ∧ sem v' = sem v ∧
     acc st' p s = AcceptorSlot b b (Some v')).
Proof.
  intros Hs. step_cases Hs; moved; auto.
  - apply Prepare_spec in H1 as (_ & _ & Hne & Hcase).
    destruct (decide (s = s1)) as [->|]; [|rewrite Hne by done; by left].
    destruct Hcase as [(? & _ & _ & ->)|(_ & _ & _ & ->)]; eauto.
  - apply Accept_spec in H2 as (Hne & Hcase).
    destruct (decide (s = s1)) as [->|]; [|rewrite Hne by done; by left].
    destruct Hcase as [(? & _ & _ & ->)|(_ & _ & _ & ->)]; eauto 10.
Qed.

(** Acceptor state only moves up. *)
Lemma acceptor_mono st st' p s :
  inv_acceptors st → step st st' →
  promised (acc st p s) ≤ promised (acc st' p s) ∧
  acceptedBallot (acc st p s) ≤ acceptedBallot (acc st' p s) ∧
  (is_Some (acceptedValue (acc st p s)) → is_Some (acceptedValue (acc st' p s))).
Proof.
  intros Ha Hs. pose proof (ia_order st Ha p s).
  destruct (acceptor_move st st' p s Hs) as [->|[(b & ? & ->)|(b & v & v' & ? & _ & _ & ->)]];
    simpl; split_and!; eauto; lia.
Qed.

Lemma new_promise st st' p s b r :
  step st st' → MPromise p s b r ∈ msgs st' →
  MPromise p s b r ∈ msgs st ∨
  (∀ p' s' b' r', MAccepted p' s' b' r' ∈ msgs st' → MAccepted p' s' b' r' ∈ msgs st) ∧
  (Promised r = true →
     promised (acc st p s) < b ∧ promised (acc st' p s) = b ∧
     AcceptedBallot r = acceptedBallot (acc st p s) ∧
     sem <$> AcceptedValue r = sem <$> acceptedValue (acc st p s)).
Proof.
  intros Hs Hin. step_cases Hs; soup; auto. right. split.
  { intros. by soup. }
  intros Hp. destruct H2 as (W1 & -> & _ & ->). rewrite W1 in Hp.
  apply Prepare_spec in H1 as (-> & -> & _ & Hcase). unfold upd. rewrite decide_True by done.
  destruct Hcase as [(? & _ & _ & Hsl)|(_ & ? & _)]; [|congruence].
  simpl. rewrite Hsl. by split_and!.
Qed.

Lemma new_accepted st st' p s b r :
  step st st' → MAccepted p s b r ∈ msgs st' →
  MAccepted p s b r ∈ msgs st ∨
  (∀ p' s' b' r', MPromise p' s' b' r' ∈ msgs st' → MPromise p' s' b' r' ∈ msgs st) ∧
  (Accepted r = true →
     promised (acc st p s) ≤ b ∧ acceptedBallot (acc st' p s) = b ∧
     is_Some (acceptedValue (acc st' p s)) ∧ ∃ v, MAccept s b v ∈ msgs st).
Proof.
  intros Hs Hin. step_cases Hs; soup; auto. right. split.
  { intros. by soup. }
  intros Hp. apply Accept_spec in H2 as (_ & Hcase). unfold upd. rewrite decide_True by done.
  destruct Hcase as [(? & _ & _ & Hsl)|(_ & ? & _)]; [|congruence].
  simpl. rewrite Hsl. simpl. split_and!; eauto.
Qed.

Lemma inv_acceptors_step st st' : inv_acceptors st → step st st' → inv_acceptors st'.
Proof.
  intros Ha Hs. pose proof (λ m, msgs_mono st st' m Hs) as Hmono.
  pose proof (λ p s, acceptor_mono st st' p s Ha Hs) as Hup. split.
  - intros p s b r Hin Hr. destruct (Hup p s) as (_ & Hab & Hav).
    apply (new_accepted st st') in Hin as [Hin|[_ Hnew]]; [| |done].
    + destruct (ia_vote st Ha p s b r Hin Hr) as (? & ? & v & ?).
      split_and!; [lia|auto|eauto].
    + destruct (Hnew Hr) as (_ & -> & ? & v & ?). split_and!; [lia|done|eauto].
  - intros p s b r Hin Hr. destruct (Hup p s) as (Hp & _).
    apply (new_promise st st') in Hin as [Hin|[_ Hnew]]; [| |done].
    + pose proof (ia_promise st Ha p s b r Hin Hr). lia.
    + destruct (Hnew Hr) as (_ & -> & _). lia.
  - intros p s. pose proof (ia_order st Ha p s).
    destruct (acceptor_move st st' p s Hs) as [->|[(b & ? & ->)|(b & v & v' & ? & _ & _ & ->)]];
      simpl; lia.
  - intros p s v Hv.
    destruct (acceptor_move st st' p s Hs) as [Heq|[(b & ? & Heq)|(b & v1 & v2 & ? & Hin & ? & Heq)]];
      rewrite Heq in Hv |- *; simpl in *;
      [destruct (ia_value st Ha p s v Hv) as (v0 & ? & ?); eauto..|simplify_eq; eauto].
  - intros p s b r b' r' Hin Hr Hin' Hr' Hlt.
    apply (new_promise st st') in Hin as [Hin|[Hno Hnew]]; [| |done].
    + apply (new_accepted st st') in Hin' as [Hin'|[_ Hnew']]; [by eapply ia_history| |done].
      destruct (Hnew' Hr') as (Hle & _). pose proof (ia_promise st Ha p s b r Hin Hr). lia.
    + apply Hno in Hin'. destruct (ia_vote st Ha p s b' r' Hin' Hr') as (? & Hs' & _).
      destruct (Hnew Hr) as (_ & _ & -> & Hv). split; [|done].
      destruct Hs' as [w Hw]. rewrite Hw in Hv. destruct (AcceptedValue r); [eauto|done].
  - intros p s b r v Hin Hr Hv.
    apply (new_promise st st') in Hin as [Hin|[Hno Hnew]]; [| |done].
    + destruct (ia_adopt st Ha p s b r v Hin Hr Hv) as (? & v0 & ? & ?). eauto.
    + destruct (Hnew Hr) as (Hlt & _ & -> & Hs'). pose proof (ia_order st Ha p s).
      split; [lia|]. rewrite Hv in Hs'. destruct (acceptedValue (acc st p s)) as [w|] eqn:Hw; [|done].
      destruct (ia_value st Ha p s w Hw) as (v0 & ? & ?). exists v0. split; [auto|].
      simpl in Hs'. congruence.
Qed.

(** ** Evidence behind proposals and learned values *)
Abbreviation maj := (length replicas / 2 + 1)%nat.

Definition quorum (Q : list string) : Prop :=
  NoDup Q ∧ Q ⊆ replicas ∧ (maj ≤ length Q)%nat.

Definition evidence st (s b : N) (v : bytes) : Prop :=
  ∃ Q, quorum Q ∧
    ((∀ p, p ∈ Q → ∃ r, MPromise p s b r ∈ msgs st ∧ Promised r = true ∧ AcceptedValue r = None) ∨
     (∃ p0 r0, MPromise p0 s b r0 ∈ msgs st ∧ Promised r0 = true ∧ AcceptedValue r0 = Some v ∧
        ∀ p, p ∈ Q → ∃ r, MPromise p s b r ∈ msgs st ∧ Promised r = true ∧
          (is_Some (AcceptedValue r) → AcceptedBallot r ≤ AcceptedBallot r0))).

Definition chosen_at st (s b : N) : Prop :=
  ∃ Q, quorum Q ∧ ∀ p, p ∈ Q → ∃ r, MAccepted p s b r ∈ msgs st ∧ Accepted r = true.

Definition decided st (s : N) (v : bytes) : Prop :=
  ∃ b v0, MAccept s b v0 ∈ msgs st ∧ sem v = sem v0 ∧ chosen_at st s b.

Record inv_chosen st : Prop := {
  ic_evidence : ∀ s b v, MAccept s b v ∈ msgs st → evidence st s b v;
  ic_learn : ∀ s v, MLearn s v ∈ msgs st → decided st s v;
  ic_log : ∀ n s v, chosen (r_log (nodes st n)) !! s = Some v → decided st s v
}.

Lemma evidence_mono st st' s b v : step st st' → evidence st s b v → evidence st' s b v.
Proof.
  intros Hs (Q & HQ & Hev). pose proof (λ m, msgs_mono st st' m Hs) as Hmono.
  exists Q. split; [done|]. destruct Hev as [Hev|(p0 & r0 & ? & ? & ? & Hev)]; [left|right].
  - intros p (r & ? & ? & ?)%Hev. eauto.
  - exists p0, r0. split_and!; [by auto..|]. intros p (r & ? & ? & ?)%Hev. eauto.
Qed.

Lemma decided_mono st st' s v : step st st' → decided st s v → decided st' s v.
Proof.
  intros Hs (b & v0 & ? & ? & Q & HQ & Hacc). pose proof (λ m, msgs_mono st st' m Hs) as Hmono.
  exists b, v0. split_and!; [by auto..|]. exists Q. split; [done|].
  intros p (r & ? & ?)%Hacc. eauto.
Qed.

(** The end of phase 1 produces the evidence. *)
Lemma phase1_evidence st n s b v got proposal :
  run_ok st n (MkRunning s b v (Phase1 got)) →
  phase1_end (cfg_of n) v got.*2 = Ok proposal → evidence st s b proposal.
Proof.
  intros (_ & _ & _ & Hnd & Hsub & Hgot). simpl in *. unfold phase1_end.
  pose proof (collect_prepares_spec got.*2) as [Hn Had].
  case_match eqn:Hlt; [done|]. apply Nat.ltb_ge in Hlt. intros [= <-].
  exists (voters is_promise got). split.
  { split_and!; [by apply voters_nodup|by apply voters_subset|].
    rewrite length_voters, <-Hn. done. }
  assert (∀ p r, (p, Some r) ∈ got → Some r ∈ got.*2) as H2.
  { intros p r ?. apply list_elem_of_fmap. by exists (p, Some r). }
  destruct (adopted _) as [w|] eqn:Hw; simpl in Had; [right|left].
  - destruct Had as (r0 & ([p0 o] & Heq & Hin)%list_elem_of_fmap & ? & ? & Hb & Hmax).
    simpl in Heq. subst o. exists p0, r0. split_and!; [by apply Hgot|done|done|].
    intros p ([r|] & Hin' & Hp)%elem_of_voters; [|done]. exists r.
    split_and!; [by apply Hgot|done|]. intros Hs. rewrite Hb. eauto.
  - destruct Had as [_ Hnone].
    intros p ([r|] & Hin' & Hp)%elem_of_voters; [|done]. exists r.
    split_and!; [by apply Hgot|done|]. eauto.
Qed.

(** The end of phase 2 means a majority accepted. *)
Lemma phase2_decided st n s b v proposal got :
  run_ok st n (MkRunning s b v (Phase2 proposal got)) →
  phase2_end (cfg_of n) got.*2 = Ok tt → decided st s proposal.
Proof.
  intros (_ & _ & Hacc & Hnd & Hsub & Hgot). simpl in *. unfold phase2_end.
  pose proof (collect_accepts_spec got.*2) as Hn.
  destruct (collect_accepts got.*2) as [a mp]. simpl in Hn.
  case_match eqn:Hlt; [done|]. apply Nat.ltb_ge in Hlt. intros _.
  exists b, proposal. split_and!; [done..|]. exists (voters is_accept got). split.
  { split_and!; [by apply voters_nodup|by apply voters_subset|].
    rewrite length_voters, <-Hn. done. }
  intros p ([r|] & Hin' & Hp)%elem_of_voters; [|done]. eauto.
Qed.

Lemma chosen_Commit s v (l : Log S) s' v' :
  chosen (Commit apply s v l) !! s' = Some v' →
  chosen l !! s' = Some v' ∨ (s' = s ∧ v' = v).
Proof.
  unfold Commit. destruct (chosen l !! s) eqn:Hs; [by left|].
  rewrite chosen_apply_loop. simpl. intros [[-> ->]|[_ ?]]%lookup_insert_Some; auto.
Qed.

Lemma inv_chosen_step st st' :
  inv_ballots st → inv_chosen st → step st st' → inv_chosen st'.
Proof.
  intros Hb Hc Hs. pose proof Hs as Hs'.
  pose proof (λ s v, decided_mono st st' s v Hs') as Hdec. split.
  - intros s b v Hin.
    assert (MAccept s b v ∈ msgs st → evidence st' s b v) as Hold.
    { intros ?. eapply evidence_mono; [done|]. by apply ic_evidence. }
    step_cases Hs; soup; auto.
    eapply evidence_mono; [done|]. by eapply phase1_evidence; [apply ib_run|].
  - intros s v Hin.
    assert (MLearn s v ∈ msgs st → decided st' s v) as Hold by eauto using ic_learn.
    step_cases Hs; soup; auto.
    apply Hdec. by eapply phase2_decided; [apply ib_run|].
  - intros n s v Hin.
    assert (∀ n, chosen (r_log (nodes st n)) !! s = Some v → decided st' s v) as Hold
      by eauto using ic_log.
    step_cases Hs; unfold upd in Hin; case_decide; simpl in *; eauto.
    + apply chosen_Commit in Hin as [Hin|[-> ->]]; [eauto|].
      apply Hdec. by eapply phase2_decided; [apply ib_run|].
    + apply chosen_Commit in Hin as [Hin|[-> ->]]; [eauto|].
      destruct (ic_learn st Hc s1 v0) as (b & w & ? & ? & ?); [done|].
      apply Hdec. exists b, w. split_and!; [done|congruence|done].
Qed.

(** Once a ballot has a majority of votes, every later proposal has its value:
    induction on the later ballot through the adopted one. *)
Lemma proposals_agree st s b' v' :
  inv_ballots st → inv_acceptors st → inv_chosen st →
  MAccept s b' v' ∈ msgs st → chosen_at st s b' →
  ∀ b v, MAccept s b v ∈ msgs st → b' ≤ b → sem v = sem v'.
Proof.
  intros Hb Ha Hc Hv' (Q' & (Hnd' & Hsub' & Hmaj') & Hvote).
  intros b. induction b as [b IH] using (well_founded_induction N.lt_wf_0).
  intros v Hv Hle. destruct (decide (b = b')) as [->|Hne]; [by rewrite (ib_value st Hb s b' v v')|].
  destruct (ic_evidence st Hc s b v Hv) as (Q & (Hnd & Hsub & Hmaj) & Hev).
  destruct (majorities_meet replicas equal noop "" Q Q') as (p & Hp & Hp'); [done..|].
  destruct (Hvote p Hp') as (r' & Hacc & Hr').
  destruct Hev as [Hnone|(p0 & r0 & Hin0 & Hp0 & Hv0 & Hmax)].
  - destruct (Hnone p Hp) as (r & Hin & Hpr & Hn).
    destruct (ia_history st Ha p s b r b' r') as [[w Hw] _]; [done..|lia|congruence].
  - destruct (Hmax p Hp) as (r & Hin & Hpr & Hm).
    destruct (ia_history st Ha p s b r b' r') as [Hsome Hge]; [done..|lia|].
    specialize (Hm Hsome).
    destruct (ia_adopt st Ha p0 s b r0 v) as (Hlt & v1 & Hin1 & ->); [done..|].
    apply (IH (AcceptedBallot r0)); [done|done|lia].
Qed.

Lemma decided_agree st s v1 v2 :
  inv_ballots st → inv_acceptors st → inv_chosen st →
  decided st s v1 → decided st s v2 → sem v1 = sem v2.
Proof.
  intros Hb Ha Hc (b1 & w1 & H1 & -> & C1) (b2 & w2 & H2 & -> & C2).
  destruct (N.le_ge_cases b1 b2).
  - symmetry. by eapply (proposals_agree st s b1 w1).
  - by eapply (proposals_agree st s b2 w2).
Qed.

(** ** Reachable states *)
Abbreviation reach := (reach sem apply s0 replicas equal noop).

Record inv_all (K : N) st : Prop := {
  all_rounds : inv_rounds K st;
  all_ballots : inv_ballots st;
  all_acceptors : inv_acceptors st;
  all_chosen : inv_chosen st
}.

Lemma inv_all_init : inv_all 0 (init s0).
Proof. split; split; simpl; set_solver. Qed.

Lemma inv_all_reach k st : reach k st → N.of_nat k < two56 → inv_all (N.of_nat k) st.
Proof.
  induction 1 as [|k st st' Hreach IH Hs]; intros Hk; [apply inv_all_init|].
  destruct IH as [Hr Hb Ha Hc]; [lia|].
  replace (N.of_nat (Datatypes.S k)) with (N.of_nat k + 1) in * by lia.
  split; [by eapply inv_rounds_step|by eapply inv_ballots_step|by eapply inv_acceptors_step|
          by eapply inv_chosen_step].
Qed.

(** Logs stay well formed and slots stay below the number of steps. *)
Record inv_logs (K : nat) st : Prop := {
  il_log : ∀ n, log_inv apply s0 (r_log (nodes st n)) ∧ (size (chosen (r_log (nodes st n))) ≤ K)%nat;
  il_prepare : ∀ s b, MPrepare s b ∈ msgs st → s ≤ N.of_nat K;
  il_learn : ∀ s v, MLearn s v ∈ msgs st → s ≤ N.of_nat K
}.

Lemma Commit_log K s v (l : Log S) :
  log_inv apply s0 l → (size (chosen l) ≤ K)%nat → s ≤ N.of_nat K → N.of_nat K < two56 →
  log_inv apply s0 (Commit apply s v l) ∧ (size (chosen (Commit apply s v l)) ≤ Datatypes.S K)%nat.
Proof.
  intros Hl Hsz Hs HK. unfold two56 in HK.
  destruct (Commit_spec apply s0 l s v Hl) as (Hinv & -> & _); [unfold two64; lia|].
  split; [done|]. destruct (chosen l !! s) eqn:E; [lia|]. rewrite map_size_insert_None by done. lia.
Qed.

Lemma inv_logs_step K st st' :
  inv_ballots st → inv_logs K st → N.of_nat K < two56 → step st st' → inv_logs (Datatypes.S K) st'.
Proof.
  intros Hb Hl HK Hs. split.
  - intros n.
    assert (∀ n, log_inv apply s0 (r_log (nodes st n)) ∧
      (size (chosen (r_log (nodes st n))) ≤ Datatypes.S K)%nat) as Hold.
    { intros m. destruct (il_log K st Hl m). split; [done|lia]. }
    step_cases Hs; unfold upd; case_decide; subst; simpl; auto.
    + destruct (il_log K st Hl n0). apply Commit_log; [done|done| |done].
      destruct (ib_run st Hb n0 _ H H0) as (Hp & _). by eapply il_prepare.
    + destruct (il_log K st Hl p). apply Commit_log; [done|done| |done]. by eapply il_learn.
  - intros s b Hin.
    assert (MPrepare s b ∈ msgs st → s ≤ N.of_nat (Datatypes.S K)) as Hold.
    { intros ?%(il_prepare K st Hl). lia. }
    step_cases Hs; soup; auto.
    destruct (il_log K st Hl n) as [Hinv Hsz].
    rewrite (FirstUnchosen_applied apply s0) by done.
    pose proof (applied_le_size apply s0 _ Hinv). lia.
  - intros s v Hin.
    assert (MLearn s v ∈ msgs st → s ≤ N.of_nat (Datatypes.S K)) as Hold.
    { intros ?%(il_learn K st Hl). lia. }
    step_cases Hs; soup; auto.
    destruct (ib_run st Hb n _ H H0) as (Hp & _). apply (il_prepare K st Hl) in Hp. simpl in Hp. lia.
Qed.

Lemma inv_logs_reach k st : reach k st → N.of_nat k < two56 → inv_logs k st.
Proof.
  induction 1 as [|k st st' Hreach IH Hs]; intros Hk.
  - split; simpl; [|set_solver..]. intros _. split; [apply NewLog_inv|by rewrite map_size_empty].
  - eapply inv_logs_step; [|apply IH; lia|lia|done].
    apply (all_ballots (N.of_nat k)), inv_all_reach; [done|lia].
Qed.

Lemma reach_agree k st n1 n2 s v1 v2 :
  reach k st → N.of_nat k < two56 →
  chosen (r_log (nodes st n1)) !! s = Some v1 →
  chosen (r_log (nodes st n2)) !! s = Some v2 → sem v1 = sem v2.
Proof.
  intros Hreach Hk H1 H2. destruct (inv_all_reach k st Hreach Hk) as [_ Hb Ha Hc].
  eapply decided_agree; [done..|by eapply ic_log|by eapply ic_log].
Qed.

Abbreviation steps := (steps sem apply replicas equal noop).

Lemma reach_steps k st j st' : reach k st → steps st j st' → reach (j + k) st'.
Proof. intros Hr. induction 1; [done|]. by eapply reach_step. Qed.

(** A replica's chosen values are never lost or replaced. *)
Lemma chosen_step st st' n :
  step st st' → chosen (r_log (nodes st n)) ⊆ chosen (r_log (nodes st' n)).
Proof.
  intros Hs. destruct Hs; simpl; unfold upd;
    (destruct (decide (n = n0)) as [->|] || destruct (decide (n = p)) as [->|]); simpl;
    try done; apply Commit_keeps.
Qed.

Lemma chosen_steps st j st' n :
  steps st j st' → chosen (r_log (nodes st n)) ⊆ chosen (r_log (nodes st' n)).
Proof. induction 1; [done|]. etrans; [done|]. by apply chosen_step. Qed.

(** A state of a replica, seen from a later point of the execution. *)
Lemma replica_replay k st j st' n :
  reach k st → steps st j st' → N.of_nat (j + k) < two56 →
  let l := r_log (nodes st n) in
  app l = replay apply s0 (chosen (r_log (nodes st' n))) (N.to_nat (applied l)) ∧
  applied l ≤ N.of_nat k ∧
  ∀ s, s < applied l → is_Some (chosen (r_log (nodes st' n)) !! s).
Proof.
  intros Hr Hst Hk l. destruct (il_log k st (inv_logs_reach k st Hr ltac:(lia)) n) as [Hinv Hsz].
  pose proof (applied_le_size apply s0 _ Hinv). destruct Hinv as [[_ P _ _ A] _].
  pose proof (chosen_steps _ _ _ n Hst) as Hsub.
  assert (∀ s, s < applied l → chosen (r_log (nodes st' n)) !! s = chosen l !! s) as Heq.
  { intros s Hs. destruct (P s Hs) as [v Hv]. fold l in Hv, Hsub. rewrite Hv.
    by eapply lookup_weaken. }
  split_and!; [|unfold l; lia|].
  - unfold l in *. rewrite A. apply replay_ext. intros s Hs. symmetry. apply Heq. lia.
  - intros s Hs. rewrite Heq by done. by apply P.
Qed.

(** Two observations of replica states on the way to [st']: both are replays of
    prefixes of one log. *)
Lemma replicas_comparable k1 st1 j1 k2 st2 j2 st' n1 n2 :
  (∀ i v v' x, sem v = sem v' → apply i v x = apply i v' x) →
  reach k1 st1 → steps st1 j1 st' → N.of_nat (j1 + k1) < two56 →
  reach k2 st2 → steps st2 j2 st' → N.of_nat (j2 + k2) < two56 →
  let l1 := r_log (nodes st1 n1) in let l2 := r_log (nodes st2 n2) in
  ∃ ch, app l1 = replay apply s0 ch (N.to_nat (applied l1)) ∧
        app l2 = replay apply s0 ch (N.to_nat (applied l2)) ∧
        applied l1 < two56 ∧ applied l2 < two56.
Proof.
  intros Hap Hr1 Hst1 Hk1 Hr2 Hst2 Hk2 l1 l2. pose proof (reach_steps _ _ _ _ Hr1 Hst1) as Hr'.
  destruct (replica_replay k1 st1 j1 st' n1 Hr1 Hst1 Hk1) as (A1 & B1 & P1).
  destruct (replica_replay k2 st2 j2 st' n2 Hr2 Hst2 Hk2) as (A2 & B2 & P2).
  fold l1 in A1, B1, P1. fold l2 in A2, B2, P2. set (ch1 := chosen (r_log (nodes st' n1))) in *.
  set (ch2 := chosen (r_log (nodes st' n2))) in *.
  assert (∀ s, s < applied l1 → s < applied l2 → sem <$> ch1 !! s = sem <$> ch2 !! s) as Hag.
  { intros s H1 H2. destruct (P1 s H1) as [v1 Hv1], (P2 s H2) as [v2 Hv2].
    rewrite Hv1, Hv2. simpl. f_equal. by eapply reach_agree. }
  destruct (N.le_ge_cases (applied l1) (applied l2)) as [Hle|Hle].
  - exists ch2. split_and!; [|done|lia|lia]. rewrite A1.
    apply replay_sem with (sem := sem); [done|]. intros s Hs. apply Hag; lia.
  - exists ch1. split_and!; [done| |lia|lia]. rewrite A2.
    apply replay_sem with (sem := sem); [done|]. intros s Hs. symmetry. apply Hag; lia.
Qed.

(** The shorter replica's state is a replay of the longer one's log. *)
Lemma replicas_prefix k st n1 n2 :
  (∀ i v v' x, sem v = sem v' → apply i v x = apply i v' x) →
  reach k st → N.of_nat k < two56 →
  applied (r_log (nodes st n1)) ≤ applied (r_log (nodes st n2)) →
  app (r_log (nodes st n1)) =
    replay apply s0 (chosen (r_log (nodes st n2))) (N.to_nat (applied (r_log (nodes st n1)))) ∧
  app (r_log (nodes st n2)) =
    replay apply s0 (chosen (r_log (nodes st n2))) (N.to_nat (applied (r_log (nodes st n2)))).
Proof.
  intros Hap Hreach Hk Hle. pose proof (inv_logs_reach k st Hreach Hk) as Hl.
  destruct (il_log k st Hl n1) as [[[_ P1 _ _ A1] _] _].
  destruct (il_log k st Hl n2) as [[[_ P2 _ _ A2] _] _].
  split; [|done]. rewrite A1. apply replay_sem with (sem := sem); [done|].
  intros s Hs. destruct (P1 s) as [v1 Hv1]; [lia|]. destruct (P2 s) as [v2 Hv2]; [lia|].
  rewrite Hv1, Hv2. simpl. f_equal. by eapply reach_agree.
Qed.

(** ** Properties *)

(** Learned: in some replica's log or announced by a Learn message. *)
Definition learned st (s : N) (v : bytes) : Prop :=
  MLearn s v ∈ msgs st ∨ ∃ n, chosen (r_log (nodes st n)) !! s = Some v.

(** C1. Agreement.  In every execution of fewer than 2^56 steps, over a network that
    loses, delays, duplicates and reorders messages and re-encodes values, the
    values that replicas learn or announce for one slot all mean the same command. *)
Theorem paxos_agreement k st s v1 v2 :
  reach k st → N.of_nat k < two56 → learned st s v1 → learned st s v2 → sem v1 = sem v2.
Proof.
  intros Hreach Hk H1 H2. destruct (inv_all_reach k st Hreach Hk) as [_ Hb Ha Hc].
  assert (∀ v, learned st s v → decided st s v) as Hd.
  { intros v [?|[n ?]]; [by eapply ic_learn|by eapply ic_log]. }
  eapply decided_agree; eauto.
Qed.

(** C2. State machine replication.  When the callback depends only on the meaning
    of a command, the replica that has applied more has the other's state as an
    intermediate one: its state is reached from it by the remaining slots. *)
Theorem replicas_apply_same_prefix k st n1 n2 :
  (∀ i v v' x, sem v = sem v' → apply i v x = apply i v' x) →
  reach k st → N.of_nat k < two56 →
  applied (r_log (nodes st n1)) ≤ applied (r_log (nodes st n2)) →
  app (r_log (nodes st n1)) =
    replay apply s0 (chosen (r_log (nodes st n2))) (N.to_nat (applied (r_log (nodes st n1)))) ∧
  app (r_log (nodes st n2)) =
    replay apply s0 (chosen (r_log (nodes st n2))) (N.to_nat (applied (r_log (nodes st n2)))).
Proof.
  intros Hap Hreach Hk Hle.
  destruct (replicas_prefix k st n1 n2 Hap Hreach Hk Hle) as [H1 H2]. by split.
Qed.
End safety.

(** ** A concrete run: two replicas choose a command in slot 0 and both learn it *)
Definition demo_replicas : list string := ["r1"; "r2"].

(** One step of the run: the rule, then its side conditions by evaluation. *)
Ltac demo_in :=
  solve [vm_compute; repeat first [apply list_elem_of_here | apply list_elem_of_further]].
Ltac demo_side :=
  first [ (vm_compute; reflexivity) | demo_in | (intros ? [= <-]; demo_in)
        | (split_and!; vm_compute; reflexivity) | set_solver ].

Section demo.
Context {C S : Type} (sem : bytes → C) (apply : N → bytes → S → S) (s0 : S).
Context (equal : bytes → bytes → bool) (noop v : bytes).
Abbreviation demo_reach := (reach sem apply s0 demo_replicas equal noop).

Abbreviation demo_net := (@net S).
Abbreviation demo_log := (Log S).
Definition demo_put (st : demo_net) (n : string) (x : replica) (ms : list msg) : demo_net :=
  MkNet (upd (nodes st) n x) (ms ++ msgs st).
Definition demo_run1 (ph : phase) : option running := Some (MkRunning 0 256 v ph).
Definition demo_promise := MkPrepareReply true 0 None 256.
Definition demo_acc1 : Acceptor := {[0 := AcceptorSlot 256 0 None]}.
Definition demo_acc2 : Acceptor := {[0 := AcceptorSlot 256 256 (Some v)]}.
Definition demo_log1 : demo_log := MkLog {[0 := v]} 1 1 (apply 0 v s0).

Definition d0 : demo_net := init s0.
Definition d1 := demo_put d0 "r1" (MkReplica ∅ 1 (NewLog s0) (demo_run1 (Phase1 []))) [MPrepare 0 256].
Definition d2 := demo_put d1 "r1" (set_acc (nodes d1 "r1") demo_acc1) [MPromise "r1" 0 256 demo_promise].
Definition d3 := demo_put d2 "r2" (set_acc (nodes d2 "r2") demo_acc1) [MPromise "r2" 0 256 demo_promise].
Definition d4 := demo_put d3 "r1" (set_run (nodes d3 "r1")
  (demo_run1 (Phase1 [("r1", Some demo_promise)]))) [].
Definition d5 := demo_put d4 "r1" (set_run (nodes d4 "r1")
  (demo_run1 (Phase1 [("r1", Some demo_promise); ("r2", Some demo_promise)]))) [].
Definition d6 := demo_put d5 "r1" (set_run (nodes d5 "r1")
  (demo_run1 (Phase2 v []))) [MAccept 0 256 v].
Definition d7 := demo_put d6 "r1" (set_acc (nodes d6 "r1") demo_acc2)
  [MAccepted "r1" 0 256 (MkAcceptReply true 256)].
Definition d8 := demo_put d7 "r2" (set_acc (nodes d7 "r2") demo_acc2)
  [MAccepted "r2" 0 256 (MkAcceptReply true 256)].
Definition d9 := demo_put d8 "r1" (set_run (nodes d8 "r1")
  (demo_run1 (Phase2 v [("r1", Some (MkAcceptReply true 256))]))) [].
Definition d10 := demo_put d9 "r1" (set_run (nodes d9 "r1")
  (demo_run1 (Phase2 v [("r1", Some (MkAcceptReply true 256));
                            ("r2", Some (MkAcceptReply true 256))]))) [].
Definition d11 := demo_put d10 "r1" (MkReplica (r_acc (nodes d10 "r1")) (r_round (nodes d10 "r1"))
  demo_log1 None) [MLearn 0 v].
Definition d12 := demo_put d11 "r2" (set_log (nodes d11 "r2") demo_log1) [].

Lemma demo_reach_step k st st1 st2 :
  demo_reach k st →
  step sem apply demo_replicas equal noop st st1 →
  st1 = st2 → demo_reach (Datatypes.S k) st2.
Proof. intros H Hs <-. by eapply reach_step. Qed.

Lemma demo_put_eq (st : demo_net) n x x' ms ms' :
  x = x' → ms' = ms ++ msgs st → MkNet (upd (nodes st) n x) ms' = demo_put st n x' ms.
Proof. by intros -> ->. Qed.

Tactic Notation "demo_step" constr(st) uconstr(c) :=
  eapply (demo_reach_step _ st); [|eapply c; demo_side|apply demo_put_eq; vm_compute; reflexivity].

Lemma demo_run : demo_reach 12 d12.
Proof.
  demo_step d11 (step_learn _ _ _ _ _ _ "r2" 0 v v).
  demo_step d10 (step_phase2_ok _ _ _ _ _ _ "r1" 0 256).
  demo_step d9 (step_got_accepted _ _ _ _ _ _ "r1" "r2" 0 256 v v _ (Some (MkAcceptReply true 256))).
  demo_step d8 (step_got_accepted _ _ _ _ _ _ "r1" "r1" 0 256 v v [] (Some (MkAcceptReply true 256))).
  demo_step d7 (step_accept _ _ _ _ _ _ "r2" 0 256 v v).
  demo_step d6 (step_accept _ _ _ _ _ _ "r1" 0 256 v v).
  demo_step d5 (step_phase1_ok _ _ _ _ _ _ "r1" 0 256).
  demo_step d4 (step_got_promise _ _ _ _ _ _ "r1" "r2" 0 256 v _ (Some demo_promise)).
  demo_step d3 (step_got_promise _ _ _ _ _ _ "r1" "r1" 0 256 v [] (Some demo_promise)).
  demo_step d2 (step_prepare _ _ _ _ _ _ "r2" 0 256 demo_promise demo_promise).
  demo_step d1 (step_prepare _ _ _ _ _ _ "r1" 0 256 demo_promise demo_promise).
  demo_step d0 (step_start _ _ _ _ _ _ "r1" v).
  apply reach_init.
Qed.

End demo.

Lemma demo_replicas_ok : NoDup demo_replicas ∧ (length demo_replicas ≤ 256)%nat.
Proof. split; [|simpl; lia]. by apply (bool_decide_unpack _). Qed.

Abbreviation demo_end := (d12 (λ _ (v x : bytes), x ++ v) [] [x01]).

Lemma paxos_agreement_witness :
  learned demo_end 0 [x01] ∧ chosen (r_log (nodes demo_end "r2")) !! 0 = Some [x01] ∧ [x01] = [x01].
Proof.
  assert (learned demo_end 0 [x01]) as H1 by (left; demo_in).
  assert (learned demo_end 0 [x01]) as H2 by (right; exists "r2"; vm_compute; reflexivity).
  split; [exact H1|]. split; [vm_compute; reflexivity|].
  exact (paxos_agreement (λ v : bytes, v) (λ _ v x, x ++ v) [] demo_replicas
    (λ a b, bool_decide (a = b)) [] (proj1 demo_replicas_ok) (proj2 demo_replicas_ok)
    12 demo_end 0 [x01] [x01] (demo_run (λ v : bytes, v) (λ _ v x, x ++ v) [] (λ a b, bool_decide (a = b)) [] [x01]) ltac:(vm_compute; reflexivity) H1 H2).
Defined.

Lemma replicas_apply_same_prefix_witness :
  applied (r_log (nodes demo_end "r1")) ≤ applied (r_log (nodes demo_end "r2")) ∧
  app (r_log (nodes demo_end "r1")) =
    replay (λ _ v x, x ++ v) [] (chosen (r_log (nodes demo_end "r2"))) 1.
Proof.
  split; [vm_compute; discriminate|].
  apply (replicas_apply_same_prefix (λ v : bytes, v) (λ _ v x, x ++ v) [] demo_replicas
    (λ a b, bool_decide (a = b)) [] (proj1 demo_replicas_ok) (proj2 demo_replicas_ok)
    12 demo_end "r1" "r2" ltac:(intros ???? ->; reflexivity) (demo_run (λ v : bytes, v) (λ _ v x, x ++ v) [] (λ a b, bool_decide (a = b)) [] [x01]) ltac:(vm_compute; reflexivity)
    ltac:(vm_compute; discriminate)).
Defined.
End PaxosSafety.
