(* ===== verification/Directory.v ===== *)
(** * The directory replica: src/internal/directory/{state,server,monitor}.go

    [StateMachine] is the replicated state machine behind the Paxos log,
    [hbTracker] the failure detector's view, and the handlers of [Server] are
    functions of the replica's state.  The protobuf codec is a parameter
    ([Marshal], [Unmarshal]); a handler that submits a command runs
    [Paxos.Submit] against the answers of the network ([attempt_env]). *)

From S2P Require Import Prelude HashRing Proto Paxos PaxosLog PaxosNet.

Module Directory.
Import Paxos pmv1.
Local Open Scope N_scope.

(** ** StateMachine (state.go)

    A channel of capacity one is an entry of [chans]: whether a signal is
    pending.  [watch] is the set of registered channels. *)
Record StateMachine := MkSM {
  epoch : N;
  members : gmap string NodeInfo;
  watch : gset N;
  chans : gmap N bool
}.

Definition NewStateMachine : StateMachine := MkSM 0 ∅ ∅ ∅.

Definition Subscribe (sm : StateMachine) : N * StateMachine :=
  let ch := fresh (dom (chans sm)) in
  (ch, MkSM (epoch sm) (members sm) ({[ch]} ∪ watch sm) (<[ch := false]> (chans sm))).

Definition Unsubscribe (ch : N) (sm : StateMachine) : StateMachine :=
  MkSM (epoch sm) (members sm) (watch sm ∖ {[ch]}) (chans sm).

(** [select { case ch <- struct{}{}: default: }]: a pending signal stays. *)
Definition signal (sm : StateMachine) (ch : N) : StateMachine :=
  MkSM (epoch sm) (members sm) (watch sm) (<[ch := true]> (chans sm)).
Definition notify (watchers : gset N) (sm : StateMachine) : StateMachine :=
  foldl signal sm (elements watchers).

(** The switch of [Apply]: the new members if they changed, and the node IDs the
    [onJoin] hook is called with. *)
Definition apply_cmd (cmd : ClusterCommand) (ms : gmap string NodeInfo)
    : option (gmap string NodeInfo) * list string :=
  match cmd with
  | NodeJoin n =>
      match ms !! NodeId n with
      | Some prev =>
          if decide (Addr prev = Addr n) then (None, [])
          else (Some (<[NodeId n := n]> ms), [NodeId n])
      | None => (Some (<[NodeId n := n]> ms), [NodeId n])
      end
  | NodeLeave id => (if ms !! id then Some (delete id ms) else None, [])
  | NodeDead id => (if ms !! id then Some (delete id ms) else None, [])
  | Noop _ => (None, [])
  | _ => (None, [])
  end.

Definition HasMember (sm : StateMachine) (id : string) : bool :=
  match members sm !! id with Some _ => true | None => false end.
Definition Members (sm : StateMachine) : list string := (map_to_list (members sm)).*1.

(** [Ring] for one iteration order of the members map. *)
Definition Ring_from (order : list (string * NodeInfo)) (sm : StateMachine) : Ring :=
  MkRing (epoch sm) order.*2 (Z.to_N HashRing.DefaultVNodes).
Definition Ring (sm : StateMachine) : pmv1.Ring := Ring_from (map_to_list (members sm)) sm.

(** ** hbTracker (monitor.go)

    Times are nanoseconds; [Time.Sub] saturates at the range of [Duration]. *)
Record hbTracker := MkHB { DeadAfter : Z; las : gmap string Z }.

Definition newHBTracker (deadAfter : Z) : hbTracker := MkHB deadAfter ∅.
Definition record (now : Z) (id : string) (h : hbTracker) : hbTracker :=
  MkHB (DeadAfter h) (<[id := now]> (las h)).
Definition seed : Z → string → hbTracker → hbTracker := record.
Definition expired (h : hbTracker) (id : string) (now : Z) : bool :=
  match las h !! id with
  | None => false
  | Some last => (time_Sub now last >? DeadAfter h)%Z
  end.

(** [defaults]: [HeartbeatEvery] 500ms, [DeadAfter] three heartbeats. *)
Definition defaults (heartbeatEvery deadAfter : Z) : Z * Z :=
  let hb := if (heartbeatEvery =? 0)%Z then 500000000%Z else heartbeatEvery in
  (hb, if (deadAfter =? 0)%Z then int64 (3 * hb) else deadAfter).

(** [quorumSuspects]: one answer per peer, [None] when it could not be reached. *)
Definition quorumSuspects (answers : list (option bool)) : bool :=
  let suspecting :=
    foldl (λ n a, match a with Some true => n + 1 | _ => n end)%nat 1%nat answers in
  let total := (length answers + 1)%nat in
  (total / 2 <? suspecting)%nat.

Section codec.
Context (Marshal : ClusterCommand → option bytes) (Unmarshal : bytes → option ClusterCommand).

(** ** The log callback

    [apply_locked] is the part under the mutex; it returns the node IDs passed to
    [onJoin] and the watchers to notify. *)
Definition apply_locked (slot : N) (raw : bytes) (sm : StateMachine)
    : StateMachine * list string * gset N :=
  match Unmarshal raw with
  | None => (sm, [], ∅)
  | Some cmd =>
      let '(changed, joined) := apply_cmd cmd (members sm) in
      match changed with
      | Some ms => (MkSM (u64 (epoch sm + 1)) ms (watch sm) (chans sm), joined, watch sm)
      | None => (sm, joined, ∅)
      end
  end.
(** The signals are sent after the mutex is released. *)
Definition Apply (slot : N) (raw : bytes) (sm : StateMachine) : StateMachine * list string :=
  let '(sm, joined, watchers) := apply_locked slot raw sm in (notify watchers sm, joined).
(** The state machine alone, and with the heartbeat tracker [New] hooks to it;
    [now slot] is the clock when the slot is applied. *)
Definition apply_sm (slot : N) (raw : bytes) (sm : StateMachine) : StateMachine :=
  (Apply slot raw sm).1.
Definition apply_both (now : N → Z) (slot : N) (raw : bytes) (d : StateMachine * hbTracker)
    : StateMachine * hbTracker :=
  let '(sm, joined) := Apply slot raw d.1 in
  (sm, foldl (λ h id, seed (now slot) id h) d.2 joined).

(** ** Server *)
Definition commandsEqual (a b : bytes) : bool :=
  match Unmarshal a, Unmarshal b with
  | Some ca, Some cb => bool_decide (ca = cb)
  | _, _ => false
  end.

Record Config := MkConfig { ReplicaID : string; Peers : gmap string string }.

(** The replicas [New] passes to [NewNode]: self, then the peers in map order. *)
Definition replicas (cfg : Config) : list string := ReplicaID cfg :: (map_to_list (Peers cfg)).*1.
Definition paxos_config (cfg : Config) (noop : bytes) : Paxos.Config :=
  Paxos.MkConfig (ReplicaID cfg) (replicas cfg) commandsEqual noop.
Definition noop_command : ClusterCommand := Noop true.

Inductive dir_error := ErrMarshal | ErrSubmit (e : submit_error).

Section server.
Context (now : N → Z) (cfg : Paxos.Config).
Abbreviation server := (node (S := StateMachine * hbTracker)).

Definition server_sm (s : server) : StateMachine := (app (log s)).1.
Definition server_hb (s : server) : hbTracker := (app (log s)).2.
Definition set_hb (h : hbTracker) (s : server) : server :=
  MkNode (round s)
    (MkLog (chosen (log s)) (applied (log s)) (maxSeen (log s)) ((app (log s)).1, h)).

Definition submit (env : nat → attempt_env) (s : server) (cmd : ClusterCommand)
    : server * result dir_error unit :=
  match Marshal cmd with
  | None => (s, Err ErrMarshal)
  | Some raw =>
      match Submit (apply_both now) cfg env s raw with
      | (s, Ok tt) => (s, Ok tt)
      | (s, Err e) => (s, Err (ErrSubmit e))
      end
  end.

Definition Join (env : nat → attempt_env) (s : server) (req : option NodeInfo)
    : server * result status pmv1.Ring :=
  match req with
  | None => (s, Err (Status InvalidArgument "node_id and addr are required"))
  | Some n =>
      if decide (NodeId n = "" ∨ Addr n = "")
      then (s, Err (Status InvalidArgument "node_id and addr are required"))
      else
        match submit env s (NodeJoin n) with
        | (s, Err _) => (s, Err (Status Unavailable "consensus"))
        | (s, Ok tt) =>
            if HasMember (server_sm s) (NodeId n) then (s, Ok (Ring (server_sm s)))
            else (s, Err (Status Internal "join committed but not applied"))
        end
  end.

Definition Leave (env : nat → attempt_env) (s : server) (id : string) : server * result status unit :=
  match submit env s (NodeLeave id) with
  | (s, Err _) => (s, Err (Status Unavailable "consensus"))
  | (s, Ok tt) => (s, Ok tt)
  end.

Definition Heartbeat (t : Z) (s : server) (id : string) : server :=
  set_hb (record t id (server_hb s)) s.
Definition GetRing (s : server) : pmv1.Ring := Ring (server_sm s).

Definition Suspect (t : Z) (s : server) (id : string) : bool :=
  if negb (HasMember (server_sm s) id) then true else expired (server_hb s) id t.

(** One tick of [runFailureDetector]; [answers id] is what the peers answer to the
    suspicion probe, [env id] the network during the proposal. *)
Fixpoint detector_loop (t : Z) (answers : string → list (option bool))
    (env : string → nat → attempt_env) (ids : list string) (s : server) : server :=
  match ids with
  | [] => s
  | id :: ids =>
      if negb (expired (server_hb s) id t) then detector_loop t answers env ids s
      else if negb (quorumSuspects (answers id)) then detector_loop t answers env ids s
      else detector_loop t answers env ids (submit (env id) s (NodeDead id)).1
  end.
Definition detector_tick (t : Z) answers env (s : server) : server :=
  detector_loop t answers env (Members (server_sm s)) s.
End server.

(** ** Replica-internal RPCs, and the client side in [grpcTransport]

    [None] at the client is a call that returns an error. *)
Definition server_Prepare (req : PrepareRequest) (a : Acceptor)
    : result status PrepareResponse * Acceptor :=
  let '(r, a) := Prepare a (prep_Slot req) (prep_Ballot req) in
  match AcceptedValue r with
  | None => (Ok (MkPrepareResponse (Promised r) (AcceptedBallot r) None (PromisedBallot r)), a)
  | Some av =>
      match Unmarshal av with
      | None => (Err (Status Internal "corrupt accepted value"), a)
      | Some cmd =>
          (Ok (MkPrepareResponse (Promised r) (AcceptedBallot r) (Some cmd) (PromisedBallot r)), a)
      end
  end.

(** [proto.Marshal] of a message pointer: nil for a nil pointer. *)
Definition marshal_ptr (m : option ClusterCommand) : option (option bytes) :=
  match m with None => Some None | Some c => Some <$> Marshal c end.

Definition server_Accept (req : AcceptRequest) (a : Acceptor)
    : result status AcceptResponse * Acceptor :=
  match marshal_ptr (areq_Value req) with
  | None => (Err (Status InvalidArgument "bad value"), a)
  | Some raw =>
      let '(r, a) := Accept a (areq_Slot req) (areq_Ballot req) raw in
      (Ok (MkAcceptResponse (Accepted r) (RejectBallot r)), a)
  end.

(** A nil value is committed as the empty byte string it decodes as. *)
Definition server_Learn {S} (apply : N → bytes → S → S) (req : LearnRequest) (l : Log S)
    : result status unit * Log S :=
  match marshal_ptr (learn_Value req) with
  | None => (Err (Status InvalidArgument "bad value"), l)
  | Some raw => (Ok tt, Commit apply (learn_Slot req) (default [] raw) l)
  end.

Definition transport_prepare_reply (resp : PrepareResponse) : option PrepareReply :=
  match resp_AcceptedValue resp with
  | None => Some (MkPrepareReply (resp_Promised resp) (resp_AcceptedBallot resp) None
                    (resp_PromisedBallot resp))
  | Some c =>
      raw ← Marshal c;
      Some (MkPrepareReply (resp_Promised resp) (resp_AcceptedBallot resp) (Some raw)
              (resp_PromisedBallot resp))
  end.

(** [grpcTransport.Prepare]: the self fast path, or the RPC to [peer]. *)
Definition transport_Prepare (self peer : string) (slot b : N) (a : Acceptor)
    : option PrepareReply * Acceptor :=
  if decide (peer = self) then let '(r, a) := Prepare a slot b in (Some r, a)
  else
    let '(resp, a) := server_Prepare (MkPrepareRequest slot b) a in
    match resp with
    | Err _ => (None, a)
    | Ok resp => (transport_prepare_reply resp, a)
    end.

Definition transport_Accept (self peer : string) (slot b : N) (value : bytes) (a : Acceptor)
    : option AcceptReply * Acceptor :=
  if decide (peer = self) then let '(r, a) := Accept a slot b (Some value) in (Some r, a)
  else
    match Unmarshal value with
    | None => (None, a)
    | Some cmd =>
        let '(resp, a) := server_Accept (MkAcceptRequest slot b (Some cmd)) a in
        match resp with
        | Err _ => (None, a)
        | Ok resp => (Some (MkAcceptReply (aresp_Accepted resp) (aresp_PromisedBallot resp)), a)
        end
    end.

Definition transport_Learn {S} (apply : N → bytes → S → S) (self peer : string)
    (slot : N) (value : bytes) (l : Log S) : Log S :=
  if decide (peer = self) then Commit apply slot value l
  else
    match Unmarshal value with
    | None => l
    | Some cmd => (server_Learn apply (MkLearnRequest slot (Some cmd)) l).2
    end.
End codec.

(** ** WatchRing: the [send] closure; the new [lastSent] and what is sent *)
Definition watch_send (lastSent : N) (sm : StateMachine) : N * option pmv1.Ring :=
  let ring := Ring sm in
  if (ring_Epoch ring =? lastSent) && negb (lastSent =? 0) then (lastSent, None)
  else (ring_Epoch ring, Some ring).
End Directory.
