(* ===== verification/DirectoryProps.v ===== *)
(** * Properties of the directory replica

    Epochs and membership across replicas (on top of [PaxosSafety]), the codec on
    the wire, joins, the failure detector and the ring stream. *)

From S2P Require Import Prelude HashRing Proto Paxos PaxosLog PaxosNet PaxosSafety Directory.

Module DirectoryProps.
Import Paxos PaxosLog PaxosNet PaxosSafety pmv1 Directory.
Local Open Scope N_scope.

(** ** The state machine *)
Section codec.
Context (Marshal : ClusterCommand → option bytes) (Unmarshal : bytes → option ClusterCommand).
Abbreviation apply_sm := (apply_sm Unmarshal).
Implicit Types (sm : StateMachine).

(** What one command does to the members. *)
Lemma apply_cmd_changed cmd ms ms' js : apply_cmd cmd ms = (Some ms', js) → ms' ≠ ms.
Proof.
  destruct cmd as [n|id|id|?|?|?|]; simpl; try done.
  - destruct (ms !! NodeId n) as [prev|] eqn:Hp.
    + destruct (decide (Addr prev = Addr n)) as [|Hne]; [done|]. intros [= <- <-] Heq.
      apply (f_equal (lookup (NodeId n))) in Heq. rewrite lookup_insert_eq in Heq. congruence.
    + intros [= <- <-] Heq. apply (f_equal (lookup (NodeId n))) in Heq.
      rewrite lookup_insert_eq in Heq. congruence.
  - destruct (ms !! id) eqn:Hp; [|done]. intros [= <- <-] Heq.
    apply (f_equal (lookup id)) in Heq. rewrite lookup_delete_eq in Heq. congruence.
  - destruct (ms !! id) eqn:Hp; [|done]. intros [= <- <-] Heq.
    apply (f_equal (lookup id)) in Heq. rewrite lookup_delete_eq in Heq. congruence.
Qed.

Lemma apply_cmd_twice cmd ms ms' js :
  apply_cmd cmd ms = (Some ms', js) → (apply_cmd cmd ms').1 = None.
Proof.
  destruct cmd as [n|id|id|?|?|?|]; simpl; try done.
  - intros Hc. assert (ms' = <[NodeId n := n]> ms) as ->.
    { destruct (ms !! NodeId n); [destruct (decide _)|]; by simplify_eq. }
    by rewrite lookup_insert_eq, decide_True.
  - destruct (ms !! id); [|done]. intros [= <- <-]. by rewrite lookup_delete_eq.
  - destruct (ms !! id); [|done]. intros [= <- <-]. by rewrite lookup_delete_eq.
Qed.

(** [Apply] either leaves the state machine alone or changes the members and bumps
    the epoch. *)
Lemma apply_locked_cases slot raw sm :
  (apply_locked Unmarshal slot raw sm).1.1 = sm ∧ (apply_locked Unmarshal slot raw sm).2 = ∅ ∨
  ∃ ms, (apply_locked Unmarshal slot raw sm).1.1 = MkSM (u64 (epoch sm + 1)) ms (watch sm) (chans sm) ∧
    ms ≠ members sm ∧ (apply_locked Unmarshal slot raw sm).2 = watch sm.
Proof.
  unfold apply_locked. destruct (Unmarshal raw) as [cmd|]; [|by left].
  destruct (apply_cmd cmd (members sm)) as [[ms|] js] eqn:Hc; [|by left].
  right. exists ms. split_and!; [done|by eapply apply_cmd_changed|done].
Qed.

Lemma notify_fields ws sm :
  epoch (notify ws sm) = epoch sm ∧ members (notify ws sm) = members sm ∧ watch (notify ws sm) = watch sm.
Proof.
  unfold notify. apply (foldl_inv (λ sm', epoch sm' = epoch sm ∧ members sm' = members sm ∧ watch sm' = watch sm));
    [done|]. by intros sm' ch _ (? & ? & ?).
Qed.

Lemma apply_sm_locked slot raw sm :
  epoch (apply_sm slot raw sm) = epoch (apply_locked Unmarshal slot raw sm).1.1 ∧
  members (apply_sm slot raw sm) = members (apply_locked Unmarshal slot raw sm).1.1.
Proof.
  unfold Directory.apply_sm, Apply. destruct (apply_locked _ _ _ _) as [[sm' js] ws]. simpl.
  by destruct (notify_fields ws sm') as (-> & -> & _).
Qed.

Lemma apply_sm_cases slot raw sm :
  apply_sm slot raw sm = sm ∨
  (epoch (apply_sm slot raw sm) = u64 (epoch sm + 1) ∧ members (apply_sm slot raw sm) ≠ members sm).
Proof.
  destruct (apply_sm_locked slot raw sm) as [He Hm]. unfold Directory.apply_sm, Apply in *.
  destruct (apply_locked_cases slot raw sm) as [[H1 H2]|(ms & H1 & Hne & _)];
    destruct (apply_locked Unmarshal slot raw sm) as [[sm' js] ws]; simpl in *; subst; [by left|].
  right. rewrite He, Hm. done.
Qed.

Lemma apply_sm_twice slot slot' raw sm :
  apply_sm slot' raw (apply_sm slot raw sm) = apply_sm slot raw sm.
Proof.
  destruct (apply_sm_locked slot raw sm) as [_ Hm]. set (sm' := apply_sm slot raw sm) in *.
  unfold Directory.apply_sm, Apply, apply_locked. unfold apply_locked in Hm.
  destruct (Unmarshal raw) as [cmd|]; [|done].
  destruct (apply_cmd cmd (members sm)) as [[ms|] js] eqn:Hc; simpl in Hm; rewrite Hm.
  - apply apply_cmd_twice in Hc. destruct (apply_cmd cmd ms) as [? ?]. simpl in Hc. by subst.
  - by rewrite Hc.
Qed.

(** Membership changes and epoch bumps coincide, and duplicated commands
    are harmless: applying a command changes the epoch exactly when it changes the
    members, by one; applying it again changes nothing. *)
Theorem apply_epoch_tracks_members slot slot' raw sm :
  epoch sm < two64 - 1 →
  (members (apply_sm slot raw sm) = members sm ↔ epoch (apply_sm slot raw sm) = epoch sm) ∧
  (epoch (apply_sm slot raw sm) = epoch sm ∨ epoch (apply_sm slot raw sm) = epoch sm + 1) ∧
  apply_sm slot' raw (apply_sm slot raw sm) = apply_sm slot raw sm.
Proof.
  intros Hlt. split_and!.
  - destruct (apply_sm_cases slot raw sm) as [->|(-> & Hm)]; [done|].
    rewrite u64_small by lia. split; [done|lia].
  - destruct (apply_sm_cases slot raw sm) as [->|(-> & _)]; [by left|].
    right. by rewrite u64_small by lia.
  - apply apply_sm_twice.
Qed.

(** ** Replicated epochs *)
Abbreviation replay_sm ch n := (replay apply_sm NewStateMachine ch n).

Lemma replay_sm_bound ch n : N.of_nat n < two64 → epoch (replay_sm ch n) ≤ N.of_nat n.
Proof.
  induction n as [|n IH]; intros Hn; simpl; [lia|]. specialize (IH ltac:(lia)).
  destruct (ch !! N.of_nat n) as [v|]; [|lia].
  destruct (apply_sm_cases (N.of_nat n) v (replay_sm ch n)) as [->|(-> & _)]; [lia|].
  rewrite u64_small; lia.
Qed.

(** Along one log the epoch never decreases, and determines the members. *)
Lemma replay_sm_mono ch m n :
  (m ≤ n)%nat → N.of_nat n < two64 →
  epoch (replay_sm ch m) ≤ epoch (replay_sm ch n) ∧
  (epoch (replay_sm ch m) = epoch (replay_sm ch n) →
   members (replay_sm ch m) = members (replay_sm ch n)).
Proof.
  intros Hle Hn. induction Hle as [|n Hle IH]; [done|]. specialize (IH ltac:(lia)) as [IH1 IH2].
  simpl. destruct (ch !! N.of_nat n) as [v|]; [|done].
  pose proof (replay_sm_bound ch n ltac:(lia)).
  destruct (apply_sm_cases (N.of_nat n) v (replay_sm ch n)) as [->|(-> & _)]; [done|].
  rewrite u64_small by lia. split; [lia|]. intros. lia.
Qed.

Section cluster.
Context (ids : list string) (Hnd : NoDup ids) (Hlen : (length ids ≤ 256)%nat) (noop : bytes).

Abbreviation dir_reach :=
  (reach Unmarshal apply_sm NewStateMachine ids (commandsEqual Unmarshal) noop).
Definition replica_sm (st : net) (n : string) : StateMachine := app (r_log (nodes st n)).

Lemma apply_sm_sem i v v' sm :
  Unmarshal v = Unmarshal v' → apply_sm i v sm = apply_sm i v' sm.
Proof. intros Heq. unfold Directory.apply_sm, Apply, apply_locked. by rewrite Heq. Qed.

Abbreviation dir_steps := (steps Unmarshal apply_sm ids (commandsEqual Unmarshal) noop).

(** [observed st' n sm a]: on the way to [st'], replica [n] had state machine [sm]
    after applying [a] slots. *)
Definition observed (st' : net) (n : string) (sm : StateMachine) (a : N) : Prop :=
  ∃ k st j, dir_reach k st ∧ dir_steps st j st' ∧ N.of_nat (j + k) < two56 ∧
    sm = replica_sm st n ∧ a = applied (r_log (nodes st n)).

Lemma observed_replays st' n1 sm1 a1 n2 sm2 a2 :
  observed st' n1 sm1 a1 → observed st' n2 sm2 a2 →
  ∃ ch, sm1 = replay_sm ch (N.to_nat a1) ∧ sm2 = replay_sm ch (N.to_nat a2) ∧
    a1 < two64 ∧ a2 < two64.
Proof.
  intros (k1 & st1 & j1 & R1 & S1 & K1 & -> & ->) (k2 & st2 & j2 & R2 & S2 & K2 & -> & ->).
  destruct (replicas_comparable _ _ _ _ _ _ Hnd Hlen _ _ _ _ _ _ _ n1 n2 apply_sm_sem R1 S1 K1 R2 S2 K2)
    as (ch & ? & ? & ? & ?).
  assert (two56 < two64) by (vm_compute; reflexivity).
  exists ch. unfold replica_sm. split_and!; [done|done|lia|lia].
Qed.

Lemma observed_epoch st' n1 sm1 a1 n2 sm2 a2 :
  observed st' n1 sm1 a1 → observed st' n2 sm2 a2 → a1 ≤ a2 →
  epoch sm1 ≤ epoch sm2 ∧ (epoch sm1 = epoch sm2 → members sm1 = members sm2).
Proof.
  intros H1 H2 Hle. destruct (observed_replays _ _ _ _ _ _ _ H1 H2) as (ch & -> & -> & ? & ?).
  apply replay_sm_mono; lia.
Qed.

Lemma observed_members st' n1 sm1 a1 n2 sm2 a2 :
  observed st' n1 sm1 a1 → observed st' n2 sm2 a2 →
  epoch sm1 = epoch sm2 → members sm1 = members sm2.
Proof.
  intros H1 H2 Heq. destruct (N.le_ge_cases a1 a2) as [Hle|Hle].
  - by apply (observed_epoch _ _ _ _ _ _ _ H1 H2 Hle).
  - symmetry. by apply (observed_epoch _ _ _ _ _ _ _ H2 H1 Hle).
Qed.

(** Members are filed under their own node ID. *)
Lemma replay_sm_ids ch n id i : members (replay_sm ch n) !! id = Some i → NodeId i = id.
Proof.
  revert id i. induction n as [|n IH]; intros id i; simpl; [by rewrite lookup_empty|].
  destruct (ch !! N.of_nat n) as [v|]; [|apply IH]. revert IH. generalize (replay_sm ch n) as sm.
  intros sm IH. destruct (apply_sm_locked (N.of_nat n) v sm) as [_ ->]. unfold apply_locked.
  destruct (Unmarshal v) as [cmd|]; [|apply IH].
  destruct (apply_cmd cmd (members sm)) as [[ms|] js] eqn:Hc; simpl; [|apply IH].
  assert ((∃ m, ms = <[NodeId m := m]> (members sm)) ∨ ∃ d, ms = delete d (members sm)) as [[m ->]|[d ->]].
  { destruct cmd as [m|d|d|?|?|?|]; simpl in Hc; try done; [left; exists m|right; exists d..].
    - destruct (_ !! _); [destruct (decide _)|]; by simplify_eq.
    - destruct (_ !! _); by simplify_eq.
    - destruct (_ !! _); by simplify_eq. }
  - intros [[<- <-]|[_ ?]]%lookup_insert_Some; [done|by apply IH].
  - intros [_ ?]%lookup_delete_Some. by apply IH.
Qed.

Lemma observed_ids st' n sm a id i :
  observed st' n sm a → members sm !! id = Some i → NodeId i = id.
Proof.
  intros H. destruct (observed_replays _ _ _ _ _ _ _ H H) as (ch & -> & _). apply replay_sm_ids.
Qed.

(** C3. The epoch is the cluster's clock: whenever in an execution, and on whichever
    replicas, two states of the state machine are observed, equal epochs mean
    equal members, and a smaller epoch means fewer applied log slots (an older
    ring). *)
Theorem epoch_determines_members st' n1 sm1 a1 n2 sm2 a2 :
  observed st' n1 sm1 a1 → observed st' n2 sm2 a2 →
  (epoch sm1 = epoch sm2 → members sm1 = members sm2) ∧ (epoch sm1 < epoch sm2 → a1 < a2).
Proof.
  intros H1 H2. split; [by eapply observed_members|]. intros Hlt. apply N.lt_nge. intros Hle.
  destruct (observed_epoch _ _ _ _ _ _ _ H2 H1 Hle). lia.
Qed.
End cluster.

(** ** The codec on the wire *)
Section wire.
Context (Hcodec : ∀ c b, Marshal c = Some b → Unmarshal b = Some c).

(** C26. The RPC path implements the network of the agreement proof: a prepare,
    accept or learn sent through [grpcTransport] to a peer's handler acts on the
    peer exactly as the direct call does, up to a re-encoding of the value that
    keeps its meaning; when the call fails the peer has at most done its part. *)
Theorem transport_implements_network {S} (apply : N → bytes → S → S) self peer slot b v a (l : Log S) :
  (transport_Prepare Marshal Unmarshal self peer slot b a).2 = (Prepare a slot b).2 ∧
  (∀ r, (transport_Prepare Marshal Unmarshal self peer slot b a).1 = Some r →
     wire_reply Unmarshal (Prepare a slot b).1 r) ∧
  match transport_Accept Marshal Unmarshal self peer slot b v a with
  | (Some r, a') => ∃ v', Unmarshal v' = Unmarshal v ∧ Accept a slot b (Some v') = (r, a')
  | (None, a') => a' = a
  end ∧
  (transport_Learn Marshal Unmarshal apply self peer slot v l = l ∨
   ∃ v', Unmarshal v' = Unmarshal v ∧
     transport_Learn Marshal Unmarshal apply self peer slot v l = Commit apply slot v' l).
Proof.
  split_and!.
  - unfold transport_Prepare, server_Prepare. simpl.
    destruct (Prepare a slot b) as [r a']. destruct (decide (peer = self)); [done|].
    destruct (AcceptedValue r) as [av|]; [destruct (Unmarshal av)|]; done.
  - unfold transport_Prepare, server_Prepare. simpl.
    destruct (Prepare a slot b) as [r a']. destruct (decide (peer = self)); [by intros ? [= <-]|].
    destruct (AcceptedValue r) as [av|] eqn:Hav; [destruct (Unmarshal av) as [c|] eqn:Hc; [|done]|];
      unfold transport_prepare_reply; simpl.
    + destruct (Marshal c) as [raw|] eqn:Hm; [|done]. intros ? [= <-].
      split_and!; simpl; [done..|]. rewrite Hav. simpl. by rewrite (Hcodec _ _ Hm), Hc.
    + intros ? [= <-]. split_and!; simpl; [done..|]. by rewrite Hav.
  - unfold transport_Accept, server_Accept. simpl. destruct (decide (peer = self)).
    { destruct (Accept a slot b (Some v)) eqn:Ha. eauto. }
    destruct (Unmarshal v) as [c|] eqn:Hc; [|done]. destruct (Marshal c) as [raw|] eqn:Hm; simpl; [|done].
    destruct (Accept a slot b (Some raw)) as [[]] eqn:Ha. exists raw. by rewrite (Hcodec _ _ Hm).
  - unfold transport_Learn, server_Learn. simpl. destruct (decide (peer = self)); [eauto|].
    destruct (Unmarshal v) as [c|] eqn:Hc; [|by left]. destruct (Marshal c) as [raw|] eqn:Hm; [|by left].
    right. exists raw. by rewrite (Hcodec _ _ Hm).
Qed.

(** ** Joining *)
Lemma commandsEqual_refl c raw : Marshal c = Some raw → commandsEqual Unmarshal raw raw = true.
Proof. intros Hm. unfold commandsEqual. rewrite (Hcodec _ _ Hm). by apply bool_decide_eq_true. Qed.

(** Applying a join makes the node a member at the requested address. *)
Lemma apply_join slot n raw sm :
  Unmarshal raw = Some (NodeJoin n) →
  ∃ info, members (apply_sm slot raw sm) !! NodeId n = Some info ∧ Addr info = Addr n ∧
    (∀ id, id ≠ NodeId n → members (apply_sm slot raw sm) !! id = members sm !! id).
Proof.
  intros Hu. destruct (apply_sm_locked slot raw sm) as [_ ->]. unfold apply_locked. rewrite Hu. simpl.
  destruct (members sm !! NodeId n) as [prev|] eqn:Hp.
  - destruct (decide (Addr prev = Addr n)); simpl; [eauto|].
    exists n. rewrite lookup_insert_eq. split_and!; [done..|].
    intros id Hne. by rewrite lookup_insert_ne.
  - simpl. exists n. rewrite lookup_insert_eq. split_and!; [done..|].
    intros id Hne. by rewrite lookup_insert_ne.
Qed.

Lemma apply_both_sm now slot raw d :
  (apply_both Unmarshal now slot raw d).1 = apply_sm slot raw d.1.
Proof. unfold apply_both, Directory.apply_sm. by destruct (Apply _ _ _ _). Qed.

(** A join on a quiet slot succeeds at once: with a majority promising
    without accepted values and a majority accepting, [Join] answers with the ring
    of a state in which the node is a member at the address it asked for and every
    other member is unchanged. *)
Theorem join_quiet now dcfg noop env s n raw :
  NodeId n ≠ "" → Addr n ≠ "" → Marshal (NodeJoin n) = Some raw →
  chosen (log s) !! applied (log s) = None → chosen (log s) !! (applied (log s) + 1) = None →
  applied (log s) < two64 - 1 →
  env_ctx_err (env 0%nat) = false → env_learned (env 0%nat) = [] →
  (∀ r, Some r ∈ env_prepares (env 0%nat) → Promised r = true ∧ AcceptedValue r = None) →
  let cfg := paxos_config Unmarshal dcfg noop in
  (majority cfg ≤ promises (collect_prepares (env_prepares (env 0%nat))))%nat →
  (majority cfg ≤ (collect_accepts (env_accepts (env 0%nat))).1)%nat →
  ∃ s' info, Join Marshal Unmarshal now cfg env s (Some n) = (s', Ok (Directory.Ring (server_sm s'))) ∧
    members (server_sm s') !! NodeId n = Some info ∧ Addr info = Addr n ∧
    (∀ id, id ≠ NodeId n → members (server_sm s') !! id = members (server_sm s) !! id).
Proof.
  intros Hid Hadr Hm Hn Hn1 Hlt Hctx Hlearn Hfresh cfg Hp Ha.
  destruct (Submit_quiet (apply_both Unmarshal now) cfg env s raw Hn Hctx Hlearn
    (commandsEqual_refl _ _ Hm) Hfresh Hp Ha) as [_ Hs].
  destruct (Commit_next (apply_both Unmarshal now) (log s) raw Hn Hn1 Hlt) as (_ & Happ & _).
  destruct (apply_join (applied (log s)) n raw (server_sm s)) as (info & Hi & Hia & Ho);
    [by apply Hcodec|].
  unfold Join, submit. rewrite Hm, Hs, decide_False by naive_solver.
  set (s' := MkNode _ _).
  assert (server_sm s' = apply_sm (applied (log s)) raw (server_sm s)) as Hsm.
  { unfold server_sm. simpl. by rewrite Happ, apply_both_sm. }
  exists s', info. rewrite Hsm. unfold HasMember. rewrite Hi. done.
Qed.
End wire.

(** ** The failure detector *)
Definition suspecting (answers : list (option bool)) : nat :=
  length (filter (λ a, a = Some true) answers).

Lemma quorumSuspects_spec answers :
  quorumSuspects answers = true ↔ (length answers + 1 < 2 * (suspecting answers + 1))%nat.
Proof.
  unfold quorumSuspects, suspecting.
  assert (∀ n, foldl (λ n a, match a with Some true => n + 1 | _ => n end)%nat n answers =
    (n + length (filter (λ a, a = Some true) answers))%nat) as ->.
  { induction answers as [|a answers IH]; intros n; simpl; [lia|].
    rewrite filter_cons. destruct a as [[]|]; simpl; rewrite IH; simpl; lia. }
  rewrite Nat.ltb_lt. split; intros H.
  - pose proof (Nat.div_mod_eq (length answers + 1) 2).
    pose proof (Nat.mod_upper_bound (length answers + 1) 2). lia.
  - apply Nat.Div0.div_lt_upper_bound. lia.
Qed.

(** A heartbeat within [DeadAfter] keeps a member alive. *)
Lemma fresh_not_expired h id t last :
  las h !! id = Some last → (0 ≤ DeadAfter h ≤ 9223372036854775807)%Z →
  (t - last ≤ DeadAfter h)%Z → expired h id t = false.
Proof. intros Hl Hd Ht. unfold expired, time_Sub. rewrite Hl. lia. Qed.

Lemma detector_loop_quiet now cfg t answers env ids s :
  (∀ id, id ∈ ids → expired (server_hb s) id t = true → quorumSuspects (answers id) = false) →
  detector_loop Marshal Unmarshal now cfg t answers env ids s = s.
Proof.
  induction ids as [|id ids IH]; intros Hq; simpl; [done|].
  destruct (expired (server_hb s) id t) eqn:He; simpl; [|apply IH; set_solver].
  rewrite Hq by (set_solver || done). simpl. apply IH. set_solver.
Qed.

(** C28. One replica's network blip cannot evict a healthy node: a tick of the
    failure detector proposes nothing, and leaves the replica as it is, when every
    member it tracks was either heard within [DeadAfter] or is suspected by at
    most half of the replicas, the detecting one included. *)
Theorem detector_needs_majority now cfg t answers env s :
  (0 ≤ DeadAfter (server_hb s) ≤ 9223372036854775807)%Z →
  (∀ id last, id ∈ Members (server_sm s) → las (server_hb s) !! id = Some last →
     (t - last ≤ DeadAfter (server_hb s))%Z ∨
     (2 * (suspecting (answers id) + 1) ≤ length (answers id) + 1)%nat) →
  detector_tick Marshal Unmarshal now cfg t answers env s = s.
Proof.
  intros Hd Hall. apply detector_loop_quiet. intros id Hid He.
  destruct (las (server_hb s) !! id) as [last|] eqn:Hl;
    [|unfold expired in He; by rewrite Hl in He].
  destruct (Hall id last Hid Hl) as [Hfresh|Hfew].
  - by rewrite (fresh_not_expired _ _ _ _ Hl Hd Hfresh) in He.
  - apply not_true_is_false. rewrite quorumSuspects_spec. lia.
Qed.

(** ** WatchRing

    One serving goroutine of [WatchRing] next to everything else that touches the
    state machine: log application, which changes the state under the mutex and
    then signals the watchers one by one ([w_todo] are those left), and other
    watchers coming, going and consuming their signals.  The log lock allows one
    application at a time. *)
Inductive pc := Sending | Waiting.
Record wstate := MkW {
  w_sm : StateMachine; w_todo : gset N; w_pc : pc; w_last : N; w_sent : list pmv1.Ring
}.

Definition set_chan (sm : StateMachine) (c : N) (p : bool) : StateMachine :=
  MkSM (epoch sm) (members sm) (watch sm) (<[c := p]> (chans sm)).
Definition watch_start (sm : StateMachine) : N * wstate :=
  let '(ch, sm) := Subscribe sm in (ch, MkW sm ∅ Sending 0 []).

Inductive wstep (ch : N) : wstate → wstate → Prop :=
| ws_apply w slot raw :
    w_todo w = ∅ →
    wstep ch w (MkW (apply_locked Unmarshal slot raw (w_sm w)).1.1
                    (apply_locked Unmarshal slot raw (w_sm w)).2 (w_pc w) (w_last w) (w_sent w))
| ws_signal w c :
    c ∈ w_todo w →
    wstep ch w (MkW (signal (w_sm w) c) (w_todo w ∖ {[c]}) (w_pc w) (w_last w) (w_sent w))
| ws_subscribe w :
    wstep ch w (MkW (Subscribe (w_sm w)).2 (w_todo w) (w_pc w) (w_last w) (w_sent w))
| ws_unsubscribe w c :
    c ≠ ch → wstep ch w (MkW (Unsubscribe c (w_sm w)) (w_todo w) (w_pc w) (w_last w) (w_sent w))
| ws_other_recv w c :
    c ≠ ch → wstep ch w (MkW (set_chan (w_sm w) c false) (w_todo w) (w_pc w) (w_last w) (w_sent w))
| ws_recv w :
    w_pc w = Waiting → chans (w_sm w) !! ch = Some true →
    wstep ch w (MkW (set_chan (w_sm w) ch false) (w_todo w) Sending (w_last w) (w_sent w))
| ws_send w last sent :
    w_pc w = Sending → watch_send (w_last w) (w_sm w) = (last, sent) →
    wstep ch w (MkW (w_sm w) (w_todo w) Waiting last (w_sent w ++ option_list sent)).

Inductive wreach (ch : N) (w0 : wstate) : nat → wstate → Prop :=
| wreach_init : wreach ch w0 0 w0
| wreach_step k w w' : wreach ch w0 k w → wstep ch w w' → wreach ch w0 (Datatypes.S k) w'.

(** [due]: a signal is in the channel or about to be sent. *)
Definition due (ch : N) (w : wstate) : Prop :=
  chans (w_sm w) !! ch = Some true ∨ ch ∈ w_todo w.

Record watch_inv (ch bound : N) (w : wstate) : Prop := {
  wi_reg : ch ∈ watch (w_sm w);
  wi_epoch : epoch (w_sm w) ≤ bound;
  wi_chan : is_Some (chans (w_sm w) !! ch);
  wi_due : due ch w → 0 < epoch (w_sm w);
  wi_wait : w_pc w = Waiting → due ch w ∨ w_last w = epoch (w_sm w);
  wi_last : w_last w ≤ epoch (w_sm w);
  wi_sorted : StronglySorted N.lt (ring_Epoch <$> w_sent w);
  wi_sent : (w_sent w = [] ∧ w_last w = 0 ∧ w_pc w = Sending) ∨
    (ring_Epoch <$> last (w_sent w) = Some (w_last w) ∧ (w_pc w = Sending → 0 < epoch (w_sm w)))
}.

(** Steps that touch neither the epoch nor this watcher's channel. *)
Lemma watch_inv_other ch bound w sm :
  watch_inv ch bound w → ch ∈ watch sm → epoch sm = epoch (w_sm w) →
  chans sm !! ch = chans (w_sm w) !! ch →
  watch_inv ch (bound + 1) (MkW sm (w_todo w) (w_pc w) (w_last w) (w_sent w)).
Proof.
  intros [H1 H2 H3 H4 H5 H6 H7 H8] Hin He Hc. unfold due in *.
  split; unfold due; simpl; rewrite ?He, ?Hc; try done. lia.
Qed.

Lemma watch_inv_apply ch bound w slot raw :
  watch_inv ch bound w → bound < two64 - 1 → w_todo w = ∅ →
  watch_inv ch (bound + 1) (MkW (apply_locked Unmarshal slot raw (w_sm w)).1.1
    (apply_locked Unmarshal slot raw (w_sm w)).2 (w_pc w) (w_last w) (w_sent w)).
Proof.
  intros Hi Hb Htodo. destruct (apply_locked_cases slot raw (w_sm w)) as [[-> ->]|(ms & -> & _ & ->)].
  { rewrite <-Htodo. by apply watch_inv_other; [|apply Hi|..]. }
  destruct Hi as [H1 H2 H3 H4 H5 H6 H7 H8]. unfold due in *.
  split; unfold due; simpl; rewrite ?u64_small by lia; try done; try lia.
  - intros _. left. by right.
  - destruct H8 as [?|[? ?]]; [by left|right]. split; [done|]. lia.
Qed.

Lemma watch_inv_signal ch bound w c :
  watch_inv ch bound w → c ∈ w_todo w →
  watch_inv ch (bound + 1) (MkW (signal (w_sm w) c) (w_todo w ∖ {[c]}) (w_pc w) (w_last w) (w_sent w)).
Proof.
  intros [H1 H2 H3 H4 H5 H6 H7 H8] Hc.
  assert (due ch (MkW (signal (w_sm w) c) (w_todo w ∖ {[c]}) (w_pc w) (w_last w) (w_sent w)) ↔ due ch w) as Hdue.
  { unfold due. simpl. destruct (decide (ch = c)) as [->|Hne]; [rewrite lookup_insert_eq; set_solver|].
    rewrite lookup_insert_ne by done. set_solver. }
  split; rewrite ?Hdue; simpl; try done; [lia|].
  destruct (decide (ch = c)) as [->|]; [by rewrite lookup_insert_eq|by rewrite lookup_insert_ne].
Qed.

Lemma watch_inv_send ch bound w last sent :
  watch_inv ch bound w → w_pc w = Sending → watch_send (w_last w) (w_sm w) = (last, sent) →
  watch_inv ch (bound + 1) (MkW (w_sm w) (w_todo w) Waiting last (w_sent w ++ option_list sent)).
Proof.
  intros [H1 H2 H3 H4 H5 H6 H7 H8] Hpc. unfold watch_send, due in *. simpl.
  destruct (N.eqb_spec (epoch (w_sm w)) (w_last w)) as [He|He];
    destruct (N.eqb_spec (w_last w) 0) as [Hz|Hz]; simpl; intros [= <- <-]; simpl.
  2: { rewrite app_nil_r. split; unfold due; simpl; auto; [lia|].
       destruct H8 as [(_ & ? & _)|[? ?]]; [done|right]. by split. }
  all: split; unfold due; simpl; auto; try lia; [|right; rewrite last_snoc; by split].
  all: rewrite fmap_app; apply StronglySorted_snoc; [done|]; intros x Hx; rewrite fmap_last in Hx;
    destruct H8 as [(Hn & _)|[Hl Hs]]; [rewrite Hn in Hx; done|].
  all: rewrite Hl in Hx; injection Hx as <-; specialize (Hs Hpc); simpl; lia.
Qed.

Lemma watch_inv_step ch bound w w' :
  watch_inv ch bound w → bound < two64 - 1 → wstep ch w w' → watch_inv ch (bound + 1) w'.
Proof.
  intros Hi Hb Hs. pose proof Hi as [H1 H2 H3 H4 H5 H6 H7 H8].
  destruct Hs as [w slot raw Ht|w c Hc|w|w c Hc|w c Hc|w Hpc Hch|w last sent Hpc Hsend].
  - by apply watch_inv_apply.
  - by apply watch_inv_signal.
  - apply watch_inv_other; simpl; [done|set_solver|done|].
    rewrite lookup_insert_ne; [done|]. intros Hf.
    apply (is_fresh (dom (chans (w_sm w)))). rewrite Hf. by apply elem_of_dom.
  - apply watch_inv_other; simpl; [done|set_solver|done|done].
  - apply watch_inv_other; simpl; [done|done|done|]. by rewrite lookup_insert_ne.
  - assert (0 < epoch (w_sm w)) as He by (apply H4; by left).
    split; unfold due; simpl; rewrite ?lookup_insert_eq; try done; [lia|].
    destruct H8 as [(_ & _ & ?)|[? ?]]; [congruence|by right].
  - by eapply watch_inv_send.
Qed.

Lemma watch_inv_reach sm k w :
  epoch sm + N.of_nat k < two64 - 1 →
  wreach (watch_start sm).1 (watch_start sm).2 k w →
  watch_inv (watch_start sm).1 (epoch sm + N.of_nat k) w.
Proof.
  intros Hk. induction 1 as [|k w w' Hr IH Hs].
  - split; unfold due; simpl; rewrite ?lookup_insert_eq; try done;
      [set_solver|lia|intros [?|?]; [done|set_solver]|lia|constructor|by left].
  - replace (epoch sm + N.of_nat (Datatypes.S k)) with (epoch sm + N.of_nat k + 1) by lia.
    eapply watch_inv_step; [apply IH; lia|lia|done].
Qed.

(** C29. The ring stream loses no update and repeats none: however log
    application and other watchers interleave with it, the epochs sent on one
    stream strictly increase, and when the stream is waiting and no signal is
    pending or about to be sent, the last ring it sent is at the current epoch. *)
Theorem watch_stream_current sm k w :
  epoch sm + N.of_nat k < two64 - 1 →
  wreach (watch_start sm).1 (watch_start sm).2 k w →
  StronglySorted N.lt (ring_Epoch <$> w_sent w) ∧
  (w_pc w = Waiting → ¬ due (watch_start sm).1 w →
   ring_Epoch <$> last (w_sent w) = Some (epoch (w_sm w))).
Proof.
  intros Hk Hr. destruct (watch_inv_reach sm k w Hk Hr) as [_ _ _ _ Hw _ Hs Hsent].
  split; [done|]. intros Hpc Hno.
  destruct (Hw Hpc) as [?|<-]; [done|].
  destruct Hsent as [(_ & _ & ?)|[? _]]; [congruence|done].
Qed.
End codec.

(** ** Witnesses: a small concrete codec for the commands of the directory *)
Definition demo_Marshal (c : ClusterCommand) : option bytes :=
  match c with
  | NodeJoin (MkNodeInfo id addr 0) =>
      if decide (length (string_bytes id) < 256)%nat
      then Some (x01 :: byte_of (N.of_nat (length (string_bytes id))) ::
                 string_bytes id ++ string_bytes addr)
      else None
  | NodeLeave id => Some (x02 :: string_bytes id)
  | NodeDead id => Some (x03 :: string_bytes id)
  | Noop true => Some [x06]
  | _ => None
  end.
Definition demo_Unmarshal (b : bytes) : option ClusterCommand :=
  match b with
  | x01 :: n :: b =>
      let k := N.to_nat (Byte.to_N n) in
      Some (NodeJoin (MkNodeInfo (bytes_string (take k b)) (bytes_string (drop k b)) 0))
  | x02 :: b => Some (NodeLeave (bytes_string b))
  | x03 :: b => Some (NodeDead (bytes_string b))
  | [x06] => Some (Noop true)
  | _ => None
  end.

Lemma demo_codec c b : demo_Marshal c = Some b → demo_Unmarshal b = Some c.
Proof.
  destruct c as [[id addr [|]]|id|id|?|?|[]|]; simpl; try done.
  - destruct (decide _) as [Hlen|]; [|done]. intros [= <-]. simpl.
    rewrite to_N_byte_of. unfold u8. rewrite N.mod_small, Nat2N.id by lia.
    by rewrite take_app_length, drop_app_length, !bytes_string_bytes.
  - intros [= <-]. simpl. by rewrite bytes_string_bytes.
  - intros [= <-]. simpl. by rewrite bytes_string_bytes.
  - by intros [= <-].
Qed.

Definition demo_info : NodeInfo := MkNodeInfo "cn-1" "a:1" 0.
Definition demo_raw : bytes := default [] (demo_Marshal (NodeJoin demo_info)).
Definition demo_sm : StateMachine := Directory.apply_sm demo_Unmarshal 0 demo_raw NewStateMachine.

Lemma apply_epoch_tracks_members_witness :
  epoch demo_sm = 1 ∧
  Directory.apply_sm demo_Unmarshal 7 demo_raw demo_sm = demo_sm.
Proof.
  split; [vm_compute; reflexivity|].
  apply (apply_epoch_tracks_members demo_Unmarshal 0 7 demo_raw NewStateMachine).
  vm_compute. reflexivity.
Defined.

(** The run of two replicas that choose, apply and learn the join of slot 0. *)
Abbreviation demo_dir_end := (d12 (Directory.apply_sm demo_Unmarshal) NewStateMachine demo_raw).

Lemma demo_observed n :
  observed demo_Unmarshal demo_replicas [x06] demo_dir_end n
    (replica_sm demo_dir_end n) (applied (r_log (nodes demo_dir_end n))).
Proof.
  exists 12%nat, demo_dir_end, 0%nat.
  split_and!; [apply demo_run|apply steps_refl|vm_compute; reflexivity|done|done].
Qed.

Lemma epoch_determines_members_witness :
  epoch (replica_sm demo_dir_end "r1") = 1 ∧
  members (replica_sm demo_dir_end "r1") = members (replica_sm demo_dir_end "r2").
Proof.
  split; [vm_compute; reflexivity|].
  apply (epoch_determines_members demo_Unmarshal demo_replicas (proj1 demo_replicas_ok)
    (proj2 demo_replicas_ok) [x06] demo_dir_end "r1" _ _ "r2" _ _
    (demo_observed "r1") (demo_observed "r2")).
  vm_compute. reflexivity.
Defined.

Lemma transport_implements_network_witness :
  ∃ v', demo_Unmarshal v' = Some (NodeLeave "x") ∧
    Accept NewAcceptor 0 256 (Some v') =
      (MkAcceptReply true 256, {[0 := AcceptorSlot 256 256 (Some [x02; x78])]}).
Proof.
  destruct (transport_implements_network demo_Marshal demo_Unmarshal demo_codec
    (λ _ (v x : bytes), x ++ v) "r1" "r2" 0 256 [x02; x78] NewAcceptor (NewLog []))
    as (_ & _ & (v' & Hv & Ha) & _).
  exists v'. split; [exact Hv|]. rewrite Ha. vm_compute. reflexivity.
Defined.

Definition demo_dcfg : Directory.Config := Directory.MkConfig "r1" {["r2" := "h2:1"; "r3" := "h3:1"]}.
Definition demo_server : node := MkNode 0 (NewLog (NewStateMachine, newHBTracker 1500000000)).

Lemma join_quiet_witness :
  ∃ s' info, Join demo_Marshal demo_Unmarshal (λ _, 0%Z) (paxos_config demo_Unmarshal demo_dcfg [x06])
      demo_env demo_server (Some demo_info) = (s', Ok (Directory.Ring (server_sm s'))) ∧
    members (server_sm s') !! "cn-1" = Some info ∧ Addr info = "a:1".
Proof.
  destruct (join_quiet demo_Marshal demo_Unmarshal demo_codec (λ _, 0%Z) demo_dcfg [x06] demo_env
    demo_server demo_info demo_raw) as (s' & info & H1 & H2 & H3 & _).
  - discriminate.
  - discriminate.
  - vm_compute. reflexivity.
  - reflexivity.
  - reflexivity.
  - vm_compute. reflexivity.
  - reflexivity.
  - reflexivity.
  - intros r. simpl. set_solver.
  - vm_compute. lia.
  - vm_compute. lia.
  - exists s', info. split_and!; done.
Defined.

(** A member that only this replica stopped hearing. *)
Definition demo_stale : node :=
  MkNode 0 (MkLog ∅ 0 0 (demo_sm, MkHB 1500000000 {["cn-1" := 0%Z]})).

Lemma detector_needs_majority_witness :
  expired (server_hb demo_stale) "cn-1" 9000000000 = true ∧
  detector_tick demo_Marshal demo_Unmarshal (λ _, 0%Z) (paxos_config demo_Unmarshal demo_dcfg [x06])
    9000000000 (λ _, [Some false; None]) (λ _, demo_env) demo_stale = demo_stale.
Proof.
  split; [vm_compute; reflexivity|]. apply detector_needs_majority.
  - vm_compute. split; discriminate.
  - intros id last _ _. right. vm_compute. lia.
Defined.

Lemma watch_stream_current_witness :
  let '(ch, w0) := watch_start demo_sm in
  let w1 := MkW (w_sm w0) ∅ Waiting 1 [Directory.Ring demo_sm] in
  wreach demo_Unmarshal ch w0 1 w1 ∧ ring_Epoch <$> last (w_sent w1) = Some (epoch (w_sm w1)).
Proof.
  assert (wreach demo_Unmarshal (watch_start demo_sm).1 (watch_start demo_sm).2 1
    (MkW (w_sm (watch_start demo_sm).2) ∅ Waiting 1 [Directory.Ring demo_sm])) as H.
  { eapply wreach_step; [apply wreach_init|].
    apply (ws_send _ _ (watch_start demo_sm).2 1 (Some (Directory.Ring demo_sm)));
      vm_compute; reflexivity. }
  split; [exact H|].
  refine (proj2 (watch_stream_current demo_Unmarshal demo_sm 1 _ _ H) _ _); [vm_compute; reflexivity..|].
  intros [Hp|Hp]; [vm_compute in Hp; discriminate|by apply elem_of_empty in Hp].
Defined.
End DirectoryProps.
