(* ===== verification/Replica.v ===== *)
(** * One directory replica under all its operations

    A replica serves RPCs from the fleet and from its peers while its background loops
    run (src/internal/directory/{server,monitor}.go, [RunGapFiller] of
    src/internal/paxos/node.go).  Every handler and every iteration of a loop is one
    step; [replica_run] takes them in any order.  The log's application state is more
    than the replayed commands (heartbeats, subscriptions), so the invariant speaks of
    its [core], epoch and members, along which every operation of the log projects. *)

From S2P Require Import Prelude Proto Paxos PaxosLog Directory DirectoryProps.

Module Replica.
Import Paxos PaxosLog pmv1 Directory DirectoryProps.
Local Open Scope N_scope.

(** ** Projecting a log along a map of its application state *)
Section project.
Context {S T : Type} (f : S → T) (apply : N → bytes → S → S) (apply' : N → bytes → T → T).
Context (Hf : ∀ slot raw s, f (apply slot raw s) = apply' slot raw (f s)).

Definition log_map (l : Log S) : Log T := MkLog (chosen l) (applied l) (maxSeen l) (f (app l)).
Definition node_map (n : node (S := S)) : node (S := T) := MkNode (round n) (log_map (log n)).

Lemma log_map_apply_loop fuel l : log_map (apply_loop apply fuel l) = apply_loop apply' fuel (log_map l).
Proof.
  revert l. induction fuel as [|fuel IH]; intros l; simpl; [done|].
  destruct (chosen l !! applied l) as [v|]; [|done]. rewrite IH. unfold log_map. simpl. by rewrite Hf.
Qed.

Lemma log_map_Commit slot v l : log_map (Commit apply slot v l) = Commit apply' slot v (log_map l).
Proof. unfold Commit. simpl. destruct (chosen l !! slot); [done|]. apply log_map_apply_loop. Qed.

Lemma log_map_learn_all ls l : log_map (learn_all apply ls l) = learn_all apply' ls (log_map l).
Proof. revert l. induction ls as [|[s v] ls IH]; intros l; simpl; [done|]. by rewrite IH, log_map_Commit. Qed.

Context (cfg : Paxos.Config).
Lemma node_map_runSlot env n slot v :
  let '(n', r) := runSlot apply cfg env n slot v in
  runSlot apply' cfg env (node_map n) slot v = (node_map n', r).
Proof.
  unfold runSlot, node_map. simpl. rewrite <-log_map_learn_all.
  destruct (phase1_end _ _ _); [|done]. destruct (phase2_end _ _); [|done]. by rewrite <-log_map_Commit.
Qed.

Lemma node_map_submit_loop k a env n v :
  let '(n', r) := submit_loop apply cfg k a env n v in
  submit_loop apply' cfg k a env (node_map n) v = (node_map n', r).
Proof.
  revert a n. induction k as [|k IH]; intros a n; cbn [submit_loop]; [done|].
  destruct (env_ctx_err (env a)); [done|]. change (FirstUnchosen (log (node_map n))) with (FirstUnchosen (log n)).
  pose proof (node_map_runSlot (env a) n (FirstUnchosen (log n)) v) as Hr.
  destruct (runSlot apply _ _ _ _ _) as [n1 [p|]]; rewrite Hr; [|apply IH].
  destruct (Equal cfg p v); [done|apply IH].
Qed.

Lemma node_map_Submit env n v :
  let '(n', r) := Submit apply cfg env n v in Submit apply' cfg env (node_map n) v = (node_map n', r).
Proof. apply node_map_submit_loop. Qed.
End project.

(** ** Any run of [Submit] keeps the log's invariant *)
Section submit.
Context {S : Type} (apply : N → bytes → S → S) (s0 : S) (cfg : Paxos.Config).

(** What one call may add to the log: one slot per attempt and the messages learned
    meanwhile. *)
Definition submit_weight (env : nat → attempt_env) : nat := learned_total env 0 20 + 20.
Definition env_ok (env : nat → attempt_env) : Prop :=
  ∀ i s v, (s, v) ∈ env_learned (env i) → s < two64 - 1.

(** The log only grows. *)
Definition log_le (l l' : Log S) : Prop := chosen l ⊆ chosen l' ∧ applied l ≤ applied l'.
#[global] Instance log_le_preorder : PreOrder log_le.
Proof.
  split; [intros l; split; [done|lia]|]. intros l1 l2 l3 [H1 H2] [H3 H4]. split; [by etrans|lia].
Qed.

Lemma learn_all_le ls l :
  log_inv apply s0 l → (∀ s v, (s, v) ∈ ls → s < two64 - 1) →
  log_inv apply s0 (learn_all apply ls l) ∧ log_le l (learn_all apply ls l) ∧
  (size (chosen (learn_all apply ls l)) ≤ size (chosen l) + length ls)%nat.
Proof.
  intros Hinv Hls. destruct (learn_all_spec apply s0 ls l Hinv Hls) as (H1 & H2 & H3 & H4 & _).
  split_and!; [done| |done]. split; [|done]. apply map_subseteq_spec. auto.
Qed.

Lemma runSlot_le env n slot v :
  log_inv apply s0 (log n) → slot < two64 - 1 → (∀ s v, (s, v) ∈ env_learned env → s < two64 - 1) →
  let n' := (runSlot apply cfg env n slot v).1 in
  log_inv apply s0 (log n') ∧ log_le (log n) (log n') ∧
  (size (chosen (log n')) ≤ size (chosen (log n)) + length (env_learned env) + 1)%nat.
Proof.
  intros Hinv Hslot Hls. unfold runSlot.
  destruct (learn_all_le _ _ Hinv Hls) as (H1 & H2 & H3). set (l := learn_all _ _ _) in *.
  destruct (phase1_end _ _ _) as [p|]; simpl; [|split_and!; [done|done|lia]].
  destruct (phase2_end _ _); simpl; [|split_and!; [done|done|lia]].
  destruct (Commit_spec apply s0 l slot p H1 Hslot) as (C1 & C2 & C3). split_and!; [done| |].
  - etrans; [exact H2|]. split; [apply Commit_keeps|done].
  - rewrite C2. destruct (chosen l !! slot) eqn:E; [lia|]. rewrite map_size_insert_None by done. lia.
Qed.

Lemma submit_loop_le k a env n v :
  log_inv apply s0 (log n) → env_ok env →
  N.of_nat (size (chosen (log n)) + learned_total env a k + k) < two64 - 1 →
  let n' := (submit_loop apply cfg k a env n v).1 in
  log_inv apply s0 (log n') ∧ log_le (log n) (log n') ∧
  (size (chosen (log n')) ≤ size (chosen (log n)) + learned_total env a k + k)%nat.
Proof.
  intros Hinv Hok. revert a n Hinv. induction k as [|k IH]; intros a n Hinv Hsz; cbn [submit_loop].
  { split_and!; [done|done|simpl; lia]. }
  destruct (env_ctx_err (env a)); [split_and!; [done|done|simpl; lia]|].
  assert (learned_total env a (Datatypes.S k) =
    length (env_learned (env a)) + learned_total env (Datatypes.S a) k)%nat as Hl by done.
  rewrite Hl in *. rewrite (FirstUnchosen_applied apply s0) by done. pose proof (applied_le_size _ _ _ Hinv) as Hle.
  destruct (runSlot_le (env a) n (applied (log n)) v Hinv) as (H1 & H2 & H3); [lia|by intros; eapply Hok|].
  destruct (runSlot _ _ _ _ _ _) as [n1 res]. cbn [fst] in *.
  assert (∀ n', log_inv apply s0 (log n') ∧ log_le (log n1) (log n') ∧
    (size (chosen (log n')) ≤ size (chosen (log n1)) + learned_total env (Datatypes.S a) k + k)%nat →
    log_inv apply s0 (log n') ∧ log_le (log n) (log n') ∧
    (size (chosen (log n')) ≤ size (chosen (log n)) + (length (env_learned (env a)) + learned_total env (Datatypes.S a) k) + Datatypes.S k)%nat) as Hcat.
  { intros n' (? & ? & ?). split_and!; [done|by etrans|lia]. }
  destruct res as [p|]; [|apply Hcat, IH; [done|lia]].
  destruct (Equal cfg p v); [|apply Hcat, IH; [done|lia]]. apply Hcat. split_and!; [done|done|simpl; lia].
Qed.

Lemma Submit_le env n v :
  log_inv apply s0 (log n) → env_ok env → N.of_nat (size (chosen (log n)) + submit_weight env) < two64 - 1 →
  let n' := (Submit apply cfg env n v).1 in
  log_inv apply s0 (log n') ∧ log_le (log n) (log n') ∧
  (size (chosen (log n')) ≤ size (chosen (log n)) + submit_weight env)%nat.
Proof.
  intros Hinv Hok Hsz. unfold submit_weight in *.
  destruct (submit_loop_le 20 0 env n v Hinv Hok) as (H1 & H2 & H3); [lia|]. split_and!; [done|done|].
  unfold Submit. lia.
Qed.
End submit.

(** ** The replica *)
Section replica.
Context (Marshal : ClusterCommand → option bytes) (Unmarshal : bytes → option ClusterCommand).
Context (now : N → Z) (cfg : Paxos.Config).
Abbreviation server := (node (S := StateMachine * hbTracker)).

Record replica := MkReplica { rep_server : server; rep_acc : Acceptor }.

(** What reaches a replica: calls of the fleet, of a peer, and iterations of its two
    loops.  A proposal of the replica itself reaches its own acceptor and log without
    an RPC (the [peer == t.self] branches of the transport): [RSelfPrepare],
    [RSelfAccept] and [RSelfLearn], with any arguments and at any time, since the
    proposer's goroutines run beside every other call.  What the proposer got back is
    in the environment of the operation that submitted.  [RDetect] is the body of the failure detector's loop for one member of its
    snapshot; the ring streams subscribe, take signals and unsubscribe. *)
Inductive replica_op :=
| RJoin (env : nat → attempt_env) (req : option NodeInfo)
| RLeave (env : nat → attempt_env) (id : string)
| RHeartbeat (t : Z) (id : string)
| RSubscribe
| RTakeSignal (ch : N)
| RUnsubscribe (ch : N)
| RSelfPrepare (slot b : N)
| RSelfAccept (slot b : N) (v : option bytes)
| RSelfLearn (slot : N) (v : bytes)
| RPrepare (req : PrepareRequest)
| RAccept (req : AcceptRequest)
| RLearn (req : LearnRequest)
| RGapTick (env : nat → attempt_env)
| RDetect (t : Z) (id : string) (answers : list (option bool)) (env : nat → attempt_env).

Definition set_sm (g : StateMachine → StateMachine) (s : server) : server :=
  MkNode (round s)
    (MkLog (chosen (log s)) (applied (log s)) (maxSeen (log s)) (g (server_sm s), server_hb s)).

(** One iteration of the detector's loop over the members. *)
Definition detect_one (t : Z) (id : string) (answers : list (option bool)) (env : nat → attempt_env)
    (s : server) : server :=
  detector_loop Marshal Unmarshal now cfg t (λ _, answers) (λ _, env) [id] s.

Definition replica_step (o : replica_op) (r : replica) : replica :=
  let '(MkReplica s a) := r in
  match o with
  | RJoin env req => MkReplica (Join Marshal Unmarshal now cfg env s req).1 a
  | RLeave env id => MkReplica (Leave Marshal Unmarshal now cfg env s id).1 a
  | RHeartbeat t id => MkReplica (Heartbeat t s id) a
  | RSubscribe => MkReplica (set_sm (λ sm, (Subscribe sm).2) s) a
  | RTakeSignal ch => MkReplica (set_sm (λ sm, set_chan sm ch false) s) a
  | RUnsubscribe ch => MkReplica (set_sm (Unsubscribe ch) s) a
  | RSelfPrepare slot b => MkReplica s (Prepare a slot b).2
  | RSelfAccept slot b v => MkReplica s (Accept a slot b v).2
  | RSelfLearn slot v => MkReplica (MkNode (round s) (Commit (apply_both Unmarshal now) slot v (log s))) a
  | RPrepare req => MkReplica s (server_Prepare Unmarshal req a).2
  | RAccept req => MkReplica s (server_Accept Marshal req a).2
  | RLearn req =>
      MkReplica (MkNode (round s) (server_Learn Marshal (apply_both Unmarshal now) req (log s)).2) a
  | RGapTick env => MkReplica (gap_filler_tick (apply_both Unmarshal now) cfg env s) a
  | RDetect t id answers env => MkReplica (detect_one t id answers env s) a
  end.
Definition replica_run (ops : list replica_op) (r : replica) : replica :=
  foldl (λ r o, replica_step o r) r ops.

(** [directory.New]: an empty log, no heartbeats, nothing promised. *)
Definition boot (deadAfter : Z) : replica :=
  MkReplica (MkNode 0 (NewLog (NewStateMachine, newHBTracker deadAfter))) NewAcceptor.

(** How much an operation may add to the log; slots below the last one. *)
Definition op_weight (o : replica_op) : nat :=
  match o with
  | RJoin env _ | RLeave env _ | RGapTick env | RDetect _ _ _ env => submit_weight env
  | RLearn _ | RSelfLearn _ _ => 1
  | _ => 0
  end.
Definition op_ok (o : replica_op) : Prop :=
  match o with
  | RJoin env _ | RLeave env _ | RGapTick env | RDetect _ _ _ env => env_ok env
  | RLearn req => learn_Slot req < two64 - 1
  | RSelfLearn slot _ => slot < two64 - 1
  | _ => True
  end.
Definition run_weight (ops : list replica_op) : N := N.of_nat (sum_list (op_weight <$> ops)).

(** ** Epoch and members *)
Definition core (d : StateMachine * hbTracker) : N * gmap string NodeInfo := (epoch d.1, members d.1).
Definition apply_core (slot : N) (raw : bytes) (c : N * gmap string NodeInfo) : N * gmap string NodeInfo :=
  let sm := Directory.apply_sm Unmarshal slot raw (MkSM c.1 c.2 ∅ ∅) in (epoch sm, members sm).

Lemma apply_sm_core slot raw sm :
  (epoch (Directory.apply_sm Unmarshal slot raw sm), members (Directory.apply_sm Unmarshal slot raw sm)) =
  apply_core slot raw (epoch sm, members sm).
Proof.
  unfold apply_core. cbn [fst snd]. cbv zeta.
  destruct (apply_sm_locked Unmarshal slot raw sm) as [-> ->].
  destruct (apply_sm_locked Unmarshal slot raw (MkSM (epoch sm) (members sm) ∅ ∅)) as [-> ->].
  unfold apply_locked. cbn [members epoch fst snd]. destruct (Unmarshal raw); [|done].
  destruct (apply_cmd _ _) as [[ms|] js]; done.
Qed.

Lemma core_apply slot raw d : core (apply_both Unmarshal now slot raw d) = apply_core slot raw (core d).
Proof. unfold core at 1. rewrite apply_both_sm. apply apply_sm_core. Qed.

Lemma replay_core ch n :
  let sm := replay (Directory.apply_sm Unmarshal) NewStateMachine ch n in
  replay apply_core (0, ∅) ch n = (epoch sm, members sm).
Proof.
  induction n as [|n IH]; [done|]. cbn [replay]. destruct (ch !! N.of_nat n) as [v|]; [|done].
  cbv zeta in IH. rewrite IH. symmetry. apply apply_sm_core.
Qed.

(** ** The invariant *)
Abbreviation core_log s := (log_map core (log s)).
Definition replica_inv (s : server) : Prop := log_inv apply_core (0, ∅) (core_log s).

Lemma core_Commit slot v (l : Log (StateMachine * hbTracker)) :
  log_map core (Commit (apply_both Unmarshal now) slot v l) = Commit apply_core slot v (log_map core l).
Proof. apply log_map_Commit, core_apply. Qed.

(** A server step: the log grows by at most [w] and the invariant is kept. *)
Definition grows (w : nat) (s s' : server) : Prop :=
  replica_inv s' ∧ log_le (core_log s) (core_log s') ∧ (size (chosen (log s')) ≤ size (chosen (log s)) + w)%nat.

Lemma grows_same w s s' : replica_inv s → core_log s' = core_log s → grows w s s'.
Proof.
  intros Hinv Heq. split_and!; [unfold replica_inv; by rewrite Heq|by rewrite Heq|].
  assert (chosen (log s') = chosen (log s)) as -> by exact (f_equal chosen Heq). lia.
Qed.

Lemma Submit_grows env s v :
  replica_inv s → env_ok env → N.of_nat (size (chosen (log s)) + submit_weight env) < two64 - 1 →
  grows (submit_weight env) s (Submit (apply_both Unmarshal now) cfg env s v).1.
Proof.
  intros Hinv Hok Hsz. pose proof (node_map_Submit core _ apply_core core_apply cfg env s v) as Hmap.
  destruct (Submit_le apply_core (0, ∅) cfg env (node_map core s) v Hinv Hok Hsz) as (H1 & H2 & H3).
  destruct (Submit (apply_both _ _) _ _ _ _) as [s' r]. rewrite Hmap in *. done.
Qed.

Lemma submit_grows env s cmd :
  replica_inv s → env_ok env → N.of_nat (size (chosen (log s)) + submit_weight env) < two64 - 1 →
  grows (submit_weight env) s (submit Marshal Unmarshal now cfg env s cmd).1.
Proof.
  intros Hinv Hok Hsz. unfold submit. destruct (Marshal cmd) as [raw|]; [|by apply grows_same].
  pose proof (Submit_grows env s raw Hinv Hok Hsz) as Hg.
  by destruct (Submit _ _ _ _ _) as [s' [[]|]].
Qed.

Lemma Commit_grows slot v s :
  replica_inv s → slot < two64 - 1 →
  grows 1 s (MkNode (round s) (Commit (apply_both Unmarshal now) slot v (log s))).
Proof.
  intros Hinv Hslot. destruct (Commit_spec apply_core (0, ∅) (core_log s) slot v Hinv Hslot) as (C1 & C2 & C3).
  unfold grows, replica_inv. simpl. rewrite core_Commit. split_and!; [done|split; [apply Commit_keeps|done]|].
  change (chosen (Commit (apply_both Unmarshal now) ?x ?y ?z)) with
    (chosen (log_map core (Commit (apply_both Unmarshal now) x y z))). rewrite core_Commit, C2. simpl.
  destruct (chosen (log s) !! slot) eqn:E; [lia|]. rewrite map_size_insert_None by done. lia.
Qed.

Lemma step_grows o s a :
  replica_inv s → op_ok o → N.of_nat (size (chosen (log s)) + op_weight o) < two64 - 1 →
  grows (op_weight o) s (rep_server (replica_step o (MkReplica s a))).
Proof.
  intros Hinv Hok Hsz. destruct o as [env req|env id|t id| |ch|ch|slot b|slot b v|slot v|req|req|req|env|t id answers env];
    cbn [op_ok op_weight] in *; cbn [replica_step rep_server]; try (by apply grows_same).
  - unfold Join. destruct req as [n|]; [|by apply grows_same]. destruct (decide _); [by apply grows_same|].
    pose proof (submit_grows env s (NodeJoin n) Hinv Hok Hsz) as Hg.
    destruct (submit _ _ _ _ _ _ _) as [s' [[]|]]; [by destruct (HasMember _ _)|done].
  - unfold Leave. pose proof (submit_grows env s (NodeLeave id) Hinv Hok Hsz) as Hg.
    by destruct (submit _ _ _ _ _ _ _) as [s' [[]|]].
  - by apply Commit_grows.
  - unfold server_Learn. destruct (marshal_ptr _ _) as [raw|]; [by apply Commit_grows|by apply grows_same].
  - unfold gap_filler_tick. destruct (Gap _); [by apply Submit_grows|by apply grows_same].
  - unfold detect_one. cbn [detector_loop]. destruct (negb _); [by apply grows_same|].
    destruct (negb _); [by apply grows_same|]. by apply submit_grows.
Qed.

Lemma run_grows ops r :
  replica_inv (rep_server r) → Forall op_ok ops →
  N.of_nat (size (chosen (log (rep_server r)))) + run_weight ops < two64 - 1 →
  grows (sum_list (op_weight <$> ops)) (rep_server r) (rep_server (replica_run ops r)).
Proof.
  revert r. induction ops as [|o ops IH]; intros [s a] Hinv Hok Hsz; [by apply grows_same|].
  apply Forall_cons in Hok as [Ho Hok]. unfold run_weight in *.
  change (sum_list (op_weight <$> o :: ops)) with (op_weight o + sum_list (op_weight <$> ops))%nat in *.
  cbn [rep_server] in Hsz.
  destruct (step_grows o s a Hinv Ho) as (H1 & H2 & H3); [lia|].
  destruct (IH (replica_step o (MkReplica s a)) H1 Hok) as (H4 & H5 & H6); [lia|].
  split_and!; [done|by etrans|]. change (replica_run (o :: ops) ?r) with (replica_run ops (replica_step o r)).
  cbn [rep_server]. lia.
Qed.

(** ** The acceptor: promises and accepted ballots never go back *)
Definition acc_wf (a : Acceptor) : Prop := ∀ slot sl, a !! slot = Some sl → acceptedBallot sl ≤ promised sl.
Definition acc_le (a a' : Acceptor) : Prop :=
  ∀ slot sl, a !! slot = Some sl → ∃ sl', a' !! slot = Some sl' ∧
    promised sl ≤ promised sl' ∧ acceptedBallot sl ≤ acceptedBallot sl'.
#[global] Instance acc_le_preorder : PreOrder acc_le.
Proof.
  split; [intros a slot sl Hsl; exists sl; split; [done|lia]|].
  intros a1 a2 a3 H1 H2 slot sl Hsl. destruct (H1 slot sl Hsl) as (sl2 & Hsl2 & ? & ?).
  destruct (H2 slot sl2 Hsl2) as (sl3 & ? & ? & ?). exists sl3. split; [done|lia].
Qed.

Lemma acceptor_slot_le a slot :
  acc_wf a → let '(sl, a') := acceptor_slot a slot in
  acc_wf a' ∧ acc_le a a' ∧ a' !! slot = Some sl ∧ acceptedBallot sl ≤ promised sl.
Proof.
  intros Hwf. unfold acceptor_slot. destruct (a !! slot) as [sl|] eqn:Hsl; [by split_and!; eauto|].
  split_and!; [|intros slot' sl' Hsl'|by rewrite lookup_insert_eq|done].
  - intros slot' sl' [[<- <-]|[_ ?]]%lookup_insert_Some; [done|by eapply Hwf].
  - exists sl'. rewrite lookup_insert_ne by congruence. split; [done|lia].
Qed.

(** Raising one slot. *)
Lemma acc_insert_le a slot sl sl' :
  acc_wf a → a !! slot = Some sl → acceptedBallot sl' ≤ promised sl' →
  promised sl ≤ promised sl' → acceptedBallot sl ≤ acceptedBallot sl' →
  acc_wf (<[slot := sl']> a) ∧ acc_le a (<[slot := sl']> a).
Proof.
  intros Hwf Hsl Hsl' H1 H2. split.
  - intros s x [[<- <-]|[_ ?]]%lookup_insert_Some; [done|by eapply Hwf].
  - intros s x Hx. destruct (decide (s = slot)) as [->|Hne].
    + exists sl'. rewrite lookup_insert_eq. assert (x = sl) as -> by congruence. done.
    + exists x. rewrite lookup_insert_ne by done. split; [done|lia].
Qed.

Lemma Prepare_le a slot b : acc_wf a → let '(_, a') := Prepare a slot b in acc_wf a' ∧ acc_le a a'.
Proof.
  intros Hwf. unfold Prepare. pose proof (acceptor_slot_le a slot Hwf) as Hs.
  destruct (acceptor_slot a slot) as [sl a']. destruct Hs as (H1 & H2 & H3 & H4).
  destruct (N.ltb_spec (promised sl) b); [|done].
  destruct (acc_insert_le a' slot sl (AcceptorSlot b (acceptedBallot sl) (acceptedValue sl))); simpl; try done; try lia.
  split; [done|by etrans].
Qed.

Lemma Accept_le a slot b v : acc_wf a → let '(_, a') := Accept a slot b v in acc_wf a' ∧ acc_le a a'.
Proof.
  intros Hwf. unfold Accept. pose proof (acceptor_slot_le a slot Hwf) as Hs.
  destruct (acceptor_slot a slot) as [sl a']. destruct Hs as (H1 & H2 & H3 & H4).
  destruct (N.leb_spec (promised sl) b); [|done].
  destruct (acc_insert_le a' slot sl (AcceptorSlot b b v)); simpl; try done; try lia.
  split; [done|by etrans].
Qed.

Lemma step_acc_le o s a :
  acc_wf a → let r := replica_step o (MkReplica s a) in acc_wf (rep_acc r) ∧ acc_le a (rep_acc r).
Proof.
  intros Hwf. destruct o as [env req|env id|t id| |ch|ch|slot b|slot b v|slot v|req|req|req|env|t id answers env];
    try done; cbn.
  - pose proof (Prepare_le a slot b Hwf) as H. by destruct (Prepare _ _ _).
  - pose proof (Accept_le a slot b v Hwf) as H. by destruct (Accept _ _ _ _).
  - unfold server_Prepare. pose proof (Prepare_le a (prep_Slot req) (prep_Ballot req) Hwf) as H.
    destruct (Prepare _ _ _) as [r a']. by destruct (AcceptedValue r); [destruct (Unmarshal _)|].
  - unfold server_Accept. destruct (marshal_ptr _ _) as [raw|]; [|done].
    pose proof (Accept_le a (areq_Slot req) (areq_Ballot req) raw Hwf) as H. by destruct (Accept _ _ _ _).
Qed.

Lemma run_acc_le ops r :
  acc_wf (rep_acc r) → acc_wf (rep_acc (replica_run ops r)) ∧ acc_le (rep_acc r) (rep_acc (replica_run ops r)).
Proof.
  revert r. induction ops as [|o ops IH]; intros [s a] Hwf; [done|].
  destruct (step_acc_le o s a Hwf) as [H1 H2]. destruct (IH _ H1) as [H3 H4]. split; [done|by etrans].
Qed.

Lemma boot_inv dead : replica_inv (rep_server (boot dead)).
Proof. apply (NewLog_inv apply_core (0, ∅)). Qed.

(** The state machine of a replica is the replay of its log. *)
Lemma replica_inv_replay s :
  replica_inv s →
  let sm := replay (Directory.apply_sm Unmarshal) NewStateMachine (chosen (log s)) (N.to_nat (applied (log s))) in
  epoch (server_sm s) = epoch sm ∧ members (server_sm s) = members sm.
Proof.
  intros [[_ _ _ _ Happ] _]. cbn in Happ. rewrite replay_core in Happ. by injection Happ.
Qed.

(** C23. A replica stays well-formed under everything that can reach it, in any order:
    calls of the fleet, Paxos messages of its peers and of itself, ring streams and both background loops.  At
    every point its epoch and members are the replay of the log's applied prefix, all
    slots below [applied] are chosen and slot [applied] is not, and every member is
    filed under its own ID.  Nothing goes back: chosen values stay, [applied] and the
    epoch only grow, equal epochs mean equal members, and no slot's promise or
    accepted ballot decreases. *)
Theorem replica_well_formed dead ops1 ops2 :
  Forall op_ok (ops1 ++ ops2) → run_weight (ops1 ++ ops2) < two64 - 1 →
  let r1 := replica_run ops1 (boot dead) in
  let r2 := replica_run ops2 r1 in
  let s1 := rep_server r1 in let s2 := rep_server r2 in
  (let sm := replay (Directory.apply_sm Unmarshal) NewStateMachine (chosen (log s2)) (N.to_nat (applied (log s2))) in
   epoch (server_sm s2) = epoch sm ∧ members (server_sm s2) = members sm) ∧
  (∀ slot, slot < applied (log s2) → is_Some (chosen (log s2) !! slot)) ∧
  chosen (log s2) !! applied (log s2) = None ∧
  (∀ id info, members (server_sm s2) !! id = Some info → NodeId info = id) ∧
  chosen (log s1) ⊆ chosen (log s2) ∧ applied (log s1) ≤ applied (log s2) ∧
  epoch (server_sm s1) ≤ epoch (server_sm s2) ∧
  (epoch (server_sm s1) = epoch (server_sm s2) → members (server_sm s1) = members (server_sm s2)) ∧
  acc_wf (rep_acc r2) ∧ acc_le (rep_acc r1) (rep_acc r2).
Proof.
  intros [Hok1 Hok2]%Forall_app Hw r1 r2 s1 s2. unfold run_weight in Hw.
  rewrite fmap_app, sum_list_with_app in Hw.
  pose proof (boot_inv dead) as H0.
  assert (size (chosen (log (rep_server (boot dead)))) = 0%nat) as Hz by apply map_size_empty.
  destruct (run_grows ops1 (boot dead) H0 Hok1) as (I1 & _ & Z1); [unfold run_weight; rewrite Hz; lia|].
  fold r1 in I1, Z1. fold s1 in I1, Z1. rewrite Hz in Z1.
  destruct (run_grows ops2 r1 I1 Hok2) as (I2 & [L1 L2] & _); [unfold run_weight; fold s1; lia|].
  fold r2 in I2, L1, L2. fold s1 s2 in I2, L1, L2. cbn [log_map chosen applied] in L1, L2.
  destruct (run_acc_le ops1 (boot dead)) as [A1 _]; [intros slot sl Hsl; change ((∅ : Acceptor) !! slot = Some sl) in Hsl; by rewrite lookup_empty in Hsl|].
  destruct (run_acc_le ops2 r1 A1) as [A2 A3].
  destruct (replica_inv_replay s1 I1) as [E1 M1]. destruct (replica_inv_replay s2 I2) as [E2 M2].
  pose proof (applied_lt _ _ _ I2) as Hlt. cbn in Hlt. pose proof (li_pre _ _ _ I1) as P1. pose proof I2 as [P2 N2].
  assert (replay (Directory.apply_sm Unmarshal) NewStateMachine (chosen (log s1)) (N.to_nat (applied (log s1))) =
          replay (Directory.apply_sm Unmarshal) NewStateMachine (chosen (log s2)) (N.to_nat (applied (log s1)))) as Hre.
  { apply replay_ext. intros slot Hslot. destruct (lp_prefix _ _ _ P1 slot) as [v Hv]; [cbn; lia|]. cbn in Hv.
    rewrite Hv. symmetry. by eapply lookup_weaken. }
  destruct (replay_sm_mono Unmarshal (chosen (log s2)) (N.to_nat (applied (log s1))) (N.to_nat (applied (log s2)))) as [R1 R2];
    [lia|lia|].
  split_and!; try done.
  - apply (lp_prefix _ _ _ P2).
  - intros id info. rewrite M2. apply replay_sm_ids.
  - rewrite E1, E2, Hre. done.
  - rewrite E1, E2, M1, M2, Hre. exact R2.
Qed.
End replica.

(** A join and a leave of the replica itself, with Paxos traffic in between. *)
Lemma replica_well_formed_witness :
  let run := replica_run demo_Marshal demo_Unmarshal (λ _, 0%Z) (paxos_config demo_Unmarshal demo_dcfg [x06]) in
  let r1 := run [RJoin demo_env (Some demo_info); RSelfPrepare 5 6; RPrepare (MkPrepareRequest 5 7)] (boot 1500000000) in
  let r2 := run [RAccept (MkAcceptRequest 5 7 (Some (NodeLeave "x"))); RLearn (MkLearnRequest 1 (Some (NodeLeave "cn-1")))] r1 in
  epoch (server_sm (rep_server r1)) = 1 ∧ epoch (server_sm (rep_server r2)) = 2 ∧
  chosen (log (rep_server r2)) !! applied (log (rep_server r2)) = None ∧ acc_le (rep_acc r1) (rep_acc r2).
Proof.
  destruct (replica_well_formed demo_Marshal demo_Unmarshal (λ _, 0%Z) (paxos_config demo_Unmarshal demo_dcfg [x06])
    1500000000 [RJoin demo_env (Some demo_info); RSelfPrepare 5 6; RPrepare (MkPrepareRequest 5 7)]
    [RAccept (MkAcceptRequest 5 7 (Some (NodeLeave "x"))); RLearn (MkLearnRequest 1 (Some (NodeLeave "cn-1")))])
    as (_ & _ & H1 & _ & _ & _ & _ & _ & _ & H2).
  - repeat constructor. intros i s v. by intros ?%elem_of_nil.
  - vm_compute. reflexivity.
  - intros run r1 r2. split_and!; [vm_compute; reflexivity|vm_compute; reflexivity|exact H1|exact H2].
Defined.
End Replica.
