(* ===== verification/RingWatch.v ===== *)
(** * The fleet side of the control plane: src/internal/ringwatch/watcher.go

    A [Watcher] turns the rings it receives on a [WatchRing] stream into the hash
    ring that routes requests, and keeps one connection per member.  gRPC dialing
    is a parameter ([NewClient]).  [RingSource] is what the directory promises to
    the fleet; the theorems about watchers are proved against it and
    [directory_source] discharges it. *)

From S2P Require Import Prelude HashRing Proto Paxos PaxosLog PaxosNet PaxosSafety Directory DirectoryProps.

Module RingWatch.
Import pmv1.
Local Open Scope N_scope.

(** The [nodes] map that [apply] builds from a ring message. *)
Definition node_map (r : Ring) : gmap string string :=
  foldl (λ m n, <[NodeId n := Addr n]> m) ∅ (ring_Nodes r).
Definition hash_ring (r : Ring) : HashRing.Ring :=
  HashRing.New (ring_Epoch r) (node_map r) (Z.of_N (ring_VnodesPerNode r)).

(** ** What the directory promises: a ring message is determined by its epoch, up
    to the order of the members. *)
Class RingSource (sent : Ring → Prop) := {
  rs_functional r r' :
    sent r → sent r' → ring_Epoch r = ring_Epoch r' → hash_ring r = hash_ring r'
}.

Section watcher.
Context {conn : Type} (NewClient : string → option conn).

(** A client is determined by its connection, so [clients] holds connections. *)
Record Watcher := MkWatcher {
  directories : list string;
  dialNodes : bool;
  ring : option HashRing.Ring;
  conns : gmap string conn;
  clients : gmap string conn
}.

Definition New (directories : list string) (dialNodes : bool) : Watcher :=
  MkWatcher directories dialNodes None ∅ ∅.

(** The body of the dialing loop for one member. *)
Definition dial_one (cs : gmap string conn * gmap string conn) (node : string * string)
    : gmap string conn * gmap string conn :=
  let '(conns, clients) := cs in let '(id, addr) := node in
  match conns !! id with
  | Some _ => (conns, clients)
  | None =>
      match NewClient addr with
      | None => (conns, clients)
      | Some c => (<[id := c]> conns, <[id := c]> clients)
      end
  end.
(** The body of the closing loop for one connection. *)
Definition close_one (nodes : gmap string string) (cs : gmap string conn * gmap string conn)
    (c : string * conn) : gmap string conn * gmap string conn :=
  match nodes !! c.1 with
  | Some _ => cs
  | None => (delete c.1 cs.1, delete c.1 cs.2)
  end.
Definition sync_conns (nodes : gmap string string) (cs : gmap string conn * gmap string conn)
    : gmap string conn * gmap string conn :=
  let cs := foldl dial_one cs (map_to_list nodes) in
  foldl (close_one nodes) cs (map_to_list cs.1).

(** [apply]; the flag says whether the [onRing] callback is called. *)
Definition apply (r : Ring) (w : Watcher) : Watcher * bool :=
  let nodes := node_map r in
  let stale :=
    match ring w with
    | None => false
    | Some cur => (ring_Epoch r <=? HashRing.Epoch cur) && negb (ring_Epoch r =? 0)
    end in
  if stale then (w, false)
  else
    let '(cs, cl) := if dialNodes w then sync_conns nodes (conns w, clients w)
                     else (conns w, clients w) in
    (MkWatcher (directories w) (dialNodes w) (Some (hash_ring r)) cs cl, true).

Definition Epoch (w : Watcher) : N :=
  match ring w with None => 0 | Some r => HashRing.Epoch r end.
Definition Client (w : Watcher) (id : string) : option conn := clients w !! id.

(** [watchOne]: the rings received until the stream ends. *)
Definition watchOne (received : list Ring) (w : Watcher) : Watcher :=
  foldl (λ w r, (apply r w).1) w received.

(** One iteration of [Run] over a non-empty list of directories: the next directory
    and backoff (milliseconds).  The loop with its dial and stream errors, and with
    the empty list, is [Failover.watch_run]. *)
Definition run_next (i backoff n : nat) : nat * nat :=
  (((i + 1) mod n)%nat, (if backoff <? 3000 then backoff * 2 else backoff)%nat).
Fixpoint Run (streams : list (list Ring)) (i backoff : nat) (w : Watcher) : Watcher * nat * nat :=
  match streams with
  | [] => (w, i, backoff)
  | received :: streams =>
      let '(i', b') := run_next i backoff (length (directories w)) in
      Run streams i' b' (watchOne received w)
  end.

(** ** Lemmas *)
Lemma apply_ring r w :
  ring (apply r w).1 =
    if match ring w with
       | None => false
       | Some cur => (ring_Epoch r <=? HashRing.Epoch cur) && negb (ring_Epoch r =? 0)
       end then ring w else Some (hash_ring r).
Proof.
  unfold apply. destruct (if dialNodes w then _ else (conns w, clients w)) as [cs cl].
  destruct (match ring w with Some _ => _ | None => _ end); done.
Qed.

Lemma apply_epoch r w :
  ring_Epoch r ≠ 0 →
  Epoch (apply r w).1 = N.max (Epoch w) (ring_Epoch r) ∧
  ring (apply r w).1 = if Epoch w <? ring_Epoch r then Some (hash_ring r) else ring w.
Proof.
  intros Hne. unfold Epoch. rewrite apply_ring. destruct (ring w) as [cur|] eqn:Hr.
  - rewrite (proj2 (N.eqb_neq _ _) Hne). simpl. rewrite andb_true_r.
    destruct (N.leb_spec (ring_Epoch r) (HashRing.Epoch cur));
      destruct (N.ltb_spec (HashRing.Epoch cur) (ring_Epoch r)); try lia; simpl; split; (done || lia).
  - destruct (N.ltb_spec 0 (ring_Epoch r)); [|lia]. simpl. split; [lia|done].
Qed.

(** A newer ring is always adopted. *)
Lemma apply_newer r w :
  Epoch w < ring_Epoch r →
  ring (apply r w).1 = Some (hash_ring r) ∧ dialNodes (apply r w).1 = dialNodes w ∧ (apply r w).2 = true.
Proof.
  unfold Epoch, apply. intros Hlt. destruct (if dialNodes w then _ else (conns w, clients w)) as [cs cl].
  destruct (ring w) as [cur|]; [|done]. by rewrite (proj2 (N.leb_gt _ _) Hlt).
Qed.

(** The invariant of a watcher fed from [sent]: its ring is that of a sent message. *)
Definition watcher_inv (sent : Ring → Prop) (w : Watcher) : Prop :=
  ∀ cur, ring w = Some cur → ∃ r, sent r ∧ cur = hash_ring r.

Lemma watcher_inv_apply (sent : Ring → Prop) r w :
  sent r → watcher_inv sent w → watcher_inv sent (apply r w).1.
Proof.
  intros Hr Hw cur. rewrite apply_ring. destruct (ring w) as [c|] eqn:Hc.
  - destruct (_ && _); intros [= <-]; [by apply Hw|eauto].
  - intros [= <-]. eauto.
Qed.

Lemma watchOne_inv (sent : Ring → Prop) rs w :
  (∀ r, r ∈ rs → sent r) → watcher_inv sent w → watcher_inv sent (watchOne rs w).
Proof.
  intros Hrs Hw. apply (foldl_inv (watcher_inv sent)); [done|].
  intros b r Hr Hb. apply watcher_inv_apply; [by apply Hrs|done].
Qed.

Lemma Run_watchOne streams i b w :
  (Run streams i b w).1.1 = watchOne (concat streams) w.
Proof.
  revert i b w. induction streams as [|rs streams IH]; intros i b w; simpl; [done|].
  unfold run_next. rewrite IH. unfold watchOne. by rewrite foldl_app.
Qed.

Lemma watchOne_epoch rs w :
  (∀ r, r ∈ rs → ring_Epoch r ≠ 0) →
  Epoch (watchOne rs w) = foldr N.max (Epoch w) (ring_Epoch <$> rs).
Proof.
  revert w. induction rs as [|r rs IH]; intros w Hne; simpl; [done|].
  rewrite IH by (intros; apply Hne; by right).
  destruct (apply_epoch r w) as [-> _]; [apply Hne; by left|].
  clear. induction rs as [|e es IH]; cbn; [|cbn in IH; rewrite IH]; lia.
Qed.

(** ** Connections *)
Definition conns_inv (w : Watcher) : Prop :=
  conns w = clients w ∧
  (dialNodes w = true → ∀ id, is_Some (clients w !! id) →
     ∃ cur, ring w = Some cur ∧ is_Some (HashRing.addrs cur !! id)).

Lemma dial_loop l cs :
  let cs' := foldl dial_one cs l in
  (cs.1 = cs.2 → cs'.1 = cs'.2) ∧
  (∀ id c, cs.1 !! id = Some c → cs'.1 !! id = Some c) ∧
  ((∀ a, is_Some (NewClient a)) → ∀ id a, (id, a) ∈ l → is_Some (cs'.1 !! id)).
Proof.
  revert cs. induction l as [|[id a] l IH]; intros [c1 c2]; simpl; [by split_and!; [..|set_solver]|].
  destruct (c1 !! id) as [c|] eqn:Hid; [|destruct (NewClient a) as [c|] eqn:Hc].
  - destruct (IH (c1, c2)) as (I1 & I2 & I3). split_and!; [done|done|].
    intros Hd id' a' [[= -> ->]|?]%elem_of_cons; [|by eapply I3]. exists c. by apply I2.
  - destruct (IH (<[id := c]> c1, <[id := c]> c2)) as (I1 & I2 & I3). simpl in *. split_and!.
    + intros ->. by apply I1.
    + intros id' c' Hc'. apply I2. rewrite lookup_insert_ne; [done|congruence].
    + intros Hd id' a' [[= -> ->]|?]%elem_of_cons; [|by eapply I3].
      exists c. apply I2. by rewrite lookup_insert_eq.
  - destruct (IH (c1, c2)) as (I1 & I2 & I3). split_and!; [done|done|].
    intros Hd id' a' [[= -> ->]|?]%elem_of_cons; [|by eapply I3].
    destruct (Hd a) as [? ?]. congruence.
Qed.

Lemma close_loop nodes l cs :
  let cs' := foldl (close_one nodes) cs l in
  (cs.1 = cs.2 → cs'.1 = cs'.2) ∧
  (∀ id, is_Some (nodes !! id) → cs'.1 !! id = cs.1 !! id) ∧
  (∀ id, nodes !! id = None → (id ∈ l.*1 ∨ cs.1 !! id = None) → cs'.1 !! id = None).
Proof.
  revert cs. induction l as [|[id c] l IH]; intros [c1 c2]; simpl.
  { split_and!; [done|done|]. intros id _ [?|?]; [set_solver|done]. }
  assert (close_one nodes (c1, c2) (id, c) =
    match nodes !! id with Some _ => (c1, c2) | None => (delete id c1, delete id c2) end) as -> by done.
  destruct (nodes !! id) as [a|] eqn:Hid.
  - destruct (IH (c1, c2)) as (I1 & I2 & I3). split_and!; [done|done|].
    intros id' Hn [[->|?]%elem_of_cons|?]; [congruence|apply I3; auto|apply I3; auto].
  - destruct (IH (delete id c1, delete id c2)) as (I1 & I2 & I3). simpl in *. split_and!.
    + intros ->. by apply I1.
    + intros id' Hs. rewrite I2 by done. apply lookup_delete_ne. intros ->. rewrite Hid in Hs. by destruct Hs.
    + intros id' Hn Hor. apply I3; [done|]. destruct (decide (id' = id)) as [->|Hne].
      { right. by rewrite lookup_delete_eq. }
      destruct Hor as [[?|?]%elem_of_cons|?]; [done|by left|right]. by rewrite lookup_delete_ne.
Qed.

Lemma sync_conns_spec nodes cs :
  let cs' := sync_conns nodes cs in
  (cs.1 = cs.2 → cs'.1 = cs'.2) ∧
  (∀ id, is_Some (cs'.1 !! id) → is_Some (nodes !! id)) ∧
  (∀ id c, cs.1 !! id = Some c → is_Some (nodes !! id) → cs'.1 !! id = Some c) ∧
  ((∀ a, is_Some (NewClient a)) → ∀ id, is_Some (nodes !! id) → is_Some (cs'.1 !! id)).
Proof.
  unfold sync_conns. cbv zeta. destruct (dial_loop (map_to_list nodes) cs) as (D1 & D2 & D3).
  set (cs1 := foldl dial_one cs (map_to_list nodes)) in *.
  destruct (close_loop nodes (map_to_list cs1.1) cs1) as (C1 & C2 & C3).
  split_and!; [auto| | |].
  - intros id [c Hc]. destruct (nodes !! id) eqn:Hn; [done|].
    rewrite C3 in Hc; [done|done|]. destruct (cs1.1 !! id) as [c'|] eqn:Hc1; [|by right].
    left. apply list_elem_of_fmap. exists (id, c'). split; [done|]. by apply elem_of_map_to_list.
  - intros id c Hc Hn. rewrite C2 by done. by apply D2.
  - intros Hd id Hn. rewrite C2 by done. destruct Hn as [a Ha].
    apply (D3 Hd id a). by apply elem_of_map_to_list.
Qed.

Lemma conns_inv_New dirs dial : conns_inv (New dirs dial).
Proof. split; [done|]. intros _ id [c Hc]. simpl in Hc. by rewrite lookup_empty in Hc. Qed.

Lemma conns_inv_apply r w : conns_inv w → conns_inv (apply r w).1.
Proof.
  intros [Heq Hin]. unfold apply.
  destruct (match ring w with Some _ => _ | None => _ end); [by split|].
  destruct (dialNodes w) eqn:Hd; [|by split].
  destruct (sync_conns (node_map r) (conns w, clients w)) as [cs cl] eqn:Hs.
  destruct (sync_conns_spec (node_map r) (conns w, clients w)) as (S1 & S2 & _).
  rewrite Hs in S1, S2. simpl in *. unfold conns_inv. simpl. rewrite <-(S1 Heq). split; [done|].
  intros _ id Hid. eexists. split; [done|]. unfold hash_ring. rewrite HashRing.addrs_New. by apply S2.
Qed.

Lemma conns_inv_Run streams i b w : conns_inv w → conns_inv (Run streams i b w).1.1.
Proof.
  intros Hw. rewrite Run_watchOne. apply (foldl_inv conns_inv); [done|].
  intros w' r _. apply conns_inv_apply.
Qed.

(** ** Properties *)

(** A watcher follows the newest ring it has seen, across any number of lost
    streams and reconnects to any replica: while the rings it receives have
    non-zero epochs, its epoch is the largest received, and its ring is the hash
    ring of a received message with that epoch. *)
Theorem watcher_follows_newest dirs dial streams i b :
  (∀ r, r ∈ concat streams → ring_Epoch r ≠ 0) →
  let w := (Run streams i b (New dirs dial)).1.1 in
  Epoch w = foldr N.max 0 (ring_Epoch <$> concat streams) ∧
  (concat streams ≠ [] → ∃ r, r ∈ concat streams ∧ ring w = Some (hash_ring r) ∧ ring_Epoch r = Epoch w).
Proof.
  intros Hne w. unfold w. rewrite Run_watchOne. split; [by rewrite watchOne_epoch|].
  intros Hnil. destruct (ring (watchOne (concat streams) (New dirs dial))) as [cur|] eqn:Hc.
  - destruct (watchOne_inv (λ r, r ∈ concat streams) (concat streams) (New dirs dial))
      with (cur := cur) as (r & Hr & ->); [done|done|done|].
    exists r. split_and!; [done|done|]. unfold Epoch. by rewrite Hc.
  - exfalso. assert (Epoch (watchOne (concat streams) (New dirs dial)) = 0) as H0
      by (unfold Epoch; by rewrite Hc).
    rewrite watchOne_epoch in H0 by done.
    destruct (concat streams) as [|r rs]; [done|]. specialize (Hne r ltac:(by left)).
    cbn in H0. lia.
Qed.

(** A watcher without a ring has received none. *)
Lemma Run_none dirs dial streams i b :
  (∀ r, r ∈ concat streams → ring_Epoch r ≠ 0) →
  let w := (Run streams i b (New dirs dial)).1.1 in ring w = None ↔ Epoch w = 0.
Proof.
  intros Hz w. split; [unfold Epoch; by intros ->|]. unfold w. rewrite Run_watchOne, watchOne_epoch by done.
  destruct (concat streams) as [|r rs]; [done|]. specialize (Hz r ltac:(by left)). cbn. lia.
Qed.

(** Against the interface: two watchers fed from one source hold the same ring as soon
    as their epochs are equal. *)
Lemma watchers_agree_from (sent : Ring → Prop) `{!RingSource sent} (w1 w2 : Watcher) r1 r2 :
  watcher_inv sent w1 → watcher_inv sent w2 → ring w1 = Some r1 → ring w2 = Some r2 →
  HashRing.Epoch r1 = HashRing.Epoch r2 → r1 = r2.
Proof.
  intros H1 H2 HR1 HR2 Heq. destruct (H1 r1 HR1) as (m1 & S1 & ->). destruct (H2 r2 HR2) as (m2 & S2 & ->).
  by apply rs_functional.
Qed.

(** A ring that is accepted leaves a client for every member, if dialing never fails. *)
Lemma apply_dials r w :
  conns_inv w → dialNodes w = true → (∀ a, is_Some (NewClient a)) → (apply r w).2 = true →
  ∀ id, is_Some (node_map r !! id) → is_Some (Client (apply r w).1 id).
Proof.
  intros Hinv Hd Hdial. unfold apply, Client.
  destruct (match ring w with Some _ => _ | None => _ end); [done|]. rewrite Hd.
  destruct (sync_conns (node_map r) (conns w, clients w)) as [cs cl] eqn:Hs. intros _ id Hid. simpl.
  destruct (sync_conns_spec (node_map r) (conns w, clients w)) as (S1 & _ & _ & S4).
  rewrite Hs in S1, S4. simpl in *. rewrite <-S1 by apply Hinv. by apply S4.
Qed.

(** Connections follow membership: at any time the clients of a dialing
    watcher belong to members of its current ring, and if dialing never fails
    every member of a ring it accepts has a client. *)
Theorem clients_are_members dirs streams i b r :
  let w := (Run streams i b (New dirs true)).1.1 in
  (∀ id, is_Some (Client w id) → ∃ cur, ring w = Some cur ∧ is_Some (HashRing.addrs cur !! id)) ∧
  ((∀ a, is_Some (NewClient a)) → (apply r w).2 = true →
   ∀ id, is_Some (node_map r !! id) → is_Some (Client (apply r w).1 id)).
Proof.
  intros w. assert (conns_inv w) as Hinv by apply conns_inv_Run, conns_inv_New.
  assert (dialNodes w = true) as Hd.
  { unfold w. rewrite Run_watchOne.
    apply (foldl_inv (λ w : Watcher, dialNodes w = true)); [done|].
    intros w' r' _ Hw'. unfold apply. destruct (match ring w' with Some _ => _ | None => _ end); [done|].
    by destruct (if dialNodes w' then _ else _). }
  split; [by apply Hinv|]. intros Hdial. by apply apply_dials.
Qed.

(** C39. The stale-ring guard exempts epoch 0: a ring of epoch 0 (what a replica
    that has applied nothing yet sends first) replaces any newer ring, so a
    reconnect can move a watcher backwards. *)
Theorem epoch_zero_replaces_ring r w :
  ring_Epoch r = 0 →
  ring (apply r w).1 = Some (hash_ring r) ∧ Epoch (apply r w).1 = 0 ∧ (apply r w).2 = true.
Proof.
  intros H0. unfold Epoch. rewrite apply_ring. unfold apply.
  assert (match ring w with
          | None => false
          | Some cur => (ring_Epoch r <=? HashRing.Epoch cur) && negb (ring_Epoch r =? 0)
          end = false) as ->.
  { destruct (ring w); [|done]. rewrite H0. by rewrite andb_false_r. }
  split_and!; [done|done|]. by destruct (if dialNodes w then _ else (conns w, clients w)).
Qed.

(** A member that rejoins under a new address keeps its old connection: the
    new ring carries the new address, the client still talks to the old one. *)
Theorem rejoin_keeps_connection r w id c a :
  conns_inv w → dialNodes w = true → (apply r w).2 = true →
  Client w id = Some c → node_map r !! id = Some a →
  Client (apply r w).1 id = Some c ∧
  ∃ cur, ring (apply r w).1 = Some cur ∧ HashRing.addrs cur !! id = Some a.
Proof.
  intros [Heq _] Hd. unfold apply, Client.
  destruct (match ring w with Some _ => _ | None => _ end); [done|]. rewrite Hd.
  destruct (sync_conns (node_map r) (conns w, clients w)) as [cs cl] eqn:Hs. intros _ Hc Ha. simpl.
  destruct (sync_conns_spec (node_map r) (conns w, clients w)) as (S1 & _ & S3 & _).
  rewrite Hs in S1, S3. simpl in *. split.
  - rewrite <-S1 by done. apply S3; [congruence|by rewrite Ha].
  - eexists. split; [done|]. unfold hash_ring. by rewrite HashRing.addrs_New.
Qed.
End watcher.

(** ** The directory is a ring source *)
Import Directory DirectoryProps.

Lemma node_map_Ring_from order sm :
  order ≡ₚ map_to_list (members sm) → (∀ id i, members sm !! id = Some i → NodeId i = id) →
  node_map (Ring_from order sm) = Addr <$> members sm.
Proof.
  intros Hperm Hids. unfold node_map. simpl.
  transitivity (foldl (λ (m : gmap string string) '(id, addr), <[id := addr]> m) ∅
    (prod_map id Addr <$> order)).
  - assert (∀ x, x ∈ order → NodeId x.2 = x.1) as Hx.
    { intros [id i] Hx. rewrite Hperm in Hx. by apply elem_of_map_to_list, Hids in Hx. }
    clear Hperm Hids. generalize (∅ : gmap string string) as m.
    induction order as [|[id i] order IH]; intros m; [done|]. cbn.
    pose proof (Hx (id, i) ltac:(by left)) as E. simpl in E. rewrite E.
    apply IH. intros x ?. apply Hx. by right.
  - change (foldl _ ∅ (prod_map id Addr <$> order)) with
      (HashRing.addrs (HashRing.New_from 0 (prod_map id Addr <$> order) 0)).
    apply HashRing.addrs_New_from. rewrite map_to_list_fmap. by rewrite Hperm.
Qed.

Section source.
Context (Unmarshal : bytes → option ClusterCommand).
Context (ids : list string) (Hnd : NoDup ids) (Hlen : (length ids ≤ 256)%nat) (noop : bytes).

(** The rings sent in an execution up to [st']: the ring of any replica's state at
    any time, its members in any order. *)
Definition directory_sent (st' : PaxosNet.net) (r : pmv1.Ring) : Prop :=
  ∃ n sm a order, observed Unmarshal ids noop st' n sm a ∧
    order ≡ₚ map_to_list (members sm) ∧ r = Ring_from order sm.

Instance directory_source st' : RingSource (directory_sent st').
Proof.
  constructor. intros r r' (n1 & sm1 & a1 & o1 & O1 & P1 & ->) (n2 & sm2 & a2 & o2 & O2 & P2 & ->) Heq.
  simpl in Heq. pose proof (observed_members _ _ Hnd Hlen _ _ _ _ _ _ _ _ O1 O2 Heq) as Hm.
  unfold hash_ring.
  rewrite (node_map_Ring_from o1 sm1) by (done || intros ??; by apply (observed_ids _ _ Hnd Hlen _ _ _ _ _ _ _ O1)).
  rewrite (node_map_Ring_from o2 sm2) by (done || intros ??; by apply (observed_ids _ _ Hnd Hlen _ _ _ _ _ _ _ O2)).
  simpl. by rewrite Heq, Hm.
Qed.

Context {conn : Type} (NewClient : string → option conn).
Abbreviation watched dirs dial streams i b := (Run NewClient streams i b (New dirs dial)).1.1.

Lemma Run_sent st' dirs dial streams i b :
  (∀ r, r ∈ concat streams → directory_sent st' r) → watcher_inv (directory_sent st') (watched dirs dial streams i b).
Proof. intros Hs. rewrite Run_watchOne. by apply watchOne_inv. Qed.

(** C4. Watchers route alike.  Two watchers follow any streams of rings sent by directory
    replicas in one execution, over any reconnects.  Whenever their epochs are equal
    they hold the same hash ring, hence the same owners for every block; and that ring
    is the one of the membership at that epoch, on any replica and at any time it was
    observed.  While no ring of epoch 0 arrives, the watchers' epochs are the largest they
    received, so two watchers that have received the same newest epoch, in any order
    and with any replays, hold the same ring. *)
Theorem watchers_agree st' dirs1 dirs2 dial1 dial2 streams1 streams2 i1 i2 b1 b2 :
  (∀ r, r ∈ concat streams1 → directory_sent st' r) → (∀ r, r ∈ concat streams2 → directory_sent st' r) →
  let w1 := watched dirs1 dial1 streams1 i1 b1 in let w2 := watched dirs2 dial2 streams2 i2 b2 in
  (∀ r1 r2, ring w1 = Some r1 → ring w2 = Some r2 → HashRing.Epoch r1 = HashRing.Epoch r2 → r1 = r2) ∧
  (∀ r1 n sm a, ring w1 = Some r1 → observed Unmarshal ids noop st' n sm a → epoch sm = HashRing.Epoch r1 →
     r1 = HashRing.New (epoch sm) (Addr <$> members sm) HashRing.DefaultVNodes) ∧
  ((∀ r, r ∈ concat streams1 ++ concat streams2 → ring_Epoch r ≠ 0) →
   foldr N.max 0 (ring_Epoch <$> concat streams1) = foldr N.max 0 (ring_Epoch <$> concat streams2) →
   Epoch w1 = foldr N.max 0 (ring_Epoch <$> concat streams1) ∧ ring w1 = ring w2).
Proof.
  intros H1 H2 w1 w2. pose proof (Run_sent st' dirs1 dial1 streams1 i1 b1 H1) as I1.
  pose proof (Run_sent st' dirs2 dial2 streams2 i2 b2 H2) as I2. fold w1 in I1. fold w2 in I2.
  assert (∀ r1 r2, ring w1 = Some r1 → ring w2 = Some r2 → HashRing.Epoch r1 = HashRing.Epoch r2 → r1 = r2) as Hagree.
  { intros r1 r2. by apply (watchers_agree_from (directory_sent st')). }
  split_and!; [exact Hagree| |].
  - intros r1 n sm a Hr Hobs He. destruct (I1 r1 Hr) as (m & Hm & ->). change (HashRing.Epoch (hash_ring m)) with (ring_Epoch m) in He.
    assert (directory_sent st' (Ring_from (map_to_list (members sm)) sm)) as Hsm by (eexists n, sm, a, _; split_and!; done).
    pose proof (directory_source st') as Hsrc.
    rewrite (rs_functional m (Ring_from (map_to_list (members sm)) sm) Hm Hsm) by done. unfold hash_ring.
    rewrite node_map_Ring_from; [done|done|]. intros id i. by apply (observed_ids _ _ Hnd Hlen _ _ _ _ _ _ _ Hobs).
  - intros Hne Hmax.
    assert (Epoch w1 = foldr N.max 0 (ring_Epoch <$> concat streams1) ∧ Epoch w2 = foldr N.max 0 (ring_Epoch <$> concat streams2)) as [E1 E2].
    { unfold w1, w2. rewrite !Run_watchOne, !watchOne_epoch by (intros; apply Hne, elem_of_app; auto). done. }
    split; [done|]. assert (Epoch w1 = Epoch w2) as Heq by congruence. clear E1 E2.
    assert (ring w1 = None ↔ Epoch w1 = 0) as N1 by (apply Run_none; intros; apply Hne, elem_of_app; auto).
    assert (ring w2 = None ↔ Epoch w2 = 0) as N2 by (apply Run_none; intros; apply Hne, elem_of_app; auto).
    rewrite Heq in N1. destruct (ring w1) as [r1|] eqn:R1, (ring w2) as [r2|] eqn:R2; [|naive_solver..].
    unfold Epoch in Heq. rewrite R1, R2 in Heq. by rewrite (Hagree r1 r2).
Qed.
End source.

(** ** Witnesses *)
Definition ring_of (e : N) (l : list (string * string)) : pmv1.Ring :=
  MkRing e ((λ '(id, a), MkNodeInfo id a 0) <$> l) 2.
Abbreviation demo_dial := (λ a : string, Some a).

Lemma watcher_follows_newest_witness :
  Epoch (Run demo_dial [[ring_of 3 [("cn-1", "a:1")]]; [ring_of 2 []; ring_of 4 []]] 0 100
           (New ["d1"; "d2"] false)).1.1 = 4.
Proof.
  apply (watcher_follows_newest demo_dial ["d1"; "d2"] false
    [[ring_of 3 [("cn-1", "a:1")]]; [ring_of 2 []; ring_of 4 []]] 0 100).
  intros r. cbn. set_solver.
Defined.

Lemma demo_sent n :
  directory_sent demo_Unmarshal PaxosSafety.demo_replicas [x06] demo_dir_end (Ring (replica_sm demo_dir_end n)).
Proof. eexists _, _, _, _. split_and!; [apply demo_observed|reflexivity|reflexivity]. Qed.

(** One watcher follows replica r1, the other r2; both have applied the join. *)
Lemma watchers_agree_witness :
  ring (Run demo_dial [[Ring (replica_sm demo_dir_end "r1")]] 0 100 (New ["d1"] true)).1.1 =
  ring (Run demo_dial [[Ring (replica_sm demo_dir_end "r2")]] 0 100 (New ["d2"] false)).1.1.
Proof.
  destruct (watchers_agree demo_Unmarshal PaxosSafety.demo_replicas
    (proj1 PaxosSafety.demo_replicas_ok) (proj2 PaxosSafety.demo_replicas_ok) [x06] demo_dial demo_dir_end
    ["d1"] ["d2"] true false [[Ring (replica_sm demo_dir_end "r1")]] [[Ring (replica_sm demo_dir_end "r2")]] 0 0 100 100)
    as (_ & _ & H).
  - intros r [->|[]%elem_of_nil]%elem_of_cons. apply demo_sent.
  - intros r [->|[]%elem_of_nil]%elem_of_cons. apply demo_sent.
  - apply H.
    + intros r [->|[->|[]%elem_of_nil]%elem_of_cons]%elem_of_cons; vm_compute; discriminate.
    + vm_compute. reflexivity.
Defined.

Lemma epoch_zero_replaces_ring_witness :
  let w := (apply demo_dial (ring_of 7 [("cn-1", "a:1")]) (New ["d1"] true)).1 in
  Epoch w = 7 ∧ Epoch (apply demo_dial (ring_of 0 []) w).1 = 0.
Proof.
  split; [reflexivity|]. apply epoch_zero_replaces_ring. reflexivity.
Defined.

Lemma rejoin_keeps_connection_witness :
  let w := (apply demo_dial (ring_of 1 [("cn-1", "old:1")]) (New ["d1"] true)).1 in
  Client (apply demo_dial (ring_of 2 [("cn-1", "new:1")]) w).1 "cn-1" = Some "old:1".
Proof.
  apply (rejoin_keeps_connection demo_dial (ring_of 2 [("cn-1", "new:1")])
    (apply demo_dial (ring_of 1 [("cn-1", "old:1")]) (New ["d1"] true)).1 "cn-1" "old:1" "new:1").
  - apply conns_inv_apply, conns_inv_New.
  - reflexivity.
  - reflexivity.
  - reflexivity.
  - reflexivity.
Defined.
End RingWatch.
