(* ===== verification/BlockStore.v ===== *)
(** * The block store interface: src/internal/blockstore/store.go

    [Store] is the Go interface as a class of operations.  An operation that can
    panic (nil dereference, slice out of range) returns an [option].
    [StoreSpec] is the contract the RPC layer relies on: an abstract [view] of the
    stored blocks, and what each operation does to it.  [LRU] and [Paged] are its
    two instances. *)

From S2P Require Import Prelude.

Module BlockStore.
Local Open Scope N_scope.

Record Block := MkBlock {
  ID : bytes;
  ParentID : bytes;
  ModelID : string;
  Payload : bytes;
  TokenCount : N;
  CostUS : N
}.
#[global] Instance Block_eq_dec : EqDecision Block.
Proof. solve_decision. Defined.

Record Stats := MkStats {
  OccupancyBytes : N;
  CapacityBytes : N;
  Hits : N;
  Misses : N;
  Evictions : N;
  EvictedCostUS : N
}.
Definition zero_stats : Stats := MkStats 0 0 0 0 0 0.

(** The counter updates of the two stores. *)
Definition add_hit (st : Stats) : Stats :=
  MkStats (OccupancyBytes st) (CapacityBytes st) (u64 (Hits st + 1)) (Misses st) (Evictions st) (EvictedCostUS st).
Definition add_miss (st : Stats) : Stats :=
  MkStats (OccupancyBytes st) (CapacityBytes st) (Hits st) (u64 (Misses st + 1)) (Evictions st) (EvictedCostUS st).
Definition add_eviction (cost : N) (st : Stats) : Stats :=
  MkStats (OccupancyBytes st) (CapacityBytes st) (Hits st) (Misses st)
    (u64 (Evictions st + 1)) (u64 (EvictedCostUS st + cost)).
Definition set_occupancy (occ : N) (st : Stats) : Stats :=
  MkStats occ (CapacityBytes st) (Hits st) (Misses st) (Evictions st) (EvictedCostUS st).

Class Store (S : Type) := {
  Put : S → Block → option (S * bool);
  Get : S → bytes → option (S * option Block);
  Contains : S → bytes → option (S * bool);
  Touch : S → bytes → option S;
  store_Stats : S → Stats
}.

(** Slices are shorter than 2^62 bytes, so sizes do not overflow [int]. *)
Definition payload_ok (b : Block) : Prop := (N.of_nat (length (Payload b)) < 4611686018427387904)%N.

Class StoreSpec (S : Type) `{Store S} := {
  store_wf : S → Prop;
  view : S → gmap bytes Block;
  Put_spec s b :
    store_wf s → payload_ok b →
    ∃ s' stored, Put s b = Some (s', stored) ∧ store_wf s' ∧
      (stored = true → view s !! ID b = None ∧ view s' !! ID b = Some b ∧ view s' ⊆ <[ID b := b]> (view s)) ∧
      (stored = false → view s' = view s);
  Get_spec s id :
    store_wf s → ∃ s', Get s id = Some (s', view s !! id) ∧ store_wf s' ∧ view s' = view s;
  Contains_spec s id :
    store_wf s → ∃ s', Contains s id = Some (s', bool_decide (is_Some (view s !! id))) ∧
      store_wf s' ∧ view s' = view s;
  Touch_spec s id :
    store_wf s → ∃ s', Touch s id = Some s' ∧ store_wf s' ∧ view s' = view s;
  view_ID s id b : store_wf s → view s !! id = Some b → ID b = id;
  Stats_spec s : store_wf s → OccupancyBytes (store_Stats s) ≤ CapacityBytes (store_Stats s)
}.

(** A store that can say when it has room: blocks it takes without evicting. *)
Class StoreRoom (S : Type) `{StoreSpec S} := {
  room : S → list Block → Prop;
  Put_room s b bs :
    store_wf s → payload_ok b → room s (b :: bs) →
    ∃ s' stored, Put s b = Some (s', stored) ∧ store_wf s' ∧ room s' bs ∧
      view s ⊆ view s' ∧ is_Some (view s' !! ID b);
  Contains_room s id s' r bs : store_wf s → Contains s id = Some (s', r) → room s bs → room s' bs;
  Get_room s id s' r bs : store_wf s → Get s id = Some (s', r) → room s bs → room s' bs;
  Touch_room s id s' bs : store_wf s → Touch s id = Some s' → room s bs → room s' bs;
  room_submseteq s bs bs' : bs' ⊆+ bs → room s bs → room s bs'
}.

(** ** Blocks by ID *)
Definition by_id (l : list Block) : gmap bytes Block := list_to_map ((λ b, (ID b, b)) <$> l).

Lemma by_id_keys (l : list Block) : ((λ b, (ID b, b)) <$> l).*1 = ID <$> l.
Proof. by rewrite <-list_fmap_compose. Qed.

Lemma lookup_by_id l id b :
  NoDup (ID <$> l) → by_id l !! id = Some b ↔ b ∈ l ∧ ID b = id.
Proof.
  intros Hnd. unfold by_id. rewrite <-elem_of_list_to_map by (by rewrite by_id_keys).
  rewrite list_elem_of_fmap. split; [by intros (c & [= -> ->] & ?)|].
  intros [? <-]. eauto.
Qed.

Lemma by_id_None l id : by_id l !! id = None ↔ id ∉ ID <$> l.
Proof. unfold by_id. by rewrite <-not_elem_of_list_to_map, by_id_keys. Qed.

Lemma by_id_perm l l' : NoDup (ID <$> l) → l ≡ₚ l' → by_id l = by_id l'.
Proof.
  intros Hnd Hl. unfold by_id. apply list_to_map_proper; [by rewrite by_id_keys|]. by rewrite Hl.
Qed.

Lemma by_id_sub l l' :
  NoDup (ID <$> l) → NoDup (ID <$> l') → l ⊆ l' → by_id l ⊆ by_id l'.
Proof.
  intros Hnd Hnd' Hsub. apply map_subseteq_spec. intros id b.
  rewrite !lookup_by_id by done. set_solver.
Qed.
(** A new block in front, and some of the old blocks behind it. *)
Lemma by_id_put b l kept :
  NoDup (ID <$> l) → NoDup (ID <$> b :: kept) → ID b ∉ ID <$> l → kept ⊆ l →
  by_id l !! ID b = None ∧ by_id (b :: kept) !! ID b = Some b ∧
  by_id (b :: kept) ⊆ <[ID b := b]> (by_id l).
Proof.
  intros Hl [_ Hk]%NoDup_cons Hb Hsub. split_and!; [by apply by_id_None|apply lookup_insert_eq|].
  apply insert_mono. by apply by_id_sub.
Qed.

(** ** Recency order: the specification both stores refine

    The blocks as a list, most recently used first.  [sz] is what a block costs of
    the store's budget. *)
Definition to_front (id : bytes) (l : list Block) : list Block :=
  filter (λ b, ID b = id) l ++ filter (λ b, ID b ≠ id) l.

Lemma to_front_absent id l : id ∉ ID <$> l → to_front id l = l.
Proof.
  intros Hid. unfold to_front.
  rewrite filter_none, filter_all; [done|apply Forall_forall; intros b Hb Heq..];
    apply Hid, list_elem_of_fmap; eauto.
Qed.

Lemma to_front_perm id l : to_front id l ≡ₚ l.
Proof. apply filter_app_complement. Qed.

Section budget.
Context (sz : Block → N).

(** The longest prefix that fits into a budget. *)
Fixpoint keep (budget : N) (l : list Block) : list Block :=
  match l with
  | [] => []
  | b :: l => if sz b <=? budget then b :: keep (budget - sz b) l else []
  end.
Definition total (l : list Block) : N := foldr (λ b n, sz b + n) 0 l.

Lemma total_app l1 l2 : total (l1 ++ l2) = total l1 + total l2.
Proof. unfold total. induction l1 as [|b l1 IH]; simpl; [done|]. rewrite IH. lia. Qed.

#[global] Instance total_proper : Proper ((≡ₚ) ==> (=)) total.
Proof. intros l l' Hl. unfold total. induction Hl; cbn; lia. Qed.

Lemma total_submseteq l1 l2 : l1 ⊆+ l2 → total l1 ≤ total l2.
Proof. intros (k & ->)%submseteq_Permutation. rewrite total_app. lia. Qed.

Lemma keep_all budget l : total l ≤ budget → keep budget l = l.
Proof.
  revert budget. induction l as [|b l IH]; intros budget; cbn; [done|]. unfold total in IH. intros Ht.
  destruct (N.leb_spec (sz b) budget); [|lia]. f_equal. apply IH. lia.
Qed.

Lemma keep_snoc budget l b : budget < total (l ++ [b]) → keep budget (l ++ [b]) = keep budget l.
Proof.
  revert budget. induction l as [|c l IH]; intros budget; cbn; intros Ht.
  - destruct (N.leb_spec (sz b) budget); [lia|done].
  - destruct (N.leb_spec (sz c) budget); [|done]. f_equal. apply IH. unfold total. cbn in *. lia.
Qed.

Lemma keep_prefix budget l : keep budget l `prefix_of` l.
Proof.
  revert budget. induction l as [|b l IH]; intros budget; simpl; [done|].
  destruct (_ <=? _); [apply prefix_cons, IH|apply prefix_nil].
Qed.
Lemma keep_sub budget l : keep budget l ⊆ l.
Proof. destruct (keep_prefix budget l) as [l' Hl]. rewrite Hl at 2. set_solver. Qed.
End budget.

(** ** What the counters count

    The four counters, and how an event changes them; occupancy and capacity are
    gauges. *)
Definition counters (st : Stats) : N * N * N * N := (Hits st, Misses st, Evictions st, EvictedCostUS st).
Definition evicted (b : Block) (st : Stats) : Stats := add_eviction (CostUS b) st.
Definition looked_up (found : bool) (st : Stats) : Stats := if found then add_hit st else add_miss st.

(** A store whose counters are exact: a lookup counts one hit or one miss, and a [Put]
    counts, with their costs, the blocks that left to make room. *)
Class StoreCounts (S : Type) `{StoreSpec S} := {
  resident : S → list Block;
  view_resident s : store_wf s → view s = by_id (resident s);
  Put_counts s b s' stored :
    store_wf s → payload_ok b → Put s b = Some (s', stored) →
    ∃ gone, (if stored then [b] else []) ++ resident s ≡ₚ gone ++ resident s' ∧
      counters (store_Stats s') = counters (foldr evicted (store_Stats s) gone);
  Get_counts s id s' r :
    store_wf s → Get s id = Some (s', r) →
    resident s' ≡ₚ resident s ∧
    counters (store_Stats s') = counters (looked_up (bool_decide (is_Some r)) (store_Stats s));
  Contains_counts s id s' r :
    store_wf s → Contains s id = Some (s', r) →
    resident s' ≡ₚ resident s ∧ counters (store_Stats s') = counters (looked_up r (store_Stats s));
  Touch_counts s id s' :
    store_wf s → Touch s id = Some s' →
    resident s' ≡ₚ resident s ∧ counters (store_Stats s') = counters (store_Stats s)
}.

Lemma counters_evicted gone st st' :
  counters st = counters st' → counters (foldr evicted st gone) = counters (foldr evicted st' gone).
Proof.
  intros Hst. induction gone as [|b gone IH]; simpl; [done|]. injection IH as H1 H2 H3 H4.
  unfold counters. simpl. congruence.
Qed.
Lemma counters_looked_up found st st' :
  counters st = counters st' → counters (looked_up found st) = counters (looked_up found st').
Proof. intros [= H1 H2 H3 H4]. destruct found; unfold counters; simpl; congruence. Qed.

(** ** Sequences of operations

    [run] threads a store through a list of calls; [None] is a panic. *)
Inductive op := OPut (b : Block) | OGet (id : bytes) | OContains (id : bytes) | OTouch (id : bytes).
Inductive answer := APut (stored : bool) | AGet (r : option Block) | AContains (present : bool) | ATouch.

Section run.
Context {S : Type} `{!Store S}.

Definition do_op (s : S) (o : op) : option (S * answer) :=
  match o with
  | OPut b => '(s, r) ← Put s b; Some (s, APut r)
  | OGet id => '(s, r) ← Get s id; Some (s, AGet r)
  | OContains id => '(s, r) ← Contains s id; Some (s, AContains r)
  | OTouch id => s ← Touch s id; Some (s, ATouch)
  end.
Fixpoint run (s : S) (ops : list op) : option (S * list answer) :=
  match ops with
  | [] => Some (s, [])
  | o :: ops => '(s, a) ← do_op s o; '(s, l) ← run s ops; Some (s, a :: l)
  end.

Context `{!StoreSpec S}.
Definition op_ok (o : op) : Prop := match o with OPut b => payload_ok b | _ => True end.
(** What one operation answers, given the blocks stored before it. *)
Definition answer_ok (v : gmap bytes Block) (o : op) (a : answer) : Prop :=
  match o, a with
  | OPut b, APut stored => stored = true → v !! ID b = None
  | OGet id, AGet r => r = v !! id
  | OContains id, AContains present => present = bool_decide (is_Some (v !! id))
  | OTouch _, ATouch => True
  | _, _ => False
  end.

Lemma do_op_spec s o :
  store_wf s → op_ok o →
  ∃ s' a, do_op s o = Some (s', a) ∧ store_wf s' ∧ answer_ok (view s) o a ∧
    (∀ id b, view s' !! id = Some b → view s !! id = Some b ∨ (o = OPut b ∧ a = APut true)).
Proof.
  intros Hwf Hok. destruct o as [b|id|id|id]; simpl.
  - destruct (Put_spec s b Hwf Hok) as (s' & r & -> & Hwf' & Ht & Hf). exists s', (APut r).
    split_and!; [done|done|by intros ->; apply Ht|]. intros id c Hc. destruct r.
    + destruct Ht as (_ & _ & Hsub); [done|]. eapply lookup_weaken in Hsub; [|exact Hc].
      apply lookup_insert_Some in Hsub as [[_ <-]|[_ ?]]; eauto.
    + left. by rewrite <-Hf.
  - destruct (Get_spec s id Hwf) as (s' & -> & Hwf' & Hv). eexists _, _. rewrite Hv. split_and!; eauto; done.
  - destruct (Contains_spec s id Hwf) as (s' & -> & Hwf' & Hv). eexists _, _. rewrite Hv. split_and!; eauto; done.
  - destruct (Touch_spec s id Hwf) as (s' & -> & Hwf' & Hv). eexists _, _. rewrite Hv. split_and!; eauto; done.
Qed.

(** No call panics, and a block that is read was stored before, unchanged. *)
Lemma run_spec s ops :
  store_wf s → Forall op_ok ops →
  ∃ s' answers, run s ops = Some (s', answers) ∧ store_wf s' ∧ length answers = length ops ∧
    ∀ i id b, ops !! i = Some (OGet id) → answers !! i = Some (AGet (Some b)) →
      ID b = id ∧
      (view s !! id = Some b ∨
       ∃ j, (j < i)%nat ∧ ops !! j = Some (OPut b) ∧ answers !! j = Some (APut true)).
Proof.
  revert s. induction ops as [|o ops IH]; intros s Hwf Hok; cbn [run].
  { exists s, []. split_and!; try done. }
  apply Forall_cons in Hok as [Ho Hok].
  destruct (do_op_spec s o Hwf Ho) as (s1 & a & -> & Hwf1 & Ha & Hv). bind_step.
  destruct (IH s1 Hwf1 Hok) as (s' & l & -> & Hwf' & Hlen & Hr). bind_step.
  exists s', (a :: l). split_and!; [done|done|simpl; lia|].
  intros [|i] id b; simpl.
  - intros [= ->] [= ->]. simpl in Ha. split; [by eapply view_ID; [exact Hwf|]|by left].
  - intros Hi Hb. destruct (Hr i id b Hi Hb) as (Hid & [Hs1|(j & Hj & Hoj & Haj)]); (split; [done|]).
    + apply Hv in Hs1 as [?|[-> ->]]; [by left|right]. exists 0%nat. split; [lia|done].
    + right. exists (Datatypes.S j). split; [lia|done].
Qed.
End run.
End BlockStore.
