(* ===== verification/LRU.v ===== *)
(** * The plain LRU store: src/internal/blockstore/lru.go

    [container/list] is a list of elements, each with the pointer that identifies
    it; the [items] map holds pointers, as in the source.  The refinement theorems
    show that the list and the map together behave as one list of blocks in
    recency order. *)

From S2P Require Import Prelude BlockStore.

Module LRU.
Import BlockStore.
Local Open Scope N_scope.

Definition perBlockOverhead : N := 128.
Record entry := MkEntry { block : Block; size : N }.
Record element := MkElement { el_ptr : N; el_value : entry }.

Record LRU := MkLRU {
  cap : N;
  used : N;
  ll : list element;       (* front = most recently used *)
  items : gmap bytes N;
  next_ptr : N;            (* fresh pointers *)
  stats : Stats
}.

Definition NewLRU (capacityBytes : N) : LRU := MkLRU capacityBytes 0 [] ∅ 0 zero_stats.

Definition blockSize (b : Block) : N := u64 (N.of_nat (length (Payload b)) + perBlockOverhead).

(** container/list *)
Definition list_Remove (p : N) (l : list element) : list element := filter (λ e, el_ptr e ≠ p) l.
Definition list_MoveToFront (p : N) (l : list element) : list element :=
  filter (λ e, el_ptr e = p) l ++ list_Remove p l.
Definition deref (p : N) (l : list element) : option element := head (filter (λ e, el_ptr e = p) l).

Definition with_ll (s : LRU) (l : list element) : LRU :=
  MkLRU (cap s) (used s) l (items s) (next_ptr s) (stats s).
Definition with_stats (s : LRU) (st : Stats) : LRU :=
  MkLRU (cap s) (used s) (ll s) (items s) (next_ptr s) st.

(** [None]: [Back] of an empty list is nil and its dereference panics. *)
Definition evictOldest (s : LRU) : option LRU :=
  el ← last (ll s);
  let e := el_value el in
  Some (MkLRU (cap s) (sub64 (used s) (size e)) (list_Remove (el_ptr el) (ll s))
          (delete (ID (block e)) (items s)) (next_ptr s)
          (add_eviction (CostUS (block e)) (stats s))).

(** [for s.used+size > s.cap]; every iteration removes an element. *)
Fixpoint evict_loop (fuel : nat) (sz : N) (s : LRU) : option LRU :=
  match fuel with
  | O => None
  | S fuel =>
      if cap s <? u64 (used s + sz) then s' ← evictOldest s; evict_loop fuel sz s'
      else Some s
  end.

Definition lru_Put (s : LRU) (b : Block) : option (LRU * bool) :=
  let sz := blockSize b in
  match items s !! ID b with
  | Some p => Some (with_ll s (list_MoveToFront p (ll s)), false)
  | None =>
      if cap s <? sz then Some (s, false)
      else
        s ← evict_loop (S (length (ll s))) sz s;
        let el := MkElement (next_ptr s) (MkEntry b sz) in
        Some (MkLRU (cap s) (u64 (used s + sz)) (el :: ll s)
                (<[ID b := next_ptr s]> (items s)) (next_ptr s + 1) (stats s), true)
  end.

Definition lru_Get (s : LRU) (id : bytes) : option (LRU * option Block) :=
  match items s !! id with
  | None => Some (with_stats s (add_miss (stats s)), None)
  | Some p =>
      el ← deref p (ll s);
      Some (with_ll (with_stats s (add_hit (stats s))) (list_MoveToFront p (ll s)),
            Some (block (el_value el)))
  end.

Definition lru_Contains (s : LRU) (id : bytes) : option (LRU * bool) :=
  match items s !! id with
  | None => Some (with_stats s (add_miss (stats s)), false)
  | Some p => Some (with_ll (with_stats s (add_hit (stats s))) (list_MoveToFront p (ll s)), true)
  end.

Definition lru_Touch (s : LRU) (id : bytes) : option LRU :=
  match items s !! id with
  | None => Some s
  | Some p => Some (with_ll s (list_MoveToFront p (ll s)))
  end.

Definition lru_Stats (s : LRU) : Stats :=
  MkStats (used s) (cap s) (Hits (stats s)) (Misses (stats s)) (Evictions (stats s))
    (EvictedCostUS (stats s)).

#[global] Instance LRU_Store : Store LRU := {
  Put := lru_Put; Get := lru_Get; Contains := lru_Contains; Touch := lru_Touch;
  store_Stats := lru_Stats
}.

(** ** Specification: blocks in recency order *)
Definition order (s : LRU) : list Block := (λ e, block (el_value e)) <$> ll s.
Abbreviation keep := (BlockStore.keep blockSize).
Abbreviation total := (BlockStore.total blockSize).

(** ** Invariant *)
Record lru_wf (s : LRU) : Prop := {
  wf_cap : cap s < 9223372036854775808;
  wf_ptr : NoDup (el_ptr <$> ll s);
  wf_fresh : ∀ e, e ∈ ll s → el_ptr e < next_ptr s;
  wf_items : ∀ id p, items s !! id = Some p ↔
    ∃ e, e ∈ ll s ∧ el_ptr e = p ∧ ID (block (el_value e)) = id;
  wf_size : ∀ e, e ∈ ll s → size (el_value e) = blockSize (block (el_value e));
  wf_used : used s = total (order s);
  wf_fits : used s ≤ cap s
}.

Lemma blockSize_pos b : payload_ok b → 128 ≤ blockSize b < 9223372036854775808.
Proof. unfold payload_ok, blockSize, perBlockOverhead. intros. rewrite u64_small; unfold two64; lia. Qed.

(** ** The invariant *)
Lemma wf_elem_unique s e e' :
  lru_wf s → e ∈ ll s → e' ∈ ll s →
  ID (block (el_value e)) = ID (block (el_value e')) → e = e'.
Proof.
  intros Hwf He He' Hid. eapply NoDup_fmap_inj; [apply (wf_ptr s Hwf)|done|done|].
  assert (items s !! ID (block (el_value e)) = Some (el_ptr e)) as H1 by (apply wf_items; eauto).
  assert (items s !! ID (block (el_value e)) = Some (el_ptr e')) as H2
    by (apply wf_items; [done|]; eauto).
  congruence.
Qed.

Lemma wf_ids s : lru_wf s → NoDup (ID <$> order s).
Proof.
  intros Hwf. unfold order. rewrite <-list_fmap_compose. apply NoDup_fmap_in.
  - eapply NoDup_fmap_1, (wf_ptr s Hwf).
  - intros. by eapply wf_elem_unique.
Qed.

Lemma wf_present s id p e :
  lru_wf s → items s !! id = Some p → e ∈ ll s → el_ptr e = p ↔ ID (block (el_value e)) = id.
Proof.
  intros Hwf Hp He. pose proof Hp as (e' & He' & <- & <-)%wf_items; [|done]. split.
  - intros Heq. by rewrite (NoDup_fmap_inj el_ptr (ll s) e e' (wf_ptr s Hwf) He He' Heq).
  - intros Heq. by rewrite (wf_elem_unique s e e' Hwf He He' Heq).
Qed.

Lemma NewLRU_wf c : c < 9223372036854775808 → lru_wf (NewLRU c).
Proof.
  intros Hc. split; simpl; [done|constructor|set_solver| |set_solver|done|lia].
  intros id p. split; [by intros []%lookup_empty_Some|]. intros (e & []%elem_of_nil & _).
Qed.

Lemma list_MoveToFront_perm p l : list_MoveToFront p l ≡ₚ l.
Proof. unfold list_MoveToFront, list_Remove. apply filter_app_complement. Qed.

Lemma wf_perm s l st :
  lru_wf s → l ≡ₚ ll s → lru_wf (with_ll (with_stats s st) l).
Proof.
  intros [H1 H2 H3 H4 H5 H6 H7] Hl. split; simpl; try done.
  - by rewrite Hl.
  - intros e. rewrite Hl. apply H3.
  - intros id p. rewrite H4. by setoid_rewrite Hl.
  - intros e. rewrite Hl. apply H5.
  - rewrite H6. unfold order. simpl. by rewrite Hl.
Qed.

Lemma wf_stats s st : lru_wf s → lru_wf (with_stats s st).
Proof. by intros [H1 H2 H3 H4 H5 H6 H7]. Qed.

Lemma order_MoveToFront s id p st :
  lru_wf s → items s !! id = Some p →
  order (with_ll (with_stats s st) (list_MoveToFront p (ll s))) = to_front id (order s).
Proof.
  intros Hwf Hp. unfold order, to_front, list_MoveToFront, list_Remove. simpl.
  rewrite fmap_app, !filter_fmap. f_equal; f_equal; apply filter_ext_in; intros e He.
  - by apply (wf_present s id p e).
  - by rewrite (wf_present s id p e).
Qed.

Lemma deref_present s id p :
  lru_wf s → items s !! id = Some p →
  ∃ e, deref p (ll s) = Some e ∧ e ∈ ll s ∧ ID (block (el_value e)) = id.
Proof.
  intros Hwf Hp. pose proof Hp as (e & He & Hep & Hid)%wf_items; [|done]. unfold deref.
  assert (e ∈ filter (λ e, el_ptr e = p) (ll s)) as Hin by (by apply list_elem_of_filter).
  destruct (filter _ (ll s)) as [|e' l] eqn:Hf; [set_solver|]. exists e'. split; [done|].
  assert (e' ∈ filter (λ e, el_ptr e = p) (ll s)) as [Hp' Hin']%list_elem_of_filter
    by (rewrite Hf; by left).
  split; [done|]. by apply (wf_present s id p e').
Qed.

(** ** Eviction *)
Lemma list_Remove_last l el :
  NoDup (el_ptr <$> l ++ [el]) → list_Remove (el_ptr el) (l ++ [el]) = l.
Proof.
  rewrite fmap_app. intros (_ & Hd & _)%NoDup_app. unfold list_Remove. rewrite filter_app.
  rewrite filter_all; [rewrite filter_cons_False by naive_solver; by rewrite filter_nil, app_nil_r|].
  apply Forall_forall. intros e He Heq. apply (Hd (el_ptr e)); [|by rewrite Heq; left].
  apply list_elem_of_fmap. eauto.
Qed.

Lemma evictOldest_spec s l el :
  lru_wf s → ll s = l ++ [el] →
  ∃ s', evictOldest s = Some s' ∧ lru_wf s' ∧ ll s' = l ∧ cap s' = cap s ∧ next_ptr s' = next_ptr s ∧
    items s' = delete (ID (block (el_value el))) (items s).
Proof.
  intros Hwf Hll. unfold evictOldest. rewrite Hll, last_snoc. simpl. eexists. split; [done|].
  pose proof Hwf as [H1 H2 H3 H4 H5 H6 H7]. rewrite Hll in H2, H3, H5.
  assert (el ∈ l ++ [el]) as Hel by set_solver.
  assert (used s = total ((λ e, block (el_value e)) <$> l) + blockSize (block (el_value el))) as Hu.
  { rewrite H6. unfold order. rewrite Hll, fmap_app, total_app. unfold BlockStore.total at 2. cbn. lia. }
  split_and!; simpl; [|by apply list_Remove_last|done|done|done].
  split; simpl; rewrite ?list_Remove_last by done.
  - done.
  - rewrite fmap_app in H2. by apply NoDup_app in H2 as [? _].
  - set_solver.
  - intros id p. rewrite lookup_delete_Some, H4, Hll. split.
    + intros [Hne (e & He & Hp & Hid)]. exists e. split_and!; [|done|done].
      apply elem_of_app in He as [|[->|[]%elem_of_nil]%elem_of_cons]; done.
    + intros (e & He & Hp & Hid). split; [|exists e; set_solver]. intros Heq.
      assert (e = el) as ->.
      { apply (wf_elem_unique s); [done|rewrite Hll; set_solver|rewrite Hll; set_solver|congruence]. }
      rewrite fmap_app in H2. apply NoDup_app in H2 as (_ & Hd & _).
      apply (Hd (el_ptr el)); [apply list_elem_of_fmap; eauto|by left].
  - set_solver.
  - rewrite (H5 el Hel). unfold order. simpl.
    rewrite sub64_small; [lia|lia|unfold two64; lia].
  - rewrite (H5 el Hel), sub64_small; [lia|lia|unfold two64; lia].
Qed.

(** The loop evicts from the back exactly until the new block fits. *)
Lemma evict_loop_spec fuel sz s :
  lru_wf s → sz ≤ cap s → (length (ll s) < fuel)%nat →
  ∃ s', evict_loop fuel sz s = Some s' ∧ lru_wf s' ∧ cap s' = cap s ∧
    order s' = keep (cap s - sz) (order s) ∧ used s' + sz ≤ cap s ∧
    (∀ id, items s !! id = None → items s' !! id = None).
Proof.
  revert s. induction fuel as [|fuel IH]; intros s Hwf Hsz Hf; [lia|]. cbn [evict_loop].
  pose proof Hwf as [Hcap _ _ _ _ Hused Hfits]. rewrite u64_small by (unfold two64; lia).
  destruct (N.ltb_spec (cap s) (used s + sz)) as [Hlt|Hge].
  - destruct (ll s) as [|el0 l0 _] eqn:Hll using rev_ind.
    { unfold order in Hused. rewrite Hll in Hused. unfold BlockStore.total in Hused. cbn in Hused. lia. }
    destruct (evictOldest_spec s l0 el0 Hwf Hll) as (s1 & -> & Hwf1 & Hll1 & Hc1 & Hn1 & Hi1).
    rewrite length_app in Hf. simpl in *.
    destruct (IH s1 Hwf1) as (s2 & -> & Hwf2 & Hc2 & Ho2 & Hf2 & Hi2);
      [by rewrite Hc1|rewrite Hll1; lia|].
    exists s2. split_and!; [done|done|congruence| |lia|].
    + rewrite Ho2, Hc1. unfold order. rewrite Hll, Hll1, fmap_app. symmetry. apply keep_snoc.
      change [block (el_value el0)] with ((λ e, block (el_value e)) <$> [el0]).
      rewrite <-fmap_app, <-Hll. change (cap s - sz < total (order s)). lia.
    + intros id Hid. apply Hi2. rewrite Hi1. rewrite lookup_delete_None. by right.
  - exists s. split_and!; [done|done|done| |lia|done]. symmetry. apply keep_all. lia.
Qed.

(** ** Operations *)
Lemma items_order s id : lru_wf s → is_Some (items s !! id) ↔ id ∈ ID <$> order s.
Proof.
  intros Hwf. unfold order. rewrite <-list_fmap_compose, list_elem_of_fmap. split.
  - intros [p (e & He & _ & <-)%wf_items]; [|done]. eauto.
  - intros (e & -> & He). exists (el_ptr e). apply wf_items; [done|]. eauto.
Qed.

Lemma lru_Put_order s b :
  lru_wf s → payload_ok b →
  ∃ s' stored, lru_Put s b = Some (s', stored) ∧ lru_wf s' ∧ cap s' = cap s ∧
    stored = bool_decide (ID b ∉ ID <$> order s ∧ blockSize b ≤ cap s) ∧
    order s' = if stored then b :: keep (cap s - blockSize b) (order s) else to_front (ID b) (order s).
Proof.
  intros Hwf Hb. unfold lru_Put. destruct (items s !! ID b) as [p|] eqn:Hp.
  - exists (with_ll s (list_MoveToFront p (ll s))), false.
    assert (ID b ∈ ID <$> order s) by (apply items_order; [done|by rewrite Hp]).
    split_and!; [done| |done|symmetry; apply bool_decide_eq_false; naive_solver|].
    + apply (wf_perm s _ (stats s)); [done|apply list_MoveToFront_perm].
    + by apply (order_MoveToFront s (ID b) p (stats s)).
  - assert (ID b ∉ ID <$> order s) as Hno.
    { rewrite <-items_order by done. rewrite Hp. apply is_Some_None. }
    destruct (N.ltb_spec (cap s) (blockSize b)) as [Hbig|Hfit].
    { exists s, false. split_and!; [done|done|done|symmetry; apply bool_decide_eq_false; intros []; lia|].
      by rewrite to_front_absent. }
    destruct (evict_loop_spec (S (length (ll s))) (blockSize b) s Hwf Hfit) as
      (s1 & -> & Hwf1 & Hc1 & Ho1 & Hf1 & Hi1); [lia|]. simpl.
    eexists _, true. split_and!; [done| |done|symmetry; by apply bool_decide_eq_true|].
    + pose proof Hwf1 as [W1 W2 W3 W4 W5 W6 W7]. specialize (Hi1 _ Hp).
      split; simpl; [done| | | | | |].
      * constructor; [|done]. intros (e & He & Hin%W3)%list_elem_of_fmap. lia.
      * intros e [->|?%W3]%elem_of_cons; simpl; lia.
      * intros id p. rewrite lookup_insert_Some, W4. split.
        -- intros [[<- <-]|[Hne (e & ? & ? & ?)]]; [eexists; split; [by left|done]|].
           exists e. split; [by right|done].
        -- intros (e & [->|He]%elem_of_cons & Hpe & Hid); simpl in *; [by left|right].
           split; [|eauto]. intros Heq. subst id.
           assert (items s1 !! ID b = Some (el_ptr e)) as Hs by (apply W4; eauto). congruence.
      * intros e [->|?%W5]%elem_of_cons; done.
      * rewrite u64_small by (unfold two64; lia).
        change (used s1 + blockSize b = blockSize b + total (order s1)). lia.
      * rewrite u64_small by (unfold two64; lia). lia.
    + unfold order in *. cbn. f_equal. exact Ho1.
Qed.

Lemma lru_Get_order s id :
  lru_wf s → ∃ s', lru_Get s id = Some (s', by_id (order s) !! id) ∧ lru_wf s' ∧ cap s' = cap s ∧
    order s' = to_front id (order s).
Proof.
  intros Hwf. unfold lru_Get. destruct (items s !! id) as [p|] eqn:Hp.
  - destruct (deref_present s id p Hwf Hp) as (e & -> & He & Hid). simpl. eexists. split_and!.
    + do 3 f_equal. symmetry. apply lookup_by_id; [by apply wf_ids|]. split; [|done].
      apply list_elem_of_fmap. eauto.
    + apply wf_perm; [done|apply list_MoveToFront_perm].
    + done.
    + by apply order_MoveToFront.
  - assert (id ∉ ID <$> order s) as Hno.
    { rewrite <-items_order by done. rewrite Hp. apply is_Some_None. }
    eexists. split_and!; [|by apply wf_stats|done|by rewrite to_front_absent].
    do 2 f_equal. symmetry. by apply by_id_None.
Qed.

Lemma lru_Contains_Get s id :
  lru_wf s → ∃ s' r, lru_Get s id = Some (s', r) ∧ lru_Contains s id = Some (s', bool_decide (is_Some r)).
Proof.
  intros Hwf. unfold lru_Get, lru_Contains. destruct (items s !! id) as [p|] eqn:Hp; [|eauto].
  destruct (deref_present s id p Hwf Hp) as (e & -> & _). simpl. eauto.
Qed.

Lemma lru_Touch_order s id :
  lru_wf s → ∃ s', lru_Touch s id = Some s' ∧ lru_wf s' ∧ cap s' = cap s ∧ order s' = to_front id (order s).
Proof.
  intros Hwf. unfold lru_Touch. destruct (items s !! id) as [p|] eqn:Hp; eexists; split_and!; try done.
  - apply (wf_perm s _ (stats s)); [done|apply list_MoveToFront_perm].
  - by apply (order_MoveToFront s id p (stats s)).
  - rewrite to_front_absent; [done|]. rewrite <-items_order by done. rewrite Hp. apply is_Some_None.
Qed.

(** ** The LRU store keeps the store contract *)
#[global] Program Instance LRU_StoreSpec : StoreSpec LRU := {
  store_wf := lru_wf; view s := by_id (order s)
}.
Next Obligation.
  intros s b Hwf Hb. destruct (lru_Put_order s b Hwf Hb) as (s' & st & H1 & H2 & _ & H4 & H5).
  exists s', st. split_and!; [done|done| |]; intros ->.
  - symmetry in H4. apply bool_decide_eq_true in H4 as [Hno _].
    pose proof (wf_ids _ H2) as Hnd'. rewrite H5 in *.
    apply by_id_put; [by apply wf_ids|done|done|apply keep_sub].
  - rewrite H5. symmetry. apply by_id_perm; [by apply wf_ids|]. by rewrite to_front_perm.
Qed.
Next Obligation.
  intros s id Hwf. destruct (lru_Get_order s id Hwf) as (s' & H1 & H2 & _ & H4).
  exists s'. split_and!; [done|done|]. rewrite H4. symmetry.
  apply by_id_perm; [by apply wf_ids|]. by rewrite to_front_perm.
Qed.
Next Obligation.
  intros s id Hwf. destruct (lru_Get_order s id Hwf) as (s' & H1 & H2 & _ & H4).
  destruct (lru_Contains_Get s id Hwf) as (s'' & r & H1' & H5).
  assert (s'' = s' ∧ r = by_id (order s) !! id) as [-> ->] by (split; congruence).
  exists s'. split_and!; [done|done|]. rewrite H4. symmetry.
  apply by_id_perm; [by apply wf_ids|]. by rewrite to_front_perm.
Qed.
Next Obligation.
  intros s id Hwf. destruct (lru_Touch_order s id Hwf) as (s' & H1 & H2 & _ & H4).
  exists s'. split_and!; [done|done|]. rewrite H4. symmetry.
  apply by_id_perm; [by apply wf_ids|]. by rewrite to_front_perm.
Qed.
Next Obligation.
  intros s id b Hwf Hb. by apply lookup_by_id in Hb as [_ ?]; [|by apply wf_ids].
Qed.
Next Obligation. intros s Hwf. apply (wf_fits s Hwf). Qed.

(** Room: the new blocks fit beside the resident ones. *)
#[global] Program Instance LRU_StoreRoom : StoreRoom LRU := {
  room s bs := total (order s) + total bs ≤ cap s
}.
Next Obligation.
  intros s b bs Hwf Hb Hroom. change (total (order s) + (blockSize b + total bs) ≤ cap s) in Hroom.
  destruct (lru_Put_order s b Hwf Hb) as (s' & st & H1 & H2 & H3 & H4 & H5).
  assert (by_id (to_front (ID b) (order s)) = by_id (order s)) as Hp.
  { symmetry. apply by_id_perm; [by apply wf_ids|by rewrite to_front_perm]. }
  exists s', st. rewrite H3, H5. split_and!; [done|done|..]; destruct st.
  - rewrite keep_all by lia. change (total (b :: order s)) with (blockSize b + total (order s)). lia.
  - rewrite to_front_perm. lia.
  - simpl. rewrite H5, keep_all by lia. apply insert_subseteq. symmetry in H4.
    apply bool_decide_eq_true in H4 as [Hno _]. by apply by_id_None.
  - simpl. by rewrite H5, Hp.
  - simpl. rewrite H5. exists b. apply lookup_insert_eq.
  - symmetry in H4. apply bool_decide_eq_false in H4.
    assert (ID b ∈ ID <$> order s) as Hin by (destruct (decide (ID b ∈ ID <$> order s)); [done|destruct H4; split; [done|lia]]).
    simpl. rewrite H5, Hp.
    apply not_eq_None_Some. by intros Hn%by_id_None.
Qed.
Next Obligation.
  intros s id s' r bs Hwf Heq. simpl. destruct (lru_Contains_Get s id Hwf) as (s1 & x & Hg & Hc).
  destruct (lru_Get_order s id Hwf) as (s2 & Hg' & _ & Hcap & Ho). cbn in Heq.
  assert (s' = s2) as -> by congruence. by rewrite Ho, to_front_perm, Hcap.
Qed.
Next Obligation.
  intros s id s' r bs Hwf Heq. simpl. destruct (lru_Get_order s id Hwf) as (s2 & Hg' & _ & Hcap & Ho). cbn in Heq.
  assert (s' = s2) as -> by congruence. by rewrite Ho, to_front_perm, Hcap.
Qed.
Next Obligation.
  intros s id s' bs Hwf Heq. simpl. destruct (lru_Touch_order s id Hwf) as (s2 & Hg' & _ & Hcap & Ho). cbn in Heq.
  assert (s' = s2) as -> by congruence. by rewrite Ho, to_front_perm, Hcap.
Qed.
Next Obligation. simpl. intros s bs bs' Hsub Hroom. pose proof (total_submseteq blockSize _ _ Hsub). lia. Qed.

(** ** Properties *)

(** C16. The store is a true LRU over its byte budget: every operation does to the
    blocks in recency order what the specification says.  A hit moves its block to
    the front; a new block goes to the front and the longest prefix of the rest
    that still fits stays, so the least recently used blocks go, and no more than
    needed; the occupancy is the exact sum of block sizes and never exceeds the
    capacity. *)
Theorem lru_refines_recency_order s b id :
  lru_wf s → payload_ok b →
  (∃ s' stored, lru_Put s b = Some (s', stored) ∧
     stored = bool_decide (ID b ∉ ID <$> order s ∧ blockSize b ≤ cap s) ∧
     order s' = (if stored then b :: keep (cap s - blockSize b) (order s)
                 else to_front (ID b) (order s)) ∧
     used s' = total (order s') ∧ used s' ≤ cap s) ∧
  (∃ s', lru_Get s id = Some (s', by_id (order s) !! id) ∧ order s' = to_front id (order s)) ∧
  (∃ s', lru_Contains s id = Some (s', bool_decide (id ∈ ID <$> order s)) ∧
     order s' = to_front id (order s)) ∧
  (∃ s', lru_Touch s id = Some s' ∧ order s' = to_front id (order s)).
Proof.
  intros Hwf Hb. destruct (lru_Get_order s id Hwf) as (s1 & G1 & _ & _ & G4).
  destruct (lru_Contains_Get s id Hwf) as (s2 & r & C1 & C2).
  assert (s2 = s1 ∧ r = by_id (order s) !! id) as [-> ->] by (split; congruence).
  split_and!.
  - destruct (lru_Put_order s b Hwf Hb) as (s' & st & H1 & H2 & H3 & H4 & H5).
    exists s', st. split_and!; [done|done|done|apply (wf_used s' H2)|].
    rewrite <-H3. apply (wf_fits s' H2).
  - by exists s1.
  - exists s1. split; [|done]. rewrite C2. do 2 f_equal. apply bool_decide_ext.
    rewrite <-items_order by done. unfold is_Some at 1. setoid_rewrite lookup_by_id; [|by apply wf_ids].
    rewrite items_order by done. rewrite list_elem_of_fmap. naive_solver.
  - destruct (lru_Touch_order s id Hwf) as (s' & H1 & _ & _ & H4). by exists s'.
Qed.

Definition demo_block (i : byte) : Block := MkBlock [i] [] "m" [i; i] 1 10.

(** Room for two blocks, both there: a third one evicts the least recent; reading the
    least recent makes it the most recent. *)
Definition demo_put (b : Block) (s : LRU) : LRU := default s (fst <$> lru_Put s b).
Definition demo_filled : LRU := demo_put (demo_block x02) (demo_put (demo_block x01) (NewLRU 300)).

Lemma demo_put_wf b s : payload_ok b → lru_wf s → lru_wf (demo_put b s).
Proof. intros Hb Hwf. destruct (lru_Put_order s b Hwf Hb) as (s' & st & H & W & _). unfold demo_put. by rewrite H. Qed.
Lemma demo_filled_wf : lru_wf demo_filled.
Proof. apply demo_put_wf, demo_put_wf; [done|done|by apply NewLRU_wf]. Qed.

Lemma lru_refines_recency_order_witness :
  order demo_filled = [demo_block x02; demo_block x01] ∧
  (∃ s', lru_Put demo_filled (demo_block x03) = Some (s', true) ∧ order s' = [demo_block x03; demo_block x02]) ∧
  (∃ s', lru_Get demo_filled [x01] = Some (s', Some (demo_block x01)) ∧
     order s' = [demo_block x01; demo_block x02]).
Proof.
  destruct (lru_refines_recency_order demo_filled (demo_block x03) [x01])
    as ((s1 & st & P1 & P2 & P3 & _) & (s2 & G1 & G2) & _).
  - apply demo_filled_wf.
  - reflexivity.
  - split; [vm_compute; reflexivity|]. split.
    + exists s1. vm_compute in P2. rewrite P2 in P1, P3. split; [exact P1|]. rewrite P3. vm_compute. reflexivity.
    + exists s2. split; [rewrite G1; vm_compute; reflexivity|]. rewrite G2. vm_compute. reflexivity.
Defined.
End LRU.
