(* ===== verification/Float64.v ===== *)
(** * float64

    The floating-point operations the sources use, on SpecFloat's inductive model of
    IEEE binary64 (53 bits of precision, exponents up to 1024, rounding to nearest
    even).  Go may fuse a multiplication and an addition on some architectures; the
    model rounds both. *)

From Stdlib Require Import Floats.SpecFloat.
From S2P Require Import Prelude.

Module float64.
Definition of_Z (z : Z) : spec_float := binary_normalize 53 1024 z 0 false.
Definition of_N (n : N) : spec_float := of_Z (Z.of_N n).
Definition add : spec_float → spec_float → spec_float := SFadd 53 1024.
Definition mul : spec_float → spec_float → spec_float := SFmul 53 1024.
Definition div : spec_float → spec_float → spec_float := SFdiv 53 1024.
Definition sub : spec_float → spec_float → spec_float := SFsub 53 1024.
Definition opp : spec_float → spec_float := SFopp.
Definition ltb : spec_float → spec_float → bool := SFltb.
Definition leb : spec_float → spec_float → bool := SFleb.
Definition eqb : spec_float → spec_float → bool := SFeqb.
(** [float32(x)]: rounding to 24 bits. *)
Definition to_float32 (x : spec_float) : spec_float :=
  match x with S754_finite s m e => binary_round 24 128 s m e | _ => x end.
(** The builtin [min]: NaN if one is NaN, [-0] below [+0]. *)
Definition min (x y : spec_float) : spec_float :=
  match SFcompare x y with
  | None => S754_nan
  | Some Lt => x
  | Some Gt => y
  | Some Eq => match x with S754_zero true => x | _ => y end
  end.
(** [Duration.Seconds]: whole seconds plus the rest over 1e9. *)
Definition seconds (d : Z) : spec_float :=
  add (of_Z (Z.quot d 1000000000)) (div (of_Z (Z.rem d 1000000000)) (of_Z 1000000000)).

(** [<] is transitive, NaN included: nothing is below or above NaN. *)
Lemma ltb_trans x y z : ltb x y = true → ltb y z = true → ltb x z = true.
Proof.
  unfold ltb, SFltb. intros Hxy Hyz.
  destruct x as [?|[]| |[] m1 e1], y as [?|[]| |[] m2 e2], z as [?|[]| |[] m3 e3];
    simpl in *; try done; revert Hxy Hyz;
    change (Pos.compare_cont Eq ?a ?b) with (Pos.compare a b);
    destruct (Z.compare_spec e1 e2), (Z.compare_spec e2 e3), (Z.compare_spec e1 e3); try done; try lia;
    destruct (Pos.compare_spec m1 m2), (Pos.compare_spec m2 m3), (Pos.compare_spec m1 m3); simpl; try done; lia.
Qed.

Lemma ltb_irrefl x : ltb x x = false.
Proof.
  unfold ltb, SFltb. destruct x as [?|[]| |[] m e]; simpl; try done;
    rewrite Z.compare_refl; change (Pos.compare_cont Eq m m) with (Pos.compare m m);
    by rewrite Pos.compare_refl.
Qed.

Definition is_nan (x : spec_float) : bool := match x with S754_nan => true | _ => false end.

(** Without NaN, "not below" is transitive. *)
Lemma ltb_neg_trans x y z :
  is_nan y = false → ltb y x = false → ltb z y = false → is_nan x = false → is_nan z = false →
  ltb z x = false.
Proof.
  unfold ltb, SFltb. intros Hy Hyx Hzy Hx Hz.
  destruct x as [?|[]| |[] m1 e1], y as [?|[]| |[] m2 e2], z as [?|[]| |[] m3 e3];
    simpl in *; try done; revert Hyx Hzy;
    change (Pos.compare_cont Eq ?a ?b) with (Pos.compare a b);
    destruct (Z.compare_spec e2 e1), (Z.compare_spec e3 e2), (Z.compare_spec e3 e1); try done; try lia;
    destruct (Pos.compare_spec m2 m1), (Pos.compare_spec m3 m2), (Pos.compare_spec m3 m1); simpl; try done; lia.
Qed.

(** Sorting by a float key, NaN first: a total preorder. *)
Definition key_le {A} (x y : A * spec_float) : Prop :=
  is_nan x.2 || (negb (is_nan y.2) && negb (ltb y.2 x.2)) = true.
#[global] Instance key_le_dec {A} : RelDecision (@key_le A).
Proof. intros x y. unfold key_le. apply _. Defined.
#[global] Instance key_le_total {A} : Total (@key_le A).
Proof.
  intros x y. unfold key_le. destruct (is_nan x.2), (is_nan y.2); simpl; auto.
  destruct (ltb y.2 x.2) eqn:H1; simpl; auto. right. destruct (ltb x.2 y.2) eqn:H2; [|done].
  pose proof (ltb_trans _ _ _ H1 H2) as H. by rewrite ltb_irrefl in H.
Qed.
#[global] Instance key_le_trans {A} : Transitive (@key_le A).
Proof.
  intros x y z. unfold key_le. destruct (is_nan x.2) eqn:Hx, (is_nan y.2) eqn:Hy, (is_nan z.2) eqn:Hz; simpl; try done.
  rewrite !negb_true_iff. intros. by apply (ltb_neg_trans x.2 y.2 z.2).
Qed.

Lemma merge_sort_key {A} (l : list (A * spec_float)) i j x y :
  (∀ z, z ∈ l → z.2 ≠ S754_nan) → (i < j)%nat →
  merge_sort key_le l !! i = Some x → merge_sort key_le l !! j = Some y → ltb y.2 x.2 = false.
Proof.
  intros Hnan Hij Hi Hj.
  assert (x ∈ l) as Hx by (rewrite <-(merge_sort_Permutation key_le l); by eapply list_elem_of_lookup_2).
  assert (StronglySorted key_le (merge_sort key_le l)) as Hs by (apply StronglySorted_merge_sort; apply _).
  revert i j Hij Hi Hj. induction Hs as [|z k Hs IH Hz]; intros i j Hij Hi Hj; [done|].
  destruct j as [|j]; [lia|]. destruct i as [|i]; simpl in *; [|by apply (IH i j); [lia|..]].
  injection Hi as ->. eapply Forall_forall in Hz; [|by eapply list_elem_of_lookup_2].
  unfold key_le in Hz. specialize (Hnan x Hx). destruct (is_nan x.2) eqn:Hxn.
  { by destruct x.2. }
  simpl in Hz. by apply andb_true_iff in Hz as [_ ?%negb_true_iff].
Qed.
End float64.
