(* ===== verification/FloatRound.v ===== *)
(** * Rounding to float64: conversions from integers and scaling by a factor below one

    What the collectors and the latency report need of binary64: [float64(n)] is exact
    below 2^53 and monotone for every [uint64], and [int(p * float64(n))] stays within
    [n] for a factor [p < 1].  The proofs follow SpecFloat's rounding: an aligned
    mantissa is shifted to 53 digits ([shr_rep]: quotient, and where the remainder
    lies), rounded to nearest even and renormalised after a carry. *)

From Stdlib Require Import Floats.SpecFloat.
From S2P Require Import Prelude Float64.

Module float64_round.
Import float64.
Local Open Scope Z_scope.

(** ** Shifting right *)

(** [rec] is [m] shifted right by [k] bits: the quotient, and the position of the
    remainder relative to one half of the unit. *)
Definition shr_rep (m k : Z) (rec : shr_record) : Prop :=
  ∃ R, m = shr_m rec * 2 ^ k + R ∧ 0 ≤ R < 2 ^ k ∧ 0 ≤ shr_m rec ∧
    match shr_r rec, shr_s rec with
    | false, false => R = 0
    | false, true => 0 < R ∧ 2 * R < 2 ^ k
    | true, false => 2 * R = 2 ^ k
    | true, true => 2 ^ k < 2 * R
    end.

Lemma shr_rep_0 m : 0 ≤ m → shr_rep m 0 (Build_shr_record m false false).
Proof. intros Hm. exists 0. simpl. lia. Qed.

Lemma shr_1_rep m k rec : 0 ≤ k → shr_rep m k rec → shr_rep m (k + 1) (shr_1 rec).
Proof.
  intros Hk (R & Hm & HR & Hq & Hrs). destruct rec as [q r s]. simpl in *.
  assert (2 ^ (k + 1) = 2 * 2 ^ k) as Hpow by (rewrite Z.pow_add_r by lia; lia).
  assert (∀ q' b, q = 2 * q' + Z.b2z b → 0 ≤ q' →
    shr_rep m (k + 1) (Build_shr_record q' b (r || s))) as Hgoal.
  { intros q' b Hq' ?. exists (R + Z.b2z b * 2 ^ k). unfold shr_m, shr_r, shr_s. rewrite Hpow.
    subst q. destruct b, r, s; simpl in *; lia. }
  destruct q as [|[p|p|]|p]; simpl; try lia.
  - by apply (Hgoal 0 false).
  - apply (Hgoal (Zpos p) true); simpl; lia.
  - apply (Hgoal (Zpos p) false); simpl; lia.
  - by apply (Hgoal 0 true).
Qed.

Lemma iter_shr_rep m k p rec : 0 ≤ k → shr_rep m k rec → shr_rep m (k + Zpos p) (SpecFloat.iter_pos shr_1 p rec).
Proof.
  revert k rec. induction p as [p IH|p IH|]; intros k rec Hk Hr; cbn [SpecFloat.iter_pos].
  - replace (k + Zpos p~1) with (k + 1 + Zpos p + Zpos p) by lia.
    apply IH; [lia|]. apply IH; [lia|]. by apply shr_1_rep.
  - replace (k + Zpos p~0) with (k + Zpos p + Zpos p) by lia. apply IH; [lia|]. by apply IH.
  - by apply shr_1_rep.
Qed.

(** The quotient rounded to nearest even. *)
Definition rounded (rec : shr_record) : Z := round_nearest_even (shr_m rec) (loc_of_shr_record rec).

Lemma rounded_range rec : shr_m rec ≤ rounded rec ≤ shr_m rec + 1.
Proof. unfold rounded. destruct rec as [q [] []]; simpl; try lia. destruct (Z.even q); lia. Qed.

Lemma rounded_mono m m' k rec rec' :
  m ≤ m' → shr_rep m k rec → shr_rep m' k rec' → rounded rec ≤ rounded rec'.
Proof.
  intros Hm (R & HR & HRk & ? & Hrs) (R' & HR' & HRk' & ? & Hrs').
  pose proof (rounded_range rec). pose proof (rounded_range rec').
  destruct (Z.lt_trichotomy (shr_m rec) (shr_m rec')) as [?|[Heq|?]]; [lia| |nia].
  assert (R ≤ R') by (rewrite Heq in HR; lia). clear HR HR'.
  unfold rounded. destruct rec as [q [] []], rec' as [q' [] []]; simpl in *; subst q';
    try destruct (Z.even q); lia.
Qed.

(** ** Digits *)
Definition digits (m : positive) : Z := Zpos (digits2_pos m).

Lemma digits_spec m : 1 ≤ digits m ∧ 2 ^ (digits m - 1) ≤ Zpos m < 2 ^ digits m.
Proof.
  unfold digits. induction m as [m IH|m IH|]; cbn [digits2_pos]; [| |simpl; lia];
    rewrite Pos2Z.inj_succ;
    replace (Z.succ (Zpos (digits2_pos m)) - 1) with (Z.succ (Zpos (digits2_pos m) - 1)) by lia;
    rewrite !Z.pow_succ_r by lia; lia.
Qed.

Lemma digits_unique m d : 1 ≤ d → 2 ^ (d - 1) ≤ Zpos m < 2 ^ d → digits m = d.
Proof.
  intros Hd Hm. destruct (digits_spec m) as [H1 H2].
  assert (digits m - 1 < d) by (apply (Z.pow_lt_mono_r_iff 2); lia).
  assert (d - 1 < digits m) by (apply (Z.pow_lt_mono_r_iff 2); lia). lia.
Qed.

Lemma digits_mono m m' : (m ≤ m')%positive → digits m ≤ digits m'.
Proof.
  intros Hm. destruct (digits_spec m) as [? [? _]], (digits_spec m') as [? [_ ?]].
  assert (digits m - 1 < digits m') by (apply (Z.pow_lt_mono_r_iff 2); lia). lia.
Qed.

Lemma digits_shl m d : digits (Pos.iter xO m d) = digits m + Zpos d ∧ Zpos (Pos.iter xO m d) = Zpos m * 2 ^ Zpos d.
Proof.
  induction d as [|d [IH1 IH2]] using Pos.peano_ind; [simpl; unfold digits; simpl; lia|].
  rewrite Pos.iter_succ, Pos2Z.inj_succ, Z.pow_succ_r by lia. unfold digits in *. simpl. lia.
Qed.

(** ** Rounding a mantissa of at least 53 digits, far from the exponents' limits *)

(** A mantissa of 2^53 after rounding is a carry into the next exponent. *)
Definition finish (b : bool) (r e : Z) : spec_float :=
  if r <? 2 ^ 53 then S754_finite b (Z.to_pos r) e else S754_finite b (2 ^ 52)%positive (e + 1).

Lemma shr_fexp_spec m e :
  53 ≤ digits m → -1021 ≤ digits m + e →
  ∃ rec, shr_fexp 53 1024 (Zpos m) e loc_Exact = (rec, e + (digits m - 53)) ∧
    shr_rep (Zpos m) (digits m - 53) rec.
Proof.
  intros Hd He. unfold shr_fexp, fexp, emin. cbn [Zdigits2]. fold (digits m).
  rewrite Z.max_l by lia. replace (digits m + e - 53 - e) with (digits m - 53) by lia.
  pose proof (shr_rep_0 (Zpos m) ltac:(lia)) as H0. unfold shr, shr_record_of_loc.
  destruct (digits m - 53) as [|k|k] eqn:Hk; [|eexists; split; [done|]|lia].
  - eexists. split; [f_equal; lia|done].
  - by apply (iter_shr_rep (Zpos m) 0 k).
Qed.

Lemma shr_rep_quotient m rec :
  53 ≤ digits m → shr_rep (Zpos m) (digits m - 53) rec → 2 ^ 52 ≤ shr_m rec < 2 ^ 53.
Proof.
  intros Hd (R & Hm & HR & _). destruct (digits_spec m) as [_ Hm'].
  set (k := digits m - 53) in *.
  replace (digits m - 1) with (52 + k) in Hm' by lia. replace (digits m) with (53 + k) in Hm' at 1 by lia.
  rewrite !Z.pow_add_r in Hm' by lia. nia.
Qed.

Lemma round_aux_spec b m e :
  53 ≤ digits m → -1021 ≤ digits m + e ≤ 1000 →
  ∃ rec, shr_rep (Zpos m) (digits m - 53) rec ∧ 2 ^ 52 ≤ shr_m rec < 2 ^ 53 ∧
    binary_round_aux 53 1024 b (Zpos m) e loc_Exact = finish b (rounded rec) (e + (digits m - 53)).
Proof.
  intros Hd He. destruct (shr_fexp_spec m e Hd ltac:(lia)) as (rec & Heq & Hrep).
  pose proof (shr_rep_quotient _ _ Hd Hrep) as Hq. exists rec. split_and!; [done|lia|lia|].
  unfold binary_round_aux. rewrite Heq. fold (rounded rec). pose proof (rounded_range rec).
  set (e' := e + (digits m - 53)). assert (-1074 ≤ e' ≤ 947) by lia.
  destruct (rounded rec) as [|r|] eqn:Hr; [lia| |lia]. unfold finish.
  destruct (Z.ltb_spec (Zpos r) (2 ^ 53)) as [Hlt|Hge].
  - assert (digits r = 53) as Hdr by (apply digits_unique; simpl; lia).
    destruct (shr_fexp_spec r e' ltac:(lia) ltac:(lia)) as (rec' & Heq' & Hrep').
    rewrite Heq', Hdr. rewrite Hdr in Hrep'. destruct Hrep' as (R & Hm & HR & _).
    replace (shr_m rec') with (Zpos r) by (simpl in *; lia).
    replace (e' + (53 - 53)) with e' by lia. rewrite (proj2 (Z.leb_le _ _)) by (simpl; lia). done.
  - assert (r = (2 ^ 53)%positive) as -> by lia. unfold shr_fexp, fexp, emin.
    cbn [Zdigits2]. change (Zpos (digits2_pos (2 ^ 53))) with 54. rewrite Z.max_l by lia.
    replace (54 + e' - 53 - e') with 1 by lia. simpl.
    rewrite (proj2 (Z.leb_le _ _)) by lia. done.
Qed.

(** ** [float64(n)] *)

(** Below 2^53 the value is [n], normalised to 53 digits. *)
Lemma of_Z_small m : digits m ≤ 53 → of_Z (Zpos m) = S754_finite false (Z.to_pos (Zpos m * 2 ^ (53 - digits m))) (digits m - 53).
Proof.
  intros Hd. destruct (digits_spec m) as [Hd1 _]. unfold of_Z, binary_normalize, binary_round.
  rewrite Z.add_0_r. fold (digits m). unfold fexp at 1, emin. rewrite Z.max_l by lia.
  unfold shl_align. rewrite Z.sub_0_r.
  assert (∀ m', digits m' = 53 → Zpos m' = Zpos m * 2 ^ (53 - digits m) →
    binary_round_aux 53 1024 false (Zpos m') (digits m - 53) loc_Exact =
    S754_finite false (Z.to_pos (Zpos m * 2 ^ (53 - digits m))) (digits m - 53)) as Hgoal.
  { intros m' Hd' Hm'. destruct (round_aux_spec false m' (digits m - 53)) as (rec & Hrep & Hq & ->); [lia..|].
    rewrite Hd' in *. destruct Hrep as (R & Hm & HR & _ & Hrs). simpl in HR, Hm.
    assert (R = 0 ∧ Zpos m' = shr_m rec) as [-> Hq'] by lia.
    unfold finish. replace (rounded rec) with (Zpos m').
    - rewrite (proj2 (Z.ltb_lt _ _)) by lia. rewrite Hm'. f_equal; lia.
    - unfold rounded. destruct rec as [q [] []]; simpl in *; lia. }
  destruct (digits m - 53) as [|k|k] eqn:Hk; [|lia|].
  - apply Hgoal; [lia|]. replace (53 - digits m) with 0 by lia. lia.
  - destruct (digits_shl m k) as [H1 H2]. apply Hgoal; [lia|]. rewrite H2. do 2 f_equal. lia.
Qed.

Lemma of_Z_large m :
  53 < digits m ≤ 1000 →
  ∃ rec, shr_rep (Zpos m) (digits m - 53) rec ∧ 2 ^ 52 ≤ shr_m rec < 2 ^ 53 ∧
    of_Z (Zpos m) = finish false (rounded rec) (digits m - 53).
Proof.
  intros Hd. unfold of_Z, binary_normalize, binary_round. rewrite Z.add_0_r. fold (digits m).
  unfold fexp at 1, emin. rewrite Z.max_l by lia. unfold shl_align. rewrite Z.sub_0_r.
  destruct (digits m - 53) as [|k|k] eqn:Hk; [lia| |lia]. rewrite <-Hk.
  destruct (round_aux_spec false m 0) as (rec & ? & ? & ->); [lia..|]. rewrite Z.add_0_l. eauto.
Qed.

(** ** Order *)
Lemma leb_refl_finite b m e : leb (S754_finite b m e) (S754_finite b m e) = true.
Proof.
  unfold leb, SFleb. destruct b; simpl; rewrite Z.compare_refl;
    change (Pos.compare_cont Eq m m) with (Pos.compare m m); by rewrite Pos.compare_refl.
Qed.

Lemma leb_finite m e m' e' :
  e < e' ∨ (e = e' ∧ Zpos m ≤ Zpos m') → leb (S754_finite false m e) (S754_finite false m' e') = true.
Proof.
  intros H. unfold leb, SFleb. simpl. destruct (Z.compare_spec e e') as [->|?|?]; [|done|lia].
  change (Pos.compare_cont Eq m m') with (Pos.compare m m'). destruct (Pos.compare_spec m m'); [done|done|lia].
Qed.

Lemma finish_mono r r' e e' :
  0 < r → r ≤ r' ≤ 2 ^ 53 → e = e' → leb (finish false r e) (finish false r' e') = true.
Proof.
  intros Hr Hr' ->. unfold finish.
  destruct (Z.ltb_spec r (2 ^ 53)), (Z.ltb_spec r' (2 ^ 53)); apply leb_finite; lia.
Qed.

(** A smaller exponent, carry included. *)
Lemma finish_lt r r' e e' :
  0 < r ≤ 2 ^ 53 → 2 ^ 52 ≤ r' ≤ 2 ^ 53 → e < e' → leb (finish false r e) (finish false r' e') = true.
Proof.
  intros Hr Hr' He. unfold finish.
  destruct (Z.ltb_spec r (2 ^ 53)), (Z.ltb_spec r' (2 ^ 53)); apply leb_finite; lia.
Qed.

(** Both conversions in one form. *)
Lemma of_Z_finish m :
  digits m ≤ 1000 →
  ∃ r, of_Z (Zpos m) = finish false r (digits m - 53) ∧ 2 ^ 52 ≤ r ≤ 2 ^ 53 ∧
    (digits m ≤ 53 → r = Zpos m * 2 ^ (53 - digits m)) ∧
    (53 < digits m → ∃ rec, shr_rep (Zpos m) (digits m - 53) rec ∧ r = rounded rec).
Proof.
  intros Hd. destruct (digits_spec m) as [Hd1 Hm]. destruct (Z.le_gt_cases (digits m) 53) as [Hs|Hl].
  - exists (Zpos m * 2 ^ (53 - digits m)). rewrite of_Z_small by done.
    assert (2 ^ (digits m - 1) * 2 ^ (53 - digits m) = 2 ^ 52) as H1 by (rewrite <-Z.pow_add_r by lia; f_equal; lia).
    assert (2 ^ digits m * 2 ^ (53 - digits m) = 2 ^ 53) as H2 by (rewrite <-Z.pow_add_r by lia; f_equal; lia).
    assert (0 < 2 ^ (53 - digits m)) by (apply Z.pow_pos_nonneg; lia).
    assert (2 ^ 52 ≤ Zpos m * 2 ^ (53 - digits m) < 2 ^ 53) as [? ?] by nia.
    split_and!; [|lia|lia|done|lia]. unfold finish. by rewrite (proj2 (Z.ltb_lt _ _)) by lia.
  - destruct (of_Z_large m) as (rec & Hrep & Hq & ->); [lia|]. exists (rounded rec).
    pose proof (rounded_range rec). split_and!; [done|lia|lia|lia|eauto].
Qed.

Lemma of_Z_mono a b : 0 ≤ a ≤ b → b < 2 ^ 64 → leb (of_Z a) (of_Z b) = true.
Proof.
  intros Hab Hb. destruct a as [|a|a], b as [|b|b]; try done; try lia.
  - destruct (digits_spec b) as [_ [? _]].
    assert (digits b - 1 < 64) by (apply (Z.pow_lt_mono_r_iff 2); lia).
    destruct (of_Z_finish b) as (r & -> & ? & _); [lia|]. unfold finish. by destruct (_ <? _).
  - destruct (digits_spec b) as [_ [? _]].
    assert (digits b - 1 < 64) by (apply (Z.pow_lt_mono_r_iff 2); lia).
    pose proof (digits_mono a b ltac:(lia)).
    destruct (of_Z_finish a) as (r & -> & ? & Hs & Hl); [lia|].
    destruct (of_Z_finish b) as (r' & -> & ? & Hs' & Hl'); [lia|].
    destruct (Z.eq_dec (digits a) (digits b)) as [Heq|]; [|apply finish_lt; lia].
    apply finish_mono; [lia| |lia]. split; [|lia]. rewrite Heq in *.
    destruct (Z.le_gt_cases (digits b) 53) as [Hle|Hgt].
    + rewrite Hs, Hs' by done. assert (0 < 2 ^ (53 - digits b)) by (apply Z.pow_pos_nonneg; lia). nia.
    + destruct (Hl Hgt) as (rec & Hrep & ->), (Hl' Hgt) as (rec' & Hrep' & ->).
      apply (rounded_mono (Zpos a) (Zpos b) (digits b - 53)); [lia|done..].
Qed.

(** [float64] of a [uint64] keeps the order. *)
Lemma of_N_mono a b : (a ≤ b)%N → (b < 2 ^ 64)%N → leb (of_N a) (of_N b) = true.
Proof. intros. apply of_Z_mono; lia. Qed.

(** ** [int(x)]: truncation towards zero; [None] outside the range of [int], where the
    conversion's result is implementation-specific. *)
Definition to_int (x : spec_float) : option Z :=
  match x with
  | S754_zero _ => Some 0
  | S754_finite b m e =>
      let v := if 0 <=? e then Zpos m * 2 ^ e else Zpos m / 2 ^ (- e) in
      if v <? 2 ^ 63 then Some (if b then - v else v) else None
  | _ => None
  end.

(** Below 2^53 the conversion is exact. *)
Lemma of_Z_exact z : 0 ≤ z < 2 ^ 53 → to_int (of_Z z) = Some z.
Proof.
  intros Hz. destruct z as [|m|]; [done| |lia]. destruct (digits_spec m) as [Hd Hm].
  assert (digits m - 1 < 53) by (apply (Z.pow_lt_mono_r_iff 2); lia).
  rewrite of_Z_small by lia. simpl. assert (0 < 2 ^ (53 - digits m)) by (apply Z.pow_pos_nonneg; lia).
  rewrite Z2Pos.id by nia.
  destruct (Z.leb_spec 0 (digits m - 53)).
  - replace (digits m) with 53 by lia. rewrite Z.sub_diag, Z.mul_1_r, Z.mul_1_r.
    by rewrite (proj2 (Z.ltb_lt _ _)) by lia.
  - replace (- (digits m - 53)) with (53 - digits m) by lia. rewrite Z.div_mul by lia.
    by rewrite (proj2 (Z.ltb_lt _ _)) by lia.
Qed.

Lemma to_int_finish r e : 0 < r ≤ 2 ^ 53 → e ≤ 0 → to_int (finish false r e) = Some (r / 2 ^ (- e)).
Proof.
  intros Hr He. unfold finish, to_int.
  assert (∀ v, v ≤ 2 ^ 53 → (if v <? 2 ^ 63 then Some v else None) = Some v) as Hfit.
  { intros v ?. by rewrite (proj2 (Z.ltb_lt v (2 ^ 63))) by lia. }
  assert (∀ k, 0 ≤ k → r / 2 ^ k ≤ 2 ^ 53) as Hdiv.
  { intros k ?. apply Z.div_le_upper_bound; [lia|]. assert (0 < 2 ^ k) by (apply Z.pow_pos_nonneg; lia). nia. }
  destruct (Z.ltb_spec r (2 ^ 53)) as [Hlt|Hge].
  - rewrite Z2Pos.id by lia. destruct (Z.leb_spec 0 e).
    + replace e with 0 by lia. rewrite Z.mul_1_r, Z.div_1_r. apply Hfit; lia.
    + apply Hfit, Hdiv. lia.
  - replace r with (2 ^ 53) in * by lia. destruct (Z.leb_spec 0 (e + 1)) as [?|?].
    + destruct (Z.eq_dec e 0) as [->|]; [done|]. by replace e with (-1) by lia.
    + replace (2 ^ 53 / 2 ^ (- e)) with (2 ^ 52 / 2 ^ (- (e + 1))).
      * change (Zpos (2 ^ 52)) with (2 ^ 52). apply Hfit. apply Z.div_le_upper_bound; [lia|].
        assert (0 < 2 ^ (- (e + 1))) by (apply Z.pow_pos_nonneg; lia). lia.
      * replace (- e) with (- (e + 1) + 1) by lia. rewrite Z.pow_add_r by lia.
        change (2 ^ 53) with (2 ^ 52 * 2 ^ 1). rewrite Z.div_mul_cancel_r; lia.
Qed.

(** A factor in (0, 1): 53 digits and an exponent of at most [-53]. *)
Definition fraction (p : spec_float) : bool :=
  match p with
  | S754_finite false m e => (digits m =? 53) && (e <=? -53) && (-900 <=? e)
  | _ => false
  end.

(** [int(p * float64(n))] is between 0 and [n]. *)
Lemma mul_fraction_range p n :
  fraction p = true → 0 ≤ n < 2 ^ 53 → ∃ i, to_int (mul p (of_Z n)) = Some i ∧ 0 ≤ i ≤ n.
Proof.
  intros Hp Hn. destruct p as [|?| |[] mp ep]; try done. unfold fraction in Hp.
  apply andb_true_iff in Hp as [[?%Z.eqb_eq ?%Z.leb_le]%andb_true_iff ?%Z.leb_le].
  destruct n as [|n|]; [by exists 0| |lia]. destruct (digits_spec n) as [Hd Hnd].
  assert (digits n - 1 < 53) by (apply (Z.pow_lt_mono_r_iff 2); lia).
  destruct (of_Z_finish n) as (m & Hof & Hm & Hs & _); [lia|]. specialize (Hs ltac:(lia)).
  rewrite of_Z_small by lia. rewrite <-Hs. destruct m as [|m|]; [lia| |lia]. cbn [Z.to_pos].
  assert (digits m = 53) as Hdm.
  { apply digits_unique; [lia|]. split; [simpl; lia|]. rewrite Hs.
    replace 53 with (digits n + (53 - digits n)) at 2 by lia. rewrite Z.pow_add_r by lia.
    assert (0 < 2 ^ (53 - digits n)) by (apply Z.pow_pos_nonneg; lia). nia. }
  destruct (digits_spec mp) as [_ Hmp], (digits_spec m) as [_ Hm']. rewrite Hdm in Hm'.
  replace (digits mp) with 53 in Hmp by lia.
  assert (105 ≤ digits (mp * m) ≤ 106) as HD.
  { destruct (digits_spec (mp * m)) as [? HP]. rewrite Pos2Z.inj_mul in HP. split.
    - assert (104 < digits (mp * m)); [|lia]. apply (Z.pow_lt_mono_r_iff 2); simpl in *; nia.
    - assert (digits (mp * m) - 1 < 106); [|lia]. apply (Z.pow_lt_mono_r_iff 2); simpl in *; nia. }
  unfold mul, SFmul. simpl xorb.
  destruct (round_aux_spec false (mp * m) (ep + (digits n - 53))) as (rec & (R & HP & HR & _) & Hq & ->); [lia..|].
  set (k := digits (mp * m) - 53) in *. pose proof (rounded_range rec).
  assert (rounded rec ≤ Zpos m * 2 ^ (53 - k)) as Hr.
  { assert (2 ^ k * 2 ^ (53 - k) = 2 ^ 53) as Hpow by (rewrite <-Z.pow_add_r by lia; f_equal; lia).
    assert (0 < 2 ^ k) by (apply Z.pow_pos_nonneg; lia).
    assert (shr_m rec < Zpos m * 2 ^ (53 - k)); [|lia].
    rewrite Pos2Z.inj_mul in HP. assert (Zpos mp * Zpos m < 2 ^ 53 * Zpos m) by nia. nia. }
  rewrite to_int_finish by lia. eexists. split; [done|]. split; [apply Z.div_pos; lia|].
  set (e' := ep + (digits n - 53) + k).
  apply Z.div_le_upper_bound; [apply Z.pow_pos_nonneg; lia|]. rewrite Hs in Hr.
  etrans; [exact Hr|]. rewrite <-Z.mul_assoc, <-Z.pow_add_r by lia. rewrite Z.mul_comm.
  apply Z.mul_le_mono_nonneg_r; [lia|]. apply Z.pow_le_mono_r; lia.
Qed.
End float64_round.
