(* ===== verification/PagedList.v ===== *)
(** * The intrusive LRU list of the paged store: src/internal/blockstore/paged.go

    Entries live in a heap and are linked by pointers, as in the source; a nil
    pointer is [None] and dereferencing nil (or a pointer to nothing) is [None] of
    the whole operation.  [dll] relates the links to a list of pointers; the three
    list operations implement removal and insertion at the front on that list and
    change nothing but links. *)

From Stdlib Require Import Floats.SpecFloat.
From S2P Require Import Prelude.

Module PagedList.
Local Open Scope N_scope.

(** ** Entries *)
Record pagedEntry := MkPagedEntry {
  id : bytes;
  parentID : bytes;
  modelID : string;
  tokenCount : N;
  costUS : N;
  size : nat;          (* payload bytes *)
  pages : list Z;      (* arena pages, in payload order: []int32 *)
  orderIdx : nat;      (* position in Paged.order *)
  lastAccess : N;      (* clock at last touch *)
  freq : spec_float;   (* decayed access count as of lastAccess *)
  prev : option N;
  next : option N
}.

Definition with_links (e : pagedEntry) (pr nx : option N) : pagedEntry :=
  MkPagedEntry (id e) (parentID e) (modelID e) (tokenCount e) (costUS e) (size e) (pages e)
    (orderIdx e) (lastAccess e) (freq e) pr nx.
Definition with_orderIdx (e : pagedEntry) (i : nat) : pagedEntry :=
  MkPagedEntry (id e) (parentID e) (modelID e) (tokenCount e) (costUS e) (size e) (pages e)
    i (lastAccess e) (freq e) (prev e) (next e).
Definition with_access (e : pagedEntry) (t : N) (f : spec_float) : pagedEntry :=
  MkPagedEntry (id e) (parentID e) (modelID e) (tokenCount e) (costUS e) (size e) (pages e)
    (orderIdx e) t f (prev e) (next e).
(** An entry without its links. *)
Definition strip (e : pagedEntry) : pagedEntry := with_links e None None.

(** The heap and the two ends of the list. *)
Abbreviation entries := (gmap N pagedEntry).
Record links := MkLinks { heap : entries; head : option N; tail : option N }.

Definition set_prev (p : N) (v : option N) (h : entries) : option entries :=
  e ← h !! p; Some (<[p := with_links e v (next e)]> h).
Definition set_next (p : N) (v : option N) (h : entries) : option entries :=
  e ← h !! p; Some (<[p := with_links e (prev e) v]> h).

Definition lruPushFront (L : links) (e : N) : option links :=
  en ← heap L !! e;
  let h := <[e := with_links en None (head L)]> (heap L) in
  h ← match head L with Some q => set_prev q (Some e) h | None => Some h end;
  Some (MkLinks h (Some e) (match tail L with None => Some e | Some t => Some t end)).

Definition lruRemove (L : links) (e : N) : option links :=
  en ← heap L !! e;
  L ← match prev en with
      | Some q => h ← set_next q (next en) (heap L); Some (MkLinks h (head L) (tail L))
      | None => Some (if decide (head L = Some e) then MkLinks (heap L) (next en) (tail L) else L)
      end;
  en ← heap L !! e;
  L ← match next en with
      | Some q => h ← set_prev q (prev en) (heap L); Some (MkLinks h (head L) (tail L))
      | None => Some (if decide (tail L = Some e) then MkLinks (heap L) (head L) (prev en) else L)
      end;
  en ← heap L !! e;
  Some (MkLinks (<[e := with_links en None None]> (heap L)) (head L) (tail L)).

Definition lruMoveFront (L : links) (e : N) : option links :=
  if decide (head L = Some e) then Some L
  else L ← lruRemove L e; lruPushFront L e.

(** The list read from the head. *)
Fixpoint walk (fuel : nat) (h : entries) (cur : option N) : list N :=
  match fuel, cur with
  | S fuel, Some p => p :: match h !! p with Some e => walk fuel h (next e) | None => [] end
  | _, _ => []
  end.

(** ** Segments *)
Definition first_or (l : list N) (nx : option N) : option N :=
  match l with [] => nx | p :: _ => Some p end.
Definition last_or (pr : option N) (l : list N) : option N :=
  match last l with None => pr | Some p => Some p end.

(** [l] is a chain of entries after [pr] and before [nx]. *)
Fixpoint dseg (h : entries) (pr : option N) (l : list N) (nx : option N) : Prop :=
  match l with
  | [] => True
  | p :: l => (∃ e, h !! p = Some e ∧ prev e = pr ∧ next e = first_or l nx) ∧ dseg h (Some p) l nx
  end.

Definition dll (L : links) (l : list N) : Prop :=
  NoDup l ∧ head L = first_or l None ∧ tail L = last l ∧ dseg (heap L) None l None.

Lemma last_or_cons pr p l : last_or pr (p :: l) = last_or (Some p) l.
Proof. unfold last_or. rewrite last_cons. by destruct (last l). Qed.

Lemma first_or_app l1 l2 nx : first_or (l1 ++ l2) nx = first_or l1 (first_or l2 nx).
Proof. by destruct l1. Qed.

Lemma dseg_app h pr l1 l2 nx :
  dseg h pr (l1 ++ l2) nx ↔ dseg h pr l1 (first_or l2 nx) ∧ dseg h (last_or pr l1) l2 nx.
Proof.
  revert pr. induction l1 as [|p l1 IH]; intros pr; simpl; [naive_solver|].
  rewrite IH, last_or_cons, first_or_app. naive_solver.
Qed.

(** A segment depends only on the entries it links. *)
Lemma dseg_ext h h' pr l nx :
  (∀ p, p ∈ l → h' !! p = h !! p) → dseg h pr l nx → dseg h' pr l nx.
Proof.
  revert pr. induction l as [|p l IH]; intros pr Heq; simpl; [done|].
  intros [(e & He & ? & ?) Hl]. split; [exists e; rewrite Heq by (by left); done|].
  apply IH; [|done]. intros q Hq. apply Heq. by right.
Qed.

Lemma dseg_insert h pr l nx p e : p ∉ l → dseg h pr l nx → dseg (<[p := e]> h) pr l nx.
Proof. intros Hp. apply dseg_ext. intros q Hq. apply lookup_insert_ne. set_solver. Qed.

(** Changing an entry but not its links. *)
Lemma dseg_update h pr l nx p e e' :
  h !! p = Some e → prev e' = prev e → next e' = next e →
  dseg h pr l nx → dseg (<[p := e']> h) pr l nx.
Proof.
  intros He Hpr Hnx. revert pr. induction l as [|q l IH]; intros pr; simpl; [done|].
  intros [(eq & Heq & ? & ?) Hl]. split; [|by apply IH].
  destruct (decide (q = p)) as [->|Hne].
  - rewrite lookup_insert_eq. exists e'. split; [done|]. split; congruence.
  - rewrite lookup_insert_ne by done. eauto.
Qed.

Lemma dseg_lookup h pr l nx p : dseg h pr l nx → p ∈ l → is_Some (h !! p).
Proof.
  revert pr. induction l as [|q l IH]; intros pr; simpl; [set_solver|].
  intros [(e & He & _) Hl] [->|Hp]%elem_of_cons; [by eexists|by eapply IH].
Qed.

Lemma walk_dseg fuel h pr l : dseg h pr l None → (length l ≤ fuel)%nat → walk fuel h (first_or l None) = l.
Proof.
  revert fuel pr. induction l as [|p l IH]; intros fuel pr; [by destruct fuel|].
  simpl. intros [(e & He & _ & Hn) Hl] Hf. destruct fuel as [|fuel]; [lia|]. cbn [walk].
  rewrite He, Hn. f_equal. eapply IH; [done|lia].
Qed.

(** ** Updating the ends of a segment *)

(** Redirecting the last entry's [next]. *)
Lemma dseg_set_last h pr l p nx nx' e :
  NoDup (l ++ [p]) → dseg h pr (l ++ [p]) nx → h !! p = Some e →
  dseg (<[p := with_links e (prev e) nx']> h) pr (l ++ [p]) nx'.
Proof.
  intros (_ & Hd & _)%NoDup_app [Hl Hp]%dseg_app He. apply dseg_app. split.
  - apply dseg_insert; [set_solver|done].
  - simpl in *. destruct Hp as [(e' & He' & Hpr & _) _]. assert (e' = e) as -> by congruence.
    split; [|done]. eexists. rewrite lookup_insert_eq. done.
Qed.

(** Redirecting the first entry's [prev]. *)
Lemma dseg_set_first h pr pr' p l nx e :
  NoDup (p :: l) → dseg h pr (p :: l) nx → h !! p = Some e →
  dseg (<[p := with_links e pr' (next e)]> h) pr' (p :: l) nx.
Proof.
  intros [Hp _]%NoDup_cons [(e' & He' & _ & Hn) Hl] He. simpl.
  assert (e' = e) as -> by congruence. split.
  - eexists. rewrite lookup_insert_eq. done.
  - by apply dseg_insert.
Qed.

Lemma dll_update L l p e e' :
  heap L !! p = Some e → prev e' = prev e → next e' = next e →
  dll L l → dll (MkLinks (<[p := e']> (heap L)) (head L) (tail L)) l.
Proof. intros He Hpr Hnx (? & ? & ? & ?). split_and!; try done. by eapply dseg_update. Qed.

Lemma dll_insert L l p e :
  p ∉ l → dll L l → dll (MkLinks (<[p := e]> (heap L)) (head L) (tail L)) l.
Proof. intros Hp (? & ? & ? & ?). split_and!; try done. by apply dseg_insert. Qed.

(** ** Only links change *)
Lemma strip_insert (h : entries) p e pr nx :
  h !! p = Some e → strip <$> <[p := with_links e pr nx]> h = strip <$> h.
Proof.
  intros He. rewrite fmap_insert. apply insert_id. by rewrite lookup_fmap, He.
Qed.

Lemma lookup_strip (h h' : entries) p e :
  strip <$> h' = strip <$> h → h !! p = Some e → ∃ e', h' !! p = Some e' ∧ strip e' = strip e.
Proof.
  intros Heq He. assert ((strip <$> h') !! p = Some (strip e)) as Hs by (by rewrite Heq, lookup_fmap, He).
  rewrite lookup_fmap in Hs. apply fmap_Some in Hs as (e' & -> & Hs). eauto.
Qed.

(** ** The operations on the list *)
Lemma lruPushFront_spec L l p :
  dll L l → p ∉ l → is_Some (heap L !! p) →
  ∃ L', lruPushFront L p = Some L' ∧ dll L' (p :: l) ∧ strip <$> heap L' = strip <$> heap L.
Proof.
  intros (Hnd & Hh & Ht & Hl) Hp [e He]. unfold lruPushFront, set_prev. rewrite He. simpl.
  set (h := <[p := with_links e None (head L)]> (heap L)).
  assert (strip <$> h = strip <$> heap L) as Hs by (by apply strip_insert).
  assert (dseg h None l None) as Hl1 by (by apply dseg_insert).
  assert (h !! p = Some (with_links e None (head L))) as Hhp by apply lookup_insert_eq.
  destruct l as [|q l]; rewrite Hh; simpl in *.
  - eexists. split; [done|]. split; [|done]. rewrite Ht. split_and!; simpl; [by constructor|done|done|].
    split; [|done]. eexists. split; [done|]. by rewrite Hh.
  - destruct Hl1 as [(eq & Heq & Hq) Hl1]. rewrite Heq. simpl. eexists. split; [done|].
    split; [|simpl; by rewrite strip_insert].
    assert (p ≠ q) by set_solver.
    split_and!; simpl; [by constructor|done|rewrite Ht; change (last (p :: q :: l)) with (last (q :: l)); destruct (last (q :: l)) eqn:E; [done|by apply last_None in E]|].
    split.
    + rewrite lookup_insert_ne by done. rewrite Hhp. eexists. split; [done|]. by rewrite Hh.
    + apply (dseg_set_first h None (Some p) q l None eq Hnd); [|done]. split; [by exists eq|done].
Qed.

(** The first half of [lruRemove]: the left neighbour, or the head, skips the entry. *)
Definition unlink_left (L : links) (e : N) (en : pagedEntry) : option links :=
  match prev en with
  | Some q => h ← set_next q (next en) (heap L); Some (MkLinks h (head L) (tail L))
  | None => Some (if decide (head L = Some e) then MkLinks (heap L) (next en) (tail L) else L)
  end.
(** The second half: the right neighbour, or the tail. *)
Definition unlink_right (L : links) (e : N) (en : pagedEntry) : option links :=
  match next en with
  | Some q => h ← set_prev q (prev en) (heap L); Some (MkLinks h (head L) (tail L))
  | None => Some (if decide (tail L = Some e) then MkLinks (heap L) (head L) (prev en) else L)
  end.

Lemma unlink_left_spec L l1 p l2 en :
  dll L (l1 ++ p :: l2) → heap L !! p = Some en →
  ∃ L', unlink_left L p en = Some L' ∧ strip <$> heap L' = strip <$> heap L ∧
    heap L' !! p = Some en ∧ head L' = first_or (l1 ++ l2) None ∧ tail L' = tail L ∧
    dseg (heap L') None l1 (first_or l2 None) ∧ dseg (heap L') (Some p) l2 None ∧
    prev en = last_or None l1 ∧ next en = first_or l2 None.
Proof.
  intros (Hnd & Hh & Ht & [Hl1 [(e' & He' & Hpr & Hnx) Hl2]]%dseg_app) Hen.
  assert (e' = en) as -> by congruence. unfold unlink_left, set_next. rewrite Hpr.
  destruct l1 as [|q l1 _] using rev_ind; simpl in *.
  - rewrite Hh, decide_True by done. eexists. by split_and!.
  - unfold last_or. rewrite last_snoc. rewrite <-app_assoc in Hnd, Hh. simpl in *.
    apply NoDup_app in Hnd as (Hnd1 & Hd & [Hq Hnd2]%NoDup_cons).
    assert (is_Some (heap L !! q)) as [eq Heq] by (eapply dseg_lookup; [exact Hl1|set_solver]).
    rewrite Heq. simpl. eexists. split; [done|]. simpl. rewrite Hnx. split_and!.
    + by apply strip_insert.
    + rewrite lookup_insert_ne by set_solver. done.
    + rewrite Hh, <-app_assoc. by destruct l1.
    + done.
    + eapply dseg_set_last; [|done|done]. apply NoDup_app. split_and!; [done|set_solver|apply NoDup_singleton].
    + apply dseg_insert; [set_solver|done].
    + done.
    + done.
Qed.

Lemma unlink_right_spec L l1 p l2 en :
  NoDup (l1 ++ p :: l2) → heap L !! p = Some en → tail L = last (l1 ++ p :: l2) →
  dseg (heap L) None l1 (first_or l2 None) → dseg (heap L) (Some p) l2 None →
  prev en = last_or None l1 → next en = first_or l2 None →
  ∃ L', unlink_right L p en = Some L' ∧ strip <$> heap L' = strip <$> heap L ∧
    is_Some (heap L' !! p) ∧ head L' = head L ∧ tail L' = last (l1 ++ l2) ∧
    dseg (heap L') None (l1 ++ l2) None.
Proof.
  intros Hnd Hen Ht Hl1 Hl2 Hpr Hnx. unfold unlink_right, set_prev. rewrite Hnx.
  destruct l2 as [|q l2]; simpl in *.
  - rewrite Ht, last_snoc, decide_True by done. eexists. rewrite app_nil_r. split_and!; simpl; [done..|by eexists|done| |done].
    rewrite Hpr. unfold last_or. by destruct (last l1).
  - destruct Hl2 as [(eq & Heq & Hq) Hl2]. rewrite Heq. simpl. eexists. split; [done|]. simpl.
    apply NoDup_app in Hnd as (Hnd1 & Hd & [Hp Hnd2]%NoDup_cons).
    split_and!.
    + by apply strip_insert.
    + rewrite lookup_insert_ne by set_solver. by eexists.
    + done.
    + rewrite Ht, !last_app, last_cons_cons. done.
    + apply dseg_app. split; [apply dseg_insert; [set_solver|done]|]. rewrite Hpr.
      apply (dseg_set_first _ (Some p)); [done|simpl; eauto|done].
Qed.

(** Taking the entry out between its neighbours. *)
Lemma lruRemove_app L l1 p l2 :
  dll L (l1 ++ p :: l2) →
  ∃ L', lruRemove L p = Some L' ∧ dll L' (l1 ++ l2) ∧ strip <$> heap L' = strip <$> heap L ∧
    is_Some (heap L' !! p).
Proof.
  intros Hdll. pose proof Hdll as (Hnd & Hh & Ht & Hl).
  destruct (dseg_lookup _ _ _ _ p Hl) as [en Hen]; [set_solver|].
  destruct (unlink_left_spec L l1 p l2 en Hdll Hen) as (L1 & H1 & Hs1 & Hp1 & Hh1 & Ht1 & Hd1 & Hd1' & Hpr & Hnx).
  destruct (unlink_right_spec L1 l1 p l2 en) as (L2 & H2 & Hs2 & [e2 Hp2] & Hh2 & Ht2 & Hl2); try done;
    [congruence|].
  unfold lruRemove. rewrite Hen. simpl. fold (unlink_left L p en). rewrite H1. simpl. rewrite Hp1. simpl.
  fold (unlink_right L1 p en). rewrite H2. simpl. rewrite Hp2. simpl. eexists. split; [done|].
  assert (NoDup (l1 ++ l2) ∧ p ∉ l1 ++ l2) as [Hnd' Hp].
  { rewrite <-Permutation_middle in Hnd. by apply NoDup_cons in Hnd as []. }
  split_and!; simpl.
  - split_and!; simpl; [done|congruence|done|by apply dseg_insert].
  - rewrite strip_insert by done. congruence.
  - rewrite lookup_insert_eq. by eexists.
Qed.

Lemma filter_ne_app (l1 : list N) p l2 :
  NoDup (l1 ++ p :: l2) → filter (λ q, q ≠ p) (l1 ++ p :: l2) = l1 ++ l2.
Proof.
  intros Hnd. rewrite <-Permutation_middle in Hnd. apply NoDup_cons in Hnd as [Hp _].
  rewrite filter_app, filter_cons_False by naive_solver.
  rewrite !filter_all; [done|apply Forall_forall; set_solver..].
Qed.

Lemma lruRemove_spec L l p :
  dll L l → p ∈ l →
  ∃ L', lruRemove L p = Some L' ∧ dll L' (filter (λ q, q ≠ p) l) ∧
    strip <$> heap L' = strip <$> heap L ∧ is_Some (heap L' !! p).
Proof.
  intros Hdll (l1 & l2 & ->)%list_elem_of_split. rewrite filter_ne_app by apply Hdll.
  by apply lruRemove_app.
Qed.

Lemma lruMoveFront_spec L l p :
  dll L l → p ∈ l →
  ∃ L', lruMoveFront L p = Some L' ∧ dll L' (p :: filter (λ q, q ≠ p) l) ∧
    strip <$> heap L' = strip <$> heap L.
Proof.
  intros Hdll Hp. unfold lruMoveFront. destruct (decide (head L = Some p)) as [Hh|Hh].
  - exists L. split_and!; [done| |done]. pose proof Hdll as (Hnd & Hh' & _).
    destruct l as [|q l]; [set_solver|]. simpl in Hh'. assert (q = p) as -> by congruence.
    apply NoDup_cons in Hnd as [Hpl _]. rewrite filter_cons_False by naive_solver.
    rewrite filter_all; [done|]. apply Forall_forall. set_solver.
  - destruct (lruRemove_spec L l p Hdll Hp) as (L1 & -> & H1 & Hs1 & Hp1). simpl.
    destruct (lruPushFront_spec L1 _ p H1) as (L2 & H2 & Hd2 & Hs2); [|done|].
    { rewrite list_elem_of_filter. naive_solver. }
    exists L2. split_and!; [done|done|congruence].
Qed.
End PagedList.
