(* ===== verification/Paged.v ===== *)
(** * The paged store: src/internal/blockstore/paged.go

    Payloads live in the pages of one arena; entries are on the heap of
    [PagedList], referenced by the [items] map, by the sampling slice [order] and
    by the LRU list.  Every index, slice and pointer operation that can panic is
    written out ([None]).  [math/rand] and [math.Exp2] are parameters ([Intn],
    [Exp2]); the arithmetic of [float64] is that of SpecFloat at 53 bits, without
    fused multiply-add. *)

From Stdlib Require Import Floats.SpecFloat.
From S2P Require Import Prelude Float64 BlockStore PagedList.

Module Paged.
Import BlockStore PagedList.
Local Open Scope N_scope.

(** ** Policies: [EvictionPolicy] is a string type *)
Definition EvictionPolicy : Type := string.
Definition EvictLRU : EvictionPolicy := "lru".
Definition EvictCost : EvictionPolicy := "cost".
(** The error names the rejected flag value. *)
Definition ParsePolicy (s : string) : result string EvictionPolicy :=
  if decide (s = EvictLRU ∨ s = EvictCost) then Ok s else Err s.

Definition evictSample : nat := 16.
Definition frecencyHalfLife : N := 4096.

(** ** Slices *)

(** [b[lo:hi]]. *)
Definition slice_bytes (b : bytes) (lo hi : nat) : option bytes :=
  if decide (lo ≤ hi ∧ hi ≤ length b)%nat then Some (take (hi - lo) (drop lo b)) else None.
(** [b[off:]]. *)
Definition slice_from (b : bytes) (off : Z) : option bytes :=
  if decide (0 ≤ off ≤ Z.of_nat (length b))%Z then Some (drop (Z.to_nat off) b) else None.
(** [copy(dst[off:], src)]: as many bytes as fit. *)
Definition copy_at (dst : bytes) (off : Z) (src : bytes) : option bytes :=
  if decide (0 ≤ off ≤ Z.of_nat (length dst))%Z then Some (list_inserts (Z.to_nat off) src dst) else None.

(** [int] of a [uint64], and [int] addition: two's complement at 64 bits. *)
Definition int (z : Z) : Z := ((z + 9223372036854775808) `mod` 18446744073709551616 - 9223372036854775808)%Z.

Section paged.
Context {R : Type} (Intn : R → nat → nat * R) (Exp2 : spec_float → spec_float).

Record Paged := MkPaged {
  pageSize : Z;
  arena : bytes;
  free : list Z;            (* free page indices, LIFO *)
  lst : links;              (* the entries, head and tail *)
  items : gmap bytes N;
  order : list N;           (* index for random sampling (cost policy) *)
  clock : N;
  rng : R;
  pol : EvictionPolicy;
  stats : Stats;
  next_ptr : N              (* fresh pointers *)
}.

Definition with_lst (s : Paged) (L : links) : Paged :=
  MkPaged (pageSize s) (arena s) (free s) L (items s) (order s) (clock s) (rng s) (pol s) (stats s) (next_ptr s).
Definition with_stats (s : Paged) (st : Stats) : Paged :=
  MkPaged (pageSize s) (arena s) (free s) (lst s) (items s) (order s) (clock s) (rng s) (pol s) st (next_ptr s).
Definition with_clock (s : Paged) (t : N) : Paged :=
  MkPaged (pageSize s) (arena s) (free s) (lst s) (items s) (order s) t (rng s) (pol s) (stats s) (next_ptr s).
Definition with_rng (s : Paged) (r : R) : Paged :=
  MkPaged (pageSize s) (arena s) (free s) (lst s) (items s) (order s) (clock s) r (pol s) (stats s) (next_ptr s).

(** [None]: a page size that is not positive, or [make] of a negative length. *)
Definition NewPaged (capacityBytes : N) (pageSize : Z) (pol : EvictionPolicy) (rng0 : R) : option Paged :=
  if (pageSize <=? 0)%Z then None
  else
    let nPages := Z.quot (int (Z.of_N capacityBytes)) pageSize in
    if (nPages <? 0)%Z then None
    else Some (MkPaged pageSize (replicate (Z.to_nat (nPages * pageSize)) x00)
                 ((λ i, int32 (Z.of_nat i)) <$> seq 0 (Z.to_nat nPages))
                 (MkLinks ∅ None None) ∅ [] 0 rng0 pol
                 (MkStats 0 (Z.to_N (nPages * pageSize)) 0 0 0 0) 0).

Definition pagesNeeded (s : Paged) (size : nat) : Z :=
  Z.quot (int (int (Z.of_nat size + pageSize s) - 1)) (pageSize s).

(** ** Recency and frecency *)
Definition decay (clock : N) (e : pagedEntry) : spec_float :=
  let age := float64.of_N (sub64 clock (lastAccess e)) in
  float64.mul (freq e) (Exp2 (float64.div (float64.opp age) (float64.of_N frecencyHalfLife))).

Definition touch (s : Paged) (p : N) : option Paged :=
  let s := with_clock s (u64 (clock s + 1)) in
  e ← heap (lst s) !! p;
  let e := with_access e (clock s) (float64.add (float64.of_N 1) (decay (clock s) e)) in
  L ← lruMoveFront (MkLinks (<[p := e]> (heap (lst s))) (head (lst s)) (tail (lst s))) p;
  Some (with_lst s L).

Definition score (e : pagedEntry) (pageSize : Z) : spec_float :=
  let held := float64.of_Z (Z.of_nat (length (pages e)) * pageSize) in
  float64.div (float64.mul (freq e) (float64.of_N (costUS e))) held.

(** ** evictOne *)

(** [eScore]: the score with the frecency decayed to now. *)
Definition eScore (s : Paged) (e : pagedEntry) : spec_float :=
  float64.div (float64.mul (decay (clock s) e) (float64.of_N (costUS e)))
    (float64.of_Z (Z.of_nat (length (pages e)) * pageSize s)).

(** [for i := 0; i < evictSample && i < len(p.order); i++]; [fuel] is
    [evictSample] minus [i]. *)
Fixpoint sample (fuel i : nat) (s : Paged) (victim : option (N * spec_float))
    : option (Paged * option (N * spec_float)) :=
  match fuel with
  | O => Some (s, victim)
  | S fuel =>
      if (i <? length (order s))%nat then
        let '(k, r) := Intn (rng s) (length (order s)) in
        let s := with_rng s r in
        p ← order s !! k;
        e ← heap (lst s) !! p;
        let sc := eScore s e in
        let victim :=
          match victim with
          | None => Some (p, sc)
          | Some (v, victimScore) => if float64.ltb sc victimScore then Some (p, sc) else Some (v, victimScore)
          end in
        sample fuel (S i) s victim
      else Some (s, victim)
  end.

Definition pick_victim (s : Paged) : option (Paged * option N) :=
  if decide (pol s = EvictCost) then
    match sample evictSample 0 s None with
    | None => None
    | Some (s, v) => Some (s, fst <$> v)
    end
  else Some (s, tail (lst s)).

(** [p.order[victim.orderIdx] = last; last.orderIdx = victim.orderIdx], then the
    slice is cut by one. *)
Definition swap_remove (s : Paged) (v : N) : option (entries * list N) :=
  lastp ← last (order s);
  e ← heap (lst s) !! v;
  ord ← (if decide (orderIdx e < length (order s))%nat
         then Some (<[orderIdx e := lastp]> (order s)) else None);
  el ← heap (lst s) !! lastp;
  Some (<[lastp := with_orderIdx el (orderIdx e)]> (heap (lst s)), take (length ord - 1) ord).

(** After the choice: free the pages, unlink the entry, forget it. *)
Definition evict (s : Paged) (v : N) : option Paged :=
  e ← heap (lst s) !! v;
  let fr := free s ++ pages e in
  L ← lruRemove (lst s) v;
  let s := with_lst s L in
  '(h, ord) ← swap_remove s v;
  let held := Z.to_N (Z.of_nat (length (pages e)) * pageSize s) in
  Some (MkPaged (pageSize s) (arena s) fr (MkLinks h (head L) (tail L))
          (delete (id e) (items s)) ord (clock s) (rng s) (pol s)
          (add_eviction (costUS e)
             (set_occupancy (sub64 (OccupancyBytes (stats s)) held) (stats s)))
          (next_ptr s)).

Definition evictOne (s : Paged) : option (Paged * bool) :=
  '(s, victim) ← pick_victim s;
  match victim with
  | None => Some (s, false)
  | Some v => s ← evict s v; Some (s, true)
  end.

(** ** Put *)

(** [for len(p.free) < need { if !p.evictOne() { return false } }]; every
    iteration removes an entry of [order]. *)
Fixpoint evict_loop (fuel : nat) (need : Z) (s : Paged) : option (Paged * bool) :=
  match fuel with
  | O => None
  | S fuel =>
      if (Z.of_nat (length (free s)) <? need)%Z then
        '(s, ok) ← evictOne s;
        if (ok : bool) then evict_loop fuel need s else Some (s, false)
      else Some (s, true)
  end.

(** [for i := 0; i < need; i++]: pop a page, record it, copy one chunk into it. *)
Fixpoint fill (n i : nat) (ps : nat) (payload : bytes) (acc : bytes * list Z * list Z)
    : option (bytes * list Z * list Z) :=
  match n with
  | O => Some acc
  | S n =>
      let '(ar, fr, pgs) := acc in
      pg ← last fr;
      let fr := take (length fr - 1) fr in
      let lo := (i * ps)%nat in
      let hi := ((lo + ps) `min` length payload)%nat in
      chunk ← slice_bytes payload lo hi;
      ar ← copy_at ar (pg * Z.of_nat ps) chunk;
      fill n (S i) ps payload (ar, fr, <[i := pg]> pgs)
  end.

Definition paged_Put (s : Paged) (b : Block) : option (Paged * bool) :=
  match items s !! ID b with
  | Some p => s ← touch s p; Some (s, false)
  | None =>
      let need := pagesNeeded s (length (Payload b)) in
      if (need =? 0)%Z || (need >? Z.quot (Z.of_nat (length (arena s))) (pageSize s))%Z
      then Some (s, false)
      else
        '(s, ok) ← evict_loop (S (length (order s))) need s;
        if negb ok then Some (s, false)
        else if (need <? 0)%Z then None
        else
          '(ar, fr, pgs) ← fill (Z.to_nat need) 0 (Z.to_nat (pageSize s)) (Payload b)
                             (arena s, free s, replicate (Z.to_nat need) 0%Z);
          let p := next_ptr s in
          let e := MkPagedEntry (ID b) (ParentID b) (ModelID b) (TokenCount b) (CostUS b)
                     (length (Payload b)) pgs (length (order s)) 0 (S754_zero false) None None in
          L ← lruPushFront (MkLinks (<[p := e]> (heap (lst s))) (head (lst s)) (tail (lst s))) p;
          s ← touch (MkPaged (pageSize s) ar fr L (<[ID b := p]> (items s)) (order s ++ [p]) (clock s)
                       (rng s) (pol s) (stats s) (p + 1)) p;
          Some (with_stats s (set_occupancy
                  (u64 (OccupancyBytes (stats s) + Z.to_N (need * pageSize s))) (stats s)), true)
  end.

(** ** Readers *)

(** [for i, pg := range e.pages]: copy one page's chunk into the payload. *)
Fixpoint read_pages (pgs : list Z) (i ps size : nat) (ar payload : bytes) : option bytes :=
  match pgs with
  | [] => Some payload
  | pg :: pgs =>
      let lo := (i * ps)%nat in
      let hi := ((lo + ps) `min` size)%nat in
      src ← slice_from ar (pg * Z.of_nat ps);
      if decide (lo ≤ hi ∧ hi ≤ length payload)%nat then
        read_pages pgs (S i) ps size ar (list_inserts lo (take (hi - lo) src) payload)
      else None
  end.
Definition read_payload (s : Paged) (e : pagedEntry) : option bytes :=
  read_pages (pages e) 0 (Z.to_nat (pageSize s)) (size e) (arena s) (replicate (size e) x00).

Definition paged_Get (s : Paged) (bid : bytes) : option (Paged * option Block) :=
  match items s !! bid with
  | None => Some (with_stats s (add_miss (stats s)), None)
  | Some p =>
      let s := with_stats s (add_hit (stats s)) in
      s ← touch s p;
      e ← heap (lst s) !! p;
      payload ← read_payload s e;
      Some (s, Some (MkBlock (id e) (parentID e) (modelID e) payload (tokenCount e) (costUS e)))
  end.

Definition paged_Contains (s : Paged) (bid : bytes) : option (Paged * bool) :=
  match items s !! bid with
  | None => Some (with_stats s (add_miss (stats s)), false)
  | Some p => s ← touch (with_stats s (add_hit (stats s))) p; Some (s, true)
  end.

Definition paged_Touch (s : Paged) (bid : bytes) : option Paged :=
  match items s !! bid with
  | None => Some s
  | Some p => touch s p
  end.

Definition paged_Stats (s : Paged) : Stats := stats s.
End paged.
Arguments Paged R : clear implicits.
End Paged.
