(* ===== verification/PagedProps.v ===== *)
(** * Correctness of the paged store

    Pages: what [fill] writes into the pages of an entry is what [read_pages] reads,
    and no other page changes.  Entries: every page is free or held by exactly one
    entry, the sampling slice and the map index exactly the listed entries.  On top
    of these the store keeps the contract of [BlockStore.StoreSpec] under every
    policy, evicts in recency order under the LRU policy and the lowest sampled
    score under the cost policy. *)

From Stdlib Require Import Floats.SpecFloat.
From S2P Require Import Prelude Float64 BlockStore PagedList Paged.

Module PagedProps.
Import BlockStore PagedList Paged.
Local Open Scope N_scope.

(** ** Pages *)
Section pages.
Context (ps : nat) (Hps : (0 < ps)%nat).
Local Open Scope nat_scope.

Definition page_in (ar : bytes) (pg : Z) : Prop := (0 ≤ pg)%Z ∧ (Z.to_nat pg + 1) * ps ≤ length ar.
(** Where byte [k] of a payload lies. *)
Definition byte_pos (pg : Z) (k : nat) : nat := Z.to_nat pg * ps + k mod ps.

Lemma page_off ar pg : page_in ar pg → (0 ≤ pg * Z.of_nat ps ≤ Z.of_nat (length ar))%Z ∧
  Z.to_nat (pg * Z.of_nat ps) = Z.to_nat pg * ps.
Proof. intros [? ?]. nia. Qed.

Lemma div_page i k : i * ps ≤ k < (i + 1) * ps → k / ps = i ∧ k mod ps = k - i * ps.
Proof.
  intros Hk. assert (k / ps = i) as <- by (symmetry; apply (Nat.div_unique k ps i (k - i * ps)); nia).
  split; [done|]. pose proof (Nat.div_mod_eq k ps). nia.
Qed.

Lemma div_ge i k : (i + 1) * ps ≤ k → i + 1 ≤ k / ps.
Proof. intros. apply Nat.div_le_lower_bound; nia. Qed.

Lemma byte_pos_page pg k : byte_pos pg k / ps = Z.to_nat pg.
Proof.
  unfold byte_pos. rewrite Nat.add_comm, Nat.div_add by lia.
  rewrite Nat.div_small; [done|]. apply Nat.mod_upper_bound. lia.
Qed.

(** The number of pages is exactly what the payload needs. *)
Definition fits (n size : nat) : Prop := size ≤ n * ps ∧ (n = 0 ∨ (n - 1) * ps < size).

Lemma read_pages_spec pgs i size ar payload :
  length payload = size → (∀ pg, pg ∈ pgs → page_in ar pg) →
  (pgs = [] ∨ fits (i + length pgs) size) →
  ∃ r, read_pages pgs i ps size ar payload = Some r ∧ length r = size ∧
    (∀ k, k < i * ps → r !! k = payload !! k) ∧
    (∀ k, i * ps ≤ k < size → k / ps - i < length pgs →
       r !! k = pgs !! (k / ps - i) ≫= λ pg, ar !! byte_pos pg k).
Proof.
  revert i payload. induction pgs as [|pg pgs IH]; intros i payload Hlen Hin Hfit.
  { exists payload. split_and!; [done|done|done|]. intros k _ Hk. simpl in Hk. lia. }
  destruct Hfit as [|[Hf1 Hf2]]; [done|]. simpl in Hf1, Hf2. cbn [read_pages].
  destruct (page_off ar pg) as [Hoff Hoff']; [apply Hin; by left|].
  unfold slice_from. rewrite decide_True by done. bind_step. rewrite Hoff'.
  rewrite decide_True by nia. set (lo := i * ps). set (hi := (lo + ps) `min` size).
  set (chunk := take (hi - lo) (drop (Z.to_nat pg * ps) ar)).
  assert (length chunk = hi - lo) as Hcl.
  { unfold chunk. rewrite length_take, length_drop. destruct (Hin pg) as [_ ?]; [by left|]. nia. }
  destruct (IH (S i) (list_inserts lo chunk payload)) as (r & -> & Hr & Hr1 & Hr2).
  { by rewrite length_inserts. }
  { intros q Hq. apply Hin. by right. }
  { destruct pgs as [|q pgs]; [by left|right]. simpl in *. split; nia. }
  exists r. split_and!; [done|done| |].
  - intros k Hk. rewrite Hr1 by nia. apply list_lookup_inserts_lt. done.
  - intros k Hk Hlt. destruct (decide (k < (i + 1) * ps)) as [Hk'|Hk'].
    + destruct (div_page i k) as [Hd Hm]; [lia|]. rewrite Hd, Nat.sub_diag. cbn.
      rewrite Hr1 by nia. rewrite list_lookup_inserts by nia. unfold chunk.
      rewrite lookup_take_lt by nia. rewrite lookup_drop. unfold byte_pos. f_equal. lia.
    + pose proof (div_ge i k ltac:(lia)). simpl in Hlt. rewrite Hr2 by nia.
      by replace (k / ps - i) with (S (k / ps - S i)) by lia.
Qed.

Lemma fill_spec ts i payload ar fr0 pgs :
  length pgs = i → NoDup ts → (∀ pg, pg ∈ ts → page_in ar pg) →
  (ts = [] ∨ fits (i + length ts) (length payload)) →
  ∃ ar', fill (length ts) i ps payload (ar, fr0 ++ reverse ts, pgs ++ replicate (length ts) 0%Z) =
           Some (ar', fr0, pgs ++ ts) ∧
    length ar' = length ar ∧
    (∀ x, Z.of_nat (x / ps) ∉ ts → ar' !! x = ar !! x) ∧
    (∀ k, i * ps ≤ k < length payload → k / ps - i < length ts →
       ts !! (k / ps - i) ≫= (λ pg, ar' !! byte_pos pg k) = payload !! k).
Proof.
  revert i ar pgs. induction ts as [|pg ts IH]; intros i ar pgs Hlen Hnd Hin Hfit.
  { exists ar. simpl. rewrite !app_nil_r. split_and!; [done|done|done|]. intros. simpl in *. lia. }
  destruct Hfit as [|[Hf1 Hf2]]; [done|]. simpl in Hf1, Hf2. cbn [length fill].
  apply NoDup_cons in Hnd as [Hpg Hnd].
  destruct (page_off ar pg) as [Hoff Hoff']; [apply Hin; by left|].
  rewrite reverse_cons, app_assoc, last_snoc. bind_step.
  unfold slice_bytes. rewrite decide_True by nia. bind_step.
  unfold copy_at. rewrite decide_True by done. bind_step. rewrite Hoff'.
  rewrite length_app, take_app_length' by (simpl; lia).
  set (lo := i * ps). set (hi := (lo + ps) `min` length payload).
  set (chunk := take (hi - lo) (drop lo payload)).
  assert (length chunk = hi - lo) as Hcl by (unfold chunk; rewrite length_take, length_drop; nia).
  set (ar1 := list_inserts (Z.to_nat pg * ps) chunk ar).
  assert (<[i:=pg]> (pgs ++ replicate (S (length ts)) 0%Z) = (pgs ++ [pg]) ++ replicate (length ts) 0%Z) as ->.
  { rewrite insert_app_r_alt by lia. rewrite Hlen, Nat.sub_diag. simpl. by rewrite <-app_assoc. }
  assert (length ar1 = length ar) as Hl1 by (unfold ar1; by rewrite length_inserts).
  destruct (IH (S i) ar1 (pgs ++ [pg])) as (ar' & Heq & Hl' & Ho & Hk).
  { rewrite length_app. simpl. lia. }
  { done. }
  { intros q Hq. unfold page_in. rewrite Hl1. apply Hin. by right. }
  { destruct ts as [|q ts]; [by left|right]. simpl in *. split; nia. }
  exists ar'. rewrite Heq. split_and!.
  - do 2 f_equal. by rewrite <-app_assoc.
  - congruence.
  - intros x Hx. rewrite Ho by set_solver. unfold ar1.
    destruct (decide (x < Z.to_nat pg * ps)); [by apply list_lookup_inserts_lt|].
    destruct (decide (Z.to_nat pg * ps + length chunk ≤ x)); [by apply list_lookup_inserts_ge|].
    destruct Hx. rewrite elem_of_cons. left. destruct (div_page (Z.to_nat pg) x) as [-> _]; [nia|].
    destruct (Hin pg) as [? _]; [by left|]. lia.
  - intros k Hki Hlt. destruct (decide (k < (i + 1) * ps)) as [Hk'|Hk'].
    + destruct (div_page i k) as [Hd Hm]; [lia|]. rewrite Hd, Nat.sub_diag. cbn.
      destruct (Hin pg) as [Hpg0 Hpgl]; [by left|].
      rewrite Ho by (rewrite byte_pos_page, Z2Nat.id by done; done). unfold ar1, byte_pos.
      rewrite list_lookup_inserts by nia. unfold chunk. rewrite lookup_take_lt by nia.
      rewrite lookup_drop. f_equal. lia.
    + pose proof (div_ge i k ltac:(lia)). simpl in Hlt. rewrite <-Hk by nia.
      by replace (k / ps - i) with (S (k / ps - S i)) by lia.
Qed.

(** What was written is read back, also after other pages changed. *)
Lemma fill_read ts payload ar fr0 :
  NoDup ts → (∀ pg, pg ∈ ts → page_in ar pg) → fits (length ts) (length payload) →
  ∃ ar', fill (length ts) 0 ps payload (ar, fr0 ++ reverse ts, replicate (length ts) 0%Z) =
           Some (ar', fr0, ts) ∧
    length ar' = length ar ∧ (∀ x, Z.of_nat (x / ps) ∉ ts → ar' !! x = ar !! x) ∧
    read_pages ts 0 ps (length payload) ar' (replicate (length payload) x00) = Some payload.
Proof.
  intros Hnd Hin Hfit. destruct (fill_spec ts 0 payload ar fr0 []) as (ar' & H1 & H2 & H3 & H4); try done.
  { by right. }
  exists ar'. split_and!; [done|done|done|].
  destruct (read_pages_spec ts 0 (length payload) ar' (replicate (length payload) x00)) as (r & -> & Hr & _ & Hk).
  { apply length_replicate. }
  { intros pg Hpg. unfold page_in. rewrite H2. by apply Hin. }
  { by right. }
  f_equal. apply list_eq_same_length with (length payload); [done|done|].
  intros k x y Hlt Hx Hy. destruct Hfit as [Hf1 Hf2].
  assert (k / ps - 0 < length ts) as Hd.
  { rewrite Nat.sub_0_r. apply Nat.Div0.div_lt_upper_bound. lia. }
  rewrite Hk, H4 in Hx by (simpl; lia). congruence.
Qed.

(** Reading depends only on the pages read. *)
Lemma read_pages_ext pgs i size ar ar' payload :
  length ar' = length ar →
  (∀ pg x, pg ∈ pgs → Z.of_nat (x / ps) = pg → ar' !! x = ar !! x) →
  (∀ pg, pg ∈ pgs → page_in ar pg) →
  read_pages pgs i ps size ar' payload = read_pages pgs i ps size ar payload.
Proof.
  intros Hlen Hext. revert i payload. induction pgs as [|pg pgs IH]; intros i payload Hin; [done|].
  cbn [read_pages]. destruct (page_off ar pg) as [Hoff Hoff']; [apply Hin; by left|].
  destruct (Hin pg) as [Hp0 Hpl]; [by left|].
  unfold slice_from. rewrite Hlen, !decide_True by done. bind_step. rewrite Hoff'.
  destruct (decide _); [|done]. rewrite IH.
  - do 2 f_equal. apply list_eq. intros k.
    destruct (decide (k < (i * ps + ps) `min` size - i * ps)).
    + rewrite !lookup_take_lt, !lookup_drop by done. apply (Hext pg); [by left|].
      destruct (div_page (Z.to_nat pg) (Z.to_nat pg * ps + k)) as [-> _]; lia.
    + by rewrite !lookup_take_ge by lia.
  - intros q x Hq. apply Hext. by right.
  - intros q Hq. apply Hin. by right.
Qed.

(** The pages of a payload. *)
Definition page_count (size : nat) : nat := (size + ps - 1) / ps.

Lemma fits_page_count n size : 0 < size → fits n size ↔ n = page_count size.
Proof.
  intros Hs. unfold page_count, fits. split.
  - intros [H1 H2]. apply (Nat.div_unique _ ps n (size + ps - 1 - n * ps)); nia.
  - intros ->. pose proof (Nat.div_mod_eq (size + ps - 1) ps).
    pose proof (Nat.mod_upper_bound (size + ps - 1) ps ltac:(lia)).
    set (q := (size + ps - 1) / ps) in *. split; nia.
Qed.

Lemma page_count_pos size : 0 < size → 0 < page_count size.
Proof. intros Hs. unfold page_count. apply Nat.div_str_pos. lia. Qed.
End pages.

(** ** The state without recency

    [content]: an entry without its links and access data.  [data] is what the
    operations that only record an access leave alone. *)
Section store.
Context {R : Type} (Intn : R → nat → nat * R) (Exp2 : spec_float → spec_float).
Implicit Types (s : Paged R) (l : list N) (p : N) (e : pagedEntry).

Definition content (e : pagedEntry) : pagedEntry := with_access (strip e) 0 (S754_zero false).
Definition contents s : entries := content <$> heap (lst s).
Definition data s :=
  (pageSize s, arena s, free s, contents s, items s, order s,
   OccupancyBytes (stats s), CapacityBytes (stats s), next_ptr s).

Definition page_bytes s : nat := Z.to_nat (pageSize s).
Definition nPages s : nat := (length (arena s) / page_bytes s)%nat.
Definition block_of s (e : pagedEntry) : Block :=
  MkBlock (id e) (parentID e) (modelID e) (default [] (read_payload s e)) (tokenCount e) (costUS e).
Definition block_at s p : Block :=
  default (MkBlock [] [] "" [] 0 0) (block_of s <$> contents s !! p).
Definition pages_at s p : list Z := default [] (pages <$> contents s !! p).
Definition held s l : list Z := concat (pages_at s <$> l).
Definition blocks s l : list Block := block_at s <$> l.

(** [l] is the list of entries in recency order. *)
Record data_wf s l : Prop := {
  dw_ps : (0 < pageSize s < 4611686018427387904)%Z;
  dw_arena : length (arena s) = (nPages s * page_bytes s)%nat;
  dw_npages : (Z.of_nat (nPages s) ≤ 2147483648)%Z;
  dw_cap : CapacityBytes (stats s) = N.of_nat (length (arena s));
  dw_cap_max : N.of_nat (length (arena s)) < 9223372036854775808;
  dw_fresh : ∀ p, is_Some (contents s !! p) → p < next_ptr s;
  dw_listed : ∀ p, p ∈ l → ∃ e, contents s !! p = Some e ∧ items s !! id e = Some p ∧
    fits (page_bytes s) (length (pages e)) (size e) ∧ (0 < size e)%nat;
  dw_items : ∀ bid p, items s !! bid = Some p → p ∈ l ∧ ∃ e, contents s !! p = Some e ∧ id e = bid;
  dw_nodup : NoDup l;
  dw_order : order s ≡ₚ l;
  dw_idx : ∀ i p e, order s !! i = Some p → contents s !! p = Some e → orderIdx e = i;
  dw_pages : free s ++ held s l ≡ₚ seqZ 0 (Z.of_nat (nPages s));
  dw_occ : OccupancyBytes (stats s) = N.of_nat (length (held s l) * page_bytes s)
}.

Definition paged_wf_at s l : Prop := dll (lst s) l ∧ data_wf s l.

Lemma read_payload_data s s' e : data s' = data s → read_payload s' e = read_payload s e.
Proof. intros [= Hps Har _ _ _ _ _ _ _]. unfold read_payload. by rewrite Hps, Har. Qed.

Lemma blocks_data s s' l : data s' = data s → blocks s' l = blocks s l.
Proof.
  intros Hd. apply list_fmap_ext. intros _ p _. unfold block_at, block_of.
  assert (contents s' = contents s) as -> by (by injection Hd).
  destruct (contents s !! p) as [e|]; simpl; [|done]. by rewrite (read_payload_data s s').
Qed.

Lemma data_wf_ext s s' l l' : data s' = data s → l' ≡ₚ l → data_wf s l → data_wf s' l'.
Proof.
  intros [= Hps Har Hfr Hco Hit Hor Hoc Hca Hnp] Hl [].
  assert (held s' l' ≡ₚ held s l) as Hh by (unfold held, pages_at; by rewrite Hco, Hl).
  assert (nPages s' = nPages s ∧ page_bytes s' = page_bytes s) as [Hn Hpb].
  { unfold nPages, page_bytes. by rewrite Hps, Har. }
  split; rewrite ?Hn, ?Hpb, ?Hps, ?Har, ?Hfr, ?Hco, ?Hit, ?Hor, ?Hoc, ?Hca, ?Hnp, ?Hh; try done.
  - intros p. rewrite Hl. auto.
  - intros bid p. rewrite Hl. auto.
  - by rewrite Hl.
  - by rewrite Hl.
Qed.

(** ** Blocks of the listed entries *)
Lemma block_at_id s l p : data_wf s l → p ∈ l → items s !! ID (block_at s p) = Some p.
Proof.
  intros Hwf Hp. destruct (dw_listed s l Hwf p Hp) as (e & He & Hi & _).
  unfold block_at. rewrite He. done.
Qed.

Lemma blocks_ids s l : data_wf s l → NoDup (ID <$> blocks s l).
Proof.
  intros Hwf. unfold blocks. rewrite <-list_fmap_compose. apply NoDup_fmap_in; [apply (dw_nodup s l Hwf)|].
  intros p q Hp Hq Heq. simpl in Heq.
  apply (block_at_id s l _ Hwf) in Hp. apply (block_at_id s l _ Hwf) in Hq. congruence.
Qed.

Lemma items_block s l bid p :
  data_wf s l → items s !! bid = Some p →
  p ∈ l ∧ ID (block_at s p) = bid ∧ by_id (blocks s l) !! bid = Some (block_at s p).
Proof.
  intros Hwf Hp. destruct (dw_items s l Hwf bid p Hp) as (Hin & e & He & Hid).
  assert (ID (block_at s p) = bid) as Hb by (unfold block_at; by rewrite He).
  split_and!; [done|done|]. apply lookup_by_id; [by apply blocks_ids|].
  split; [|done]. apply list_elem_of_fmap. eauto.
Qed.

Lemma items_None s l bid : data_wf s l → items s !! bid = None ↔ bid ∉ ID <$> blocks s l.
Proof.
  intros Hwf. split.
  - intros Hn. unfold blocks. rewrite <-list_fmap_compose. intros (p & -> & Hp)%list_elem_of_fmap.
    apply (block_at_id s l _ Hwf) in Hp. simpl in Hn. congruence.
  - intros Hn. destruct (items s !! bid) as [p|] eqn:Hp; [|done]. destruct Hn.
    destruct (items_block s l bid p Hwf Hp) as (Hin & <- & _).
    apply list_elem_of_fmap. exists (block_at s p). split; [done|]. apply list_elem_of_fmap. eauto.
Qed.

(** ** touch *)
Lemma contents_strip (h h' : entries) : strip <$> h' = strip <$> h → content <$> h' = content <$> h.
Proof.
  intros Heq. change content with ((λ e, with_access e 0 (S754_zero false)) ∘ strip).
  by rewrite !map_fmap_compose, Heq.
Qed.

Lemma touch_spec s l p :
  paged_wf_at s l → p ∈ l →
  ∃ s', touch Exp2 s p = Some s' ∧ paged_wf_at s' (p :: filter (λ q, q ≠ p) l) ∧
    data s' = data s ∧ pol s' = pol s ∧ stats s' = stats s.
Proof.
  intros [Hdll Hwf] Hp. destruct (dw_listed s l Hwf p Hp) as (ce & Hce & _).
  unfold contents in Hce. rewrite lookup_fmap in Hce. apply fmap_Some in Hce as (e & He & _).
  unfold touch. simpl. rewrite He. simpl. set (e' := with_access e _ _).
  assert (content <$> <[p := e']> (heap (lst s)) = contents s) as Hco.
  { unfold contents. rewrite fmap_insert. apply insert_id. by rewrite lookup_fmap, He. }
  destruct (lruMoveFront_spec _ l p (dll_update (lst s) l p e e' He eq_refl eq_refl Hdll) Hp)
    as (L & -> & HL & Hs). simpl in *. eexists. split; [done|].
  assert (contents (with_lst (with_clock s (u64 (clock s + 1))) L) = contents s) as Hc'.
  { rewrite <-Hco. by apply contents_strip. }
  assert (data (with_lst (with_clock s (u64 (clock s + 1))) L) = data s) as Hd.
  { unfold data. by rewrite Hc'. }
  split_and!; [|done|done|done]. split; [done|]. apply (data_wf_ext s _ l); [done| |done].
  apply list_elem_of_split in Hp as (l1 & l2 & ->). rewrite filter_ne_app by apply (dw_nodup _ _ Hwf).
  apply Permutation_middle.
Qed.

Lemma blocks_to_front s l p :
  data_wf s l → p ∈ l →
  blocks s (p :: filter (λ q, q ≠ p) l) = to_front (ID (block_at s p)) (blocks s l).
Proof.
  intros Hwf Hp. unfold blocks, to_front. rewrite fmap_cons, !filter_fmap.
  assert (∀ q, q ∈ l → ID (block_at s q) = ID (block_at s p) ↔ q = p) as Hq.
  { intros q Hq. split; [|by intros ->]. intros Heq.
    apply (block_at_id s l _ Hwf) in Hp. apply (block_at_id s l _ Hwf) in Hq. congruence. }
  rewrite (filter_ext_in (λ q, ID (block_at s q) = _) (λ q, q = p) l) by done.
  rewrite (filter_ext_in (λ q, ID (block_at s q) ≠ _) (λ q, q ≠ p) l) by (intros; by rewrite Hq).
  pose proof (dw_nodup s l Hwf) as Hnd. apply list_elem_of_split in Hp as (l1 & l2 & ->).
  rewrite <-Permutation_middle in Hnd. apply NoDup_cons in Hnd as [Hnp _].
  assert (filter (λ q, q = p) (l1 ++ p :: l2) = [p]) as ->; [|done].
  rewrite filter_app, filter_cons_True by done.
  rewrite !filter_none; [done|apply Forall_forall; set_solver..].
Qed.

(** A touch moves the block to the front and changes nothing else. *)
Lemma touch_blocks s l bid p :
  paged_wf_at s l → items s !! bid = Some p →
  ∃ s' l', touch Exp2 s p = Some s' ∧ paged_wf_at s' l' ∧ blocks s' l' = to_front bid (blocks s l) ∧
    data s' = data s ∧ pol s' = pol s ∧ stats s' = stats s.
Proof.
  intros Hwf Hp. destruct (items_block s l bid p (proj2 Hwf) Hp) as (Hin & Hid & _).
  destruct (touch_spec s l p Hwf Hin) as (s' & H1 & H2 & H3 & H4 & H5). eexists _, _.
  split_and!; try done. rewrite (blocks_data s s') by done. rewrite <-Hid.
  apply blocks_to_front; [apply Hwf|done].
Qed.

(** ** Choosing the victim *)
Definition score_at s p : spec_float := default S754_nan (eScore Exp2 s <$> heap (lst s) !! p).

Lemma with_rng_id s : with_rng s (rng s) = s.
Proof. by destruct s. Qed.

Lemma heap_listed s l p : data_wf s l → p ∈ l → ∃ e, heap (lst s) !! p = Some e.
Proof.
  intros Hwf Hp. destruct (dw_listed s l Hwf p Hp) as (ce & Hce & _).
  unfold contents in Hce. rewrite lookup_fmap in Hce. apply fmap_Some in Hce as (e & He & _). eauto.
Qed.

Context (Intn_range : ∀ r n, (0 < n)%nat → ((Intn r n).1 < n)%nat).

(** The loop keeps a sampled entry that no sampled entry scores below. *)
Definition lowest s (draws : list N) (victim res : option (N * spec_float)) : Prop :=
  match res with
  | None => victim = None ∧ draws = []
  | Some (v, sc) =>
      (victim = Some (v, sc) ∨ v ∈ draws ∧ sc = score_at s v) ∧
      (∀ d, d ∈ draws → float64.ltb (score_at s d) sc = false) ∧
      (∀ v0 sc0, victim = Some (v0, sc0) → sc = sc0 ∨ float64.ltb sc sc0 = true)
  end.

Lemma lowest_nil s victim : lowest s [] victim victim.
Proof.
  destruct victim as [[v sc]|]; simpl; [|done]. split_and!; [by left|set_solver|].
  intros v0 sc0 [= <- <-]. by left.
Qed.

Lemma lowest_cons s p draws victim res :
  lowest s draws
    match victim with
    | None => Some (p, score_at s p)
    | Some (v, sc) => if float64.ltb (score_at s p) sc then Some (p, score_at s p) else Some (v, sc)
    end res →
  lowest s (p :: draws) victim res.
Proof.
  unfold lowest. destruct res as [[v sc]|].
  2:{ destruct victim as [[v0 sc0]|]; [by destruct (float64.ltb _ _); intros []|by intros []]. }
  assert (∀ sc', sc = sc' ∨ float64.ltb sc sc' = true → float64.ltb sc' sc = false) as Hle.
  { intros sc' [->|Hsc]; [apply float64.ltb_irrefl|]. destruct (float64.ltb sc' sc) eqn:Hc; [|done].
    pose proof (float64.ltb_trans _ _ _ Hc Hsc) as Ht. by rewrite float64.ltb_irrefl in Ht. }
  destruct victim as [[v0 sc0]|]; [destruct (float64.ltb (score_at s p) sc0) eqn:Hlt|];
    intros (Hv & Hd & H0); specialize (H0 _ _ eq_refl).
  - split_and!.
    + right. destruct Hv as [Heq|[? ->]]; [injection Heq as <- <-|]; set_solver.
    + intros d [->|?]%elem_of_cons; [by apply Hle|by apply Hd].
    + intros ?? Heq. injection Heq as <- <-. right.
      destruct H0 as [->|H0]; [done|by eapply float64.ltb_trans].
  - split_and!.
    + destruct Hv as [?|[? ->]]; [by left|right; set_solver].
    + intros d [->|?]%elem_of_cons; [|by apply Hd]. destruct H0 as [->|H0]; [done|].
      destruct (float64.ltb (score_at s p) sc) eqn:Hc; [|done].
      by rewrite (float64.ltb_trans _ _ _ Hc H0) in Hlt.
    + intros ?? Heq. by injection Heq as <- <-.
  - split_and!; [|intros d [->|?]%elem_of_cons; [by apply Hle|by apply Hd]|done].
    right. destruct Hv as [Heq|[? ->]]; [injection Heq as <- <-|]; set_solver.
Qed.

(** What the generator yields: [k] calls of [Intn(n)], and the generator after them. *)
Fixpoint drawn (k : nat) (r : R) (n : nat) : list nat * R :=
  match k with
  | O => ([], r)
  | S k => let '(x, r) := Intn r n in let '(xs, r) := drawn k r n in (x :: xs, r)
  end.
(** The entries of [order] at the drawn positions. *)
Definition sampled s k (r : R) (draws : list N) : Prop :=
  Some <$> draws = (λ i, order s !! i) <$> (drawn k r (length (order s))).1.
Lemma length_drawn k r n : length (drawn k r n).1 = k.
Proof.
  revert r. induction k as [|k IH]; intros r; cbn [drawn]; [done|]. destruct (Intn r n) as [x r1].
  specialize (IH r1). destruct (drawn k r1 n) as [xs r2]. cbn in *. by rewrite IH.
Qed.
Lemma length_sampled s k r draws : sampled s k r draws → length draws = k.
Proof. intros Hs%(f_equal length). by rewrite !length_fmap, length_drawn in Hs. Qed.

Lemma sample_spec fuel i s l r victim :
  data_wf s l →
  let k := (fuel `min` (length (order s) - i))%nat in
  ∃ draws res, sample Intn Exp2 fuel i (with_rng s r) victim =
      Some (with_rng s (drawn k r (length (order s))).2, res) ∧
    sampled s k r draws ∧ (∀ d, d ∈ draws → d ∈ l) ∧ lowest s draws victim res.
Proof.
  intros Hwf. revert i r victim. induction fuel as [|fuel IH]; intros i r victim; cbn [sample]; cbv zeta.
  { exists [], victim. split_and!; [done|done|set_solver|apply lowest_nil]. }
  change (order (with_rng s r)) with (order s).
  destruct (Nat.ltb_spec i (length (order s))) as [Hi|Hi].
  2:{ exists [], victim. replace (length (order s) - i)%nat with 0%nat by lia. rewrite Nat.min_0_r.
      split_and!; [done|done|set_solver|apply lowest_nil]. }
  replace (S fuel `min` (length (order s) - i))%nat with (S (fuel `min` (length (order s) - S i))) by lia.
  unfold sampled. cbn [drawn].
  pose proof (Intn_range r (length (order s)) ltac:(lia)) as Hk. change (rng (with_rng s r)) with r.
  destruct (Intn r (length (order s))) as [k r1]. simpl in Hk.
  destruct (lookup_lt_is_Some_2 (order s) k Hk) as [p Hp]. change (order (with_rng (with_rng s r) r1)) with (order s). rewrite Hp. bind_step.
  assert (p ∈ l) as Hpl by (rewrite <-(dw_order s l Hwf); by eapply list_elem_of_lookup_2).
  destruct (heap_listed s l p Hwf Hpl) as [e He]. change (lst (with_rng (with_rng s r) r1)) with (lst s).
  rewrite He. bind_step.
  change (eScore Exp2 (with_rng (with_rng s r) r1) e) with (eScore Exp2 s e).
  assert (score_at s p = eScore Exp2 s e) as <- by (unfold score_at; by rewrite He).
  destruct (IH (S i) r1 match victim with
    | None => Some (p, score_at s p)
    | Some (v, sc) => if float64.ltb (score_at s p) sc then Some (p, score_at s p) else Some (v, sc)
    end) as (draws & res & Heq & Hs & Hin & Hlow). unfold sampled in Hs.
  destruct (drawn (fuel `min` (length (order s) - S i)) r1 (length (order s))) as [xs r2]. cbn [fst snd] in *.
  exists (p :: draws), res. split_and!; [exact Heq|by rewrite !fmap_cons, Hs, Hp|set_solver|].
  by apply lowest_cons.
Qed.

(** The victim is listed; under the LRU policy it is the last of the list, under
    the cost policy no sampled entry scores below it. *)
Lemma pick_victim_spec s l :
  paged_wf_at s l → l ≠ [] →
  ∃ r v, pick_victim Intn Exp2 s = Some (with_rng s r, Some v) ∧ v ∈ l ∧
    (pol s ≠ EvictCost → last l = Some v) ∧
    (pol s = EvictCost → ∃ draws, sampled s (evictSample `min` length l) (rng s) draws ∧ v ∈ draws ∧
       (∀ d, d ∈ draws → d ∈ l ∧ float64.ltb (score_at s d) (score_at s v) = false)).
Proof.
  intros [Hdll Hwf] Hne. unfold pick_victim. destruct (decide (pol s = EvictCost)) as [Hc|Hc].
  - destruct (sample_spec evictSample 0 s l (rng s) None Hwf) as (draws & res & Heq & Hs & Hin & Hlow).
    rewrite with_rng_id in Heq. rewrite Heq. rewrite Nat.sub_0_r, (Permutation_length (dw_order s l Hwf)) in Hs.
    destruct res as [[v sc]|].
    2:{ destruct Hlow as [_ ->]. apply length_sampled in Hs. destruct l; [done|]. cbn in Hs. unfold evictSample in Hs. lia. }
    destruct Hlow as ([|[Hv ->]] & Hd & _); [done|]. eexists _, v. split_and!; [done|by apply Hin|done|].
    intros _. exists draws. split_and!; [done|done|]. intros d Hdd. split; [by apply Hin|by apply Hd].
  - destruct Hdll as (_ & _ & Ht & _). destruct (last l) as [v|] eqn:Hv; [|by apply last_None in Hv].
    exists (rng s), v. rewrite with_rng_id, Ht. split_and!; try done. by apply last_Some_elem_of.
Qed.

(** ** Evicting *)
Lemma contents_lookup s p ce :
  contents s !! p = Some ce → ∃ e, heap (lst s) !! p = Some e ∧ content e = ce.
Proof. unfold contents. rewrite lookup_fmap. intros (e & ? & ->)%fmap_Some. eauto. Qed.

Lemma order_index s l p :
  data_wf s l → p ∈ l → ∃ e, contents s !! p = Some e ∧ order s !! orderIdx e = Some p.
Proof.
  intros Hwf Hp. destruct (dw_listed s l Hwf p Hp) as (e & He & _). exists e. split; [done|].
  rewrite <-(dw_order s l Hwf) in Hp. apply list_elem_of_lookup in Hp as [i Hi].
  by rewrite (dw_idx s l Hwf i p e Hi He).
Qed.

(** The state [evict] ends in: the index of the entry that fills the hole is the
    only content that changes. *)
Lemma evict_eq s l v ce :
  paged_wf_at s l → v ∈ l → contents s !! v = Some ce →
  ∃ s' lastp el, evict s v = Some s' ∧ dll (lst s') (filter (λ q, q ≠ v) l) ∧
    last (order s) = Some lastp ∧ contents s !! lastp = Some el ∧
    contents s' = <[lastp := with_orderIdx el (orderIdx ce)]> (contents s) ∧
    order s' = take (length (<[orderIdx ce := lastp]> (order s)) - 1) (<[orderIdx ce := lastp]> (order s)) ∧
    pageSize s' = pageSize s ∧ arena s' = arena s ∧ free s' = free s ++ pages ce ∧
    items s' = delete (id ce) (items s) ∧ pol s' = pol s ∧ next_ptr s' = next_ptr s ∧
    CapacityBytes (stats s') = CapacityBytes (stats s) ∧
    OccupancyBytes (stats s') =
      sub64 (OccupancyBytes (stats s)) (Z.to_N (Z.of_nat (length (pages ce)) * pageSize s)) ∧
    counters (stats s') = counters (add_eviction (costUS ce) (stats s)).
Proof.
  intros [Hdll Hwf] Hv Hce. destruct (contents_lookup s v ce Hce) as (e & He & <-).
  destruct (order_index s l v Hwf Hv) as (ce & Hce' & Hidx). assert (ce = content e) as -> by congruence.
  destruct (lruRemove_spec (lst s) l v Hdll Hv) as (L & HL & Hdll' & Hs & _).
  destruct (lookup_strip _ _ _ _ Hs He) as (e1 & He1 & Hs1).
  assert (orderIdx e1 = orderIdx e) as Hi1 by exact (f_equal orderIdx Hs1).
  destruct (last (order s)) as [lastp|] eqn:Hlast.
  2:{ apply last_None in Hlast. by rewrite Hlast in Hidx. }
  assert (lastp ∈ l) as Hlp by (rewrite <-(dw_order s l Hwf); by apply last_Some_elem_of).
  destruct (heap_listed s l lastp Hwf Hlp) as [el Hel].
  destruct (lookup_strip _ _ _ _ Hs Hel) as (el1 & Hel1 & Hsl).
  unfold evict. rewrite He. bind_step. rewrite HL. bind_step.
  unfold swap_remove. simpl. rewrite Hlast. simpl. rewrite He1. simpl. rewrite Hi1.
  rewrite decide_True by (by eapply lookup_lt_Some). simpl. rewrite Hel1. simpl.
  eexists _, lastp, (content el). split; [done|]. simpl. split_and!; try done.
  - apply (dll_update L _ lastp el1); [done..|]. done.
  - unfold contents. by rewrite lookup_fmap, Hel.
  - unfold contents. simpl. rewrite fmap_insert, (contents_strip _ _ Hs). f_equal.
    change (with_orderIdx (with_access (strip el1) 0 (S754_zero false)) (orderIdx e) =
            with_orderIdx (with_access (strip el) 0 (S754_zero false)) (orderIdx e)).
    by rewrite Hsl.
Qed.

Lemma filter_ne_perm (l : list N) v : NoDup l → v ∈ l → v :: filter (λ q, q ≠ v) l ≡ₚ l.
Proof.
  intros Hnd (l1 & l2 & ->)%list_elem_of_split. rewrite filter_ne_app by done. apply Permutation_middle.
Qed.

Lemma held_cons s v l : held s (v :: l) = pages_at s v ++ held s l.
Proof. done. Qed.

(** Same payload pages and fields, whatever the sampling index says. *)
Lemma same_blocks s s' l :
  pageSize s' = pageSize s → arena s' = arena s →
  (∀ p, p ∈ l → ∃ e i, contents s !! p = Some e ∧ contents s' !! p = Some (with_orderIdx e i)) →
  blocks s' l = blocks s l ∧ held s' l = held s l.
Proof.
  intros Hps Har Hc. split; [|unfold held; f_equal]; apply list_fmap_ext; intros j p Hp%list_elem_of_lookup_2;
    destruct (Hc p Hp) as (e & i & He & He').
  - unfold block_at, block_of, read_payload. rewrite He, He', Hps, Har. done.
  - unfold pages_at. by rewrite He, He'.
Qed.

Lemma evict_spec s l v :
  paged_wf_at s l → v ∈ l →
  let l' := filter (λ q, q ≠ v) l in
  ∃ s', evict s v = Some s' ∧ paged_wf_at s' l' ∧ pageSize s' = pageSize s ∧ arena s' = arena s ∧
    pol s' = pol s ∧ blocks s' l' = blocks s l' ∧ items s' = delete (ID (block_at s v)) (items s) ∧
    counters (stats s') = counters (evicted (block_at s v) (stats s)).
Proof.
  intros Hwf0 Hv l'. pose proof Hwf0 as [_ Hwf].
  destruct (order_index s l v Hwf Hv) as (ce & Hce & Hidx).
  destruct (dw_listed s l Hwf v Hv) as (ce' & Hce' & Hiv & _). assert (ce' = ce) as -> by congruence.
  destruct (evict_eq s l v ce Hwf0 Hv Hce)
    as (s' & lastp & el & Heq & Hdll & Hlast & Hel & Hco & Hor & Hps & Har & Hfr & Hit & Hpol & Hnp & Hcap & Hocc & Hcnt).
  pose proof (dw_nodup s l Hwf) as Hnd. pose proof (filter_ne_perm l v Hnd Hv) as Hperm. fold l' in Hperm, Hdll.
  assert (NoDup (order s)) as Hndo by (by rewrite (dw_order s l Hwf)).
  assert (∀ p e, contents s !! p = Some e → ∃ i, contents s' !! p = Some (with_orderIdx e i)) as Hfwd.
  { intros p e He. rewrite Hco. destruct (decide (p = lastp)) as [->|Hne].
    - rewrite lookup_insert_eq. assert (e = el) as -> by congruence. eauto.
    - rewrite lookup_insert_ne by done. exists (orderIdx e). rewrite He. by destruct e. }
  assert (∀ p, p ∈ l' → p ∈ l ∧ p ≠ v) as Hl' by (intros p; unfold l'; rewrite list_elem_of_filter; tauto).
  destruct (same_blocks s s' l' Hps Har) as [Hbl Hhe].
  { intros p [Hp _]%Hl'. destruct (dw_listed s l Hwf p Hp) as (e & He & _).
    destruct (Hfwd p e He) as [i Hi]. eauto. }
  assert (pages_at s v = pages ce) as Hpv by (unfold pages_at; by rewrite Hce).
  assert (held s l ≡ₚ pages ce ++ held s l') as Hheld.
  { rewrite <-Hpv, <-held_cons. unfold held. by rewrite Hperm. }
  assert (nPages s' = nPages s ∧ page_bytes s' = page_bytes s) as [Hn Hpb].
  { unfold nPages, page_bytes. by rewrite Hps, Har. }
  exists s'. split_and!; try done; [|by unfold block_at; rewrite Hce|by rewrite Hcnt; unfold block_at; rewrite Hce].
  split; [done|]. split; rewrite ?Hn, ?Hpb, ?Hps, ?Har, ?Hcap, ?Hnp; try apply Hwf.
  - intros p [e He]. apply (dw_fresh s l Hwf). rewrite Hco in He.
    apply lookup_insert_Some in He as [[<- _]|[_ He]]; by eexists.
  - intros p [Hp Hpv']%Hl'. destruct (dw_listed s l Hwf p Hp) as (e & He & Hi & Hrest).
    destruct (Hfwd p e He) as [i Hi']. eexists. split_and!; [done| |apply Hrest..].
    rewrite Hit, lookup_delete_ne; [done|]. simpl. congruence.
  - intros bid p. rewrite Hit, lookup_delete_Some. intros [Hne Hp].
    destruct (dw_items s l Hwf bid p Hp) as (Hpl & e & He & Hid).
    destruct (Hfwd p e He) as [i Hi]. split; [|by eexists].
    unfold l'. apply list_elem_of_filter. split; [congruence|done].
  - by apply NoDup_filter.
  - rewrite Hor. apply (Permutation_cons_inv (a := v)). rewrite Hperm, <-(dw_order s l Hwf).
    by apply swap_remove_perm.
  - intros j q e Hj He. rewrite Hor in Hj.
    destruct (swap_remove_lookup (order s) _ v lastp Hidx Hlast j q Hndo Hj) as [[-> ->]|[Hne Hj']].
    + rewrite Hco, lookup_insert_eq in He. by injection He as <-.
    + rewrite Hco, lookup_insert_ne in He by done. by apply (dw_idx s l Hwf j q e).
  - rewrite Hfr, Hhe, <-app_assoc, <-Hheld. apply Hwf.
  - rewrite Hocc, (dw_occ s l Hwf), Hhe, Hheld, length_app.
    pose proof (dw_ps s l Hwf). pose proof (dw_cap_max s l Hwf). pose proof (dw_arena s l Hwf).
    assert (length (held s l) ≤ nPages s)%nat as Hle.
    { pose proof (Permutation_length (dw_pages s l Hwf)) as Hlen.
      rewrite length_app, length_seqZ in Hlen. lia. }
    rewrite Hheld, length_app in Hle. unfold page_bytes in *.
    assert ((length (pages ce) + length (held s l')) * Z.to_nat (pageSize s) ≤ length (arena s))%nat by nia.
    rewrite sub64_small; unfold two64; nia.
Qed.

(** ** Reading the listed entries *)
Lemma pages_in_arena s l p e pg :
  data_wf s l → p ∈ l → contents s !! p = Some e → pg ∈ pages e → page_in (page_bytes s) (arena s) pg.
Proof.
  intros Hwf Hp He Hpg.
  assert (pg ∈ seqZ 0 (Z.of_nat (nPages s))) as Hin.
  { rewrite <-(dw_pages s l Hwf). apply elem_of_app. right. unfold held. apply elem_of_concat.
    exists (pages_at s p). split; [unfold pages_at; by rewrite He|]. apply list_elem_of_fmap. eauto. }
  apply elem_of_seqZ in Hin. pose proof (dw_arena s l Hwf). unfold page_in. split; nia.
Qed.

Lemma page_bytes_pos s l : data_wf s l → (0 < page_bytes s)%nat.
Proof. intros Hwf. pose proof (dw_ps s l Hwf). unfold page_bytes. lia. Qed.

Lemma read_listed s l p e :
  data_wf s l → p ∈ l → contents s !! p = Some e →
  ∃ r, read_payload s e = Some r ∧ length r = size e.
Proof.
  intros Hwf Hp He. destruct (dw_listed s l Hwf p Hp) as (e' & He' & _ & Hf & _).
  assert (e' = e) as -> by congruence. unfold read_payload.
  destruct (read_pages_spec (page_bytes s) (page_bytes_pos s l Hwf) (pages e) 0 (size e) (arena s)
    (replicate (size e) x00)) as (r & Hr & Hlen & _).
  - apply length_replicate.
  - intros pg Hpg. by eapply pages_in_arena.
  - by right.
  - eauto.
Qed.

Definition page_cost s (b : Block) : N := N.of_nat (page_count (page_bytes s) (length (Payload b))).

Lemma pages_at_cost s l p : data_wf s l → p ∈ l → N.of_nat (length (pages_at s p)) = page_cost s (block_at s p).
Proof.
  intros Hwf Hp. destruct (dw_listed s l Hwf p Hp) as (e & He & _ & Hf & Hs).
  destruct (read_listed s l p e Hwf Hp He) as (r & Hr & Hlen).
  unfold page_cost, block_at, pages_at. rewrite He. simpl. rewrite Hr. simpl. rewrite Hlen. f_equal.
  apply fits_page_count; [by eapply page_bytes_pos|done|done].
Qed.

(** The pages held are the cost of the blocks; the others are free. *)
Lemma held_total s l : data_wf s l → N.of_nat (length (held s l)) = total (page_cost s) (blocks s l).
Proof.
  intros Hwf. assert (∀ k, k ⊆ l → N.of_nat (length (held s k)) = total (page_cost s) (blocks s k)) as Hk;
    [|by apply Hk].
  induction k as [|p k IH]; intros Hsub; [done|]. rewrite held_cons, length_app.
  change (total (page_cost s) (blocks s (p :: k)))
    with (page_cost s (block_at s p) + total (page_cost s) (blocks s k)).
  rewrite <-IH by set_solver. rewrite <-(pages_at_cost s l p) by set_solver. lia.
Qed.

Lemma free_length s l :
  data_wf s l → N.of_nat (length (free s)) + total (page_cost s) (blocks s l) = N.of_nat (nPages s).
Proof.
  intros Hwf. rewrite <-held_total by done. pose proof (Permutation_length (dw_pages s l Hwf)) as Hlen.
  rewrite length_app, length_seqZ in Hlen. lia.
Qed.

Lemma pagesNeeded_eq s l size :
  data_wf s l → (N.of_nat size < 4611686018427387904) →
  pagesNeeded s size = Z.of_nat (page_count (page_bytes s) size).
Proof.
  intros Hwf Hsz. pose proof (dw_ps s l Hwf) as Hps. unfold pagesNeeded, int, page_count, page_bytes.
  rewrite !Z.mod_small by (rewrite ?Z.mod_small; lia).
  replace (Z.of_nat size + pageSize s + 9223372036854775808 - 9223372036854775808 - 1
           + 9223372036854775808 - 9223372036854775808)%Z with (Z.of_nat size + pageSize s - 1)%Z by lia.
  rewrite Z.quot_div_nonneg by lia. rewrite Nat2Z.inj_div. f_equal; lia.
Qed.

Lemma with_rng_wf s r l : paged_wf_at s l → paged_wf_at (with_rng s r) l.
Proof. intros [Hdll Hwf]. split; [done|]. by apply (data_wf_ext s _ l). Qed.

(** ** The eviction loop *)
Lemma evictOne_spec s l :
  paged_wf_at s l → l ≠ [] →
  ∃ s' v, let l' := filter (λ q, q ≠ v) l in
    evictOne Intn Exp2 s = Some (s', true) ∧ v ∈ l ∧ paged_wf_at s' l' ∧
    pageSize s' = pageSize s ∧ arena s' = arena s ∧ pol s' = pol s ∧ blocks s' l' = blocks s l' ∧
    items s' = delete (ID (block_at s v)) (items s) ∧
    counters (stats s') = counters (evicted (block_at s v) (stats s)) ∧
    (pol s ≠ EvictCost → last l = Some v) ∧
    (pol s = EvictCost → ∃ draws, sampled s (evictSample `min` length l) (rng s) draws ∧ v ∈ draws ∧
       (∀ d, d ∈ draws → d ∈ l ∧ float64.ltb (score_at s d) (score_at s v) = false)).
Proof.
  intros Hwf Hne. destruct (pick_victim_spec s l Hwf Hne) as (r & v & Hpick & Hv & Hlru & Hcost).
  destruct (evict_spec (with_rng s r) l v (with_rng_wf s r l Hwf) Hv) as (s' & Hev & Hwf' & H1 & H2 & H3 & H4 & H5 & H6).
  exists s', v. cbv zeta. unfold evictOne. rewrite Hpick. bind_step. rewrite Hev. by split_and!.
Qed.

Lemma filter_ne_last (l : list N) v : NoDup l → last l = Some v → l = filter (λ q, q ≠ v) l ++ [v].
Proof.
  intros Hnd (k & ->)%last_Some. rewrite filter_ne_app by done. by rewrite app_nil_r.
Qed.

(** The loop frees enough pages, keeps a part of the blocks, and under the LRU
    policy the longest prefix of the recency order that leaves enough pages. *)
Lemma paged_evict_loop_spec fuel need s l :
  paged_wf_at s l → (0 ≤ need ≤ Z.of_nat (nPages s))%Z → (length l < fuel)%nat →
  ∃ s' l', evict_loop Intn Exp2 fuel need s = Some (s', true) ∧ paged_wf_at s' l' ∧
    pageSize s' = pageSize s ∧ arena s' = arena s ∧ pol s' = pol s ∧
    (need ≤ Z.of_nat (length (free s')))%Z ∧ blocks s' l' ⊆ blocks s l ∧
    (∃ gone, blocks s l ≡ₚ gone ++ blocks s' l' ∧
       counters (stats s') = counters (foldr evicted (stats s) gone)) ∧
    (∀ bid, items s !! bid = None → items s' !! bid = None) ∧
    (pol s ≠ EvictCost →
       blocks s' l' = keep (page_cost s) (N.of_nat (nPages s) - Z.to_N need) (blocks s l)) ∧
    ((need ≤ Z.of_nat (length (free s)))%Z → blocks s' l' = blocks s l).
Proof.
  revert s l. induction fuel as [|fuel IH]; intros s l Hwf Hneed Hf; [lia|]. cbn [evict_loop].
  pose proof (free_length s l (proj2 Hwf)) as Hfree.
  destruct (Z.ltb_spec (Z.of_nat (length (free s))) need) as [Hlt|Hge].
  2:{ exists s, l. split_and!; try done; [by exists []|]. intros _. symmetry. apply keep_all. lia. }
  assert (l ≠ []) as Hne.
  { intros ->. unfold blocks, total in Hfree. cbn in Hfree. lia. }
  destruct (evictOne_spec s l Hwf Hne) as (s1 & v & Hev & Hv & Hwf1 & Hps & Har & Hpol & Hbl & Hit & Hcnt & Hlru & _).
  rewrite Hev. bind_step. pose proof (dw_nodup s l (proj2 Hwf)) as Hnd.
  pose proof (Permutation_length (filter_ne_perm l v Hnd Hv)) as Hlen. cbn [length] in Hlen.
  assert (nPages s1 = nPages s ∧ page_bytes s1 = page_bytes s) as [Hn Hpb].
  { unfold nPages, page_bytes. by rewrite Hps, Har. }
  destruct (IH s1 _ Hwf1) as (s2 & l2 & -> & Hwf2 & Hps2 & Har2 & Hpol2 & Hfree2 & Hsub & (gone & Hg & Hcg) & Hit2 & Hkeep & _);
    [by rewrite Hn|lia|].
  exists s2, l2. split_and!; try done; try congruence; [| | | |lia].
  - rewrite Hsub, Hbl. unfold blocks. intros b. rewrite !list_elem_of_fmap.
    intros (p & ? & [_ ?]%list_elem_of_filter). eauto.
  - exists (gone ++ [block_at s v]). rewrite foldr_app. simpl. split.
    + rewrite <-app_assoc. cbn [app]. rewrite <-Permutation_middle, <-Hg, Hbl. unfold blocks. rewrite <-fmap_cons.
      by rewrite (filter_ne_perm l v Hnd Hv).
    + rewrite Hcg. by apply counters_evicted.
  - intros bid Hbid. apply Hit2. rewrite Hit, lookup_delete_None. by right.
  - intros Hp. rewrite Hkeep by congruence. rewrite Hn, Hbl.
    assert (keep (page_cost s1) = keep (page_cost s)) as -> by (unfold page_cost; by rewrite Hpb).
    specialize (Hlru Hp). rewrite (filter_ne_last l v Hnd Hlru) at 2.
    unfold blocks. rewrite fmap_app. symmetry. apply keep_snoc.
    change [block_at s v] with (block_at s <$> [v]). rewrite <-fmap_app, <-filter_ne_last by done.
    change (N.of_nat (nPages s) - Z.to_N need < total (page_cost s) (blocks s l)). lia.
Qed.

(** ** Placing a new block *)
Definition new_entry s (b : Block) (pgs : list Z) : pagedEntry :=
  MkPagedEntry (ID b) (ParentID b) (ModelID b) (TokenCount b) (CostUS b)
    (length (Payload b)) pgs (length (order s)) 0 (S754_zero false) None None.
(** The state after [lruPushFront], with the occupancy already counted. *)
Definition placed s (b : Block) (ar : bytes) (fr : list Z) (L : links) (occ : N) : Paged R :=
  MkPaged (pageSize s) ar fr L (<[ID b := next_ptr s]> (items s)) (order s ++ [next_ptr s]) (clock s)
    (rng s) (pol s) (set_occupancy occ (stats s)) (next_ptr s + 1).

(** The popped pages: distinct, inside the arena, held by nobody. *)
Lemma free_pages s l fr0 ts :
  data_wf s l → free s = fr0 ++ reverse ts →
  NoDup ts ∧ (∀ pg, pg ∈ ts → page_in (page_bytes s) (arena s) pg ∧ pg ∉ held s l) ∧
  fr0 ++ ts ++ held s l ≡ₚ seqZ 0 (Z.of_nat (nPages s)).
Proof.
  intros Hwf Hfr. pose proof (dw_pages s l Hwf) as Hp. rewrite Hfr, reverse_Permutation, <-app_assoc in Hp.
  assert (NoDup (fr0 ++ ts ++ held s l)) as (_ & _ & (Hts & Hd & _)%NoDup_app)%NoDup_app.
  { rewrite Hp. apply NoDup_seqZ. }
  split_and!; [done| |done]. intros pg Hpg. split; [|by apply Hd].
  assert (pg ∈ seqZ 0 (Z.of_nat (nPages s))) as Hin by (rewrite <-Hp; set_solver).
  apply elem_of_seqZ in Hin. pose proof (dw_arena s l Hwf). unfold page_in. split; nia.
Qed.

Lemma next_ptr_fresh s l : data_wf s l → contents s !! next_ptr s = None ∧ next_ptr s ∉ l.
Proof.
  intros Hwf. assert (contents s !! next_ptr s = None) as Hn.
  { destruct (contents s !! next_ptr s) as [e|] eqn:He; [|done].
    pose proof (dw_fresh s l Hwf (next_ptr s) ltac:(by eexists)). lia. }
  split; [done|]. intros Hin. destruct (dw_listed s l Hwf _ Hin) as (e & He & _). congruence.
Qed.

(** The blocks that were there still read the same after other pages changed. *)
Lemma old_blocks s l s1 (ts : list Z) :
  data_wf s l → pageSize s1 = pageSize s → length (arena s1) = length (arena s) →
  (∀ x, Z.of_nat (x / page_bytes s)%nat ∉ ts → arena s1 !! x = arena s !! x) →
  (∀ pg, pg ∈ ts → pg ∉ held s l) → (∀ p, p ∈ l → contents s1 !! p = contents s !! p) →
  blocks s1 l = blocks s l ∧ held s1 l = held s l.
Proof.
  intros Hwf Hps Hlen Har Hts Hco.
  split; [|unfold held; f_equal]; apply list_fmap_ext; intros j p Hp%list_elem_of_lookup_2;
    [|unfold pages_at; by rewrite Hco].
  unfold block_at. rewrite Hco by done. destruct (dw_listed s l Hwf p Hp) as (e & He & _).
  rewrite He. simpl. unfold block_of. do 2 f_equal. unfold read_payload. rewrite Hps.
  apply read_pages_ext; [by eapply (page_bytes_pos s l)|done| |].
  - intros pg x Hpg Hx. apply Har. unfold page_bytes. rewrite Hx. intros Hin. apply (Hts pg Hin).
    unfold held. apply elem_of_concat. exists (pages_at s p).
    split; [unfold pages_at; by rewrite He|apply list_elem_of_fmap; eauto].
  - intros pg Hpg. by eapply pages_in_arena.
Qed.

Lemma place_spec s l b fr0 ts :
  paged_wf_at s l → items s !! ID b = None → (0 < length (Payload b))%nat →
  free s = fr0 ++ reverse ts → length ts = page_count (page_bytes s) (length (Payload b)) →
  let p := next_ptr s in
  ∃ ar L, fill (length ts) 0 (page_bytes s) (Payload b) (arena s, free s, replicate (length ts) 0%Z) =
            Some (ar, fr0, ts) ∧
    lruPushFront (MkLinks (<[p := new_entry s b ts]> (heap (lst s))) (head (lst s)) (tail (lst s))) p = Some L ∧
    let s1 := placed s b ar fr0 L (OccupancyBytes (stats s) + N.of_nat (length ts * page_bytes s)) in
    paged_wf_at s1 (p :: l) ∧ blocks s1 (p :: l) = b :: blocks s l ∧ nPages s1 = nPages s.
Proof.
  intros [Hdll Hwf] Hno Hpos Hfr Hlen p.
  pose proof (page_bytes_pos s l Hwf) as Hpb. destruct (next_ptr_fresh s l Hwf) as [Hfresh Hnl].
  destruct (free_pages s l fr0 ts Hwf Hfr) as (Hnd & Hin & Hperm).
  assert (fits (page_bytes s) (length ts) (length (Payload b))) as Hfits.
  { by apply fits_page_count. }
  destruct (fill_read (page_bytes s) Hpb ts (Payload b) (arena s) fr0 Hnd) as (ar & Hfill & Hal & Hao & Hread);
    [intros pg Hpg; by apply Hin|done|].
  destruct (lruPushFront_spec _ l p (dll_insert (lst s) l p (new_entry s b ts) Hnl Hdll) Hnl) as (L & HL & Hdll' & Hs).
  { simpl. rewrite lookup_insert_eq. by eexists. }
  exists ar, L. rewrite Hfr. split_and!; [done|done|]. cbv zeta.
  set (s1 := placed _ _ _ _ _ _).
  assert (contents s1 = <[p := new_entry s b ts]> (contents s)) as Hco.
  { unfold contents. simpl. rewrite (contents_strip _ _ Hs). simpl. by rewrite fmap_insert. }
  assert (∀ q, q ∈ l → contents s1 !! q = contents s !! q) as Hold.
  { intros q Hq. rewrite Hco, lookup_insert_ne; [done|]. set_solver. }
  assert (contents s1 !! p = Some (new_entry s b ts)) as Hnew by (rewrite Hco; apply lookup_insert_eq).
  destruct (old_blocks s l s1 ts Hwf) as [Hbl Hhe]; [done|done|done| |done|].
  { intros pg Hpg. by apply Hin. }
  assert (nPages s1 = nPages s) as Hn by (unfold nPages; simpl; by rewrite Hal).
  assert (pages_at s1 p = ts) as Hpp by (unfold pages_at; by rewrite Hnew).
  assert (length (held s l) + length ts ≤ nPages s)%nat as Hle.
  { apply Permutation_length in Hperm. rewrite !length_app, length_seqZ in Hperm. lia. }
  pose proof (dw_cap_max s l Hwf). pose proof (dw_arena s l Hwf).
  split_and!; [|change (blocks s1 (p :: l)) with (block_at s1 p :: blocks s1 l); rewrite Hbl; f_equal|done].
  2:{ unfold block_at. rewrite Hnew. simpl. unfold block_of, read_payload. simpl. unfold page_bytes in Hread.
      rewrite Hread. by destruct b. }
  split; [done|]. split; rewrite ?Hn; try (apply Hwf); simpl; rewrite ?Hal; try (apply Hwf); try done.
  - intros q [e He]. rewrite Hco in He. apply lookup_insert_Some in He as [[<- _]|[_ He]]; [unfold p; lia|].
    pose proof (dw_fresh s l Hwf q ltac:(by eexists)). lia.
  - intros q [->|Hq]%elem_of_cons.
    + exists (new_entry s b ts). split_and!; [done|apply lookup_insert_eq|done|done].
    + rewrite Hold by done. destruct (dw_listed s l Hwf q Hq) as (e & He & Hi & Hrest).
      exists e. split_and!; [done| |apply Hrest..]. rewrite lookup_insert_ne; [done|congruence].
  - intros bid q. rewrite lookup_insert_Some. intros [[<- <-]|[Hne Hq]].
    + split; [by left|]. eauto.
    + destruct (dw_items s l Hwf bid q Hq) as (Hql & e & He & Hid). split; [by right|].
      exists e. by rewrite Hold.
  - constructor; [done|apply Hwf].
  - rewrite <-Permutation_cons_append. by rewrite (dw_order s l Hwf).
  - intros i q e Hi He. apply lookup_snoc_Some in Hi as [[Hlt Hi]|[-> <-]].
    + rewrite Hold in He; [by apply (dw_idx s l Hwf i q e)|].
      rewrite <-(dw_order s l Hwf). by eapply list_elem_of_lookup_2.
    + fold p in He. by assert (e = new_entry s b ts) as -> by congruence.
  - rewrite held_cons, Hpp, Hhe. done.
  - rewrite held_cons, Hpp, Hhe, (dw_occ s l Hwf), length_app. change (page_bytes s1) with (page_bytes s). lia.
Qed.

(** ** Operations on the recency order *)
Lemma touch_stats s p st :
  touch Exp2 (with_stats s st) p = (λ s', with_stats s' st) <$> touch Exp2 s p.
Proof.
  unfold touch. simpl. destruct (heap (lst s) !! p); [|done]. simpl. by destruct (lruMoveFront _ p).
Qed.

Lemma touch_fields s p s' :
  touch Exp2 s p = Some s' → stats s' = stats s ∧ pageSize s' = pageSize s.
Proof.
  unfold touch. simpl. destruct (heap (lst s) !! p); [|done]. simpl.
  destruct (lruMoveFront _ p); [|done]. simpl. by intros [= <-].
Qed.

Lemma with_stats_wf s l st :
  OccupancyBytes st = OccupancyBytes (stats s) → CapacityBytes st = CapacityBytes (stats s) →
  paged_wf_at s l → paged_wf_at (with_stats s st) l ∧ blocks (with_stats s st) l = blocks s l.
Proof.
  intros Ho Hc [Hdll Hwf]. assert (data (with_stats s st) = data s) as Hd.
  { unfold data. simpl. by rewrite Ho, Hc. }
  split; [split; [done|by apply (data_wf_ext s _ l)]|by apply blocks_data].
Qed.

Lemma same_store s s' : data s' = data s → pageSize s' = pageSize s ∧ nPages s' = nPages s.
Proof. intros [= Hps Har _ _ _ _ _ _ _]. unfold nPages, page_bytes. by rewrite Hps, Har. Qed.

Lemma arena_pages s l : data_wf s l → Z.quot (Z.of_nat (length (arena s))) (pageSize s) = Z.of_nat (nPages s).
Proof.
  intros Hwf. pose proof (dw_ps s l Hwf). rewrite (dw_arena s l Hwf). unfold page_bytes.
  rewrite Z.quot_div_nonneg by lia. rewrite Nat2Z.inj_mul, Z2Nat.id by lia. apply Z.div_mul. lia.
Qed.

Lemma occupancy_bound s l :
  data_wf s l →
  OccupancyBytes (stats s) ≤ CapacityBytes (stats s) ∧ OccupancyBytes (stats s) < 9223372036854775808.
Proof.
  intros Hwf. pose proof (free_length s l Hwf) as Hfl. rewrite <-held_total in Hfl by done.
  assert (length (held s l) * page_bytes s ≤ nPages s * page_bytes s)%nat by (apply Nat.mul_le_mono_r; lia).
  pose proof (dw_arena s l Hwf). pose proof (dw_cap_max s l Hwf).
  rewrite (dw_occ s l Hwf), (dw_cap s l Hwf). lia.
Qed.

Lemma page_bytes_N s l n :
  data_wf s l → Z.to_N (Z.of_nat n * pageSize s) = N.of_nat (n * page_bytes s).
Proof. intros Hwf. pose proof (dw_ps s l Hwf). unfold page_bytes. lia. Qed.

(** [Put] of an absent block that fits. *)
Lemma paged_Put_new s l b :
  paged_wf_at s l → payload_ok b → items s !! ID b = None → (0 < length (Payload b))%nat →
  page_cost s b ≤ N.of_nat (nPages s) →
  ∃ s' l' kept, paged_Put Intn Exp2 s b = Some (s', true) ∧ paged_wf_at s' l' ∧
    pageSize s' = pageSize s ∧ nPages s' = nPages s ∧ pol s' = pol s ∧
    blocks s' l' = b :: kept ∧ kept ⊆ blocks s l ∧
    (∃ gone, blocks s l ≡ₚ gone ++ kept ∧ counters (stats s') = counters (foldr evicted (stats s) gone)) ∧
    (pol s ≠ EvictCost → kept = keep (page_cost s) (N.of_nat (nPages s) - page_cost s b) (blocks s l)) ∧
    (total (page_cost s) (blocks s l) + page_cost s b ≤ N.of_nat (nPages s) → kept = blocks s l).
Proof.
  intros Hwf Hok Hno Hpos Hcost. pose proof (page_bytes_pos s l (proj2 Hwf)) as Hpb.
  unfold paged_Put. rewrite Hno.
  rewrite (pagesNeeded_eq s l _ (proj2 Hwf) Hok), (arena_pages s l (proj2 Hwf)).
  unfold page_cost in Hcost. pose proof (page_count_pos (page_bytes s) Hpb _ Hpos) as Hn0.
  set (n := page_count (page_bytes s) (length (Payload b))) in *.
  destruct (Z.eqb_spec (Z.of_nat n) 0); [lia|]. destruct (Z.gtb_spec (Z.of_nat n) (Z.of_nat (nPages s))); [lia|].
  cbn [orb]. destruct (paged_evict_loop_spec (S (length (order s))) (Z.of_nat n) s l Hwf)
    as (s1 & l1 & -> & Hwf1 & Hps1 & Har1 & Hpol1 & Hfree1 & Hsub & (gone & Hg & Hcg) & Hit1 & Hkeep & Hall);
    [lia|rewrite (dw_order s l (proj2 Hwf)); lia|]. cbn [mbind option_bind negb].
  destruct (Z.ltb_spec (Z.of_nat n) 0); [lia|]. rewrite Nat2Z.id.
  assert (page_bytes s1 = page_bytes s) as Hpb1 by (unfold page_bytes; by rewrite Hps1).
  set (k := (length (free s1) - n)%nat).
  assert (length (reverse (drop k (free s1))) = n) as Hlts by (rewrite length_reverse, length_drop; lia).
  destruct (place_spec s1 l1 b (take k (free s1)) (reverse (drop k (free s1))) Hwf1 (Hit1 _ Hno) Hpos)
    as (ar & L & Hfill & HL & Hwf2 & Hbl2 & Hn2).
  { by rewrite reverse_involutive, take_drop. }
  { rewrite Hlts, Hpb1. done. }
  rewrite Hlts in Hfill. fold (page_bytes s1). rewrite Hfill. bind_step.
  fold (new_entry s1 b (reverse (drop k (free s1)))). rewrite HL. bind_step.
  set (occ := (OccupancyBytes (stats s1) + _)) in *.
  destruct (touch_spec _ _ (next_ptr s1) Hwf2 ltac:(by left)) as (s3 & Ht & Hwf3 & Hd3 & Hpol3 & Hst3).
  set (s2 := MkPaged (pageSize s1) ar (take k (free s1)) L (<[ID b := next_ptr s1]> (items s1))
               (order s1 ++ [next_ptr s1]) (clock s1) (rng s1) (pol s1) (stats s1) (next_ptr s1 + 1)).
  change (placed s1 b ar (take k (free s1)) L occ) with (with_stats s2 (set_occupancy occ (stats s1))) in *.
  rewrite touch_stats in Ht. apply fmap_Some in Ht as (s4 & Ht & ->). rewrite Ht. bind_step.
  destruct (touch_fields _ _ _ Ht) as [Hst4 Hps4]. rewrite Hst4, Hps4.
  change (stats s2) with (stats s1). change (pageSize s2) with (pageSize s1).
  assert (u64 (OccupancyBytes (stats s1) + Z.to_N (Z.of_nat n * pageSize s1)) = occ) as ->.
  { pose proof (occupancy_bound _ _ (proj2 Hwf2)) as Ho. simpl in Ho. unfold occ in *. rewrite Hlts in *.
    rewrite (page_bytes_N s1 l1 n) by apply Hwf1. apply u64_small. unfold two64. lia. }
  eexists _, _, (blocks s1 l1). split_and!; [done|exact Hwf3| | | | |done| | |].
  - simpl. by rewrite Hps4, <-Hps1.
  - destruct (same_store _ _ Hd3) as [_ ->]. rewrite Hn2. unfold nPages, page_bytes. by rewrite Hps1, Har1.
  - rewrite Hpol3. exact Hpol1.
  - rewrite (blocks_data _ _ _ Hd3), filter_cons_False by naive_solver.
    rewrite filter_all; [done|]. apply Forall_forall.
    pose proof (dw_nodup _ _ (proj2 Hwf2)) as [? _]%NoDup_cons. set_solver.
  - exists gone. split; [done|]. rewrite <-Hcg. done.
  - intros Hp. rewrite Hkeep by done. f_equal. unfold page_cost. fold n. lia.
  - intros Hroom. apply Hall. pose proof (free_length s l (proj2 Hwf)). unfold page_cost in Hroom at 2.
    fold n in Hroom. lia.
Qed.

(** ** The recency order of a state: the blocks along [next] from the head *)
Definition recency_ptrs s : list N := walk (length (order s)) (heap (lst s)) (head (lst s)).
Definition recency s : list Block := blocks s (recency_ptrs s).
Definition paged_wf s : Prop := paged_wf_at s (recency_ptrs s).

Lemma recency_ptrs_eq s l : paged_wf_at s l → recency_ptrs s = l.
Proof.
  intros [(_ & Hh & _ & Hl) Hwf]. unfold recency_ptrs. rewrite Hh. eapply walk_dseg; [done|].
  by rewrite (dw_order s l Hwf).
Qed.

Lemma paged_wf_intro s l : paged_wf_at s l → paged_wf s ∧ recency s = blocks s l.
Proof. intros Hwf. unfold paged_wf, recency. by rewrite (recency_ptrs_eq s l Hwf). Qed.

Lemma touch_order s bid p :
  paged_wf s → items s !! bid = Some p →
  ∃ s', touch Exp2 s p = Some s' ∧ paged_wf s' ∧ recency s' = to_front bid (recency s) ∧
    data s' = data s ∧ pol s' = pol s ∧ stats s' = stats s.
Proof.
  intros Hwf Hp. destruct (touch_blocks s _ bid p Hwf Hp) as (s' & l' & H1 & H2 & H3 & H4).
  exists s'. destruct (paged_wf_intro s' l' H2) as [H5 H6]. split_and!; try done; [|by destruct_and?..].
  by rewrite H6.
Qed.

Lemma stats_order s st :
  OccupancyBytes st = OccupancyBytes (stats s) → CapacityBytes st = CapacityBytes (stats s) →
  paged_wf s → paged_wf (with_stats s st) ∧ recency (with_stats s st) = recency s.
Proof. intros Ho Hc Hwf. apply with_stats_wf; done. Qed.

Lemma to_front_miss s bid : paged_wf s → items s !! bid = None → to_front bid (recency s) = recency s.
Proof. intros Hwf Hn. apply to_front_absent. by apply (items_None s (recency_ptrs s) bid (proj2 Hwf)). Qed.

Lemma paged_Put_order s b :
  paged_wf s → payload_ok b →
  ∃ s' stored, paged_Put Intn Exp2 s b = Some (s', stored) ∧ paged_wf s' ∧
    pageSize s' = pageSize s ∧ nPages s' = nPages s ∧ pol s' = pol s ∧
    stored = bool_decide (ID b ∉ ID <$> recency s ∧ (0 < length (Payload b))%nat ∧
                          page_cost s b ≤ N.of_nat (nPages s)) ∧
    if stored then
      ∃ kept, recency s' = b :: kept ∧ kept ⊆ recency s ∧
        (∃ gone, recency s ≡ₚ gone ++ kept ∧ counters (stats s') = counters (foldr evicted (stats s) gone)) ∧
        (pol s ≠ EvictCost →
           kept = keep (page_cost s) (N.of_nat (nPages s) - page_cost s b) (recency s)) ∧
        (total (page_cost s) (recency s) + page_cost s b ≤ N.of_nat (nPages s) → kept = recency s)
    else recency s' = to_front (ID b) (recency s) ∧ stats s' = stats s.
Proof.
  intros Hwf Hok. pose proof (items_None s _ (ID b) (proj2 Hwf)) as Hin. fold (recency s) in Hin.
  destruct (decide (ID b ∉ ID <$> recency s ∧ (0 < length (Payload b))%nat ∧
                    page_cost s b ≤ N.of_nat (nPages s))) as [(Hno & Hpos & Hcost)|Hno].
  - destruct (paged_Put_new s _ b Hwf Hok (proj2 Hin Hno) Hpos Hcost)
      as (s' & l' & kept & H1 & H2 & H3 & H4 & H5 & H6 & H7 & H7' & H8 & H8').
    destruct (paged_wf_intro s' l' H2) as [H9 H10]. exists s', true.
    split_and!; try done; [by rewrite bool_decide_true|]. exists kept. rewrite H10. by split_and!.
  - unfold paged_Put. destruct (items s !! ID b) as [p|] eqn:Hp.
    + destruct (touch_order s (ID b) p Hwf Hp) as (s' & -> & H2 & H3 & H4 & H5 & H6). exists s', false.
      destruct (same_store s s' H4) as [H7 H8]. split_and!; try done. by rewrite bool_decide_false.
    + rewrite (pagesNeeded_eq s _ _ (proj2 Hwf) Hok), (arena_pages s _ (proj2 Hwf)).
      exists s, false. rewrite bool_decide_false by done. split_and!; try done.
      2:{ symmetry. by apply to_front_miss. }
      destruct (Z.eqb_spec (Z.of_nat (page_count (page_bytes s) (length (Payload b)))) 0) as [|Hn0]; [done|].
      destruct (Z.gtb_spec (Z.of_nat (page_count (page_bytes s) (length (Payload b)))) (Z.of_nat (nPages s)))
        as [|Hle]; [done|].
      destruct Hno. split_and!; [by apply Hin| |unfold page_cost; lia].
      destruct (Payload b); [|simpl; lia]. destruct Hn0. unfold page_count. simpl.
      rewrite Nat.div_small; [done|]. pose proof (page_bytes_pos s _ (proj2 Hwf)). lia.
Qed.

Lemma paged_Get_order s bid :
  paged_wf s →
  ∃ s', paged_Get Exp2 s bid = Some (s', by_id (recency s) !! bid) ∧ paged_wf s' ∧
    pageSize s' = pageSize s ∧ nPages s' = nPages s ∧ pol s' = pol s ∧
    recency s' = to_front bid (recency s).
Proof.
  intros Hwf. unfold paged_Get. destruct (items s !! bid) as [p|] eqn:Hp.
  - destruct (stats_order s (add_hit (stats s)) eq_refl eq_refl Hwf) as [Hwf1 Hr1].
    destruct (touch_order _ bid p Hwf1 Hp) as (s' & -> & H2 & H3 & H4 & H5 & _). bind_step.
    destruct (items_block s _ bid p (proj2 Hwf) Hp) as (Hin & Hid & Hby). fold (recency s) in Hby.
    destruct (dw_listed s _ (proj2 Hwf) p Hin) as (ce & Hce & _).
    destruct (read_listed s _ p ce (proj2 Hwf) Hin Hce) as (r & Hr & _).
    assert (contents s' = contents s) as Hco by (by injection H4).
    assert (contents s' !! p = Some ce) as (e & He & <-)%contents_lookup by (by rewrite Hco).
    rewrite He. bind_step.
    assert (read_payload s' e = Some r) as ->.
    { rewrite (read_payload_data s s' e H4). exact Hr. }
    bind_step. exists s'. destruct (same_store _ _ H4) as [H7 H8].
    split_and!; try done.
    rewrite Hby. do 3 f_equal. unfold block_at. rewrite Hce. simpl. unfold block_of. by rewrite Hr.
  - destruct (stats_order s (add_miss (stats s)) eq_refl eq_refl Hwf) as [Hwf1 Hr1].
    eexists. split_and!; [|done|done|done|done|by rewrite Hr1, to_front_miss].
    do 2 f_equal. symmetry. apply by_id_None. by apply (items_None s _ bid (proj2 Hwf)).
Qed.

Lemma paged_Contains_order s bid :
  paged_wf s →
  ∃ s', paged_Contains Exp2 s bid = Some (s', bool_decide (is_Some (by_id (recency s) !! bid))) ∧
    paged_wf s' ∧ pageSize s' = pageSize s ∧ nPages s' = nPages s ∧ recency s' = to_front bid (recency s).
Proof.
  intros Hwf. unfold paged_Contains. destruct (items s !! bid) as [p|] eqn:Hp.
  - destruct (stats_order s (add_hit (stats s)) eq_refl eq_refl Hwf) as [Hwf1 Hr1].
    destruct (touch_order _ bid p Hwf1 Hp) as (s' & -> & H2 & H3 & H4 & _). bind_step.
    destruct (items_block s _ bid p (proj2 Hwf) Hp) as (_ & _ & Hby). fold (recency s) in Hby.
    destruct (same_store _ _ H4) as [H5 H6]. exists s'. split_and!; [|done|done|done|by rewrite H3, Hr1]. rewrite Hby. rewrite bool_decide_true; [done|by eexists].
  - destruct (stats_order s (add_miss (stats s)) eq_refl eq_refl Hwf) as [Hwf1 Hr1].
    eexists. split_and!; [|done|done|done|by rewrite Hr1, to_front_miss].
    rewrite (proj2 (by_id_None (recency s) bid)); [done|]. by apply (items_None s _ bid (proj2 Hwf)).
Qed.

Lemma paged_Touch_order s bid :
  paged_wf s → ∃ s', paged_Touch Exp2 s bid = Some s' ∧ paged_wf s' ∧ pageSize s' = pageSize s ∧
    nPages s' = nPages s ∧ recency s' = to_front bid (recency s).
Proof.
  intros Hwf. unfold paged_Touch. destruct (items s !! bid) as [p|] eqn:Hp.
  - destruct (touch_order _ bid p Hwf Hp) as (s' & -> & H2 & H3 & H4 & _).
    destruct (same_store _ _ H4) as [H5 H6]. by exists s'.
  - exists s. split_and!; [done|done|done|done|]. by rewrite to_front_miss.
Qed.

Lemma recency_ids s : paged_wf s → NoDup (ID <$> recency s).
Proof. intros Hwf. apply blocks_ids, Hwf. Qed.

(** ** The paged store keeps the store contract *)
#[local] Instance PagedStore : Store (Paged R) := {
  Put := paged_Put Intn Exp2; Get := paged_Get Exp2; Contains := paged_Contains Exp2;
  Touch := paged_Touch Exp2; store_Stats := paged_Stats
}.

#[local] Program Instance PagedStoreSpec : StoreSpec (Paged R) := {
  store_wf := paged_wf; view s := by_id (recency s)
}.
Next Obligation.
  intros s b Hwf Hok. destruct (paged_Put_order s b Hwf Hok) as (s' & st & H1 & H2 & _ & _ & _ & H3 & H4).
  exists s', st. split_and!; [done|done|intros ->..].
  - symmetry in H3. apply bool_decide_eq_true in H3 as (Hno & _). destruct H4 as (kept & H4 & Hsub & _).
    pose proof (recency_ids s' H2) as Hnd. rewrite H4 in *.
    apply by_id_put; [by apply recency_ids|done|done|done].
  - rewrite (proj1 H4). symmetry. apply by_id_perm; [by apply recency_ids|]. by rewrite to_front_perm.
Qed.
Next Obligation.
  intros s bid Hwf. destruct (paged_Get_order s bid Hwf) as (s' & H1 & H2 & _ & _ & _ & H3).
  exists s'. split_and!; [done|done|]. rewrite H3. symmetry.
  apply by_id_perm; [by apply recency_ids|]. by rewrite to_front_perm.
Qed.
Next Obligation.
  intros s bid Hwf. destruct (paged_Contains_order s bid Hwf) as (s' & H1 & H2 & _ & _ & H3).
  exists s'. split_and!; [done|done|]. rewrite H3. symmetry.
  apply by_id_perm; [by apply recency_ids|]. by rewrite to_front_perm.
Qed.
Next Obligation.
  intros s bid Hwf. destruct (paged_Touch_order s bid Hwf) as (s' & H1 & H2 & _ & _ & H3).
  exists s'. split_and!; [done|done|]. rewrite H3. symmetry.
  apply by_id_perm; [by apply recency_ids|]. by rewrite to_front_perm.
Qed.
Next Obligation.
  intros s bid b Hwf Hb. by apply lookup_by_id in Hb as [_ ?]; [|by apply recency_ids].
Qed.
Next Obligation. intros s Hwf. apply (occupancy_bound s _ (proj2 Hwf)). Qed.

(** Room: the pages of the new blocks are there beside those held. *)
Definition paged_room s (bs : list Block) : Prop :=
  total (page_cost s) (recency s) + total (page_cost s) bs ≤ N.of_nat (nPages s) ∧
  Forall (λ b, (0 < length (Payload b))%nat) bs.
Lemma room_static s s' bid bs :
  pageSize s' = pageSize s → nPages s' = nPages s → recency s' = to_front bid (recency s) →
  paged_room s bs → paged_room s' bs.
Proof.
  intros Hps Hn Hr. assert (page_cost s' = page_cost s) as Hpc by (unfold page_cost, page_bytes; by rewrite Hps).
  unfold paged_room. by rewrite Hpc, Hr, Hn, to_front_perm.
Qed.
#[local] Program Instance PagedStoreRoom : StoreRoom (Paged R) := { room := paged_room }.
Next Obligation.
  intros s b bs Hwf Hb [Hroom Hpos].
  change (total (page_cost s) (recency s) + (page_cost s b + total (page_cost s) bs) ≤ N.of_nat (nPages s)) in Hroom.
  apply Forall_cons in Hpos as [Hpos Hposs].
  destruct (paged_Put_order s b Hwf Hb) as (s' & st & H1 & H2 & Hps & Hn & _ & H4 & H5).
  assert (page_cost s' = page_cost s) as Hpc by (unfold page_cost, page_bytes; by rewrite Hps).
  assert (by_id (to_front (ID b) (recency s)) = by_id (recency s)) as Hp.
  { symmetry. apply by_id_perm; [by apply recency_ids|by rewrite to_front_perm]. }
  exists s', st. unfold paged_room. rewrite Hpc, Hn. symmetry in H4. destruct st.
  - destruct H5 as (kept & H5 & _ & _ & _ & Hk). rewrite Hk in H5 by lia. simpl. rewrite H5.
    apply bool_decide_eq_true in H4 as [Hno _]. split_and!; [done|done| |done| |].
    + change (total (page_cost s) (b :: recency s)) with (page_cost s b + total (page_cost s) (recency s)). lia.
    + apply insert_subseteq. by apply by_id_None.
    + exists b. apply lookup_insert_eq.
  - simpl. rewrite (proj1 H5), Hp, to_front_perm. split_and!; [done|done|lia|done|done|].
    apply bool_decide_eq_false in H4. apply not_eq_None_Some. intros Hn'%by_id_None. apply H4.
    split_and!; [done|done|lia].
Qed.
Next Obligation.
  intros s bid s' r bs Hwf Heq. destruct (paged_Contains_order s bid Hwf) as (s2 & H & _ & Hps & Hn & Hr).
  cbn in Heq. assert (s' = s2) as -> by congruence. by eapply room_static.
Qed.
Next Obligation.
  intros s bid s' r bs Hwf Heq. destruct (paged_Get_order s bid Hwf) as (s2 & H & _ & Hps & Hn & _ & Hr).
  cbn in Heq. assert (s' = s2) as -> by congruence. by eapply room_static.
Qed.
Next Obligation.
  intros s bid s' bs Hwf Heq. destruct (paged_Touch_order s bid Hwf) as (s2 & H & _ & Hps & Hn & Hr).
  cbn in Heq. assert (s' = s2) as -> by congruence. by eapply room_static.
Qed.
Next Obligation.
  simpl. intros s bs bs' Hsub [Hroom Hpos]. pose proof (total_submseteq (page_cost s) _ _ Hsub).
  split; [lia|]. rewrite Forall_forall in *. intros b Hb. apply Hpos.
  by eapply elem_of_submseteq.
Qed.

(** ** NewPaged *)
Lemma NewPaged_wf cap ps pl r0 :
  cap < 9223372036854775808 → (0 < ps < 4611686018427387904)%Z → (Z.of_N cap / ps ≤ 2147483648)%Z →
  ∃ s, NewPaged cap ps pl r0 = Some s ∧ paged_wf s ∧ recency s = [] ∧ pol s = pl ∧ pageSize s = ps ∧
    Z.of_nat (nPages s) = (Z.of_N cap / ps)%Z.
Proof using Type.
  clear Intn_range.
  intros Hcap Hps Hn. unfold NewPaged. destruct (Z.leb_spec ps 0); [lia|].
  assert (int (Z.of_N cap) = Z.of_N cap) as -> by (unfold int; rewrite Z.mod_small; lia).
  rewrite Z.quot_div_nonneg by lia.
  assert (0 ≤ Z.of_N cap / ps)%Z as Hn0 by (apply Z.div_pos; lia).
  destruct (Z.ltb_spec (Z.of_N cap / ps) 0); [lia|].
  set (n := (Z.of_N cap / ps)%Z) in *. eexists. split; [done|]. set (s := MkPaged _ _ _ _ _ _ _ _ _ _ _).
  assert (n * ps ≤ Z.of_N cap)%Z as Hle by (unfold n; rewrite Z.mul_comm; apply Z.mul_div_le; lia).
  assert (length (arena s) = Z.to_nat n * Z.to_nat ps)%nat as Har.
  { simpl. rewrite length_replicate, Z2Nat.inj_mul; lia. }
  assert (nPages s = Z.to_nat n) as Hnp.
  { unfold nPages, page_bytes. rewrite Har. simpl. apply Nat.div_mul. lia. }
  unfold paged_wf, recency. change (recency_ptrs s) with (@nil N). split_and!; try done; [|rewrite Hnp; lia].
  split; [by split_and!; [constructor|..]|]. split; rewrite ?Hnp.
  - done.
  - done.
  - lia.
  - simpl. rewrite length_replicate. lia.
  - rewrite Har. lia.
  - intros p [e He]. unfold contents in He. simpl in He. by rewrite fmap_empty, lookup_empty in He.
  - set_solver.
  - intros bid p Hp. simpl in Hp. by rewrite lookup_empty in Hp.
  - constructor.
  - done.
  - intros i p e Hi. by destruct i.
  - simpl. rewrite app_nil_r, Z2Nat.id by done. unfold seqZ.
    match goal with |- ?a ≡ₚ ?b => assert (a = b) as ->; [|done] end. apply list_fmap_ext. intros i x Hx. apply lookup_seq in Hx as [-> Hx].
    rewrite int32_small; lia.
  - done.
Qed.

(** ** Properties *)

(** C17. Whatever sequence of calls a fresh paged store receives, under either policy, no
    call panics (no nil dereference, no slice out of range), and a block that is
    read is byte for byte one that an earlier [Put] stored under that ID, although
    pages are reused by other blocks all the time; the occupancy never exceeds the
    capacity. *)
Theorem paged_never_corrupts cap ps pl r0 ops :
  cap < 9223372036854775808 → (0 < ps < 4611686018427387904)%Z → (Z.of_N cap / ps ≤ 2147483648)%Z →
  Forall op_ok ops →
  ∃ s0 s answers, NewPaged cap ps pl r0 = Some s0 ∧ run s0 ops = Some (s, answers) ∧
    length answers = length ops ∧
    (∀ i bid b, ops !! i = Some (OGet bid) → answers !! i = Some (AGet (Some b)) →
       ID b = bid ∧ ∃ j, (j < i)%nat ∧ ops !! j = Some (OPut b) ∧ answers !! j = Some (APut true)) ∧
    OccupancyBytes (paged_Stats s) ≤ CapacityBytes (paged_Stats s).
Proof.
  intros Hcap Hps Hn Hok. destruct (NewPaged_wf cap ps pl r0 Hcap Hps Hn) as (s0 & H0 & Hwf & Hr & _).
  assert (store_wf s0) as Hsw by exact Hwf.
  destruct (run_spec s0 ops Hsw Hok) as (s & l & Hrun & Hwf' & Hlen & Hget).
  exists s0, s, l. split_and!; [done|done|done| |by apply (occupancy_bound s _ (proj2 Hwf'))].
  intros i bid b Hi Hb. destruct (Hget i bid b Hi Hb) as [Hid [Hv|Hj]]; (split; [done|]); [|done].
  simpl in Hv. rewrite Hr in Hv. done.
Qed.

(** C19. Page accounting: after any sequence of calls every page of the arena is either
    on the free list or held by exactly one resident block, each block holds exactly
    the pages its payload needs, and the occupancy counter is the pages held times
    the page size.  Fragmentation is impossible: a block is declined only if it is
    present, empty or larger than the whole arena. *)
Theorem paged_pages_accounted cap ps pl r0 ops b :
  cap < 9223372036854775808 → (0 < ps < 4611686018427387904)%Z → (Z.of_N cap / ps ≤ 2147483648)%Z →
  Forall op_ok ops → payload_ok b →
  ∃ s0 s answers, NewPaged cap ps pl r0 = Some s0 ∧ run s0 ops = Some (s, answers) ∧
    let l := recency_ptrs s in
    free s ++ held s l ≡ₚ seqZ 0 (Z.of_nat (nPages s)) ∧
    (∀ p, p ∈ l → N.of_nat (length (pages_at s p)) = page_cost s (block_at s p)) ∧
    OccupancyBytes (paged_Stats s) = N.of_nat (length (held s l) * page_bytes s) ∧
    ∃ s', paged_Put Intn Exp2 s b =
      Some (s', bool_decide (ID b ∉ ID <$> recency s ∧ (0 < length (Payload b))%nat ∧
                             page_cost s b ≤ N.of_nat (nPages s))).
Proof.
  intros Hcap Hps Hn Hok Hb. destruct (NewPaged_wf cap ps pl r0 Hcap Hps Hn) as (s0 & H0 & Hwf & Hr & _).
  assert (store_wf s0) as Hsw by exact Hwf.
  destruct (run_spec s0 ops Hsw Hok) as (s & l & Hrun & Hwf' & _).
  exists s0, s, l. split_and!; [done|done|]. cbv zeta. pose proof Hwf' as [_ Hd]. split_and!.
  - apply (dw_pages s _ Hd).
  - intros p Hp. by apply (pages_at_cost s _ p Hd).
  - apply (dw_occ s _ Hd).
  - destruct (paged_Put_order s b Hwf' Hb) as (s' & st & H1 & _ & _ & _ & _ & -> & _). eauto.
Qed.

(** C18. Under the LRU policy (and every policy string that is not the cost policy) the
    paged store does to its blocks in recency order what the plain LRU store does to
    its own, with pages for bytes: a hit moves the block to the front; a stored
    block goes to the front and behind it stays the longest prefix of the order that
    leaves enough pages.  So the intrusive list, the map, the sampling slice and the
    free list together are one list of blocks. *)
Theorem paged_refines_recency_order s b bid :
  paged_wf s → payload_ok b → pol s ≠ EvictCost →
  (∃ s' stored, paged_Put Intn Exp2 s b = Some (s', stored) ∧ paged_wf s' ∧
     stored = bool_decide (ID b ∉ ID <$> recency s ∧ (0 < length (Payload b))%nat ∧
                           page_cost s b ≤ N.of_nat (nPages s)) ∧
     recency s' = if stored
                  then b :: keep (page_cost s) (N.of_nat (nPages s) - page_cost s b) (recency s)
                  else to_front (ID b) (recency s)) ∧
  (∃ s', paged_Get Exp2 s bid = Some (s', by_id (recency s) !! bid) ∧ paged_wf s' ∧
     recency s' = to_front bid (recency s)) ∧
  (∃ s', paged_Contains Exp2 s bid = Some (s', bool_decide (is_Some (by_id (recency s) !! bid))) ∧
     paged_wf s' ∧ recency s' = to_front bid (recency s)) ∧
  (∃ s', paged_Touch Exp2 s bid = Some s' ∧ paged_wf s' ∧ recency s' = to_front bid (recency s)).
Proof.
  intros Hwf Hok Hpol. split_and!.
  - destruct (paged_Put_order s b Hwf Hok) as (s' & st & H1 & H2 & _ & _ & _ & H3 & H4).
    exists s', st. split_and!; [done|done|done|]. clear H3. destruct st; [|by destruct H4].
    destruct H4 as (kept & -> & _ & _ & -> & _); done.
  - destruct (paged_Get_order s bid Hwf) as (s' & H1 & H2 & _ & _ & _ & H3). by exists s'.
  - destruct (paged_Contains_order s bid Hwf) as (s' & H1 & H2 & _ & _ & H3). by exists s'.
  - destruct (paged_Touch_order s bid Hwf) as (s' & H1 & H2 & _ & _ & H3). by exists s'.
Qed.

(** C21. The cost policy evicts the lowest scorer it sampled.  [evictOne] on a store that
    holds blocks calls the generator as many times as the sample size (or the number
    of blocks) allows; the candidates are the entries at exactly the positions it
    yielded.  One candidate is removed, and nothing else, and none of the candidates
    has a lower decayed frecency times cost per byte held, also when a score is NaN. *)
Theorem paged_evicts_lowest_score s :
  paged_wf s → pol s = EvictCost → recency s ≠ [] →
  let k := (evictSample `min` length (recency s))%nat in
  ∃ s' v draws, evictOne Intn Exp2 s = Some (s', true) ∧ paged_wf s' ∧
    Some <$> draws = (λ i, order s !! i) <$> (drawn k (rng s) (length (order s))).1 ∧
    length draws = k ∧ v ∈ draws ∧
    (∀ d, d ∈ draws → d ∈ recency_ptrs s ∧ float64.ltb (score_at s d) (score_at s v) = false) ∧
    recency s' = filter (λ b, ID b ≠ ID (block_at s v)) (recency s).
Proof.
  intros Hwf Hpol Hne k. assert (recency_ptrs s ≠ []) as Hl by (intros Hn; apply Hne; unfold recency; by rewrite Hn).
  destruct (evictOne_spec s _ Hwf Hl) as (s' & v & Hev & Hv & Hwf' & _ & _ & _ & Hbl & _ & _ & _ & Hcost).
  destruct (Hcost Hpol) as (draws & Hs & Hvd & Hd). destruct (paged_wf_intro s' _ Hwf') as [Hwf2 Hr].
  replace (length (recency_ptrs s)) with (length (recency s)) in Hs by (unfold recency, blocks; len_lia). fold k in Hs.
  exists s', v, draws. split_and!; try done; [by eapply length_sampled|].
  rewrite Hr, Hbl. unfold recency, blocks. rewrite filter_fmap. f_equal. apply filter_ext_in.
  intros q Hq. split; [|congruence]. intros Hqv Heq. apply Hqv.
  pose proof (block_at_id s _ q (proj2 Hwf) Hq). pose proof (block_at_id s _ v (proj2 Hwf) Hv). congruence.
Qed.
End store.

(** ** Witnesses: three pages of two bytes, a counter as generator *)
Definition demo_Intn (r n : nat) : nat * nat := ((r mod n)%nat, S r).
Definition demo_Exp2 (_ : spec_float) : spec_float := float64.of_N 1.
Lemma demo_Intn_range r n : (0 < n)%nat → ((demo_Intn r n).1 < n)%nat.
Proof. intros Hn. apply Nat.mod_upper_bound. lia. Qed.

Definition demo_block (i : byte) (n : nat) : Block := MkBlock [i] [] "m" (replicate n i) 1 (Byte.to_N i).
Definition demo_ops : list op :=
  [OPut (demo_block x01 3); OPut (demo_block x02 2); OGet [x01]; OPut (demo_block x03 1); OGet [x02]; OGet [x01]].
(** The answers under the LRU policy: the third block evicts the second. *)
Definition demo_answers : list answer :=
  [APut true; APut true; AGet (Some (demo_block x01 3)); APut true; AGet None; AGet (Some (demo_block x01 3))].

Lemma demo_ops_ok : Forall op_ok demo_ops.
Proof. repeat constructor. Qed.

Definition demo_run (pl : EvictionPolicy) (ops : list op) : option (Paged nat * list answer) :=
  s ← NewPaged 7 2 pl 0%nat; run (S := Paged nat) (Store0 := PagedStore demo_Intn demo_Exp2) s ops.

Lemma paged_never_corrupts_witness :
  (snd <$> demo_run EvictLRU demo_ops) = Some demo_answers ∧
  ∃ s0 s answers, NewPaged 7 2 EvictLRU 0%nat = Some s0 ∧
    run (Store0 := PagedStore demo_Intn demo_Exp2) s0 demo_ops = Some (s, answers) ∧
    length answers = length demo_ops.
Proof.
  split; [vm_compute; reflexivity|].
  destruct (paged_never_corrupts demo_Intn demo_Exp2 demo_Intn_range 7 2 EvictLRU 0%nat demo_ops)
    as (s0 & s & l & H1 & H2 & H3 & _); [reflexivity|lia|vm_compute; discriminate|exact demo_ops_ok|].
  exists s0, s, l. split; [exact H1|]. split; [exact H2|exact H3].
Defined.

Lemma paged_pages_accounted_witness :
  ∃ s0 s answers, NewPaged 7 2 EvictCost 0%nat = Some s0 ∧
    run (Store0 := PagedStore demo_Intn demo_Exp2) s0 demo_ops = Some (s, answers) ∧
    free s ++ held s (recency_ptrs s) ≡ₚ seqZ 0 (Z.of_nat (nPages s)).
Proof.
  destruct (paged_pages_accounted demo_Intn demo_Exp2 demo_Intn_range 7 2 EvictCost 0%nat demo_ops (demo_block x04 1))
    as (s0 & s & l & H1 & H2 & H3 & _);
    [reflexivity|lia|vm_compute; discriminate|exact demo_ops_ok|reflexivity|].
  exists s0, s, l. split; [exact H1|]. split; [exact H2|exact H3].
Defined.

Lemma demo_new (pl : EvictionPolicy) :
  ∃ s, NewPaged 7 2 pl 0%nat = Some s ∧ paged_wf s ∧ recency s = [] ∧ pol s = pl.
Proof.
  destruct (NewPaged_wf (R := nat) 7 2 pl 0%nat) as (s & H1 & H2 & H3 & H4 & _);
    [reflexivity|lia|vm_compute; discriminate|]. eauto.
Qed.

Lemma paged_refines_recency_order_witness :
  ∃ s s', NewPaged 7 2 EvictLRU 0%nat = Some s ∧
    paged_Put demo_Intn demo_Exp2 s (demo_block x01 3) = Some (s', true) ∧ recency s' = [demo_block x01 3].
Proof.
  destruct (demo_new EvictLRU) as (s & H1 & H2 & H3 & H4).
  destruct (paged_refines_recency_order demo_Intn demo_Exp2 demo_Intn_range s (demo_block x01 3) [x01])
    as ((s' & st & P1 & _ & P3 & P4) & _); [exact H2|reflexivity|rewrite H4; discriminate|].
  assert (st = true) as ->.
  { rewrite P3, H3. injection H1 as <-. vm_compute. reflexivity. }
  exists s, s'. split; [exact H1|]. split; [exact P1|]. rewrite P4, H3. reflexivity.
Defined.

(** Two blocks, the first cheap for its two pages, the second dear for its one: the
    generator yields both positions and the cheap block goes. *)
Lemma demo_two :
  ∃ s, fst <$> demo_run EvictCost [OPut (demo_block x01 3); OPut (demo_block x09 2)] = Some s ∧ paged_wf s ∧
    pol s = EvictCost ∧ recency s = [demo_block x09 2; demo_block x01 3].
Proof.
  destruct (demo_new EvictCost) as (s0 & H1 & H2 & _).
  destruct (paged_Put_order demo_Intn demo_Exp2 demo_Intn_range s0 (demo_block x01 3) H2 eq_refl) as (s1 & st1 & P1 & W1 & _).
  destruct (paged_Put_order demo_Intn demo_Exp2 demo_Intn_range s1 (demo_block x09 2) W1 eq_refl) as (s2 & st2 & P2 & W2 & _).
  exists s2. unfold demo_run. rewrite H1. bind_step. cbn [run]. injection H1 as <-.
  vm_compute in P1. injection P1 as <- <-. vm_compute in P2. injection P2 as <- <-.
  split_and!; [vm_compute; reflexivity|exact W2|reflexivity|vm_compute; reflexivity].
Qed.

Lemma paged_evicts_lowest_score_witness :
  ∃ s s', paged_wf s ∧ recency s = [demo_block x09 2; demo_block x01 3] ∧
    evictOne demo_Intn demo_Exp2 s = Some (s', true) ∧ paged_wf s' ∧ recency s' = [demo_block x09 2].
Proof.
  destruct demo_two as (s & Hs & Hwf & Hpol & Hrec).
  destruct (paged_evicts_lowest_score demo_Intn demo_Exp2 demo_Intn_range s) as (s' & v & draws & E1 & E2 & _);
    [exact Hwf|exact Hpol|rewrite Hrec; discriminate|].
  exists s, s'. split; [exact Hwf|]. split; [exact Hrec|]. split; [exact E1|]. split; [exact E2|].
  vm_compute in Hs. injection Hs as <-. vm_compute in E1. injection E1 as <-. vm_compute. reflexivity.
Defined.
End PagedProps.
