(* ===== verification/StoreCounts.v ===== *)
(** * The statistics of the block stores: src/internal/blockstore/{lru,paged}.go

    [Stats] is what the operators see: the collectors and the telemetry read it, the
    benchmarks compare eviction policies by it.  Both stores discharge
    [BlockStore.StoreCounts]; for every store that does, the counters after any
    sequence of calls are exact. *)

From Stdlib Require Import Floats.SpecFloat.
From S2P Require Import Prelude BlockStore LRU Float64 PagedList Paged PagedProps.

Module StoreCounts.
Import BlockStore.
Local Open Scope N_scope.

(** ** Totals of a sequence of calls *)
Definition lookup_answer (a : answer) : option bool :=
  match a with AGet r => Some (bool_decide (is_Some r)) | AContains p => Some p | _ => None end.
Definition hits (l : list answer) : N := N.of_nat (length (filter (λ a, lookup_answer a = Some true) l)).
Definition misses (l : list answer) : N := N.of_nat (length (filter (λ a, lookup_answer a = Some false) l)).
(** The blocks that were stored. *)
Fixpoint stored (ops : list op) (l : list answer) : list Block :=
  match ops, l with
  | OPut b :: ops, APut true :: l => b :: stored ops l
  | _ :: ops, _ :: l => stored ops l
  | _, _ => []
  end.
Definition cost (l : list Block) : N := total CostUS l.

(** The counters a store should show. *)
Definition expected (st : Stats) (h m : N) (gone : list Block) : N * N * N * N :=
  (u64 (Hits st + h), u64 (Misses st + m), u64 (Evictions st + N.of_nat (length gone)),
   u64 (EvictedCostUS st + cost gone)).

Lemma u64_add_l x y : u64 (u64 x + y) = u64 (x + y).
Proof. unfold u64. apply N.Div0.add_mod_idemp_l. Qed.

Lemma evicted_fields st gone :
  let st' := foldr evicted st gone in
  Hits st' = Hits st ∧ Misses st' = Misses st ∧
  (∀ k, u64 (Evictions st' + k) = u64 (Evictions st + (N.of_nat (length gone) + k))) ∧
  (∀ k, u64 (EvictedCostUS st' + k) = u64 (EvictedCostUS st + (cost gone + k))).
Proof.
  induction gone as [|b gone (H1 & H2 & H3 & H4)]; cbn [foldr]; [done|].
  unfold evicted, add_eviction. simpl. split_and!; [done|done|intros k..].
  - rewrite u64_add_l, <-N.add_assoc, H3. f_equal. lia.
  - rewrite u64_add_l, <-N.add_assoc, H4. f_equal. unfold cost, total. simpl. lia.
Qed.

Lemma expected_evicted st gone h m gone' :
  expected (foldr evicted st gone) h m gone' = expected st h m (gone ++ gone').
Proof.
  destruct (evicted_fields st gone) as (H1 & H2 & H3 & H4). unfold expected, cost in *.
  by rewrite H1, H2, H3, H4, length_app, total_app, Nat2N.inj_add.
Qed.

Lemma expected_looked_up st found h m gone :
  expected (looked_up found st) h m gone =
  expected st (if found then 1 + h else h) (if found then m else 1 + m) gone.
Proof. destruct found; unfold expected; simpl; by rewrite ?u64_add_l, ?N.add_assoc. Qed.

Lemma expected_counters st st' h m gone : counters st = counters st' → expected st h m gone = expected st' h m gone.
Proof. intros [= H1 H2 H3 H4]. unfold expected. congruence. Qed.

(** The counters are [uint64]s. *)
Definition in_range (st : Stats) : Prop :=
  Hits st < two64 ∧ Misses st < two64 ∧ Evictions st < two64 ∧ EvictedCostUS st < two64.
Lemma in_range_counters st st' : counters st' = counters st → in_range st → in_range st'.
Proof. intros [= H1 H2 H3 H4]. unfold in_range. by rewrite H1, H2, H3, H4. Qed.
Lemma in_range_evicted st gone : in_range st → in_range (foldr evicted st gone).
Proof.
  intros Hst. induction gone as [|b gone (? & ? & ? & ?)]; simpl; [done|].
  unfold in_range. simpl. auto using u64_lt.
Qed.
Lemma in_range_looked_up st found : in_range st → in_range (looked_up found st).
Proof. intros (? & ? & ? & ?). destruct found; unfold in_range; simpl; auto using u64_lt. Qed.
Lemma in_range_expected st : in_range st → expected st 0 0 [] = counters st.
Proof.
  intros (? & ? & ? & ?). unfold expected, counters, cost, total. cbn.
  rewrite !N.add_0_r. by rewrite !u64_small by done.
Qed.

(** ** One call, then all of them *)
Section counts.
Context {S : Type} `{StoreCounts S}.

(** Every block is resident or gone, and the counters moved by what happened. *)
Definition balanced (s s' : S) (ops : list op) (l : list answer) : Prop :=
  (in_range (store_Stats s) → in_range (store_Stats s')) ∧
  ∃ gone, stored ops l ++ resident s ≡ₚ gone ++ resident s' ∧
    ∀ h m gone', expected (store_Stats s') h m gone' =
      expected (store_Stats s) (hits l + h) (misses l + m) (gone ++ gone').

Lemma do_op_balanced s o s' a :
  store_wf s → op_ok o → do_op s o = Some (s', a) → balanced s s' [o] [a].
Proof.
  intros Hwf Hok. unfold balanced, hits, misses. destruct o as [b|id|id|id]; simpl.
  - destruct (Put s b) as [[s1 r]|] eqn:Hp; [|done]. intros [= -> <-].
    destruct (Put_counts s b s' r Hwf Hok Hp) as (gone & Hperm & Hc).
    split; [eauto using in_range_counters, in_range_evicted|]. exists gone. split; [by destruct r|]. intros h m gone'. rewrite (expected_counters _ _ _ _ _ Hc).
    apply expected_evicted.
  - destruct (Get s id) as [[s1 r]|] eqn:Hp; [|done]. intros [= -> <-].
    destruct (Get_counts s id s' r Hwf Hp) as [Hperm Hc].
    split; [eauto using in_range_counters, in_range_looked_up|]. exists []. split; [by rewrite Hperm|].
    intros h m gone'. rewrite (expected_counters _ _ _ _ _ Hc), expected_looked_up.
    by destruct r.
  - destruct (Contains s id) as [[s1 r]|] eqn:Hp; [|done]. intros [= -> <-].
    destruct (Contains_counts s id s' r Hwf Hp) as [Hperm Hc].
    split; [eauto using in_range_counters, in_range_looked_up|]. exists []. split; [by rewrite Hperm|].
    intros h m gone'. rewrite (expected_counters _ _ _ _ _ Hc), expected_looked_up.
    by destruct r.
  - destruct (Touch s id) as [s1|] eqn:Hp; [|done]. intros [= -> <-].
    destruct (Touch_counts s id s' Hwf Hp) as [Hperm Hc].
    split; [eauto using in_range_counters|]. exists []. split; [by rewrite Hperm|].
    intros h m gone'. by rewrite (expected_counters _ _ _ _ _ Hc).
Qed.

Lemma stored_cons o a ops l : stored (o :: ops) (a :: l) = stored [o] [a] ++ stored ops l.
Proof. by destruct o, a as [[]| | |]. Qed.
Lemma hits_cons a l : hits (a :: l) = hits [a] + hits l.
Proof. unfold hits. rewrite (filter_app _ [a] l), length_app. lia. Qed.
Lemma misses_cons a l : misses (a :: l) = misses [a] + misses l.
Proof. unfold misses. rewrite (filter_app _ [a] l), length_app. lia. Qed.

Lemma run_balanced s ops s' l :
  store_wf s → Forall op_ok ops → run s ops = Some (s', l) → store_wf s' ∧ balanced s s' ops l.
Proof.
  revert s l. induction ops as [|o ops IH]; intros s l Hwf Hok; cbn [run].
  { intros [= <- <-]. split; [done|]. split; [done|]. by exists []. }
  apply Forall_cons in Hok as [Ho Hok].
  destruct (do_op s o) as [[s1 a]|] eqn:Hop; [|done]. bind_step.
  destruct (run s1 ops) as [[s2 l1]|] eqn:Hrun; [|done]. bind_step. intros [= -> <-].
  destruct (do_op_balanced s o s1 a Hwf Ho Hop) as (Hr1 & gone1 & Hp1 & Hc1).
  destruct (do_op_spec s o Hwf Ho) as (s1' & a' & Hop' & Hwf1 & _).
  assert (s1' = s1) as -> by congruence.
  destruct (IH s1 l1 Hwf1 Hok Hrun) as (Hwf' & Hr2 & gone2 & Hp2 & Hc2). split; [done|].
  split; [auto|].
  exists (gone1 ++ gone2). split.
  - rewrite stored_cons, (Permutation_app_comm (stored [o] [a])), <-app_assoc, Hp1, app_assoc.
    rewrite (Permutation_app_comm (stored ops l1) gone1), <-!app_assoc. by rewrite Hp2.
  - intros h m gone'. rewrite Hc2, Hc1. rewrite (hits_cons a l1), (misses_cons a l1), <-app_assoc.
    by rewrite !N.add_assoc.
Qed.

(** From a store that starts empty with its counters at zero. *)
Lemma run_counts s ops s' l :
  store_wf s → resident s = [] → counters (store_Stats s) = (0, 0, 0, 0) → Forall op_ok ops →
  run s ops = Some (s', l) →
  ∃ gone, stored ops l ≡ₚ gone ++ resident s' ∧
    counters (store_Stats s') = (u64 (hits l), u64 (misses l), u64 (N.of_nat (length gone)), u64 (cost gone)).
Proof.
  intros Hwf Hres Hzero Hok Hrun. injection Hzero as E1 E2 E3 E4.
  destruct (run_balanced s ops s' l Hwf Hok Hrun) as (_ & Hr & gone & Hp & Hc).
  exists gone. rewrite Hres, app_nil_r in Hp. split; [done|].
  rewrite <-in_range_expected, Hc by (apply Hr; unfold in_range; rewrite E1, E2, E3, E4; done).
  unfold expected. rewrite E1, E2, E3, E4, app_nil_r. by rewrite !N.add_0_r.
Qed.
End counts.

(** ** The plain LRU store *)
Lemma lru_evict_loop_counts fuel sz s s' :
  LRU.lru_wf s → LRU.evict_loop fuel sz s = Some s' →
  ∃ gone, LRU.order s ≡ₚ gone ++ LRU.order s' ∧
    counters (LRU.lru_Stats s') = counters (foldr evicted (LRU.lru_Stats s) gone).
Proof.
  revert s. induction fuel as [|fuel IH]; intros s Hwf; cbn [LRU.evict_loop]; [done|].
  destruct (_ <? _); [|intros [= <-]; by exists []].
  destruct (LRU.ll s) as [|el l _] eqn:Hll using rev_ind.
  { unfold LRU.evictOldest. by rewrite Hll. }
  destruct (LRU.evictOldest_spec s l el Hwf Hll) as (s1 & Hev & Hwf1 & Hll1 & _).
  rewrite Hev. bind_step. intros Hrun. destruct (IH s1 Hwf1 Hrun) as (gone & Hp & Hc).
  exists (gone ++ [LRU.block (LRU.el_value el)]). rewrite foldr_app. split.
  - unfold LRU.order in *. rewrite Hll, fmap_app, <-Hll1, Hp, <-!app_assoc.
    apply Permutation_app_head, Permutation_app_comm.
  - rewrite Hc. apply counters_evicted. unfold LRU.evictOldest in Hev. rewrite Hll, last_snoc in Hev.
    by injection Hev as <-.
Qed.

#[global] Program Instance LRU_StoreCounts : BlockStore.StoreCounts LRU.LRU := { resident := LRU.order }.
Next Obligation. done. Qed.
Next Obligation.
  intros s b s' st Hwf Hb Hput. destruct (LRU.lru_Put_order s b Hwf Hb) as (s2 & st2 & Heq & _ & _ & _ & Ho).
  cbn in Hput. assert (s2 = s' ∧ st2 = st) as [-> ->] by (split; congruence). clear Heq.
  unfold LRU.lru_Put in Hput. destruct (LRU.items s !! ID b) as [p|].
  { injection Hput as <- <-. exists []. split; [|done]. simpl. rewrite Ho. by rewrite to_front_perm. }
  destruct (_ <? _); [injection Hput as <- <-; by exists []|].
  destruct (LRU.evict_loop _ _ s) as [s1|] eqn:Hev; [|done].
  destruct (lru_evict_loop_counts _ _ _ _ Hwf Hev) as (gone & Hp & Hc).
  injection Hput as <- <-. exists gone. split; [|done]. cbn. unfold LRU.order at 1 in Hp. unfold LRU.order in *.
  rewrite Hp. apply Permutation_middle.
Qed.
Next Obligation.
  intros s id s' r Hwf Hget. destruct (LRU.lru_Get_order s id Hwf) as (s2 & Heq & _ & _ & Ho).
  cbn in Hget. assert (s2 = s') as -> by congruence. split; [cbn; by rewrite Ho, to_front_perm|].
  unfold LRU.lru_Get in Hget. destruct (LRU.items s !! id); [|by injection Hget as <- <-].
  destruct (LRU.deref _ _); [|done]. by injection Hget as <- <-.
Qed.
Next Obligation.
  intros s id s' r Hwf Hget. cbn in Hget. destruct (LRU.lru_Contains_Get s id Hwf) as (s2 & r2 & Heq & Heq2).
  destruct (LRU.lru_Get_order s id Hwf) as (s3 & Heq3 & _ & _ & Ho).
  assert (s' = s3) as -> by congruence. split; [cbn; by rewrite Ho, to_front_perm|]. clear Heq Heq2 Heq3 Ho.
  unfold LRU.lru_Contains in Hget. by destruct (LRU.items s !! id); injection Hget as <- <-.
Qed.
Next Obligation.
  intros s id s' Hwf Ht. destruct (LRU.lru_Touch_order s id Hwf) as (s2 & Heq & _ & _ & Ho).
  cbn in Ht. assert (s2 = s') as -> by congruence. split; [cbn; by rewrite Ho, to_front_perm|].
  unfold LRU.lru_Touch in Ht. by destruct (LRU.items s !! id); injection Ht as <-.
Qed.

(** ** The paged store, under either policy *)
Section paged.
Context {R : Type} (Intn : R → nat → nat * R) (Exp2 : spec_float → spec_float).
Context (Intn_range : ∀ r n, (0 < n)%nat → ((Intn r n).1 < n)%nat).
#[local] Instance paged_store : Store (Paged.Paged R) := PagedProps.PagedStore Intn Exp2.
#[local] Instance paged_spec : StoreSpec (Paged.Paged R) := PagedProps.PagedStoreSpec Intn Exp2 Intn_range.

#[local] Program Instance Paged_StoreCounts : BlockStore.StoreCounts (Paged.Paged R) := {
  resident := PagedProps.recency
}.
Next Obligation. done. Qed.
Next Obligation.
  intros s b s' st Hwf Hb Hput.
  destruct (PagedProps.paged_Put_order Intn Exp2 Intn_range s b Hwf Hb) as (s2 & st2 & Heq & _ & _ & _ & _ & _ & Ho).
  cbn in Hput. assert (s2 = s' ∧ st2 = st) as [-> ->] by (split; congruence). destruct st.
  - destruct Ho as (kept & -> & _ & (gone & Hp & Hc) & _). exists gone. split; [|done].
    cbn [app]. rewrite Hp. apply Permutation_middle.
  - destruct Ho as [Ho Hst]. exists []. simpl. rewrite Ho, to_front_perm. split; [done|].
    unfold Paged.paged_Stats. by rewrite Hst.
Qed.
Next Obligation.
  intros s id s' r Hwf Hget.
  destruct (PagedProps.paged_Get_order Exp2 s id Hwf) as (s2 & Heq & _ & _ & _ & _ & Ho).
  cbn in Hget. assert (s2 = s') as -> by congruence. split; [cbn; by rewrite Ho, to_front_perm|].
  cbn. unfold Paged.paged_Stats. unfold Paged.paged_Get in Hget.
  destruct (Paged.items s !! id) as [p|]; [|by injection Hget as <- <-].
  destruct (Paged.touch _ _ _) as [s1|] eqn:Ht; [|done].
  destruct (PagedProps.touch_fields _ _ _ _ Ht) as [Hst _]. simpl in Hget.
  destruct (PagedList.heap _ !! p); [|done]. simpl in Hget. destruct (Paged.read_payload _ _); [|done].
  injection Hget as <- <-. by rewrite Hst.
Qed.
Next Obligation.
  intros s id s' r Hwf Hget.
  destruct (PagedProps.paged_Contains_order Exp2 s id Hwf) as (s2 & Heq & _ & _ & _ & Ho).
  cbn in Hget. assert (s2 = s') as -> by congruence. split; [cbn; by rewrite Ho, to_front_perm|].
  cbn. unfold Paged.paged_Stats. unfold Paged.paged_Contains in Hget.
  destruct (Paged.items s !! id) as [p|]; [|by injection Hget as <- <-].
  destruct (Paged.touch _ _ _) as [s1|] eqn:Ht; [|done].
  destruct (PagedProps.touch_fields _ _ _ _ Ht) as [Hst _].
  injection Hget as <- <-. by rewrite Hst.
Qed.
Next Obligation.
  intros s id s' Hwf Ht.
  destruct (PagedProps.paged_Touch_order Exp2 s id Hwf) as (s2 & Heq & _ & _ & _ & Ho).
  cbn in Ht. assert (s2 = s') as -> by congruence. split; [cbn; by rewrite Ho, to_front_perm|].
  cbn. unfold Paged.paged_Stats. unfold Paged.paged_Touch in Ht.
  destruct (Paged.items s !! id) as [p|]; [|by injection Ht as <-].
  by destruct (PagedProps.touch_fields _ _ _ _ Ht) as [-> _].
Qed.

(** The counters of a store that began empty, after [ops] with answers [l]: a hit or a
    miss per lookup, and every stored block either resident or counted as evicted. *)
Definition exact (ops : list op) (l : list answer) (res : list Block) (st : Stats) : Prop :=
  ∃ gone, stored ops l ≡ₚ gone ++ res ∧
    Hits st = u64 (hits l) ∧ Misses st = u64 (misses l) ∧
    Evictions st = u64 (N.of_nat (length gone)) ∧ EvictedCostUS st = u64 (cost gone).

Lemma exact_intro ops l gone res st :
  stored ops l ≡ₚ gone ++ res →
  counters st = (u64 (hits l), u64 (misses l), u64 (N.of_nat (length gone)), u64 (cost gone)) →
  exact ops l res st.
Proof. intros Hp [= H1 H2 H3 H4]. by exists gone. Qed.

(** C20. The statistics are exact, for the plain and for the paged store and whatever the
    policy and the sequence of calls: hits and misses are the lookups ([Get] and
    [Contains], not [Touch]) that found a block and that did not, and every block
    that was ever stored is either resident now or was counted by exactly one
    eviction, with its prefill cost. *)
Theorem store_counters_exact cap ps pl r0 ops :
  cap < 9223372036854775808 → (0 < ps < 4611686018427387904)%Z → (Z.of_N cap / ps ≤ 2147483648)%Z →
  Forall op_ok ops →
  (∃ s l, run (LRU.NewLRU cap) ops = Some (s, l) ∧ exact ops l (LRU.order s) (LRU.lru_Stats s)) ∧
  (∃ s0 s l, Paged.NewPaged cap ps pl r0 = Some s0 ∧ run s0 ops = Some (s, l) ∧
     exact ops l (PagedProps.recency s) (Paged.paged_Stats s)).
Proof.
  intros Hcap Hps Hn Hok. split.
  - assert (store_wf (LRU.NewLRU cap)) as Hwf by exact (LRU.NewLRU_wf cap Hcap).
    destruct (run_spec (LRU.NewLRU cap) ops Hwf Hok) as (s & l & Hrun & _). exists s, l. split; [done|].
    destruct (run_counts (LRU.NewLRU cap) ops s l Hwf) as (gone & Hp & Hc); [done..|by eapply exact_intro].
  - destruct (PagedProps.NewPaged_wf cap ps pl r0 Hcap Hps Hn) as (s0 & Hnew & Hwf' & Hr & _).
    assert (store_wf s0) as Hwf by exact Hwf'.
    destruct (run_spec s0 ops Hwf Hok) as (s & l & Hrun & _). exists s0, s, l. split; [done|]. split; [done|].
    destruct (run_counts s0 ops s l Hwf) as (gone & Hp & Hc); [exact Hr| |done|done|by eapply exact_intro].
    unfold Paged.NewPaged in Hnew. destruct (_ <=? _)%Z; [done|]. destruct (_ <? _)%Z; [done|].
    by injection Hnew as <-.
Qed.
End paged.

(** A paged store of three pages: one block is evicted, lookups hit and miss. *)
Lemma store_counters_exact_witness :
  ∃ s0 s l, Paged.NewPaged 7 2 Paged.EvictCost 0%nat = Some s0 ∧
    run (Store0 := PagedProps.PagedStore PagedProps.demo_Intn PagedProps.demo_Exp2) s0 PagedProps.demo_ops = Some (s, l) ∧
    exact PagedProps.demo_ops l (PagedProps.recency s) (Paged.paged_Stats s).
Proof.
  destruct (store_counters_exact PagedProps.demo_Intn PagedProps.demo_Exp2 PagedProps.demo_Intn_range 7 2
    Paged.EvictCost 0%nat PagedProps.demo_ops) as [_ Hpaged];
    [reflexivity|split; reflexivity|discriminate|exact PagedProps.demo_ops_ok|exact Hpaged].
Defined.
End StoreCounts.
