(* ===== verification/CacheNode.v ===== *)
(** * The cache node: src/internal/cachenode/{server,collector}.go

    The RPC handlers over any block store that keeps [StoreSpec].  A handler
    returns the new store state and a response or a status; the outer [option] is
    [None] for a panic of the store.  [RunTelemetry] is the loop body over the
    store's counters. *)

From S2P Require Import Prelude Proto BlockStore LRU Chain.

Module CacheNode.
Local Open Scope N_scope.

(** ** Conversions *)
Definition toID (b : bytes) : result status bytes :=
  if decide (length b = Chain.HashSize) then Ok b
  else Err (Status InvalidArgument
              ("block id must be " +:+ pretty (N.of_nat Chain.HashSize) +:+ " bytes, got " +:+
               pretty (N.of_nat (length b)))).

Definition toProto (b : BlockStore.Block) : pmv1.Block :=
  pmv1.MkBlock (BlockStore.ID b) (BlockStore.ParentID b) (BlockStore.ModelID b)
    (BlockStore.Payload b) (BlockStore.TokenCount b) (BlockStore.CostUS b).

Definition fromProto (p : option pmv1.Block) : result status BlockStore.Block :=
  match p with
  | None => Err (Status InvalidArgument "missing block")
  | Some p =>
      id ← toID (pmv1.BlockId p);
      parent ← toID (pmv1.ParentId p);
      Ok (BlockStore.MkBlock id parent (pmv1.ModelId p) (pmv1.Payload p) (pmv1.TokenCount p)
            (pmv1.CostUs p))
  end.

(** [epoch] is [None] when enforcement is off (the function is nil). *)
Definition checkEpoch (epoch : option N) (callerEpoch : N) : result status unit :=
  match epoch with
  | None => Ok tt
  | Some mine =>
      if callerEpoch =? 0 then Ok tt
      else if callerEpoch <? mine then
        Err (Status FailedPrecondition
               ("caller ring epoch " +:+ pretty callerEpoch +:+ " < node epoch " +:+ pretty mine))
      else Ok tt
  end.

Section handlers.
Context {S : Type} `{!BlockStore.Store S}.

Fixpoint contains_loop (ids : list bytes) (present : list bool) (s : S)
    : option (S * result status pmv1.ContainsResponse) :=
  match ids with
  | [] => Some (s, Ok (pmv1.MkContainsResponse present))
  | raw :: ids =>
      match toID raw with
      | Err e => Some (s, Err e)
      | Ok id =>
          '(s, p) ← BlockStore.Contains s id;
          contains_loop ids (present ++ [p]) s
      end
  end.
Definition Contains (epoch : option N) (req : pmv1.ContainsRequest) (s : S)
    : option (S * result status pmv1.ContainsResponse) :=
  match checkEpoch epoch (pmv1.creq_RingEpoch req) with
  | Err e => Some (s, Err e)
  | Ok _ => contains_loop (pmv1.creq_BlockIds req) [] s
  end.

(** [send_ok k]: whether the [k]-th [stream.Send] succeeds.  The result carries
    the blocks sent. *)
Fixpoint get_loop (send_ok : nat → bool) (ids : list bytes) (sent : list pmv1.Block) (s : S)
    : option (S * list pmv1.Block * result status unit) :=
  match ids with
  | [] => Some (s, sent, Ok tt)
  | raw :: ids =>
      match toID raw with
      | Err e => Some (s, sent, Err e)
      | Ok id =>
          '(s, r) ← BlockStore.Get s id;
          match r with
          | None => get_loop send_ok ids sent s
          | Some b =>
              if send_ok (length sent) then get_loop send_ok ids (sent ++ [toProto b]) s
              else Some (s, sent, Err (Status Unavailable "stream"))
          end
      end
  end.
Definition GetBlocks (epoch : option N) (send_ok : nat → bool) (req : pmv1.GetBlocksRequest) (s : S)
    : option (S * list pmv1.Block * result status unit) :=
  match checkEpoch epoch (pmv1.greq_RingEpoch req) with
  | Err e => Some (s, [], Err e)
  | Ok _ => get_loop send_ok (pmv1.greq_BlockIds req) [] s
  end.

(** The stream of requests, then EOF ([None]) or an error. *)
Fixpoint put_loop (epoch : option N) (reqs : list pmv1.CachePutRequest) (eof : option status)
    (stored existing : N) (s : S) : option (S * result status pmv1.CachePutResponse) :=
  match reqs with
  | [] =>
      match eof with
      | None => Some (s, Ok (pmv1.MkCachePutResponse stored existing))
      | Some e => Some (s, Err e)
      end
  | req :: reqs =>
      match checkEpoch epoch (pmv1.preq_RingEpoch req) with
      | Err e => Some (s, Err e)
      | Ok _ =>
          match fromProto (pmv1.preq_Block req) with
          | Err e => Some (s, Err e)
          | Ok b =>
              '(s, st) ← BlockStore.Put s b;
              if (st : bool) then put_loop epoch reqs eof (u32 (stored + 1)) existing s
              else put_loop epoch reqs eof stored (u32 (existing + 1)) s
          end
      end
  end.
Definition PutBlocks (epoch : option N) (reqs : list pmv1.CachePutRequest) (eof : option status) (s : S)
    : option (S * result status pmv1.CachePutResponse) :=
  put_loop epoch reqs eof 0 0 s.

Fixpoint touch_loop (ids : list bytes) (s : S) : option (S * result status unit) :=
  match ids with
  | [] => Some (s, Ok tt)
  | raw :: ids =>
      match toID raw with
      | Err e => Some (s, Err e)
      | Ok id => s ← BlockStore.Touch s id; touch_loop ids s
      end
  end.
Definition Touch (epoch : option N) (req : pmv1.TouchRequest) (s : S) : option (S * result status unit) :=
  match checkEpoch epoch (pmv1.treq_RingEpoch req) with
  | Err e => Some (s, Err e)
  | Ok _ => touch_loop (pmv1.treq_BlockIds req) s
  end.

(** ** RunTelemetry: one tick, from the previous counters *)
Definition telemetry_tick (nodeID : string) (now_ms : Z) (prev st : BlockStore.Stats) : pmv1.NodeTelemetry :=
  pmv1.MkNodeTelemetry nodeID (BlockStore.OccupancyBytes st) (BlockStore.CapacityBytes st)
    (sub64 (BlockStore.Hits st) (BlockStore.Hits prev))
    (sub64 (BlockStore.Misses st) (BlockStore.Misses prev))
    (sub64 (BlockStore.Evictions st) (BlockStore.Evictions prev))
    (sub64 (BlockStore.EvictedCostUS st) (BlockStore.EvictedCostUS prev)) now_ms.
Fixpoint telemetry_events (nodeID : string) (prev : BlockStore.Stats) (samples : list (Z * BlockStore.Stats))
    : list pmv1.NodeTelemetry :=
  match samples with
  | [] => []
  | (t, st) :: samples => telemetry_tick nodeID t prev st :: telemetry_events nodeID st samples
  end.

(** ** Lemmas *)
Lemma toID_Ok b : length b = Chain.HashSize → toID b = Ok b.
Proof. intros. unfold toID. by rewrite decide_True. Qed.

Lemma toID_inv b id : toID b = Ok id → id = b ∧ length b = Chain.HashSize.
Proof. unfold toID. destruct (decide _); [by intros [= <-]|done]. Qed.

Context `{!BlockStore.StoreSpec S}.
Abbreviation view := BlockStore.view.
Abbreviation store_wf := BlockStore.store_wf.

Definition has (s : S) (id : bytes) : bool := bool_decide (is_Some (view s !! id)).

Lemma contains_loop_spec ids present s :
  store_wf s → Forall (λ id, length id = Chain.HashSize) ids →
  ∃ s', contains_loop ids present s =
    Some (s', Ok (pmv1.MkContainsResponse (present ++ (has s <$> ids)))) ∧
    store_wf s' ∧ view s' = view s.
Proof.
  revert present s. induction ids as [|id ids IH]; intros present s Hwf Hids; cbn.
  { exists s. by rewrite app_nil_r. }
  inv Hids as [|? ? Hid Hids']. rewrite (toID_Ok id Hid).
  destruct (BlockStore.Contains_spec s id Hwf) as (s1 & -> & Hwf1 & Hv1). simpl.
  fold (has s id).
  destruct (IH (present ++ [has s id]) s1 Hwf1 Hids') as (s' & -> & Hwf' & Hv').
  exists s'. split_and!; [|done|congruence]. rewrite <-app_assoc. unfold has. by rewrite Hv1.
Qed.

(** The [Contains] handler of a well-formed node, for well-formed requests. *)
Lemma Contains_handler epoch req s :
  store_wf s → Forall (λ id, length id = Chain.HashSize) (pmv1.creq_BlockIds req) →
  ∃ s', Contains epoch req s = Some (s',
      match checkEpoch epoch (pmv1.creq_RingEpoch req) with
      | Err e => Err e
      | Ok _ => Ok (pmv1.MkContainsResponse (has s <$> pmv1.creq_BlockIds req))
      end) ∧ store_wf s' ∧ view s' = view s.
Proof.
  intros Hwf Hids. unfold Contains. destruct (checkEpoch _ _); [|by exists s].
  by destruct (contains_loop_spec (pmv1.creq_BlockIds req) [] s Hwf Hids) as (s' & -> & ?); exists s'.
Qed.

Lemma get_loop_spec ids sent s :
  store_wf s → Forall (λ id, length id = Chain.HashSize) ids →
  ∃ s', get_loop (λ _, true) ids sent s =
    Some (s', sent ++ (toProto <$> omap (λ id, view s !! id) ids), Ok tt) ∧
    store_wf s' ∧ view s' = view s.
Proof.
  revert sent s. induction ids as [|id ids IH]; intros sent s Hwf Hids; cbn.
  { exists s. by rewrite app_nil_r. }
  inv Hids as [|? ? Hid Hids']. rewrite (toID_Ok id Hid).
  destruct (BlockStore.Get_spec s id Hwf) as (s1 & -> & Hwf1 & Hv1). simpl.
  rewrite <-Hv1. destruct (view s1 !! id) as [b|].
  - destruct (IH (sent ++ [toProto b]) s1 Hwf1 Hids') as (s' & -> & Hwf' & Hv').
    exists s'. rewrite <-app_assoc. by rewrite Hv'.
  - destruct (IH sent s1 Hwf1 Hids') as (s' & -> & Hwf' & Hv'). exists s'. by rewrite Hv'.
Qed.

Lemma fromProto_toProto b :
  length (BlockStore.ID b) = Chain.HashSize → length (BlockStore.ParentID b) = Chain.HashSize →
  fromProto (Some (toProto b)) = Ok b.
Proof. intros H1 H2. unfold fromProto. cbn. rewrite !toID_Ok by done. by destruct b. Qed.

Lemma put_loop_spec epoch reqs bs stored existing s :
  store_wf s → Forall BlockStore.payload_ok bs →
  Forall2 (λ req b, checkEpoch epoch (pmv1.preq_RingEpoch req) = Ok tt ∧
                    fromProto (pmv1.preq_Block req) = Ok b) reqs bs →
  ∃ s' a e, put_loop epoch reqs None (u32 stored) (u32 existing) s =
      Some (s', Ok (pmv1.MkCachePutResponse (u32 (stored + a)) (u32 (existing + e)))) ∧
    store_wf s' ∧ a + e = N.of_nat (length reqs) ∧
    (∀ id b, view s' !! id = Some b → view s !! id = Some b ∨ b ∈ bs).
Proof.
  intros Hwf Hok Hreqs. revert stored existing s Hwf Hok.
  induction Hreqs as [|req b reqs bs [He Hf] Hreqs IH]; intros stored existing s Hwf Hok; cbn.
  { exists s, 0, 0. rewrite !N.add_0_r. split_and!; auto. }
  rewrite He, Hf. apply Forall_cons in Hok as [Hb Hok].
  destruct (BlockStore.Put_spec s b Hwf Hb) as (s1 & st & -> & Hwf1 & Ht & Hfl). simpl.
  assert (∀ id c, view s1 !! id = Some c → view s !! id = Some c ∨ c = b) as Hstep.
  { intros id c Hc. destruct st; [|rewrite Hfl in Hc by done; auto].
    destruct (Ht eq_refl) as (_ & _ & Hsub). eapply lookup_weaken in Hc; [|exact Hsub].
    apply lookup_insert_Some in Hc as [[_ ->]|[_ ?]]; auto. }
  assert (∀ x, u32 (u32 x + 1) = u32 (x + 1)) as Hu by (intros; word_lia).
  destruct st; rewrite Hu.
  - destruct (IH (stored + 1) existing s1 Hwf1 Hok) as (s' & a & e & -> & Hwf' & Hn & Hv).
    exists s', (a + 1), e. split_and!; [by replace (stored + (a + 1)) with (stored + 1 + a) by lia|done|lia|].
    intros id c Hc. destruct (Hv _ _ Hc) as [[?| ->]%Hstep|?]; set_solver.
  - destruct (IH stored (existing + 1) s1 Hwf1 Hok) as (s' & a & e & -> & Hwf' & Hn & Hv).
    exists s', a, (e + 1). split_and!; [by replace (existing + (e + 1)) with (existing + 1 + e) by lia|done|lia|].
    intros id c Hc. destruct (Hv _ _ Hc) as [[?| ->]%Hstep|?]; set_solver.
Qed.

(** ** Properties *)

(** C31. Reads are exact and change no contents: for well-formed IDs and an epoch
    the node accepts, [Contains] answers presence ID by ID, [GetBlocks] streams
    exactly the present blocks in request order, and the set of stored blocks is
    the same afterwards. *)
Theorem reads_are_exact epoch e ids s :
  store_wf s → Forall (λ id, length id = Chain.HashSize) ids → checkEpoch epoch e = Ok tt →
  (∃ s', Contains epoch (pmv1.MkContainsRequest e ids) s =
      Some (s', Ok (pmv1.MkContainsResponse (has s <$> ids))) ∧ store_wf s' ∧ view s' = view s) ∧
  (∃ s', GetBlocks epoch (λ _, true) (pmv1.MkGetBlocksRequest e ids) s =
      Some (s', toProto <$> omap (λ id, view s !! id) ids, Ok tt) ∧ store_wf s' ∧ view s' = view s).
Proof.
  intros Hwf Hids He. split.
  - destruct (Contains_handler epoch (pmv1.MkContainsRequest e ids) s Hwf Hids) as (s' & H1 & H2).
    exists s'. rewrite H1. cbn. by rewrite He.
  - unfold GetBlocks. cbn. rewrite He. apply (get_loop_spec ids [] s Hwf Hids).
Qed.

(** C32. The epoch fence: a caller whose ring is older than the node's is refused
    with FAILED_PRECONDITION by every RPC before the store is touched; a caller
    that is not older, or sends no epoch, passes the check. *)
Theorem epoch_fence mine caller ids block reqs eof send_ok s :
  (0 < caller < mine →
   ∃ msg, let e := Status FailedPrecondition msg in
     Contains (Some mine) (pmv1.MkContainsRequest caller ids) s = Some (s, Err e) ∧
     GetBlocks (Some mine) send_ok (pmv1.MkGetBlocksRequest caller ids) s = Some (s, [], Err e) ∧
     Touch (Some mine) (pmv1.MkTouchRequest caller ids) s = Some (s, Err e) ∧
     PutBlocks (Some mine) (pmv1.MkCachePutRequest caller block :: reqs) eof s = Some (s, Err e)) ∧
  (mine ≤ caller ∨ caller = 0 → checkEpoch (Some mine) caller = Ok tt).
Proof.
  split.
  - intros [H1 H2]. unfold Contains, GetBlocks, Touch, PutBlocks, checkEpoch. cbn.
    rewrite (proj2 (N.eqb_neq caller 0)) by lia. rewrite (proj2 (N.ltb_lt caller mine)) by lia. eauto.
  - intros Hor. unfold checkEpoch. destruct (N.eqb_spec caller 0); [done|].
    destruct (N.ltb_spec caller mine); [lia|done].
Qed.

(** A put stream of well-formed blocks is acknowledged with exact counters
    (every block counted once, as stored or existing), and afterwards the store
    holds nothing but earlier blocks and blocks of the stream. *)
Theorem put_stream_accounted epoch reqs bs s :
  store_wf s → Forall BlockStore.payload_ok bs → N.of_nat (length reqs) < two32 →
  Forall2 (λ req b, checkEpoch epoch (pmv1.preq_RingEpoch req) = Ok tt ∧
                    fromProto (pmv1.preq_Block req) = Ok b) reqs bs →
  ∃ s' stored existing,
    PutBlocks epoch reqs None s = Some (s', Ok (pmv1.MkCachePutResponse stored existing)) ∧
    stored + existing = N.of_nat (length reqs) ∧ store_wf s' ∧
    (∀ id b, view s' !! id = Some b → view s !! id = Some b ∨ b ∈ bs).
Proof.
  intros Hwf Hok Hlen Hreqs.
  destruct (put_loop_spec epoch reqs bs 0 0 s Hwf Hok Hreqs) as (s' & a & e & H1 & H2 & H3 & H4).
  exists s', a, e. rewrite !N.add_0_l, !u32_small in H1 by lia. by split_and!.
Qed.
End handlers.

(** Blocks survive the trip through protobuf: decoding an encoded block
    gives it back, and encoding a decoded message gives the message back. *)
Theorem block_proto_roundtrip b p b' :
  length (BlockStore.ID b) = Chain.HashSize → length (BlockStore.ParentID b) = Chain.HashSize →
  fromProto (Some p) = Ok b' →
  fromProto (Some (toProto b)) = Ok b ∧ toProto b' = p.
Proof.
  intros H1 H2 Hp. split; [by apply fromProto_toProto|].
  unfold fromProto in Hp. destruct (toID (pmv1.BlockId p)) as [i|] eqn:Hi; [|done].
  destruct (toID (pmv1.ParentId p)) as [q|] eqn:Hq; [|done]. cbn in Hp.
  injection Hp as <-. apply toID_inv in Hi as [-> _], Hq as [-> _]. by destruct p.
Qed.

(** The telemetry deltas account for every event: with the counters at their
    machine width, the deltas of all events up to a point add up to the counters
    at that point. *)
Theorem telemetry_deltas_sum nodeID prev samples t st :
  last samples = Some (t, st) →
  BlockStore.Hits prev < two64 → BlockStore.Hits st < two64 →
  Forall (λ x, BlockStore.Hits x.2 < two64) samples →
  u64 (BlockStore.Hits prev + foldr N.add 0 (pmv1.Hits <$> telemetry_events nodeID prev samples)) =
  BlockStore.Hits st.
Proof.
  revert prev. induction samples as [|[t' st'] samples IH]; intros prev Hlast Hp Hst Hall; [done|].
  apply Forall_cons in Hall as [Hst' Hall]. simpl in Hst'.
  change (u64 (BlockStore.Hits prev + (sub64 (BlockStore.Hits st') (BlockStore.Hits prev) +
    foldr N.add 0 (pmv1.Hits <$> telemetry_events nodeID st' samples))) = BlockStore.Hits st).
  pose proof (sub64_add64 (BlockStore.Hits st') (BlockStore.Hits prev) Hp) as Hs.
  rewrite (u64_small (BlockStore.Hits st')) in Hs by done.
  destruct samples as [|x samples].
  - injection Hlast as -> ->. cbn. by rewrite N.add_0_r.
  - rewrite last_cons_cons in Hlast. specialize (IH st' Hlast Hst' Hst Hall).
    revert IH. generalize (foldr N.add 0 (pmv1.Hits <$> telemetry_events nodeID st' (x :: samples))).
    intros rest <-. rewrite <-Hs. generalize (sub64 (BlockStore.Hits st') (BlockStore.Hits prev)).
    intros d. word_lia.
Qed.

(** [existing] also counts blocks that were refused: a block too large for
    the LRU store is acknowledged as existing and is not in the store. *)
Theorem uncacheable_counts_as_existing (s : LRU.LRU) epoch req b :
  LRU.lru_wf s → BlockStore.payload_ok b → fromProto (pmv1.preq_Block req) = Ok b →
  checkEpoch epoch (pmv1.preq_RingEpoch req) = Ok tt →
  BlockStore.view s !! BlockStore.ID b = None → LRU.cap s < LRU.blockSize b →
  ∃ s', PutBlocks epoch [req] None s = Some (s', Ok (pmv1.MkCachePutResponse 0 1)) ∧
    BlockStore.view s' !! BlockStore.ID b = None.
Proof.
  intros Hwf Hb Hf He Hno Hbig. unfold PutBlocks. cbn. rewrite He, Hf.
  destruct (LRU.lru_Put_order s b Hwf Hb) as (s' & st & -> & _ & _ & Hst & Ho). simpl.
  assert (st = false) as -> by (rewrite Hst; apply bool_decide_eq_false; intros []; lia).
  exists s'. split; [done|]. cbn in *. rewrite Ho. apply BlockStore.by_id_None.
  rewrite BlockStore.to_front_perm. by apply BlockStore.by_id_None.
Qed.

(** ** Witnesses: an LRU node *)
Definition demo_node : LRU.LRU := LRU.NewLRU 1000.
Definition demo_id (b : byte) : bytes := replicate 32 b.
Definition demo_block (b : byte) : BlockStore.Block :=
  BlockStore.MkBlock (demo_id b) (demo_id x00) "m" [b] 1 10.
Definition demo_put (e : N) (b : byte) : pmv1.CachePutRequest :=
  pmv1.MkCachePutRequest e (Some (toProto (demo_block b))).
Lemma demo_node_wf : LRU.lru_wf demo_node.
Proof. by apply LRU.NewLRU_wf. Qed.

(** The node after storing the blocks 1 and 3. *)
Definition demo_stored : LRU.LRU := LRU.demo_put (demo_block x03) (LRU.demo_put (demo_block x01) demo_node).
Lemma demo_stored_wf : LRU.lru_wf demo_stored.
Proof. apply LRU.demo_put_wf, LRU.demo_put_wf; [done|done|apply demo_node_wf]. Qed.

Lemma reads_are_exact_witness :
  (∃ s', Contains (Some 3) (pmv1.MkContainsRequest 4 [demo_id x01; demo_id x02; demo_id x03]) demo_stored =
      Some (s', Ok (pmv1.MkContainsResponse [true; false; true]))) ∧
  (∃ s', GetBlocks (Some 3) (λ _, true) (pmv1.MkGetBlocksRequest 4 [demo_id x01; demo_id x02; demo_id x03]) demo_stored =
      Some (s', [toProto (demo_block x01); toProto (demo_block x03)], Ok tt)).
Proof.
  destruct (reads_are_exact (S := LRU.LRU) (Some 3) 4 [demo_id x01; demo_id x02; demo_id x03] demo_stored)
    as [(s1 & H1 & _) (s2 & H2 & _)].
  - apply demo_stored_wf.
  - repeat (constructor; [reflexivity|]). constructor.
  - reflexivity.
  - split; [exists s1; rewrite H1|exists s2; rewrite H2]; vm_compute; reflexivity.
Defined.

Lemma epoch_fence_witness :
  ∃ msg, Contains (Some 5) (pmv1.MkContainsRequest 4 [demo_id x01]) demo_node =
    Some (demo_node, Err (Status FailedPrecondition msg)).
Proof.
  destruct (epoch_fence 5 4 [demo_id x01] None [] None (λ _, true) demo_node) as [[msg H] _]; [lia|].
  exists msg. apply H.
Defined.

Lemma put_stream_accounted_witness :
  ∃ s' stored existing,
    PutBlocks None [demo_put 0 x01; demo_put 0 x01] None demo_node =
      Some (s', Ok (pmv1.MkCachePutResponse stored existing)) ∧ stored + existing = 2.
Proof.
  destruct (put_stream_accounted (S := LRU.LRU) None [demo_put 0 x01; demo_put 0 x01]
    [demo_block x01; demo_block x01] demo_node) as (s' & st & ex & H1 & H2 & _).
  - apply demo_node_wf.
  - repeat (constructor; [reflexivity|]). constructor.
  - reflexivity.
  - repeat (constructor; [split; reflexivity|]). constructor.
  - exists s', st, ex. split; [exact H1|exact H2].
Defined.

Lemma block_proto_roundtrip_witness :
  fromProto (Some (toProto (demo_block x01))) = Ok (demo_block x01).
Proof.
  apply (block_proto_roundtrip (demo_block x01) (toProto (demo_block x02)) (demo_block x02));
    reflexivity.
Defined.

Definition demo_stats (h : N) : BlockStore.Stats := BlockStore.MkStats 0 0 h 0 0 0.

Lemma telemetry_deltas_sum_witness :
  u64 (0 + foldr N.add 0 (pmv1.Hits <$>
    telemetry_events "cn-1" (demo_stats 0) [(1%Z, demo_stats 5); (2%Z, demo_stats 9)])) = 9.
Proof.
  apply (telemetry_deltas_sum "cn-1" (demo_stats 0) [(1%Z, demo_stats 5); (2%Z, demo_stats 9)]
    2%Z (demo_stats 9)).
  - reflexivity.
  - reflexivity.
  - reflexivity.
  - repeat (constructor; [reflexivity|]). constructor.
Defined.

Lemma uncacheable_counts_as_existing_witness :
  ∃ s', PutBlocks None [demo_put 0 x01] None (LRU.NewLRU 100) =
    Some (s', Ok (pmv1.MkCachePutResponse 0 1)).
Proof.
  destruct (uncacheable_counts_as_existing (LRU.NewLRU 100) None (demo_put 0 x01) (demo_block x01))
    as (s' & H & _); try reflexivity.
  - by apply LRU.NewLRU_wf.
  - exists s'. exact H.
Defined.
End CacheNode.
