(* ===== verification/Gateway.v ===== *)
(** * The gateway: src/internal/gateway/server.go

    [Match] and [PutBlocks] over a cluster of cache nodes.  A cluster is one store
    per node, the epoch each node enforces and which nodes answer; an RPC runs the
    handler of [CacheNode] on the node's store.  The goroutines of one fan-out talk
    to different nodes; they are processed in an arbitrary order ([sched], any
    permutation).  GatewayMetrics.v adds the metrics and broken put streams. *)

From S2P Require Import Prelude Proto BlockStore LRU Chain HashRing CacheNode.

Module Gateway.
Local Open Scope N_scope.

Section gateway.
Context {S : Type} `{!BlockStore.Store S}.

Record cluster := MkCluster {
  stores : gmap string S;
  node_epoch : string → option N;
  up : string → bool
}.
Definition with_store (cl : cluster) (n : string) (s : S) : cluster :=
  MkCluster (<[n := s]> (stores cl)) (node_epoch cl) (up cl).

(** A unary call to [CacheNodeService.Contains]; an unreachable node, and one whose
    handler panics, is an error that is not FAILED_PRECONDITION.  A call that fails on the
    way does so before the handler runs, and a node that answers does so in all rounds
    of one [Match]. *)
Definition call_Contains (cl : cluster) (n : string) (req : pmv1.ContainsRequest)
    : cluster * result status pmv1.ContainsResponse :=
  if up cl n then
    match stores cl !! n with
    | None => (cl, Err (Status Unavailable "connection"))
    | Some s =>
        match CacheNode.Contains (node_epoch cl n) req s with
        | None => (cl, Err (Status Unavailable "connection"))
        | Some (s, r) => (with_store cl n s, r)
        end
    end
  else (cl, Err (Status Unavailable "connection")).

(** ** probeReplica *)
Record batch := MkBatch { b_indices : list nat; b_ids : list bytes }.

Definition chain_id (chainIDs : list bytes) (i : nat) : bytes := default [] (chainIDs !! i).

(** The routing loop for one index; [None] is the panic of a short block ID. *)
Definition route_one (ring : HashRing.Ring) (client : string → bool) (chainIDs : list bytes)
    (replica : nat) (acc : gmap string batch * list nat) (i : nat)
    : option (gmap string batch * list nat) :=
  let '(batches, unroutable) := acc in
  owners ← HashRing.Owners ring (chain_id chainIDs i) (Z.of_nat (replica + 1));
  Some (match owners !! replica with
        | None => (batches, unroutable)
        | Some nodeID =>
            match batches !! nodeID with
            | Some b =>
                (<[nodeID := MkBatch (b_indices b ++ [i]) (b_ids b ++ [chain_id chainIDs i])]> batches,
                 unroutable)
            | None =>
                if client nodeID then
                  (<[nodeID := MkBatch [i] [chain_id chainIDs i]]> batches, unroutable)
                else (batches, unroutable ++ [i])
            end
        end).
Fixpoint route (ring : HashRing.Ring) (client : string → bool) (chainIDs : list bytes)
    (replica : nat) (indices : list nat) (acc : gmap string batch * list nat)
    : option (gmap string batch * list nat) :=
  match indices with
  | [] => Some acc
  | i :: indices => acc ← route_one ring client chainIDs replica acc i;
                    route ring client chainIDs replica indices acc
  end.

(** What the goroutines of one fan-out share. *)
Record probe_state := MkProbe {
  p_cluster : cluster;
  p_present : list bool;
  p_holders : list string;
  p_retry : list nat;
  p_wrong : bool
}.

(** [for j, idx := range b.indices]. *)
Fixpoint collect_batch (nodeID : string) (indices : list nat) (answers : list bool)
    (st : probe_state) : probe_state :=
  match indices with
  | [] => st
  | idx :: indices =>
      let st :=
        if default false (head answers)
        then MkProbe (p_cluster st) (<[idx := true]> (p_present st))
               (<[idx := nodeID]> (p_holders st)) (p_retry st) (p_wrong st)
        else MkProbe (p_cluster st) (p_present st) (p_holders st) (p_retry st ++ [idx]) (p_wrong st) in
      collect_batch nodeID indices (tail answers) st
  end.

(** The goroutine of one batch. *)
Definition run_batch (ring : HashRing.Ring) (st : probe_state) (nb : string * batch) : probe_state :=
  let '(nodeID, b) := nb in
  let '(cl, r) := call_Contains (p_cluster st) nodeID
                    (pmv1.MkContainsRequest (HashRing.Epoch ring) (b_ids b)) in
  match r with
  | Err e =>
      MkProbe cl (p_present st) (p_holders st) (p_retry st ++ b_indices b)
        (p_wrong st || bool_decide (st_code e = FailedPrecondition))
  | Ok resp =>
      collect_batch nodeID (b_indices b) (pmv1.Present resp)
        (MkProbe cl (p_present st) (p_holders st) (p_retry st) (p_wrong st))
  end.

Section schedule.
Context (sched : list (string * batch) → list (string * batch)).

Definition probeReplica (ring : HashRing.Ring) (client : string → bool) (chainIDs : list bytes)
    (indices : list nat) (replica : nat) (cl : cluster) (present : list bool) (holders : list string)
    : option probe_state :=
  '(batches, unroutable) ← route ring client chainIDs replica indices (∅, []);
  Some (foldl (run_batch ring) (MkProbe cl present holders unroutable false)
          (sched (map_to_list batches))).

(** ** matchOnRing: rounds [replica], [replica + 1], ... < [rf] *)
Fixpoint probe_rounds (fuel : nat) (ring : HashRing.Ring) (client : string → bool)
    (chainIDs : list bytes) (replica : nat) (probe : list nat) (cl : cluster)
    (present : list bool) (holders : list string) (wrongEpoch : bool) : option probe_state :=
  match fuel with
  | O => Some (MkProbe cl present holders probe wrongEpoch)
  | Datatypes.S fuel =>
      match probe with
      | [] => Some (MkProbe cl present holders probe wrongEpoch)
      | _ =>
          st ← probeReplica ring client chainIDs probe replica cl present holders;
          probe_rounds fuel ring client chainIDs (replica + 1) (p_retry st) (p_cluster st)
            (p_present st) (p_holders st) (wrongEpoch || p_wrong st)
      end
  end.

(** [for depth < len(present) && present[depth]]. *)
Fixpoint leading (present : list bool) : nat :=
  match present with true :: present => Datatypes.S (leading present) | _ => 0 end.

Definition matchOnRing (rf : nat) (ring : HashRing.Ring) (client : string → bool)
    (req : pmv1.MatchRequest) (cl : cluster) : option (cluster * pmv1.MatchResponse * bool) :=
  let chainIDs := pmv1.mreq_Chain req in
  let n := length chainIDs in
  st ← probe_rounds rf ring client chainIDs 0 (seq 0 n) cl (replicate n false) (replicate n "") false;
  let depth := leading (p_present st) in
  let refs := (λ i, pmv1.MkBlockRef (chain_id chainIDs i)
                      (default "" (HashRing.Nodes ring !! default "" (p_holders st !! i)))) <$> seq 0 depth in
  Some (p_cluster st, pmv1.MkMatchResponse (u32 (N.of_nat depth)) refs (HashRing.Epoch ring), p_wrong st).

(** ** Match

    [src k] is what the [k]-th read of the ring source sees.  [New] clamps [rf] to at least one. *)
Record snapshot := MkSnapshot { s_ring : option HashRing.Ring; s_client : string → bool }.
Definition clamp_rf (rf : Z) : nat := Z.to_nat (if (rf <? 1)%Z then 1%Z else rf).
Definition empty_response : pmv1.MatchResponse := pmv1.MkMatchResponse 0 [] 0.

Definition match_attempt (rf : nat) (snap : snapshot) (req : pmv1.MatchRequest) (cl : cluster)
    : option (cluster * pmv1.MatchResponse * option (HashRing.Ring * bool)) :=
  match s_ring snap with
  | None => Some (cl, empty_response, None)
  | Some ring =>
      if (HashRing.Size ring =? 0)%nat || (length (pmv1.mreq_Chain req) =? 0)%nat
      then Some (cl, empty_response, None)
      else '(cl, resp, we) ← matchOnRing rf ring (s_client snap) req cl;
           Some (cl, resp, Some (ring, we))
  end.

(** [for attempt := 0; ; attempt++]: the response and whether an access event is due.
    The loop reads the ring source at its start and, after a refused first attempt,
    once more for the check; [k] counts these reads.  [None] is a panic, or a loop that
    is still running after [fuel] iterations. *)
Fixpoint match_loop (rf : nat) (src : nat → snapshot) (req : pmv1.MatchRequest)
    (fuel attempt k : nat) (cl : cluster) : option (cluster * (pmv1.MatchResponse * bool)) :=
  match fuel with
  | O => None
  | Datatypes.S fuel =>
      '(cl, resp, out) ← match_attempt rf (src k) req cl;
      match out with
      | None => Some (cl, (resp, false))
      | Some (ring, wrongEpoch) =>
          if wrongEpoch && (attempt =? 0)%nat &&
             match s_ring (src (k + 1)%nat) with
             | Some newer => HashRing.Epoch ring <? HashRing.Epoch newer
             | None => false
             end
          then match_loop rf src req fuel (attempt + 1) (k + 2) cl
          else Some (cl, (resp, true))
      end
  end.
(** Two iterations are enough ([GatewayProps.match_answers]: more change nothing, and the
    loop has returned). *)
Definition match_fuel : nat := 2.
Definition Match (rf : nat) (src : nat → snapshot) (req : pmv1.MatchRequest) (cl : cluster)
    : option (cluster * result status (pmv1.MatchResponse * bool)) :=
  match list_find (λ id, length id ≠ Chain.HashSize) (pmv1.mreq_Chain req) with
  | Some (_, id) =>
      Some (cl, Err (Status InvalidArgument ("block id must be 32 bytes, got " +:+
                       pretty (N.of_nat (length id)))))
  | None =>
      '(cl, r) ← match_loop rf src req match_fuel 0 0 cl;
      Some (cl, Ok r)
  end.
End schedule.

(** ** emitAccess: the event, before [proto.Marshal] *)
Definition emitAccess (enabled : bool) (now_ms : Z) (req : pmv1.MatchRequest) (resp : pmv1.MatchResponse)
    : option pmv1.AccessEvent :=
  match enabled, pmv1.mreq_Chain req with
  | true, (h :: _) as chainIDs =>
      let d := N.to_nat (pmv1.MatchedDepth resp) in
      Some (pmv1.MkAccessEvent h (pmv1.mreq_ModelId req) (u32 (N.of_nat (length chainIDs)))
              (pmv1.MatchedDepth resp)
              (if (0 <? d)%nat then chainIDs !! (d - 1)%nat else None)
              (chainIDs !! d) now_ms chainIDs)
  | _, _ => None
  end.

(** ** PutBlocks *)

(** The receive loop: every block with the ring read when it arrives. *)
Fixpoint put_route (rf : nat) (reqs : list (option pmv1.Block * option HashRing.Ring))
    (byOwner : gmap string (list pmv1.Block)) : option (result status (gmap string (list pmv1.Block))) :=
  match reqs with
  | [] => Some (Ok byOwner)
  | (None, _) :: _ => Some (Err (Status InvalidArgument "missing or malformed block"))
  | (Some b, ring) :: reqs =>
      if decide (length (pmv1.BlockId b) = Chain.HashSize) then
        match ring with
        | None => put_route rf reqs byOwner
        | Some ring =>
            if (HashRing.Size ring =? 0)%nat then put_route rf reqs byOwner
            else
              owners ← HashRing.Owners ring (pmv1.BlockId b) (Z.of_nat rf);
              put_route rf reqs
                (foldl (λ m n, <[n := default [] (m !! n) ++ [b]]> m) byOwner owners)
        end
      else Some (Err (Status InvalidArgument "missing or malformed block"))
  end.

(** The goroutine that forwards one owner's blocks. *)
Definition put_one (epoch : N) (client : string → bool) (acc : cluster * N * N)
    (nb : string * list pmv1.Block) : cluster * N * N :=
  let '(cl, stored, existing) := acc in let '(n, blocks) := nb in
  if client n && up cl n then
    match stores cl !! n with
    | None => acc
    | Some s =>
        match CacheNode.PutBlocks (node_epoch cl n)
                ((λ b, pmv1.MkCachePutRequest epoch (Some b)) <$> blocks) None s with
        | None => acc
        | Some (s, Err _) => (with_store cl n s, stored, existing)
        | Some (s, Ok resp) =>
            (with_store cl n s, u32 (stored + pmv1.presp_Stored resp),
             u32 (existing + pmv1.presp_Existing resp))
        end
    end
  else acc.

(** [final] is the ring source after the stream ended: its epoch goes into every
    forwarded request. *)
Definition PutBlocks (sched : list (string * list pmv1.Block) → list (string * list pmv1.Block))
    (rf : nat) (reqs : list (option pmv1.Block * option HashRing.Ring)) (final : snapshot) (cl : cluster)
    : option (cluster * result status pmv1.PutBlocksResponse) :=
  byOwner ← put_route rf reqs ∅;
  match byOwner with
  | Err e => Some (cl, Err e)
  | Ok byOwner =>
      let epoch := match s_ring final with Some r => HashRing.Epoch r | None => 0 end in
      let '(cl, stored, existing) :=
        foldl (put_one epoch (s_client final)) (cl, 0, 0) (sched (map_to_list byOwner)) in
      Some (cl, Ok (pmv1.MkPutBlocksResponse stored existing))
  end.
End gateway.
End Gateway.
