(* ===== verification/GatewayProps.v ===== *)
(** * Properties of the gateway: exactness of [Match], failover and rebalancing *)

From S2P Require Import Prelude Proto BlockStore LRU Chain HashRing CacheNode Gateway.

Module GatewayProps.
Import Gateway.
Local Open Scope N_scope.

Section match_exact.
Context {S : Type} `{!BlockStore.Store S} `{!BlockStore.StoreSpec S}.
Implicit Types (cl : @cluster S) (st : @probe_state S).

(** ** The cluster as its clients see it *)
Definition cluster_wf cl : Prop := ∀ n s, stores cl !! n = Some s → BlockStore.store_wf s.
Definition contents cl (n : string) : option (gmap bytes BlockStore.Block) :=
  BlockStore.view <$> stores cl !! n.

(** Same contents, reachability and epochs: what reads leave unchanged. *)
Record same cl cl' : Prop := {
  same_contents : ∀ n, contents cl' n = contents cl n;
  same_epoch : node_epoch cl' = node_epoch cl;
  same_up : up cl' = up cl;
  same_wf : cluster_wf cl'
}.

(** Node [n] would answer "have it" to a probe for [id] sent with this ring. *)
Definition serves cl (ring : HashRing.Ring) (n : string) (id : bytes) : bool :=
  up cl n && match contents cl n with
             | None => false
             | Some v => is_ok (CacheNode.checkEpoch (node_epoch cl n) (HashRing.Epoch ring)) &&
                         bool_decide (is_Some (v !! id))
             end.

(** Node [n] refuses the epoch of this ring. *)
Definition refuses cl (ring : HashRing.Ring) (n : string) : Prop :=
  up cl n = true ∧ is_Some (contents cl n) ∧
  CacheNode.checkEpoch (node_epoch cl n) (HashRing.Epoch ring) ≠ Ok tt.

Lemma same_refl cl : cluster_wf cl → same cl cl.
Proof. by split. Qed.

Lemma serves_same cl cl' ring n id : same cl cl' → serves cl' ring n id = serves cl ring n id.
Proof. intros [H1 H2 H3 _]. unfold serves. by rewrite H1, H2, H3. Qed.

Lemma checkEpoch_code epoch caller e :
  CacheNode.checkEpoch epoch caller = Err e → st_code e = FailedPrecondition.
Proof. unfold CacheNode.checkEpoch. repeat case_match; by intros [= <-]. Qed.

Lemma call_Contains_spec cl0 cl ring n ids :
  same cl0 cl → Forall (λ id, length id = Chain.HashSize) ids →
  let '(cl', r) := call_Contains cl n (pmv1.MkContainsRequest (HashRing.Epoch ring) ids) in
  same cl0 cl' ∧
  match r with
  | Ok resp => pmv1.Present resp = serves cl0 ring n <$> ids ∧ ¬ refuses cl0 ring n
  | Err e => (∀ id, serves cl0 ring n id = false) ∧ (st_code e = FailedPrecondition ↔ refuses cl0 ring n)
  end.
Proof.
  intros Hs Hids. unfold call_Contains. pose proof Hs as [H1 H2 H3 H4].
  assert (∀ id, serves cl0 ring n id = serves cl ring n id) as Hsv
    by (intros; symmetry; by apply serves_same).
  assert (refuses cl0 ring n ↔ refuses cl ring n) as Hrf by (unfold refuses; by rewrite H1, H2, H3).
  destruct (up cl n) eqn:Hup.
  2: { split_and!; [done|intros id; rewrite Hsv; unfold serves; by rewrite Hup|split; [done|]].
       rewrite Hrf. unfold refuses. rewrite Hup. by intros []. }
  destruct (stores cl !! n) as [s|] eqn:Hst.
  2: { split_and!; [done|intros id; rewrite Hsv; unfold serves, contents; by rewrite Hup, Hst|split; [done|]].
       rewrite Hrf. unfold refuses, contents. rewrite Hst. by intros (_ & [? ?] & _). }
  destruct (CacheNode.Contains_handler (node_epoch cl n)
    (pmv1.MkContainsRequest (HashRing.Epoch ring) ids) s (H4 n s Hst) Hids) as (s' & -> & Hwf' & Hv').
  assert (same cl0 (with_store cl n s')) as Hs'.
  { split; [|done|done|].
    - intros m. rewrite <-H1. unfold contents, with_store. simpl.
      destruct (decide (m = n)) as [->|]; [|by rewrite lookup_insert_ne].
      rewrite lookup_insert_eq, Hst. simpl. by rewrite Hv'.
    - intros m s0. unfold with_store. simpl.
      intros [[_ <-]|[_ ?]]%lookup_insert_Some; [done|by eapply H4]. }
  simpl. destruct (CacheNode.checkEpoch (node_epoch cl n) (HashRing.Epoch ring)) as [[]|e] eqn:He;
    (split; [done|]); simpl; rewrite Hrf; unfold refuses, contents; rewrite Hup, Hst, He.
  - split; [|by intros (_ & _ & ?)]. apply list_fmap_ext. intros _ id _. rewrite Hsv. unfold serves, contents.
    by rewrite Hup, Hst, He.
  - split; [intros id; rewrite Hsv; unfold serves, contents; by rewrite Hup, Hst, He|].
    rewrite (checkEpoch_code _ _ _ He). split; [|done]. intros _. split_and!; [done|by eexists|done].
Qed.

(** ** Tracking what a fan-out has found

    [found i] is the node recorded as holding block [i]. *)
Definition tracks st (found : nat → option string) (n : nat) : Prop :=
  length (p_present st) = n ∧ length (p_holders st) = n ∧
  ∀ i, (i < n)%nat →
    p_present st !! i = Some (bool_decide (is_Some (found i))) ∧
    ∀ h, found i = Some h → p_holders st !! i = Some h.

Definition upd_found (found : nat → option string) (node : string) (f : nat → bool) (l : list nat)
    : nat → option string :=
  λ i, if bool_decide (i ∈ l) && f i then Some node else found i.

Lemma tracks_ext st found found' n :
  (∀ i, (i < n)%nat → found i = found' i) → tracks st found n → tracks st found' n.
Proof. intros Heq (H1 & H2 & H3). split_and!; [done|done|]. intros i Hi. rewrite <-Heq by done. by apply H3. Qed.

Lemma collect_batch_spec node f l st found n :
  tracks st found n → (∀ i, i ∈ l → (i < n)%nat) →
  let st' := collect_batch node l (f <$> l) st in
  tracks st' (upd_found found node f l) n ∧
  p_retry st' = p_retry st ++ filter (λ i, f i = false) l ∧
  p_cluster st' = p_cluster st ∧ p_wrong st' = p_wrong st.
Proof.
  revert st found. induction l as [|i l IH]; intros st found Ht Hl; simpl.
  { rewrite app_nil_r. split_and!; [|done..]. by apply (tracks_ext _ found). }
  assert (i < n)%nat as Hi by (apply Hl; by left). destruct Ht as (L1 & L2 & Ht).
  rewrite filter_cons. destruct (f i) eqn:Hf; simpl.
  - destruct (IH (MkProbe (p_cluster st) (<[i := true]> (p_present st)) (<[i := node]> (p_holders st))
      (p_retry st) (p_wrong st)) (λ j, if decide (j = i) then Some node else found j)) as (I1 & I2 & I3 & I4).
    + split_and!; simpl; [len_lia|len_lia|].
      intros j Hj. destruct (decide (j = i)) as [->|Hne].
      * rewrite !list_lookup_insert_eq by lia. split; [done|]. by intros h [= <-].
      * rewrite !list_lookup_insert_ne by done. by apply Ht.
    + intros j ?. apply Hl. by right.
    + split_and!; [|done|done|done]. eapply tracks_ext; [|exact I1]. intros j Hj. unfold upd_found.
      destruct (bool_decide (j ∈ l) && f j) eqn:Hb.
      * apply andb_true_iff in Hb as [Hb ->]. apply bool_decide_eq_true in Hb.
        by rewrite bool_decide_eq_true_2 by set_solver.
      * destruct (decide (j = i)) as [->|Hne].
        { rewrite Hf. by rewrite bool_decide_eq_true_2 by set_solver. }
        rewrite (bool_decide_ext (j ∈ i :: l) (j ∈ l)) by set_solver. by rewrite Hb.
  - destruct (IH (MkProbe (p_cluster st) (p_present st) (p_holders st) (p_retry st ++ [i]) (p_wrong st)) found)
      as (I1 & I2 & I3 & I4); [done|intros j ?; apply Hl; by right|].
    split_and!; [|etrans; [exact I2|]; simpl; by rewrite <-app_assoc|done|done].
    eapply tracks_ext; [|exact I1]. intros j Hj. unfold upd_found. destruct (decide (j = i)) as [->|].
    { by rewrite Hf, !andb_false_r. }
    by rewrite (bool_decide_ext (j ∈ i :: l) (j ∈ l)) by set_solver.
Qed.

(** One goroutine: its node's answers for its blocks, or nothing when it fails. *)
Lemma run_batch_spec cl0 ring ids st found n node l :
  same cl0 (p_cluster st) → tracks st found n → (∀ i, i ∈ l → (i < n)%nat) →
  Forall (λ id, length id = Chain.HashSize) (chain_id ids <$> l) →
  let f i := serves cl0 ring node (chain_id ids i) in
  let st' := run_batch ring st (node, MkBatch l (chain_id ids <$> l)) in
  tracks st' (upd_found found node f l) n ∧ same cl0 (p_cluster st') ∧
  p_retry st' = p_retry st ++ filter (λ i, f i = false) l ∧
  (p_wrong st' = true ↔ p_wrong st = true ∨ refuses cl0 ring node).
Proof.
  intros Hs Ht Hl Hids f. unfold run_batch. simpl.
  pose proof (call_Contains_spec cl0 (p_cluster st) ring node _ Hs Hids) as Hc.
  destruct (call_Contains _ _ _) as [cl' [resp|e]]; destruct Hc as (Hs' & Hr & Hw).
  - rewrite Hr. replace (serves cl0 ring node <$> (chain_id ids <$> l)) with (f <$> l)
      by (by rewrite <-list_fmap_compose).
    destruct (collect_batch_spec node f l (MkProbe cl' (p_present st) (p_holders st) (p_retry st) (p_wrong st))
      found n Ht Hl) as (C1 & C2 & C3 & C4).
    split_and!; [exact C1|by rewrite C3|exact C2|]. rewrite C4. simpl. naive_solver.
  - split_and!; simpl; [|done| |by rewrite orb_true_iff, bool_decide_eq_true, Hw].
    + apply (tracks_ext _ found); [|exact Ht]. intros i _. unfold upd_found, f.
      by rewrite Hr, andb_false_r.
    + f_equal. symmetry. apply filter_all, Forall_forall. intros i _. apply Hr.
Qed.

(** All goroutines of one fan-out, in any order: [owner i] is the node asked. *)
Lemma run_batches_spec cl0 ring ids n (owner : nat → option string) bs st found :
  same cl0 (p_cluster st) → tracks st found n →
  (∀ node b, (node, b) ∈ bs → b_ids b = chain_id ids <$> b_indices b ∧
     Forall (λ id, length id = Chain.HashSize) (b_ids b) ∧
     ∀ i, i ∈ b_indices b → (i < n)%nat ∧ owner i = Some node) →
  let hit i := node ← owner i; if serves cl0 ring node (chain_id ids i) then Some node else None in
  let asked i := Exists (λ nb : string * batch, i ∈ b_indices nb.2) bs in
  let st' := foldl (run_batch ring) st bs in
  ∃ found', tracks st' found' n ∧ same cl0 (p_cluster st') ∧
    (∀ i, asked i → found' i = match hit i with Some h => Some h | None => found i end) ∧
    (∀ i, ¬ asked i → found' i = found i) ∧
    (∀ i, i ∈ p_retry st' ↔ i ∈ p_retry st ∨ (asked i ∧ hit i = None)) ∧
    (p_wrong st' = true ↔ p_wrong st = true ∨ Exists (λ nb : string * batch, refuses cl0 ring nb.1) bs).
Proof.
  intros Hs Ht Hbs hit asked. subst asked.
  revert st found Hs Ht Hbs. induction bs as [|[node b] bs IH]; intros st found Hs Ht Hbs; simpl.
  { exists found. split_and!; [done|done|by intros i ?%Exists_nil|done| |rewrite Exists_nil; naive_solver].
    intros i. rewrite Exists_nil. naive_solver. }
  destruct (Hbs node b) as (Hb & Hlen & Hown); [by left|].
  assert (b = MkBatch (b_indices b) (chain_id ids <$> b_indices b)) as Heqb by (destruct b; simpl in *; by f_equal).
  destruct (run_batch_spec cl0 ring ids st found n node (b_indices b) Hs Ht) as (R1 & R2 & R3 & R4);
    [intros i Hi; by apply Hown|by rewrite <-Hb|]. rewrite <-Heqb in R1, R2, R3, R4.
  destruct (IH _ _ R2 R1) as (found' & F1 & F2 & F3 & F4 & F5 & F6); [intros; apply Hbs; by right|].
  assert (∀ i, i ∈ b_indices b → hit i = if serves cl0 ring node (chain_id ids i) then Some node else None) as Hhit.
  { intros i Hi. unfold hit. destruct (Hown i Hi) as [_ ->]. done. }
  assert (∀ i, upd_found found node (λ i, serves cl0 ring node (chain_id ids i)) (b_indices b) i =
    if bool_decide (i ∈ b_indices b) then match hit i with Some h => Some h | None => found i end else found i) as Hupd.
  { intros i. unfold upd_found. destruct (bool_decide (i ∈ b_indices b)) eqn:Hi; simpl; [|done].
    apply bool_decide_eq_true in Hi. rewrite Hhit by done. by destruct (serves _ _ _ _). }
  exists found'. split_and!; [done|done| | | |by rewrite F6, R4, Exists_cons; tauto].
  - intros i [Hi|Ha]%Exists_cons; simpl in *.
    + destruct (decide (Exists (λ nb : string * batch, i ∈ b_indices nb.2) bs)) as [Ha|Hna].
      * rewrite F3, Hupd by done. rewrite bool_decide_eq_true_2 by done. by destruct (hit i).
      * rewrite F4, Hupd by done. by rewrite bool_decide_eq_true_2 by done.
    + rewrite F3, Hupd by done. by destruct (hit i), (bool_decide (i ∈ b_indices b)).
  - intros i Hna. rewrite Exists_cons in Hna. simpl in Hna.
    rewrite F4, Hupd by naive_solver. by rewrite bool_decide_eq_false_2 by naive_solver.
  - intros i. rewrite F5, R3, elem_of_app, list_elem_of_filter, Exists_cons. simpl.
    destruct (decide (i ∈ b_indices b)) as [Hi|Hi]; [|naive_solver].
    specialize (Hhit i Hi). destruct (serves _ _ _ _); naive_solver.
Qed.

(** ** Routing *)
Definition key (id : bytes) : N := be_value (take 8 id).
(** The [r]-th owner of a block on a ring. *)
Definition owner_of (ring : HashRing.Ring) (r : nat) (id : bytes) : option string :=
  HashRing.walk ring (key id) !! r.

Lemma Owners_owner_of ring r id :
  HashRing.ring_wf ring → length id = Chain.HashSize →
  ∃ owners, HashRing.Owners ring id (Z.of_nat (r + 1)) = Some owners ∧ owners !! r = owner_of ring r id.
Proof.
  intros Hwf Hid. rewrite (HashRing.Owners_walk _ _ _ (key id) Hwf).
  - eexists. split; [done|]. rewrite lookup_take_lt by lia. done.
  - apply HashRing.Uint64_Some. rewrite Hid. unfold Chain.HashSize. lia.
Qed.

Section route.
Context (ring : HashRing.Ring) (client : string → bool) (ids : list bytes) (r : nat).
Context (Hring : HashRing.ring_wf ring).

Definition routed (node : string) (l : list nat) : list nat :=
  filter (λ i, owner_of ring r (chain_id ids i) = Some node) l.

Definition route_ok (l : list nat) (acc : gmap string batch * list nat) : Prop :=
  (∀ node, acc.1 !! node =
     if client node && bool_decide (routed node l ≠ [])
     then Some (MkBatch (routed node l) (chain_id ids <$> routed node l)) else None) ∧
  (∀ i, i ∈ acc.2 ↔ i ∈ l ∧ ∃ node, owner_of ring r (chain_id ids i) = Some node ∧ client node = false).

Lemma route_one_spec l acc i :
  route_ok l acc → length (chain_id ids i) = Chain.HashSize →
  ∃ acc', route_one ring client ids r acc i = Some acc' ∧ route_ok (l ++ [i]) acc'.
Proof.
  destruct acc as [batches un]. intros [Hb Hu] Hlen. unfold route_one. cbn [fst snd] in *.
  destruct (Owners_owner_of ring r (chain_id ids i) Hring Hlen) as (owners & -> & Hown).
  bind_step. rewrite Hown. eexists. split; [done|].
  assert (∀ node, routed node (l ++ [i]) =
    routed node l ++ if decide (owner_of ring r (chain_id ids i) = Some node) then [i] else []) as Hr.
  { intros node. unfold routed. rewrite filter_app. f_equal. }
  destruct (owner_of ring r (chain_id ids i)) as [o|] eqn:Ho.
  2: { split; cbn.
       - intros node. rewrite Hr. rewrite decide_False, app_nil_r by done. apply Hb.
       - intros j. rewrite Hu. split; [set_solver|].
         intros [[?|[->|[]%elem_of_nil]%elem_of_cons]%elem_of_app (m & Hm & Hc)]; [eauto|congruence]. }
  assert (∀ node, node ≠ o → routed node (l ++ [i]) = routed node l) as Hne.
  { intros node Hn. rewrite Hr, decide_False by congruence. apply app_nil_r. }
  assert (routed o (l ++ [i]) = routed o l ++ [i]) as Heq by (by rewrite Hr, decide_True).
  assert (client o = true → ∀ b, batches !! o = b →
    route_ok (l ++ [i]) (<[o := MkBatch (routed o l ++ [i]) (chain_id ids <$> (routed o l ++ [i]))]> batches, un)) as Hins.
  { intros Hc _ _. split; cbn.
    - intros node. destruct (decide (node = o)) as [->|Hn].
      + rewrite lookup_insert_eq, Heq, Hc. simpl. rewrite bool_decide_eq_true_2; [done|].
        by destruct (routed o l).
      + rewrite lookup_insert_ne, Hne by done. apply Hb.
    - intros j. rewrite Hu. split; [set_solver|].
      intros [[?|[->|[]%elem_of_nil]%elem_of_cons]%elem_of_app (m & Hm & Hcm)]; [eauto|congruence]. }
  destruct (batches !! o) as [b|] eqn:Hbo.
  - pose proof (Hb o) as Hbo'. rewrite Hbo in Hbo'. destruct (client o) eqn:Hc; [|done]. simpl in Hbo'.
    destruct (bool_decide _); [|done]. injection Hbo' as ->. cbn [b_indices b_ids].
    change [chain_id ids i] with (chain_id ids <$> [i]). rewrite <-fmap_app. by eapply Hins.
  - destruct (client o) eqn:Hc.
    + pose proof (Hb o) as Hbo'. rewrite Hbo, Hc in Hbo'. simpl in Hbo'.
      destruct (bool_decide (routed o l ≠ [])) eqn:Hd; [done|].
      apply bool_decide_eq_false in Hd. destruct (routed o l) eqn:Hrl; [|naive_solver].
      by eapply (Hins eq_refl).
    + split; cbn.
      * intros node. destruct (decide (node = o)) as [->|Hn]; [by rewrite Hbo, Hc|].
        rewrite Hne by done. apply Hb.
      * intros j. rewrite elem_of_app, Hu. split.
        -- intros [[? ?]|[->|[]%elem_of_nil]%elem_of_cons]; [set_solver|]. split; [set_solver|eauto].
        -- intros [[?|Hj]%elem_of_app ?]; auto.
Qed.

Lemma route_spec indices :
  Forall (λ i, length (chain_id ids i) = Chain.HashSize) indices →
  ∃ acc, route ring client ids r indices (∅, []) = Some acc ∧ route_ok indices acc.
Proof.
  intros Hall.
  assert (∀ l acc, route_ok l acc → ∃ acc', route ring client ids r indices acc = Some acc' ∧ route_ok (l ++ indices) acc') as Hgen.
  { induction Hall as [|i indices Hi Hall IH]; intros l acc Hok; simpl.
    { exists acc. by rewrite app_nil_r. }
    destruct (route_one_spec l acc i Hok Hi) as (acc1 & -> & Hok1). simpl.
    destruct (IH _ _ Hok1) as (acc' & -> & Hok'). exists acc'. by rewrite <-app_assoc in Hok'. }
  apply (Hgen []). split; cbn; [|set_solver]. intros node. rewrite lookup_empty.
  by rewrite andb_false_r.
Qed.
End route.

(** ** Rounds *)
Section rounds.
Context (sched : list (string * batch) → list (string * batch)) (Hsched : ∀ l, sched l ≡ₚ l).
Context (ring : HashRing.Ring) (client : string → bool) (ids : list bytes) (cl0 : @cluster S).
Context (Hring : HashRing.ring_wf ring).
Context (Hids : Forall (λ id, length id = Chain.HashSize) ids).

(** The [r]-th owner, when it can be asked and has the block. *)
Definition hit_at (r : nat) (id : bytes) : option string :=
  node ← owner_of ring r id; if client node && serves cl0 ring node id then Some node else None.
(** The first of [k] owners, from the [r]-th on, that has the block. *)
Fixpoint first_hit (r k : nat) (id : bytes) : option string :=
  match k with
  | O => None
  | Datatypes.S k => match hit_at r id with Some n => Some n | None => first_hit (r + 1) k id end
  end.
(** The [r]-th owner, when it can be asked and refuses. *)
Definition refused_by (r : nat) (id : bytes) (node : string) : Prop :=
  owner_of ring r id = Some node ∧ client node = true ∧ refuses cl0 ring node.
Abbreviation n := (length ids).

Lemma chain_id_ok i : (i < n)%nat → length (chain_id ids i) = Chain.HashSize.
Proof.
  intros [id Hid]%lookup_lt_is_Some. unfold chain_id. rewrite Hid. simpl.
  by eapply Forall_lookup_1 in Hids.
Qed.

Lemma owner_of_ge r id : owner_of ring r id = None → ∀ r', (r ≤ r')%nat → owner_of ring r' id = None.
Proof. unfold owner_of. rewrite lookup_ge_None. intros Hr r' Hle. apply lookup_ge_None. lia. Qed.
Lemma hit_at_owner r id : owner_of ring r id = None → hit_at r id = None.
Proof. unfold hit_at. by intros ->. Qed.

Lemma first_hit_None r k id : (∀ r', (r ≤ r')%nat → hit_at r' id = None) → first_hit r k id = None.
Proof.
  revert r. induction k as [|k IH]; intros r Hno; simpl; [done|]. rewrite Hno by lia.
  apply IH. intros. apply Hno. lia.
Qed.

Lemma probeReplica_spec r indices cl present holders found wrong :
  same cl0 cl → tracks (MkProbe cl present holders indices wrong) found n →
  (∀ i, i ∈ indices → (i < n)%nat) →
  ∃ st found', probeReplica sched ring client ids indices r cl present holders = Some st ∧
    tracks st found' n ∧ same cl0 (p_cluster st) ∧
    (∀ i, i ∈ indices → found' i = match hit_at r (chain_id ids i) with Some h => Some h | None => found i end) ∧
    (∀ i, i ∉ indices → found' i = found i) ∧
    (∀ i, i ∈ p_retry st ↔ i ∈ indices ∧ is_Some (owner_of ring r (chain_id ids i)) ∧
       hit_at r (chain_id ids i) = None) ∧
    (p_wrong st = true ↔ ∃ i node, i ∈ indices ∧ refused_by r (chain_id ids i) node).
Proof.
  intros Hs Ht Hi. unfold probeReplica.
  destruct (route_spec ring client ids r Hring indices) as ([batches un] & -> & [Hb Hu]).
  { apply Forall_forall. intros i ?. by apply chain_id_ok, Hi. }
  cbn [mbind option_bind fst snd] in *.
  set (owner := λ i, owner_of ring r (chain_id ids i)).
  assert (∀ node b, (node, b) ∈ sched (map_to_list batches) → client node = true ∧
    b_indices b = routed ring ids r node indices ∧ b_ids b = chain_id ids <$> b_indices b) as Hbs.
  { intros node b Hin. rewrite Hsched in Hin. apply elem_of_map_to_list in Hin. rewrite Hb in Hin.
    destruct (client node), (bool_decide _); simpl in Hin; try done. injection Hin as <-. done. }
  destruct (run_batches_spec cl0 ring ids n owner (sched (map_to_list batches))
    (MkProbe cl present holders un false) found Hs Ht) as (found' & F1 & F2 & F3 & F4 & F5 & F6).
  { intros node b Hin. destruct (Hbs node b Hin) as (_ & E1 & E2). split_and!; [done| |].
    - rewrite E2, E1. apply Forall_fmap, Forall_forall. intros i [_ ?]%list_elem_of_filter.
      by apply chain_id_ok, Hi.
    - intros i. rewrite E1. intros [? ?]%list_elem_of_filter. auto. }
  assert (∀ i, Exists (λ nb : string * batch, i ∈ b_indices nb.2) (sched (map_to_list batches)) ↔
    i ∈ indices ∧ ∃ node, owner i = Some node ∧ client node = true) as Hasked.
  { intros i. rewrite Exists_exists. split.
    - intros ([node b] & Hin & Hib). destruct (Hbs node b Hin) as (Hc & E1 & _). simpl in Hib.
      rewrite E1 in Hib. apply list_elem_of_filter in Hib as [? ?]. eauto.
    - intros [Hin (node & Ho & Hc)].
      assert (i ∈ routed ring ids r node indices) as Hri by (by apply list_elem_of_filter).
      exists (node, MkBatch (routed ring ids r node indices) (chain_id ids <$> routed ring ids r node indices)).
      split; [|done]. rewrite Hsched. apply elem_of_map_to_list. rewrite Hb, Hc. simpl.
      rewrite bool_decide_eq_true_2; [done|]. intros Hnil. rewrite Hnil in Hri. by apply elem_of_nil in Hri. }
  exists (foldl (run_batch ring) (MkProbe cl present holders un false) (sched (map_to_list batches))), found'.
  split_and!; [done|done|done| | | |].
  4: { rewrite F6. cbn [p_wrong]. rewrite Exists_exists. split.
       - intros [?|([node b] & Hin & Hw)]; [done|]. destruct (Hbs node b Hin) as (Hc & E1 & _). simpl in Hw.
         rewrite Hsched in Hin. apply elem_of_map_to_list in Hin. rewrite Hb, Hc in Hin. cbn [andb] in Hin.
         destruct (routed ring ids r node indices) as [|i l] eqn:Hl; [done|]. exists i, node.
         assert (i ∈ routed ring ids r node indices) as [? ?]%list_elem_of_filter by (rewrite Hl; by left). by split_and!.
       - intros (i & node & Hin & Ho & Hc & Hw). right.
         assert (Exists (λ nb : string * batch, i ∈ b_indices nb.2) (sched (map_to_list batches))) as Ha
           by (apply Hasked; eauto).
         apply Exists_exists in Ha as ([node' b] & Hnb & Hib). exists (node', b). split; [done|].
         destruct (Hbs node' b Hnb) as (_ & E1 & _). simpl in *. rewrite E1 in Hib.
         apply list_elem_of_filter in Hib as [Ho' _]. by simplify_eq. }
  - intros i Hin. unfold hit_at. fold (owner i). destruct (owner i) as [o|] eqn:Ho; simpl.
    + destruct (client o) eqn:Hc.
      * rewrite F3 by (apply Hasked; eauto). rewrite Ho. simpl. done.
      * rewrite F4; [done|]. rewrite Hasked. intros [_ (? & ? & ?)]. congruence.
    + rewrite F4; [done|]. rewrite Hasked. intros [_ (? & ? & ?)]. congruence.
  - intros i Hin. apply F4. rewrite Hasked. naive_solver.
  - intros i. rewrite F5, Hasked. cbn [p_retry]. rewrite Hu. unfold hit_at. fold (owner i).
    destruct (owner i) as [o|] eqn:Ho; simpl.
    + destruct (client o) eqn:Hc; simpl.
      * split; [|intros (Hin & _ & Hh); right; eauto].
        intros [[_ (? & [= <-] & ?)]|[[? _] ?]]; [congruence|eauto].
      * split; [|intros (Hin & _ & _); left; eauto].
        intros [[? _]|[[_ (? & [= <-] & ?)] _]]; [eauto|congruence].
    + split; [|intros (_ & [? ?] & _); done].
      intros [[_ (? & ? & _)]|[[_ (? & ? & _)] _]]; done.
Qed.

(** One round's part of the refusals. *)
Lemma refused_step r fuel (probe : list nat) (found found1 : nat → option string) :
  (∀ i, i ∈ probe → (i < n)%nat ∧ found i = None) →
  (∀ i, (i < n)%nat → i ∉ probe → is_Some (found i) ∨ ∀ r', (r ≤ r')%nat → owner_of ring r' (chain_id ids i) = None) →
  (∀ i, i ∈ probe → found1 i = match hit_at r (chain_id ids i) with Some h => Some h | None => found i end) →
  (∀ i, i ∉ probe → found1 i = found i) →
  (∃ i k node, (i < n)%nat ∧ found i = None ∧ (k < Datatypes.S fuel)%nat ∧ first_hit r k (chain_id ids i) = None ∧
     refused_by (r + k) (chain_id ids i) node) ↔
  (∃ i node, i ∈ probe ∧ refused_by r (chain_id ids i) node) ∨
  (∃ i k node, (i < n)%nat ∧ found1 i = None ∧ (k < fuel)%nat ∧ first_hit (r + 1) k (chain_id ids i) = None ∧
     refused_by (r + 1 + k) (chain_id ids i) node).
Proof.
  intros Hp Hnp F1 F2.
  assert (∀ i k node, (i < n)%nat → found i = None → refused_by (r + k) (chain_id ids i) node → i ∈ probe) as Hin.
  { intros i k node Hi Hf (Ho & _). destruct (decide (i ∈ probe)) as [|Hni]; [done|].
    destruct (Hnp i Hi Hni) as [[h Hh]|Hno]; [congruence|]. rewrite Hno in Ho by lia. done. }
  split.
  - intros (i & [|k] & node & Hi & Hf & Hk & Hh & Hw); specialize (Hin i _ node Hi Hf Hw).
    { left. exists i, node. by rewrite Nat.add_0_r in Hw. }
    right. exists i, k, node. cbn [first_hit] in Hh. rewrite F1 by done.
    destruct (hit_at r (chain_id ids i)); [done|]. replace (r + 1 + k)%nat with (r + Datatypes.S k)%nat by lia.
    split_and!; [done|done|lia|done|done].
  - intros [(i & node & Hi & Hw)|(i & k & node & Hi & Hf & Hk & Hh & Hw)].
    { destruct (Hp i Hi) as [H1 H2]. exists i, 0%nat, node. rewrite Nat.add_0_r. by split_and!; [..|lia| |]. }
    replace (r + 1 + k)%nat with (r + Datatypes.S k)%nat in Hw by lia. exists i, (Datatypes.S k), node. cbn [first_hit].
    destruct (decide (i ∈ probe)) as [Hi'|Hni]; [|rewrite F2 in Hf by done; destruct (Hni (Hin _ _ _ Hi Hf Hw))].
    rewrite F1 in Hf by done. destruct (hit_at r (chain_id ids i)); [done|]. split_and!; [done|done|lia|done|done].
Qed.

Lemma probe_rounds_spec fuel r probe cl present holders wrong found :
  same cl0 cl → tracks (MkProbe cl present holders probe wrong) found n →
  (∀ i, i ∈ probe → (i < n)%nat ∧ found i = None) →
  (∀ i, (i < n)%nat → i ∉ probe → is_Some (found i) ∨ ∀ r', (r ≤ r')%nat → owner_of ring r' (chain_id ids i) = None) →
  ∃ st found', probe_rounds sched fuel ring client ids r probe cl present holders wrong = Some st ∧
    same cl0 (p_cluster st) ∧ tracks st found' n ∧
    (∀ i, (i < n)%nat → found' i = match found i with Some h => Some h | None => first_hit r fuel (chain_id ids i) end) ∧
    (p_wrong st = true ↔ wrong = true ∨
       ∃ i k node, (i < n)%nat ∧ found i = None ∧ (k < fuel)%nat ∧ first_hit r k (chain_id ids i) = None ∧
         refused_by (r + k) (chain_id ids i) node).
Proof.
  revert r probe cl present holders wrong found.
  induction fuel as [|fuel IH]; intros r probe cl present holders wrong found Hs Ht Hp Hnp; cbn [probe_rounds].
  { eexists _, found. split_and!; [done|done|done|intros i _; by destruct (found i)|].
    split; [by left|]. intros [?|(i & k & node & _ & _ & ? & _)]; [done|lia]. }
  destruct (decide (probe = [])) as [->|Hne].
  { eexists _, found. split_and!; [done|done|done| |].
    - intros i Hi. destruct (Hnp i Hi) as [[h ->]|Hno]; [set_solver|done|].
      rewrite first_hit_None by (intros; by apply hit_at_owner, Hno). by destruct (found i).
    - split; [by left|]. intros [?|(i & k & node & Hi & Hf & _ & _ & Ho & _)]; [done|].
      destruct (Hnp i Hi) as [[h ?]|Hno]; [set_solver|congruence|]. rewrite Hno in Ho by lia. done. }
  destruct (probeReplica_spec r probe cl present holders found wrong Hs Ht) as
    (st & found1 & Heq & T1 & S1 & F1 & F2 & F3 & F4); [intros; by apply Hp|].
  pose proof (refused_step r fuel probe found found1 Hp Hnp F1 F2) as Hstep.
  destruct probe as [|p0 probe0]; [done|]. rewrite Heq. bind_step.
  destruct (IH (r + 1)%nat (p_retry st) (p_cluster st) (p_present st) (p_holders st)
    (wrong || p_wrong st) found1 S1) as (st' & found' & -> & S' & T' & F' & W'); [done| | |].
  - intros i (Hi & _ & Hh)%F3. split; [by apply Hp|]. rewrite F1, Hh by done. by apply Hp.
  - intros i Hi Hnr. destruct (decide (i ∈ p0 :: probe0)) as [Hin|Hin].
    + rewrite F1 by done. destruct (hit_at r (chain_id ids i)) as [h|] eqn:Hh; [by left; eauto|].
      right. destruct (owner_of ring r (chain_id ids i)) as [o|] eqn:Ho.
      * exfalso. apply Hnr, F3. by rewrite Ho.
      * intros r' ?. apply (owner_of_ge r); [done|lia].
    + rewrite F2 by done. destruct (Hnp i Hi Hin) as [?|Hno]; [by left|right]. intros. apply Hno. lia.
  - exists st', found'. split_and!; [done|done|done| |by rewrite W', Hstep, orb_true_iff, F4; tauto].
    intros i Hi. rewrite F' by done. cbn [first_hit].
    destruct (decide (i ∈ p0 :: probe0)) as [Hin|Hin].
    + rewrite F1 by done. destruct (Hp i Hin) as [_ ->]. by destruct (hit_at r (chain_id ids i)).
    + rewrite F2 by done. destruct (Hnp i Hi Hin) as [[h ->]|Hno]; [done|].
      rewrite first_hit_None by (intros; apply hit_at_owner, Hno; lia). by rewrite hit_at_owner by (apply Hno; lia).
Qed.
End rounds.

(** ** The response of [matchOnRing] *)
Definition holder (rf : nat) (ring : HashRing.Ring) (client : string → bool) cl (id : bytes) : option string :=
  first_hit ring client cl 0 rf id.

(** What [Match] should answer: the longest prefix of the chain whose blocks all
    have a reachable holder among their first [rf] owners, with the address of
    the first such owner of each. *)
Definition matched (rf : nat) (ring : HashRing.Ring) (client : string → bool) cl (ids : list bytes) : nat :=
  leading ((λ id, bool_decide (is_Some (holder rf ring client cl id))) <$> ids).
Definition exact_response (rf : nat) (ring : HashRing.Ring) (client : string → bool) cl (ids : list bytes)
    : pmv1.MatchResponse :=
  let d := matched rf ring client cl ids in
  pmv1.MkMatchResponse (u32 (N.of_nat d))
    ((λ id, pmv1.MkBlockRef id
        (default "" (HashRing.Nodes ring !! default "" (holder rf ring client cl id)))) <$> take d ids)
    (HashRing.Epoch ring).

Lemma leading_le l : (leading l ≤ length l)%nat.
Proof. induction l as [|[] l IH]; simpl; lia. Qed.

Lemma leading_true l i : (i < leading l)%nat → l !! i = Some true.
Proof.
  revert i. induction l as [|[] l IH]; intros i; simpl; [lia| |lia].
  destruct i as [|i]; [done|]. intros. apply IH. lia.
Qed.

Lemma leading_all l : Forall (λ b, b = true) l → leading l = length l.
Proof. induction 1 as [|b l -> _ IH]; simpl; [done|]. by rewrite IH. Qed.

(** A node asked for a block of the chain refuses the ring: it is one of the block's
    owners, can be called, and no owner before it served the block. *)
Definition asked_refuses (rf : nat) (ring : HashRing.Ring) (client : string → bool) cl (ids : list bytes) : Prop :=
  ∃ id k node, id ∈ ids ∧ (k < rf)%nat ∧ first_hit ring client cl 0 k id = None ∧
    owner_of ring k id = Some node ∧ client node = true ∧ refuses cl ring node.

Lemma matchOnRing_flag sched rf ring client req cl :
  (∀ l, sched l ≡ₚ l) → HashRing.ring_wf ring →
  Forall (λ id, length id = Chain.HashSize) (pmv1.mreq_Chain req) → cluster_wf cl →
  ∃ cl' we, matchOnRing sched rf ring client req cl =
      Some (cl', exact_response rf ring client cl (pmv1.mreq_Chain req), we) ∧ same cl cl' ∧
    (we = true ↔ asked_refuses rf ring client cl (pmv1.mreq_Chain req)).
Proof.
  intros Hsched Hring Hids Hwf. unfold matchOnRing. set (ids := pmv1.mreq_Chain req) in *.
  destruct (probe_rounds_spec sched Hsched ring client ids cl Hring Hids rf 0 (seq 0 (length ids)) cl
    (replicate (length ids) false) (replicate (length ids) "") false (λ _, None))
    as (st & found & -> & Hs & (L1 & L2 & Ht) & Hf & Hw).
  - by apply same_refl.
  - split_and!; simpl; [len_lia|len_lia|].
    intros i Hi. split; [|done]. by apply lookup_replicate_2.
  - intros i Hi%elem_of_seq. split; [lia|done].
  - intros i Hi Hn. exfalso. apply Hn, elem_of_seq. lia.
  - bind_step.
    assert (p_present st = (λ id, bool_decide (is_Some (holder rf ring client cl id))) <$> ids) as Hp.
    { apply list_eq_same_length with (length ids); [len_lia|done|].
      intros i x y Hi Hx Hy. destruct (Ht i Hi) as [Hpi _]. rewrite Hpi in Hx. injection Hx as <-.
      rewrite list_lookup_fmap in Hy. destruct (ids !! i) as [id|] eqn:Hid; [|done]. injection Hy as <-.
      rewrite Hf by done. unfold chain_id. by rewrite Hid. }
    rewrite Hp. fold (matched rf ring client cl ids).
    eexists _, _. split_and!; [|exact Hs|].
    2: { rewrite Hw. unfold asked_refuses, refused_by, chain_id. split.
         - intros [?|(i & k & node & [id Hid]%lookup_lt_is_Some & _ & Ha)]; [done|]. rewrite Hid in Ha.
           exists id, k, node. split; [by eapply list_elem_of_lookup_2|exact Ha].
         - intros (id & k & node & [i Hid]%list_elem_of_lookup & Ha). right. exists i, k, node.
           rewrite Hid. split_and!; [by eapply lookup_lt_Some|done|apply Ha..]. }
    do 2 f_equal. unfold exact_response. f_equal.
    f_equal. set (d := matched rf ring client cl ids).
    assert (d ≤ length ids)%nat as Hd.
    { unfold d, matched. etrans; [apply leading_le|]. len_lia. }
    apply list_eq_same_length with d; [by rewrite length_fmap, length_take, Nat.min_l|len_lia|].
    intros i x y Hi. rewrite !list_lookup_fmap, lookup_seq_lt, lookup_take_lt by done. simpl.
    destruct (ids !! i) as [id|] eqn:Hid; [|apply lookup_ge_None in Hid; lia].
    intros [= <-] [= <-]. unfold chain_id. rewrite Hid. simpl. do 3 f_equal.
    assert (((λ id, bool_decide (is_Some (holder rf ring client cl id))) <$> ids) !! i = Some true) as Ht1
      by (by apply leading_true).
    rewrite list_lookup_fmap, Hid in Ht1. injection Ht1 as [h Hh]%bool_decide_eq_true.
    destruct (Ht i ltac:(lia)) as [_ Hhold]. rewrite (Hhold h); [by rewrite Hh|].
    rewrite Hf by lia. unfold chain_id. by rewrite Hid.
Qed.

Lemma matchOnRing_spec sched rf ring client req cl :
  (∀ l, sched l ≡ₚ l) → HashRing.ring_wf ring →
  Forall (λ id, length id = Chain.HashSize) (pmv1.mreq_Chain req) → cluster_wf cl →
  ∃ cl' we, matchOnRing sched rf ring client req cl =
      Some (cl', exact_response rf ring client cl (pmv1.mreq_Chain req), we) ∧ same cl cl'.
Proof.
  intros H1 H2 H3 H4. destruct (matchOnRing_flag sched rf ring client req cl H1 H2 H3 H4) as (cl' & we & ? & ? & _). eauto.
Qed.

Lemma matched_full rf ring client cl ids :
  (∀ id, id ∈ ids → is_Some (holder rf ring client cl id)) → matched rf ring client cl ids = length ids.
Proof.
  intros Hall. unfold matched. rewrite leading_all, length_fmap; [done|].
  apply Forall_fmap, Forall_forall. intros id Hid. simpl. by apply bool_decide_eq_true, Hall.
Qed.

(** One owner that can be asked and has the block is enough. *)
Lemma first_hit_Some ring client cl r k r' id node :
  (r ≤ r' < r + k)%nat → hit_at ring client cl r' id = Some node → is_Some (first_hit ring client cl r k id).
Proof.
  revert r. induction k as [|k IH]; intros r Hr Hh; [lia|]. simpl.
  destruct (decide (r' = r)) as [->|]; [by rewrite Hh|].
  destruct (hit_at ring client cl r id); [done|]. apply (IH (r + 1)%nat); [lia|done].
Qed.

Lemma holder_owner rf ring client cl id h :
  holder rf ring client cl id = Some h → client h = true ∧ serves cl ring h id = true ∧
    ∃ r, (r < rf)%nat ∧ owner_of ring r id = Some h.
Proof.
  unfold holder. assert (∀ k r, first_hit ring client cl r k id = Some h →
    ∃ r', (r ≤ r' < r + k)%nat ∧ hit_at ring client cl r' id = Some h) as Hgen.
  { induction k as [|k IH]; intros r; simpl; [done|].
    destruct (hit_at ring client cl r id) as [x|] eqn:Hx.
    - intros [= ->]. exists r. split; [lia|done].
    - intros (r' & ? & ?)%IH. exists r'. split; [lia|done]. }
  intros (r & Hr & Hh)%Hgen. unfold hit_at in Hh.
  destruct (owner_of ring r id) as [o|] eqn:Ho; [|done]. simpl in Hh.
  destruct (client o) eqn:Hc, (serves cl ring o id) eqn:Hsv; try done. injection Hh as ->.
  split_and!; [done|done|]. exists r. split; [lia|done].
Qed.

Lemma holder_of_owner rf ring client cl id node :
  node ∈ take rf (HashRing.walk ring (key id)) → client node = true → serves cl ring node id = true →
  is_Some (holder rf ring client cl id).
Proof.
  intros (r & Hr)%list_elem_of_lookup Hc Hs. apply lookup_take_Some in Hr as [Hr Hlt].
  apply (first_hit_Some ring client cl 0 rf r id node); [lia|].
  unfold hit_at, owner_of. rewrite Hr. simpl. by rewrite Hc, Hs.
Qed.

(** Node [n] holds the block, and can be asked with this ring. *)
Definition holds cl (n : string) (id : bytes) : Prop := ∃ v, contents cl n = Some v ∧ is_Some (v !! id).
Definition reachable cl (ring : HashRing.Ring) (client : string → bool) (n : string) : Prop :=
  client n = true ∧ up cl n = true ∧ CacheNode.checkEpoch (node_epoch cl n) (HashRing.Epoch ring) = Ok tt.

Lemma serves_holds cl ring client n id :
  reachable cl ring client n → holds cl n id → serves cl ring n id = true.
Proof.
  intros (_ & Hu & He) (v & Hv & Hid). unfold serves. rewrite Hu, Hv, He. simpl.
  by apply bool_decide_eq_true.
Qed.

Lemma exact_response_same rf ring client cl cl' ids :
  same cl cl' → exact_response rf ring client cl' ids = exact_response rf ring client cl ids.
Proof.
  intros Hs. assert (∀ id, holder rf ring client cl' id = holder rf ring client cl id) as Hh.
  { intros id. unfold holder. generalize 0%nat as r. induction rf as [|rf IH]; intros r; simpl; [done|].
    rewrite IH. unfold hit_at. destruct (owner_of ring r id); simpl; [|done].
    by rewrite (serves_same cl cl'). }
  unfold exact_response, matched.
  rewrite (list_fmap_ext (λ id, bool_decide (is_Some (holder rf ring client cl' id)))
    (λ id, bool_decide (is_Some (holder rf ring client cl id))) ids) by (intros; by rewrite Hh).
  f_equal. apply list_fmap_ext. intros. by rewrite Hh.
Qed.

(** ** Properties *)

(** C5. [Match] computes the longest servable prefix: whatever order the probes
    complete in, it returns the depth [d] such that each of the first [d] blocks is
    referenced at one of its first [rf] owners, one that holds it and answered,
    while no owner that can be asked has block [d]; stored blocks do not change. *)
Theorem match_longest_prefix sched rf ring client req cl :
  (∀ l, sched l ≡ₚ l) → HashRing.ring_wf ring →
  Forall (λ id, length id = Chain.HashSize) (pmv1.mreq_Chain req) → cluster_wf cl →
  ∃ cl' resp we d, matchOnRing sched rf ring client req cl = Some (cl', resp, we) ∧ same cl cl' ∧
    pmv1.MatchedDepth resp = u32 (N.of_nat d) ∧ pmv1.mresp_RingEpoch resp = HashRing.Epoch ring ∧
    length (pmv1.Refs resp) = d ∧ (d ≤ length (pmv1.mreq_Chain req))%nat ∧
    (∀ i, (i < d)%nat → ∃ id h, pmv1.mreq_Chain req !! i = Some id ∧
       pmv1.Refs resp !! i = Some (pmv1.MkBlockRef id (default "" (HashRing.Nodes ring !! h))) ∧
       serves cl ring h id = true ∧ ∃ r, (r < rf)%nat ∧ owner_of ring r id = Some h) ∧
    (∀ id, pmv1.mreq_Chain req !! d = Some id →
       ∀ r h, (r < rf)%nat → owner_of ring r id = Some h → client h = true → serves cl ring h id = false).
Proof.
  intros Hsched Hring Hids Hwf.
  destruct (matchOnRing_spec sched rf ring client req cl Hsched Hring Hids Hwf) as (cl' & we & Hm & Hs).
  set (ids := pmv1.mreq_Chain req) in *. set (d := matched rf ring client cl ids).
  assert (d ≤ length ids)%nat as Hd.
  { unfold d, matched. etrans; [apply leading_le|]. len_lia. }
  eexists cl', _, we, d. split_and!; [exact Hm|done|done|done| |done| |].
  - simpl. rewrite length_fmap, length_take. fold d. lia.
  - intros i Hi. destruct (lookup_lt_is_Some_2 ids i) as [id Hid]; [lia|].
    pose proof (leading_true _ _ Hi) as Ht. rewrite list_lookup_fmap, Hid in Ht.
    injection Ht as [h Hh]%bool_decide_eq_true. exists id, h. split_and!; [done| |by eapply holder_owner..].
    simpl. rewrite list_lookup_fmap, lookup_take_lt, Hid by done. simpl. by rewrite Hh.
  - intros id Hid r h Hr Ho Hc. destruct (serves cl ring h id) eqn:Hsv; [|done]. exfalso.
    assert (is_Some (holder rf ring client cl id)) as Hh.
    { apply (first_hit_Some ring client cl 0 rf r id h); [lia|]. unfold hit_at. rewrite Ho. simpl.
      by rewrite Hc, Hsv. }
    clear -Hid Hh. unfold d, matched in Hid. clear d. revert Hid. induction ids as [|id' ids IH]; [done|].
    cbn. destruct (bool_decide (is_Some (holder rf ring client cl id'))) eqn:Hb; [exact IH|].
    intros [= ->]. by apply bool_decide_eq_false in Hb.
Qed.

(** The answer a snapshot of the ring source calls for. *)
Definition usable (snap : snapshot) (req : pmv1.MatchRequest) (ring : HashRing.Ring) : Prop :=
  s_ring snap = Some ring ∧ HashRing.Size ring ≠ 0%nat ∧ pmv1.mreq_Chain req ≠ [].
Definition answer_on rf (snap : snapshot) (req : pmv1.MatchRequest) cl : pmv1.MatchResponse * bool :=
  match s_ring snap with
  | Some ring =>
      if decide (HashRing.Size ring = 0%nat ∨ pmv1.mreq_Chain req = []) then (empty_response, false)
      else (exact_response rf ring (s_client snap) cl (pmv1.mreq_Chain req), true)
  | None => (empty_response, false)
  end.

Lemma match_attempt_answer sched rf snap req cl :
  (∀ l, sched l ≡ₚ l) → (∀ r, s_ring snap = Some r → HashRing.ring_wf r) →
  Forall (λ id, length id = Chain.HashSize) (pmv1.mreq_Chain req) → cluster_wf cl →
  ∃ cl' out, match_attempt sched rf snap req cl = Some (cl', (answer_on rf snap req cl).1, out) ∧ same cl cl' ∧
    (out = None → (answer_on rf snap req cl).2 = false ∧ ∀ ring, ¬ usable snap req ring) ∧
    (∀ ring we, out = Some (ring, we) → (answer_on rf snap req cl).2 = true ∧ usable snap req ring ∧
       (we = true ↔ asked_refuses rf ring (s_client snap) cl (pmv1.mreq_Chain req))).
Proof.
  intros Hsched Hr Hids Hwf. unfold match_attempt, answer_on, usable. destruct (s_ring snap) as [ring|].
  2: { eexists _, None. split_and!; [done|by apply same_refl| |done]. intros _. split; [done|]. by intros ? []. }
  destruct (Nat.eqb_spec (HashRing.Size ring) 0) as [Hz|Hz]; [|destruct (pmv1.mreq_Chain req) as [|id ids] eqn:Hch]; cbn [orb].
  - rewrite decide_True by auto. eexists _, None. split_and!; [done|by apply same_refl| |done].
    intros _. split; [done|]. intros ring' ([= <-] & ? & _). done.
  - rewrite decide_True by auto. eexists _, None. split_and!; [done|by apply same_refl| |done].
    intros _. split; [done|]. by intros ring' (_ & _ & ?).
  - rewrite decide_False by naive_solver. cbn [length Nat.eqb]. rewrite <-Hch in Hids |- *.
    destruct (matchOnRing_flag sched rf ring (s_client snap) req cl Hsched (Hr ring eq_refl) Hids Hwf)
      as (cl' & we & Hm & Hs & Hw). rewrite Hm. bind_step. eexists _, (Some (ring, we)). split_and!; [done|done|done|].
    intros ring' we' [= <- <-]. split_and!; [done|done|done|by rewrite Hch|done].
Qed.

(** A node asked in the first attempt refuses its ring, and a newer one is at hand. *)
Definition retries rf (src : nat → snapshot) req cl : Prop :=
  ∃ old new, usable (src 0%nat) req old ∧
    asked_refuses rf old (s_client (src 0%nat)) cl (pmv1.mreq_Chain req) ∧
    s_ring (src 1%nat) = Some new ∧ HashRing.Epoch old < HashRing.Epoch new.

(** After the first attempt the loop returns, so more fuel changes nothing. *)
Lemma match_loop_fuel sched rf src req cl fuel :
  (2 ≤ fuel)%nat → match_loop sched rf src req fuel 0 0 cl = match_loop sched rf src req 2 0 0 cl.
Proof.
  intros Hf. destruct fuel as [|[|fuel]]; [lia..|]. cbn [match_loop].
  destruct (match_attempt _ _ _ _ _) as [[[cl1 resp1] [[ring we]|]]|]; [|done..]. bind_step.
  destruct (_ && _); [|done]. destruct (match_attempt _ _ _ _ _) as [[[cl2 resp2] [[ring2 we2]|]]|]; [|done..]. bind_step.
  cbn [Nat.add Nat.eqb]. by rewrite andb_false_r.
Qed.

Lemma match_loop_spec sched rf src req cl fuel :
  (∀ l, sched l ≡ₚ l) → (∀ k r, s_ring (src k) = Some r → HashRing.ring_wf r) →
  Forall (λ id, length id = Chain.HashSize) (pmv1.mreq_Chain req) → cluster_wf cl → (2 ≤ fuel)%nat →
  ∃ cl' k, match_loop sched rf src req fuel 0 0 cl = Some (cl', answer_on rf (src k) req cl) ∧ same cl cl' ∧
    (k = 2%nat ∧ retries rf src req cl ∨ k = 0%nat ∧ ¬ retries rf src req cl).
Proof.
  intros Hsched Hr Hids Hwf Hfuel. destruct fuel as [|[|fuel]]; [lia..|]. cbn [match_loop].
  destruct (match_attempt_answer sched rf (src 0%nat) req cl Hsched (Hr 0%nat) Hids Hwf)
    as (cl1 & out1 & -> & S1 & N1 & O1). bind_step.
  destruct out1 as [[ring we]|].
  2:{ destruct (N1 eq_refl) as [E1 U1]. exists cl1, 0%nat. rewrite <-E1, <-surjective_pairing. split_and!; [done|done|].
      right. split; [done|]. intros (old & new & Hu & _). by eapply U1. }
  destruct (O1 ring we eq_refl) as (E1 & U1 & Hm). cbn [Nat.eqb]. rewrite andb_true_r. cbn [Nat.add].
  assert ((we && match s_ring (src 1%nat) with
                 | Some newer => HashRing.Epoch ring <? HashRing.Epoch newer
                 | None => false
                 end = true) ↔ retries rf src req cl) as Hretry.
  { rewrite andb_true_iff, Hm. split.
    - intros [Ha Hn]. destruct (s_ring (src 1%nat)) as [new|] eqn:Hs1; [|done]. apply N.ltb_lt in Hn.
      by exists ring, new.
    - intros (old & new & [Ho _] & Ha & Hs1 & Hlt). destruct U1 as [U1 _]. rewrite U1 in Ho.
      injection Ho as <-. rewrite Hs1. by apply N.ltb_lt in Hlt. }
  destruct (we && _).
  2:{ exists cl1, 0%nat. rewrite <-E1, <-surjective_pairing. split_and!; [done|done|]. right. split; [done|].
      by intros ?%Hretry. }
  destruct (match_attempt_answer sched rf (src 2%nat) req cl1 Hsched (Hr 2%nat) Hids (same_wf _ _ S1))
    as (cl2 & out2 & -> & S2 & N2 & O2). bind_step.
  assert (same cl cl2) as S12.
  { destruct S1 as [A1 A2 A3 _], S2 as [B1 B2 B3 B4]. split; [|congruence|congruence|done]. intros m. by rewrite B1, A1. }
  assert (answer_on rf (src 2%nat) req cl1 = answer_on rf (src 2%nat) req cl) as Hans.
  { unfold answer_on. destruct (s_ring _); [|done]. destruct (decide _); [done|]. by rewrite (exact_response_same _ _ _ cl cl1). }
  exists cl2, 2%nat. split_and!; [|done|left; split; [done|by apply Hretry]].
  destruct out2 as [[ring2 we2]|].
  - destruct (O2 ring2 we2 eq_refl) as (E2 & _). rewrite andb_false_r. cbn [andb].
    by rewrite <-E2, <-surjective_pairing, Hans.
  - destruct (N2 eq_refl) as [E2 _]. by rewrite <-E2, <-surjective_pairing, Hans.
Qed.

(** C37. [Match] always answers a well-formed chain: its retry loop, which has no bound of
    its own, has returned after at most two iterations, however often nodes refuse
    the ring (any more fuel gives the same result).  The answer is exact for the ring
    read first ([answer_on]: the longest servable prefix, or empty and without an
    event if there is no ring, an empty one, or no chain), unless a node that was asked
    ([asked_refuses]: an owner of a block that no owner before it served) refuses that
    ring's epoch and a newer ring is at hand: then, and only then, it is the answer for
    the ring read after that. *)
Theorem match_answers sched rf src req cl :
  (∀ l, sched l ≡ₚ l) → (∀ k r, s_ring (src k) = Some r → HashRing.ring_wf r) →
  Forall (λ id, length id = Chain.HashSize) (pmv1.mreq_Chain req) → cluster_wf cl →
  ∃ cl' k, Match sched rf src req cl = Some (cl', Ok (answer_on rf (src k) req cl)) ∧ same cl cl' ∧
    (∀ fuel, (2 ≤ fuel)%nat → match_loop sched rf src req fuel 0 0 cl = Some (cl', answer_on rf (src k) req cl)) ∧
    (k = 2%nat ∧ retries rf src req cl ∨ k = 0%nat ∧ ¬ retries rf src req cl).
Proof.
  intros Hsched Hr Hids Hwf.
  assert (∀ fuel, (2 ≤ fuel)%nat → ∃ cl' k, match_loop sched rf src req fuel 0 0 cl = Some (cl', answer_on rf (src k) req cl) ∧
    same cl cl' ∧ (k = 2%nat ∧ retries rf src req cl ∨ k = 0%nat ∧ ¬ retries rf src req cl)) as Hloop
    by (intros; by apply match_loop_spec).
  destruct (Hloop 2%nat ltac:(lia)) as (cl' & k & Hl & Hs & Hk). exists cl', k. split_and!; [|done| |done].
  - unfold Match. destruct (list_find _ _) as [[i id]|] eqn:Hf.
    { apply list_find_Some in Hf as (Hi & Hne & _). by eapply Forall_lookup_1 in Hids. }
    unfold match_fuel. by rewrite Hl.
  - intros fuel Hfuel. rewrite <-Hl. by apply match_loop_fuel.
Qed.

(** The owners of a block of a chain, and their reachability. *)
Lemma owners_of_id e nodes vpn rf id :
  length id = Chain.HashSize →
  let ring := HashRing.New e nodes vpn in let O := take rf (HashRing.walk ring (key id)) in
  HashRing.Owners ring id (Z.of_nat rf) = Some O ∧ NoDup O ∧
  length O = (rf `min` size nodes)%nat ∧ (∀ o, o ∈ O → is_Some (nodes !! o)).
Proof.
  intros Hid ring O. assert (8 ≤ length id)%nat as H8 by (rewrite Hid; unfold Chain.HashSize; lia).
  pose proof (HashRing.Owners_New e nodes vpn id (Z.of_nat rf) H8) as HO. rewrite Nat2Z.id in HO.
  pose proof (HashRing.length_owners e nodes vpn id (Z.of_nat rf) _ H8 HO) as Hlen.
  rewrite Nat2Z.id in Hlen. split_and!; [exact HO| |exact Hlen|].
  - eapply sublist_NoDup; [apply NoDup_nub|apply sublist_take].
  - intros o Ho. assert (o ∈ HashRing.walk ring (key id)) as Hw
      by (rewrite <-(take_drop rf (HashRing.walk ring (key id))); apply elem_of_app; by left).
    apply HashRing.elem_of_walk in Hw; [|apply HashRing.New_wf].
    unfold ring in Hw. by rewrite HashRing.addrs_New in Hw.
Qed.

Lemma owners_inv e nodes vpn rf id O :
  length id = Chain.HashSize → HashRing.Owners (HashRing.New e nodes vpn) id (Z.of_nat rf) = Some O →
  length O = (rf `min` size nodes)%nat ∧ ∀ o, o ∈ O → is_Some (nodes !! o).
Proof.
  intros Hid HO. destruct (owners_of_id e nodes vpn rf id Hid) as (HO' & _ & Hown). rewrite HO' in HO.
  by injection HO as <-.
Qed.
Lemma another_owner (O : list string) x : NoDup O → (2 ≤ length O)%nat → ∃ o, o ∈ O ∧ o ≠ x.
Proof.
  intros Hnd Hl. destruct O as [|o1 [|o2 os]]; simpl in Hl; [lia|lia|].
  destruct (decide (o1 = x)) as [->|]; [|exists o1; set_solver].
  exists o2. split; [set_solver|]. intros ->. apply NoDup_cons in Hnd as [Hnd _]. set_solver.
Qed.

(** A chain all of whose blocks have one reachable holder among their owners. *)
Lemma match_full sched rf e nodes vpn client req cl :
  (∀ l, sched l ≡ₚ l) → Forall (λ id, length id = Chain.HashSize) (pmv1.mreq_Chain req) → cluster_wf cl →
  let ring := HashRing.New e nodes vpn in
  (∀ id, id ∈ pmv1.mreq_Chain req → length id = Chain.HashSize →
     ∃ o, o ∈ take rf (HashRing.walk ring (key id)) ∧ reachable cl ring client o ∧ holds cl o id) →
  ∃ cl' resp we, matchOnRing sched rf ring client req cl = Some (cl', resp, we) ∧
    pmv1.MatchedDepth resp = u32 (N.of_nat (length (pmv1.mreq_Chain req))).
Proof.
  intros Hsched Hids Hwf ring Hone.
  destruct (matchOnRing_spec sched rf ring client req cl Hsched (HashRing.New_wf _ _ _) Hids Hwf)
    as (cl' & we & Hm & _). eexists _, _, _. split; [exact Hm|]. cbn [exact_response pmv1.MatchedDepth].
  rewrite matched_full; [done|]. intros id Hid.
  destruct (Hone id Hid) as (o & Ho & Hr & Hh); [by eapply Forall_forall in Hids|].
  apply (holder_of_owner rf ring client cl id o); [done|apply Hr|]. by apply (serves_holds _ _ client).
Qed.

(** C10. With replication factor two the mesh serves through the loss of any one
    node: if every block of the chain is stored at its [rf] owners and all members
    but [x] can be asked, the whole chain matches. *)
Theorem match_survives_node_loss sched rf e nodes vpn client req cl x :
  (∀ l, sched l ≡ₚ l) → (2 ≤ rf)%nat → (2 ≤ size nodes)%nat →
  Forall (λ id, length id = Chain.HashSize) (pmv1.mreq_Chain req) → cluster_wf cl →
  let ring := HashRing.New e nodes vpn in
  (∀ id O o, id ∈ pmv1.mreq_Chain req → HashRing.Owners ring id (Z.of_nat rf) = Some O → o ∈ O → holds cl o id) →
  (∀ n, is_Some (nodes !! n) → n ≠ x → reachable cl ring client n) →
  ∃ cl' resp we, matchOnRing sched rf ring client req cl = Some (cl', resp, we) ∧
    pmv1.MatchedDepth resp = u32 (N.of_nat (length (pmv1.mreq_Chain req))).
Proof.
  intros Hsched Hrf Hsz Hids Hwf ring Hstored Hreach. apply match_full; [done..|].
  intros id Hid Hlen. destruct (owners_of_id e nodes vpn rf id Hlen) as (HO & Hnd & Hl & Hmem).
  fold ring in HO, Hnd, Hl, Hmem. set (O := take rf (HashRing.walk ring (key id))) in *.
  destruct (another_owner O x Hnd ltac:(lia)) as (o & Hin & Hne).
  exists o. split_and!; [done|by apply Hreach; [apply Hmem|]|by eapply Hstored].
Qed.

(** A chain stored at its owners on one ring matches in full on the ring of one node
    more or less. *)
Lemma match_across_rings sched rf e e' nodes vpn client req cl x a (joins : bool) :
  (∀ l, sched l ≡ₚ l) → (2 ≤ rf)%nat → nodes ≠ ∅ → nodes !! x = None →
  Forall (λ id, length id = Chain.HashSize) (pmv1.mreq_Chain req) → cluster_wf cl →
  let small := nodes in let big := <[x := a]> nodes in
  let old := HashRing.New e (if joins then small else big) vpn in
  let new := HashRing.New e' (if joins then big else small) vpn in
  (∀ id O o, id ∈ pmv1.mreq_Chain req → HashRing.Owners old id (Z.of_nat rf) = Some O → o ∈ O → holds cl o id) →
  (∀ n, is_Some (nodes !! n) → reachable cl new client n) →
  ∃ cl' resp we, matchOnRing sched rf new client req cl = Some (cl', resp, we) ∧
    pmv1.MatchedDepth resp = u32 (N.of_nat (length (pmv1.mreq_Chain req))).
Proof.
  intros Hsched Hrf Hne Hx Hids Hwf small big old new Hstored Hreach. apply match_full; [done..|].
  intros id Hid Hlen. fold new.
  assert (8 ≤ length id)%nat as H8 by (rewrite Hlen; unfold Chain.HashSize; lia).
  destruct (owners_of_id e (if joins then small else big) vpn rf id Hlen) as (HO & _).
  destruct (owners_of_id e' (if joins then big else small) vpn rf id Hlen) as (HO' & _ & _ & Hmem).
  fold old in HO. fold new in HO', Hmem.
  assert (∃ o, o ∈ take rf (HashRing.walk old (key id)) ∧
    o ∈ take rf (HashRing.walk new (key id)) ∧ o ≠ x) as (o & Ho & Ho' & Hox).
  { destruct joins.
    - apply (HashRing.owners_survivor e e' nodes vpn x a id (Z.of_nat rf)); [done|done|done|lia|done|done].
    - destruct (HashRing.owners_survivor e' e nodes vpn x a id (Z.of_nat rf) _ _ Hx Hne H8 ltac:(lia) HO' HO)
        as (o & ? & ? & ?). eauto. }
  exists o. split_and!; [done| |by eapply Hstored]. apply Hreach. specialize (Hmem o Ho').
  destruct joins; [|done]. unfold big in Hmem. by rewrite lookup_insert_ne in Hmem.
Qed.

(** C9. The mesh serves straight through a rebalance: after one node joins, or
    leaves, a chain whose blocks are stored at their owners on the old ring still
    matches in full on the new one, as long as the other members can be asked. *)
Theorem match_survives_rebalance sched rf e e' nodes vpn client req cl x a (joins : bool) :
  (∀ l, sched l ≡ₚ l) → (2 ≤ rf)%nat → nodes ≠ ∅ → nodes !! x = None →
  Forall (λ id, length id = Chain.HashSize) (pmv1.mreq_Chain req) → cluster_wf cl →
  let small := nodes in let big := <[x := a]> nodes in
  let old := HashRing.New e (if joins then small else big) vpn in
  let new := HashRing.New e' (if joins then big else small) vpn in
  (∀ id O o, id ∈ pmv1.mreq_Chain req → HashRing.Owners old id (Z.of_nat rf) = Some O → o ∈ O → holds cl o id) →
  (∀ n, is_Some (nodes !! n) → reachable cl new client n) →
  ∃ cl' resp we, matchOnRing sched rf new client req cl = Some (cl', resp, we) ∧
    pmv1.MatchedDepth resp = u32 (N.of_nat (length (pmv1.mreq_Chain req))).
Proof. apply match_across_rings. Qed.
End match_exact.

(** ** The depth never exceeds the chain *)
Section depth.
Context {S : Type} `{!BlockStore.Store S}.
Context (sched : list (string * batch) → list (string * batch)) (rf : nat).

Lemma collect_batch_length node l answers (st : probe_state (S := S)) :
  length (p_present (collect_batch node l answers st)) = length (p_present st).
Proof.
  revert answers st. induction l as [|i l IH]; intros answers st; simpl; [done|].
  rewrite IH. destruct (default false (head answers)); simpl; [apply length_insert|done].
Qed.
Lemma run_batch_length ring (st : probe_state (S := S)) nb :
  length (p_present (run_batch ring st nb)) = length (p_present st).
Proof.
  destruct nb as [node b]. unfold run_batch. destruct (call_Contains _ _ _) as [cl [resp|e]]; [|done].
  by rewrite collect_batch_length.
Qed.

Lemma probe_rounds_length fuel ring client ids r probe (cl : cluster (S := S)) present holders we st :
  probe_rounds sched fuel ring client ids r probe cl present holders we = Some st →
  length (p_present st) = length present.
Proof.
  revert r probe cl present holders we. induction fuel as [|fuel IH]; intros r probe cl present holders we; simpl.
  { by intros [= <-]. }
  destruct probe as [|i probe]; [by intros [= <-]|]. unfold probeReplica.
  destruct (route _ _ _ _ _ _) as [[batches un]|]; [|done]. bind_step. intros Hp. rewrite (IH _ _ _ _ _ _ Hp).
  apply (foldl_inv (λ st, length (p_present st) = length present)); [done|].
  intros st' nb _ Hst. by rewrite run_batch_length.
Qed.

Lemma match_attempt_depth snap req (cl : cluster (S := S)) cl' resp out :
  match_attempt sched rf snap req cl = Some (cl', resp, out) →
  pmv1.MatchedDepth resp ≤ N.of_nat (length (pmv1.mreq_Chain req)).
Proof.
  unfold match_attempt. destruct (s_ring snap); [|intros [= _ <- _]; simpl; lia].
  destruct (_ || _); [intros [= _ <- _]; simpl; lia|]. unfold matchOnRing.
  destruct (probe_rounds _ _ _ _ _ _ _ _ _ _ _) as [st|] eqn:Hp; [|done]. bind_step.
  intros [= _ <- _]. apply probe_rounds_length in Hp. rewrite length_replicate in Hp. simpl.
  etrans; [apply N.Div0.mod_le|]. pose proof (leading_le (p_present st)). lia.
Qed.

Lemma match_loop_depth src req fuel attempt k (cl : cluster (S := S)) cl' resp emit :
  match_loop sched rf src req fuel attempt k cl = Some (cl', (resp, emit)) →
  pmv1.MatchedDepth resp ≤ N.of_nat (length (pmv1.mreq_Chain req)).
Proof.
  revert attempt k cl. induction fuel as [|fuel IH]; intros attempt k cl; [done|]. cbn [match_loop].
  destruct (match_attempt _ _ _ _ _) as [[[cl1 resp1] out1]|] eqn:H1; [|done]. bind_step.
  destruct out1 as [[ring we]|]; [|intros [= _ <- _]; by eapply match_attempt_depth].
  destruct (_ && _); [apply IH|]. intros [= _ <- _]. by eapply match_attempt_depth.
Qed.
Lemma Match_depth src req (cl : cluster (S := S)) cl' resp emit :
  Match sched rf src req cl = Some (cl', Ok (resp, emit)) →
  pmv1.MatchedDepth resp ≤ N.of_nat (length (pmv1.mreq_Chain req)).
Proof.
  unfold Match. destruct (list_find _ _) as [[? ?]|]; [done|].
  destruct (match_loop _ _ _ _ _ _ _ _) as [[cl1 [resp1 emit1]]|] eqn:H1; [|done]. bind_step.
  intros [= _ <- _]. by eapply match_loop_depth.
Qed.
End depth.

(** ** PutBlocks: routing *)

(** Whether a block that arrived under this ring goes to node [n]. *)
Definition routes_to (rf : nat) (n : string) (req : option pmv1.Block * option HashRing.Ring) : option pmv1.Block :=
  match req with
  | (Some b, Some ring) =>
      match HashRing.Owners ring (pmv1.BlockId b) (Z.of_nat rf) with
      | Some os => if bool_decide (n ∈ os) then Some b else None
      | None => None
      end
  | _ => None
  end.
Definition req_ok (req : option pmv1.Block * option HashRing.Ring) : Prop :=
  match req with
  | (Some b, ring) => length (pmv1.BlockId b) = Chain.HashSize ∧ ∀ r, ring = Some r → HashRing.ring_wf r
  | (None, _) => False
  end.

Lemma append_all n (b : pmv1.Block) (os : list string) (m : gmap string (list pmv1.Block)) :
  NoDup os →
  default [] (foldl (λ m n, <[n := default [] (m !! n) ++ [b]]> m) m os !! n) =
  default [] (m !! n) ++ (if bool_decide (n ∈ os) then [b] else []).
Proof.
  intros Hnd. revert m. induction Hnd as [|o os Ho Hnd IH]; intros m; simpl; [by rewrite app_nil_r|].
  rewrite IH. destruct (decide (n = o)) as [->|Hne].
  - rewrite lookup_insert_eq. simpl. rewrite (bool_decide_eq_false_2 (o ∈ os)) by done.
    rewrite bool_decide_eq_true_2 by set_solver. by rewrite app_nil_r.
  - rewrite lookup_insert_ne by done. by rewrite (bool_decide_ext (n ∈ o :: os) (n ∈ os)) by set_solver.
Qed.

Lemma put_route_spec rf reqs m :
  Forall req_ok reqs →
  ∃ m', put_route rf reqs m = Some (Ok m') ∧
    ∀ n, default [] (m' !! n) = default [] (m !! n) ++ omap (routes_to rf n) reqs.
Proof.
  intros Hok. revert m. induction Hok as [|[[b|] ring] reqs Hreq Hok IH]; intros m; simpl; [| |done].
  { exists m. split; [done|]. intros. by rewrite app_nil_r. }
  destruct Hreq as [Hid Hring]. rewrite decide_True by done. destruct ring as [ring|]; [|apply IH].
  specialize (Hring ring eq_refl).
  assert (HashRing.Owners ring (pmv1.BlockId b) (Z.of_nat rf) =
    Some (take rf (HashRing.walk ring (key (pmv1.BlockId b))))) as HO.
  { rewrite (HashRing.Owners_walk _ _ _ (key (pmv1.BlockId b)) Hring); [by rewrite Nat2Z.id|].
    apply HashRing.Uint64_Some. rewrite Hid. unfold Chain.HashSize. lia. }
  destruct (Nat.eqb_spec (HashRing.Size ring) 0) as [H0|H0].
  - destruct (IH m) as (m' & -> & Hm'). exists m'. split; [done|]. intros n. rewrite Hm', HO.
    assert (HashRing.walk ring (key (pmv1.BlockId b)) = []) as ->; [|by rewrite take_nil].
    apply nil_length_inv. by rewrite HashRing.length_walk.
  - rewrite HO. bind_step. edestruct IH as (m' & -> & Hm'). exists m'. split; [done|].
    intros n. rewrite Hm', append_all; [|eapply sublist_NoDup; [apply NoDup_nub|apply sublist_take]].
    destruct (bool_decide _); [by rewrite <-app_assoc|by rewrite app_nil_r].
Qed.

(** A put stream is routed block by block to the owners on the ring current
    when the block arrives: each owner's upload is exactly the blocks it owns, in
    arrival order. *)
Theorem put_routes_to_owners rf reqs :
  Forall req_ok reqs →
  ∃ byOwner, put_route rf reqs ∅ = Some (Ok byOwner) ∧
    ∀ n, default [] (byOwner !! n) = omap (routes_to rf n) reqs.
Proof.
  intros Hok. destruct (put_route_spec rf reqs ∅ Hok) as (m' & H1 & H2).
  exists m'. split; [done|]. intros n. rewrite H2, lookup_empty. done.
Qed.

(** The access event locates the match: it names the chain head, the last
    block matched and the first block missed. *)
Theorem access_event_locates now req resp ev :
  emitAccess true now req resp = Some ev →
  pmv1.MatchedDepth resp ≤ N.of_nat (length (pmv1.mreq_Chain req)) →
  let chainIDs := pmv1.mreq_Chain req in let d := N.to_nat (pmv1.MatchedDepth resp) in
  Some (pmv1.ChainHead ev) = head chainIDs ∧ pmv1.ev_Chain ev = chainIDs ∧
  (d = 0%nat → pmv1.DeepestHit ev = None) ∧
  (pmv1.DeepestHit ev = last (take d chainIDs)) ∧
  (pmv1.NextMiss ev = head (drop d chainIDs)) ∧
  (pmv1.NextMiss ev = None ↔ d = length chainIDs).
Proof.
  unfold emitAccess. intros Hev Hle. cbv zeta. set (d := N.to_nat (pmv1.MatchedDepth resp)) in *.
  destruct (pmv1.mreq_Chain req) as [|h ids] eqn:Hc; [done|]. injection Hev as <-. cbn [pmv1.DeepestHit pmv1.NextMiss pmv1.ChainHead pmv1.ev_Chain].
  assert (d ≤ length (h :: ids))%nat as Hd by (unfold d; lia).
  split_and!; [done|done| | | |].
  - intros ->. done.
  - destruct (Nat.ltb_spec 0 d) as [Hpos|H0].
    + rewrite last_lookup, length_take, lookup_take_lt by lia. f_equal. lia.
    + by replace d with 0%nat by lia.
  - by rewrite <-(Nat.add_0_r d) at 1; rewrite <-lookup_drop, head_lookup.
  - rewrite lookup_ge_None. lia.
Qed.

(** A forwarded block carries the epoch of the ring at the end of the stream,
    not of the ring that routed it: a node that has moved on to the newer ring
    accepts a block routed by the older one, which it would refuse had the request
    carried the epoch it was routed with. *)
Theorem put_epoch_is_final {S} `{!BlockStore.Store S} sched b old new client (cl : @cluster S) mine n :
  (∀ l, sched l ≡ₚ l) → length (pmv1.BlockId b) = Chain.HashSize → HashRing.ring_wf old →
  routes_to 1 n (Some b, Some old) = Some b →
  0 < HashRing.Epoch old < mine → mine = HashRing.Epoch new →
  is_ok (CacheNode.checkEpoch (Some mine) (HashRing.Epoch old)) = false ∧
  CacheNode.checkEpoch (Some mine) (HashRing.Epoch new) = Ok tt ∧
  ∃ byOwner, put_route 1 [(Some b, Some old)] ∅ = Some (Ok byOwner) ∧ byOwner !! n = Some [b] ∧
    PutBlocks sched 1 [(Some b, Some old)] (MkSnapshot (Some new) client) cl =
      let '(cl', stored, existing) :=
        foldl (put_one (HashRing.Epoch new) client) (cl, 0, 0) (sched (map_to_list byOwner)) in
      Some (cl', Ok (pmv1.MkPutBlocksResponse stored existing)).
Proof.
  intros Hsched Hid Hwf Hroute Hold ->. unfold CacheNode.checkEpoch. split_and!.
  - rewrite (proj2 (N.eqb_neq _ 0)) by lia. by rewrite (proj2 (N.ltb_lt _ _)) by lia.
  - rewrite (proj2 (N.eqb_neq _ 0)) by lia. by rewrite N.ltb_irrefl.
  - destruct (put_route_spec 1 [(Some b, Some old)] ∅) as (m & Hm & Hn).
    { constructor; [|constructor]. split; [done|]. by intros r [= <-]. }
    exists m. split_and!; [done| |unfold PutBlocks; by rewrite Hm].
    specialize (Hn n). rewrite lookup_empty in Hn. cbn [omap list_omap] in Hn. rewrite Hroute in Hn.
    by destruct (m !! n); simpl in Hn; simplify_eq.
Qed.

(** ** Witnesses: two LRU nodes that both store one block *)
Definition demo_chain : list bytes := [CacheNode.demo_id x01].
Definition demo_req : pmv1.MatchRequest := pmv1.MkMatchRequest "m" demo_chain.
Definition demo_store : LRU.LRU :=
  default CacheNode.demo_node (fst <$> LRU.lru_Put CacheNode.demo_node (CacheNode.demo_block x01)).
Definition demo_nodes : gmap string string := {["cn-1" := "a:1"; "cn-2" := "b:1"]}.
Definition demo_cluster (down : string) : @cluster LRU.LRU :=
  MkCluster {["cn-1" := demo_store; "cn-2" := demo_store]} (λ _, Some 3) (λ n, negb (bool_decide (n = down))).
Definition demo_ring : HashRing.Ring := HashRing.New 3 demo_nodes 2.

Lemma demo_store_wf : LRU.lru_wf demo_store.
Proof.
  destruct (LRU.lru_Put_order CacheNode.demo_node (CacheNode.demo_block x01)) as (s' & st & H & Hwf & _).
  - apply CacheNode.demo_node_wf.
  - reflexivity.
  - unfold demo_store. by rewrite H.
Qed.

Lemma demo_cluster_wf down : cluster_wf (demo_cluster down).
Proof.
  intros n s. simpl. rewrite lookup_insert_Some, lookup_singleton_Some.
  intros [[_ <-]|[_ [_ <-]]]; apply demo_store_wf.
Qed.

Lemma demo_nodes_cases n : is_Some (demo_nodes !! n) → n = "cn-1" ∨ n = "cn-2".
Proof.
  intros [a Ha]. unfold demo_nodes in Ha. rewrite lookup_insert_Some, lookup_singleton_Some in Ha.
  naive_solver.
Qed.

Lemma demo_holds down n : n = "cn-1" ∨ n = "cn-2" → holds (demo_cluster down) n (CacheNode.demo_id x01).
Proof. intros [->| ->]; eexists; (split; [reflexivity|]); vm_compute; eexists; reflexivity. Qed.

Lemma demo_ids : Forall (λ id, length id = Chain.HashSize) (pmv1.mreq_Chain demo_req).
Proof. repeat (constructor; [reflexivity|]). constructor. Qed.

(** The owners of a block on the demo ring are among its two nodes. *)
Lemma demo_owners e id O o :
  length id = Chain.HashSize → HashRing.Owners (HashRing.New e demo_nodes 2) id (Z.of_nat 2) = Some O →
  o ∈ O → o = "cn-1" ∨ o = "cn-2".
Proof.
  intros Hid HO Ho. destruct (owners_of_id e demo_nodes 2 2 id Hid) as (HO' & _ & _ & Hm).
  apply demo_nodes_cases, Hm. congruence.
Qed.

Lemma match_longest_prefix_witness :
  ∃ cl' resp we d, matchOnRing (λ l, l) 2 demo_ring (λ _, true) demo_req (demo_cluster "") = Some (cl', resp, we) ∧
    same (demo_cluster "") cl' ∧ pmv1.MatchedDepth resp = u32 (N.of_nat d).
Proof.
  destruct (match_longest_prefix (λ l, l) 2 demo_ring (λ _, true) demo_req (demo_cluster ""))
    as (cl' & resp & we & d & H1 & H2 & H3 & _).
  - reflexivity.
  - apply HashRing.New_wf.
  - apply demo_ids.
  - apply demo_cluster_wf.
  - exists cl', resp, we, d. split; [exact H1|]. split; [exact H2|exact H3].
Defined.

(** The gateway starts with a ring of epoch 2, which the nodes (at epoch 3) refuse, and
    has the newer one when it looks again. *)
Definition demo_src (k : nat) : snapshot :=
  MkSnapshot (Some (HashRing.New (if (k =? 0)%nat then 2 else 3) demo_nodes 2)) (λ _, true).
Lemma demo_retries : retries 2 demo_src demo_req (demo_cluster "").
Proof.
  exists (HashRing.New 2 demo_nodes 2), (HashRing.New 3 demo_nodes 2).
  split_and!; [split_and!; [reflexivity|vm_compute; discriminate|discriminate]| |reflexivity|reflexivity].
  destruct (owner_of (HashRing.New 2 demo_nodes 2) 0 (CacheNode.demo_id x01)) as [node|] eqn:Ho; [|by vm_compute in Ho].
  exists (CacheNode.demo_id x01), 0%nat, node. split_and!; [by left|lia|reflexivity|exact Ho|reflexivity|].
  vm_compute in Ho. injection Ho as <-. split_and!; [reflexivity|by eexists|discriminate].
Qed.
Lemma match_answers_witness :
  ∃ cl', Match (λ l, l) 2 demo_src demo_req (demo_cluster "") =
      Some (cl', Ok (answer_on 2 (demo_src 2) demo_req (demo_cluster ""))) ∧ same (demo_cluster "") cl'.
Proof.
  destruct (match_answers (λ l, l) 2 demo_src demo_req (demo_cluster "")) as (cl' & k & H1 & H2 & _ & H3).
  - reflexivity.
  - intros k r [= <-]. apply HashRing.New_wf.
  - apply demo_ids.
  - apply demo_cluster_wf.
  - destruct H3 as [[-> _]|[_ H3]]; [|destruct (H3 demo_retries)]. exists cl'. split; [exact H1|exact H2].
Defined.

(** Node cn-1 is down; the block is still served. *)
Lemma match_survives_node_loss_witness :
  ∃ cl' resp we, matchOnRing (λ l, l) 2 demo_ring (λ _, true) demo_req (demo_cluster "cn-1") =
      Some (cl', resp, we) ∧ pmv1.MatchedDepth resp = 1.
Proof.
  apply (match_survives_node_loss (λ l, l) 2 3 demo_nodes 2 (λ _, true) demo_req (demo_cluster "cn-1") "cn-1").
  - reflexivity.
  - lia.
  - vm_compute. lia.
  - apply demo_ids.
  - apply demo_cluster_wf.
  - intros id O o [->|[]%elem_of_nil]%elem_of_cons HO Ho. apply demo_holds.
    exact (demo_owners 3 (CacheNode.demo_id x01) O o eq_refl HO Ho).
  - intros n [->| ->]%demo_nodes_cases Hne; [done|]. split; [|split]; reflexivity.
Defined.

(** A third node joins and the ring moves to epoch 4. *)
Lemma match_survives_rebalance_witness :
  ∃ cl' resp we, matchOnRing (λ l, l) 2 (HashRing.New 4 (<["cn-3" := "c:1"]> demo_nodes) 2) (λ _, true)
      demo_req (demo_cluster "cn-3") = Some (cl', resp, we) ∧ pmv1.MatchedDepth resp = 1.
Proof.
  apply (match_survives_rebalance (λ l, l) 2 3 4 demo_nodes 2 (λ _, true) demo_req (demo_cluster "cn-3")
    "cn-3" "c:1" true).
  - reflexivity.
  - lia.
  - discriminate.
  - reflexivity.
  - apply demo_ids.
  - apply demo_cluster_wf.
  - intros id O o [->|[]%elem_of_nil]%elem_of_cons HO Ho. apply demo_holds.
    exact (demo_owners 3 (CacheNode.demo_id x01) O o eq_refl HO Ho).
  - intros n [->| ->]%demo_nodes_cases; (split; [|split]; reflexivity).
Defined.

Lemma put_routes_to_owners_witness :
  ∃ byOwner, put_route 2 [(Some (CacheNode.toProto (CacheNode.demo_block x01)), Some demo_ring)] ∅ =
    Some (Ok byOwner).
Proof.
  destruct (put_routes_to_owners 2 [(Some (CacheNode.toProto (CacheNode.demo_block x01)), Some demo_ring)])
    as (m & H & _).
  - constructor; [|constructor]. split; [reflexivity|]. intros r [= <-]. apply HashRing.New_wf.
  - exists m. exact H.
Defined.

Lemma access_event_locates_witness :
  ∃ ev, emitAccess true 5 demo_req (pmv1.MkMatchResponse 1 [] 3) = Some ev ∧ pmv1.NextMiss ev = None.
Proof.
  eexists. split; [reflexivity|].
  apply (access_event_locates 5 demo_req (pmv1.MkMatchResponse 1 [] 3)); [reflexivity|vm_compute; discriminate|reflexivity].
Defined.
End GatewayProps.
