(* ===== verification/GatewayMetrics.v ===== *)
(** * The gateway's handlers with their metrics: src/internal/gateway/server.go

    [Match] and [PutBlocks] once more, with every update of the package's Prometheus
    metrics in the order the code makes them, and with a put stream that may break
    before its end.  The handlers of Gateway.v are what is left when the metrics are
    forgotten, so everything proved of them holds here; what the metrics themselves
    promise to a dashboard is proved over any sequence of calls.  A counter is fed
    [float64] values of integers; they are kept as integers. *)

From S2P Require Import Prelude Proto BlockStore LRU Chain HashRing CacheNode Gateway GatewayProps.

Module GatewayMetrics.
Import Gateway.
Local Open Scope N_scope.

Inductive update :=
| wrongEpochRetries_Inc
| matchSeconds_Observe
| blocksRequested_Add (n : N)
| blocksHit_Add (n : N)
| costRequestedUS_Add (n : N).

Section metered.
Context {S : Type} `{!BlockStore.Store S}.

(** ** Match *)

(** The end of the loop's body: the metrics, then the access event. *)
Definition observed (req : pmv1.MatchRequest) (resp : pmv1.MatchResponse) : list update :=
  [matchSeconds_Observe; blocksRequested_Add (N.of_nat (length (pmv1.mreq_Chain req)));
   blocksHit_Add (pmv1.MatchedDepth resp)].

Section loop.
Context (sched : list (string * batch) → list (string * batch)) (rf : nat) (src : nat → snapshot).
Context (req : pmv1.MatchRequest).

Fixpoint match_loop_metered (fuel attempt k : nat) (cl : @cluster S)
    : option (cluster * (pmv1.MatchResponse * bool) * list update) :=
  match fuel with
  | O => None
  | Datatypes.S fuel =>
      '(cl, resp, out) ← match_attempt sched rf (src k) req cl;
      match out with
      | None => Some (cl, (resp, false), [])
      | Some (ring, wrongEpoch) =>
          if wrongEpoch && (attempt =? 0)%nat &&
             match s_ring (src (k + 1)%nat) with
             | Some newer => HashRing.Epoch ring <? HashRing.Epoch newer
             | None => false
             end
          then '(cl, r, us) ← match_loop_metered fuel (attempt + 1) (k + 2) cl;
               Some (cl, r, wrongEpochRetries_Inc :: us)
          else Some (cl, (resp, true), observed req resp)
      end
  end.

Definition Match_metered (cl : @cluster S)
    : option (cluster * result status (pmv1.MatchResponse * bool) * list update) :=
  match list_find (λ id, length id ≠ Chain.HashSize) (pmv1.mreq_Chain req) with
  | Some (_, id) =>
      Some (cl, Err (Status InvalidArgument ("block id must be 32 bytes, got " +:+
                       pretty (N.of_nat (length id)))), [])
  | None =>
      '(cl, r, us) ← match_loop_metered match_fuel 0 0 cl;
      Some (cl, Ok r, us)
  end.
End loop.

(** ** PutBlocks *)

(** The receive loop; [broken] is the error that ends the stream, if it is not EOF. *)
Fixpoint put_route_metered (rf : nat) (reqs : list (option pmv1.Block * option HashRing.Ring)) (broken : option status)
    (byOwner : gmap string (list pmv1.Block)) : option (result status (gmap string (list pmv1.Block)) * list update) :=
  match reqs with
  | [] => Some (match broken with None => Ok byOwner | Some e => Err e end, [])
  | (None, _) :: _ => Some (Err (Status InvalidArgument "missing or malformed block"), [])
  | (Some b, ring) :: reqs =>
      if decide (length (pmv1.BlockId b) = Chain.HashSize) then
        '(r, us) ← match ring with
                   | None => put_route_metered rf reqs broken byOwner
                   | Some ring =>
                       if (HashRing.Size ring =? 0)%nat then put_route_metered rf reqs broken byOwner
                       else
                         owners ← HashRing.Owners ring (pmv1.BlockId b) (Z.of_nat rf);
                         put_route_metered rf reqs broken
                           (foldl (λ m n, <[n := default [] (m !! n) ++ [b]]> m) byOwner owners)
                   end;
        Some (r, costRequestedUS_Add (pmv1.CostUs b) :: us)
      else Some (Err (Status InvalidArgument "missing or malformed block"), [])
  end.

Definition PutBlocks_metered (sched : list (string * list pmv1.Block) → list (string * list pmv1.Block))
    (rf : nat) (reqs : list (option pmv1.Block * option HashRing.Ring)) (broken : option status) (final : snapshot)
    (cl : @cluster S) : option (cluster * result status pmv1.PutBlocksResponse * list update) :=
  '(byOwner, us) ← put_route_metered rf reqs broken ∅;
  match byOwner with
  | Err e => Some (cl, Err e, us)
  | Ok byOwner =>
      let epoch := match s_ring final with Some r => HashRing.Epoch r | None => 0 end in
      let '(cl, stored, existing) :=
        foldl (put_one epoch (s_client final)) (cl, 0, 0) (sched (map_to_list byOwner)) in
      Some (cl, Ok (pmv1.MkPutBlocksResponse stored existing), us)
  end.

(** ** Forgetting the metrics *)
Lemma match_loop_erase sched rf src req fuel attempt k cl :
  fst <$> match_loop_metered sched rf src req fuel attempt k cl = match_loop sched rf src req fuel attempt k cl.
Proof.
  revert attempt k cl. induction fuel as [|fuel IH]; intros attempt k cl; [done|]. cbn [match_loop_metered match_loop].
  destruct (match_attempt _ _ _ _ _) as [[[cl1 resp1] [[ring we]|]]|]; [|done..]. bind_step.
  destruct (_ && _); [|done]. rewrite <-IH. by destruct (match_loop_metered _ _ _ _ _ _ _ _) as [[[cl2 r] us]|].
Qed.
Lemma Match_erase sched rf src req cl : fst <$> Match_metered sched rf src req cl = Match sched rf src req cl.
Proof.
  unfold Match_metered, Match. destruct (list_find _ _) as [[? ?]|]; [done|]. rewrite <-match_loop_erase.
  by destruct (match_loop_metered _ _ _ _ _ _ _ _) as [[[cl1 r] us]|].
Qed.

Lemma put_route_erase rf reqs byOwner :
  fst <$> put_route_metered rf reqs None byOwner = put_route rf reqs byOwner.
Proof.
  revert byOwner. induction reqs as [|[[b|] [ring|]] reqs IH]; intros byOwner; cbn [put_route_metered put_route]; try done.
  - destruct (decide _); [|done]. destruct (_ =? 0)%nat.
    + rewrite <-IH. by destruct (put_route_metered _ _ _ _) as [[r us]|].
    + destruct (HashRing.Owners _ _ _) as [os|]; [|done]. bind_step. rewrite <-IH.
      by destruct (put_route_metered _ _ _ _) as [[r us]|].
  - destruct (decide _); [|done]. rewrite <-IH. by destruct (put_route_metered _ _ _ _) as [[r us]|].
Qed.

Lemma PutBlocks_erase sched rf reqs final cl :
  fst <$> PutBlocks_metered sched rf reqs None final cl = PutBlocks sched rf reqs final cl.
Proof.
  unfold PutBlocks_metered, PutBlocks. rewrite <-put_route_erase.
  destruct (put_route_metered _ _ _ _) as [[[byOwner|e] us]|]; [|done..].
  change (fst <$> Some (Ok byOwner, us)) with (Some (Ok (E := status) byOwner)). bind_step.
  by destruct (foldl _ _ _) as [[cl' st] ex].
Qed.

(** ** Sums over the updates *)
Definition total (f : update → N) (us : list update) : N := foldr (λ u n, f u + n) 0 us.
Definition retries : update → N := λ u, if u is wrongEpochRetries_Inc then 1 else 0.
Definition observations : update → N := λ u, if u is matchSeconds_Observe then 1 else 0.
Definition requested : update → N := λ u, if u is blocksRequested_Add n then n else 0.
Definition hit : update → N := λ u, if u is blocksHit_Add n then n else 0.
Definition cost : update → N := λ u, if u is costRequestedUS_Add n then n else 0.
Lemma update_total_app f us us' : total f (us ++ us') = total f us + total f us'.
Proof. unfold total. induction us as [|u us IH]; cbn; [done|]. rewrite IH. lia. Qed.

(** The blocks of a put stream up to the first malformed one. *)
Fixpoint well_formed (reqs : list (option pmv1.Block * option HashRing.Ring)) : list pmv1.Block :=
  match reqs with
  | (Some b, _) :: reqs =>
      if decide (length (pmv1.BlockId b) = Chain.HashSize) then b :: well_formed reqs else []
  | _ => []
  end.

Lemma Match_updates sched rf src req cl cl' r us :
  Match_metered sched rf src req cl = Some (cl', r, us) →
  total hit us ≤ total requested us ∧ total cost us = 0 ∧ total retries us ≤ 1 ∧
  (match r with
   | Ok (resp, true) => total observations us = 1 ∧ total requested us = N.of_nat (length (pmv1.mreq_Chain req)) ∧
                        total hit us = pmv1.MatchedDepth resp
   | _ => total observations us = 0 ∧ total requested us = 0
   end).
Proof.
  intros Hm. assert (Match sched rf src req cl = Some (cl', r)) as Hm' by (by rewrite <-Match_erase, Hm).
  assert (∀ resp emit, r = Ok (resp, emit) → pmv1.MatchedDepth resp ≤ N.of_nat (length (pmv1.mreq_Chain req))) as Hd.
  { intros resp emit ->. by eapply GatewayProps.Match_depth. }
  clear Hm'. unfold Match_metered in Hm. destruct (list_find _ _) as [[? ?]|].
  { injection Hm as <- <- <-. done. }
  unfold match_fuel in Hm. cbn [match_loop_metered] in Hm.
  destruct (match_attempt _ _ _ _ _) as [[[cl1 resp1] [[ring we]|]]|]; [| |done]; revert Hm; bind_step.
  2:{ by intros [= <- <- <-]. }
  destruct (_ && _).
  - destruct (match_attempt _ _ _ _ _) as [[[cl2 resp2] [[ring2 we2]|]]|]; [| |done]; bind_step.
    + cbn [Nat.add Nat.eqb]. rewrite andb_false_r. cbn [andb]. bind_step. intros [= <- <- <-].
      specialize (Hd _ _ eq_refl). cbn. split_and!; lia.
    + intros [= <- <- <-]. cbn. split_and!; lia.
  - intros [= <- <- <-]. specialize (Hd _ _ eq_refl). cbn. split_and!; lia.
Qed.

Lemma put_route_updates rf reqs broken byOwner r us :
  put_route_metered rf reqs broken byOwner = Some (r, us) →
  us = (λ b, costRequestedUS_Add (pmv1.CostUs b)) <$> well_formed reqs ∧
  (∀ e, broken = Some e → ∃ e', r = Err e').
Proof.
  revert byOwner r us. induction reqs as [|[[b|] ring] reqs IH]; intros byOwner r us; cbn [put_route_metered well_formed].
  { intros [= <- <-]. split; [done|]. intros e ->. eauto. }
  2:{ intros [= <- <-]. eauto. }
  destruct (decide _); [|intros [= <- <-]; eauto].
  destruct (match ring with Some _ => _ | None => _ end) as [[r' us']|] eqn:Hrest; [|done]. bind_step. intros [= <- <-].
  assert (∃ m, put_route_metered rf reqs broken m = Some (r', us')) as (m & Hm).
  { destruct ring as [ring|]; [|eauto]. destruct (_ =? 0)%nat; [eauto|].
    destruct (HashRing.Owners _ _ _); [|done]. eauto. }
  destruct (IH _ _ _ Hm) as [-> ?]. done.
Qed.

(** A put stream that breaks stores nothing: the error is returned before any block is
    forwarded, whatever had arrived. *)
Lemma broken_put_stores_nothing sched rf reqs e final cl cl' r us :
  PutBlocks_metered sched rf reqs (Some e) final cl = Some (cl', r, us) → cl' = cl ∧ ∃ e', r = Err e'.
Proof.
  unfold PutBlocks_metered. destruct (put_route_metered _ _ _ _) as [[m us']|] eqn:Hp; [|done].
  apply put_route_updates in Hp as [_ He]. destruct (He e eq_refl) as [e' ->]. bind_step. intros [= <- <- <-]. eauto.
Qed.

(** ** A gateway's life: any sequence of calls *)
Inductive call :=
| CMatch (sched : list (string * batch) → list (string * batch)) (src : nat → snapshot) (req : pmv1.MatchRequest)
| CPut (sched : list (string * list pmv1.Block) → list (string * list pmv1.Block))
    (reqs : list (option pmv1.Block * option HashRing.Ring)) (broken : option status) (final : snapshot).
Definition is_match (c : call) : bool := if c is CMatch _ _ _ then true else false.
Definition put_blocks (c : call) : list pmv1.Block := if c is CPut _ reqs _ _ then well_formed reqs else [].

Fixpoint serve (rf : nat) (calls : list call) (cl : @cluster S) : option (cluster * list update) :=
  match calls with
  | [] => Some (cl, [])
  | call :: calls =>
      '(cl, us) ← match call with
                  | CMatch sched src req => '(cl, _, us) ← Match_metered sched rf src req cl; Some (cl, us)
                  | CPut sched reqs broken final => '(cl, _, us) ← PutBlocks_metered sched rf reqs broken final cl; Some (cl, us)
                  end;
      '(cl, us') ← serve rf calls cl;
      Some (cl, us ++ us')
  end.

(** The metrics a dashboard divides are consistent: over any sequence of calls the hit
    counter never exceeds the requested counter, there is at most one retry and one
    latency observation per [Match], and the cost counter is exactly the cost of the
    blocks written back, up to the first malformed block of each stream. *)
Theorem metrics_consistent rf calls cl cl' us :
  serve rf calls cl = Some (cl', us) →
  let matches := N.of_nat (length (filter is_match calls)) in
  total hit us ≤ total requested us ∧ total retries us ≤ matches ∧ total observations us ≤ matches ∧
  total cost us = foldr (λ b n, pmv1.CostUs b + n) 0 (calls ≫= put_blocks).
Proof.
  revert cl cl' us. induction calls as [|call calls IH]; intros cl cl' us; cbn [serve].
  { intros [= <- <-]. by split_and!. }
  destruct call as [sched src req|sched reqs broken final].
  - destruct (Match_metered _ _ _ _ _) as [[[cl1 r] us1]|] eqn:Hm; [|done]. bind_step.
    destruct (serve rf calls cl1) as [[cl2 us2]|] eqn:Hs; [|done]. bind_step. intros [= <- <-].
    destruct (IH _ _ _ Hs) as (I1 & I2 & I3 & I4). destruct (Match_updates _ _ _ _ _ _ _ _ Hm) as (M1 & M2 & M3 & M4).
    assert (total observations us1 ≤ 1) by (destruct r as [[resp []]|]; lia).
    rewrite !update_total_app, filter_cons_True, bind_cons by done. cbn [length put_blocks app]. split_and!; lia.
  - destruct (PutBlocks_metered _ _ _ _ _ _) as [[[cl1 r] us1]|] eqn:Hm; [|done]. bind_step.
    destruct (serve rf calls cl1) as [[cl2 us2]|] eqn:Hs; [|done]. bind_step. intros [= <- <-].
    destruct (IH _ _ _ Hs) as (I1 & I2 & I3 & I4).
    assert (us1 = (λ b, costRequestedUS_Add (pmv1.CostUs b)) <$> well_formed reqs) as ->.
    { unfold PutBlocks_metered in Hm. destruct (put_route_metered _ _ _ _) as [[m us']|] eqn:Hp; [|done].
      apply put_route_updates in Hp as [-> _]. revert Hm. bind_step.
      destruct m; [destruct (foldl _ _ _) as [[? ?] ?]|]; by intros [= <- <- <-]. }
    rewrite !update_total_app, filter_cons_False, bind_cons, foldr_app, <-I4 by (intros []). cbn [put_blocks].
    assert (∀ f l, (∀ n, f (costRequestedUS_Add n) = 0) → total f ((λ b, costRequestedUS_Add (pmv1.CostUs b)) <$> l) = 0) as Hz.
    { intros f l Hf. induction l as [|b l IHl]; cbn; [done|]. rewrite Hf. exact IHl. }
    rewrite (Hz hit), (Hz requested), (Hz retries), (Hz observations) by done. split_and!; [lia..|]. clear.
    induction (well_formed reqs) as [|b l IHl]; [done|]. cbn [foldr]. rewrite <-IHl. cbn. unfold total. lia.
Qed.
End metered.
End GatewayMetrics.
