(* ===== verification/Failover.v ===== *)
(** * Failure and recovery, end to end

    The background loops of the control plane (src/internal/directory/monitor.go,
    [RunGapFiller] of src/internal/paxos/node.go, [Run] of
    src/internal/ringwatch/watcher.go) and what they bring about: a stalled log moves
    again, silent members leave the ring, watchers find a live replica and adopt its
    ring, and a chain stored before a node died is still matched in full afterwards. *)

From S2P Require Import Prelude HashRing Chain Proto Paxos PaxosLog Directory DirectoryProps Replica RingWatch BlockStore CacheNode Gateway GatewayProps LRU.

Module Failover.
Import Paxos PaxosLog pmv1 Directory DirectoryProps Replica.
Local Open Scope N_scope.

(** ** A network that answers: nothing competes for the slot and a majority replies *)
Record quiet (cfg : Paxos.Config) (env : nat → attempt_env) : Prop := {
  q_ctx : env_ctx_err (env 0%nat) = false;
  q_learned : env_learned (env 0%nat) = [];
  q_fresh : ∀ r, Some r ∈ env_prepares (env 0%nat) → Promised r = true ∧ AcceptedValue r = None;
  q_promises : (majority cfg ≤ promises (collect_prepares (env_prepares (env 0%nat))))%nat;
  q_accepts : (majority cfg ≤ (collect_accepts (env_accepts (env 0%nat))).1)%nat
}.

Lemma quiet_Submit {S} (apply : N → bytes → S → S) cfg env n v :
  quiet cfg env → chosen (log n) !! applied (log n) = None → Equal cfg v v = true →
  Submit apply cfg env n v = (MkNode (u64 (round n + 1)) (Commit apply (applied (log n)) v (log n)), Ok tt).
Proof. intros [] Hn Heq. by apply Submit_quiet. Qed.

(** ** The gap filler *)
Section gap.
Context (Marshal : ClusterCommand → option bytes) (Unmarshal : bytes → option ClusterCommand).
Context (Hcodec : ∀ c b, Marshal c = Some b → Unmarshal b = Some c) (now : N → Z).

(** One tick of [RunGapFiller] unblocks a stalled log: the hole is filled, and every
    slot that was chosen behind it without another hole is applied at once, so that
    the members are the replay of the whole longer prefix. *)
Theorem gap_filler_unblocks dcfg noop env s slot :
  Marshal noop_command = Some noop → let cfg := paxos_config Unmarshal dcfg noop in
  replica_inv Unmarshal s → applied (log s) < two64 - 1 → quiet cfg env → Gap (log s) = Some slot →
  let s' := gap_filler_tick (apply_both Unmarshal now) cfg env s in
  replica_inv Unmarshal s' ∧ slot = applied (log s) ∧ chosen (log s') = <[slot := noop]> (chosen (log s)) ∧
  ∀ upto, (∀ i, slot < i ≤ upto → is_Some (chosen (log s) !! i)) → slot ≤ upto → upto < applied (log s').
Proof.
  intros Hnoop cfg Hinv Hlt Hq Hgap. pose proof (li_next _ _ _ Hinv) as Hn. cbn in Hn.
  assert (slot = applied (log s)) as ->.
  { unfold Gap in Hgap. cbn [gap_loop] in Hgap. rewrite Hn in Hgap. destruct (_ <? _); by simplify_eq. }
  unfold gap_filler_tick. rewrite Hgap. change (Paxos.Noop cfg) with noop.
  rewrite (quiet_Submit _ _ _ _ _ Hq Hn) by (by eapply commandsEqual_refl). cbn [fst log].
  destruct (Commit_spec (apply_core Unmarshal) (0, ∅) (log_map core (log s)) (applied (log s)) noop Hinv Hlt) as (C1 & C2 & _).
  cbn in C2. rewrite Hn in C2. rewrite <-(core_Commit Unmarshal now) in C1, C2. cbn in C2.
  split_and!; [done|done|done|]. intros upto Hall Hle.
  destruct (N.lt_ge_cases upto (applied (Commit (apply_both Unmarshal now) (applied (log s)) noop (log s)))) as [|Hge]; [done|].
  pose proof (li_next _ _ _ C1) as Hn'. cbn in Hn'. rewrite C2 in Hn'. apply lookup_insert_None in Hn' as [Hno Hne].
  pose proof (Commit_spec (apply_core Unmarshal) (0, ∅) (log_map core (log s)) (applied (log s)) noop Hinv Hlt) as (_ & _ & Hap).
  rewrite <-(core_Commit Unmarshal now) in Hap. cbn in Hap.
  destruct (Hall (applied (Commit (apply_both Unmarshal now) (applied (log s)) noop (log s)))) as [v Hv]; [lia|]. congruence.
Qed.

(** ** The failure detector *)

(** Nothing chosen at or behind the next slot. *)
Definition clear_ahead {S} (l : Log S) : Prop := ∀ i, applied l ≤ i → chosen l !! i = None.

(** Proposing a death on a quiet network. *)
Lemma submit_dead_quiet dcfg noop env s id raw :
  let cfg := paxos_config Unmarshal dcfg noop in
  Marshal (NodeDead id) = Some raw → clear_ahead (log s) → applied (log s) < two64 - 1 → quiet cfg env →
  epoch (server_sm s) < two64 - 1 →
  let s' := (submit Marshal Unmarshal now cfg env s (NodeDead id)).1 in
  members (server_sm s') = delete id (members (server_sm s)) ∧ server_hb s' = server_hb s ∧
  clear_ahead (log s') ∧ applied (log s') = applied (log s) + 1 ∧
  epoch (server_sm s') = epoch (server_sm s) + (if members (server_sm s) !! id then 1 else 0).
Proof.
  intros cfg Hm Hclear Hlt Hq He. unfold submit. rewrite Hm.
  rewrite (quiet_Submit _ _ _ _ _ Hq) by (first [by apply Hclear; lia|by eapply commandsEqual_refl]).
  cbn [fst]. set (s' := MkNode _ _).
  destruct (Commit_next (apply_both Unmarshal now) (log s) raw) as (C1 & C2 & C3);
    [by apply Hclear; lia|by apply Hclear; lia|done|].
  assert (app (log s') = apply_both Unmarshal now (applied (log s)) raw (app (log s))) as Happ by exact C2.
  assert (server_sm s' = Directory.apply_sm Unmarshal (applied (log s)) raw (server_sm s)) as Hsm.
  { unfold server_sm at 1. rewrite Happ. apply apply_both_sm. }
  assert (server_hb s' = server_hb s) as Hhb.
  { unfold server_hb. rewrite Happ. unfold apply_both, Apply, apply_locked. rewrite (Hcodec _ _ Hm). simpl.
    destruct (members (app (log s)).1 !! id); done. }
  destruct (apply_sm_locked Unmarshal (applied (log s)) raw (server_sm s)) as [E M]. rewrite <-Hsm in E, M.
  unfold apply_locked in E, M. rewrite (Hcodec _ _ Hm) in E, M. cbn [apply_cmd] in E, M.
  destruct (members (server_sm s) !! id) as [i|] eqn:Hi; cbn in E, M.
  - split_and!; [done|done| |done|by rewrite E, u64_small by lia].
    intros j Hj. cbn in Hj |- *. rewrite C1, lookup_insert_ne by lia. apply Hclear. lia.
  - split_and!; [by rewrite M, delete_id|done| |done|rewrite E; lia].
    intros j Hj. cbn in Hj |- *. rewrite C1, lookup_insert_ne by lia. apply Hclear. lia.
Qed.

(** Silent for longer than [DeadAfter], and a majority agrees. *)
Definition doomed (h : hbTracker) (t : Z) (answers : string → list (option bool)) (id : string) : bool :=
  expired h id t && quorumSuspects (answers id).

Lemma detector_loop_evicts dcfg noop t answers env ids s :
  let cfg := paxos_config Unmarshal dcfg noop in
  (∀ id, id ∈ ids → is_Some (Marshal (NodeDead id)) ∧ quiet cfg (env id)) →
  clear_ahead (log s) → applied (log s) + N.of_nat (length ids) < two64 - 1 →
  epoch (server_sm s) + N.of_nat (length ids) < two64 - 1 →
  let s' := detector_loop Marshal Unmarshal now cfg t answers env ids s in
  members (server_sm s') =
    filter (λ kv, ¬ (kv.1 ∈ ids ∧ doomed (server_hb s) t answers kv.1 = true)) (members (server_sm s)) ∧
  server_hb s' = server_hb s ∧ epoch (server_sm s) ≤ epoch (server_sm s') ∧
  (epoch (server_sm s') = epoch (server_sm s) → members (server_sm s') = members (server_sm s)).
Proof.
  intros cfg. revert s. induction ids as [|id ids IH]; intros s Hids Hclear Hlt He; cbn [detector_loop].
  { split_and!; [|done|lia|done]. symmetry. apply map_filter_id. intros k i _. set_solver. }
  assert (∀ id', id' ∈ ids → is_Some (Marshal (NodeDead id')) ∧ quiet cfg (env id')) as Hids' by set_solver.
  cbn [length] in Hlt, He. destruct (Hids id) as [[raw Hraw] Hq]; [by left|].
  assert (doomed (server_hb s) t answers id = false →
    let s' := detector_loop Marshal Unmarshal now cfg t answers env ids s in
    members (server_sm s') =
      filter (λ kv, ¬ (kv.1 ∈ id :: ids ∧ doomed (server_hb s) t answers kv.1 = true)) (members (server_sm s)) ∧
    server_hb s' = server_hb s ∧ epoch (server_sm s) ≤ epoch (server_sm s') ∧
    (epoch (server_sm s') = epoch (server_sm s) → members (server_sm s') = members (server_sm s))) as Hskip.
  { intros Hd. destruct (IH s Hids' Hclear) as (H1 & H2 & H3 & H4); [lia|lia|]. split_and!; [|done|done|done].
    rewrite H1. apply map_filter_ext. intros k i _. simpl. split; intros Hn [Hin Hk]; apply Hn; (split; [|done]).
    - apply elem_of_cons in Hin as [->|]; [congruence|done].
    - by right. }
  unfold doomed in Hskip at 1. destruct (expired (server_hb s) id t) eqn:Hex; cbn [negb]; [|by apply Hskip].
  destruct (quorumSuspects (answers id)) eqn:Hqs; cbn [negb]; [|by apply Hskip]. clear Hskip.
  destruct (submit_dead_quiet dcfg noop (env id) s id raw Hraw Hclear) as (M & HB & CA & AP & EP); [lia|done|lia|].
  fold cfg in M, HB, CA, AP, EP. set (s1 := (submit _ _ _ _ _ _ _).1) in *.
  destruct (IH s1 Hids' CA) as (H1 & H2 & H3 & H4);
    [rewrite AP; lia|rewrite EP; destruct (members (server_sm s) !! id); lia|].
  rewrite HB in H1, H2. split_and!; [|done|rewrite EP in H3; lia|].
  - rewrite H1, M. apply map_eq. intros k. apply option_eq. intros i. rewrite !map_lookup_filter_Some, lookup_delete_Some.
    cbn [fst]. split.
    + intros [[Hne Hk] Hn]. split; [done|]. intros [[->|Hin]%elem_of_cons Hd]; [done|by apply Hn].
    + intros [Hk Hn]. split_and!; [|done|].
      * intros <-. apply Hn. split; [by left|]. unfold doomed. by rewrite Hex, Hqs.
      * intros [Hin Hd]. apply Hn. split; [by right|done].
  - intros Heq. destruct (members (server_sm s) !! id) as [i|] eqn:Hi; [lia|].
    rewrite H4 by lia. by rewrite M, delete_id.
Qed.

(** The failure detector does its work: on a quiet network one tick removes exactly the
    members that have been silent for longer than [DeadAfter] and that a majority
    suspects, all of them and no other, and the epoch says so. *)
Theorem detector_evicts dcfg noop t answers env s :
  let cfg := paxos_config Unmarshal dcfg noop in
  (∀ id, is_Some (members (server_sm s) !! id) → is_Some (Marshal (NodeDead id)) ∧ quiet cfg (env id)) →
  clear_ahead (log s) → applied (log s) + N.of_nat (size (members (server_sm s))) < two64 - 1 →
  epoch (server_sm s) + N.of_nat (size (members (server_sm s))) < two64 - 1 →
  let s' := detector_tick Marshal Unmarshal now cfg t answers env s in
  members (server_sm s') =
    filter (λ kv, doomed (server_hb s) t answers kv.1 = false) (members (server_sm s)) ∧
  (members (server_sm s') ≠ members (server_sm s) → epoch (server_sm s) < epoch (server_sm s')).
Proof.
  intros cfg Hids Hclear Hlt He s'.
  assert (length (Members (server_sm s)) = size (members (server_sm s))) as Hlen.
  { unfold Members. by rewrite length_fmap, length_map_to_list. }
  assert (∀ id, id ∈ Members (server_sm s) ↔ is_Some (members (server_sm s) !! id)) as Hmem.
  { intros id. unfold Members. rewrite list_elem_of_fmap. split.
    - intros ([k i] & -> & Hk%elem_of_map_to_list). by eexists.
    - intros [i Hi]. exists (id, i). split; [done|]. by apply elem_of_map_to_list. }
  destruct (detector_loop_evicts dcfg noop t answers env (Members (server_sm s)) s) as (H1 & H2 & H3 & H4);
    [intros id Hid%Hmem; by apply Hids|done|lia|lia|].
  fold cfg in H1, H2, H3, H4. fold (detector_tick Marshal Unmarshal now cfg t answers env s) in H1, H2, H3, H4.
  fold s' in H1, H2, H3, H4. split.
  - rewrite H1. apply map_filter_ext. intros k i Hk. cbn [fst]. rewrite <-not_true_iff_false. split; [|tauto].
    intros Hn Hd. apply Hn. split; [apply Hmem; by eexists|done].
  - intros Hne. assert (epoch (server_sm s') ≠ epoch (server_sm s)) by (intros E; by apply Hne, H4). lia.
Qed.
End gap.

(** ** The loops' waits *)

(** The timer of one iteration of [runFailureDetector]; [None] is the panic of
    [rand.Int63n] for an argument that is not positive. *)
Definition detector_wait (Int63n : Z → Z) (heartbeatEvery : Z) : option Z :=
  let half := Z.quot heartbeatEvery 2 in
  if (half <=? 0)%Z then None else Some (heartbeatEvery + Int63n half)%Z.
Definition gap_interval : Z := 300000000.

(** With the defaults the detector never panics and looks every 500 to 750ms, so three
    heartbeats fit into [DeadAfter] before it can expire. *)
Lemma detector_wait_default Int63n :
  (∀ n, 0 < n → 0 ≤ Int63n n < n)%Z →
  let '(hb, dead) := defaults 0 0 in
  ∃ w, detector_wait Int63n hb = Some w ∧ (hb ≤ w < hb + hb / 2)%Z ∧ dead = (3 * hb)%Z.
Proof.
  intros Hr. eexists. split; [reflexivity|]. split; [|done].
  pose proof (Hr 250000000%Z ltac:(lia)) as Hj. cbn.
  change (500000000 `quot` 2)%Z with 250000000%Z. change (500000000 `div` 2)%Z with 250000000%Z. lia.
Qed.

(** ** The background loops of a replica

    One entry per wake-up; [None] is the end of the context. *)
Section loops.
Context (Marshal : ClusterCommand → option bytes) (Unmarshal : bytes → option ClusterCommand).
Context (now : N → Z) (cfg : Paxos.Config).
Abbreviation run := (replica_run Marshal Unmarshal now cfg).
Abbreviation server := (node (S := StateMachine * hbTracker)).

Fixpoint RunGapFiller (ticks : list (option (nat → attempt_env))) (s : server) : server :=
  match ticks with
  | [] | None :: _ => s
  | Some env :: ticks => RunGapFiller ticks (gap_filler_tick (apply_both Unmarshal now) cfg env s)
  end.

Record detector_event := MkDetectorEvent {
  de_now : Z;
  de_answers : string → list (option bool);
  de_env : string → nat → attempt_env
}.
(** [None]: the panic of the timer. *)
Fixpoint runFailureDetector (Int63n : Z → Z) (heartbeatEvery : Z) (events : list (option detector_event)) (s : server)
    : option server :=
  match events with
  | [] => Some s
  | e :: events =>
      _ ← detector_wait Int63n heartbeatEvery;
      match e with
      | None => Some s
      | Some e =>
          runFailureDetector Int63n heartbeatEvery events
            (detector_tick Marshal Unmarshal now cfg (de_now e) (de_answers e) (de_env e) s)
      end
  end.

Lemma detector_tick_run t answers env s a :
  run ((λ id, RDetect t id (answers id) (env id)) <$> Members (server_sm s)) (MkReplica s a) =
    MkReplica (detector_tick Marshal Unmarshal now cfg t answers env s) a.
Proof.
  unfold detector_tick. generalize (Members (server_sm s)). intros ids. revert s.
  induction ids as [|id ids IH]; intros s; [done|]. cbn [fmap list_fmap detector_loop].
  change (run (?o :: ?os) ?r) with (run os (replica_step Marshal Unmarshal now cfg o r)).
  cbn [replica_step]. unfold detect_one. cbn [detector_loop].
  destruct (negb _); [apply IH|]. destruct (negb _); apply IH.
Qed.
Lemma run_app ops1 ops2 r : run (ops1 ++ ops2) r = run ops2 (run ops1 r).
Proof. apply foldl_app. Qed.

(** The loops do nothing to a replica but operations of Replica.v, one proposal at a
    time, so what holds of every sequence of operations holds while they run; and the
    detector's timer never panics for an interval of two nanoseconds or more. *)
Theorem loops_are_runs Int63n heartbeatEvery ticks events s a :
  (2 ≤ heartbeatEvery)%Z →
  (∃ ops, run ops (MkReplica s a) = MkReplica (RunGapFiller ticks s) a) ∧
  ∃ ops s', runFailureDetector Int63n heartbeatEvery events s = Some s' ∧ run ops (MkReplica s a) = MkReplica s' a.
Proof.
  intros Hhb. split.
  - revert s. induction ticks as [|[env|] ticks IH]; intros s; [by exists []| |by exists []].
    destruct (IH (gap_filler_tick (apply_both Unmarshal now) cfg env s)) as [ops Hops]. by exists (RGapTick env :: ops).
  - assert (∃ w, detector_wait Int63n heartbeatEvery = Some w) as [w Hw].
    { unfold detector_wait. assert (1 ≤ heartbeatEvery ÷ 2)%Z by (apply Z.quot_le_lower_bound; lia).
      destruct (Z.leb_spec (heartbeatEvery ÷ 2) 0); [lia|]. eauto. }
    revert s. induction events as [|[e|] events IH]; intros s; cbn [runFailureDetector]; [by exists [], s| |].
    + rewrite Hw. bind_step. edestruct IH as (ops & s' & -> & Hops). eexists _, s'. split; [done|].
      rewrite <-Hops, <-detector_tick_run. apply run_app.
    + rewrite Hw. bind_step. by exists [], s.
Qed.
End loops.

(** ** The watcher's loop

    One entry per iteration of [Run]: whether the context had ended, what [watchOne]
    met (a failed dial, a refused [WatchRing], or the rings received until the stream
    broke), and whether the context ended during the wait. *)
Inductive stream := DialFailed | OpenFailed | Received (rings : list pmv1.Ring).
Record iteration := MkIteration { it_ended : bool; it_stream : stream; it_ended_waiting : bool }.

(** What an iteration did: the directory tried, the [KnownEpoch] of its request, the
    wait in milliseconds. *)
Record attempt := MkAttempt { at_dir : string; at_known : option N; at_wait : nat }.

Section watch.
Context {conn : Type} (NewClient : string → option conn).
Abbreviation Watcher := (RingWatch.Watcher (conn := conn)).

Definition watch_one (st : stream) (w : Watcher) : Watcher :=
  match st with Received rs => RingWatch.watchOne NewClient rs w | _ => w end.

(** [None]: [w.directories[i]] is out of range. *)
Fixpoint watch_run (its : list iteration) (i backoff : nat) (w : Watcher) : option (Watcher * list attempt) :=
  match its with
  | [] => Some (w, [])
  | it :: its =>
      if it_ended it then Some (w, [])
      else
        addr ← RingWatch.directories w !! i;
        let att := MkAttempt addr (if it_stream it is DialFailed then None else Some (RingWatch.Epoch w)) backoff in
        let w := watch_one (it_stream it) w in
        if it_ended_waiting it then Some (w, [att])
        else
          let '(i, backoff) := RingWatch.run_next i backoff (length (RingWatch.directories w)) in
          '(w, atts) ← watch_run its i backoff w;
          Some (w, att :: atts)
  end.

Lemma watch_one_dirs st (w : Watcher) : RingWatch.directories (watch_one st w) = RingWatch.directories w.
Proof.
  destruct st as [| |rs]; [done..|]. simpl.
  apply (foldl_inv (λ w' : Watcher, RingWatch.directories w' = RingWatch.directories w)); [done|].
  intros w' r _ Hw. unfold RingWatch.apply. destruct (match RingWatch.ring w' with Some _ => _ | None => _ end); [done|].
  by destruct (if RingWatch.dialNodes w' then _ else _).
Qed.

(** The iterations of a context that does not end. *)
Definition live (it : iteration) : Prop := it_ended it = false ∧ it_ended_waiting it = false.

(** The waits double from 100ms and stop above three seconds. *)
Definition waits : list nat := [100; 200; 400; 800; 1600; 3200]%nat.
Lemma run_next_wait i b n : b ∈ waits → (RingWatch.run_next i b n).2 ∈ waits.
Proof. unfold waits. intros Hb. repeat (apply elem_of_cons in Hb as [->|Hb]; [cbn; set_solver|]). set_solver. Qed.

Lemma watch_run_spec its i b (w : Watcher) :
  Forall live its → (i < length (RingWatch.directories w))%nat → b ∈ waits →
  ∃ atts, watch_run its i b w = Some (foldl (λ w it, watch_one (it_stream it) w) w its, atts) ∧
    length atts = length its ∧
    ∀ n att, atts !! n = Some att →
      RingWatch.directories w !! ((i + n) mod length (RingWatch.directories w))%nat = Some (at_dir att) ∧
      at_wait att ∈ waits.
Proof.
  revert i b w. induction its as [|it its IH]; intros i b w Hlive Hi Hb; cbn [watch_run foldl].
  { exists []. split_and!; [done|done|]. intros n att Hatt. by destruct n. }
  apply Forall_cons in Hlive as [[H1 H2] Hlive]. rewrite H1, H2.
  destruct (lookup_lt_is_Some_2 _ _ Hi) as [addr Haddr]. rewrite Haddr. bind_step.
  pose proof (watch_one_dirs (it_stream it) w) as Hd. set (w1 := watch_one (it_stream it) w) in *. rewrite Hd.
  set (len := length (RingWatch.directories w)) in *.
  pose proof (run_next_wait i b len Hb) as Hb'. unfold RingWatch.run_next in Hb' |- *. cbn [fst snd] in Hb'.
  set (b' := if (b <? 3000)%nat then _ else b) in *.
  destruct (IH ((i + 1) mod len)%nat b' w1 Hlive) as (atts & -> & Hlen & Hatts);
    [rewrite Hd; apply Nat.mod_upper_bound; lia|exact Hb'|]. bind_step.
  eexists. split; [reflexivity|]. split; [cbn; lia|]. rewrite Hd in Hatts. fold len in Hatts.
  intros [|n] att Hatt; cbn in Hatt.
  - injection Hatt as <-. rewrite Nat.add_0_r, Nat.mod_small by done. done.
  - destruct (Hatts n att Hatt) as [Hdir Hw]. split; [|done].
    rewrite <-Hdir. f_equal. rewrite Nat.Div0.add_mod_idemp_l. f_equal. lia.
Qed.

(** The ring of a watcher never goes back while no stream carries epoch zero. *)
Lemma watch_one_epoch st (w : Watcher) :
  (∀ rs r, st = Received rs → r ∈ rs → ring_Epoch r ≠ 0) →
  RingWatch.Epoch w ≤ RingWatch.Epoch (watch_one st w) ∧
  (∀ rs r, st = Received rs → r ∈ rs → ring_Epoch r ≤ RingWatch.Epoch (watch_one st w)).
Proof.
  intros Hne. destruct st as [| |rs]; [split; [simpl; lia|done]..|]. simpl.
  rewrite RingWatch.watchOne_epoch by eauto. clear Hne.
  assert (∀ e es, e ≤ foldr N.max e es ∧ ∀ x, x ∈ es → x ≤ foldr N.max e es) as Hmax.
  { intros e es. induction es as [|y es [IH1 IH2]]; simpl; [split; [lia|set_solver]|].
    split; [lia|]. intros x [->|Hx]%elem_of_cons; [lia|]. specialize (IH2 x Hx). lia. }
  destruct (Hmax (RingWatch.Epoch w) (ring_Epoch <$> rs)) as [M1 M2]. split; [done|].
  intros rs' r Heq Hr. injection Heq as <-. apply M2, list_elem_of_fmap. eauto.
Qed.

Lemma watch_fold_epoch its (w : Watcher) :
  (∀ it rs r, it ∈ its → it_stream it = Received rs → r ∈ rs → ring_Epoch r ≠ 0) →
  let w' := foldl (λ w it, watch_one (it_stream it) w) w its in
  RingWatch.Epoch w ≤ RingWatch.Epoch w' ∧
  (∀ it rs r, it ∈ its → it_stream it = Received rs → r ∈ rs → ring_Epoch r ≤ RingWatch.Epoch w').
Proof.
  revert w. induction its as [|it its IH]; intros w Hne; cbn [foldl]; [split; [lia|set_solver]|].
  destruct (watch_one_epoch (it_stream it) w) as [H1 H2]; [intros; eapply Hne; [by left|done..]|].
  destruct (IH (watch_one (it_stream it) w)) as [H3 H4]; [intros; eapply Hne; [by right|done..]|].
  split; [lia|]. intros it' rs r [->|Hin]%elem_of_cons Hs Hr; [|by eauto]. specialize (H2 rs r Hs Hr). lia.
Qed.

(** C30. A watcher finds every directory that can be reached: whatever fails, a running
    watcher does not panic, tries the directories strictly in turn, so that [n]
    iterations over [n] directories try each of them, waits at most 3.2 seconds
    between two tries.  While no ring of epoch 0 arrives, it is afterwards at least at
    the epoch of every ring any of them sent; a ring of epoch 0 passes the stale guard
    and sets the watcher back ([RingWatch.epoch_zero_replaces_ring] shows it).  Without
    directories it panics at once. *)
Theorem watcher_recovers dirs dial its :
  Forall live its →
  (dirs = [] → its ≠ [] → watch_run its 0 100 (RingWatch.New dirs dial) = None) ∧
  (dirs ≠ [] →
   ∃ w atts, watch_run its 0 100 (RingWatch.New dirs dial) = Some (w, atts) ∧
     (∀ n att, atts !! n = Some att → dirs !! (n mod length dirs)%nat = Some (at_dir att) ∧ (at_wait att ≤ 3200)%nat) ∧
     ((length dirs ≤ length its)%nat → ∀ d, d ∈ dirs → ∃ att, att ∈ atts ∧ at_dir att = d) ∧
     ((∀ it rs r, it ∈ its → it_stream it = Received rs → r ∈ rs → ring_Epoch r ≠ 0) →
      ∀ it rs r, it ∈ its → it_stream it = Received rs → r ∈ rs → ring_Epoch r ≤ RingWatch.Epoch w)).
Proof.
  intros Hlive. split.
  { intros -> Hits. destruct its as [|it its]; [done|]. apply Forall_cons in Hlive as [[H1 _] _]. cbn [watch_run].
    by rewrite H1. }
  intros Hdirs. assert (0 < length dirs)%nat by (destruct dirs; [done|cbn; lia]).
  destruct (watch_run_spec its 0 100 (RingWatch.New dirs dial) Hlive) as (atts & Hrun & Hlen & Hatts);
    [done|unfold waits; by left|].
  exists (foldl (λ w it, watch_one (it_stream it) w) (RingWatch.New dirs dial) its), atts. split_and!; [done| | |intros Hne; by apply watch_fold_epoch].
  - intros n att Hatt. destruct (Hatts n att Hatt) as [Hd Hw]. split; [done|].
    unfold waits in Hw. repeat (apply elem_of_cons in Hw as [->|Hw]; [lia|]). by apply elem_of_nil in Hw.
  - intros Hle d Hd. apply list_elem_of_lookup in Hd as [n Hn]. pose proof (lookup_lt_Some _ _ _ Hn).
    destruct (lookup_lt_is_Some_2 atts n) as [att Hatt]; [lia|]. exists att. split; [by eapply list_elem_of_lookup_2|].
    destruct (Hatts n att Hatt) as [Hd _]. cbn in Hd. rewrite Nat.mod_small in Hd by done. congruence.
Qed.

(** ** A node dies *)
Section failover.
Context (Marshal : ClusterCommand → option bytes) (Unmarshal : bytes → option ClusterCommand).
Context (Hcodec : ∀ c b, Marshal c = Some b → Unmarshal b = Some c) (now : N → Z).
Context {S : Type} `{!BlockStore.Store S, !BlockStore.StoreSpec S}.

(** Filtering out one key is deleting it. *)
Lemma filter_delete {A} (m : gmap string A) (f : string → bool) x :
  (∀ id, is_Some (m !! id) → f id = bool_decide (id = x)) →
  filter (λ kv, f kv.1 = false) m = delete x m.
Proof.
  intros Hf. apply map_eq. intros k. apply option_eq. intros i.
  rewrite map_lookup_filter_Some, lookup_delete_Some. cbn [fst]. split.
  - intros [Hk Hd]. split; [|done]. intros <-. rewrite Hf, bool_decide_true in Hd by (done || by eexists). done.
  - intros [Hne Hk]. split; [done|]. rewrite Hf by (by eexists). by apply bool_decide_eq_false.
Qed.

(** C8. The loss of a node is masked from end to end.  A member has been silent for
    longer than [DeadAfter] and a majority of the replicas suspects it, and no other
    member.  One tick of a replica's failure detector (on a quiet network) takes it
    out of the membership; the first message of a ring stream from that replica moves
    a gateway that was not ahead to a ring without it and closes the connection; and
    every chain whose blocks were stored at their owners before is matched in full on
    the new ring, whatever the dead node does, as long as the other members answer
    and have not moved past the new epoch. *)
Theorem node_loss_masked dcfg noop t answers env s x info (w : Watcher) sched rf req (cl : @Gateway.cluster S) :
  let cfg := paxos_config Unmarshal dcfg noop in
  let M := members (server_sm s) in
  (∀ id, is_Some (M !! id) → is_Some (Marshal (NodeDead id)) ∧ quiet cfg (env id)) →
  clear_ahead (log s) → applied (log s) + N.of_nat (size M) < two64 - 1 →
  epoch (server_sm s) + N.of_nat (size M) < two64 - 1 → (∀ id i, M !! id = Some i → NodeId i = id) →
  M !! x = Some info → (2 ≤ size M)%nat →
  (∀ id, is_Some (M !! id) → doomed (server_hb s) t answers id = bool_decide (id = x)) →
  RingWatch.conns_inv w → RingWatch.dialNodes w = true → (∀ a, is_Some (NewClient a)) →
  RingWatch.Epoch w ≤ epoch (server_sm s) →
  (∀ l, sched l ≡ₚ l) → (2 ≤ rf)%nat → Forall (λ id, length id = Chain.HashSize) (pmv1.mreq_Chain req) →
  GatewayProps.cluster_wf cl →
  (∀ id O o, id ∈ pmv1.mreq_Chain req →
     HashRing.Owners (RingWatch.hash_ring (GetRing s)) id (Z.of_nat rf) = Some O → o ∈ O → GatewayProps.holds cl o id) →
  let s' := detector_tick Marshal Unmarshal now cfg t answers env s in
  (∀ n, is_Some (M !! n) → n ≠ x → Gateway.up cl n = true ∧
     CacheNode.checkEpoch (Gateway.node_epoch cl n) (epoch (server_sm s')) = Ok tt) →
  ∃ r new, (watch_send 0 (server_sm s')).2 = Some r ∧
    let w' := (RingWatch.apply NewClient r w).1 in
    RingWatch.ring w' = Some new ∧ HashRing.addrs new = delete x (Addr <$> M) ∧
    RingWatch.Client w' x = None ∧
    ∃ cl' resp we, Gateway.matchOnRing sched rf new (λ n, bool_decide (is_Some (RingWatch.Client w' n))) req cl =
        Some (cl', resp, we) ∧
      pmv1.MatchedDepth resp = u32 (N.of_nat (length (pmv1.mreq_Chain req))).
Proof.
  intros cfg M Henv Hclear Hlt He Hids Hx Hsz Hdoom Hconn Hdial Hdials Hep Hsched Hrf Hreq Hwf Hstored s' Hup.
  destruct (detector_evicts Marshal Unmarshal Hcodec now dcfg noop t answers env s Henv Hclear Hlt He) as [HM Hgt].
  fold cfg in HM, Hgt. fold s' in HM, Hgt.
  fold M in HM. rewrite (filter_delete M _ x Hdoom) in HM. rename HM into HM'.
  assert (epoch (server_sm s) < epoch (server_sm s')) as Hlt'.
  { apply Hgt. rewrite HM'. intros Heq. fold M in Heq. by rewrite <-Heq, lookup_delete_eq in Hx. }
  set (r := Directory.Ring (server_sm s')). exists r, (RingWatch.hash_ring r).
  assert (RingWatch.node_map r = delete x (Addr <$> M)) as Hnm.
  { unfold r. unfold Directory.Ring. rewrite RingWatch.node_map_Ring_from; [|done|].
    - by rewrite HM', fmap_delete.
    - intros id i. rewrite HM'. intros [_ Hi]%lookup_delete_Some. by apply Hids. }
  assert (HashRing.addrs (RingWatch.hash_ring r) = delete x (Addr <$> M)) as Hadr.
  { unfold RingWatch.hash_ring. by rewrite HashRing.addrs_New. }
  assert (ring_Epoch r = epoch (server_sm s')) as Hre by done.
  destruct (RingWatch.apply_newer NewClient r w) as (Hring & Hd' & Hacc); [lia|].
  pose proof (RingWatch.conns_inv_apply NewClient r w Hconn) as [_ Hmem].
  rewrite Hd', Hring in Hmem. specialize (Hmem Hdial).
  assert (watch_send 0 (server_sm s') = (epoch (server_sm s'), Some r)) as ->.
  { unfold watch_send. cbn. by rewrite andb_false_r. }
  split; [done|]. cbv zeta. split_and!; [done|done| |].
  { apply eq_None_not_Some. intros (cur & [= <-] & Hin)%Hmem. rewrite Hadr, lookup_delete_eq in Hin. by destruct Hin. }
  unfold RingWatch.hash_ring. rewrite Hnm.
  apply (GatewayProps.match_across_rings sched rf (epoch (server_sm s)) _ (delete x (Addr <$> M)) _ _ req cl x (Addr info) false);
    try done.
  - intros Hnil. apply (f_equal size) in Hnil. rewrite map_size_delete, map_size_empty, lookup_fmap, Hx, map_size_fmap in Hnil.
    cbn in Hnil. lia.
  - by rewrite lookup_delete_eq.
  - intros id O o Hid HO Ho. apply (Hstored id O o Hid); [|done]. rewrite <-HO. unfold RingWatch.hash_ring.
    unfold GetRing, Directory.Ring. rewrite RingWatch.node_map_Ring_from by done.
    rewrite insert_delete_id; [done|]. by rewrite lookup_fmap, Hx.
  - intros n Hn. rewrite <-Hnm in Hn. pose proof (RingWatch.apply_dials NewClient r w Hconn Hdial Hdials Hacc n Hn) as Hc.
    rewrite Hnm, lookup_delete_is_Some, lookup_fmap, fmap_is_Some in Hn. destruct Hn as [Hne Hn].
    destruct (Hup n Hn (not_eq_sym Hne)) as [??]. split_and!; [by apply bool_decide_eq_true|done|done].
Qed.
End failover.
End watch.

(** ** Witnesses: two members, cn-1 silent for nine seconds *)
Definition demo_members : gmap string NodeInfo :=
  {["cn-1" := MkNodeInfo "cn-1" "a:1" 0; "cn-2" := MkNodeInfo "cn-2" "b:1" 0]}.
Definition demo_dir : node :=
  MkNode 0 (MkLog ∅ 0 0 (MkSM 3 demo_members ∅ ∅,
    MkHB 1500000000 {["cn-1" := 0%Z; "cn-2" := 8500000000%Z]})).
Abbreviation demo_cfg := (paxos_config demo_Unmarshal demo_dcfg [x06]).
Abbreviation demo_answers := (λ _ : string, [Some true; None]).

Lemma demo_members_cases id i :
  demo_members !! id = Some i → id = "cn-1" ∧ i = MkNodeInfo "cn-1" "a:1" 0 ∨ id = "cn-2" ∧ i = MkNodeInfo "cn-2" "b:1" 0.
Proof.
  unfold demo_members. rewrite lookup_insert_Some, lookup_singleton_Some.
  intros [[<- <-]|(_ & <- & <-)]; auto.
Qed.
Lemma demo_quiet : quiet demo_cfg demo_env.
Proof. constructor; try reflexivity; [|vm_compute; lia..]. intros r. simpl. set_solver. Qed.
Lemma demo_members_addrs : Addr <$> demo_members = GatewayProps.demo_nodes.
Proof. vm_compute. reflexivity. Qed.
Lemma demo_doomed id :
  is_Some (demo_members !! id) → doomed (server_hb demo_dir) 9000000000 demo_answers id = bool_decide (id = "cn-1").
Proof. intros [i [[-> _]|[-> _]]%demo_members_cases]; vm_compute; reflexivity. Qed.

Lemma demo_dir_owners id O o :
  length id = Chain.HashSize → HashRing.Owners (RingWatch.hash_ring (GetRing demo_dir)) id (Z.of_nat 2) = Some O →
  o ∈ O → o = "cn-1" ∨ o = "cn-2".
Proof.
  unfold RingWatch.hash_ring, GetRing, Directory.Ring. rewrite RingWatch.node_map_Ring_from;
    [|done|by intros ?? [[-> ->]|[-> ->]]%demo_members_cases].
  change (members (server_sm demo_dir)) with demo_members. rewrite demo_members_addrs.
  change (ring_Epoch _) with 3. generalize (Z.of_N (ring_VnodesPerNode
    (Ring_from (map_to_list demo_members) (server_sm demo_dir)))). intros vpn Hid HO Ho.
  destruct (GatewayProps.owners_of_id 3 GatewayProps.demo_nodes vpn 2 id Hid) as (HO' & _ & _ & Hm).
  apply GatewayProps.demo_nodes_cases, Hm. congruence.
Qed.

Lemma detector_evicts_witness :
  members (server_sm (detector_tick demo_Marshal demo_Unmarshal (λ _, 0%Z) demo_cfg 9000000000 demo_answers
    (λ _, demo_env) demo_dir)) = delete "cn-1" demo_members.
Proof.
  destruct (detector_evicts demo_Marshal demo_Unmarshal demo_codec (λ _, 0%Z) demo_dcfg [x06] 9000000000 demo_answers
    (λ _, demo_env) demo_dir) as [H _].
  - intros id _. split; [by eexists|apply demo_quiet].
  - intros i _. apply lookup_empty.
  - vm_compute. reflexivity.
  - vm_compute. reflexivity.
  - rewrite H. apply (filter_delete demo_members). apply demo_doomed.
Defined.

(** The first directory is down; the second sends epochs 2 and 3. *)
Lemma watcher_recovers_witness :
  ∃ w atts, watch_run (λ a : string, Some a)
      [MkIteration false DialFailed false;
       MkIteration false (Received [RingWatch.ring_of 2 []; RingWatch.ring_of 3 []]) false] 0 100
      (RingWatch.New ["d1"; "d2"] false) = Some (w, atts) ∧ 3 ≤ RingWatch.Epoch w ∧
    (∃ att, att ∈ atts ∧ at_dir att = "d2").
Proof.
  destruct (watcher_recovers (λ a : string, Some a) ["d1"; "d2"] false
    [MkIteration false DialFailed false;
     MkIteration false (Received [RingWatch.ring_of 2 []; RingWatch.ring_of 3 []]) false])
    as [_ (w & atts & Hrun & _ & Htried & Hepoch)].
  - repeat constructor.
  - done.
  - exists w, atts. split_and!; [exact Hrun| |apply Htried; [done|set_solver]].
    eapply (Hepoch _ _ _ (RingWatch.ring_of 3 [])); [by right; left|reflexivity|by right; left].
    Unshelve. intros it rs r Hit. repeat (apply elem_of_cons in Hit as [->|Hit]); [done| |by apply elem_of_nil in Hit].
    intros [= <-]. set_solver.
Defined.

(** cn-1 holds a copy of the block and dies; the gateway moves from its first ring to
    the one without it and still matches the chain. *)
Lemma node_loss_masked_witness :
  ∃ r new,
    (watch_send 0 (server_sm (detector_tick demo_Marshal demo_Unmarshal (λ _, 0%Z) demo_cfg 9000000000
       demo_answers (λ _, demo_env) demo_dir))).2 = Some r ∧
    RingWatch.ring (RingWatch.apply (λ a : string, Some a) r (RingWatch.New ["d1"] true)).1 = Some new ∧
    HashRing.addrs new = delete "cn-1" (Addr <$> demo_members).
Proof.
  destruct (node_loss_masked (λ a : string, Some a) demo_Marshal demo_Unmarshal demo_codec (λ _, 0%Z) demo_dcfg [x06]
    9000000000 demo_answers (λ _, demo_env) demo_dir "cn-1" (MkNodeInfo "cn-1" "a:1" 0) (RingWatch.New ["d1"] true)
    (λ l, l) 2 GatewayProps.demo_req (GatewayProps.demo_cluster "cn-1")) as (r & new & H1 & H2 & H3 & _).
  - intros id _. split; [by eexists|apply demo_quiet].
  - intros i _. apply lookup_empty.
  - vm_compute. reflexivity.
  - vm_compute. reflexivity.
  - intros id i [[-> ->]|[-> ->]]%demo_members_cases; reflexivity.
  - reflexivity.
  - vm_compute. lia.
  - apply demo_doomed.
  - apply RingWatch.conns_inv_New.
  - reflexivity.
  - intros a. by eexists.
  - vm_compute. discriminate.
  - reflexivity.
  - lia.
  - apply GatewayProps.demo_ids.
  - apply GatewayProps.demo_cluster_wf.
  - intros id O o [->|[]%elem_of_nil]%elem_of_cons HO Ho. apply GatewayProps.demo_holds.
    exact (demo_dir_owners (CacheNode.demo_id x01) O o eq_refl HO Ho).
  - intros n Hn Hne. destruct Hn as [i [[-> _]|[-> _]]%demo_members_cases]; [done|]. split; [reflexivity|].
    vm_compute. reflexivity.
  - exists r, new. split_and!; [exact H1|exact H2|exact H3].
Defined.
End Failover.
