(* ===== verification/PutMatch.v ===== *)
(** * Write, then match: src/internal/gateway/server.go end to end

    [PutBlocks] and [Match] composed over a cluster: the blocks a client writes back
    are found again by the next match, because both sides compute the same owners.
    Proved against the store interface with room ([BlockStore.StoreRoom]), which the
    plain and the paged store implement. *)

From S2P Require Import Prelude Proto BlockStore LRU Chain HashRing CacheNode Gateway GatewayProps.

Module PutMatch.
Import Gateway GatewayProps.
Local Open Scope N_scope.

Section put_match.
Context {S : Type} `{!BlockStore.Store S, !BlockStore.StoreSpec S, !BlockStore.StoreRoom S}.
Implicit Types (cl : @cluster S) (pbs : list pmv1.Block) (bs : list BlockStore.Block).

(** The blocks a list of messages decodes to. *)
Definition decodes pbs bs : Prop := Forall2 (λ pb b, CacheNode.fromProto (Some pb) = Ok b) pbs bs.

Lemma fromProto_ID pb b : CacheNode.fromProto (Some pb) = Ok b → BlockStore.ID b = pmv1.BlockId pb.
Proof.
  unfold CacheNode.fromProto. cbn. unfold CacheNode.toID.
  destruct (decide (length (pmv1.BlockId pb) = _)); simpl; [|done].
  destruct (decide (length (pmv1.ParentId pb) = _)); simpl; [|done]. by intros [= <-].
Qed.

(** One node with room: every block of the stream is there afterwards, and nothing
    that was there is gone. *)
Lemma put_loop_room epoch e pbs bs a x s :
  BlockStore.store_wf s → CacheNode.checkEpoch epoch e = Ok tt → decodes pbs bs →
  Forall BlockStore.payload_ok bs → BlockStore.room s bs →
  ∃ s' resp, CacheNode.put_loop epoch ((λ b, pmv1.MkCachePutRequest e (Some b)) <$> pbs) None a x s =
      Some (s', Ok resp) ∧ BlockStore.store_wf s' ∧ BlockStore.view s ⊆ BlockStore.view s' ∧
    ∀ pb, pb ∈ pbs → is_Some (BlockStore.view s' !! pmv1.BlockId pb).
Proof.
  intros Hwf He Hdec. revert a x s Hwf. induction Hdec as [|pb b pbs bs Hb Hdec IH];
    intros a x s Hwf Hok Hroom; cbn [fmap list_fmap CacheNode.put_loop].
  { eexists s, _. split_and!; [done|done|done|set_solver]. }
  cbn [pmv1.preq_RingEpoch pmv1.preq_Block]. rewrite He, Hb. apply Forall_cons in Hok as [Hpb Hok].
  destruct (BlockStore.Put_room s b bs Hwf Hpb Hroom) as (s1 & st & -> & Hwf1 & Hroom1 & Hsub1 & Hin1).
  bind_step.
  assert (∃ a' x', (if st then CacheNode.put_loop epoch ((λ b, pmv1.MkCachePutRequest e (Some b)) <$> pbs) None (u32 (a + 1)) x s1
    else CacheNode.put_loop epoch ((λ b, pmv1.MkCachePutRequest e (Some b)) <$> pbs) None a (u32 (x + 1)) s1) =
    CacheNode.put_loop epoch ((λ b, pmv1.MkCachePutRequest e (Some b)) <$> pbs) None a' x' s1) as (a' & x' & ->).
  { destruct st; eauto. }
  destruct (IH a' x' s1 Hwf1 Hok Hroom1) as (s' & resp & -> & Hwf' & Hsub & Hin).
  exists s', resp. split_and!; [done|done|by etrans|]. intros pb' [->|Hpb']%elem_of_cons; [|by apply Hin].
  rewrite <-(fromProto_ID pb b) by done. destruct Hin1 as [c Hc]. exists c. by eapply lookup_weaken.
Qed.

(** ** The fan-out of [PutBlocks] *)

(** What the uploads need of a node: reachable, with a store that has room for what
    it is sent. *)
Definition ready cl (epoch : N) (client : string → bool) (n : string) (pbs : list pmv1.Block) : Prop :=
  client n = true ∧ up cl n = true ∧ CacheNode.checkEpoch (node_epoch cl n) epoch = Ok tt ∧
  ∃ s bs, stores cl !! n = Some s ∧ decodes pbs bs ∧ Forall BlockStore.payload_ok bs ∧ BlockStore.room s bs.

Lemma put_one_ready cl epoch client a x n pbs :
  cluster_wf cl → ready cl epoch client n pbs →
  ∃ s' a' x', put_one epoch client (cl, a, x) (n, pbs) = (with_store cl n s', a', x') ∧
    BlockStore.store_wf s' ∧ ∀ pb, pb ∈ pbs → is_Some (BlockStore.view s' !! pmv1.BlockId pb).
Proof.
  intros Hwf (Hc & Hu & He & s & bs & Hs & Hdec & Hok & Hroom). unfold put_one. rewrite Hc, Hu, Hs. cbn [andb].
  destruct (put_loop_room (node_epoch cl n) epoch pbs bs 0 0 s (Hwf n s Hs) He Hdec Hok Hroom)
    as (s' & resp & Heq & Hwf' & _ & Hin).
  unfold CacheNode.PutBlocks. rewrite Heq. eauto 7.
Qed.

Lemma put_all_ready l cl epoch client a x :
  cluster_wf cl → NoDup l.*1 → (∀ n pbs, (n, pbs) ∈ l → ready cl epoch client n pbs) →
  ∃ cl' a' x', foldl (put_one epoch client) (cl, a, x) l = (cl', a', x') ∧ cluster_wf cl' ∧
    node_epoch cl' = node_epoch cl ∧ up cl' = up cl ∧
    (∀ n, n ∉ l.*1 → stores cl' !! n = stores cl !! n) ∧
    (∀ n pbs pb, (n, pbs) ∈ l → pb ∈ pbs → holds cl' n (pmv1.BlockId pb)).
Proof.
  revert cl a x. induction l as [|[n pbs] l IH]; intros cl a x Hwf Hnd Hready; cbn [foldl].
  { eexists _, _, _. split_and!; try done. set_solver. }
  cbn in Hnd. apply NoDup_cons in Hnd as [Hn Hnd].
  destruct (put_one_ready cl epoch client a x n pbs Hwf) as (s' & a1 & x1 & Heq1 & Hwf1 & Hin1);
    [apply Hready; by left|]. rewrite Heq1.
  destruct (IH (with_store cl n s') a1 x1) as (cl' & a' & x' & Heq & Hwf' & He' & Hu' & Hother & Hholds).
  - intros m s Hs. simpl in Hs. apply lookup_insert_Some in Hs as [[<- <-]|[_ Hs]]; [done|by eapply Hwf].
  - done.
  - intros m pbs' Hm. destruct (Hready m pbs' ltac:(by right)) as (Rc & Ru & Re & s & bs & Rs & Rb).
    split_and!; [done|done|done|]. exists s, bs. split; [|done]. simpl. rewrite lookup_insert_ne; [done|].
    intros ->. apply Hn. apply list_elem_of_fmap. by exists (m, pbs').
  - exists cl', a', x'. split_and!; [done|done|done|done| |].
    + intros m Hm. cbn in Hm. rewrite Hother by set_solver. simpl. rewrite lookup_insert_ne; [done|set_solver].
    + intros m pbs' pb [Hm|Hm]%elem_of_cons Hpb; [|by eapply Hholds].
      injection Hm as -> ->. unfold holds, contents. rewrite Hother by done. simpl. rewrite lookup_insert_eq.
      eexists. split; [done|]. by apply Hin1.
Qed.

(** ** Routing *)
Lemma decodes_sublist pbs bs l :
  decodes pbs bs → l `sublist_of` pbs → ∃ bs', decodes l bs' ∧ bs' `sublist_of` bs.
Proof.
  intros Hdec Hsub. revert bs Hdec. induction Hsub as [|pb l k Hsub IH|pb l k Hsub IH]; intros bs Hdec.
  - exists []. split; [constructor|apply sublist_nil_l].
  - inv Hdec as [|? b ? bs0 Hb Hdec0]. destruct (IH bs0 Hdec0) as (bs' & Hb1 & Hb2).
    exists (b :: bs'). split; [by constructor|by constructor].
  - inv Hdec as [|? b ? bs0 Hb Hdec0]. destruct (IH bs0 Hdec0) as (bs' & Hb1 & Hb2).
    exists bs'. split; [done|by constructor].
Qed.

(** The upload map has no empty entries. *)
Lemma put_route_nonempty rf reqs (m m' : gmap string (list pmv1.Block)) :
  put_route rf reqs m = Some (Ok m') → map_Forall (λ _ l, l ≠ []) m → map_Forall (λ _ l, l ≠ []) m'.
Proof.
  revert m. induction reqs as [|[[b|] ring] reqs IH]; intros m; cbn [put_route].
  - by intros [= <-].
  - destruct (decide _); [|done]. destruct ring as [ring|]; [|apply IH].
    destruct (HashRing.Size ring =? 0)%nat; [apply IH|].
    destruct (HashRing.Owners ring _ _) as [os|]; [|done]. bind_step. intros Heq Hm.
    apply (IH _ Heq). clear Heq. revert m Hm. induction os as [|o os IHo]; intros m Hm; simpl; [done|].
    apply IHo. apply map_Forall_insert_2; [|done]. intros [_ ?]%app_eq_nil. done.
  - done.
Qed.

Lemma routes_sublist rf n ring pbs :
  omap (routes_to rf n) ((λ b, (Some b, Some ring)) <$> pbs) `sublist_of` pbs.
Proof.
  induction pbs as [|pb pbs IH]; [done|]. rewrite fmap_cons. cbn [omap list_omap].
  unfold routes_to at 1. destruct (HashRing.Owners ring _ _) as [os|]; [|by constructor].
  destruct (bool_decide (n ∈ os)); by constructor.
Qed.

Lemma decodes_ids pbs bs pb : decodes pbs bs → pb ∈ pbs → length (pmv1.BlockId pb) = Chain.HashSize.
Proof.
  intros Hdec [i Hpb]%list_elem_of_lookup. destruct (Forall2_lookup_l _ _ _ _ _ Hdec Hpb) as (b & _ & Hb).
  unfold CacheNode.fromProto, CacheNode.toID in Hb. cbn in Hb. by destruct (decide (length (pmv1.BlockId pb) = _)).
Qed.

Section stable_ring.
Context (rf : nat) (e : N) (nodes : gmap string string) (vpn : Z) (client : string → bool) (cl : @cluster S).
Context (pbs : list pmv1.Block) (bs : list BlockStore.Block).
Context (Hwf : cluster_wf cl) (Hdec : decodes pbs bs) (Hok : Forall BlockStore.payload_ok bs).
Let ring := HashRing.New e nodes vpn.
Let reqs : list (option pmv1.Block * option HashRing.Ring) := (λ b, (Some b, Some ring)) <$> pbs.
Context (Hnodes : ∀ n, is_Some (nodes !! n) → reachable cl ring client n ∧
  ∃ s, stores cl !! n = Some s ∧ BlockStore.room s bs).

(** Only members are sent anything, and what they are sent fits. *)
Lemma upload_ready n l : l = omap (routes_to rf n) reqs → l ≠ [] → ready cl e client n l.
Proof using Hok Hdec Hnodes.
  intros Heq Hnil.
  assert (is_Some (nodes !! n)) as Hmem.
  { destruct l as [|pb l]; [done|]. assert (pb ∈ pb :: l) as Hpb by (by left). rewrite Heq in Hpb.
    apply list_elem_of_omap in Hpb as (rq & (pb' & -> & Hpb')%list_elem_of_fmap & Hrt). simpl in Hrt.
    destruct (owners_of_id e nodes vpn rf (pmv1.BlockId pb') (decodes_ids _ _ _ Hdec Hpb')) as (HO & _ & _ & Hmem).
    unfold ring in Hrt. rewrite HO in Hrt. apply Hmem.
    destruct (bool_decide _) eqn:Hb; [|done]. by apply bool_decide_eq_true in Hb. }
  destruct (Hnodes n Hmem) as ((Hc & Hu & He) & s & Hs & Hroom).
  destruct (decodes_sublist pbs bs l Hdec) as (bs' & Hdec' & Hsub).
  { rewrite Heq. apply routes_sublist. }
  split_and!; [done|done|exact He|]. exists s, bs'. split_and!; [done|done| |eapply BlockStore.room_submseteq; [by apply sublist_submseteq|done]].
  rewrite Forall_forall in *. intros b Hb. apply Hok. by eapply elem_of_sublist.
Qed.

Lemma PutBlocks_holds sched :
  (∀ l, sched l ≡ₚ l) →
  ∃ cl1 put_resp, PutBlocks sched rf reqs (MkSnapshot (Some ring) client) cl = Some (cl1, Ok put_resp) ∧
    cluster_wf cl1 ∧ node_epoch cl1 = node_epoch cl ∧ up cl1 = up cl ∧
    ∀ pb O o, pb ∈ pbs → HashRing.Owners ring (pmv1.BlockId pb) (Z.of_nat rf) = Some O → o ∈ O →
      holds cl1 o (pmv1.BlockId pb).
Proof using Hwf Hok Hdec Hnodes.
  intros Hsched. destruct (put_route_spec rf reqs ∅) as (m & Hroute & Hm).
  { apply Forall_fmap, Forall_forall. intros pb Hpb. split; [by eapply decodes_ids|].
    intros r [= <-]. apply HashRing.New_wf. }
  pose proof (put_route_nonempty _ _ _ _ Hroute (map_Forall_empty _)) as Hnonempty.
  destruct (put_all_ready (sched (map_to_list m)) cl e client 0 0 Hwf)
    as (cl1 & a & x & Hput & Hwf1 & He1 & Hu1 & Hst1 & Hholds).
  { rewrite Hsched. apply NoDup_fst_map_to_list. }
  { intros n l. rewrite Hsched. intros Hin%elem_of_map_to_list.
    apply upload_ready; [|by eapply Hnonempty]. specialize (Hm n). by rewrite Hin, lookup_empty in Hm. }
  unfold PutBlocks. rewrite Hroute. cbn [mbind option_bind s_ring s_client].
  change (HashRing.Epoch ring) with e. rewrite Hput. eexists cl1, _. split_and!; try done.
  intros pb O o Hpb HO Ho.
  assert (pb ∈ omap (routes_to rf o) reqs) as Hin.
  { apply list_elem_of_omap. exists (Some pb, Some ring). split; [apply list_elem_of_fmap; eauto|].
    simpl. rewrite HO. by rewrite bool_decide_eq_true_2. }
  specialize (Hm o). rewrite lookup_empty in Hm. simpl in Hm. rewrite <-Hm in Hin.
  destruct (m !! o) as [l|] eqn:Hmo; simpl in Hin; [|set_solver].
  eapply (Hholds o l); [|done]. rewrite Hsched. by apply elem_of_map_to_list.
Qed.
End stable_ring.

(** ** Property *)

(** C6. Write, then match: on a ring whose members are reachable and have room, a chain
    of blocks sent through [PutBlocks] is stored at all of its owners, so the next
    [Match] of that chain is a full hit, whatever order the uploads and the probes
    run in and whatever the stores held before. *)
Theorem put_then_match sched sched' rf e nodes vpn client req pbs bs cl :
  (∀ l, sched l ≡ₚ l) → (∀ l, sched' l ≡ₚ l) → (1 ≤ rf)%nat → nodes ≠ ∅ →
  cluster_wf cl → decodes pbs bs → Forall BlockStore.payload_ok bs →
  pmv1.mreq_Chain req = pmv1.BlockId <$> pbs →
  let ring := HashRing.New e nodes vpn in
  (∀ n, is_Some (nodes !! n) → reachable cl ring client n ∧
     ∃ s, stores cl !! n = Some s ∧ BlockStore.room s bs) →
  ∃ cl1 put_resp cl2 resp we,
    PutBlocks sched rf ((λ b, (Some b, Some ring)) <$> pbs) (MkSnapshot (Some ring) client) cl =
      Some (cl1, Ok put_resp) ∧
    (∀ pb O o, pb ∈ pbs → HashRing.Owners ring (pmv1.BlockId pb) (Z.of_nat rf) = Some O → o ∈ O →
       holds cl1 o (pmv1.BlockId pb)) ∧
    matchOnRing sched' rf ring client req cl1 = Some (cl2, resp, we) ∧
    pmv1.MatchedDepth resp = u32 (N.of_nat (length pbs)).
Proof.
  intros Hsched Hsched' Hrf Hne Hwf Hdec Hok Hchain ring Hnodes.
  destruct (PutBlocks_holds rf e nodes vpn client cl pbs bs Hwf Hdec Hok Hnodes sched Hsched)
    as (cl1 & pr & Hput & Hwf1 & He1 & Hu1 & Hstored).
  edestruct (match_full sched' rf e nodes vpn client req cl1 Hsched') as (cl2 & resp & we & Hmatch & Hdepth).
  - rewrite Hchain. apply Forall_fmap, Forall_forall. intros pb Hpb. by eapply decodes_ids.
  - done.
  - intros id Hid Hlen. rewrite Hchain in Hid. apply list_elem_of_fmap in Hid as (pb & -> & Hpb).
    destruct (owners_of_id e nodes vpn rf (pmv1.BlockId pb) Hlen) as (HO & _ & HlO & Hmem).
    destruct (take rf _) as [|o os] eqn:HOeq.
    { simpl in HlO. pose proof (proj2 (map_size_non_empty_iff nodes) Hne). lia. }
    exists o. split_and!; [by left| |by eapply Hstored; [done|exact HO|left]].
    destruct (Hnodes o) as [(Hc & Hu & He) _]; [apply Hmem; by left|].
    split_and!; [done|by rewrite Hu1|by rewrite He1].
  - eexists cl1, pr, cl2, resp, we. split_and!; [done|exact Hstored|exact Hmatch|].
    by rewrite Hdepth, Hchain, length_fmap.
Qed.
End put_match.

(** ** Witness: two blocks written to two empty nodes *)
Definition demo_pbs : list pmv1.Block :=
  CacheNode.toProto <$> [CacheNode.demo_block x01; CacheNode.demo_block x02].
Definition demo_cold : @cluster LRU.LRU :=
  MkCluster {["cn-1" := CacheNode.demo_node; "cn-2" := CacheNode.demo_node]} (λ _, Some 3) (λ _, true).
Definition demo_read : pmv1.MatchRequest :=
  pmv1.MkMatchRequest "m" [CacheNode.demo_id x01; CacheNode.demo_id x02].

Lemma demo_cold_wf : cluster_wf demo_cold.
Proof.
  intros n s. simpl. rewrite lookup_insert_Some, lookup_singleton_Some.
  intros [[_ <-]|[_ [_ <-]]]; apply CacheNode.demo_node_wf.
Qed.

Lemma put_then_match_witness :
  ∃ cl1 put_resp cl2 resp we,
    PutBlocks (λ l, reverse l) 2 ((λ b, (Some b, Some demo_ring)) <$> demo_pbs)
      (MkSnapshot (Some demo_ring) (λ _, true)) demo_cold = Some (cl1, Ok put_resp) ∧
    matchOnRing (λ l, l) 2 demo_ring (λ _, true) demo_read cl1 = Some (cl2, resp, we) ∧
    pmv1.MatchedDepth resp = 2.
Proof.
  destruct (put_then_match (λ l, reverse l) (λ l, l) 2 3 demo_nodes 2 (λ _, true) demo_read demo_pbs
    [CacheNode.demo_block x01; CacheNode.demo_block x02] demo_cold)
    as (cl1 & pr & cl2 & resp & we & H1 & _ & H2 & H3).
  - intros l. apply reverse_Permutation.
  - reflexivity.
  - lia.
  - discriminate.
  - exact demo_cold_wf.
  - repeat constructor.
  - repeat constructor.
  - reflexivity.
  - intros n [->| ->]%demo_nodes_cases; (split; [split; [|split]; reflexivity|]);
      exists CacheNode.demo_node; (split; [reflexivity|]); vm_compute; discriminate.
  - exists cl1, pr, cl2, resp, we. split; [exact H1|]. split; [exact H2|exact H3].
Defined.
End PutMatch.
