(* ===== verification/Events.v ===== *)
(** * The event plane: src/internal/events/{events,bus,kafka}.go

    Topics, and the in-memory [Bus]: one bounded channel per subscription, producers
    that never block, consumers that hand every received message to a handler.  Of
    the Kafka transport the consumer's loop is modelled; the client library's polls
    are its argument. *)

From S2P Require Import Prelude.

Module Events.
Local Open Scope N_scope.

Definition TopicAccess : string := "prefix.access.v1".
Definition TopicWarm : string := "cache.warm.v1".
Definition TopicTelemetry : string := "cache.telemetry.v1".

Record msg := MkMsg { key : bytes; value : bytes }.

(** A channel is an entry of [queues]: the messages sent and not yet received. *)
Record Bus := MkBus { subs : gmap string (list N); queues : gmap N (list msg) }.
Definition chan_cap : nat := 1024.

Definition NewBus : Bus := MkBus ∅ ∅.

(** [select { case ch <- m: default: }]. *)
Definition send (m : msg) (b : Bus) (ch : N) : Bus :=
  match queues b !! ch with
  | Some q => if (length q <? chan_cap)%nat then MkBus (subs b) (<[ch := q ++ [m]]> (queues b)) else b
  | None => b
  end.
Definition Produce (topic : string) (m : msg) (b : Bus) : Bus :=
  foldl (send m) b (default [] (subs b !! topic)).

Definition Subscribe (topic : string) (b : Bus) : N * Bus :=
  let ch := fresh (dom (queues b)) in
  (ch, MkBus (<[topic := default [] (subs b !! topic) ++ [ch]]> (subs b)) (<[ch := []]> (queues b))).

(** One iteration of [busConsumer.Run] that receives: the message handed to the
    handler. *)
Definition receive (ch : N) (b : Bus) : option msg * Bus :=
  match queues b !! ch with
  | Some (m :: q) => (Some m, MkBus (subs b) (<[ch := q]> (queues b)))
  | _ => (None, b)
  end.

(** ** [KafkaConsumer.Run]

    One entry per iteration: whether the context had ended before the poll, and what
    the poll returned: closed or cancelled, or a batch of records.  Fetch errors are
    logged only. *)
Record poll := MkPoll { p_done : bool; p_closed : bool; p_records : list msg }.
Fixpoint consumer_run {A} (handler : msg → A → A) (polls : list poll) (a : A) : A :=
  match polls with
  | [] => a
  | p :: polls =>
      if p_done p then a
      else if p_closed p then a
      else consumer_run handler polls (foldl (λ a m, handler m a) a (p_records p))
  end.

(** ** Executions: producers, subscriptions and receives in any order *)
Inductive bus_op := BProduce (topic : string) (m : msg) | BSubscribe (topic : string) | BReceive (ch : N).

(** The bus, and what was handled on every channel. *)
Definition bus_step (st : Bus * gmap N (list msg)) (o : bus_op) : Bus * gmap N (list msg) :=
  let '(b, h) := st in
  match o with
  | BProduce t m => (Produce t m b, h)
  | BSubscribe t => ((Subscribe t b).2, h)
  | BReceive ch =>
      match receive ch b with
      | (Some m, b) => (b, <[ch := default [] (h !! ch) ++ [m]]> h)
      | (None, b) => (b, h)
      end
  end.
Definition bus_run (ops : list bus_op) (st : Bus * gmap N (list msg)) : Bus * gmap N (list msg) :=
  foldl bus_step st ops.
Definition produced (t : string) (ops : list bus_op) : list msg :=
  omap (λ o, match o with BProduce t' m => if decide (t' = t) then Some m else None | _ => None end) ops.

(** ** Invariant: a channel belongs to one subscription of one topic *)
Record bus_wf (b : Bus) : Prop := {
  bw_queue : ∀ t cs ch, subs b !! t = Some cs → ch ∈ cs → is_Some (queues b !! ch);
  bw_nodup : ∀ t cs, subs b !! t = Some cs → NoDup cs;
  bw_topic : ∀ t t' cs cs' ch, subs b !! t = Some cs → subs b !! t' = Some cs' → ch ∈ cs → ch ∈ cs' → t = t'
}.

Lemma send_subs m b ch : subs (send m b ch) = subs b.
Proof. unfold send. destruct (queues b !! ch); [|done]. by destruct (_ <? _)%nat. Qed.

Lemma send_queue m b ch ch' :
  queues (send m b ch) !! ch' =
  if decide (ch' = ch)
  then (λ q, if (length q <? chan_cap)%nat then q ++ [m] else q) <$> queues b !! ch else queues b !! ch'.
Proof.
  unfold send. destruct (decide (ch' = ch)) as [->|Hne].
  - destruct (queues b !! ch) as [q|] eqn:Hq; simpl; [|done].
    destruct (_ <? _)%nat; simpl; [by rewrite lookup_insert_eq|done].
  - destruct (queues b !! ch) as [q|]; [|done]. destruct (_ <? _)%nat; simpl; [|done].
    by rewrite lookup_insert_ne.
Qed.

Lemma sends_spec m b cs :
  NoDup cs →
  subs (foldl (send m) b cs) = subs b ∧
  ∀ ch, queues (foldl (send m) b cs) !! ch =
    if decide (ch ∈ cs)
    then (λ q, if (length q <? chan_cap)%nat then q ++ [m] else q) <$> queues b !! ch else queues b !! ch.
Proof.
  revert b. induction cs as [|c cs IH]; intros b Hnd; simpl; [done|].
  apply NoDup_cons in Hnd as [Hc Hnd]. destruct (IH (send m b c) Hnd) as [-> Hq].
  split; [apply send_subs|]. intros ch. rewrite Hq, send_queue.
  destruct (decide (ch = c)) as [->|Hne].
  - rewrite decide_False by done. rewrite decide_True by (by left). done.
  - destruct (decide (ch ∈ cs)); [rewrite decide_True by (by right)|rewrite decide_False by set_solver]; done.
Qed.

Lemma Produce_spec t m b :
  bus_wf b →
  subs (Produce t m b) = subs b ∧
  ∀ ch, queues (Produce t m b) !! ch =
    if decide (ch ∈ default [] (subs b !! t))
    then (λ q, if (length q <? chan_cap)%nat then q ++ [m] else q) <$> queues b !! ch else queues b !! ch.
Proof.
  intros Hwf. apply sends_spec. destruct (subs b !! t) as [cs|] eqn:Hcs; simpl; [by eapply bw_nodup|constructor].
Qed.

Lemma Subscribe_fresh t b : queues b !! (Subscribe t b).1 = None.
Proof. apply not_elem_of_dom. unfold Subscribe. simpl. apply is_fresh. Qed.

Lemma NewBus_wf : bus_wf NewBus.
Proof. split; intros *; simpl; by rewrite ?lookup_empty. Qed.

Lemma Subscribe_wf t b : bus_wf b → bus_wf (Subscribe t b).2.
Proof.
  intros [H1 H2 H3]. pose proof (Subscribe_fresh t b) as Hf. unfold Subscribe in *. simpl in *.
  set (ch := fresh _) in *.
  assert (∀ t' cs, subs b !! t' = Some cs → ch ∉ cs) as Hnew.
  { intros t' cs Hcs Hin. destruct (H1 t' cs ch Hcs Hin) as [q Hq]. congruence. }
  assert (∀ t' cs, <[t := default [] (subs b !! t) ++ [ch]]> (subs b) !! t' = Some cs →
    (subs b !! t' = Some cs ∧ t' ≠ t) ∨ (t' = t ∧ cs = default [] (subs b !! t) ++ [ch])) as Hcases.
  { intros t' cs. rewrite lookup_insert_Some. naive_solver. }
  assert (∀ t' cs c, <[t := default [] (subs b !! t) ++ [ch]]> (subs b) !! t' = Some cs → c ∈ cs →
    (c = ch ∧ t' = t) ∨ (c ≠ ch ∧ ∃ cs', subs b !! t' = Some cs' ∧ c ∈ cs')) as Hin.
  { intros t' cs c [[Hcs _]|[-> ->]]%Hcases Hc.
    - right. split; [intros ->; by eapply Hnew|eauto].
    - apply elem_of_app in Hc as [Hc|Hc%list_elem_of_singleton]; [|by left]. right.
      destruct (subs b !! t) as [cs|] eqn:Hcs; simpl in Hc; [|set_solver].
      split; [intros ->; by eapply Hnew|eauto]. }
  split; simpl.
  - intros t' cs c Hcs Hc. destruct (Hin t' cs c Hcs Hc) as [[-> _]|[Hne (cs' & Hcs' & Hc')]].
    + rewrite lookup_insert_eq. by eexists.
    + rewrite lookup_insert_ne by done. by eapply H1.
  - intros t' cs [[Hcs _]|[-> ->]]%Hcases; [by eapply H2|].
    destruct (subs b !! t) as [cs|] eqn:Hcs; simpl; [|apply NoDup_singleton].
    apply NoDup_app. split_and!; [by eapply H2| |apply NoDup_singleton].
    intros c Hc ->%list_elem_of_singleton. by eapply Hnew.
  - intros t1 t2 cs1 cs2 c Hc1 Hc2 Hi1 Hi2.
    destruct (Hin _ _ _ Hc1 Hi1) as [[-> ->]|[Hn (c1 & ? & ?)]], (Hin _ _ _ Hc2 Hi2) as [[? ->]|[Hn2 (c2 & ? & ?)]];
      try done. by eapply (H3 t1 t2 c1 c2 c).
Qed.

Lemma same_subs_wf b b' :
  subs b' = subs b → (∀ ch, is_Some (queues b !! ch) → is_Some (queues b' !! ch)) → bus_wf b → bus_wf b'.
Proof. intros Hs Hq [H1 H2 H3]. split; rewrite Hs; eauto. Qed.

Lemma bus_step_wf b h o : bus_wf b → bus_wf (bus_step (b, h) o).1.
Proof.
  intros Hwf. destruct o as [t m|t|ch]; simpl.
  - destruct (Produce_spec t m b Hwf) as [Hs Hq]. apply (same_subs_wf b); [done| |done].
    intros c Hc. rewrite Hq. destruct (decide _); [|done]. destruct Hc as [q ->]. by eexists.
  - by apply Subscribe_wf.
  - unfold receive. destruct (queues b !! ch) as [[|m q]|] eqn:Hch; simpl; [done| |done].
    apply (same_subs_wf b); [done| |done]. intros c Hc. simpl.
    destruct (decide (c = ch)) as [->|]; [rewrite lookup_insert_eq; by eexists|by rewrite lookup_insert_ne].
Qed.

(** ** One channel *)
Definition seen (st : Bus * gmap N (list msg)) (ch : N) : list msg :=
  default [] (st.2 !! ch) ++ default [] (queues st.1 !! ch).

(** The channel is registered for the topic; its messages are some of those produced
    since, in order, and all of them as long as they fit. *)
Definition chan_inv (t : string) (ch : N) (st : Bus * gmap N (list msg)) (ps : list msg) : Prop :=
  bus_wf st.1 ∧ ch ∈ default [] (subs st.1 !! t) ∧ is_Some (queues st.1 !! ch) ∧
  seen st ch `sublist_of` ps ∧ ((length ps ≤ chan_cap)%nat → seen st ch = ps).

Lemma chan_inv_step t ch st ps o :
  chan_inv t ch st ps → chan_inv t ch (bus_step st o) (ps ++ produced t [o]).
Proof.
  destruct st as [b h]. intros (Hwf & Hin & [q Hq] & Hsub & Heq).
  pose proof (bus_step_wf b h o Hwf) as Hwf'. simpl in *.
  split; [done|]. unfold seen in *. simpl in *. rewrite Hq in *. simpl in *.
  destruct o as [t' m|t'|c]; simpl in *.
  - destruct (Produce_spec t' m b Hwf) as [Hs Hqs]. rewrite Hs, Hqs.
    assert (ch ∈ default [] (subs b !! t') ↔ t' = t) as Htopic.
    { split; [|by intros ->]. intros Hin'. destruct (subs b !! t') as [cs'|] eqn:E'; [|set_solver].
      destruct (subs b !! t) as [cs|] eqn:E; [|set_solver]. by eapply (bw_topic b Hwf). }
    destruct (decide (ch ∈ _)) as [Ht%Htopic|Ht].
    + subst t'. rewrite Hq. rewrite decide_True by done. simpl.
      split_and!; [done|by eexists| |]; destruct (Nat.ltb_spec (length q) chan_cap).
      * rewrite app_assoc. by apply sublist_app.
      * by apply sublist_inserts_r.
      * intros Hlen. rewrite length_app in Hlen. simpl in Hlen. rewrite app_assoc, Heq by lia. done.
      * intros Hlen. rewrite length_app in Hlen. simpl in Hlen.
        assert (length (default [] (h !! ch) ++ q) = length ps) as Hl by (rewrite Heq by lia; done).
        rewrite length_app in Hl. lia.
    + rewrite Hq. rewrite decide_False by tauto. rewrite app_nil_r. split_and!; [done|by eexists|done|done].
  - rewrite app_nil_r. pose proof (Subscribe_fresh t' b) as Hf. unfold Subscribe in *. simpl in *.
    set (c := fresh _) in *. assert (ch ≠ c) by congruence. rewrite (lookup_insert_ne (queues b)) by done. rewrite Hq.
    split_and!; [|by eexists|done|done].
    destruct (decide (t' = t)) as [->|Hne]; [rewrite lookup_insert_eq; set_solver|by rewrite lookup_insert_ne].
  - rewrite app_nil_r. unfold receive. destruct (queues b !! c) as [[|m q']|] eqn:Hc; simpl.
    1,3: rewrite Hq; split_and!; [done|by eexists|done|done].
    destruct (decide (ch = c)) as [->|Hne].
    + rewrite !lookup_insert_eq. simpl. assert (q = m :: q') as -> by congruence.
      rewrite <-app_assoc. split_and!; [done|by eexists|done|done].
    + rewrite !lookup_insert_ne by done. rewrite Hq. split_and!; [done|by eexists|done|done].
Qed.

Lemma chan_inv_run t ch ops st ps :
  chan_inv t ch st ps → chan_inv t ch (bus_run ops st) (ps ++ produced t ops).
Proof.
  revert st ps. induction ops as [|o ops IH]; intros st ps Hinv; cbn [bus_run foldl].
  { by rewrite app_nil_r. }
  change (o :: ops) with ([o] ++ ops). unfold produced. rewrite omap_app. rewrite app_assoc.
  apply IH. by apply chan_inv_step.
Qed.

(** ** Property *)

(** The bus is lossy but ordered: whatever producers, other subscriptions and
    receivers do in the meantime, the messages a subscription has handled or still
    has pending are some of those produced on its topic since it subscribed, in
    order and none twice; and none is lost while at most 1024 have been produced.
    Producing never blocks: every operation is one step. *)
Theorem bus_delivers_in_order b h t ops :
  bus_wf b → h !! (Subscribe t b).1 = None →
  let ch := (Subscribe t b).1 in
  let st := bus_run ops ((Subscribe t b).2, h) in
  seen st ch `sublist_of` produced t ops ∧
  ((length (produced t ops) ≤ chan_cap)%nat → seen st ch = produced t ops).
Proof.
  intros Hwf Hh ch st.
  assert (chan_inv t ch ((Subscribe t b).2, h) []) as Hinv.
  { split_and!; simpl.
    - by apply Subscribe_wf.
    - rewrite lookup_insert_eq. set_solver.
    - rewrite lookup_insert_eq. by eexists.
    - unfold seen. simpl. fold ch in Hh. rewrite Hh, lookup_insert_eq. done.
    - intros _. unfold seen. simpl. fold ch in Hh. rewrite Hh, lookup_insert_eq. done. }
  apply (chan_inv_run t ch ops) in Hinv. destruct Hinv as (_ & _ & _ & H1 & H2). done.
Qed.

(** The consumer hands over every record of the polls before it stops, once and in
    order, and nothing after; stopping again changes nothing. *)
Theorem consumer_handles_in_order {A} (handler : msg → A → A) before stop after a :
  Forall (λ p, p_done p = false ∧ p_closed p = false) before → p_done stop = true ∨ p_closed stop = true →
  consumer_run handler (before ++ stop :: after) a = foldl (λ a m, handler m a) a (concat (p_records <$> before)).
Proof.
  intros Hb Hs. revert a. induction Hb as [|p before [Hd Hc] _ IH]; intros a; simpl.
  - destruct Hs as [->| ->]; [done|]. by destruct (p_done stop).
  - rewrite Hd, Hc, IH. by rewrite foldl_app.
Qed.

Definition demo_msg (b : byte) : msg := MkMsg [b] [b].
Lemma bus_delivers_in_order_witness :
  let ops := [BProduce TopicWarm (demo_msg x01); BProduce TopicAccess (demo_msg x02);
              BReceive (Subscribe TopicWarm NewBus).1; BProduce TopicWarm (demo_msg x03)] in
  seen (bus_run ops ((Subscribe TopicWarm NewBus).2, ∅)) (Subscribe TopicWarm NewBus).1 =
    [demo_msg x01; demo_msg x03].
Proof.
  cbv zeta. apply (bus_delivers_in_order NewBus ∅ TopicWarm
    [BProduce TopicWarm (demo_msg x01); BProduce TopicAccess (demo_msg x02);
     BReceive (Subscribe TopicWarm NewBus).1; BProduce TopicWarm (demo_msg x03)]).
  - exact NewBus_wf.
  - reflexivity.
  - vm_compute. lia.
Defined.
End Events.
