(* ===== verification/Prefetch.v ===== *)
(** * The prefetcher: src/internal/prefetch/prefetch.go

    Demand per block, learned from access events, and the warm plan that a ring
    change triggers.  The protobuf codec, [math.Exp2] and the sort are parameters;
    the clock is an argument of every handler; a Go map is ranged over in any order
    ([order]).  What the prefetcher produces is the list of warm commands. *)

From Stdlib Require Import Floats.SpecFloat.
From S2P Require Import Prelude Float64 Sha256 Chain HashRing Proto.

Module Prefetch.
Local Open Scope N_scope.

Record blockStat := MkBlockStat {
  demand : spec_float;   (* decayed access count as of lastSeen *)
  lastSeen : Z;
  parent : bytes;
  modelID : string
}.

Record Config := MkConfig {
  RF : Z;
  DemandThreshold : spec_float;
  HalfLife : Z;
  MaxTracked : Z;
  WarmDeadline : Z
}.

Definition defaults (c : Config) : Config :=
  MkConfig
    (if (RF c =? 0)%Z then 2%Z else RF c)
    (if float64.eqb (DemandThreshold c) (float64.of_Z 0) then float64.of_Z 2 else DemandThreshold c)
    (if (HalfLife c =? 0)%Z then 60000000000%Z else HalfLife c)
    (if (MaxTracked c =? 0)%Z then 100000%Z else MaxTracked c)
    (if (WarmDeadline c =? 0)%Z then 30000000000%Z else WarmDeadline c).

Record Prefetcher := MkPrefetcher {
  cfg : Config;
  blocks : gmap bytes blockStat;
  ring : option HashRing.Ring;   (* last ring planned against *)
  warmsIssued : N
}.
Definition New (c : Config) : Prefetcher := MkPrefetcher (defaults c) ∅ None 0.

Definition with_blocks (p : Prefetcher) (b : gmap bytes blockStat) : Prefetcher :=
  MkPrefetcher (cfg p) b (ring p) (warmsIssued p).

(** [chain.BlockID{}]. *)
Definition zero_id : bytes := replicate Chain.HashSize x00.

Section prefetch.
Context (Exp2 : spec_float → spec_float).
Context (Unmarshal : bytes → option pmv1.AccessEvent) (Marshal : pmv1.WarmCommand → option bytes).
(** [sort.Slice] of the sweep candidates. *)
Context (sort : list (bytes * spec_float) → list (bytes * spec_float)).

(** [st.demand * math.Exp2(-dt)]. *)
Definition decayed (c : Config) (now : Z) (st : blockStat) : spec_float :=
  let dt := float64.div (float64.seconds (time_Sub now (lastSeen st))) (float64.seconds (HalfLife c)) in
  float64.mul (demand st) (Exp2 (float64.opp dt)).

(** ** HandleAccess *)

(** One iteration: the block's demand counts one more access. *)
Definition observe (c : Config) (now : Z) (model : string) (par : bytes) (id : bytes)
    (b : gmap bytes blockStat) : gmap bytes blockStat :=
  let st := default (MkBlockStat (float64.of_Z 0) now par model) (b !! id) in
  <[id := MkBlockStat (float64.add (float64.of_Z 1) (decayed c now st)) now (parent st) (modelID st)]> b.

(** [for i, raw := range ev.Chain]; [false] is the return on a malformed ID, with
    the blocks counted so far. *)
Fixpoint access_loop (c : Config) (now : Z) (model : string) (par : bytes) (ids : list bytes)
    (b : gmap bytes blockStat) : gmap bytes blockStat * bool :=
  match ids with
  | [] => (b, true)
  | id :: ids =>
      if decide (length id = Chain.HashSize)
      then access_loop c now model id ids (observe c now model par id b)
      else (b, false)
  end.

(** [order] is the iteration order of the map. *)
Definition sweepLocked (c : Config) (now : Z) (order : list (bytes * blockStat)) (b : gmap bytes blockStat)
    : gmap bytes blockStat :=
  let all := sort ((λ '(id, st), (id, decayed c now st)) <$> order) in
  foldl (λ b '(id, _), delete id b) b (take (length all / 2) all).

Definition HandleAccess (now : Z) (value : bytes) (p : Prefetcher) : Prefetcher :=
  match Unmarshal value with
  | None => p
  | Some ev =>
      let '(b, completed) :=
        access_loop (cfg p) now (pmv1.ev_ModelId ev) zero_id (pmv1.ev_Chain ev) (blocks p) in
      if negb completed then with_blocks p b
      else if (Z.of_nat (size b) >? MaxTracked (cfg p))%Z
      then with_blocks p (sweepLocked (cfg p) now (map_to_list b) b)
      else with_blocks p b
  end.

(** ** OnRing *)
Record warm := MkWarm {
  w_id : bytes;
  w_st : blockStat;
  w_targets : list string;   (* node IDs *)
  w_source : string;         (* address *)
  w_conf : spec_float
}.

(** The address of the first old owner that is still a member; empty if none. *)
Fixpoint find_source (newNodes : gmap string string) (oldOwners : list string) (source : string) : string :=
  match oldOwners with
  | [] => source
  | o :: oldOwners =>
      find_source newNodes oldOwners
        (match newNodes !! o with
         | Some addr => if decide (source = "") then addr else source
         | None => source
         end)
  end.

(** The body of the planning loop for one block; [None] is the panic of [Owners] on
    a short ID. *)
Definition plan_one (c : Config) (now : Z) (oldRing newRing : HashRing.Ring)
    (idst : bytes * blockStat) : option (list warm) :=
  let '(id, st) := idst in
  let d := decayed c now st in
  if float64.ltb d (DemandThreshold c) then Some []
  else
    oldOwners ← HashRing.Owners oldRing id (RF c);
    newOwners ← HashRing.Owners newRing id (RF c);
    let source := find_source (HashRing.Nodes newRing) oldOwners "" in
    if decide (source = "") then Some []
    else
      let targets := filter (λ o, o ∉ oldOwners) newOwners in
      if decide (targets = []) then Some []
      else Some [MkWarm id st targets source (float64.sub (float64.of_Z 1) (Exp2 (float64.opp d)))].

Fixpoint plan_loop (c : Config) (now : Z) (oldRing newRing : HashRing.Ring)
    (order : list (bytes * blockStat)) : option (list warm) :=
  match order with
  | [] => Some []
  | x :: order =>
      ws ← plan_one c now oldRing newRing x;
      rest ← plan_loop c now oldRing newRing order;
      Some (ws ++ rest)
  end.

Definition warm_command (c : Config) (now : Z) (w : warm) (target : string) : pmv1.WarmCommand :=
  pmv1.MkWarmCommand (w_id w) (parent (w_st w)) (modelID (w_st w)) (w_source w)
    (float64.to_float32 (w_conf w)) ((now + WarmDeadline c) / 1000000)%Z target.

(** The nested loops that produce the commands: (key, value) of each message. *)
Definition emit (c : Config) (now : Z) (plan : list warm) : list (bytes * bytes) :=
  w ← plan; target ← w_targets w;
  match Marshal (warm_command c now w target) with
  | None => []
  | Some raw => [(w_id w, raw)]
  end.

Definition OnRing (order : list (bytes * blockStat)) (now : Z) (r : pmv1.Ring) (p : Prefetcher)
    : option (Prefetcher * list (bytes * bytes)) :=
  let nodes := foldl (λ m n, <[pmv1.NodeId n := pmv1.Addr n]> m) ∅ (pmv1.ring_Nodes r) in
  let newRing := HashRing.New (pmv1.ring_Epoch r) nodes (Z.of_N (pmv1.ring_VnodesPerNode r)) in
  let p' := MkPrefetcher (cfg p) (blocks p) (Some newRing) (warmsIssued p) in
  match ring p with
  | None => Some (p', [])
  | Some oldRing =>
      if HashRing.Epoch newRing <=? HashRing.Epoch oldRing then Some (p', [])
      else
        plan ← plan_loop (cfg p) now oldRing newRing order;
        let out := emit (cfg p) now plan in
        Some (MkPrefetcher (cfg p) (blocks p) (Some newRing)
                (u64 (warmsIssued p + N.of_nat (length out))), out)
  end.

(** Lemmas depend on the parameters their statements mention, and no others. *)
#[local] Set Default Proof Using "Type".
#[local] Set Proof Using Clear Unused.

(** ** Access events *)
Implicit Types (b : gmap bytes blockStat) (p : Prefetcher).

(** Keys are block IDs: the operations only track IDs of full length. *)
Definition keys_ok b : Prop := ∀ id, is_Some (b !! id) → length id = Chain.HashSize.

Lemma access_loop_keys c now model par ids b : keys_ok b → keys_ok (access_loop c now model par ids b).1.
Proof.
  revert par b. induction ids as [|id ids IH]; intros par b Hb; simpl; [done|].
  destruct (decide (length id = Chain.HashSize)) as [Hl|]; [|done]. apply IH.
  intros id' [st Hst]. unfold observe in Hst. apply lookup_insert_Some in Hst as [[<- _]|[_ ?]]; [done|].
  apply Hb. by eexists.
Qed.

(** What the accesses of a chain do to one block. *)
Definition counted (c : Config) (now : Z) (model : string) (par : bytes) (old : option blockStat) : blockStat :=
  let st := default (MkBlockStat (float64.of_Z 0) now par model) old in
  MkBlockStat (float64.add (float64.of_Z 1) (decayed c now st)) now (parent st) (modelID st).
(** The block before position [i] of a chain that starts after [par]. *)
Definition pred_at (par : bytes) (ids : list bytes) (i : nat) : bytes :=
  default par (match i with O => None | S i => ids !! i end).

Lemma access_loop_spec c now model par ids b :
  (∀ id, id ∈ ids → length id = Chain.HashSize) → NoDup ids →
  ∃ b', access_loop c now model par ids b = (b', true) ∧
    (∀ i id, ids !! i = Some id → b' !! id = Some (counted c now model (pred_at par ids i) (b !! id))) ∧
    (∀ id, id ∉ ids → b' !! id = b !! id).
Proof.
  revert par b. induction ids as [|id ids IH]; intros par b Hl Hnd; simpl.
  { exists b. split_and!; [done|intros i id; by rewrite lookup_nil|done]. }
  rewrite decide_True by (apply Hl; by left). apply NoDup_cons in Hnd as [Hid Hnd].
  destruct (IH id (observe c now model par id b)) as (b' & -> & Hin & Hout); [set_solver|done|].
  exists b'. split_and!; [done| |].
  - intros [|i] id' Hi; simpl in Hi.
    + injection Hi as <-. rewrite Hout by done. unfold observe. by rewrite lookup_insert_eq.
    + assert (id' ≠ id) by (intros ->; apply Hid; by eapply list_elem_of_lookup_2).
      rewrite (Hin i id' Hi). unfold observe. rewrite lookup_insert_ne by done. do 2 f_equal.
      unfold pred_at. destruct i as [|i]; simpl; [done|].
      destruct (ids !! i) eqn:E; simpl; [done|]. apply lookup_ge_None in E.
      pose proof (lookup_lt_Some _ _ _ Hi). lia.
  - intros id' Hn. rewrite Hout by set_solver. unfold observe. rewrite lookup_insert_ne; [done|set_solver].
Qed.

Lemma access_loop_done c now model par ids b :
  (∀ id, id ∈ ids → length id = Chain.HashSize) → (access_loop c now model par ids b).2 = true.
Proof.
  revert par b. induction ids as [|id ids IH]; intros par b Hl; simpl; [done|].
  rewrite decide_True by (apply Hl; by left). apply IH. set_solver.
Qed.

(** A malformed ID: what came before it is counted, and the handler returns. *)
Lemma access_loop_bad c now model par ids bad rest b :
  (∀ id, id ∈ ids → length id = Chain.HashSize) → length bad ≠ Chain.HashSize →
  access_loop c now model par (ids ++ bad :: rest) b = ((access_loop c now model par ids b).1, false).
Proof.
  intros Hl Hbad. revert par b Hl. induction ids as [|id ids IH]; intros par b Hl; simpl.
  - by rewrite decide_False.
  - rewrite !decide_True by (apply Hl; by left). apply IH. set_solver.
Qed.

Lemma access_loop_dom c now model par ids b :
  (∀ id, id ∈ ids → length id = Chain.HashSize) →
  dom (access_loop c now model par ids b).1 = dom b ∪ list_to_set ids.
Proof.
  revert par b. induction ids as [|id ids IH]; intros par b Hl; simpl; [set_solver|].
  rewrite decide_True by (apply Hl; by left). rewrite IH by set_solver. unfold observe.
  rewrite dom_insert_L. set_solver.
Qed.

(** ** The sweep *)
Context (sort_perm : ∀ l, sort l ≡ₚ l).
Context (sort_sorted : ∀ l, (∀ x, x ∈ l → x.2 ≠ S754_nan) →
  ∀ i j x y, (i < j)%nat → sort l !! i = Some x → sort l !! j = Some y → float64.ltb y.2 x.2 = false).

Lemma delete_list_lookup (l : list (bytes * spec_float)) b id :
  foldl (λ b '(id, _), delete id b) b l !! id = if decide (id ∈ l.*1) then None else b !! id.
Proof.
  revert b. induction l as [|[id' d] l IH]; intros b; simpl; [done|]. rewrite IH.
  destruct (decide (id ∈ l.*1)) as [Hin|Hin].
  - by rewrite decide_True by (by right).
  - destruct (decide (id = id')) as [->|Hne].
    + rewrite lookup_delete_eq, decide_True; [done|by left].
    + rewrite lookup_delete_ne by done. rewrite decide_False; [done|set_solver].
Qed.

Lemma delete_list_size (l : list (bytes * spec_float)) b :
  NoDup l.*1 → (∀ id, id ∈ l.*1 → is_Some (b !! id)) →
  size (foldl (λ b '(id, _), delete id b) b l) = (size b - length l)%nat.
Proof.
  revert b. induction l as [|[id d] l IH]; intros b Hnd Hin; simpl in *; [lia|].
  apply NoDup_cons in Hnd as [Hid Hnd]. rewrite IH; [|done|].
  - destruct (Hin id) as [st Hst]; [by left|]. rewrite map_size_delete_Some by (by eexists). lia.
  - intros id' Hid'. rewrite lookup_delete_ne by set_solver. apply Hin. by right.
Qed.

(** The candidates of a sweep are the tracked blocks with their decayed demand. *)
Definition candidates (c : Config) (now : Z) b : list (bytes * spec_float) :=
  (λ '(id, st), (id, decayed c now st)) <$> map_to_list b.

Lemma candidates_keys c now b : (candidates c now b).*1 = (map_to_list b).*1.
Proof. unfold candidates. rewrite <-list_fmap_compose. apply list_fmap_ext. by intros i [? ?]. Qed.

Lemma elem_of_candidates c now b id d :
  (id, d) ∈ candidates c now b ↔ ∃ st, b !! id = Some st ∧ d = decayed c now st.
Proof.
  unfold candidates. rewrite list_elem_of_fmap. split.
  - intros ([id' st] & [= <- ->] & Hin%elem_of_map_to_list). eauto.
  - intros (st & Hst & ->). exists (id, st). by rewrite elem_of_map_to_list.
Qed.

Lemma HandleAccess_keys now value p : keys_ok (blocks p) → keys_ok (blocks (HandleAccess now value p)).
Proof.
  intros Hk. unfold HandleAccess. destruct (Unmarshal value) as [ev|]; [|done].
  pose proof (access_loop_keys (cfg p) now (pmv1.ev_ModelId ev) zero_id (pmv1.ev_Chain ev) (blocks p) Hk) as Hk'.
  destruct (access_loop _ _ _ _ _ _) as [b [|]]; simpl in *; [|done].
  destruct (_ >? _)%Z; simpl; [|done]. intros id. unfold sweepLocked. rewrite delete_list_lookup.
  destruct (decide _); [by intros [? ?]|apply Hk'].
Qed.

(** The sweep drops exactly the coldest half. *)
Lemma sweep_spec c now b :
  let b' := sweepLocked c now (map_to_list b) b in
  size b' = (size b - size b / 2)%nat ∧ b' ⊆ b ∧
  ((∀ id st, b !! id = Some st → decayed c now st ≠ S754_nan) →
   ∀ id st id' st', b !! id = Some st → b' !! id = None → b' !! id' = Some st' →
     float64.ltb (decayed c now st') (decayed c now st) = false).
Proof using Type sort_perm sort_sorted.
  cbv zeta. unfold sweepLocked. fold (candidates c now b). set (all := sort (candidates c now b)).
  assert (all ≡ₚ candidates c now b) as Hall by apply sort_perm.
  assert (NoDup all.*1) as Hnd by (rewrite Hall, candidates_keys; apply NoDup_fst_map_to_list).
  assert (length all = size b) as Hlen.
  { rewrite Hall. unfold candidates. by rewrite length_fmap, length_map_to_list. }
  assert (∀ id, id ∈ (take (length all / 2) all).*1 → is_Some (b !! id)) as Hin.
  { intros id ([id' d] & -> & Hid)%list_elem_of_fmap. apply elem_of_take in Hid.
    destruct Hid as (i & Hi & _). apply list_elem_of_lookup_2 in Hi. rewrite Hall in Hi.
    apply elem_of_candidates in Hi as (st & Hst & _). by exists st. }
  split_and!.
  - rewrite delete_list_size; [rewrite length_take, Hlen| |done].
    + rewrite Nat.min_l; [done|]. apply Nat.Div0.div_le_upper_bound. lia.
    + rewrite <-(take_drop (length all / 2) all), fmap_app in Hnd. by apply NoDup_app in Hnd as [? _].
  - apply map_subseteq_spec. intros id st. rewrite delete_list_lookup. by destruct (decide _).
  - intros Hnan id st id' st' Hst Hdrop Hkeep. rewrite delete_list_lookup in Hdrop, Hkeep.
    destruct (decide (id ∈ _)) as [Hd|]; [|congruence]. destruct (decide (id' ∈ _)) as [|Hk]; [done|].
    assert ((id', decayed c now st') ∈ all) as Hk2 by (rewrite Hall; apply elem_of_candidates; eauto).
    apply list_elem_of_fmap in Hd as ([id2 d] & -> & (i & Hi & Hlt)%elem_of_take).
    assert (d = decayed c now st) as ->.
    { apply list_elem_of_lookup_2 in Hi. rewrite Hall in Hi. apply elem_of_candidates in Hi as (st2 & ? & ->).
      simpl in Hst. congruence. }
    apply list_elem_of_lookup in Hk2 as [j Hj].
    assert (length all / 2 ≤ j)%nat.
    { destruct (decide (length all / 2 ≤ j)%nat); [done|]. destruct Hk. apply list_elem_of_fmap.
      exists (id', decayed c now st'). split; [done|]. apply elem_of_take. exists j. split; [done|lia]. }
    apply (sort_sorted (candidates c now b)) with (i := i) (j := j)
      (x := (id2, decayed c now st)) (y := (id', decayed c now st')); [|lia|done|done].
    intros [id3 d3] (st3 & Hst3 & ->)%elem_of_candidates. by eapply Hnan.
Qed.

(** ** Warm plans *)
Definition node_map (r : pmv1.Ring) : gmap string string :=
  foldl (λ m n, <[pmv1.NodeId n := pmv1.Addr n]> m) ∅ (pmv1.ring_Nodes r).
Definition ring_of (r : pmv1.Ring) : HashRing.Ring :=
  HashRing.New (pmv1.ring_Epoch r) (node_map r) (Z.of_N (pmv1.ring_VnodesPerNode r)).

Lemma find_source_kept nn os source : source ≠ "" → find_source nn os source = source.
Proof.
  induction os as [|o os IH]; intros Hs; simpl; [done|].
  destruct (nn !! o) as [a|]; [|by apply IH]. rewrite decide_False by done. by apply IH.
Qed.

(** The source is the address of the first surviving old owner that has one. *)
Lemma find_source_spec nn os :
  find_source nn os "" = default "" (head (filter (λ a, a ≠ "") (omap (λ o, nn !! o) os))).
Proof.
  induction os as [|o os IH]; simpl; [done|].
  destruct (nn !! o) as [a|]; [|done].
  destruct (decide (a = "")) as [->|Ha].
  - rewrite IH, filter_cons_False; [done|naive_solver].
  - rewrite find_source_kept by done. by rewrite filter_cons_True.
Qed.

Lemma find_source_in nn os s :
  find_source nn os "" = s → s ≠ "" → ∃ o, o ∈ os ∧ nn !! o = Some s.
Proof.
  rewrite find_source_spec. intros Heq Hs.
  destruct (head _) as [a|] eqn:Hh; simpl in Heq; [subst a|congruence].
  apply head_Some_elem_of in Hh. apply list_elem_of_filter in Hh as [_ Hin].
  apply list_elem_of_omap in Hin as (o & Ho & ?). eauto.
Qed.

Lemma find_source_found nn os o a :
  o ∈ os → nn !! o = Some a → a ≠ "" → find_source nn os "" ≠ "".
Proof.
  intros Ho Ha Hne. rewrite find_source_spec.
  assert (a ∈ filter (λ a, a ≠ "") (omap (λ o, nn !! o) os)) as Hin.
  { apply list_elem_of_filter. split; [done|]. apply list_elem_of_omap. eauto. }
  destruct (filter _ _) as [|a' l] eqn:Hf; [set_solver|]. simpl.
  assert (a' ∈ filter (λ a, a ≠ "") (omap (λ o, nn !! o) os)) as [? _]%list_elem_of_filter by (rewrite Hf; by left).
  done.
Qed.

(** What one demanded block is warmed with: the commands for its new owners. *)
Definition warms (c : Config) (now : Z) (oldRing newRing : HashRing.Ring) (id : bytes) (st : blockStat)
    (w : warm) : Prop :=
  ∃ oldOwners newOwners,
    HashRing.Owners oldRing id (RF c) = Some oldOwners ∧
    HashRing.Owners newRing id (RF c) = Some newOwners ∧
    float64.ltb (decayed c now st) (DemandThreshold c) = false ∧
    let targets := filter (λ o, o ∉ oldOwners) newOwners in
    let source := find_source (HashRing.Nodes newRing) oldOwners "" in
    targets ≠ [] ∧ source ≠ "" ∧
    w = MkWarm id st targets source
          (float64.sub (float64.of_Z 1) (Exp2 (float64.opp (decayed c now st)))).

Lemma plan_one_spec c now e nodes vpn e' nodes' vpn' id st :
  length id = Chain.HashSize →
  let oldRing := HashRing.New e nodes vpn in let newRing := HashRing.New e' nodes' vpn' in
  ∃ ws, plan_one c now oldRing newRing (id, st) = Some ws ∧
    ∀ w, w ∈ ws ↔ warms c now oldRing newRing id st w.
Proof.
  intros Hid oldRing newRing. unfold plan_one, warms.
  destruct (float64.ltb _ _); [exists []; split; [done|]; intros w; split; [set_solver|]; by intros (?&?&?&?&?&?)|].
  assert (8 ≤ length id)%nat as H8 by (rewrite Hid; unfold Chain.HashSize; lia).
  unfold oldRing, newRing in *. rewrite !HashRing.Owners_New by done. bind_step.
  set (O := take _ _). set (O' := take _ _).
  destruct (decide (find_source _ O "" = "")) as [Hs|Hs].
  { exists []. split; [done|]. intros w. split; [set_solver|].
    intros (? & ? & Ho & _ & _ & _ & ? & _). injection Ho as <-. done. }
  destruct (decide (filter (λ o, o ∉ O) O' = [])) as [Ht|Ht].
  { exists []. split; [done|]. intros w. split; [set_solver|].
    intros (? & ? & Ho & Ho' & _ & ? & _). injection Ho as <-. injection Ho' as <-. done. }
  eexists. split; [done|]. intros w. rewrite list_elem_of_singleton. split.
  - intros ->. exists O, O'. done.
  - intros (? & ? & Ho & Ho' & _ & _ & _ & ->). injection Ho as <-. by injection Ho' as <-.
Qed.

Lemma plan_loop_spec c now e nodes vpn e' nodes' vpn' order :
  (∀ id st, (id, st) ∈ order → length id = Chain.HashSize) →
  let oldRing := HashRing.New e nodes vpn in let newRing := HashRing.New e' nodes' vpn' in
  ∃ plan, plan_loop c now oldRing newRing order = Some plan ∧
    ∀ w, w ∈ plan ↔ ∃ id st, (id, st) ∈ order ∧ warms c now oldRing newRing id st w.
Proof.
  intros Hk oldRing newRing. induction order as [|[id st] order IH]; cbn [plan_loop].
  { exists []. split; [done|]. set_solver. }
  destruct (plan_one_spec c now e nodes vpn e' nodes' vpn' id st) as (ws & Heq & Hws); [eapply Hk; by left|].
  fold oldRing newRing in Heq, Hws. rewrite Heq. bind_step.
  destruct IH as (plan & -> & Hplan); [intros; eapply Hk; by right|]. bind_step.
  exists (ws ++ plan). split; [done|]. intros w. rewrite elem_of_app, Hws, Hplan. split.
  - intros [Hw|(id' & st' & Hin & Hw)]; [exists id, st|exists id', st']; (split; [|done]); set_solver.
  - intros (id' & st' & [[= -> ->]|Hin]%elem_of_cons & Hw); [by left|right; eauto].
Qed.

Lemma elem_of_emit c now plan k raw :
  (k, raw) ∈ emit c now plan ↔
  ∃ w target, w ∈ plan ∧ target ∈ w_targets w ∧ k = w_id w ∧ Marshal (warm_command c now w target) = Some raw.
Proof.
  unfold emit. rewrite list_elem_of_bind. setoid_rewrite list_elem_of_bind. split.
  - intros (w & (t & Hin & Ht) & Hw). destruct (Marshal _) as [r|] eqn:Hm; [|set_solver].
    apply list_elem_of_singleton in Hin. injection Hin as -> ->. exists w, t. done.
  - intros (w & t & Hw & Ht & -> & Hm). exists w. split; [|done]. exists t. rewrite Hm. set_solver.
Qed.

Lemma OnRing_spec order now r p e nodes vpn :
  keys_ok (blocks p) → order ≡ₚ map_to_list (blocks p) →
  ring p = Some (HashRing.New e nodes vpn) → e < pmv1.ring_Epoch r →
  ∃ p' out, OnRing order now r p = Some (p', out) ∧
    cfg p' = cfg p ∧ blocks p' = blocks p ∧ ring p' = Some (ring_of r) ∧
    ∀ k raw, (k, raw) ∈ out ↔
      ∃ st w target, blocks p !! k = Some st ∧ warms (cfg p) now (HashRing.New e nodes vpn) (ring_of r) k st w ∧
        target ∈ w_targets w ∧ Marshal (warm_command (cfg p) now w target) = Some raw.
Proof.
  intros Hk Hord Hr Hlt. unfold OnRing. rewrite Hr. fold (node_map r). fold (ring_of r).
  change (HashRing.Epoch (ring_of r)) with (pmv1.ring_Epoch r).
  change (HashRing.Epoch (HashRing.New e nodes vpn)) with e.
  destruct (N.leb_spec (pmv1.ring_Epoch r) e); [lia|].
  destruct (plan_loop_spec (cfg p) now e nodes vpn (pmv1.ring_Epoch r) (node_map r)
    (Z.of_N (pmv1.ring_VnodesPerNode r)) order) as (plan & Heq & Hplan).
  { intros id st. rewrite Hord, elem_of_map_to_list. intros Hst. apply Hk. by eexists. }
  fold (ring_of r) in Heq, Hplan. rewrite Heq. bind_step.
  eexists _, _. split_and!; [done..|]. intros k raw. rewrite elem_of_emit. setoid_rewrite Hplan. split.
  - intros (w & t & (id & st & Hin & Hw) & Ht & -> & Hm). rewrite Hord, elem_of_map_to_list in Hin.
    assert (w_id w = id) as Hwid by (destruct Hw as (? & ? & _ & _ & _ & _ & _ & ->); done).
    rewrite Hwid. by exists st, w, t.
  - intros (st & w & t & Hst & Hw & Ht & Hm). exists w, t. split_and!; [|done| |done].
    + exists k, st. rewrite Hord, elem_of_map_to_list. done.
    + destruct Hw as (? & ? & _ & _ & _ & _ & _ & ->). done.
Qed.

(** ** Properties *)

(** Demand model: an access event with a well-formed chain counts one access of
    every block of the chain, on top of the demand decayed to now; a block seen for
    the first time remembers its predecessor in the chain and the model; blocks
    outside the chain do not change, nothing is forgotten below the limit. *)
Theorem access_counts_demand now value ev p :
  Unmarshal value = Some ev →
  (∀ id, id ∈ pmv1.ev_Chain ev → length id = Chain.HashSize) → NoDup (pmv1.ev_Chain ev) →
  (Z.of_nat (size (dom (blocks p) ∪ list_to_set (pmv1.ev_Chain ev))) ≤ MaxTracked (cfg p))%Z →
  let p' := HandleAccess now value p in
  (∀ i id, pmv1.ev_Chain ev !! i = Some id →
     blocks p' !! id = Some (counted (cfg p) now (pmv1.ev_ModelId ev)
                               (pred_at zero_id (pmv1.ev_Chain ev) i) (blocks p !! id))) ∧
  (∀ id, id ∉ pmv1.ev_Chain ev → blocks p' !! id = blocks p !! id) ∧
  (keys_ok (blocks p) → keys_ok (blocks p')).
Proof.
  intros Hev Hl Hnd Hmax. cbv zeta. unfold HandleAccess. rewrite Hev.
  destruct (access_loop_spec (cfg p) now (pmv1.ev_ModelId ev) zero_id (pmv1.ev_Chain ev) (blocks p) Hl Hnd)
    as (b' & Heq & Hin & Hout).
  pose proof (access_loop_dom (cfg p) now (pmv1.ev_ModelId ev) zero_id (pmv1.ev_Chain ev) (blocks p) Hl) as Hdom.
  pose proof (access_loop_keys (cfg p) now (pmv1.ev_ModelId ev) zero_id (pmv1.ev_Chain ev) (blocks p)) as Hkeys.
  rewrite Heq in *. simpl in Hdom, Hkeys. cbn [negb]. rewrite <-Hdom, size_dom in Hmax.
  destruct (Z.gtb_spec (Z.of_nat (size b')) (MaxTracked (cfg p))); [lia|]. by split_and!.
Qed.

(** C36. Bounded memory: when a well-formed event pushes the number of tracked blocks
    over the limit, exactly half of them are dropped, everything kept is unchanged,
    and no dropped block is in higher demand now than a kept one. *)
Theorem sweep_keeps_hottest now value ev p :
  Unmarshal value = Some ev →
  (∀ id, id ∈ pmv1.ev_Chain ev → length id = Chain.HashSize) →
  let b := (access_loop (cfg p) now (pmv1.ev_ModelId ev) zero_id (pmv1.ev_Chain ev) (blocks p)).1 in
  (MaxTracked (cfg p) < Z.of_nat (size b))%Z →
  let b' := blocks (HandleAccess now value p) in
  size b' = (size b - size b / 2)%nat ∧ b' ⊆ b ∧
  ((∀ id st, b !! id = Some st → decayed (cfg p) now st ≠ S754_nan) →
   ∀ id st id' st', b !! id = Some st → b' !! id = None → b' !! id' = Some st' →
     float64.ltb (decayed (cfg p) now st') (decayed (cfg p) now st) = false).
Proof using Type sort_perm sort_sorted.
  intros Hev Hl b Hmax b'.
  assert (b' = sweepLocked (cfg p) now (map_to_list b) b) as ->; [|apply sweep_spec].
  unfold b', HandleAccess. rewrite Hev. subst b b'.
  assert ((access_loop (cfg p) now (pmv1.ev_ModelId ev) zero_id (pmv1.ev_Chain ev) (blocks p)).2 = true) as Ht.
  { by apply access_loop_done. }
  destruct (access_loop _ _ _ _ _ _) as [b ok]. simpl in *. subst ok. cbn [negb].
  destruct (Z.gtb_spec (Z.of_nat (size b)) (MaxTracked (cfg p))); [done|lia].
Qed.

(** C33. The warm plan restores the replicas, and nothing more.  After a ring change,
    for a tracked block in demand: every owner on the new ring was an owner on the
    old ring or is sent a command to fetch the block, as long as one old owner is
    still a member.  Every command sent is for a tracked block in demand, goes to an
    owner that was none before, and names as source the address of an old owner that
    is still a member; after a single join all commands go to the node that joined. *)
Theorem warm_plan_heals order now r p e nodes vpn :
  keys_ok (blocks p) → order ≡ₚ map_to_list (blocks p) →
  ring p = Some (HashRing.New e nodes vpn) → e < pmv1.ring_Epoch r →
  ∃ p' out, OnRing order now r p = Some (p', out) ∧ ring p' = Some (ring_of r) ∧
    (∀ id st O O' o src a,
       (∀ cmd, is_Some (Marshal cmd)) →
       blocks p !! id = Some st → float64.ltb (decayed (cfg p) now st) (DemandThreshold (cfg p)) = false →
       HashRing.Owners (HashRing.New e nodes vpn) id (RF (cfg p)) = Some O →
       HashRing.Owners (ring_of r) id (RF (cfg p)) = Some O' →
       src ∈ O → node_map r !! src = Some a → a ≠ "" → o ∈ O' →
       o ∈ O ∨ ∃ cmd raw, (id, raw) ∈ out ∧ Marshal cmd = Some raw ∧
         pmv1.warm_BlockId cmd = id ∧ pmv1.TargetNode cmd = o ∧
         ∃ src', src' ∈ O ∧ node_map r !! src' = Some (pmv1.SourceNode cmd)) ∧
    (∀ k raw, (k, raw) ∈ out →
       ∃ cmd st O O', Marshal cmd = Some raw ∧ pmv1.warm_BlockId cmd = k ∧ blocks p !! k = Some st ∧
         float64.ltb (decayed (cfg p) now st) (DemandThreshold (cfg p)) = false ∧
         HashRing.Owners (HashRing.New e nodes vpn) k (RF (cfg p)) = Some O ∧
         HashRing.Owners (ring_of r) k (RF (cfg p)) = Some O' ∧
         pmv1.TargetNode cmd ∈ O' ∧ pmv1.TargetNode cmd ∉ O ∧
         (∃ src, src ∈ O ∧ node_map r !! src = Some (pmv1.SourceNode cmd)) ∧
         (∀ x a, nodes !! x = None → node_map r = <[x := a]> nodes →
            Z.of_N (pmv1.ring_VnodesPerNode r) = vpn → pmv1.TargetNode cmd = x)).
Proof.
  intros Hk Hord Hr Hlt.
  destruct (OnRing_spec order now r p e nodes vpn Hk Hord Hr Hlt) as (p' & out & Heq & _ & _ & Hring & Hout).
  assert (HashRing.Nodes (ring_of r) = node_map r) as Hnodes.
  { unfold HashRing.Nodes, ring_of. by rewrite HashRing.addrs_New. }
  exists p', out. split_and!; [done|done| |].
  - intros id st O O' o src a Hm Hst Hdem HO HO' Hsrc Ha Hne Ho.
    destruct (decide (o ∈ O)) as [|HoO]; [by left|right].
    pose proof (find_source_found (node_map r) O src a Hsrc Ha Hne) as Hfs.
    destruct (find_source_in (node_map r) O _ eq_refl Hfs) as (src' & Hsrc' & Ha').
    assert (o ∈ filter (λ o, o ∉ O) O') as Hot by (by apply list_elem_of_filter).
    set (w := MkWarm id st (filter (λ o, o ∉ O) O') (find_source (node_map r) O "")
                (float64.sub (float64.of_Z 1) (Exp2 (float64.opp (decayed (cfg p) now st))))).
    destruct (Hm (warm_command (cfg p) now w o)) as [raw Hraw].
    exists (warm_command (cfg p) now w o), raw. split_and!; [|done|done|done|by exists src'].
    apply Hout. exists st, w, o. split_and!; [done| |done|done]. exists O, O'. cbv zeta. rewrite Hnodes.
    split_and!; try done. intros Hnil. rewrite Hnil in Hot. set_solver.
  - intros k raw (st & w & t & Hst & Hw & Ht & Hraw)%Hout.
    destruct Hw as (O & O' & HO & HO' & Hdem & Hne & Hs & ->). simpl in Ht. rewrite Hnodes in *.
    apply list_elem_of_filter in Ht as [HtO HtO'].
    destruct (find_source_in (node_map r) O _ eq_refl Hs) as (src & Hsrc & Ha).
    eexists _, st, O, O'. split_and!; try done; [by exists src|].
    intros x a Hx Hmap Hvpn. simpl. unfold ring_of in HO'. rewrite Hmap, Hvpn in HO'.
    assert (8 ≤ length k)%nat as H8.
    { rewrite (Hk k) by (by eexists). unfold Chain.HashSize. lia. }
    destruct (HashRing.owners_insert _ _ _ _ _ _ _ _ _ _ Hx H8 HO HO')
      as [[_ ->]|(pre & post & -> & [->|[y ->]])]; set_solver.
Qed.

(** A malformed ID in the chain makes the handler return before the sweep: events
    whose chains end in one add their blocks without any limit. *)
Theorem malformed_skips_sweep now value ev p ids bad :
  Unmarshal value = Some ev → pmv1.ev_Chain ev = ids ++ [bad] →
  (∀ id, id ∈ ids → length id = Chain.HashSize) → length bad ≠ Chain.HashSize →
  dom (blocks (HandleAccess now value p)) = dom (blocks p) ∪ list_to_set ids.
Proof.
  intros Hev Hch Hl Hbad. unfold HandleAccess. rewrite Hev, Hch, access_loop_bad by done.
  cbn [negb]. simpl. by apply access_loop_dom.
Qed.
End prefetch.

(** ** Witnesses *)
Definition demo_Exp2 (_ : spec_float) : spec_float := float64.of_Z 1.
Definition demo_id (b : byte) : bytes := replicate 32 b.
Definition demo_event (ids : list bytes) : pmv1.AccessEvent :=
  pmv1.MkAccessEvent [] "m" 0 0 None None 0 ids.
(** Here an event is its chain of one-byte names. *)
Definition demo_Unmarshal (v : bytes) : option pmv1.AccessEvent :=
  Some (demo_event ((λ b, if decide (b = x00) then [] else demo_id b) <$> v)).
Definition demo_Marshal (c : pmv1.WarmCommand) : option bytes :=
  Some (pmv1.warm_BlockId c ++ string_bytes (pmv1.TargetNode c)).
Definition demo_p (max : Z) : Prefetcher := New (MkConfig 0 (float64.of_Z 0) 0 max 0).

Lemma demo_keys (l : list byte) :
  (∀ b, b ∈ l → b ≠ x00) →
  ∀ id, id ∈ (λ b, if decide (b = x00) then [] else demo_id b) <$> l → length id = Chain.HashSize.
Proof.
  intros Hl id (b & -> & Hb)%list_elem_of_fmap. rewrite decide_False by (by apply Hl). apply length_replicate.
Qed.

Lemma access_counts_demand_witness :
  let p := HandleAccess demo_Exp2 demo_Unmarshal id 5 [x01; x02] (demo_p 10) in
  parent <$> blocks p !! demo_id x02 = Some (demo_id x01) ∧
  parent <$> blocks p !! demo_id x01 = Some zero_id ∧ blocks p !! demo_id x03 = None.
Proof.
  destruct (access_counts_demand demo_Exp2 demo_Unmarshal id 5 [x01; x02]
    (demo_event [demo_id x01; demo_id x02]) (demo_p 10)) as (H1 & H2 & _).
  - reflexivity.
  - exact (demo_keys [x01; x02] ltac:(set_solver)).
  - apply (bool_decide_unpack _). vm_compute. exact I.
  - apply (bool_decide_unpack _). vm_compute. exact I.
  - cbv zeta. rewrite (H1 1%nat (demo_id x02) eq_refl), (H1 0%nat (demo_id x01) eq_refl), (H2 (demo_id x03)).
    + split; [reflexivity|]. split; reflexivity.
    + apply (bool_decide_unpack _). vm_compute. exact I.
Defined.

Lemma sweep_keeps_hottest_witness :
  size (blocks (HandleAccess demo_Exp2 demo_Unmarshal (merge_sort float64.key_le) 5 [x01; x02; x03] (demo_p 2))) = 2%nat.
Proof.
  destruct (sweep_keeps_hottest demo_Exp2 demo_Unmarshal (merge_sort float64.key_le)
    (merge_sort_Permutation float64.key_le)
    (λ l Hn i j x y Hij Hi Hj, float64.merge_sort_key l i j x y Hn Hij Hi Hj) 5 [x01; x02; x03]
    (demo_event [demo_id x01; demo_id x02; demo_id x03]) (demo_p 2)) as (H1 & _).
  - reflexivity.
  - exact (demo_keys [x01; x02; x03] ltac:(set_solver)).
  - vm_compute. reflexivity.
  - rewrite H1. vm_compute. reflexivity.
Defined.

Lemma malformed_skips_sweep_witness :
  size (blocks (HandleAccess demo_Exp2 demo_Unmarshal id 5 [x01; x02; x03; x00] (demo_p 2))) = 3%nat.
Proof.
  rewrite <-size_dom. rewrite (malformed_skips_sweep demo_Exp2 demo_Unmarshal id 5 [x01; x02; x03; x00]
    (demo_event [demo_id x01; demo_id x02; demo_id x03; []]) (demo_p 2) [demo_id x01; demo_id x02; demo_id x03] []).
  - vm_compute. reflexivity.
  - reflexivity.
  - reflexivity.
  - exact (demo_keys [x01; x02; x03] ltac:(set_solver)).
  - discriminate.
Defined.

(** A block seen twice, on a ring of two nodes that a third one joins. *)
Definition demo_nodes : gmap string string := {["cn-1" := "a:1"; "cn-2" := "b:1"]}.
Definition demo_demanded : Prefetcher :=
  let p := HandleAccess demo_Exp2 demo_Unmarshal id 5 [x50]
             (HandleAccess demo_Exp2 demo_Unmarshal id 5 [x50] (demo_p 10)) in
  MkPrefetcher (cfg p) (blocks p) (Some (HashRing.New 1 demo_nodes 4)) 0.
Definition demo_ring : pmv1.Ring :=
  pmv1.MkRing 2 [pmv1.MkNodeInfo "cn-1" "a:1" 0; pmv1.MkNodeInfo "cn-2" "b:1" 0; pmv1.MkNodeInfo "cn-3" "c:1" 0] 4.

Lemma demo_demanded_keys : keys_ok (blocks demo_demanded).
Proof. do 2 apply HandleAccess_keys. intros k [st Hst]. simpl in Hst. by rewrite lookup_empty in Hst. Qed.

Lemma warm_plan_heals_witness :
  ∃ p' out, OnRing demo_Exp2 demo_Marshal (map_to_list (blocks demo_demanded)) 7 demo_ring demo_demanded = Some (p', out) ∧
    out ≠ [] ∧ ∀ k raw, (k, raw) ∈ out → ∃ cmd, demo_Marshal cmd = Some raw ∧ pmv1.TargetNode cmd = "cn-3".
Proof.
  destruct (warm_plan_heals demo_Exp2 demo_Marshal (map_to_list (blocks demo_demanded)) 7 demo_ring demo_demanded
    1 demo_nodes 4) as (p' & out & H1 & _ & H2 & H3).
  - exact demo_demanded_keys.
  - reflexivity.
  - reflexivity.
  - reflexivity.
  - exists p', out. split; [exact H1|]. split.
    + intros ->. assert (option_map (λ x, length x.2) (OnRing demo_Exp2 demo_Marshal
        (map_to_list (blocks demo_demanded)) 7 demo_ring demo_demanded) = Some 1%nat) as Hl
        by (vm_compute; reflexivity).
      rewrite H1 in Hl. discriminate.
    + intros k raw Hin. destruct (H3 k raw Hin) as (cmd & st & O & O' & Hm & _ & _ & _ & _ & _ & _ & _ & _ & Hj).
      exists cmd. split; [exact Hm|]. apply (Hj "cn-3" "c:1"); vm_compute; reflexivity.
Defined.
End Prefetch.
