(* ===== verification/Warmer.v ===== *)
(** * The warm executor of a cache node: src/internal/cachenode/warmer.go

    [Handle] executes the warm commands addressed to this node: it fetches the block
    from a surviving owner and stores it.  The protobuf codec, gRPC dialing and the
    source's answer are parameters; [source_answer] is what a cache node of
    [CacheNode] answers, and composes the two ends. *)

From Stdlib Require Import Floats.SpecFloat.
From S2P Require Import Prelude Float64 Proto BlockStore LRU Chain HashRing CacheNode.

Module Warmer.
Import BlockStore.
Local Open Scope N_scope.

Section warmer.
Context {S conn : Type} `{!Store S}.
Context (Unmarshal : bytes → option pmv1.WarmCommand) (NewClient : string → option conn).
(** Opening the stream and the first [Recv]: [Err] is an error of either (EOF too),
    [Ok None] a response without a block. *)
Context (recv : conn → pmv1.GetBlocksRequest → result unit (option pmv1.Block)).

Record Warmer := MkWarmer {
  self : string;
  store : S;
  tokens : spec_float;
  lastRef : Z;
  rate : spec_float;
  clients : gmap string conn;
  executed : N;
  skippedPresent : N;
  dropped : N
}.

Definition Counters (w : Warmer) : N * N * N := (executed w, skippedPresent w, dropped w).

Definition NewWarmer (self : string) (s : S) (ratePerSec : spec_float) (now : Z) : Warmer :=
  let r := if float64.leb ratePerSec (float64.of_Z 0) then float64.of_Z 200 else ratePerSec in
  MkWarmer self s r now r ∅ 0 0 0.

Definition with_store (w : Warmer) (s : S) : Warmer :=
  MkWarmer (self w) s (tokens w) (lastRef w) (rate w) (clients w) (executed w) (skippedPresent w) (dropped w).
Definition with_tokens (w : Warmer) (t : spec_float) (now : Z) : Warmer :=
  MkWarmer (self w) (store w) t now (rate w) (clients w) (executed w) (skippedPresent w) (dropped w).
Definition with_clients (w : Warmer) (cs : gmap string conn) : Warmer :=
  MkWarmer (self w) (store w) (tokens w) (lastRef w) (rate w) cs (executed w) (skippedPresent w) (dropped w).
Definition with_counters (w : Warmer) (ex sk dr : N) : Warmer :=
  MkWarmer (self w) (store w) (tokens w) (lastRef w) (rate w) (clients w) ex sk dr.

(** The token bucket. *)
Definition allow (now : Z) (w : Warmer) : bool * Warmer :=
  let t := float64.min (rate w)
             (float64.add (tokens w)
                (float64.mul (float64.seconds (time_Sub now (lastRef w))) (rate w))) in
  if float64.ltb t (float64.of_Z 1) then (false, with_tokens w t now)
  else (true, with_tokens w (float64.sub t (float64.of_Z 1)) now).

Definition client (addr : string) (w : Warmer) : option conn * Warmer :=
  match clients w !! addr with
  | Some c => (Some c, w)
  | None =>
      match NewClient addr with
      | None => (None, w)
      | Some c => (Some c, with_clients w (<[addr := c]> (clients w)))
      end
  end.

Definition drop_one (w : Warmer) : Warmer :=
  with_counters w (executed w) (skippedPresent w) (u64 (dropped w + 1)).
Definition skip_one (w : Warmer) : Warmer :=
  with_counters w (executed w) (u64 (skippedPresent w + 1)) (dropped w).
Definition execute_one (w : Warmer) : Warmer :=
  with_counters w (u64 (executed w + 1)) (skippedPresent w) (dropped w).

(** From the budget check on: fetch and store. *)
Definition fetch_and_put (now : Z) (cmd : pmv1.WarmCommand) (w : Warmer) : option Warmer :=
  let '(ok, w) := allow now w in
  if negb ok then Some (drop_one w)
  else
    let '(c, w) := client (pmv1.SourceNode cmd) w in
    match c with
    | None => Some w
    | Some c =>
        match recv c (pmv1.MkGetBlocksRequest 0 [pmv1.warm_BlockId cmd]) with
        | Err _ | Ok None => Some w
        | Ok (Some pb) =>
            match CacheNode.fromProto (Some pb) with
            | Err _ => Some w
            | Ok b => '(s, _) ← Put (store w) b; Some (execute_one (with_store w s))
            end
        end
    end.

(** [now_ms] is the clock at the deadline check, [now] at the budget check; [None] is
    a panic of the store. *)
Definition Handle (now_ms now : Z) (value : bytes) (w : Warmer) : option Warmer :=
  match Unmarshal value with
  | None => Some w
  | Some cmd =>
      if decide (pmv1.TargetNode cmd ≠ self w ∨ length (pmv1.warm_BlockId cmd) ≠ Chain.HashSize) then Some w
      else if ((0 <? pmv1.DeadlineUnixMs cmd) && (pmv1.DeadlineUnixMs cmd <? now_ms))%Z then Some (drop_one w)
      else
        '(s, present) ← Contains (store w) (pmv1.warm_BlockId cmd);
        let w := with_store w s in
        if (present : bool) then Some (skip_one w)
        else if decide (pmv1.SourceNode cmd = "") then Some w
        else fetch_and_put now cmd w
  end.

(** ** Lemmas *)
Context `{!StoreSpec S}.
Implicit Types w : Warmer.

(** A command for this node, well-formed and in time. *)
Definition for_us w (cmd : pmv1.WarmCommand) : Prop :=
  pmv1.TargetNode cmd = self w ∧ length (pmv1.warm_BlockId cmd) = Chain.HashSize.
Definition addressed w (cmd : pmv1.WarmCommand) (now_ms : Z) : Prop :=
  for_us w cmd ∧ ((pmv1.DeadlineUnixMs cmd ≤ 0)%Z ∨ (now_ms ≤ pmv1.DeadlineUnixMs cmd)%Z).
(** ... for a block that is missing here and has a source. *)
Definition wanted w (cmd : pmv1.WarmCommand) (now_ms : Z) : Prop :=
  addressed w cmd now_ms ∧ view (store w) !! pmv1.warm_BlockId cmd = None ∧ pmv1.SourceNode cmd ≠ "".
(** The connection to an address: the one that is open, or a new one. *)
Definition conn_of w (addr : string) : option conn :=
  match clients w !! addr with Some c => Some c | None => NewClient addr end.
(** The source of [cmd], asked for the block of [cmd], answers with [b]. *)
Definition fetched w (cmd : pmv1.WarmCommand) (b : Block) : Prop :=
  ∃ c pb, conn_of w (pmv1.SourceNode cmd) = Some c ∧
    recv c (pmv1.MkGetBlocksRequest 0 [pmv1.warm_BlockId cmd]) = Ok (Some pb) ∧
    CacheNode.fromProto (Some pb) = Ok b.

(** What a message does to the node; the conditions exclude each other. *)
Inductive outcome (now_ms now : Z) (value : bytes) w w' : Prop :=
| o_foreign :
    (∀ cmd, Unmarshal value = Some cmd → ¬ for_us w cmd) → w' = w → outcome now_ms now value w w'
| o_late cmd :
    Unmarshal value = Some cmd → for_us w cmd → (0 < pmv1.DeadlineUnixMs cmd < now_ms)%Z →
    w' = drop_one w → outcome now_ms now value w w'
| o_present cmd :
    Unmarshal value = Some cmd → addressed w cmd now_ms → is_Some (view (store w) !! pmv1.warm_BlockId cmd) →
    view (store w') = view (store w) → tokens w' = tokens w → clients w' = clients w →
    Counters w' = Counters (skip_one w) → outcome now_ms now value w w'
| o_sourceless cmd :
    Unmarshal value = Some cmd → addressed w cmd now_ms → view (store w) !! pmv1.warm_BlockId cmd = None →
    pmv1.SourceNode cmd = "" → view (store w') = view (store w) → tokens w' = tokens w → clients w' = clients w →
    Counters w' = Counters w → outcome now_ms now value w w'
| o_over_budget cmd :
    Unmarshal value = Some cmd → wanted w cmd now_ms → (allow now w).1 = false →
    view (store w') = view (store w) → clients w' = clients w → Counters w' = Counters (drop_one w) →
    outcome now_ms now value w w'
| o_unanswered cmd :
    Unmarshal value = Some cmd → wanted w cmd now_ms → (allow now w).1 = true → (∀ b, ¬ fetched w cmd b) →
    view (store w') = view (store w) → Counters w' = Counters w → outcome now_ms now value w w'
| o_executes cmd b s stored :
    Unmarshal value = Some cmd → wanted w cmd now_ms → (allow now w).1 = true → fetched w cmd b →
    Contains (store w) (pmv1.warm_BlockId cmd) = Some (s, false) → Put s b = Some (store w', stored) →
    (stored = true → view (store w) !! ID b = None ∧ view (store w') !! ID b = Some b ∧
                     view (store w') ⊆ <[ID b := b]> (view (store w))) →
    (stored = false → view (store w') = view (store w)) →
    Counters w' = Counters (execute_one w) → outcome now_ms now value w w'.

Lemma allow_same now w ok w' :
  allow now w = (ok, w') →
  store w' = store w ∧ self w' = self w ∧ Counters w' = Counters w ∧ clients w' = clients w.
Proof. unfold allow. destruct (float64.ltb _ _); by intros [= <- <-]. Qed.

Lemma client_same addr w c w' :
  client addr w = (c, w') → store w' = store w ∧ self w' = self w ∧ Counters w' = Counters w ∧ c = conn_of w addr.
Proof.
  unfold client, conn_of. destruct (clients w !! addr); [by intros [= <- <-]|].
  destruct (NewClient addr); by intros [= <- <-].
Qed.

(** The fetch, from the state the presence check left. *)
Lemma fetch_and_put_outcome now_ms now value cmd w s :
  store_wf (store w) → store_wf s → view s = view (store w) →
  Contains (store w) (pmv1.warm_BlockId cmd) = Some (s, false) →
  Unmarshal value = Some cmd → wanted w cmd now_ms → (∀ b, fetched w cmd b → payload_ok b) →
  ∃ w', fetch_and_put now cmd (with_store w s) = Some w' ∧ self w' = self w ∧ store_wf (store w') ∧
    outcome now_ms now value w w'.
Proof.
  intros Hwf Hs Hv Hc Hu Hw Hok. unfold fetch_and_put. destruct (allow now (with_store w s)) as [ok w1] eqn:Ha.
  destruct (allow_same _ _ _ _ Ha) as (Hs1 & Hf1 & Hc1 & Hk1). cbn [store self clients with_store] in Hs1, Hf1, Hk1.
  assert ((allow now w).1 = ok) as Hal.
  { unfold allow in Ha |- *. cbn [tokens lastRef rate with_store] in Ha. destruct (float64.ltb _ _); by injection Ha as <- _. }
  destruct ok; cbn [negb].
  2:{ exists (drop_one w1). cbn [drop_one with_counters self store]. rewrite Hs1. split_and!; [done|done|done|].
      eapply o_over_budget; [exact Hu|exact Hw|exact Hal|cbn; by rewrite Hs1|exact Hk1|]. injection Hc1 as H1 H2 H3. unfold Counters, drop_one. cbn. by rewrite H1, H2, H3. }
  destruct (client (pmv1.SourceNode cmd) w1) as [c w2] eqn:Hcl.
  destruct (client_same _ _ _ _ Hcl) as (Hs2 & Hf2 & Hc2 & Hcc).
  assert (c = conn_of w (pmv1.SourceNode cmd)) as -> by (rewrite Hcc; unfold conn_of; by rewrite Hk1). clear Hcc.
  assert ((∀ b, ¬ fetched w cmd b) → self w2 = self w ∧ store_wf (store w2) ∧ outcome now_ms now value w w2) as Hno.
  { intros Hn. rewrite Hs2, Hs1. split_and!; [congruence|done|]. eapply o_unanswered; [exact Hu|exact Hw|exact Hal|exact Hn|by rewrite Hs2, Hs1|by rewrite Hc2, Hc1]. }
  destruct (conn_of w (pmv1.SourceNode cmd)) as [c|] eqn:Hco.
  2:{ exists w2. split; [done|]. apply Hno. intros b (c & pb & ? & _). congruence. }
  destruct (recv c _) as [[pb|]|] eqn:Hr;
    [|exists w2; (split; [done|]); apply Hno; intros b (c' & pb' & ? & ? & _); congruence..].
  destruct (CacheNode.fromProto (Some pb)) as [b|] eqn:Hb.
  2:{ exists w2. split; [done|]. apply Hno. intros b (c' & pb' & ? & ? & ?). congruence. }
  assert (fetched w cmd b) as Hfe by (exists c, pb; done).
  destruct (Put_spec s b Hs (Hok b Hfe)) as (s' & st & Hput & Hwf' & Ht & Hf). rewrite Hs2, Hs1, Hput. bind_step.
  eexists. split_and!; [done|cbn; congruence|done|]. rewrite Hv in Ht, Hf.
  eapply o_executes; [exact Hu|exact Hw|exact Hal|exact Hfe|exact Hc|exact Hput|exact Ht|exact Hf|]. injection Hc1 as H1 H2 H3. injection Hc2 as H4 H5 H6. unfold Counters, execute_one. cbn. congruence.
Qed.

(** The path of a command up to the budget check. *)
Lemma Handle_addressed now_ms now value w cmd :
  Unmarshal value = Some cmd → addressed w cmd now_ms →
  Handle now_ms now value w =
    '(s, present) ← Contains (store w) (pmv1.warm_BlockId cmd);
    let w := with_store w s in
    if (present : bool) then Some (skip_one w)
    else if decide (pmv1.SourceNode cmd = "") then Some w
    else fetch_and_put now cmd w.
Proof.
  intros Hu ((Ht & Hl) & Hd). unfold Handle. rewrite Hu. rewrite decide_False by tauto.
  destruct (Z.ltb_spec 0 (pmv1.DeadlineUnixMs cmd)), (Z.ltb_spec (pmv1.DeadlineUnixMs cmd) now_ms); done || lia.
Qed.

(** A command for a present block: nothing but recency and one counter. *)
Lemma Handle_present now_ms now value w cmd b :
  store_wf (store w) → Unmarshal value = Some cmd → addressed w cmd now_ms →
  view (store w) !! pmv1.warm_BlockId cmd = Some b →
  ∃ w', Handle now_ms now value w = Some w' ∧ store_wf (store w') ∧ view (store w') = view (store w) ∧
    Counters w' = Counters (skip_one w).
Proof.
  intros Hwf Hu Ha Hb. rewrite (Handle_addressed now_ms now value w cmd Hu Ha).
  destruct (Contains_spec (store w) (pmv1.warm_BlockId cmd) Hwf) as (s & -> & Hwf' & Hv).
  rewrite Hb, bool_decide_true by (by eexists). bind_step. by eexists.
Qed.

(** What a source node answers to the fetch. *)
Definition source_answer {S'} `{!Store S'} (epoch : option N) (src : S') (req : pmv1.GetBlocksRequest)
    : result unit (option pmv1.Block) :=
  match CacheNode.GetBlocks epoch (λ _, true) req src with
  | Some (_, pb :: _, _) => Ok (Some pb)
  | _ => Err tt
  end.

Lemma source_answer_spec {S'} `{!Store S', !StoreSpec S'} epoch (src : S') bid b :
  store_wf src → length bid = Chain.HashSize → view src !! bid = Some b →
  source_answer epoch src (pmv1.MkGetBlocksRequest 0 [bid]) = Ok (Some (CacheNode.toProto b)).
Proof.
  intros Hwf Hl Hb. unfold source_answer, CacheNode.GetBlocks. cbn [pmv1.greq_RingEpoch pmv1.greq_BlockIds].
  assert (CacheNode.checkEpoch epoch 0 = Ok tt) as -> by (by destruct epoch).
  destruct (CacheNode.get_loop_spec [bid] [] src Hwf) as (s' & -> & _); [by repeat constructor|].
  simpl. by rewrite Hb.
Qed.

(** A fetch whose source answers with a block: the budget decides whether it is
    stored, and nothing else changes but the bucket and the connection. *)
Lemma fetch_and_put_from now cmd w c b :
  (∀ w0, clients w0 = clients w → (client (pmv1.SourceNode cmd) w0).1 = Some c) →
  recv c (pmv1.MkGetBlocksRequest 0 [pmv1.warm_BlockId cmd]) = Ok (Some (CacheNode.toProto b)) →
  length (ID b) = Chain.HashSize → length (ParentID b) = Chain.HashSize →
  ∃ w2, store w2 = store w ∧ self w2 = self w ∧ Counters w2 = Counters w ∧
    (∀ a c', clients w2 !! a = Some c' → clients w !! a = Some c' ∨ NewClient a = Some c') ∧
    fetch_and_put now cmd w =
      if (allow now w).1 then '(s, _) ← Put (store w) b; Some (execute_one (with_store w2 s))
      else Some (drop_one w2).
Proof.
  intros Hcl Hrecv Hid Hpar. unfold fetch_and_put. destruct (allow now w) as [ok w1] eqn:Hal.
  destruct (allow_same _ _ _ _ Hal) as (A1 & A2 & A3 & A4). cbn [fst]. destruct ok; cbn [negb].
  2:{ exists w1. split_and!; try done. intros a c' Hc. left. by rewrite <-A4. }
  pose proof (Hcl w1 A4) as Hcl1. destruct (client _ w1) as [c0 w2] eqn:Hcl2. simpl in Hcl1. subst c0.
  destruct (client_same _ _ _ _ Hcl2) as (B1 & B2 & B3 & _). rewrite Hrecv, CacheNode.fromProto_toProto by done.
  exists w2. rewrite B1, B2, B3, A1, A2. split_and!; try done.
  intros a c' Hc. unfold client in Hcl2. destruct (clients w1 !! pmv1.SourceNode cmd) as [x|].
  { left. rewrite <-A4. by injection Hcl2 as _ <-. }
  destruct (NewClient _) as [x|] eqn:Hn; [|done]. injection Hcl2 as _ <-. simpl in Hc.
  apply lookup_insert_Some in Hc as [[<- <-]|[_ Hc]]; [by right|left; by rewrite <-A4].
Qed.

Lemma Handle_outcome now_ms now value w :
  store_wf (store w) → (∀ cmd b, Unmarshal value = Some cmd → fetched w cmd b → payload_ok b) →
  ∃ w', Handle now_ms now value w = Some w' ∧ self w' = self w ∧ store_wf (store w') ∧ outcome now_ms now value w w'.
Proof.
  intros Hwf Hok. destruct (Unmarshal value) as [cmd|] eqn:Hu.
  2:{ exists w. unfold Handle. rewrite Hu. split_and!; [done..|]. apply o_foreign; [congruence|done]. }
  destruct (decide (pmv1.TargetNode cmd ≠ self w ∨ length (pmv1.warm_BlockId cmd) ≠ Chain.HashSize)) as [Hfor|Hfor].
  { exists w. unfold Handle. rewrite Hu, decide_True by done. split_and!; [done..|].
    apply o_foreign; [|done]. intros cmd' Hcmd' [??]. rewrite Hu in Hcmd'. injection Hcmd' as <-. tauto. }
  assert (for_us w cmd) as Hus by (split; apply dec_stable; tauto).
  destruct (decide (0 < pmv1.DeadlineUnixMs cmd < now_ms)%Z) as [Hl|Hl].
  { exists (drop_one w). unfold Handle. rewrite Hu, decide_False by done.
    rewrite (proj2 (Z.ltb_lt _ _) (proj1 Hl)), (proj2 (Z.ltb_lt _ _) (proj2 Hl)). split_and!; [done..|]. by eapply o_late. }
  assert (addressed w cmd now_ms) as Hadr by (split; [done|lia]).
  rewrite (Handle_addressed now_ms now value w cmd Hu Hadr).
  destruct (Contains_spec (store w) (pmv1.warm_BlockId cmd) Hwf) as (s & Hc & Hwf' & Hv). rewrite Hc. bind_step.
  destruct (view (store w) !! pmv1.warm_BlockId cmd) as [b|] eqn:Hb.
  { rewrite bool_decide_true by (by eexists). eexists. split_and!; [done..|]. eapply o_present; eauto; by rewrite Hb. }
  rewrite bool_decide_false in Hc |- * by (by intros []).
  destruct (decide (pmv1.SourceNode cmd = "")) as [Hsrc|Hsrc].
  { eexists. split_and!; [done..|]. by eapply o_sourceless. }
  apply (fetch_and_put_outcome now_ms now value cmd w s); try done. intros b. by apply Hok.
Qed.

(** ** Properties *)

(** C34. Warming is contained: whatever bytes arrive on the topic, the handler does not
    panic and does exactly what one of seven cases says ([outcome]).  A message that is
    no command, or one for another node or with a malformed ID, changes nothing; a late
    command is dropped; a command for a present block is skipped; one without a source
    is ignored; one over budget is dropped; one whose own source, asked for the
    command's own block, cannot be reached or answers with no valid block is ignored.
    In all these cases no stored block changes.  Otherwise the block that source
    answered with is put into the store, and no other block is added. *)
Theorem warm_commands_contained now_ms now value w :
  store_wf (store w) → (∀ cmd b, Unmarshal value = Some cmd → fetched w cmd b → payload_ok b) →
  ∃ w', Handle now_ms now value w = Some w' ∧ self w' = self w ∧ store_wf (store w') ∧ outcome now_ms now value w w'.
Proof. apply Handle_outcome. Qed.

(** A warm command restores a replica: the target of a command that is in time and
    within budget fetches the block from a source that holds it, whatever epoch the
    source enforces, and ends up holding the same block; redelivering the command
    then changes nothing but one counter. *)
Theorem warm_restores_replica {S'} `{!Store S', !StoreSpec S'} now_ms now value w cmd b c epoch (src : S') :
  store_wf (store w) → store_wf src → Unmarshal value = Some cmd → addressed w cmd now_ms →
  view (store w) !! pmv1.warm_BlockId cmd = None → pmv1.SourceNode cmd ≠ "" → (allow now w).1 = true →
  (∀ w0, clients w0 = clients w → (client (pmv1.SourceNode cmd) w0).1 = Some c) →
  (∀ req, recv c req = source_answer epoch src req) →
  view src !! pmv1.warm_BlockId cmd = Some b → length (ParentID b) = Chain.HashSize → payload_ok b →
  (∀ s, Contains (store w) (pmv1.warm_BlockId cmd) = Some (s, false) → ∃ s', Put s b = Some (s', true)) →
  ∃ w', Handle now_ms now value w = Some w' ∧
    view (store w') !! pmv1.warm_BlockId cmd = Some b ∧ Counters w' = Counters (execute_one w) ∧
    ∃ w'', Handle now_ms now value w' = Some w'' ∧ view (store w'') = view (store w') ∧
      Counters w'' = Counters (skip_one w').
Proof.
  intros Hwf Hsrc Hu Ha Hno Hs Hal Hcl Hrecv Hb Hpar Hok Hput.
  assert (ID b = pmv1.warm_BlockId cmd) as Hid by (by eapply (view_ID src)).
  assert (length (pmv1.warm_BlockId cmd) = Chain.HashSize) as Hlen by apply Ha.
  destruct (Contains_spec (store w) (pmv1.warm_BlockId cmd) Hwf) as (s & Hc & Hwf1 & Hv1).
  rewrite Hno, bool_decide_false in Hc by (by intros []).
  destruct (Hput s Hc) as (s2 & Hp). destruct (Put_spec s b Hwf1 Hok) as (? & ? & Hp' & Hwf2 & Ht & _).
  rewrite Hp in Hp'. injection Hp' as <- <-. destruct (Ht eq_refl) as (_ & Hget & _). rewrite Hid in Hget.
  assert (∃ w', fetch_and_put now cmd (with_store w s) = Some w' ∧ store w' = s2 ∧ self w' = self w ∧
    Counters w' = Counters (execute_one w)) as (w' & Hf & Hst & Hself & Hcnt).
  { destruct (fetch_and_put_from now cmd (with_store w s) c b) as (w2 & _ & B2 & B3 & _ & ->);
      [exact Hcl|by rewrite Hrecv, (source_answer_spec epoch src _ b)|congruence|done|].
    assert ((allow now (with_store w s)).1 = (allow now w).1) as ->.
    { unfold allow. simpl. by destruct (float64.ltb _ _). }
    rewrite Hal. simpl. rewrite Hp. bind_step. injection B3 as B3 B4 B5.
    eexists. split_and!; [done|done|done|]. unfold Counters. simpl. congruence. }
  exists w'. assert (Handle now_ms now value w = Some w') as Hh.
  { rewrite (Handle_addressed _ _ _ _ _ Hu Ha), Hc. bind_step. by rewrite decide_False. }
  rewrite Hst. split_and!; [done|done|done|]. rewrite <-Hst.
  destruct (Handle_present now_ms now value w' cmd b) as (w'' & ? & _ & ? & ?).
  - by rewrite Hst.
  - done.
  - unfold addressed, for_us in *. by rewrite Hself.
  - by rewrite Hst.
  - by exists w''.
Qed.
End warmer.
Arguments Warmer S conn : clear implicits.

(** ** Witnesses: an empty node that warms one block from a node that holds it *)
Definition demo_b : Block := CacheNode.demo_block x01.
Definition demo_src : LRU.LRU :=
  match LRU.lru_Put CacheNode.demo_node demo_b with Some (s, _) => s | None => CacheNode.demo_node end.
Definition demo_cmd : pmv1.WarmCommand :=
  pmv1.MkWarmCommand (CacheNode.demo_id x01) [] "m" "a:1" (float64.of_Z 1) 10 "cn-3".
Definition demo_Unmarshal (_ : bytes) : option pmv1.WarmCommand := Some demo_cmd.
Definition demo_recv (_ : unit) (req : pmv1.GetBlocksRequest) : result unit (option pmv1.Block) :=
  source_answer (Some 7) demo_src req.
Definition demo_w : Warmer LRU.LRU unit := NewWarmer "cn-3" CacheNode.demo_node (float64.of_Z 0) 0.

Lemma demo_src_wf : LRU.lru_wf demo_src.
Proof.
  destruct (LRU.lru_Put_order CacheNode.demo_node demo_b CacheNode.demo_node_wf eq_refl) as (s & st & Hp & Hwf & _).
  unfold demo_src. by rewrite Hp.
Qed.

(** The command is for this node and its source holds the block: it is stored. *)
Lemma warm_commands_contained_witness :
  ∃ w', Handle demo_Unmarshal (λ _, Some tt) demo_recv 5 5 [] demo_w = Some w' ∧
    outcome demo_Unmarshal (λ _, Some tt) demo_recv 5 5 [] demo_w w' ∧
    view (store w') !! CacheNode.demo_id x01 = Some demo_b ∧ executed w' = 1.
Proof.
  destruct (warm_commands_contained demo_Unmarshal (λ _, Some tt) demo_recv 5 5 [] demo_w) as (w' & H1 & _ & _ & H2).
  - exact CacheNode.demo_node_wf.
  - intros cmd b [= <-] (c & pb & _ & H1 & H2). vm_compute in H1. injection H1 as <-. vm_compute in H2.
    injection H2 as <-. vm_compute. reflexivity.
  - exists w'. split; [exact H1|]. split; [exact H2|]. vm_compute in H1. injection H1 as <-. split; vm_compute; reflexivity.
Defined.

Lemma warm_restores_replica_witness :
  ∃ w', Handle demo_Unmarshal (λ _, Some tt) demo_recv 5 5 [] demo_w = Some w' ∧
    view (store w') !! CacheNode.demo_id x01 = Some demo_b ∧ executed w' = 1.
Proof.
  destruct (warm_restores_replica demo_Unmarshal (λ _, Some tt) demo_recv 5 5 [] demo_w demo_cmd demo_b tt (Some 7) demo_src)
    as (w' & H1 & H2 & H3 & _).
  - exact CacheNode.demo_node_wf.
  - exact demo_src_wf.
  - reflexivity.
  - split; [split; reflexivity|]. right. simpl. lia.
  - reflexivity.
  - discriminate.
  - vm_compute. reflexivity.
  - intros w0 Hw. unfold client. rewrite Hw. reflexivity.
  - reflexivity.
  - vm_compute. reflexivity.
  - reflexivity.
  - reflexivity.
  - intros s Hs. vm_compute in Hs. injection Hs as <-. eexists. vm_compute. reflexivity.
  - exists w'. split; [exact H1|]. split; [exact H2|]. exact (f_equal (λ c, c.1.1) H3).
Defined.
End Warmer.
