(* ===== verification/Collectors.v ===== *)
(** * Metrics and telemetry: src/internal/cachenode/collector.go,
      src/internal/directory/collector.go

    The collectors as instances of one interface ([Describe] and [Collect] send to a
    channel: lists, in order), the metrics of the gateway by name, and the telemetry
    loop.  The Prometheus client is not in the repository: its registry appears only as
    the two obligations it documents for a collector ([CollectorSpec]: every metric
    collected was described, no two descriptors of a process share a name) and as the
    meaning of a counter, which never decreases between scrapes. *)

From Stdlib Require Import Floats.SpecFloat.
From S2P Require Import Prelude Proto Float64 FloatRound BlockStore LRU Paged PagedProps StoreCounts CacheNode Events Warmer Paxos PaxosLog Directory.

Module Collectors.
Local Open Scope N_scope.

(** [prometheus.NewDesc] without labels, and [MustNewConstMetric]. *)
Record Desc := NewDesc { fqName : string; help : string }.
Inductive ValueType := CounterValue | GaugeValue.
Record Metric := NewConstMetric { m_desc : Desc; m_type : ValueType; m_value : spec_float }.
#[global] Instance Desc_eq_dec : EqDecision Desc.
Proof. solve_decision. Defined.

Class Collector (C : Type) := {
  Describe : C → list Desc;
  Collect : C → list Metric
}.

(** ** StoreCollector *)
Section store.
Context {S : Type} `{!BlockStore.Store S}.

Record StoreCollector := MkStoreCollector {
  sc_store : S;
  occupancy : Desc;
  capacity : Desc;
  hits : Desc;
  misses : Desc;
  evictions : Desc;
  evictedCost : Desc
}.
Definition NewStoreCollector (s : S) : StoreCollector :=
  MkStoreCollector s
    (NewDesc "pm_cachenode_occupancy_bytes" "Arena bytes in use.")
    (NewDesc "pm_cachenode_capacity_bytes" "Arena capacity.")
    (NewDesc "pm_cachenode_hits_total" "Store lookups that hit.")
    (NewDesc "pm_cachenode_misses_total" "Store lookups that missed.")
    (NewDesc "pm_cachenode_evictions_total" "Blocks evicted.")
    (NewDesc "pm_cachenode_evicted_cost_us_total" "Prefill cost evicted, µs — eviction-quality signal.").
Definition store_Describe (c : StoreCollector) : list Desc :=
  [occupancy c; capacity c; hits c; misses c; evictions c; evictedCost c].
Definition store_Collect (c : StoreCollector) : list Metric :=
  let st := BlockStore.store_Stats (sc_store c) in
  [NewConstMetric (occupancy c) GaugeValue (float64.of_N (BlockStore.OccupancyBytes st));
   NewConstMetric (capacity c) GaugeValue (float64.of_N (BlockStore.CapacityBytes st));
   NewConstMetric (hits c) CounterValue (float64.of_N (BlockStore.Hits st));
   NewConstMetric (misses c) CounterValue (float64.of_N (BlockStore.Misses st));
   NewConstMetric (evictions c) CounterValue (float64.of_N (BlockStore.Evictions st));
   NewConstMetric (evictedCost c) CounterValue (float64.of_N (BlockStore.EvictedCostUS st))].
#[global] Instance StoreCollector_Collector : Collector StoreCollector := {
  Describe := store_Describe; Collect := store_Collect
}.

(** ** WarmerCollector *)
Context {conn : Type}.
Record WarmerCollector := MkWarmerCollector {
  wc_w : Warmer.Warmer S conn;
  wc_executed : Desc;
  wc_skipped : Desc;
  wc_dropped : Desc
}.
Definition NewWarmerCollector (w : Warmer.Warmer S conn) : WarmerCollector :=
  MkWarmerCollector w
    (NewDesc "pm_cachenode_warms_executed_total" "Warm commands executed (block fetched+stored).")
    (NewDesc "pm_cachenode_warms_skipped_present_total" "Warm commands skipped: block already present.")
    (NewDesc "pm_cachenode_warms_dropped_total" "Warm commands dropped: stale deadline or over rate budget.").
Definition warmer_Describe (c : WarmerCollector) : list Desc := [wc_executed c; wc_skipped c; wc_dropped c].
Definition warmer_Collect (c : WarmerCollector) : list Metric :=
  let '(e, s, d) := Warmer.Counters (wc_w c) in
  [NewConstMetric (wc_executed c) CounterValue (float64.of_N e);
   NewConstMetric (wc_skipped c) CounterValue (float64.of_N s);
   NewConstMetric (wc_dropped c) CounterValue (float64.of_N d)].
#[global] Instance WarmerCollector_Collector : Collector WarmerCollector := {
  Describe := warmer_Describe; Collect := warmer_Collect
}.
End store.
Arguments StoreCollector S : clear implicits.
Arguments WarmerCollector S conn : clear implicits.

(** ** The directory's Collector *)
Record DirCollector := MkDirCollector {
  dc_s : Paxos.Log (Directory.StateMachine * Directory.hbTracker);
  dc_epoch : Desc;
  dc_members : Desc;
  dc_applied : Desc
}.
Definition NewCollector (s : Paxos.Log (Directory.StateMachine * Directory.hbTracker)) : DirCollector :=
  MkDirCollector s
    (NewDesc "pm_directory_ring_epoch" "Current ring epoch.")
    (NewDesc "pm_directory_members" "Live cache-node members.")
    (NewDesc "pm_directory_log_applied" "Paxos log slots applied.").
Definition dir_Describe (c : DirCollector) : list Desc := [dc_epoch c; dc_members c; dc_applied c].
Definition dir_Collect (c : DirCollector) : list Metric :=
  let ring := Directory.Ring (Paxos.app (dc_s c)).1 in
  [NewConstMetric (dc_epoch c) GaugeValue (float64.of_N (pmv1.ring_Epoch ring));
   NewConstMetric (dc_members c) GaugeValue (float64.of_Z (Z.of_nat (length (pmv1.ring_Nodes ring))));
   NewConstMetric (dc_applied c) CounterValue (float64.of_N (Paxos.Applied (dc_s c)))].
#[global] Instance DirCollector_Collector : Collector DirCollector := {
  Describe := dir_Describe; Collect := dir_Collect
}.

(** ** The gateway's metrics, registered when the package is loaded *)
Definition gateway_descs : list Desc :=
  [NewDesc "pm_gateway_match_seconds" "Match RPC latency, gateway-side.";
   NewDesc "pm_gateway_blocks_requested_total" "Chain blocks requested across all Match calls.";
   NewDesc "pm_gateway_blocks_hit_total" "Chain blocks served from cache (within matched depth).";
   NewDesc "pm_gateway_cost_requested_us_total" "Simulated prefill cost requested, µs (from PutBlocks metadata).";
   NewDesc "pm_gateway_wrong_epoch_retries_total" "Match fan-outs retried after a WRONG_EPOCH rejection."].

(** ** RunTelemetry

    One entry per iteration of the loop: the context ended, or the ticker fired and the
    clock and the store's statistics were read.  The producer is the bus; [Marshal] is
    [proto.Marshal]. *)
Inductive tick := Done | Tick (now_ms : Z) (st : BlockStore.Stats).
Section telemetry.
Context (Marshal : pmv1.NodeTelemetry → option bytes).

Fixpoint telemetry_loop (nodeID : string) (prev : BlockStore.Stats) (ticks : list tick) (b : Events.Bus) : Events.Bus :=
  match ticks with
  | [] | Done :: _ => b
  | Tick now_ms st :: ticks =>
      telemetry_loop nodeID st ticks
        match Marshal (CacheNode.telemetry_tick nodeID now_ms prev st) with
        | None => b
        | Some raw => Events.Produce Events.TopicTelemetry (Events.MkMsg (string_bytes nodeID) raw) b
        end
  end.
Definition RunTelemetry (nodeID : string) (ticks : list tick) (b : Events.Bus) : Events.Bus :=
  telemetry_loop nodeID BlockStore.zero_stats ticks b.
End telemetry.

(** ** The telemetry feed

    The ticks before the context ends, with a consumer that has room for them. *)
Definition ticks (samples : list (Z * BlockStore.Stats)) : list tick := (λ x, Tick x.1 x.2) <$> samples.

Lemma telemetry_loop_queue Marshal enc nodeID prev samples rest b ch cs q :
  (∀ ev, Marshal ev = Some (enc ev)) →
  Events.bus_wf b → Events.subs b !! Events.TopicTelemetry = Some cs → ch ∈ cs →
  Events.queues b !! ch = Some q → (length q + length samples ≤ Events.chan_cap)%nat →
  Events.queues (telemetry_loop Marshal nodeID prev (ticks samples ++ Done :: rest) b) !! ch =
    Some (q ++ ((λ ev, Events.MkMsg (string_bytes nodeID) (enc ev)) <$> CacheNode.telemetry_events nodeID prev samples)).
Proof.
  intros Henc. revert prev b q. induction samples as [|[t st] samples IH]; intros prev b q Hwf Hcs Hch Hq Hroom.
  { simpl. by rewrite app_nil_r. }
  change (ticks ((t, st) :: samples)) with (Tick t st :: ticks samples).
  cbn [app telemetry_loop CacheNode.telemetry_events]. rewrite Henc.
  set (m := Events.MkMsg _ _). set (b' := Events.Produce _ m b).
  destruct (Events.Produce_spec Events.TopicTelemetry m b Hwf) as [Hs Hqs]. fold b' in Hs, Hqs.
  rewrite (IH st b' (q ++ [m])); [by rewrite <-app_assoc| |by rewrite Hs|done| |len_lia].
  - by apply (Events.bus_step_wf b ∅ (Events.BProduce _ _)).
  - rewrite Hqs, Hcs, decide_True, Hq by done. simpl.
    destruct (Nat.ltb_spec (length q) Events.chan_cap); [done|]. simpl in Hroom. lia.
Qed.

(** The telemetry feed is complete: a consumer that keeps up receives one event per
    tick, in order, and adding up the hits it decodes gives the store's hit counter at
    the last tick, although every event carries a difference only. *)
Theorem telemetry_feed_complete Marshal enc dec nodeID samples t st b ch cs :
  (∀ ev, Marshal ev = Some (enc ev)) → (∀ ev, dec (enc ev) = Some ev) →
  Events.bus_wf b → Events.subs b !! Events.TopicTelemetry = Some cs → ch ∈ cs →
  Events.queues b !! ch = Some [] → (length samples ≤ Events.chan_cap)%nat →
  last samples = Some (t, st) → Forall (λ x, BlockStore.Hits x.2 < two64) samples →
  ∃ msgs, Events.queues (RunTelemetry Marshal nodeID (ticks samples ++ [Done]) b) !! ch = Some msgs ∧
    length msgs = length samples ∧
    u64 (foldr N.add 0 (pmv1.Hits <$> omap (λ m, dec (Events.value m)) msgs)) = BlockStore.Hits st.
Proof.
  intros Henc Hdec Hwf Hcs Hch Hq Hroom Hlast Hall. eexists. split.
  { unfold RunTelemetry. by eapply telemetry_loop_queue. }
  set (evs := CacheNode.telemetry_events _ _ _). cbn [app]. split.
  - rewrite length_fmap. unfold evs. generalize BlockStore.zero_stats as prev. clear.
    induction samples as [|[t st] samples IH]; intros prev; simpl; [done|]. by rewrite IH.
  - replace (omap _ _) with evs.
    2:{ clear -Hdec. induction evs as [|ev evs IH]; cbn; [done|]. rewrite Hdec. by f_equal. }
    change (foldr N.add 0 (pmv1.Hits <$> evs)) with (BlockStore.Hits BlockStore.zero_stats + foldr N.add 0 (pmv1.Hits <$> evs)).
    apply (CacheNode.telemetry_deltas_sum nodeID BlockStore.zero_stats samples t st); [done|done| |done].
    by eapply (proj1 (Forall_forall _ _) Hall (t, st)), last_Some_elem_of.
Qed.

(** ** The obligations of a collector *)
Class CollectorSpec (C : Type) `{Collector C} := {
  Collect_described c : m_desc <$> Collect c = Describe c
}.
#[global] Instance StoreCollector_spec {S} `{!BlockStore.Store S} : CollectorSpec (StoreCollector S).
Proof. by constructor. Qed.
#[global] Instance WarmerCollector_spec {S conn} `{!BlockStore.Store S} : CollectorSpec (WarmerCollector S conn).
Proof. by constructor. Qed.
#[global] Instance DirCollector_spec : CollectorSpec DirCollector.
Proof. by constructor. Qed.

(** No two metrics of one process share a name, so that registering them does not
    panic: the cache node registers two collectors, the directory one, the gateway its
    package variables. *)
Theorem metric_names_distinct {S conn} `{!BlockStore.Store S} (s : S) (w : Warmer.Warmer S conn) l :
  NoDup (fqName <$> Describe (NewStoreCollector s) ++ Describe (NewWarmerCollector w)) ∧
  NoDup (fqName <$> Describe (NewCollector l)) ∧ NoDup (fqName <$> gateway_descs).
Proof. split_and!; apply (bool_decide_unpack _); vm_compute; done. Qed.

(** ** Counters never decrease between scrapes *)
Definition metric_le (m m' : Metric) : Prop :=
  m_desc m' = m_desc m ∧ (m_type m = CounterValue → float64.leb (m_value m) (m_value m') = true).
Definition never_decreases {C} `{Collector C} (c c' : C) : Prop := Forall2 metric_le (Collect c) (Collect c').

Lemma counter_le d a b :
  a ≤ b < two64 →
  metric_le (NewConstMetric d CounterValue (float64.of_N a)) (NewConstMetric d CounterValue (float64.of_N b)).
Proof. intros []. split; [done|]. intros _. by apply float64_round.of_N_mono. Qed.
Lemma gauge_le d x y : metric_le (NewConstMetric d GaugeValue x) (NewConstMetric d GaugeValue y).
Proof. by split. Qed.
#[local] Hint Resolve counter_le gauge_le : core.
(** Compares two scrapes metric by metric. *)
Ltac scrape := repeat (apply Forall2_cons_2; [by auto|]); apply Forall2_nil_2.

(** Statistics at a later time: no counter wrapped around. *)
Record stats_le (st st' : BlockStore.Stats) : Prop := {
  le_hits : BlockStore.Hits st ≤ BlockStore.Hits st' < two64;
  le_misses : BlockStore.Misses st ≤ BlockStore.Misses st' < two64;
  le_evictions : BlockStore.Evictions st ≤ BlockStore.Evictions st' < two64;
  le_cost : BlockStore.EvictedCostUS st ≤ BlockStore.EvictedCostUS st' < two64
}.

Lemma store_never_decreases {S} `{!BlockStore.Store S} (s s' : S) :
  stats_le (BlockStore.store_Stats s) (BlockStore.store_Stats s') →
  never_decreases (NewStoreCollector s) (NewStoreCollector s').
Proof.
  intros []. unfold never_decreases, Collect, StoreCollector_Collector, store_Collect, NewStoreCollector.
  scrape.
Qed.

(** A store between two scrapes: [ops1] before the first, [ops2] between them.  With
    fewer than 2^64 calls and less than 2^64 microseconds of cost stored in all, no
    counter of the second scrape is below the first. *)
Section scrapes.
Context {S : Type} `{BlockStore.StoreCounts S}.

Lemma stored_length ops l : N.of_nat (length (StoreCounts.stored ops l)) ≤ N.of_nat (length ops).
Proof.
  revert l. induction ops as [|o ops IH]; intros [|a l]; [simpl; lia..|by destruct o; simpl; lia|].
  rewrite StoreCounts.stored_cons, length_app. specialize (IH l).
  destruct o, a as [[]| | |]; simpl; lia.
Qed.

Lemma lookups_length (l : list BlockStore.answer) :
  StoreCounts.hits l ≤ N.of_nat (length l) ∧ StoreCounts.misses l ≤ N.of_nat (length l).
Proof.
  unfold StoreCounts.hits, StoreCounts.misses.
  pose proof (length_filter (λ a, StoreCounts.lookup_answer a = Some true) l).
  pose proof (length_filter (λ a, StoreCounts.lookup_answer a = Some false) l). lia.
Qed.

Lemma run_stats_le (s0 s1 s2 : S) ops1 ops2 l1 l2 :
  BlockStore.store_wf s0 → BlockStore.resident s0 = [] →
  BlockStore.counters (BlockStore.store_Stats s0) = (0, 0, 0, 0) →
  Forall BlockStore.op_ok (ops1 ++ ops2) →
  BlockStore.run s0 ops1 = Some (s1, l1) → BlockStore.run s1 ops2 = Some (s2, l2) →
  N.of_nat (length (ops1 ++ ops2)) < two64 →
  StoreCounts.cost (StoreCounts.stored ops1 l1 ++ StoreCounts.stored ops2 l2) < two64 →
  stats_le (BlockStore.store_Stats s1) (BlockStore.store_Stats s2).
Proof.
  intros Hwf Hres Hzero [Hok1 Hok2]%Forall_app Hrun1 Hrun2 Hlen Hcost.
  destruct (StoreCounts.run_counts s0 ops1 s1 l1 Hwf Hres Hzero Hok1 Hrun1) as (gone1 & Hp1 & Hc1).
  destruct (StoreCounts.run_balanced s0 ops1 s1 l1 Hwf Hok1 Hrun1) as [Hwf1 _].
  destruct (StoreCounts.run_balanced s1 ops2 s2 l2 Hwf1 Hok2 Hrun2) as (_ & Hr & gone2 & Hp2 & Hc2).
  injection Hc1 as E1 E2 E3 E4.
  assert (StoreCounts.in_range (BlockStore.store_Stats s1)) as Hr1.
  { unfold StoreCounts.in_range. rewrite E1, E2, E3, E4. auto using u64_lt. }
  specialize (Hc2 0 0 []). rewrite StoreCounts.in_range_expected in Hc2 by auto.
  unfold StoreCounts.expected in Hc2. rewrite app_nil_r, !N.add_0_r in Hc2. injection Hc2 as F1 F2 F3 F4.
  rewrite E1 in F1. rewrite E2 in F2. rewrite E3 in F3. rewrite E4 in F4.
  destruct (BlockStore.run_spec s0 ops1 Hwf Hok1) as (? & ? & Hrun1' & _ & Hl1 & _).
  destruct (BlockStore.run_spec s1 ops2 Hwf1 Hok2) as (? & ? & Hrun2' & _ & Hl2 & _).
  simplify_eq. rewrite length_app in Hlen. pose proof (lookups_length l1). pose proof (lookups_length l2).
  pose proof (stored_length ops1 l1). pose proof (stored_length ops2 l2).
  pose proof (Permutation_length Hp1) as P1. pose proof (Permutation_length Hp2) as P2.
  rewrite !length_app in P1. rewrite !length_app in P2.
  pose proof (BlockStore.total_proper BlockStore.CostUS _ _ Hp1) as C1.
  pose proof (BlockStore.total_proper BlockStore.CostUS _ _ Hp2) as C2.
  unfold StoreCounts.cost in *. rewrite !BlockStore.total_app in *.
  rewrite (u64_small (StoreCounts.hits l1)), (u64_small (StoreCounts.misses l1)),
    (u64_small (N.of_nat (length gone1))), (u64_small (BlockStore.total _ gone1)) in * by lia.
  rewrite u64_small in F1, F2, F3, F4 by lia. split; lia.
Qed.
End scrapes.

(** ** A cache node's store *)
Section paged.
Context {R : Type} (Intn : R → nat → nat * R) (Exp2 : spec_float → spec_float).
Context (Intn_range : ∀ r n, (0 < n)%nat → ((Intn r n).1 < n)%nat).
#[local] Instance paged_store : BlockStore.Store (Paged.Paged R) := PagedProps.PagedStore Intn Exp2.
#[local] Instance paged_spec : BlockStore.StoreSpec (Paged.Paged R) := PagedProps.PagedStoreSpec Intn Exp2 Intn_range.
#[local] Instance paged_counts : BlockStore.StoreCounts (Paged.Paged R) := StoreCounts.Paged_StoreCounts Intn Exp2 Intn_range.

(** The metrics of a cache node's store are sound: on a paged store, under either
    policy, after any calls, a later scrape has the same metrics and none of its
    counters is below the earlier scrape, although [float64] rounds large values.  The
    occupancy gauge is never above the capacity gauge. *)
Theorem store_scrapes_sound cap ps pl r0 ops1 ops2 :
  cap < 9223372036854775808 → (0 < ps < 4611686018427387904)%Z → (Z.of_N cap / ps ≤ 2147483648)%Z →
  Forall BlockStore.op_ok (ops1 ++ ops2) → N.of_nat (length (ops1 ++ ops2)) < two64 →
  ∃ s0 s1 s2 l1 l2, Paged.NewPaged cap ps pl r0 = Some s0 ∧
    BlockStore.run s0 ops1 = Some (s1, l1) ∧ BlockStore.run s1 ops2 = Some (s2, l2) ∧
    (StoreCounts.cost (StoreCounts.stored ops1 l1 ++ StoreCounts.stored ops2 l2) < two64 →
     never_decreases (NewStoreCollector s1) (NewStoreCollector s2)) ∧
    ∃ occ capacity, m_value <$> (take 2 (Collect (NewStoreCollector s2))) = [occ; capacity] ∧
      float64.leb occ capacity = true.
Proof.
  intros Hcap Hps Hn Hok Hlen.
  destruct (PagedProps.NewPaged_wf cap ps pl r0 Hcap Hps Hn) as (s0 & Hnew & Hwf' & Hr & _).
  assert (BlockStore.store_wf s0) as Hwf by exact Hwf'. pose proof Hok as [Hok1 Hok2]%Forall_app.
  destruct (BlockStore.run_spec s0 ops1 Hwf Hok1) as (s1 & l1 & Hrun1 & Hwf1 & _).
  destruct (BlockStore.run_spec s1 ops2 Hwf1 Hok2) as (s2 & l2 & Hrun2 & Hwf2 & _).
  exists s0, s1, s2, l1, l2. split_and!; [done|done|done| |].
  - intros Hcost. apply store_never_decreases.
    apply (run_stats_le s0 s1 s2 ops1 ops2 l1 l2); [done|exact Hr| |done..].
    unfold Paged.NewPaged in Hnew. destruct (_ <=? _)%Z; [done|]. destruct (_ <? _)%Z; [done|].
    by injection Hnew as <-.
  - eexists _, _. split; [reflexivity|]. apply float64_round.of_N_mono.
    + apply (BlockStore.Stats_spec s2 Hwf2).
    + destruct Hwf2 as [_ Hwf2]. pose proof (PagedProps.dw_cap s2 _ Hwf2) as Hc.
      pose proof (PagedProps.dw_cap_max s2 _ Hwf2). cbn. unfold Paged.paged_Stats. rewrite Hc. lia.
Qed.
End paged.

(** ** The directory and the warmer *)
(** The directory's metrics are sound: whatever a replica learns between two scrapes,
    the applied-slots counter does not decrease, and the members gauge is the exact
    number of members. *)
Theorem directory_scrapes_sound Unmarshal now dead ls1 ls2 :
  (∀ s v, (s, v) ∈ ls1 ++ ls2 → s < two64 - 1) →
  let apply := Directory.apply_both Unmarshal now in
  let l1 := Paxos.learn_all apply ls1 (Paxos.NewLog (Directory.NewStateMachine, Directory.newHBTracker dead)) in
  let l2 := Paxos.learn_all apply ls2 l1 in
  never_decreases (NewCollector l1) (NewCollector l2) ∧
  ((Z.of_nat (size (Directory.members (Paxos.app l2).1)) < 2 ^ 53)%Z →
   ∃ members, m_value <$> Collect (NewCollector l2) !! 1%nat = Some members ∧
     float64_round.to_int members = Some (Z.of_nat (size (Directory.members (Paxos.app l2).1)))).
Proof.
  intros Hls apply l1 l2.
  destruct (PaxosLog.learn_all_spec apply (Directory.NewStateMachine, Directory.newHBTracker dead) ls1 _
    (PaxosLog.NewLog_inv apply _)) as (Hinv1 & _).
  { intros s v Hin. apply (Hls s v). set_solver. }
  destruct (PaxosLog.learn_all_spec apply _ ls2 l1 Hinv1) as (Hinv2 & Hle & _).
  { intros s v Hin. apply (Hls s v). set_solver. }
  split.
  - apply PaxosLog.applied_lt in Hinv2. unfold never_decreases, Collect, DirCollector_Collector, dir_Collect, NewCollector.
    scrape.
  - intros Hsz. eexists. split; [reflexivity|]. unfold Directory.Ring, Directory.Ring_from. simpl.
    rewrite length_fmap, length_map_to_list. apply float64_round.of_Z_exact. lia.
Qed.

(** The warmer's metrics are sound: whatever bytes arrive as a command, no counter
    decreases (short of 2^64 commands). *)
Theorem warmer_scrapes_sound {S conn} `{!BlockStore.Store S, !BlockStore.StoreSpec S} Unmarshal
    (NewClient : string → option conn) recv now_ms now value (w : Warmer.Warmer S conn) :
  BlockStore.store_wf (Warmer.store w) →
  (∀ cmd b, Unmarshal value = Some cmd → Warmer.fetched NewClient recv w cmd b → BlockStore.payload_ok b) →
  Warmer.executed w + 1 < two64 → Warmer.skippedPresent w + 1 < two64 → Warmer.dropped w + 1 < two64 →
  ∃ w', Warmer.Handle Unmarshal NewClient recv now_ms now value w = Some w' ∧
    never_decreases (NewWarmerCollector w) (NewWarmerCollector w').
Proof.
  intros Hwf Hok He Hs Hd.
  destruct (Warmer.Handle_outcome Unmarshal NewClient recv now_ms now value w Hwf Hok) as (w' & Hh & _ & _ & Ho).
  exists w'. split; [done|].
  assert (∀ e s d, Warmer.Counters w' = (e, s, d) →
    Warmer.executed w ≤ e < two64 → Warmer.skippedPresent w ≤ s < two64 → Warmer.dropped w ≤ d < two64 →
    never_decreases (NewWarmerCollector w) (NewWarmerCollector w')) as Hgoal.
  { intros e s d Hc Hle1 Hle2 Hle3.
    unfold never_decreases, Collect, WarmerCollector_Collector, warmer_Collect, NewWarmerCollector.
    cbn [wc_w wc_executed wc_skipped wc_dropped]. rewrite Hc. unfold Warmer.Counters at 1. scrape. }
  assert (Warmer.Counters w' = Warmer.Counters w ∨ Warmer.Counters w' = Warmer.Counters (Warmer.drop_one w) ∨
    Warmer.Counters w' = Warmer.Counters (Warmer.skip_one w) ∨ Warmer.Counters w' = Warmer.Counters (Warmer.execute_one w)) as Hcs.
  { destruct Ho; subst; auto. }
  destruct Hcs as [Hc|[Hc|[Hc|Hc]]]; (eapply Hgoal; [exact Hc|..]); cbn; rewrite ?u64_small by done; lia.
Qed.
End Collectors.
