(* ===== verification/Heal.v ===== *)
(** * Self-healing, end to end

    The prefetcher, the warm topic, the warmers of the fleet and the gateway composed.
    A ring change makes the prefetcher publish warm commands; every node consumes
    the topic (one consumer group per node), so a command reaches every node at least
    once, in any order and possibly several times; a node executes those addressed to
    it by fetching from another node of the fleet.  Lookups of gateways and of the
    fetches themselves run in between.  [fleet_run] executes such a sequence; the
    theorem says that at its end the replication factor is restored. *)

From Stdlib Require Import Floats.SpecFloat.
From S2P Require Import Prelude Float64 Proto BlockStore LRU Chain HashRing CacheNode Gateway GatewayProps Prefetch Warmer.

Module Heal.
Import BlockStore GatewayProps.
Local Open Scope N_scope.

Section heal.
Context {S : Type} `{!Store S, !StoreSpec S, !StoreRoom S}.
Context (Unmarshal : bytes → option pmv1.WarmCommand).
(** Which node listens at an address, and the epoch each node enforces. *)
Context (serving : string → option string) (epoch : string → option N).

(** ** The fleet

    A node is its warmer with the block store inside; a connection is an address. *)
Notation node := (Warmer.Warmer S string).
Notation fleet := (gmap string node).

Definition recv_from (f : fleet) (addr : string) (req : pmv1.GetBlocksRequest) : result unit (option pmv1.Block) :=
  match n ← serving addr; w ← f !! n; Some (n, w) with
  | Some (n, w) => Warmer.source_answer (epoch n) (Warmer.store w) req
  | None => Err tt
  end.

Inductive event :=
| Deliver (n : string) (now_ms now : Z) (value : bytes)
| Read (n : string) (o : op).

Definition fleet_step (f : fleet) (ev : event) : option fleet :=
  match ev with
  | Deliver n now_ms now value =>
      match f !! n with
      | None => Some f
      | Some w => w' ← Warmer.Handle Unmarshal Some (recv_from f) now_ms now value w; Some (<[n := w']> f)
      end
  | Read n o =>
      match f !! n with
      | None => Some f
      | Some w => '(s, _) ← do_op (Warmer.store w) o; Some (<[n := Warmer.with_store w s]> f)
      end
  end.
Fixpoint fleet_run (f : fleet) (evs : list event) : option fleet :=
  match evs with
  | [] => Some f
  | ev :: evs => f ← fleet_step f ev; fleet_run f evs
  end.

Lemma fleet_run_app evs1 evs2 f f1 :
  fleet_run f evs1 = Some f1 → fleet_run f (evs1 ++ evs2) = fleet_run f1 evs2.
Proof using Type.
  revert f. induction evs1 as [|ev evs1 IH]; intros f; simpl; [by intros [= <-]|].
  destruct (fleet_step f ev) as [f'|]; [|done]. apply IH.
Qed.

(** Lookups, and deliveries of published commands. *)
Definition event_ok (out : list (bytes * bytes)) (ev : event) : Prop :=
  match ev with
  | Deliver _ _ _ value => value ∈ out.*2
  | Read _ (OPut _) => False
  | Read _ _ => True
  end.
(** The delivery of a command to its target, in time and within the target's budget. *)
Definition effective (f : fleet) (ev : event) (raw : bytes) : Prop :=
  match ev with
  | Deliver n now_ms now value =>
      value = raw ∧ ∃ cmd w, Unmarshal raw = Some cmd ∧ pmv1.TargetNode cmd = n ∧ f !! n = Some w ∧
        (now_ms ≤ pmv1.DeadlineUnixMs cmd)%Z ∧ (Warmer.allow now w).1 = true
  | Read _ _ => False
  end.
(** Every published command is delivered effectively at some point of the run. *)
Definition all_delivered (f : fleet) (evs : list event) (out : list (bytes * bytes)) : Prop :=
  ∀ k raw, (k, raw) ∈ out →
    ∃ before ev after f1, evs = before ++ ev :: after ∧ fleet_run f before = Some f1 ∧ effective f1 ev raw.

(** The blocks a node will be asked to fetch. *)
Definition needs (out : list (bytes * bytes)) (n : string) : list bytes :=
  omap (λ kr, cmd ← Unmarshal kr.2;
              if decide (pmv1.TargetNode cmd = n) then Some (pmv1.warm_BlockId cmd) else None) out.

(** No node leaves and no block is lost. *)
Definition grows (f f' : fleet) : Prop :=
  ∀ n w, f !! n = Some w → ∃ w', f' !! n = Some w' ∧ view (Warmer.store w) ⊆ view (Warmer.store w').
#[local] Instance grows_preorder : PreOrder grows.
Proof using Type.
  split; [by intros f n w Hn; exists w|]. intros f1 f2 f3 H12 H23 n w Hn.
  destruct (H12 n w Hn) as (w2 & Hn2 & Hv2). destruct (H23 n w2 Hn2) as (w3 & Hn3 & Hv3).
  exists w3. split; [done|]. by etrans.
Qed.
Lemma insert_grows (f : fleet) n w w' :
  f !! n = Some w → view (Warmer.store w) ⊆ view (Warmer.store w') → grows f (<[n := w']> f).
Proof using Type.
  intros Hn Hv m wm Hm. destruct (decide (m = n)) as [->|]; [|exists wm; by rewrite lookup_insert_ne].
  exists w'. rewrite lookup_insert_eq. split; [done|]. by replace wm with w by congruence.
Qed.

(** ** Invariant of a run *)
Section run.
Context (out : list (bytes * bytes)) (blk : bytes → Block) (f0 : fleet).

(** What the published commands ask for: a well-formed ID, and a source in the fleet
    that holds the block. *)
Record command_ok (k raw : bytes) : Prop := {
  co_len : length k = Chain.HashSize;
  co_parent : length (ParentID (blk k)) = Chain.HashSize;
  co_payload : payload_ok (blk k);
  co_cmd : ∃ cmd src w, Unmarshal raw = Some cmd ∧ pmv1.warm_BlockId cmd = k ∧
    pmv1.SourceNode cmd ≠ "" ∧ serving (pmv1.SourceNode cmd) = Some src ∧ f0 !! src = Some w ∧
    view (Warmer.store w) !! k = Some (blk k)
}.

(** A node of the fleet: connections go where they say, there is room for the
    blocks still missing, and published blocks are the ones of their ID. *)
Record node_ok (n : string) (w : node) : Prop := {
  n_self : Warmer.self w = n;
  n_wf : store_wf (Warmer.store w);
  n_clients : ∀ a c, Warmer.clients w !! a = Some c → c = a;
  n_room : room (Warmer.store w) (blk <$> filter (λ k, view (Warmer.store w) !! k = None) (needs out n));
  n_copies : ∀ k b, k ∈ out.*1 → view (Warmer.store w) !! k = Some b → b = blk k
}.
(** Every node is fine and has only gained blocks since [f0]. *)
Definition fleet_ok (f : fleet) : Prop := map_Forall node_ok f ∧ grows f0 f.

Context (Hcmds : ∀ k raw, (k, raw) ∈ out → command_ok k raw).
#[local] Set Default Proof Using "Type".
#[local] Set Proof Using Clear Unused.

Lemma node_ok_store n w w' :
  node_ok n w → Warmer.self w' = Warmer.self w → store_wf (Warmer.store w') →
  (∀ a c, Warmer.clients w' !! a = Some c → c = a) → view (Warmer.store w') = view (Warmer.store w) →
  (∀ bs, room (Warmer.store w) bs → room (Warmer.store w') bs) → node_ok n w'.
Proof. intros [] H1 H2 H3 H4 H5. split; rewrite ?H1, ?H4; auto. Qed.

Lemma read_ok n w o :
  node_ok n w → event_ok out (Read n o) →
  ∃ s a, do_op (Warmer.store w) o = Some (s, a) ∧ node_ok n (Warmer.with_store w s) ∧
    view s = view (Warmer.store w).
Proof.
  intros Hok Ho. pose proof (n_wf _ _ Hok) as Hwf. destruct o as [b|k|k|k]; [done|..]; simpl.
  - destruct (Get_spec (Warmer.store w) k Hwf) as (s & Heq & Hwf' & Hv). rewrite Heq. bind_step.
    eexists _, _. split_and!; [done| |done]. apply (node_ok_store n w); try done; [apply Hok|].
    intros bs. by eapply Get_room.
  - destruct (Contains_spec (Warmer.store w) k Hwf) as (s & Heq & Hwf' & Hv). rewrite Heq. bind_step.
    eexists _, _. split_and!; [done| |done]. apply (node_ok_store n w); try done; [apply Hok|].
    intros bs. by eapply Contains_room.
  - destruct (Touch_spec (Warmer.store w) k Hwf) as (s & Heq & Hwf' & Hv). rewrite Heq. bind_step.
    eexists _, _. split_and!; [done| |done]. apply (node_ok_store n w); try done; [apply Hok|].
    intros bs. by eapply Touch_room.
Qed.

(** Storing a missing published block uses the room reserved for it. *)
Lemma put_ok n w k :
  node_ok n w → k ∈ needs out n → k ∈ out.*1 → view (Warmer.store w) !! k = None →
  ID (blk k) = k → payload_ok (blk k) →
  ∃ s st, Put (Warmer.store w) (blk k) = Some (s, st) ∧
    (∀ w', Warmer.self w' = Warmer.self w → (∀ a c, Warmer.clients w' !! a = Some c → c = a) →
       Warmer.store w' = s → node_ok n w') ∧ view (Warmer.store w) ⊆ view s ∧ view s !! k = Some (blk k).
Proof.
  intros Hok Hk Hout Hno Hid Hpay. set (s0 := Warmer.store w) in *.
  set (P := λ k', view s0 !! k' = None).
  assert (k ∈ filter P (needs out n)) as Hin by (by apply list_elem_of_filter).
  apply list_elem_of_split in Hin as (l1 & l2 & Hl).
  destruct (Put_room s0 (blk k) (blk <$> (l1 ++ l2))) as (s & st & Heq & Hwf & Hroom & Hsub & [b Hb]).
  - apply Hok.
  - done.
  - eapply room_submseteq; [|apply (n_room n w Hok)]. fold s0. fold P. rewrite Hl.
    rewrite <-fmap_cons. by rewrite (Permutation_middle l1 l2 k).
  - destruct (Put_spec s0 (blk k) (n_wf n w Hok) Hpay) as (? & ? & Heq' & _ & Ht & Hf).
    rewrite Heq in Heq'. injection Heq' as <- <-. rewrite Hid in *.
    assert (st = true) as ->.
    { destruct st; [done|]. rewrite Hf in Hb by done. congruence. }
    destruct (Ht eq_refl) as (_ & Hs & Hsub'). exists s, true. split_and!; [done| |done|done].
    intros w' Hself Hcl <-. split; [by rewrite Hself; apply Hok|done|done| |].
    + eapply room_submseteq; [|exact Hroom]. apply fmap_submseteq.
      assert (filter (λ k', view (Warmer.store w') !! k' = None) (needs out n) =
              filter (λ k', k' ≠ k) (filter (λ k', view (Warmer.store w') !! k' = None) (filter P (needs out n)))) as ->.
      { rewrite !list_filter_filter. apply filter_ext_in. intros k' _. unfold P. split.
        - intros H. split_and!; [intros ->; congruence|done|].
          destruct (view s0 !! k') eqn:E; [|done]. by rewrite (lookup_weaken _ _ _ _ E Hsub) in H.
        - tauto. }
      rewrite Hl, !filter_app, filter_cons, decide_False by congruence.
      apply submseteq_app; (etrans; [apply sublist_submseteq, sublist_filter|]);
        apply sublist_submseteq, sublist_filter.
    + intros k' b' Hk' Hb'. pose proof (lookup_weaken _ _ _ _ Hb' Hsub') as [[<- <-]|[_ ?]]%lookup_insert_Some; [done|].
      by eapply (n_copies n w Hok).
Qed.

(** A delivered command: the node stays fine and loses nothing; if the delivery is
    effective, it then holds the block. *)
Lemma deliver_ok f n w now_ms now k raw :
  fleet_ok f → f !! n = Some w → (k, raw) ∈ out →
  ∃ w', Warmer.Handle Unmarshal Some (recv_from f) now_ms now raw w = Some w' ∧ node_ok n w' ∧
    view (Warmer.store w) ⊆ view (Warmer.store w') ∧
    (effective f (Deliver n now_ms now raw) raw → is_Some (view (Warmer.store w') !! k)).
Proof using Hcmds.
  intros (Hall & Hgrow) Hn Hin. pose proof (Hall n w Hn) as Hok.
  destruct (Hcmds k raw Hin) as [Hlen Hpar Hpay (cmd & src & w0 & Hu & Hid & Hne & Hsrv & H0 & Hblk)].
  assert (∀ w', Warmer.store w' = Warmer.store w → Warmer.self w' = Warmer.self w →
    (∀ a c, Warmer.clients w' !! a = Some c → c = a) → node_ok n w') as Hq.
  { intros w' E1 E2 E3. apply (node_ok_store n w); rewrite ?E1; try done. apply Hok. }
  unfold Warmer.Handle. rewrite Hu, Hid. destruct (decide _) as [Hno|Hyes].
  { exists w. split_and!; [done|done|done|]. intros (_ & cmd' & w' & Hu' & Ht & _).
    assert (cmd' = cmd) as -> by congruence. destruct Hno as [Hno|Hno]; [|done].
    rewrite (n_self n w Hok) in Hno. done. }
  destruct (_ && _) eqn:Hlate.
  { exists (Warmer.drop_one w). split_and!; [done|apply Hq; try done; apply Hok|done|].
    intros (_ & cmd' & w' & Hu' & _ & _ & Hms & _). assert (cmd' = cmd) as -> by congruence.
    apply andb_prop in Hlate as [_ ?%Z.ltb_lt]. lia. }
  destruct (Contains_spec (Warmer.store w) k (n_wf n w Hok)) as (s & Heq & Hwf & Hv). rewrite Heq. bind_step.
  set (w1 := Warmer.with_store w s). assert (node_ok n w1) as Hok1.
  { apply (node_ok_store n w); try done; [apply Hok|]. intros bs. by apply (Contains_room _ _ _ _ _ (n_wf n w Hok) Heq). }
  destruct (bool_decide_reflect (is_Some (view (Warmer.store w) !! k))) as [Hp|Hp].
  { exists (Warmer.skip_one w1). split_and!; [done| |by simpl; rewrite Hv|intros _; simpl; by rewrite Hv].
    apply (node_ok_store n w1); try done; apply Hok1. }
  rewrite decide_False by done.
  assert (∃ wsrc, f !! src = Some wsrc ∧ view (Warmer.store wsrc) !! k = Some (blk k)) as (wsrc & Hws & Hbs).
  { destruct (Hgrow src w0 H0) as (wsrc & Hws & Hv0). exists wsrc. split; [done|]. by eapply lookup_weaken. }
  assert (ID (blk k) = k) as Hidk by (eapply view_ID; [apply (Hall src wsrc Hws)|done]).
  destruct (Warmer.fetch_and_put_from Some (recv_from f) now cmd w1 (pmv1.SourceNode cmd) (blk k))
    as (w2 & B1 & B2 & _ & B4 & ->).
  - intros w3 Hc. unfold Warmer.client. rewrite Hc. destruct (Warmer.clients w1 !! _) as [c|] eqn:Hcc; [|done].
    by rewrite (n_clients n w1 Hok1 _ _ Hcc).
  - unfold recv_from. rewrite Hsrv. bind_step. rewrite Hws, Hid. simpl.
    apply Warmer.source_answer_spec; [apply (Hall src wsrc Hws)|done|done].
  - by rewrite Hidk.
  - done.
  - assert (∀ a c, Warmer.clients w2 !! a = Some c → c = a) as Hcl2.
    { intros a c [Hc|[= ->]]%B4; [by eapply (n_clients n w1 Hok1)|done]. }
    assert ((Warmer.allow now w1).1 = (Warmer.allow now w).1) as Hal.
    { unfold Warmer.allow. simpl. by destruct (float64.ltb _ _). }
    rewrite Hal. destruct (Warmer.allow now w).1 eqn:Hbudget.
    + destruct (put_ok n w1 k) as (s' & st & Hput & Hok' & Hsub & Hin').
      all: try done.
      * apply list_elem_of_omap. exists (k, raw). split; [done|]. simpl. rewrite Hu. bind_step.
        rewrite decide_True; [by rewrite Hid|]. rewrite <-(n_self n w Hok). destruct (decide (pmv1.TargetNode cmd = Warmer.self w)); tauto.
      * apply list_elem_of_fmap. by exists (k, raw).
      * simpl. rewrite Hv. by apply eq_None_not_Some.
      * rewrite Hput. bind_step. eexists. split; [done|]. split_and!.
        -- by apply Hok'.
        -- simpl. rewrite <-Hv. exact Hsub.
        -- intros _. simpl. by eexists.
    + exists (Warmer.drop_one w2). split_and!; [done| |simpl; rewrite B1; simpl; by rewrite Hv|].
      * apply (node_ok_store n w1); try done; simpl; rewrite B1; [apply Hok1|done..].
      * intros (_ & cmd' & w' & _ & _ & Hn' & _ & Hb). assert (w' = w) as -> by congruence. congruence.
Qed.

Lemma step_ok f ev :
  fleet_ok f → event_ok out ev →
  ∃ f', fleet_step f ev = Some f' ∧ fleet_ok f' ∧ grows f f' ∧
    ∀ k raw, (k, raw) ∈ out → effective f ev raw →
      ∃ cmd w, Unmarshal raw = Some cmd ∧ f' !! pmv1.TargetNode cmd = Some w ∧ is_Some (view (Warmer.store w) !! k).
Proof using Hcmds.
  intros Hf Hev. pose proof Hf as (Hall & Hg0).
  assert (∀ n w w', f !! n = Some w → node_ok n w' → view (Warmer.store w) ⊆ view (Warmer.store w') →
    fleet_ok (<[n := w']> f) ∧ grows f (<[n := w']> f)) as Hins.
  { intros n w w' Hn Hok Hv. pose proof (insert_grows f n w w' Hn Hv). split; [|done].
    split; [by apply map_Forall_insert_2|by etrans]. }
  destruct ev as [n now_ms now value|n o]; simpl; destruct (f !! n) as [w|] eqn:Hn.
  - simpl in Hev. apply list_elem_of_fmap in Hev as ([k raw] & -> & Hin). simpl.
    destruct (deliver_ok f n w now_ms now k raw Hf Hn Hin) as (w' & -> & Hok & Hsub & Heff). bind_step.
    destruct (Hins n w w' Hn Hok Hsub) as [H1 H2]. eexists. split_and!; [done|done|done|].
    intros k' raw' Hin' (<- & cmd & w1 & Hu & Ht & Hrest). exists cmd, w'. split_and!; [done|by rewrite Ht, lookup_insert_eq|].
    assert (k' = k) as ->.
    { destruct (co_cmd _ _ (Hcmds k raw Hin)) as (c1 & _ & _ & Hu1 & <- & _).
      destruct (co_cmd _ _ (Hcmds k' raw Hin')) as (c2 & _ & _ & Hu2 & <- & _). congruence. }
    apply Heff. split; [done|]. exists cmd, w1. by rewrite Hn.
  - exists f. split_and!; [done|done|done|]. intros k raw _ (_ & cmd & w & _ & _ & Hw & _). congruence.
  - destruct (read_ok n w o (Hall n w Hn) Hev) as (s & a & -> & Hok & Hv). bind_step.
    destruct (Hins n w (Warmer.with_store w s) Hn Hok) as [H1 H2]; [simpl; by rewrite Hv|]. by eexists.
  - by exists f.
Qed.

(** A run never gets stuck, and blocks only appear. *)
Lemma run_ok f evs :
  fleet_ok f → Forall (event_ok out) evs → ∃ f', fleet_run f evs = Some f' ∧ fleet_ok f' ∧ grows f f'.
Proof using Hcmds.
  revert f. induction evs as [|ev evs IH]; intros f Hf Hevs; cbn [fleet_run]; [by exists f|].
  apply Forall_cons in Hevs as [Hev Hevs].
  destruct (step_ok f ev Hf Hev) as (f1 & -> & Hf1 & Hg1 & _). bind_step.
  destruct (IH f1 Hf1 Hevs) as (f' & Hr & Hf' & Hg). exists f'. split_and!; [done|done|by etrans].
Qed.

(** At the end of a run every published command has had its effect. *)
Lemma run_delivered evs :
  fleet_ok f0 → Forall (event_ok out) evs → all_delivered f0 evs out →
  ∃ f', fleet_run f0 evs = Some f' ∧ fleet_ok f' ∧
    ∀ k raw cmd, (k, raw) ∈ out → Unmarshal raw = Some cmd →
      ∃ w, f' !! pmv1.TargetNode cmd = Some w ∧ view (Warmer.store w) !! k = Some (blk k).
Proof using Hcmds.
  intros Hf Hevs Hdel. destruct (run_ok f0 evs Hf Hevs) as (f' & Hr & Hf' & _).
  exists f'. split_and!; [done|done|]. intros k raw cmd Hin Hu.
  destruct (Hdel k raw Hin) as (before & ev & after & f1 & -> & Hr1 & Heff).
  apply Forall_app in Hevs as [He1 [Hev He2]%Forall_cons].
  destruct (run_ok f0 before Hf He1) as (f1' & Hr1' & Hf1 & _). assert (f1' = f1) as -> by congruence.
  destruct (step_ok f1 ev Hf1 Hev) as (f2 & Hs & Hf2 & _ & Hget).
  destruct (Hget k raw Hin Heff) as (cmd' & w2 & Hu' & Hw2 & Hk). assert (cmd' = cmd) as -> by congruence.
  destruct (run_ok f2 after Hf2 He2) as (f3 & Hr3 & _ & Hsub3).
  assert (f3 = f') as ->.
  { rewrite (fleet_run_app before (ev :: after) f0 f1 Hr1) in Hr. cbn [fleet_run] in Hr. rewrite Hs in Hr.
    cbn [mbind option_bind] in Hr. congruence. }
  destruct (Hsub3 _ _ Hw2) as (w & Hw & Hv). exists w. split; [done|]. destruct Hk as [b Hb].
  rewrite (lookup_weaken _ _ _ _ Hb Hv). f_equal. apply (n_copies _ w (proj1 Hf' _ w Hw) k); [|by eapply lookup_weaken].
  apply list_elem_of_fmap. by exists (k, raw).
Qed.
End run.

(** ** The theorem *)
Section plan.
Context (Exp2 : spec_float → spec_float) (Marshal : pmv1.WarmCommand → option bytes).
Import Prefetch.

(** Tracked, and in demand at the time of the ring change. *)
Definition demanded (now : Z) (p : Prefetcher) (id : bytes) : Prop :=
  ∃ st, blocks p !! id = Some st ∧ float64.ltb (decayed Exp2 (cfg p) now st) (DemandThreshold (cfg p)) = false.

(** What the fleet looks like when the ring changes: members of the new ring listen
    at their addresses, and of the old owners of a block in demand those that are
    still members hold it; at least one is. *)
Record before_change (r : pmv1.Ring) (old : HashRing.Ring) (rf : nat) (now : Z) (p : Prefetcher)
    (blk : bytes → Block) (f : fleet) : Prop := {
  bc_addr : ∀ n a, node_map r !! n = Some a → a ≠ "" ∧ serving a = Some n ∧ is_Some (f !! n);
  bc_block : ∀ id, demanded now p id → length (ParentID (blk id)) = Chain.HashSize ∧ payload_ok (blk id);
  bc_held : ∀ id O o, demanded now p id → HashRing.Owners old id (Z.of_nat rf) = Some O → o ∈ O →
    is_Some (node_map r !! o) → ∃ w, f !! o = Some w ∧ view (Warmer.store w) !! id = Some (blk id);
  bc_survivor : ∀ id O, demanded now p id → HashRing.Owners old id (Z.of_nat rf) = Some O →
    ∃ o, o ∈ O ∧ is_Some (node_map r !! o)
}.

Section change.
Context (order : list (bytes * blockStat)) (now : Z) (r : pmv1.Ring) (p p' : Prefetcher) (out : list (bytes * bytes)).
Context (e : N) (nodes : gmap string string) (vpn : Z) (rf : nat) (blk : bytes → Block) (f : fleet).
Context (Hk : keys_ok (blocks p)) (Hord : order ≡ₚ map_to_list (blocks p)).
Context (Hring : ring p = Some (HashRing.New e nodes vpn)) (Hlt : e < pmv1.ring_Epoch r).
Context (Hrf : RF (cfg p) = Z.of_nat rf).
Context (Hon : OnRing Exp2 Marshal order now r p = Some (p', out)).
Context (Htot : ∀ cmd, is_Some (Marshal cmd)).
Context (Hcodec : ∀ cmd raw, Marshal cmd = Some raw → Unmarshal raw = Some cmd).
Context (Hbc : before_change r (HashRing.New e nodes vpn) rf now p blk f).
#[local] Set Default Proof Using "All".

Lemma out_spec k raw :
  (k, raw) ∈ out ↔
  ∃ st w target, blocks p !! k = Some st ∧ warms Exp2 (cfg p) now (HashRing.New e nodes vpn) (ring_of r) k st w ∧
    target ∈ w_targets w ∧ Marshal (warm_command (cfg p) now w target) = Some raw.
Proof.
  destruct (OnRing_spec Exp2 Marshal order now r p e nodes vpn Hk Hord Hring Hlt) as (p1 & out1 & H1 & _ & _ & _ & H2).
  rewrite Hon in H1. injection H1 as _ <-. apply H2.
Qed.

Lemma nodes_of_ring : HashRing.Nodes (ring_of r) = node_map r.
Proof. unfold HashRing.Nodes, ring_of. by rewrite HashRing.addrs_New. Qed.

Lemma published_ok k raw : (k, raw) ∈ out → command_ok blk f k raw.
Proof.
  intros (st & w & t & Hst & (O & O' & HO & HO' & Hd & Hne & Hs & ->) & Ht & Hraw)%out_spec.
  rewrite nodes_of_ring in *. rewrite Hrf in *.
  assert (demanded now p k) as Hdem by (by exists st). destruct (bc_block _ _ _ _ _ _ _ Hbc k Hdem) as [Hp1 Hp2].
  destruct (find_source_in (node_map r) O _ eq_refl Hs) as (src & Hsrc & Ha).
  destruct (bc_addr _ _ _ _ _ _ _ Hbc src _ Ha) as (_ & Hsv & _).
  destruct (bc_held _ _ _ _ _ _ _ Hbc k O src Hdem HO Hsrc) as (w & Hw & Hv); [by eexists|].
  split; [apply Hk; by eexists|done|done|].
  eexists _, src, w. split_and!; [by apply Hcodec|done|done|done|done|done].
Qed.

(** Each new owner of a block in demand held it, or is the target of a command. *)
Lemma owner_served id O' o :
  demanded now p id → HashRing.Owners (ring_of r) id (Z.of_nat rf) = Some O' → o ∈ O' →
  (∃ w, f !! o = Some w ∧ view (Warmer.store w) !! id = Some (blk id)) ∨
  ∃ raw cmd, (id, raw) ∈ out ∧ Unmarshal raw = Some cmd ∧ pmv1.TargetNode cmd = o.
Proof.
  intros Hdem HO' Ho. pose proof Hdem as (st & Hst & Hd).
  assert (length id = Chain.HashSize) as Hlen by (apply Hk; by eexists).
  destruct (owners_of_id e nodes vpn rf id Hlen) as (HO & _).
  destruct (owners_of_id (pmv1.ring_Epoch r) (node_map r) (Z.of_N (pmv1.ring_VnodesPerNode r)) rf id Hlen)
    as (HO2 & _ & _ & Hmem). fold (ring_of r) in HO2, Hmem.
  assert (is_Some (node_map r !! o)) as Hmo by (apply Hmem; congruence).
  set (O := take rf _) in HO. destruct (decide (o ∈ O)) as [HoO|HoO].
  { left. by eapply (bc_held _ _ _ _ _ _ _ Hbc). }
  right. destruct (bc_survivor _ _ _ _ _ _ _ Hbc id O Hdem HO) as (src & Hsrc & [a Ha]).
  destruct (bc_addr _ _ _ _ _ _ _ Hbc src a Ha) as (Hane & _).
  set (w := MkWarm id st (filter (λ o, o ∉ O) O') (find_source (node_map r) O "")
              (float64.sub (float64.of_Z 1) (Exp2 (float64.opp (decayed Exp2 (cfg p) now st))))).
  destruct (Htot (warm_command (cfg p) now w o)) as [raw Hraw]. exists raw, (warm_command (cfg p) now w o).
  assert (o ∈ filter (λ o, o ∉ O) O') as Hot by (by apply list_elem_of_filter).
  split_and!; [|by apply Hcodec|done]. apply out_spec. exists st, w, o. split_and!; [done| |done|done].
  exists O, O'. cbv zeta. rewrite nodes_of_ring, Hrf. split_and!; try done.
  - intros Hnil. rewrite Hnil in Hot. set_solver.
  - by eapply find_source_found.
Qed.
End change.

(** C7. The mesh heals itself.  A ring change makes the prefetcher publish warm commands.
    Whatever order they arrive in, however often, with lookups in between: once every
    command has been delivered to its target in time and within its budget, every
    block in demand is stored, unchanged, at all [rf] owners the new ring gives it, and
    a chain of such blocks matches in full even while any one node is down. *)
Theorem replication_restored order now r p p' out e nodes vpn rf blk f evs :
  keys_ok (blocks p) → order ≡ₚ map_to_list (blocks p) →
  ring p = Some (HashRing.New e nodes vpn) → e < pmv1.ring_Epoch r → RF (cfg p) = Z.of_nat rf →
  OnRing Exp2 Marshal order now r p = Some (p', out) →
  (∀ cmd, is_Some (Marshal cmd)) → (∀ cmd raw, Marshal cmd = Some raw → Unmarshal raw = Some cmd) →
  before_change r (HashRing.New e nodes vpn) rf now p blk f → map_Forall (node_ok out blk) f →
  Forall (event_ok out) evs → all_delivered f evs out →
  ∃ f', fleet_run f evs = Some f' ∧
    (∀ id O' o, demanded now p id → HashRing.Owners (ring_of r) id (Z.of_nat rf) = Some O' → o ∈ O' →
       ∃ w, f' !! o = Some w ∧ view (Warmer.store w) !! id = Some (blk id)) ∧
    (∀ sched client req x (cl : Gateway.cluster (S := S)),
       (∀ l, sched l ≡ₚ l) → (2 ≤ rf)%nat → (2 ≤ size (node_map r))%nat →
       Forall (demanded now p) (pmv1.mreq_Chain req) → Gateway.stores cl = Warmer.store <$> f' →
       (∀ n, is_Some (node_map r !! n) → n ≠ x → reachable cl (ring_of r) client n) →
       ∃ cl' resp we, Gateway.matchOnRing sched rf (ring_of r) client req cl = Some (cl', resp, we) ∧
         pmv1.MatchedDepth resp = u32 (N.of_nat (length (pmv1.mreq_Chain req)))).
Proof using Type*.
  intros Hk Hord Hring Hlt Hrf Hon Htot Hcodec Hbc Hok Hevs Hdel.
  assert (∀ k raw, (k, raw) ∈ out → command_ok blk f k raw) as Hcmds.
  { intros k raw. by eapply (published_ok order now r p p' out e nodes vpn rf). }
  destruct (run_delivered out blk f Hcmds evs) as (f' & Hr & [Hf' Hgr] & Hd); [by split|done|done|].
  assert (∀ id O' o, demanded now p id → HashRing.Owners (ring_of r) id (Z.of_nat rf) = Some O' → o ∈ O' →
    ∃ w, f' !! o = Some w ∧ view (Warmer.store w) !! id = Some (blk id)) as Hall.
  { intros id O' o Hdem HO' Ho.
    destruct (owner_served order now r p p' out e nodes vpn rf blk f Hk Hord Hring Hlt Hrf Hon Htot Hcodec Hbc
      id O' o Hdem HO' Ho) as [(w & Hw & Hv)|(raw & cmd & Hin & Hu & <-)]; [|by eapply Hd].
    destruct (Hgr o w Hw) as (w' & Hw' & Hsub). exists w'. split; [done|]. by eapply lookup_weaken. }
  exists f'. split_and!; [done|done|]. intros sched client req x cl Hsched H2 Hsz Hchain Hcl Hreach.
  assert (cluster_wf cl) as Hwf.
  { intros n s. rewrite Hcl, lookup_fmap_Some. intros (w & <- & Hw). apply (Hf' n w Hw). }
  apply match_full; [done| |done|].
  { eapply Forall_impl; [exact Hchain|]. intros id (st & Hst & _). apply Hk. by eexists. }
  intros id Hid Hlen. rewrite Forall_forall in Hchain. specialize (Hchain id Hid).
  destruct (owners_of_id (pmv1.ring_Epoch r) (node_map r) (Z.of_N (pmv1.ring_VnodesPerNode r)) rf id Hlen)
    as (HO & Hnd & Hl & Hmem). fold (ring_of r) in HO, Hnd, Hl, Hmem.
  destruct (another_owner _ x Hnd ltac:(lia)) as (o & Ho & Hox).
  destruct (Hall id _ o Hchain HO Ho) as (w & Hw & Hv).
  exists o. split_and!; [done|by apply Hreach; [apply Hmem|]|].
  unfold holds, contents. rewrite Hcl, lookup_fmap, Hw. eexists. split; [done|]. by eexists.
Qed.
End plan.
End heal.

(** ** Witness: a third node joins and is warmed *)

(** Some codec of commands that round trips. *)
#[local] Instance spec_float_eq_dec : EqDecision spec_float.
Proof. solve_decision. Defined.
#[local] Program Instance spec_float_countable : Countable spec_float :=
  inj_countable' (A := bool * positive * Z + bool + bool + ())
    (λ x, match x with
          | S754_finite s m ex => inl (inl (inl (s, m, ex)))
          | S754_zero s => inl (inl (inr s))
          | S754_infinity s => inl (inr s)
          | S754_nan => inr ()
          end)
    (λ y, match y with
          | inl (inl (inl (s, m, ex))) => S754_finite s m ex
          | inl (inl (inr s)) => S754_zero s
          | inl (inr s) => S754_infinity s
          | inr _ => S754_nan
          end) _.
Next Obligation. by intros []. Qed.
Fixpoint pos_bytes (p : positive) : bytes :=
  match p with xH => [] | xO p => x00 :: pos_bytes p | xI p => x01 :: pos_bytes p end.
Fixpoint bytes_pos (l : bytes) : positive :=
  match l with [] => xH | x00 :: l => xO (bytes_pos l) | _ :: l => xI (bytes_pos l) end.
Lemma bytes_pos_bytes p : bytes_pos (pos_bytes p) = p.
Proof. induction p as [p IH|p IH|]; simpl; by rewrite ?IH. Qed.
Lemma decode_pos_bytes `{Countable A} (x : A) : decode (bytes_pos (pos_bytes (encode x))) = Some x.
Proof. rewrite bytes_pos_bytes. apply decode_encode. Qed.
(** A field: every byte announced by 01, ended by 00. *)
Fixpoint put_field (l : bytes) (rest : bytes) : bytes :=
  match l with [] => x00 :: rest | b :: l => x01 :: b :: put_field l rest end.
Fixpoint get_field (l : bytes) : option (bytes * bytes) :=
  match l with
  | x00 :: rest => Some ([], rest)
  | _ :: b :: l => '(f, rest) ← get_field l; Some (b :: f, rest)
  | _ => None
  end.
Lemma get_put_field l rest : get_field (put_field l rest) = Some (l, rest).
Proof. induction l as [|b l IH]; simpl; [done|]. by rewrite IH. Qed.

Definition demo_Marshal (c : pmv1.WarmCommand) : option bytes :=
  Some (put_field (pmv1.warm_BlockId c) (put_field (pmv1.warm_ParentId c)
    (put_field (string_bytes (pmv1.warm_ModelId c)) (put_field (string_bytes (pmv1.SourceNode c))
    (put_field (pos_bytes (encode (pmv1.Confidence c))) (put_field (pos_bytes (encode (pmv1.DeadlineUnixMs c)))
    (put_field (string_bytes (pmv1.TargetNode c)) []))))))).
Definition demo_Unmarshal (v : bytes) : option pmv1.WarmCommand :=
  '(a, v) ← get_field v; '(b, v) ← get_field v; '(m, v) ← get_field v; '(s, v) ← get_field v;
  '(x, v) ← get_field v; '(d, v) ← get_field v; '(t, v) ← get_field v;
  x ← decode (bytes_pos x); d ← decode (bytes_pos d);
  Some (pmv1.MkWarmCommand a b (bytes_string m) (bytes_string s) x d (bytes_string t)).
Lemma warm_codec cmd raw : demo_Marshal cmd = Some raw → demo_Unmarshal raw = Some cmd.
Proof.
  intros [= <-]. unfold demo_Unmarshal. repeat (rewrite get_put_field; bind_step).
  rewrite (decode_pos_bytes (pmv1.Confidence cmd)). bind_step. rewrite decode_pos_bytes. bind_step.
  rewrite !bytes_string_bytes. by destruct cmd.
Qed.

Definition demo_out : list (bytes * bytes) :=
  match Prefetch.OnRing Prefetch.demo_Exp2 demo_Marshal (map_to_list (Prefetch.blocks Prefetch.demo_demanded)) 7
          Prefetch.demo_ring Prefetch.demo_demanded with
  | Some (_, out) => out
  | None => []
  end.
Definition demo_raw : bytes := default [] (snd <$> head demo_out).
Definition demo_b : Block := CacheNode.demo_block x50.
Definition demo_full : LRU.LRU :=
  match LRU.lru_Put CacheNode.demo_node demo_b with Some (s, _) => s | None => CacheNode.demo_node end.
Definition demo_warmer (n : string) (s : LRU.LRU) : Warmer.Warmer LRU.LRU string :=
  Warmer.NewWarmer n s (float64.of_Z 0) 0.
Definition demo_fleet : gmap string (Warmer.Warmer LRU.LRU string) :=
  {["cn-1" := demo_warmer "cn-1" demo_full; "cn-2" := demo_warmer "cn-2" demo_full;
    "cn-3" := demo_warmer "cn-3" CacheNode.demo_node]}.
Definition demo_serving (a : string) : option string :=
  if decide (a = "a:1") then Some "cn-1" else if decide (a = "b:1") then Some "cn-2"
  else if decide (a = "c:1") then Some "cn-3" else None.
(** The command arrives, a gateway asks, the command arrives again. *)
Definition demo_events : list event :=
  [Deliver "cn-3" 5 5 demo_raw; Read "cn-1" (OContains (ID demo_b)); Deliver "cn-3" 6 6 demo_raw].

Lemma demo_out_one : demo_out = [(ID demo_b, demo_raw)].
Proof. vm_compute. reflexivity. Qed.
Lemma demo_cmd : option_map (λ c, (pmv1.TargetNode c, pmv1.DeadlineUnixMs c, pmv1.warm_BlockId c)) (demo_Unmarshal demo_raw) =
  Some ("cn-3", 30000%Z, ID demo_b).
Proof. vm_compute. reflexivity. Qed.

Lemma demo_full_wf : LRU.lru_wf demo_full ∧ LRU.order demo_full = [demo_b].
Proof.
  destruct (LRU.lru_Put_order CacheNode.demo_node demo_b CacheNode.demo_node_wf eq_refl) as (s & st & Hp & Hwf & _).
  unfold demo_full. rewrite Hp. split; [done|]. vm_compute in Hp. by injection Hp as <- _.
Qed.
Lemma demo_demanded_id id : demanded Prefetch.demo_Exp2 7 Prefetch.demo_demanded id → id = ID demo_b.
Proof.
  intros (st & Hst & _). apply elem_of_map_to_list in Hst.
  assert (id ∈ (map_to_list (Prefetch.blocks Prefetch.demo_demanded)).*1) as Hin.
  { apply list_elem_of_fmap. by exists (id, st). }
  assert ((map_to_list (Prefetch.blocks Prefetch.demo_demanded)).*1 = [ID demo_b]) as Heq by (vm_compute; reflexivity).
  rewrite Heq in Hin. by apply list_elem_of_singleton in Hin.
Qed.
Lemma demo_fleet_cases n w :
  demo_fleet !! n = Some w →
  (n = "cn-1" ∨ n = "cn-2") ∧ w = demo_warmer n demo_full ∨ n = "cn-3" ∧ w = demo_warmer "cn-3" CacheNode.demo_node.
Proof.
  unfold demo_fleet. rewrite !lookup_insert_Some, lookup_singleton_Some. naive_solver.
Qed.
Lemma demo_fleet_lookup :
  demo_fleet !! "cn-1" = Some (demo_warmer "cn-1" demo_full) ∧
  demo_fleet !! "cn-2" = Some (demo_warmer "cn-2" demo_full) ∧
  demo_fleet !! "cn-3" = Some (demo_warmer "cn-3" CacheNode.demo_node).
Proof. unfold demo_fleet. by simplify_map_eq. Qed.
Lemma demo_full_view : view demo_full !! ID demo_b = Some demo_b.
Proof. simpl. rewrite (proj2 demo_full_wf). apply lookup_insert_eq. Qed.
Lemma demo_addr_cases n a :
  Prefetch.node_map Prefetch.demo_ring !! n = Some a →
  n = "cn-1" ∧ a = "a:1" ∨ n = "cn-2" ∧ a = "b:1" ∨ n = "cn-3" ∧ a = "c:1".
Proof.
  unfold Prefetch.node_map. simpl. rewrite !lookup_insert_Some, lookup_empty. naive_solver.
Qed.

Lemma demo_before :
  before_change demo_serving Prefetch.demo_Exp2 Prefetch.demo_ring (HashRing.New 1 Prefetch.demo_nodes 4) 2 7
    Prefetch.demo_demanded (λ _, demo_b) demo_fleet.
Proof.
  assert (∀ O, HashRing.Owners (HashRing.New 1 Prefetch.demo_nodes 4) (ID demo_b) (Z.of_nat 2) = Some O →
    length O = 2%nat ∧ ∀ o, o ∈ O → o = "cn-1" ∨ o = "cn-2") as Hmem.
  { intros O HO. destruct (owners_inv 1 Prefetch.demo_nodes 4 2 (ID demo_b) O eq_refl HO) as [Hl H].
    split; [exact Hl|]. intros o Ho. apply demo_nodes_cases. by apply H. }
  split.
  - destruct demo_fleet_lookup as (F1 & F2 & F3).
    intros n a [[-> ->]|[[-> ->]|[-> ->]]]%demo_addr_cases; (split; [discriminate|]);
      (split; [reflexivity|]); by eexists.
  - intros id _. split; reflexivity.
  - intros id O o ->%demo_demanded_id HO Ho _. destruct (proj2 (Hmem O HO) o Ho) as [->| ->];
      eexists; (split; [apply demo_fleet_lookup|apply demo_full_view]).
  - intros id O ->%demo_demanded_id HO.
    destruct (Hmem O HO) as [Hl Ho]. destruct O as [|o O]; [done|]. exists o. split; [by left|].
    destruct (Ho o ltac:(by left)) as [->| ->]; eexists; vm_compute; reflexivity.
Qed.

Lemma needs_one U (k raw : bytes) cmd n :
  U raw = Some cmd → needs U [(k, raw)] n = if decide (pmv1.TargetNode cmd = n) then [pmv1.warm_BlockId cmd] else [].
Proof. intros Hu. unfold needs. simpl. rewrite Hu. simpl. by destruct (decide _). Qed.

Lemma demo_nodes_ok : map_Forall (node_ok demo_Unmarshal demo_out (λ _, demo_b)) demo_fleet.
Proof.
  assert (∀ k, k ∈ demo_out.*1 → k = ID demo_b) as Hk.
  { intros k. rewrite demo_out_one. cbn [fmap list_fmap fst]. by rewrite list_elem_of_singleton. }
  intros n w [[Hn ->]|[-> ->]]%demo_fleet_cases.
  - split; [done|apply demo_full_wf|intros a c; simpl; by rewrite lookup_empty| |].
    + assert (needs demo_Unmarshal demo_out n = []) as ->.
      { rewrite demo_out_one. pose proof demo_cmd as Hc.
        destruct (demo_Unmarshal demo_raw) as [cmd|] eqn:Hu; [|discriminate Hc]. injection Hc as Ht _ _.
        rewrite (needs_one _ _ _ cmd n Hu), Ht. by destruct Hn as [->| ->]. }
      change (LRU.total (LRU.order demo_full) + 0 ≤ 1000). rewrite (proj2 demo_full_wf). vm_compute. discriminate.
    + intros k b _ Hb. simpl in Hb. rewrite (proj2 demo_full_wf) in Hb.
      apply lookup_by_id in Hb as [Hb _]; [|apply NoDup_singleton]. by apply list_elem_of_singleton in Hb.
  - split; [done|apply CacheNode.demo_node_wf|intros a c; simpl; by rewrite lookup_empty| |].
    + vm_compute. discriminate.
    + intros k b _ Hb. by vm_compute in Hb.
Qed.

Lemma replication_restored_witness :
  ∃ f' w, fleet_run demo_Unmarshal demo_serving (λ _, Some 2) demo_fleet demo_events = Some f' ∧
    f' !! "cn-3" = Some w ∧ view (Warmer.store w) !! ID demo_b = Some demo_b.
Proof.
  destruct (replication_restored demo_Unmarshal demo_serving (λ _, Some 2) Prefetch.demo_Exp2 demo_Marshal
    (map_to_list (Prefetch.blocks Prefetch.demo_demanded)) 7 Prefetch.demo_ring Prefetch.demo_demanded
    (match Prefetch.OnRing Prefetch.demo_Exp2 demo_Marshal (map_to_list (Prefetch.blocks Prefetch.demo_demanded)) 7
       Prefetch.demo_ring Prefetch.demo_demanded with Some (p, _) => p | None => Prefetch.demo_demanded end)
    demo_out 1 Prefetch.demo_nodes 4 2 (λ _, demo_b) demo_fleet demo_events) as (f' & H1 & H2 & _).
  - exact Prefetch.demo_demanded_keys.
  - reflexivity.
  - reflexivity.
  - reflexivity.
  - reflexivity.
  - vm_compute. reflexivity.
  - intros cmd. eexists. reflexivity.
  - exact warm_codec.
  - exact demo_before.
  - exact demo_nodes_ok.
  - rewrite demo_out_one. repeat constructor.
  - intros k raw. rewrite demo_out_one. intros [-> ->]%list_elem_of_singleton%pair_equal_spec.
    exists [], (Deliver "cn-3" 5 5 demo_raw), (tail demo_events), demo_fleet.
    split; [reflexivity|]. split; [reflexivity|]. split; [reflexivity|].
    pose proof demo_cmd as Hc. destruct (demo_Unmarshal demo_raw) as [cmd|]; [|discriminate Hc].
    injection Hc as Ht Hd _. exists cmd, (demo_warmer "cn-3" CacheNode.demo_node).
    rewrite Ht, Hd. split; [reflexivity|]. split; [reflexivity|]. split; [apply demo_fleet_lookup|].
    split; [lia|]. vm_compute. reflexivity.
  - destruct (H2 (ID demo_b) ["cn-2"; "cn-3"] "cn-3") as (w & Hw & Hv).
    + eexists. split; [vm_compute; reflexivity|]. vm_compute. reflexivity.
    + vm_compute. reflexivity.
    + right. left.
    + exists f', w. split; [exact H1|]. split; [exact Hw|exact Hv].
Defined.
End Heal.
