(* ===== verification/Agent.v ===== *)
(** * A cache node's control-plane side: src/internal/cachenode/agent.go

    The agent has two goroutines: the ring watcher, whose callback asks for a rejoin
    when a ring does not contain this node, and [Run], which joins, heartbeats and
    rejoins.  They share the one-slot channel [rejoin].  [agent_step] interleaves
    them; the answers of the directory replicas are arguments. *)

From S2P Require Import Prelude HashRing Proto BlockStore RingWatch.

Module Agent.
Local Open Scope N_scope.

Record Agent := MkAgent {
  Self : pmv1.NodeInfo;
  Directories : list string;
  watcher : RingWatch.Watcher (conn := unit);
  rejoin : bool     (* a value is in the channel *)
}.

Definition NewAgent (self : pmv1.NodeInfo) (directories : list string) : Agent :=
  MkAgent self directories (RingWatch.New directories false) false.

Definition Epoch (a : Agent) : N := RingWatch.Epoch (watcher a).

(** The [onRing] callback: a non-blocking send unless this node is in the ring. *)
Definition in_ring (self : pmv1.NodeInfo) (r : pmv1.Ring) : bool :=
  existsb (λ n, bool_decide (pmv1.NodeId n = pmv1.NodeId self)) (pmv1.ring_Nodes r).
Definition on_ring (r : pmv1.Ring) (a : Agent) : Agent :=
  if in_ring (Self a) r then a else MkAgent (Self a) (Directories a) (watcher a) true.

(** The watcher receives a ring: apply it and, if it was applied, call back. *)
Definition receive_ring (r : pmv1.Ring) (a : Agent) : Agent :=
  let '(w, called) := RingWatch.apply (λ _, None) r (watcher a) in
  let a := MkAgent (Self a) (Directories a) w (rejoin a) in
  if (called : bool) then on_ring r a else a.

(** One pass of [join] over the clients: whether a replica accepted, and how many
    were asked. *)
Fixpoint join_pass (answers : list bool) : bool * nat :=
  match answers with
  | [] => (false, 0%nat)
  | ok :: answers =>
      if (ok : bool) then (true, 1%nat) else let '(r, n) := join_pass answers in (r, S n)
  end.
(** [join]: passes until one is accepted or the context ends (the list is what the
    replicas answer pass by pass, until the context ends). *)
Fixpoint join (passes : list (list bool)) : bool :=
  match passes with
  | [] => false
  | answers :: passes => if (join_pass answers).1 then true else join passes
  end.

(** The heartbeats of one tick, one per connected replica. *)
Definition heartbeats (a : Agent) (occupancy : option N) (clients : nat) : list pmv1.HeartbeatRequest :=
  replicate clients
    (pmv1.MkHeartbeatRequest (pmv1.NodeId (Self a)) (default 0 occupancy) (Epoch a)).

(** ** Run and the watcher, interleaved *)
Inductive phase := Joining | Serving | Stopped.

(** The start of [Run]: the directories that can be dialed; without one the agent
    gives up, and the watcher is not started either. *)
Definition connect (dial : string → bool) (a : Agent) : list string := filter (λ d, dial d = true) (Directories a).
Definition Run_start (dial : string → bool) (a : Agent) : Agent * phase :=
  (a, if decide (connect dial a = []) then Stopped else Joining).
Inductive event :=
| ERing (r : pmv1.Ring)              (* the watcher receives a ring *)
| EJoin (answers : list bool)        (* one pass of join *)
| ETakeRejoin                        (* [case <-a.rejoin] *)
| ETick (occupancy : option N)       (* [case <-t.C] *)
| EDone.                             (* [case <-ctx.Done()] *)

Inductive agent_step : Agent * phase → event → Agent * phase → Prop :=
| step_ring a ph r : agent_step (a, ph) (ERing r) (receive_ring r a, ph)
| step_joined a answers : (join_pass answers).1 = true → agent_step (a, Joining) (EJoin answers) (a, Serving)
| step_retry a answers : (join_pass answers).1 = false → agent_step (a, Joining) (EJoin answers) (a, Joining)
| step_rejoin a : rejoin a = true →
    agent_step (a, Serving) ETakeRejoin (MkAgent (Self a) (Directories a) (watcher a) false, Joining)
| step_tick a occ : agent_step (a, Serving) (ETick occ) (a, Serving)
| step_done a ph : agent_step (a, ph) EDone (a, Stopped).

Inductive agent_steps : Agent * phase → list event → Agent * phase → Prop :=
| steps_nil s : agent_steps s [] s
| steps_snoc s tr s1 e s2 : agent_steps s tr s1 → agent_step s1 e s2 → agent_steps s (tr ++ [e]) s2.

(** Along a trace, whether the agent still owes a join: the callback saw a ring
    without this node and no new join has begun since. *)
Definition owes_step (self : pmv1.NodeInfo) (st : Agent * bool) (e : event) : Agent * bool :=
  let '(a, owed) := st in
  match e with
  | ERing r =>
      (receive_ring r a,
       if (RingWatch.apply (λ _, None) r (watcher a)).2 then (negb (bool_decide (pmv1.NodeId self ∈ pmv1.NodeId <$> pmv1.ring_Nodes r)) || owed) else owed)
  | ETakeRejoin => (MkAgent (Self a) (Directories a) (watcher a) false, false)
  | _ => (a, owed)
  end.
Definition owes (a : Agent) (tr : list event) : bool := (foldl (owes_step (Self a)) (a, false) tr).2.

Lemma in_ring_spec self r :
  in_ring self r = bool_decide (pmv1.NodeId self ∈ pmv1.NodeId <$> pmv1.ring_Nodes r).
Proof.
  unfold in_ring. apply eq_iff_eq_true. rewrite existsb_exists, bool_decide_eq_true, list_elem_of_fmap.
  setoid_rewrite bool_decide_eq_true. setoid_rewrite list_elem_of_In. naive_solver.
Qed.

Lemma receive_ring_self r a : Self (receive_ring r a) = Self a.
Proof.
  unfold receive_ring, on_ring. destruct (RingWatch.apply _ r (watcher a)) as [w [|]]; simpl; [|done].
  by destruct (in_ring _ _).
Qed.

Lemma owes_inv a tr a' ph :
  agent_steps (a, Joining) tr (a', ph) →
  Self a' = Self a ∧ foldl (owes_step (Self a)) (a, false) tr = (a', owes a tr) ∧
  (owes a tr = true → rejoin a' = true).
Proof.
  remember (a, Joining) as s0 eqn:Hs0. remember (a', ph) as s eqn:Hs. intros Hsteps. revert a' ph Hs.
  induction Hsteps as [s1|s1 tr [a1 ph1] e s2 Hsteps IH Hstep]; intros a2 ph2 ->.
  { injection Hs0 as [= -> ->]. split_and!; try done. }
  destruct (IH Hs0 a1 ph1 eq_refl) as (Hself & Hfold & Hinv).
  unfold owes in *. rewrite foldl_app, Hfold. cbn [foldl].
  inv Hstep; simpl; rewrite ?receive_ring_self; split_and!; try done.
  unfold receive_ring, on_ring. destruct (RingWatch.apply _ r (watcher a1)) as [w [|]]; simpl; [|done].
  rewrite Hself, in_ring_spec. by case_bool_decide.
Qed.

Lemma join_pass_accepted answers : (join_pass answers).1 = true ↔ true ∈ answers.
Proof.
  induction answers as [|[|] answers IH]; simpl; [set_solver|set_solver|].
  destruct (join_pass answers) as [r n]. simpl in *. set_solver.
Qed.

(** ** Property *)

(** C35. Self-healing: when the callback has seen a ring without this node (it was
    declared dead, rightly or not) and no join has begun since, the rejoin request
    is pending, however the two goroutines interleaved and however many rings were
    coalesced into the one-slot channel.  So a serving agent can take it and start a
    join, and one that is still joining starts another one right after some replica
    accepts the current one. *)
Theorem agent_heals self dirs tr a ph :
  agent_steps (NewAgent self dirs, Joining) tr (a, ph) → owes (NewAgent self dirs) tr = true →
  Self a = self ∧ rejoin a = true ∧
  (ph = Serving → ∃ a', agent_steps (a, ph) [ETakeRejoin] (a', Joining)) ∧
  (ph = Joining → ∀ answers, true ∈ answers →
     ∃ a', agent_steps (a, ph) [EJoin answers; ETakeRejoin] (a', Joining)).
Proof.
  intros Hsteps Howes. destruct (owes_inv _ _ _ _ Hsteps) as (Hself & _ & Hre). specialize (Hre Howes).
  split_and!; [done|done| |].
  - intros ->. eexists. apply (steps_snoc _ [] (a, Serving)); [constructor|by constructor].
  - intros -> answers Hin. eexists. apply (steps_snoc _ [EJoin answers] (a, Serving)); [|by constructor].
    apply (steps_snoc _ [] (a, Joining)); [constructor|]. constructor. by apply join_pass_accepted.
Qed.

Definition demo_self : pmv1.NodeInfo := pmv1.MkNodeInfo "cn-1" "a:1" 0.
Definition demo_trace : list event :=
  [EJoin [false; true]; ERing (pmv1.MkRing 1 [demo_self] 4); ERing (pmv1.MkRing 2 [] 4)].

Lemma agent_heals_witness :
  ∃ a, agent_steps (NewAgent demo_self ["d"], Joining) demo_trace (a, Serving) ∧ rejoin a = true ∧
    ∃ a', agent_steps (a, Serving) [ETakeRejoin] (a', Joining).
Proof.
  set (a0 := NewAgent demo_self ["d"]).
  set (a1 := receive_ring (pmv1.MkRing 1 [demo_self] 4) a0).
  set (a2 := receive_ring (pmv1.MkRing 2 [] 4) a1).
  assert (agent_steps (a0, Joining) demo_trace (a2, Serving)) as Hst.
  { apply (steps_snoc _ [EJoin [false; true]; ERing (pmv1.MkRing 1 [demo_self] 4)] (a1, Serving)); [|constructor].
    apply (steps_snoc _ [EJoin [false; true]] (a0, Serving)); [|constructor].
    apply (steps_snoc _ [] (a0, Joining)); [constructor|]. constructor. reflexivity. }
  destruct (agent_heals demo_self ["d"] demo_trace a2 Serving) as (_ & H1 & H2 & _).
  - exact Hst.
  - vm_compute. reflexivity.
  - exists a2. split; [exact Hst|]. split; [exact H1|]. exact (H2 eq_refl).
Defined.
End Agent.
