(* ===== verification/Loadgen.v ===== *)
(** * The benchmark client: src/cmd/loadgen/main.go

    What the workers do per request: pick a tenant and a document, build the prompt
    and its chain, match, account the hits and the cost, and write back the blocks
    past the matched depth.  [math/rand] is a parameter ([NewSource], [Intn],
    [Zipf_Uint64]); the two RPCs are operations of the interface [GatewayClient],
    with the gateway of [Gateway] as an instance.  The report is its numbers.  LoadRun.v
    runs the workers concurrently; rounding durations and printing are not modelled. *)

From Stdlib Require Import Floats.SpecFloat.
From S2P Require Import Prelude Sha256 Chain Proto Float64 FloatRound BlockStore LRU HashRing Gateway GatewayProps.

Module Loadgen.
Local Open Scope N_scope.

Definition costPerTokenUS : N := 50.

Record config := MkConfig {
  gateway : string;
  requests : Z;
  concurrency : Z;
  tenants : Z;
  docs : Z;
  zipfS : spec_float;
  blockSize : Z;
  sysBlocks : Z;
  docBlocks : Z;
  payload : Z;
  seed : Z;
  workloadSeed : Z;
  modelID : string;
  expensiveEvery : Z;
  expensiveMult : N
}.

Definition docCostMult (c : config) (doc : Z) : N :=
  if ((0 <? expensiveEvery c) && (Z.rem doc (expensiveEvery c) =? 0))%Z then expensiveMult c else 1.
(** The closure [blockMult]. *)
Definition blockMult (c : config) (docMult : N) (j : nat) : N :=
  if ((sysBlocks c <=? Z.of_nat j) && (Z.of_nat j <? sysBlocks c + docBlocks c))%Z then docMult else 1.

(** ** Prompts *)
Section prompt.
Context {R : Type} (NewSource : Z → R) (Intn : R → Z → Z * R).

Fixpoint rand_loop (n : nat) (r : R) : list N * R :=
  match n with
  | O => ([], r)
  | S n =>
      let '(t, r) := Intn r 50000 in
      let '(ts, r) := rand_loop n r in (Chain.uint32_of_int t :: ts, r)
  end.
(** [None]: [make] of a negative length. *)
Definition randTokens (r : R) (n : Z) : option (list N * R) :=
  if (n <? 0)%Z then None else Some (rand_loop (Z.to_nat n) r).

Definition tenantTokens (c : config) (tenant : Z) : option (list N) :=
  fst <$> randTokens (NewSource (Z.lxor (workloadSeed c) (int64 (Z.shiftl tenant 32))))
            (int64 (sysBlocks c * blockSize c)).
Definition docTokens (c : config) (doc : Z) : option (list N) :=
  fst <$> randTokens (NewSource (Z.lxor (Z.lxor (workloadSeed c) 24301) (int64 (Z.shiftl doc 16))))
            (int64 (docBlocks c * blockSize c)).

(** System prompt, document, unique suffix. *)
Definition prompt (c : config) (tenant doc : Z) (r : R) : option (list N * R) :=
  sys ← tenantTokens c tenant;
  d ← docTokens c doc;
  '(suffix, r) ← randTokens r (blockSize c);
  Some (sys ++ d ++ suffix, r).
End prompt.

(** ** One request *)
Record metrics := MkMetrics {
  blocksRequested : N;
  blocksHit : N;
  costRequestedUS : N;
  costSavedUS : N;
  fullHits : N
}.

Definition block_cost (c : config) (docMult : N) (j : nat) (blk : list N) : N :=
  u64 (N.of_nat (length blk) * costPerTokenUS * blockMult c docMult j).

(** [for j, blk := range blocks]: the cost counters. *)
Fixpoint cost_loop (c : config) (docMult : N) (depth j : nat) (blocks : list (list N)) (m : N * N) : N * N :=
  match blocks with
  | [] => m
  | blk :: blocks =>
      let cost := block_cost c docMult j blk in
      let '(req, saved) := m in
      cost_loop c docMult depth (S j) blocks
        (u64 (req + cost), if (j <? depth)%nat then u64 (saved + cost) else saved)
  end.

(** The second loop: the blocks sent; [None] is an index out of range or [make] of a
    negative payload size. *)
Fixpoint send_loop (c : config) (docMult : N) (ids : list bytes) (depth j : nat) (parent : bytes)
    (blocks : list (list N)) : option (list pmv1.Block) :=
  match blocks with
  | [] => Some []
  | blk :: blocks =>
      id ← ids !! j;
      rest ← send_loop c docMult ids depth (S j) id blocks;
      if (depth <=? j)%nat then
        if (payload c <? 0)%Z then None
        else Some (pmv1.MkBlock id parent (modelID c) (replicate (Z.to_nat (payload c)) x00)
                     (u32 (N.of_nat (length blk))) (block_cost c docMult j blk) :: rest)
      else Some rest
  end.

(** [depth] is the matched depth the gateway answered. *)
Definition request (c : config) (docMult : N) (tokens : list N) (depth : N) (m : metrics)
    : option (metrics * list pmv1.Block) :=
  ids ← Chain.Build (modelID c) (blockSize c) tokens;
  blocks ← Chain.Chunk tokens (blockSize c);
  let d := N.to_nat depth in
  let '(req, saved) := cost_loop c docMult d 0 blocks (costRequestedUS m, costSavedUS m) in
  let m := MkMetrics (u64 (blocksRequested m + N.of_nat (length ids))) (u64 (blocksHit m + depth)) req saved
             (if (d =? length ids)%nat then u64 (fullHits m + 1) else fullHits m) in
  if (d <? length ids)%nat then
    sent ← send_loop c docMult ids d 0 (Chain.Root (modelID c) (blockSize c)) blocks;
    Some (m, sent)
  else Some (m, []).

(** ** The worker

    The two RPCs of [pmv1.GatewayServiceClient]; [None] and [false] are an error
    (for [PutBlocks]: of the open, a send or the close). *)
Class GatewayClient (G : Type) := {
  Match_rpc : G → pmv1.MatchRequest → G * option pmv1.MatchResponse;
  PutBlocks_rpc : G → list pmv1.Block → G * bool
}.
Inductive outcome := Done | MatchFailed | PutFailed.

Section worker.
Context {R G : Type} (NewSource : Z → R) (Intn : R → Z → Z * R) (Zipf_Uint64 : spec_float → N → R → N * R).
Context `{!GatewayClient G}.

(** [r.Intn(n)] panics for [n <= 0]. *)
Definition rand_Intn (r : R) (n : Z) : option (Z * R) := if (n <=? 0)%Z then None else Some (Intn r n).
Definition pickDoc (c : config) (r : R) : option (Z * R) :=
  if float64.ltb (float64.of_Z 1) (zipfS c)
  then let '(x, r) := Zipf_Uint64 (zipfS c) (Z.to_N ((docs c - 1) `mod` 18446744073709551616)) r in
       Some (int64 (Z.of_N x), r)
  else rand_Intn r (docs c).

(** What an iteration asks for: the document, the prompt and its chain. *)
Definition draw (c : config) (r : R) : option (Z * list N * list bytes * R) :=
  '(tenant, r) ← rand_Intn r (tenants c);
  '(doc, r) ← pickDoc c r;
  '(tokens, r) ← prompt NewSource Intn c tenant doc r;
  ids ← Chain.Build (modelID c) (blockSize c) tokens;
  Some (doc, tokens, ids, r).

(** One iteration; an outcome other than [Done] is an early return with an error. *)
Definition iteration (c : config) (r : R) (g : G) (m : metrics)
    : option (R * G * metrics * outcome) :=
  '(doc, tokens, ids, r) ← draw c r;
  let '(g, resp) := Match_rpc g (pmv1.MkMatchRequest (modelID c) ids) in
  match resp with
  | None => Some (r, g, m, MatchFailed)
  | Some resp =>
      let depth := pmv1.MatchedDepth resp in
      '(m, sent) ← request c (docCostMult c doc) tokens depth m;
      if (N.to_nat depth <? length ids)%nat
      then let '(g, ok) := PutBlocks_rpc g sent in Some (r, g, m, if ok : bool then Done else PutFailed)
      else Some (r, g, m, Done)
  end.
Fixpoint worker_loop (c : config) (n : nat) (r : R) (g : G) (m : metrics) : option (G * metrics * outcome) :=
  match n with
  | O => Some (g, m, Done)
  | S n =>
      '(r, g, m, o) ← iteration c r g m;
      match o with Done => worker_loop c n r g m | _ => Some (g, m, o) end
  end.
Definition worker (c : config) (workerID requests : Z) (g : G) (m : metrics) : option (G * metrics * outcome) :=
  worker_loop c (Z.to_nat requests) (NewSource (int64 (seed c + workerID * 1000003))) g m.
End worker.

(** The requests of each worker; [None] is the division by zero, or [make] of a
    negative channel size. *)
Definition share (c : config) (w : nat) : Z :=
  let per := Z.quot (requests c) (concurrency c) in
  if (Z.of_nat w =? concurrency c - 1)%Z then (requests c - per * (concurrency c - 1))%Z else per.
Definition shares (c : config) : option (list Z) :=
  if (concurrency c <=? 0)%Z then None else Some (share c <$> seq 0 (Z.to_nat (concurrency c))).

(** ** The report *)

(** [None]: the index is out of range (or no [int] at all). *)
Definition percentile (sorted : list Z) (p : spec_float) : option Z :=
  match sorted with
  | [] => Some 0%Z
  | _ =>
      i ← float64_round.to_int (float64.mul p (float64.of_Z (Z.of_nat (length sorted) - 1)));
      if (i <? 0)%Z then None else sorted !! Z.to_nat i
  end.
(** The constants [0.50] and [0.99]. *)
Definition p50 : spec_float := float64.div (float64.of_Z 1) (float64.of_Z 2).
Definition p99 : spec_float := float64.div (float64.of_Z 99) (float64.of_Z 100).

Record report := MkReport {
  hit_rate : spec_float;
  saved_rate : spec_float;
  saved_s : spec_float;
  requested_s : spec_float;
  full_hits : N;
  lat_p50 : Z;
  lat_p99 : Z
}.
(** What [main] computes after the workers are done, before formatting. *)
Definition main_report (m : metrics) (latencies : list Z) : option report :=
  let sorted := merge_sort Z.le latencies in
  let percent a b := float64.div (float64.mul (float64.of_Z 100) (float64.of_N a)) (float64.of_N b) in
  let seconds a := float64.div (float64.of_N a) (float64.of_Z 1000000) in
  l50 ← percentile sorted p50;
  l99 ← percentile sorted p99;
  Some (MkReport (percent (blocksHit m) (blocksRequested m)) (percent (costSavedUS m) (costRequestedUS m))
          (seconds (costSavedUS m)) (seconds (costRequestedUS m)) (fullHits m) l50 l99).

(** ** Lemmas *)

(** A percentile of fewer than 2^53 latencies is one of them. *)
Lemma percentile_in sorted p :
  sorted ≠ [] → float64_round.fraction p = true → (Z.of_nat (length sorted) ≤ 2 ^ 53)%Z →
  ∃ d, percentile sorted p = Some d ∧ d ∈ sorted.
Proof.
  intros Hne Hp Hlen. assert (0 < length sorted)%nat by (destruct sorted; [done|simpl; lia]).
  destruct (float64_round.mul_fraction_range p (Z.of_nat (length sorted) - 1) Hp) as (i & Hi & Hr); [lia|].
  unfold percentile. destruct sorted as [|x l] eqn:Hs; [done|]. rewrite Hi, <-Hs in *. bind_step.
  destruct (Z.ltb_spec i 0); [lia|].
  destruct (lookup_lt_is_Some_2 sorted (Z.to_nat i)) as [d Hd]; [lia|]. rewrite Hd.
  exists d. split; [done|]. by eapply list_elem_of_lookup_2.
Qed.

Definition costs (c : config) (docMult : N) (j : nat) (blocks : list (list N)) : list N :=
  imap (λ i blk, block_cost c docMult (j + i) blk) blocks.
Definition sumN (l : list N) : N := foldr N.add 0 l.

Lemma sumN_app l1 l2 : sumN (l1 ++ l2) = sumN l1 + sumN l2.
Proof. unfold sumN. induction l1 as [|x l1 IH]; simpl; lia. Qed.

Lemma costs_cons c dm j blk blocks : costs c dm j (blk :: blocks) = block_cost c dm j blk :: costs c dm (S j) blocks.
Proof.
  unfold costs. rewrite imap_cons. f_equal; [by rewrite Nat.add_0_r|].
  apply imap_ext. intros i x _. simpl. f_equal. lia.
Qed.

Lemma cost_loop_spec c dm d j blocks req saved :
  cost_loop c dm d j blocks (u64 req, u64 saved) =
    (u64 (req + sumN (costs c dm j blocks)), u64 (saved + sumN (take (d - j) (costs c dm j blocks)))).
Proof.
  revert j req saved. induction blocks as [|blk blocks IH]; intros j req saved.
  { change (costs c dm j []) with (@nil N). rewrite take_nil. cbn. by rewrite !N.add_0_r. }
  cbn [cost_loop]. rewrite costs_cons. set (x := block_cost c dm j blk).
  assert (∀ a, u64 (u64 a + x) = u64 (a + x)) as Hu by (intros; word_lia). rewrite Hu.
  destruct (Nat.ltb_spec j d).
  - rewrite Hu, IH. replace (d - j)%nat with (S (d - S j)) by lia. cbn [take sumN foldr].
    fold (sumN (costs c dm (S j) blocks)) (sumN (take (d - S j) (costs c dm (S j) blocks))).
    by rewrite !N.add_assoc.
  - rewrite IH. replace (d - j)%nat with 0%nat by lia. replace (d - S j)%nat with 0%nat by lia. rewrite !take_0.
    cbn [sumN foldr]. fold (sumN (costs c dm (S j) blocks)). by rewrite !N.add_assoc.
Qed.

(** The parent of block [j] in a chain that starts after [par]. *)
Definition parent_at (par : bytes) (ids : list bytes) (j : nat) : bytes :=
  default par (match j with O => None | S j => ids !! j end).

Lemma send_loop_spec c dm ids d j par blocks :
  (0 ≤ payload c)%Z → (j + length blocks ≤ length ids)%nat →
  ∃ sent, send_loop c dm ids d j (parent_at par ids j) blocks = Some sent ∧
    sumN (pmv1.CostUs <$> sent) = sumN (drop (d - j) (costs c dm j blocks)) ∧
    length sent = (length blocks - (d - j))%nat ∧
    ∀ k pb, sent !! k = Some pb →
      let i := (d - j + k)%nat in
      ∃ blk, blocks !! i = Some blk ∧ ids !! (j + i)%nat = Some (pmv1.BlockId pb) ∧
        pmv1.ParentId pb = parent_at par ids (j + i) ∧ pmv1.ModelId pb = modelID c ∧
        pmv1.TokenCount pb = u32 (N.of_nat (length blk)).
Proof.
  intros Hpay. revert j. induction blocks as [|blk blocks IH]; intros j Hlen; cbn [send_loop].
  { exists []. change (costs c dm j []) with (@nil N). rewrite drop_nil. split_and!; [done|done|simpl; lia|]. intros k pb. by rewrite lookup_nil. }
  simpl in Hlen. destruct (lookup_lt_is_Some_2 ids j ltac:(lia)) as [id Hid]. rewrite Hid. bind_step.
  destruct (IH (S j)) as (rest & Heq & Hsum & Hl & Hk); [lia|].
  assert (parent_at par ids (S j) = id) as Hp by (unfold parent_at; by rewrite Hid).
  rewrite Hp in Heq. rewrite Heq. bind_step. rewrite costs_cons.
  destruct (Z.ltb_spec (payload c) 0); [lia|].
  destruct (Nat.leb_spec d j) as [Hd|Hd]; (eexists; split; [done|]).
  - replace (d - j)%nat with 0%nat by lia. replace (d - S j)%nat with 0%nat in Hsum, Hl, Hk by lia.
    rewrite drop_0 in *. split_and!;
      [change (block_cost c dm j blk + sumN (pmv1.CostUs <$> rest) = block_cost c dm j blk + sumN (costs c dm (S j) blocks)); by rewrite Hsum|simpl; lia|].
    intros [|k] pb Hpb; simpl in Hpb.
    + injection Hpb as <-. simpl. exists blk. by rewrite Nat.add_0_r.
    + destruct (Hk k pb Hpb) as (b & Hb & Hi & Hr). exists b. simpl in *.
      replace (j + S k)%nat with (S (j + k)) by lia. done.
  - replace (d - j)%nat with (S (d - S j)) by lia. split_and!; [done|simpl; lia|].
    intros k pb Hpb. destruct (Hk k pb Hpb) as (b & Hb & Hi & Hr). exists b. simpl in *.
    replace (j + S (d - S j + k))%nat with (S (j + (d - S j + k))) by lia. done.
Qed.

(** The IDs of a chain: each is the hash of its predecessor and its block. *)
Lemma build_loop_linked par blocks j id blk :
  Chain.build_loop par blocks !! j = Some id → blocks !! j = Some blk →
  id = Chain.Next (parent_at par (Chain.build_loop par blocks) j) blk.
Proof.
  revert par j. induction blocks as [|b blocks IH]; intros par [|j]; simpl; [done..| |].
  - by intros [= <-] [= <-].
  - intros Hid Hblk. rewrite (IH _ _ Hid Hblk). f_equal. unfold parent_at.
    destruct j as [|j]; simpl; [done|]. destruct (Chain.build_loop _ blocks !! j) eqn:E; [done|].
    apply lookup_ge_None in E. apply lookup_lt_Some in Hid. lia.
Qed.

(** What a request does to the counters, and the blocks it writes back. *)
Lemma request_spec c dm tokens depth m :
  (0 < blockSize c)%Z → (0 ≤ payload c)%Z → costRequestedUS m < two64 → costSavedUS m < two64 →
  let d := N.to_nat depth in
  let blocks := Chain.chunk_loop (length tokens) tokens (Z.to_nat (blockSize c)) 0 in
  let root := Chain.Root (modelID c) (blockSize c) in
  let ids := Chain.build_loop root blocks in
  let cs := costs c dm 0 blocks in
  ∃ sent,
    request c dm tokens depth m = Some (MkMetrics (u64 (blocksRequested m + N.of_nat (length ids)))
      (u64 (blocksHit m + depth)) (u64 (costRequestedUS m + sumN cs)) (u64 (costSavedUS m + sumN (take d cs)))
      (if (d =? length ids)%nat then u64 (fullHits m + 1) else fullHits m), sent) ∧
    sumN (pmv1.CostUs <$> sent) = sumN (drop d cs) ∧ length sent = (length ids - d)%nat ∧
    ∀ k pb, sent !! k = Some pb → ∃ blk, blocks !! (d + k)%nat = Some blk ∧
      ids !! (d + k)%nat = Some (pmv1.BlockId pb) ∧ pmv1.ParentId pb = parent_at root ids (d + k) ∧
      pmv1.ModelId pb = modelID c ∧ pmv1.TokenCount pb = u32 (N.of_nat (length blk)).
Proof.
  intros Hbs Hpay Hreq Hsav d blocks root ids cs. unfold request, Chain.Build, Chain.Chunk.
  destruct (Z.leb_spec (blockSize c) 0); [lia|]. bind_step. fold d. fold blocks. fold root. fold ids.
  assert (length ids = length blocks) as Hlen by (unfold ids; apply Chain.length_build_loop).
  pose proof (cost_loop_spec c dm d 0 blocks (costRequestedUS m) (costSavedUS m)) as Hcost.
  rewrite !(u64_small (costRequestedUS m)), !(u64_small (costSavedUS m)) in Hcost by done.
  rewrite Hcost, Nat.sub_0_r. fold cs.
  destruct (send_loop_spec c dm ids d 0 root blocks) as (sent & Hs & Hsum & Hl & Hk); [done|simpl; lia|].
  rewrite Nat.sub_0_r in *. fold cs in Hsum. change (parent_at root ids 0) with root in Hs. rewrite Hs.
  destruct (Nat.ltb_spec d (length ids)).
  - exists sent. bind_step. split_and!; [done|done|by rewrite Hlen|done].
  - exists []. split_and!; [done| |simpl; lia|intros k pb; by rewrite lookup_nil].
    rewrite drop_ge; [done|]. unfold cs, costs. len_lia.
Qed.

(** ** Theorems *)

(** A request accounts for every block once: what was saved plus what is written
    back is what was requested (at 64 bits), and the blocks written back are exactly
    those past the matched depth, each with an ID that is the hash of its parent and
    its own tokens, the parent being the previous block of the chain or the root. *)
Theorem request_accounts c dm tokens depth m :
  (0 < blockSize c)%Z → (0 ≤ payload c)%Z → costRequestedUS m < two64 → costSavedUS m < two64 →
  ∃ ids blocks m' sent,
    Chain.Build (modelID c) (blockSize c) tokens = Some ids ∧ Chain.Chunk tokens (blockSize c) = Some blocks ∧
    request c dm tokens depth m = Some (m', sent) ∧
    costRequestedUS m' = u64 (costRequestedUS m + sumN (costs c dm 0 blocks)) ∧
    u64 (costSavedUS m' + sumN (pmv1.CostUs <$> sent)) = u64 (costSavedUS m + sumN (costs c dm 0 blocks)) ∧
    length sent = (length ids - N.to_nat depth)%nat ∧
    ∀ k pb, sent !! k = Some pb → ∃ blk, blocks !! (N.to_nat depth + k)%nat = Some blk ∧
      ids !! (N.to_nat depth + k)%nat = Some (pmv1.BlockId pb) ∧
      pmv1.ParentId pb = parent_at (Chain.Root (modelID c) (blockSize c)) ids (N.to_nat depth + k) ∧
      pmv1.BlockId pb = Chain.Next (pmv1.ParentId pb) blk ∧ pmv1.TokenCount pb = u32 (N.of_nat (length blk)).
Proof.
  intros Hbs Hpay Hreq Hsav.
  destruct (request_spec c dm tokens depth m Hbs Hpay Hreq Hsav) as (sent & -> & Hsum & Hlen & Hk).
  unfold Chain.Build, Chain.Chunk. destruct (Z.leb_spec (blockSize c) 0); [lia|].
  eexists _, _, _, sent. split_and!; [done|done|done|done| |done|].
  - cbn [costSavedUS]. rewrite Hsum. set (cs := costs c dm 0 _).
    rewrite <-(take_drop (N.to_nat depth) cs) at 3. rewrite sumN_app. word_lia.
  - intros k pb Hpb. destruct (Hk k pb Hpb) as (blk & Hb & Hi & Hpar & _ & Htc). exists blk.
    split_and!; [done|done|done| |done]. rewrite Hpar. by apply build_loop_linked.
Qed.

(** The workers' shares add up to the requested total, the last one taking the rest. *)
Theorem shares_total c :
  (0 < concurrency c)%Z → ∃ l, shares c = Some l ∧ foldr Z.add 0%Z l = requests c.
Proof.
  intros Hc. unfold shares. destruct (Z.leb_spec (concurrency c) 0); [lia|]. eexists. split; [done|].
  destruct (Z.to_nat (concurrency c)) as [|k] eqn:Hk; [lia|]. rewrite seq_S, fmap_app, foldr_app. simpl.
  unfold share at 1. destruct (Z.eqb_spec (Z.of_nat k) (concurrency c - 1)); [|lia].
  set (per := Z.quot _ _).
  assert (∀ n x, (n ≤ k)%nat → foldr Z.add x (share c <$> seq 0 n) = (per * Z.of_nat n + x)%Z) as Hsum.
  { induction n as [|n IH]; intros x Hn; [simpl; lia|]. rewrite seq_S, fmap_app, foldr_app, IH by lia. simpl.
    unfold share. destruct (Z.eqb_spec (Z.of_nat n) (concurrency c - 1)); [lia|]. fold per. lia. }
  rewrite Hsum by lia. lia.
Qed.

(** ** Whole runs *)

(** Prompts are whole blocks: the system prompt, the document, one block of suffix. *)
Definition blocks_per_request (c : config) : nat := Z.to_nat (sysBlocks c + docBlocks c + 1).
Definition max_cost (c : config) : N :=
  N.of_nat (blocks_per_request c) * (Z.to_N (blockSize c) * costPerTokenUS * N.max 1 (expensiveMult c)).

(** Flags a run makes sense with. *)
Record config_ok (c : config) : Prop := {
  ok_tenants : (0 < tenants c)%Z;
  ok_docs : (0 < docs c)%Z;
  ok_block : (0 < blockSize c)%Z;
  ok_sys : (0 ≤ sysBlocks c)%Z;
  ok_doc : (0 ≤ docBlocks c)%Z;
  ok_payload : (0 ≤ payload c)%Z
}.

(** A gateway never reports more blocks than it was asked for. *)
Class HonestGateway (G : Type) `{!GatewayClient G} : Prop :=
  honest : ∀ g req g' resp, Match_rpc g req = (g', Some resp) →
    pmv1.MatchedDepth resp ≤ N.of_nat (length (pmv1.mreq_Chain req)).

Lemma length_rand_loop {R} (Intn : R → Z → Z * R) n r : length (rand_loop Intn n r).1 = n.
Proof.
  revert r. induction n as [|n IH]; intros r; simpl; [done|]. destruct (Intn r _) as [t r'].
  specialize (IH r'). destruct (rand_loop Intn n r') as [ts r'']. simpl in *. by rewrite IH.
Qed.


Lemma sumN_bound b l : Forall (λ x, x ≤ b) l → sumN l ≤ N.of_nat (length l) * b.
Proof. unfold sumN. induction 1; simpl; lia. Qed.
Lemma sumN_take k l : sumN (take k l) ≤ sumN l.
Proof. rewrite <-(take_drop k l) at 2. rewrite sumN_app. lia. Qed.

Lemma sum_costs_bound c doc blocks :
  Forall (λ blk, length blk ≤ Z.to_nat (blockSize c))%nat blocks →
  sumN (costs c (docCostMult c doc) 0 blocks) ≤
    N.of_nat (length blocks) * (Z.to_N (blockSize c) * costPerTokenUS * N.max 1 (expensiveMult c)).
Proof.
  intros Hall. replace (length blocks) with (length (costs c (docCostMult c doc) 0 blocks)) by (unfold costs; len_lia).
  apply sumN_bound, Forall_lookup_2. intros i x Hi. unfold costs in Hi. rewrite list_lookup_imap in Hi.
  destruct (blocks !! i) as [blk|] eqn:Hb; [|done]. injection Hi as <-.
  pose proof (Forall_lookup_1 _ _ _ _ Hall Hb) as Hlen. simpl in Hlen. unfold block_cost.
  assert (blockMult c (docCostMult c doc) i ≤ N.max 1 (expensiveMult c)) as Hm.
  { unfold blockMult, docCostMult. destruct (_ && _)%Z; [destruct (_ && _)%Z|]; lia. }
  etrans; [apply N.Div0.mod_le|]. apply N.mul_le_mono; [|done]. apply N.mul_le_mono_r. lia.
Qed.

Section runs.
Context {R G : Type} (NewSource : Z → R) (Intn : R → Z → Z * R) (Zipf_Uint64 : spec_float → N → R → N * R).
Context `{!GatewayClient G} `{!HonestGateway G} (c : config) (Hc : config_ok c).
#[local] Set Default Proof Using "Type Hc".
Notation K := (blocks_per_request c).

Lemma prompt_length tenant doc r :
  max_cost c < two64 → ∃ tokens r', prompt NewSource Intn c tenant doc r = Some (tokens, r') ∧
    length tokens = (K * Z.to_nat (blockSize c))%nat.
Proof.
  intros Hmax. destruct Hc. unfold prompt, tenantTokens, docTokens, randTokens.
  assert ((sysBlocks c + docBlocks c + 1) * blockSize c < 9223372036854775808)%Z as Hb.
  { unfold max_cost, blocks_per_request, costPerTokenUS, two64 in Hmax. nia. }
  assert (∀ n, (0 ≤ n ≤ sysBlocks c + docBlocks c)%Z → int64 (n * blockSize c) = (n * blockSize c)%Z) as Hi
    by (intros n Hn; apply int64_small; nia).
  rewrite !Hi by lia.
  destruct (Z.ltb_spec (sysBlocks c * blockSize c) 0); [nia|].
  destruct (Z.ltb_spec (docBlocks c * blockSize c) 0); [nia|].
  destruct (Z.ltb_spec (blockSize c) 0); [lia|]. simpl.
  pose proof (length_rand_loop Intn (Z.to_nat (blockSize c)) r) as Hl.
  destruct (rand_loop Intn (Z.to_nat (blockSize c)) r) as [suffix r']. simpl in Hl.
  eexists _, r'. split; [done|]. rewrite !length_app, !length_rand_loop, Hl.
  unfold blocks_per_request. nia.
Qed.

Lemma chunks_of_prompt tokens :
  length tokens = (K * Z.to_nat (blockSize c))%nat →
  let blocks := Chain.chunk_loop (length tokens) tokens (Z.to_nat (blockSize c)) 0 in
  length blocks = K ∧ Forall (λ blk, length blk ≤ Z.to_nat (blockSize c))%nat blocks.
Proof.
  intros Hlen blocks. destruct Hc. unfold blocks. split.
  - rewrite Chain.length_chunk_loop by lia. rewrite Hlen, Nat.sub_0_r.
    symmetry. apply Nat.div_unique with (Z.to_nat (blockSize c) - 1)%nat; lia.
  - apply Forall_lookup_2. intros i blk Hi. apply Chain.lookup_chunk_loop in Hi as [-> _]; [|lia..].
    rewrite length_take. lia.
Qed.

(** The counters after [i] requests. *)
Record tally (i : nat) (m : metrics) : Prop := {
  t_requested : blocksRequested m = N.of_nat (i * K);
  t_hit : blocksHit m ≤ blocksRequested m;
  t_cost : costRequestedUS m ≤ N.of_nat i * max_cost c;
  t_saved : costSavedUS m ≤ costRequestedUS m;
  t_full : fullHits m ≤ N.of_nat i
}.

Lemma max_cost_blocks : N.of_nat K ≤ max_cost c ∧ 0 < N.of_nat K.
Proof.
  destruct Hc. unfold max_cost, costPerTokenUS. assert (0 < N.of_nat K) by (unfold blocks_per_request; lia).
  split; [|done]. rewrite <-(N.mul_1_r (N.of_nat K)) at 1. apply N.mul_le_mono_l.
  assert (1 ≤ Z.to_N (blockSize c)) by lia. nia.
Qed.

Lemma request_tally i m doc tokens depth :
  tally i m → N.of_nat (S i) * max_cost c < two64 →
  length tokens = (K * Z.to_nat (blockSize c))%nat → depth ≤ N.of_nat K →
  ∃ m' sent, request c (docCostMult c doc) tokens depth m = Some (m', sent) ∧ tally (S i) m'.
Proof.
  intros [Hr Hh Hcost Hs Hf] Hmax Hlen Hd. pose proof max_cost_blocks as [HK HK0].
  destruct (chunks_of_prompt tokens Hlen) as [Hn Hall].
  destruct (request_spec c (docCostMult c doc) tokens depth m) as (sent & -> & _);
    [by destruct Hc|by destruct Hc|nia|nia|]. eexists _, sent. split; [done|].
  pose proof (sum_costs_bound c doc _ Hall) as Hsum. rewrite Hn in Hsum. fold (max_cost c) in Hsum.
  set (cs := costs c _ 0 _) in *. pose proof (sumN_take (N.to_nat depth) cs) as Htake.
  rewrite Chain.length_build_loop, Hn.
  assert (N.of_nat (S i) * N.of_nat K ≤ N.of_nat (S i) * max_cost c) as HiK by (apply N.mul_le_mono_l; lia).
  rewrite Nat2N.inj_mul in Hr. rewrite Nat2N.inj_succ, !N.mul_succ_l in *.
  split; simpl.
  1,2: rewrite ?(u64_small (blocksRequested m + _)), ?(u64_small (blocksHit m + _)) by lia; simpl; lia.
  1,2: rewrite ?(u64_small (costRequestedUS m + _)), ?(u64_small (costSavedUS m + _)) by lia; lia.
  destruct (_ =? _)%nat; [rewrite u64_small by nia|]; lia.
Qed.

Lemma draw_total r :
  max_cost c < two64 → ∃ doc tokens ids r', draw NewSource Intn Zipf_Uint64 c r = Some (doc, tokens, ids, r') ∧
    length tokens = (K * Z.to_nat (blockSize c))%nat ∧ length ids = K ∧
    Chain.Build (modelID c) (blockSize c) tokens = Some ids.
Proof using Hc.
  intros Hmax. unfold draw, rand_Intn. pose proof (ok_tenants c Hc).
  destruct (Z.leb_spec (tenants c) 0); [lia|]. destruct (Intn r (tenants c)) as [tenant r1]. bind_step.
  assert (∃ doc r2, pickDoc Intn Zipf_Uint64 c r1 = Some (doc, r2)) as (doc & r2 & ->).
  { unfold pickDoc, rand_Intn. destruct (float64.ltb _ _); [destruct (Zipf_Uint64 _ _ _); eauto|].
    pose proof (ok_docs c Hc). destruct (Z.leb_spec (docs c) 0); [lia|]. destruct (Intn r1 (docs c)). eauto. }
  bind_step. destruct (prompt_length tenant doc r2) as (tokens & r3 & -> & Hlen); [nia|]. bind_step.
  destruct (chunks_of_prompt tokens Hlen) as [Hn _]. unfold Chain.Build, Chain.Chunk. pose proof (ok_block c Hc).
  destruct (Z.leb_spec (blockSize c) 0); [lia|]. bind_step. eexists _, tokens, _, _.
  split_and!; [done|done| |done]. by rewrite Chain.length_build_loop.
Qed.

(** One iteration never panics; a failed [Match] leaves the counters alone. *)
Lemma iteration_tally i r g m :
  tally i m → N.of_nat (S i) * max_cost c < two64 →
  ∃ r' g' m' o, iteration NewSource Intn Zipf_Uint64 c r g m = Some (r', g', m', o) ∧
    (if o is MatchFailed then m' = m else tally (S i) m').
Proof using All.
  intros Ht Hmax. unfold iteration. destruct (draw_total r) as (doc & tokens & ids & r3 & -> & Hlen & Hids & _); [nia|].
  bind_step. destruct (Match_rpc _ _) as [g1 [resp|]] eqn:Hm; [|by eexists _, _, _, MatchFailed].
  apply honest in Hm. simpl in Hm. rewrite Hids in Hm.
  destruct (request_tally i m doc tokens _ Ht Hmax Hlen Hm) as (m' & sent & -> & Ht'). bind_step.
  destruct (_ <? _)%nat; [|by eexists _, _, _, Done].
  destruct (PutBlocks_rpc g1 sent) as [g2 []]; [by eexists _, _, _, Done|by eexists _, _, _, PutFailed].
Qed.
End runs.

(** A worker returns and its report is sound: whatever the gateway answers and
    whichever call fails, the counters describe [i] completed requests of
    [blocks_per_request] blocks each, hits never exceed requested blocks and saved cost
    never exceeds requested cost; a run without error has done all of them.  The
    only arithmetic assumption is that the worst-case total cost fits 64 bits. *)
Theorem worker_accounts {R G} (NewSource : Z → R) Intn Zipf_Uint64 `{!GatewayClient G} `{!HonestGateway G}
    c w n i0 (g : G) m :
  config_ok c → tally c i0 m → N.of_nat (i0 + Z.to_nat n) * max_cost c < two64 →
  ∃ g' m' o i, worker NewSource Intn Zipf_Uint64 c w n g m = Some (g', m', o) ∧
    (i0 ≤ i ≤ i0 + Z.to_nat n)%nat ∧ tally c i m' ∧ (o = Done → i = i0 + Z.to_nat n)%nat.
Proof.
  intros Hc. unfold worker. generalize (NewSource (int64 (seed c + w * 1000003))).
  generalize (Z.to_nat n). clear n. intros n r. revert i0 r g m.
  induction n as [|n IH]; intros i0 r g m Ht Hmax; cbn [worker_loop].
  { exists g, m, Done, i0. split_and!; [done|lia..|done|lia]. }
  destruct (iteration_tally NewSource Intn Zipf_Uint64 c Hc i0 r g m Ht) as (r' & g' & m' & o & -> & Ho); [nia|].
  bind_step. destruct o.
  - destruct (IH (S i0) r' g' m' Ho) as (g2 & m2 & o & i & Hw & Hi & Ht2 & Hd); [by rewrite Nat.add_succ_comm|].
    exists g2, m2, o, i. split_and!; [done|lia..|done|]. intros ->. rewrite Hd by done. lia.
  - subst m'. exists g', m, MatchFailed, i0. split_and!; [done|lia..|done|done].
  - exists g', m', PutFailed, (S i0). split_and!; [done|lia..|done|done].
Qed.

(** The report never panics: with any counters and fewer than 2^53 measured latencies
    [main] prints two percentiles that are measured values, in the floating-point
    arithmetic it uses to pick them; without any request they are zero. *)
Theorem report_total m latencies :
  (Z.of_nat (length latencies) ≤ 2 ^ 53)%Z →
  ∃ r, main_report m latencies = Some r ∧
    (latencies = [] → lat_p50 r = 0%Z ∧ lat_p99 r = 0%Z) ∧
    (latencies ≠ [] → lat_p50 r ∈ latencies ∧ lat_p99 r ∈ latencies).
Proof.
  intros Hlen. unfold main_report. pose proof (merge_sort_Permutation Z.le latencies) as Hp.
  destruct (decide (latencies = [])) as [->|Hne]; [eexists; split; [reflexivity|done]|].
  set (sorted := merge_sort _ _) in *.
  assert (sorted ≠ []) as Hs by (intros He; rewrite He in Hp; by apply Hne, Permutation_nil).
  assert (Z.of_nat (length sorted) ≤ 2 ^ 53)%Z as Hl by (by rewrite (Permutation_length Hp)).
  destruct (percentile_in sorted p50 Hs eq_refl Hl) as (d & -> & Hd). bind_step.
  destruct (percentile_in sorted p99 Hs eq_refl Hl) as (d' & -> & Hd'). bind_step.
  eexists. split; [done|]. split; [done|]. intros _. simpl. by rewrite <-Hp.
Qed.

(** ** The gateway as the server of these calls

    [src t k] is what the [k]-th use of the ring source sees during call [t]; a
    handler that panics is an error for the client. *)
Section server.
Context {S : Type} `{!BlockStore.Store S}.
Context (sched : list (string * Gateway.batch) → list (string * Gateway.batch)).
Context (sched' : list (string * list pmv1.Block) → list (string * list pmv1.Block)).
Context (rf : nat) (src : nat → nat → Gateway.snapshot).
#[local] Set Default Proof Using "Type".

#[local] Instance gateway_client : GatewayClient (Gateway.cluster (S := S) * nat) := {
  Match_rpc '(cl, t) req :=
    match Gateway.Match sched rf (src t) req cl with
    | Some (cl, Ok (resp, _)) => ((cl, Datatypes.S t), Some resp)
    | Some (cl, Err _) => ((cl, Datatypes.S t), None)
    | None => ((cl, Datatypes.S t), None)
    end;
  PutBlocks_rpc '(cl, t) pbs :=
    match Gateway.PutBlocks sched' rf (imap (λ k pb, (Some pb, Gateway.s_ring (src t k))) pbs)
            (src t (length pbs)) cl with
    | Some (cl, r) => ((cl, Datatypes.S t), is_ok r)
    | None => ((cl, Datatypes.S t), false)
    end
}.

(** The gateway keeps the promise the workers rely on. *)
#[local] Instance gateway_honest : HonestGateway (Gateway.cluster (S := S) * nat).
Proof.
  intros [cl t] req g' resp. simpl.
  destruct (Gateway.Match _ _ _ _ _) as [[cl' [[resp' emit]|e]]|] eqn:Hm; [|done..].
  intros [= _ <-]. by eapply GatewayProps.Match_depth.
Qed.
End server.

Definition demo_config : config := MkConfig "g:1" 10 3 4 6 (float64.of_Z 0) 2 1 1 4 42 1612 "m" 5 10.
Lemma request_accounts_witness :
  ∃ ids blocks m' sent,
    Chain.Build "m" 2 [1; 2; 3] = Some ids ∧ Chain.Chunk [1; 2; 3] 2 = Some blocks ∧
    request demo_config 1 [1; 2; 3] 1 (MkMetrics 0 0 0 0 0) = Some (m', sent) ∧ length sent = 1%nat.
Proof.
  destruct (request_accounts demo_config 1 [1; 2; 3] 1 (MkMetrics 0 0 0 0 0))
    as (ids & blocks & m' & sent & H1 & H2 & H3 & _ & _ & H4 & _); [reflexivity|discriminate|reflexivity..|].
  exists ids, blocks, m', sent. split; [exact H1|]. split; [exact H2|]. split; [exact H3|].
  rewrite H4. unfold Chain.Build in H1. injection H1 as <-. reflexivity.
Defined.
Lemma shares_total_witness : shares demo_config = Some [3%Z; 3%Z; 4%Z].
Proof.
  destruct (shares_total demo_config) as (l & H & _); [reflexivity|]. rewrite H.
  injection H as <-. reflexivity.
Defined.
(** Five requests of the demo workload against a gateway with one of two nodes down. *)
Definition demo_src (t k : nat) : Gateway.snapshot :=
  Gateway.MkSnapshot (Some GatewayProps.demo_ring) (λ _, true).
Lemma worker_accounts_witness :
  ∃ g' m' o i, worker (G := Gateway.cluster (S := LRU.LRU) * nat)
      (GatewayClient0 := gateway_client (λ l, l) (λ l, l) 2 demo_src)
      (λ z, z) (λ r n, ((r * 7) `mod` n, r + 1)%Z) (λ _ _ r, (0, r)) demo_config 0 5
      (GatewayProps.demo_cluster "cn-1", 0%nat) (MkMetrics 0 0 0 0 0) = Some (g', m', o) ∧
    (i ≤ 5)%nat ∧ tally demo_config i m'.
Proof.
  destruct (worker_accounts (G := Gateway.cluster (S := LRU.LRU) * nat)
    (GatewayClient0 := gateway_client (λ l, l) (λ l, l) 2 demo_src)
    (HonestGateway0 := gateway_honest (λ l, l) (λ l, l) 2 demo_src)
    (λ z, z) (λ r n, ((r * 7) `mod` n, r + 1)%Z) (λ _ _ r, (0, r)) demo_config 0 5 0
    (GatewayProps.demo_cluster "cn-1", 0%nat) (MkMetrics 0 0 0 0 0)) as (g' & m' & o & i & H1 & H2 & H3 & _).
  - split; vm_compute; congruence.
  - split; vm_compute; congruence.
  - vm_compute. reflexivity.
  - exists g', m', o, i. split; [exact H1|]. split; [apply H2|exact H3].
Defined.
End Loadgen.
