(* ===== verification/LoadRun.v ===== *)
(** * A whole run of the benchmark: [main] of src/cmd/loadgen/main.go

    The workers of Loadgen.v run concurrently on one gateway and one set of counters.
    A step of the run is one RPC, one update of a shared counter or of the latency
    list, or the end of a worker; any worker may take the next one.  What the gateway
    answers is a relation ([reply]), so the calls of different workers may interleave
    inside it in any way; how long a [Match] took is arbitrary. *)

From Stdlib Require Import Floats.SpecFloat.
From S2P Require Import Prelude Sha256 Chain Proto Float64 FloatRound BlockStore LRU HashRing Gateway GatewayProps Loadgen.

Module LoadRun.
Import Loadgen.
Local Open Scope N_scope.

(** The values of the flags when none is given. *)
Definition default_flags : config :=
  MkConfig "localhost:7000" 2000 8 4 200 (float64.div (float64.of_Z 12) (float64.of_Z 10)) 128 8 4 65536
    42 1612 "sim-7b" 5 10.

(** ** Updates of the shared state, one atomic operation each *)
Inductive add :=
| AddLatency (d : Z)
| AddRequested (n : N)
| AddHit (n : N)
| AddFull
| AddCost (n : N)
| AddSaved (n : N).

Definition add_metric (a : add) (m : metrics) : metrics :=
  let '(MkMetrics rq ht cr cs fh) := m in
  match a with
  | AddLatency _ => m
  | AddRequested n => MkMetrics (u64 (rq + n)) ht cr cs fh
  | AddHit n => MkMetrics rq (u64 (ht + n)) cr cs fh
  | AddFull => MkMetrics rq ht cr cs (u64 (fh + 1))
  | AddCost n => MkMetrics rq ht (u64 (cr + n)) cs fh
  | AddSaved n => MkMetrics rq ht cr (u64 (cs + n)) fh
  end.
Definition add_latency (a : add) (ls : list Z) : list Z :=
  match a with AddLatency d => ls ++ [d] | _ => ls end.
Definition shared : Type := metrics * list Z.
Definition apply_add (a : add) (s : shared) : shared := (add_metric a s.1, add_latency a s.2).

Fixpoint cost_adds (c : config) (docMult : N) (depth j : nat) (blocks : list (list N)) : list add :=
  match blocks with
  | [] => []
  | blk :: blocks =>
      let cost := block_cost c docMult j blk in
      AddCost cost :: (if (j <? depth)%nat then [AddSaved cost] else []) ++ cost_adds c docMult depth (S j) blocks
  end.

(** The upload after the accounting; [Put None] panics when its time comes. *)
Inductive put_plan := NoPut | Put (sent : option (list pmv1.Block)).

(** What a worker still has to do once [Match] has answered. *)
Definition account (c : config) (docMult : N) (tokens : list N) (ids : list bytes) (depth : N) (latency : Z)
    : option (list add * put_plan) :=
  blocks ← Chain.Chunk tokens (blockSize c);
  let d := N.to_nat depth in
  Some (AddLatency latency :: AddRequested (N.of_nat (length ids)) :: AddHit depth ::
          (if (d =? length ids)%nat then [AddFull] else []) ++ cost_adds c docMult d 0 blocks,
        if (d <? length ids)%nat
        then Put (send_loop c docMult ids d 0 (Chain.Root (modelID c) (blockSize c)) blocks) else NoPut).

Section run.
Context {R : Type} (NewSource : Z → R) (Intn : R → Z → Z * R) (Zipf_Uint64 : spec_float → N → R → N * R).
Context (reply : pmv1.MatchRequest → option pmv1.MatchResponse → Prop) (c : config).

Inductive wstate :=
| Idle (r : R) (left : nat)
| Adding (r : R) (left : nat) (pending : list add) (plan : put_plan)
| Finished (o : outcome)
| Panicked.

Inductive wstep : wstate → shared → wstate → shared → Prop :=
| ws_end r s : wstep (Idle r 0) s (Finished Done) s
| ws_draw_panic r n s :
    draw NewSource Intn Zipf_Uint64 c r = None → wstep (Idle r (S n)) s Panicked s
| ws_match_failed r n s doc tokens ids r' :
    draw NewSource Intn Zipf_Uint64 c r = Some (doc, tokens, ids, r') →
    reply (pmv1.MkMatchRequest (modelID c) ids) None →
    wstep (Idle r (S n)) s (Finished MatchFailed) s
| ws_match r n s doc tokens ids r' resp latency adds plan :
    draw NewSource Intn Zipf_Uint64 c r = Some (doc, tokens, ids, r') →
    reply (pmv1.MkMatchRequest (modelID c) ids) (Some resp) →
    account c (docCostMult c doc) tokens ids (pmv1.MatchedDepth resp) latency = Some (adds, plan) →
    wstep (Idle r (S n)) s (Adding r' n adds plan) s
| ws_match_panic r n s doc tokens ids r' resp latency :
    draw NewSource Intn Zipf_Uint64 c r = Some (doc, tokens, ids, r') →
    reply (pmv1.MkMatchRequest (modelID c) ids) (Some resp) →
    account c (docCostMult c doc) tokens ids (pmv1.MatchedDepth resp) latency = None →
    wstep (Idle r (S n)) s Panicked s
| ws_add r n a p plan s : wstep (Adding r n (a :: p) plan) s (Adding r n p plan) (apply_add a s)
| ws_next r n s : wstep (Adding r n [] NoPut) s (Idle r n) s
| ws_put r n sent s : wstep (Adding r n [] (Put (Some sent))) s (Idle r n) s
| ws_put_failed r n sent s : wstep (Adding r n [] (Put sent)) s (Finished PutFailed) s
| ws_put_panic r n s : wstep (Adding r n [] (Put None)) s Panicked s.

(** The whole process: any worker steps. *)
Inductive pstep : list wstate * shared → list wstate * shared → Prop :=
| ps_worker ws1 w ws2 s w' s' :
    wstep w s w' s' → pstep (ws1 ++ w :: ws2, s) (ws1 ++ w' :: ws2, s').

(** The workers [main] starts. *)
Definition pool : option (list wstate) :=
  ns ← shares c;
  Some (imap (λ w n, Idle (NewSource (int64 (seed c + Z.of_nat w * 1000003))) (Z.to_nat n)) ns).
Definition zero_metrics : metrics := MkMetrics 0 0 0 0 0.

(** After [wg.Wait]: the first error, if any, ends the process. *)
Inductive ending := ExitError | Printed (r : option report).
Definition failed (w : wstate) : bool :=
  match w with Finished MatchFailed | Finished PutFailed => true | _ => false end.
Definition finished (w : wstate) : bool := if w is Finished _ then true else false.
Definition main_end (st : list wstate * shared) : option ending :=
  if forallb finished st.1 then
    Some (if existsb failed st.1 then ExitError else Printed (main_report st.2.1 st.2.2))
  else None.

(** ** The counters do not depend on the order of the updates *)
Definition flush (l : list add) (m : metrics) : metrics := foldr add_metric m l.

Lemma add_metric_comm a b m : add_metric a (add_metric b m) = add_metric b (add_metric a m).
Proof. destruct m, a, b; cbn; try done; f_equal; word_lia. Qed.
#[local] Instance flush_proper m : Proper ((≡ₚ) ==> (=)) (λ l, flush l m).
Proof. intros l1 l2 Hl. apply (foldr_permutation (=) add_metric m); [|done]. intros. apply add_metric_comm. Qed.
Lemma flush_app l1 l2 m : flush (l1 ++ l2) m = flush l1 (flush l2 m).
Proof. apply foldr_app. Qed.
Lemma flush_add a l m : flush l (add_metric a m) = add_metric a (flush l m).
Proof. apply foldr_comm_acc. intros. apply add_metric_comm. Qed.

Lemma flush_cons a l m : flush (a :: l) m = flush l (add_metric a m).
Proof. symmetry. apply flush_add. Qed.

Lemma flush_costs dm d j blocks m :
  flush (cost_adds c dm d j blocks) m =
    let '(req, saved) := cost_loop c dm d j blocks (costRequestedUS m, costSavedUS m) in
    MkMetrics (blocksRequested m) (blocksHit m) req saved (fullHits m).
Proof.
  revert j m. induction blocks as [|blk blocks IH]; intros j m; cbn [cost_adds cost_loop]; [by destruct m|].
  rewrite flush_cons, flush_app. destruct (j <? d)%nat; rewrite ?flush_cons, IH; [|by destruct m].
  rewrite <-IH. change (flush [] ?x) with x. rewrite <-flush_add, IH. by destruct m.
Qed.

Definition lats (l : list add) : nat := sum_list_with (λ a, if a is AddLatency _ then 1%nat else 0%nat) l.

Lemma lats_costs dm d j blocks :
  lats (cost_adds c dm d j blocks) = 0%nat ∧ (length (cost_adds c dm d j blocks) ≤ 2 * length blocks)%nat.
Proof.
  revert j. induction blocks as [|blk blocks IH]; intros j; [done|]. cbn [cost_adds].
  destruct (IH (S j)) as [H1 H2]. unfold lats in *. destruct (j <? d)%nat; cbn; rewrite H1; split; cbn in *; lia.
Qed.

(** The updates of one request together are what [request] does at once. *)
Lemma account_request dm tokens ids depth latency m m' sent :
  Chain.Build (modelID c) (blockSize c) tokens = Some ids → request c dm tokens depth m = Some (m', sent) →
  ∃ adds plan, account c dm tokens ids depth latency = Some (adds, plan) ∧ flush adds m = m' ∧ plan ≠ Put None ∧
    lats adds = 1%nat ∧ (length adds ≤ 4 + 2 * length ids)%nat.
Proof.
  intros Hids. unfold request, account. rewrite Hids. bind_step.
  destruct (Chain.Chunk tokens (blockSize c)) as [blocks|] eqn:Hch; [|done]. bind_step.
  assert (length ids = length blocks) as Hlen.
  { unfold Chain.Build in Hids. rewrite Hch in Hids. injection Hids as <-. apply Chain.length_build_loop. }
  set (d := N.to_nat depth). pose proof (flush_costs dm d 0 blocks m) as Hf.
  destruct (lats_costs dm d 0 blocks) as [Hl Hn]. destruct (cost_loop _ _ _ _ _ _) as [req saved].
  set (adds := AddLatency latency :: _). intros Hreq. eexists adds, _. split; [done|].
  assert (flush adds m = MkMetrics (u64 (blocksRequested m + N.of_nat (length ids))) (u64 (blocksHit m + depth)) req saved
    (if (d =? length ids)%nat then u64 (fullHits m + 1) else fullHits m)) as ->.
  { unfold adds. cbn [flush foldr]. fold (flush ((if (d =? length ids)%nat then [AddFull] else []) ++ cost_adds c dm d 0 blocks) m).
    rewrite flush_app, Hf. by destruct (d =? length ids)%nat. }
  assert (lats adds = 1%nat ∧ (length adds ≤ 4 + 2 * length ids)%nat) as [Ha1 Ha2].
  { unfold adds, lats in *. destruct (d =? length ids)%nat; cbn; rewrite Hl; split; cbn; lia. }
  destruct (d <? length ids)%nat.
  - destruct (send_loop _ _ _ _ _ _ _) as [sent'|]; [|done]. injection Hreq as <- <-. split_and!; [done|congruence|done|done].
  - injection Hreq as <- <-. by split_and!.
Qed.

(** ** The invariant of a run *)
Definition pending (w : wstate) : list add := if w is Adding _ _ p _ then p else [].
Definition remaining (w : wstate) : nat :=
  match w with Idle _ n | Adding _ n _ _ => n | _ => 0 end.
Definition w_ok (w : wstate) : Prop :=
  match w with Adding _ _ _ plan => plan ≠ Put None | Panicked => False | _ => True end.
(** A bound on the steps a worker has left. *)
Definition per_request : nat := 2 * blocks_per_request c + 6.
Definition weight (w : wstate) : nat :=
  match w with
  | Idle _ n => 1 + n * per_request
  | Adding _ n p _ => 2 + length p + n * per_request
  | _ => 0
  end.

Context (Hc : config_ok c) (T : nat) (HT : N.of_nat T * max_cost c < two64).
Context (honest : ∀ req resp, reply req (Some resp) → pmv1.MatchedDepth resp ≤ N.of_nat (length (pmv1.mreq_Chain req))).
Context (answers : ∀ req, ∃ o, reply req o).

Lemma max_cost_fits i : (S i ≤ T)%nat → N.of_nat (S i) * max_cost c < two64 ∧ max_cost c < two64.
Proof using HT. intros Hi. split; nia. Qed.

Lemma match_step r n m doc tokens ids r' resp latency rest i :
  draw NewSource Intn Zipf_Uint64 c r = Some (doc, tokens, ids, r') →
  reply (pmv1.MkMatchRequest (modelID c) ids) (Some resp) → (S i ≤ T)%nat → tally c i (flush rest m) →
  ∃ adds plan, account c (docCostMult c doc) tokens ids (pmv1.MatchedDepth resp) latency = Some (adds, plan) ∧
    plan ≠ Put None ∧ lats adds = 1%nat ∧ (weight (Adding r' n adds plan) < weight (Idle r (S n)))%nat ∧
    tally c (S i) (flush (adds ++ rest) m).
Proof using Hc HT honest.
  intros Hd Hr Hi Ht. destruct (max_cost_fits i Hi) as [H1 H2].
  destruct (draw_total NewSource Intn Zipf_Uint64 c Hc r H2) as (doc' & tokens' & ids' & r'' & Hd' & Hlen & Hids & Hb).
  rewrite Hd in Hd'. injection Hd' as <- <- <- <-. apply honest in Hr. cbn in Hr. rewrite Hids in Hr.
  destruct (request_tally c Hc i _ doc tokens _ Ht H1 Hlen Hr) as (m' & sent & Hreq & Ht').
  destruct (account_request _ _ _ _ latency _ _ _ Hb Hreq) as (adds & plan & Ha & Hf & Hp & Hl & Hn).
  exists adds, plan. split_and!; [done..| |by rewrite flush_app, Hf].
  cbn. unfold per_request in *. lia.
Qed.

(** One step of a worker, in the presence of the updates [rest] of the others. *)
Lemma wstep_inv w s w' s' rest i :
  wstep w s w' s' → w_ok w → (i + remaining w ≤ T)%nat → tally c i (flush (pending w ++ rest) s.1) →
  w_ok w' ∧ (weight w' < weight w)%nat ∧ failed w = false ∧
  ∃ i', tally c i' (flush (pending w' ++ rest) s'.1) ∧
    (length s'.2 + lats (pending w') + i = length s.2 + lats (pending w) + i')%nat ∧
    (i' + remaining w' ≤ i + remaining w)%nat ∧ (failed w' = false → i' + remaining w' = i + remaining w)%nat.
Proof using Hc HT honest.
  intros Hstep Hok HiT Ht. destruct Hstep as [r s|r n s Hd|r n s doc tokens ids r' Hd Hr
    |r n s doc tokens ids r' resp latency adds plan Hd Hr Ha|r n s doc tokens ids r' resp latency Hd Hr Ha
    |r n a p plan s|r n s|r n sent s|r n sent s|r n s]; cbn [pending remaining app] in *.
  - split_and!; [done|cbn; lia|done|]. exists i. split_and!; [done|done|cbn; lia|cbn; lia].
  - destruct (max_cost_fits i) as [_ H2]; [lia|].
    destruct (draw_total NewSource Intn Zipf_Uint64 c Hc r H2) as (? & ? & ? & ? & Hd' & _). congruence.
  - split_and!; [done|cbn; lia|done|]. exists i. split_and!; [done|done|cbn; lia|done].
  - destruct (match_step r n s.1 doc tokens ids r' resp latency rest i Hd Hr) as (adds' & plan' & Ha' & Hp & Hl & Hw & Ht'); [lia|done|].
    rewrite Ha in Ha'. injection Ha' as <- <-. split_and!; [done|done|done|]. exists (S i).
    split_and!; [done|rewrite Hl; cbn; lia|lia|lia].
  - destruct (match_step r n s.1 doc tokens ids r' resp latency rest i Hd Hr) as (adds' & plan' & Ha' & _); [lia|done|congruence].
  - split_and!; [done|cbn; lia|done|]. exists i. split_and!; [|destruct a; unfold lats; cbn; rewrite ?length_app; cbn; lia|lia|lia].
    cbn [apply_add fst]. rewrite flush_add. exact Ht.
  - split_and!; [done|cbn; lia|done|]. exists i. split_and!; [done|done|cbn; lia|cbn; lia].
  - split_and!; [done|cbn; lia|done|]. exists i. split_and!; [done|done|cbn; lia|cbn; lia].
  - split_and!; [done|cbn; lia|done|]. exists i. split_and!; [done|done|cbn; lia|done].
  - done.
Qed.

(** Not yet counted updates of all workers. *)
Definition in_flight (ws : list wstate) : list add := ws ≫= pending.
Record run_inv (st : list wstate * shared) : Prop := {
  ri_ok : Forall w_ok st.1;
  ri_count : ∃ i, tally c i (flush (in_flight st.1) st.2.1) ∧ (length st.2.2 + lats (in_flight st.1) = i)%nat ∧
    (i + sum_list_with remaining st.1 ≤ T)%nat ∧
    (existsb failed st.1 = false → i + sum_list_with remaining st.1 = T)%nat
}.

Lemma in_flight_middle ws1 w ws2 : in_flight (ws1 ++ w :: ws2) ≡ₚ pending w ++ in_flight (ws1 ++ ws2).
Proof. unfold in_flight. rewrite !bind_app, bind_cons. by rewrite Permutation_app_swap_app. Qed.
#[local] Instance lats_proper : Proper ((≡ₚ) ==> (=)) lats.
Proof. intros l1 l2 Hl. unfold lats. by rewrite Hl. Qed.
Lemma lats_app l1 l2 : lats (l1 ++ l2) = (lats l1 + lats l2)%nat.
Proof. apply sum_list_with_app. Qed.

Lemma pstep_inv st st' :
  pstep st st' → run_inv st →
  run_inv st' ∧ (sum_list_with weight st'.1 < sum_list_with weight st.1)%nat.
Proof using Hc HT honest.
  intros [ws1 w ws2 s w' s' Hstep] [Hok (i & Ht & Hl & Hle & Heq)]. cbn [fst snd] in *.
  apply Forall_app in Hok as [Hok1 [Hok Hok2]%Forall_cons].
  rewrite (flush_proper _ _ _ (in_flight_middle ws1 w ws2)) in Ht. rewrite in_flight_middle, lats_app in Hl.
  rewrite existsb_app in Heq. cbn [existsb] in Heq. rewrite sum_list_with_app in Hle, Heq. cbn in Hle, Heq.
  destruct (wstep_inv w s w' s' (in_flight (ws1 ++ ws2)) i Hstep Hok) as (Hok' & Hw & Hnf & i' & Ht' & Hl' & Hle' & Heq'); [lia|done|].
  split; [|rewrite !sum_list_with_app; cbn; lia]. split; cbn [fst snd].
  { apply Forall_app; split; [done|]. by constructor. }
  exists i'. rewrite (flush_proper _ _ _ (in_flight_middle ws1 w' ws2)), in_flight_middle, lats_app.
  rewrite existsb_app, sum_list_with_app. cbn. split_and!; [done|lia|lia|].
  intros [E1 [E2 E3]%orb_false_iff]%orb_false_iff. rewrite E1, Hnf, E3 in Heq. specialize (Heq' E2).
  specialize (Heq eq_refl). lia.
Qed.

Lemma psteps_inv k st st' :
  nsteps pstep k st st' → run_inv st →
  run_inv st' ∧ (k + sum_list_with weight st'.1 ≤ sum_list_with weight st.1)%nat.
Proof using Hc HT honest.
  induction 1 as [st|k st1 st2 st3 Hstep _ IH]; intros Hinv; [split; [done|lia]|].
  destruct (pstep_inv _ _ Hstep Hinv) as [Hinv2 Hw]. destruct (IH Hinv2) as [H3 Hw3]. split; [done|lia].
Qed.

(** A worker that is not done can go on. *)
Lemma wstep_progress w s : w_ok w → finished w = false → ∃ w' s', wstep w s w' s'.
Proof using answers.
  intros Hok Hf. destruct w as [r [|n]|r n [|a p] [|[sent|]]|o|]; try done; try by (do 2 eexists; constructor).
  - destruct (draw NewSource Intn Zipf_Uint64 c r) as [[[[doc tokens] ids] r']|] eqn:Hd; [|by do 2 eexists; constructor].
    destruct (answers (pmv1.MkMatchRequest (modelID c) ids)) as [[resp|] Hr]; [|by do 2 eexists; eapply ws_match_failed].
    destruct (account c (docCostMult c doc) tokens ids (pmv1.MatchedDepth resp) 0) as [[adds plan]|] eqn:Ha.
    + do 2 eexists. by eapply ws_match.
    + do 2 eexists. by eapply ws_match_panic.
Qed.
Lemma pstep_progress st : Forall w_ok st.1 → forallb finished st.1 = false → ∃ st', pstep st st'.
Proof using answers.
  destruct st as [ws s]. cbn [fst]. intros Hok Hf.
  assert (∃ w, w ∈ ws ∧ finished w = false) as (w & Hw & Hfw).
  { clear Hok. induction ws as [|w ws IH]; [done|]. cbn in Hf. apply andb_false_iff in Hf as [?|Hf]; [exists w; split; [by left|done]|].
    destruct (IH Hf) as (w' & ? & ?). exists w'. split; [by right|done]. }
  rewrite Forall_forall in Hok. destruct (wstep_progress w s (Hok w Hw) Hfw) as (w' & s' & Hstep).
  apply list_elem_of_split in Hw as (ws1 & ws2 & ->). eexists. by constructor.
Qed.

(** When every worker is done nothing is in flight. *)
Lemma finished_quiet ws :
  forallb finished ws = true → in_flight ws = [] ∧ sum_list_with remaining ws = 0%nat.
Proof.
  induction ws as [|w ws IH]; [done|]. cbn. intros [Hw Hws]%andb_true_iff. destruct (IH Hws) as [IH1 IH2].
  by destruct w.
Qed.
End run.

Lemma idle_workers {R} (f : nat → R) c ns :
  Forall (λ n, 0 ≤ n)%Z ns →
  let ws := imap (λ w n, Idle (f w) (Z.to_nat n)) ns in
  Forall w_ok ws ∧ in_flight ws = [] ∧ existsb failed ws = false ∧
  sum_list_with remaining ws = Z.to_nat (foldr Z.add 0%Z ns) ∧
  sum_list_with (weight c) ws = (length ns + Z.to_nat (foldr Z.add 0%Z ns) * per_request c)%nat.
Proof.
  intros Hpos. revert f. induction Hpos as [|n ns Hn Hpos IH]; intros f; [done|].
  assert (0 ≤ foldr Z.add 0 ns)%Z as Hge by (clear -Hpos; induction Hpos; cbn; lia).
  destruct (IH (f ∘ S)) as (I1 & I2 & I3 & I4 & I5). cbn in *. unfold in_flight in *. cbn.
  unfold compose in *. cbn in *. rewrite I2, I3, I4, I5, !Z2Nat.inj_add by lia.
  split_and!; [by constructor|done|done|done|lia].
Qed.

Lemma pool_start {R} (NewSource : Z → R) c :
  (0 < concurrency c)%Z → (0 ≤ requests c)%Z →
  ∃ ws, pool NewSource c = Some ws ∧ Forall w_ok ws ∧ in_flight ws = [] ∧ existsb failed ws = false ∧
    sum_list_with remaining ws = Z.to_nat (requests c) ∧
    sum_list_with (weight c) ws = (Z.to_nat (concurrency c) + Z.to_nat (requests c) * per_request c)%nat.
Proof.
  intros Hcc Hr. destruct (shares_total c Hcc) as (ns & Hns & Hsum). unfold pool. rewrite Hns. bind_step.
  assert (length ns = Z.to_nat (concurrency c) ∧ Forall (λ n, 0 ≤ n)%Z ns) as [Hlen Hpos].
  { unfold shares in Hns. destruct (Z.leb_spec (concurrency c) 0); [lia|]. injection Hns as <-.
    split; [by rewrite length_fmap, length_seq|]. apply Forall_fmap, Forall_true. intros w. cbn. unfold share.
    pose proof (Z.quot_pos (requests c) (concurrency c) Hr Hcc).
    pose proof (Z.mul_quot_le (requests c) (concurrency c) Hr ltac:(lia)).
    destruct (_ =? _)%Z; [nia|lia]. }
  eexists. split; [done|]. rewrite <-Hlen, <-Hsum.
  by apply (idle_workers (λ w, NewSource (int64 (seed c + Z.of_nat w * 1000003)))).
Qed.

(** What a gateway answers to a [Match] in some state: other calls may have changed it
    since the last answer. *)
Definition replies (G : Type) `{!GatewayClient G} (req : pmv1.MatchRequest) (o : option pmv1.MatchResponse) : Prop :=
  ∃ g : G, (Match_rpc g req).2 = o.
Lemma replies_honest (G : Type) `{!GatewayClient G, !HonestGateway G} req resp :
  replies G req (Some resp) → pmv1.MatchedDepth resp ≤ N.of_nat (length (pmv1.mreq_Chain req)).
Proof. intros [g Hg]. destruct (Match_rpc g req) as [g' o] eqn:Hm. cbn in Hg. subst o. by eapply honest. Qed.

(** C38. A run of the benchmark always ends, and its report is exact.  With flags that make
    sense, any gateway that keeps [HonestGateway] (calls may fail), and under any
    interleaving of the workers: no worker panics, the number of steps is bounded, and a run that can go no further either
    exits with an error, or prints a report over exactly [requests] requests of
    [blocks_per_request] blocks each and as many latencies, in which hits do not
    exceed the blocks requested nor the saved cost the requested cost. *)
Theorem load_run_exact {R G} (NewSource : Z → R) Intn Zipf_Uint64 `{!GatewayClient G, !HonestGateway G, !Inhabited G} c :
  config_ok c → (0 < concurrency c)%Z → (0 ≤ requests c ≤ 2 ^ 53)%Z → Z.to_N (requests c) * max_cost c < two64 →
  let step := pstep NewSource Intn Zipf_Uint64 (replies G) c in
  ∃ ws, pool NewSource c = Some ws ∧
    ∀ k st, nsteps step k (ws, (zero_metrics, [])) st →
      (k ≤ Z.to_nat (concurrency c) + Z.to_nat (requests c) * per_request c)%nat ∧ Panicked ∉ st.1 ∧
      ((∃ st', step st st') ∨ main_end st = Some ExitError ∨
       ∃ r, main_end st = Some (Printed (Some r)) ∧ tally c (Z.to_nat (requests c)) st.2.1 ∧
         length st.2.2 = Z.to_nat (requests c)).
Proof.
  intros Hc Hcc Hr Hmax step. destruct (pool_start NewSource c Hcc) as (ws & Hp & Hok & Hfl & Hf & Hrem & Hw); [lia|].
  exists ws. split; [done|]. intros k st Hk.
  assert (N.of_nat (Z.to_nat (requests c)) * max_cost c < two64) as HT by (by rewrite Z_nat_N).
  assert (run_inv c (Z.to_nat (requests c)) (ws, (zero_metrics, []))) as Hinv.
  { split; [done|]. exists 0%nat. cbn [fst snd length]. rewrite Hfl, Hrem, Hf. split_and!; [by split|done|lia|done]. }
  destruct (psteps_inv _ _ _ _ c Hc _ HT (replies_honest G) k _ _ Hk Hinv) as [[Hok' (i & Ht & Hl & Hle & Heq)] Hb].
  cbn [fst] in Hb. rewrite Hw in Hb. split_and!; [lia|by intros Hin; rewrite Forall_forall in Hok'; apply (Hok' _ Hin)|].
  unfold main_end. destruct (forallb finished st.1) eqn:Hfin; [right|left; eapply pstep_progress; [|done..]; intros req; by exists (Match_rpc inhabitant req).2, inhabitant].
  destruct (finished_quiet _ Hfin) as [Q1 Q2]. rewrite Q1 in Ht, Hl. rewrite Q2 in Hle, Heq.
  destruct (existsb failed st.1) eqn:Hfa; [by left|right]. cbn in Hl, Ht. unfold lats in Hl. cbn in Hl. specialize (Heq eq_refl).
  assert (i = Z.to_nat (requests c)) as -> by lia.
  destruct (report_total st.2.1 st.2.2) as (r & Hrep & _); [lia|]. exists r. rewrite Hrep. split_and!; [done|done|lia].
Qed.

(** Eight workers of the default flags, on the gateway and its nodes. *)
Lemma load_run_exact_witness :
  ∃ ws, pool (λ z, z) default_flags = Some ws ∧
    ∀ k st, nsteps (pstep (λ z, z) (λ r n, ((r * 7) `mod` n, r + 1)%Z) (λ _ _ r, (0, r))
        (replies (Gateway.cluster (S := LRU.LRU) * nat)
           (GatewayClient0 := gateway_client (λ l, l) (λ l, l) 2 demo_src)) default_flags)
        k (ws, (zero_metrics, [])) st →
      (k ≤ 8 + 2000 * 32)%nat ∧ Panicked ∉ st.1.
Proof.
  destruct (load_run_exact (G := Gateway.cluster (S := LRU.LRU) * nat)
    (GatewayClient0 := gateway_client (λ l, l) (λ l, l) 2 demo_src)
    (HonestGateway0 := gateway_honest (λ l, l) (λ l, l) 2 demo_src)
    (Inhabited0 := populate (GatewayProps.demo_cluster "", 0%nat))
    (λ z, z) (λ r n, ((r * 7) `mod` n, r + 1)%Z) (λ _ _ r, (0, r)) default_flags) as (ws & H1 & H2).
  - split; vm_compute; congruence.
  - reflexivity.
  - split; vm_compute; congruence.
  - vm_compute. reflexivity.
  - exists ws. split; [exact H1|]. intros k st Hk. destruct (H2 k st Hk) as (H3 & H4 & _). split; [exact H3|exact H4].
Defined.
End LoadRun.
