(* ===== verification/Flags.v ===== *)
(** * Address lists on the command line: src/cmd/gateway/main.go, src/cmd/directory/main.go

    [parseNodes] and [parsePeers] read ["cn-1=host:7100, cn-2=host:7101"] into a map
    from IDs to addresses, with [strings.Split], [strings.Cut] and [strings.TrimSpace]
    on the bytes of the string; [staticSource] builds the gateway's fixed ring from it.
    The rest of the two programs (flags, listeners, process exit) is not modelled. *)

From S2P Require Import Prelude Sha256 Chain HashRing.

Module Flags.

(** ** package strings *)

(** [strings.Split(s, sep)] for a separator of one byte. *)
Fixpoint Split (sep : byte) (s : bytes) : list bytes :=
  match s with
  | [] => [[]]
  | b :: s =>
      if decide (b = sep) then [] :: Split sep s
      else match Split sep s with
           | p :: ps => (b :: p) :: ps
           | [] => [[b]]
           end
  end.

(** [strings.Cut(s, sep)]: before, after, found. *)
Fixpoint Cut (sep : byte) (s : bytes) : bytes * bytes * bool :=
  match s with
  | [] => ([], [], false)
  | b :: s =>
      if decide (b = sep) then ([], s, true)
      else let '(before, after, ok) := Cut sep s in (b :: before, after, ok)
  end.

(** The UTF-8 encodings of Unicode's White_Space ([unicode.IsSpace]). *)
Definition spaces : list bytes :=
  [[x09]; [x0a]; [x0b]; [x0c]; [x0d]; [x20]; [xc2; x85]; [xc2; xa0]; [xe1; x9a; x80];
   [xe2; x80; x80]; [xe2; x80; x81]; [xe2; x80; x82]; [xe2; x80; x83]; [xe2; x80; x84]; [xe2; x80; x85];
   [xe2; x80; x86]; [xe2; x80; x87]; [xe2; x80; x88]; [xe2; x80; x89]; [xe2; x80; x8a];
   [xe2; x80; xa8]; [xe2; x80; xa9]; [xe2; x80; xaf]; [xe2; x81; x9f]; [xe3; x80; x80]].

(** The text after one leading element of [ws]. *)
Definition skip (ws : list bytes) (s : bytes) : option bytes :=
  w ← head (filter (λ w, w `prefix_of` s) ws); Some (drop (length w) s).
(** Every step removes at least one byte, so [len(s)] steps suffice. *)
Fixpoint trim_loop (fuel : nat) (ws : list bytes) (s : bytes) : bytes :=
  match fuel with
  | O => s
  | S fuel => match skip ws s with Some s => trim_loop fuel ws s | None => s end
  end.
Definition trim (ws : list bytes) (s : bytes) : bytes := trim_loop (length s) ws s.
Definition TrimSpace (s : bytes) : bytes := reverse (trim (reverse <$> spaces) (reverse (trim spaces s))).

(** ** parseNodes, parsePeers *)
Fixpoint parse_loop (parts : list bytes) (nodes : gmap string string) : option (gmap string string) :=
  match parts with
  | [] => Some nodes
  | part :: parts =>
      let '(id, addr, ok) := Cut x3d (TrimSpace part) in
      if negb ok || bool_decide (id = []) || bool_decide (addr = []) then None
      else parse_loop parts (<[bytes_string id := bytes_string addr]> nodes)
  end.
Definition parseNodes (s : string) : option (gmap string string) :=
  parse_loop (Split x2c (string_bytes s)) ∅.
Definition parsePeers (s : string) : option (gmap string string) :=
  if decide (s = "") then Some ∅ else parse_loop (Split x2c (string_bytes s)) ∅.

(** The ring of [staticSource], when every dial succeeds ([dial] is [grpc.NewClient]),
    and the nodes it has clients for. *)
Definition staticSource (dial : string → bool) (nodesFlag : string) : option (HashRing.Ring * gset string) :=
  nodes ← parseNodes nodesFlag;
  if forallb (λ kv, dial kv.2) (map_to_list nodes)
  then Some (HashRing.New 1 nodes 0, dom nodes) else None.

(** ** Lemmas *)
Lemma Split_nonempty sep s : Split sep s ≠ [].
Proof. destruct s as [|b s]; simpl; [done|]. case_decide; [done|]. by destruct (Split sep s). Qed.

Lemma Split_app sep p s : sep ∉ p → Split sep (p ++ sep :: s) = p :: Split sep s.
Proof.
  induction p as [|b p IH]; intros Hp; simpl; [by rewrite decide_True|].
  rewrite decide_False by set_solver. by rewrite IH by set_solver.
Qed.
Lemma Split_single sep p : sep ∉ p → Split sep p = [p].
Proof.
  induction p as [|b p IH]; intros Hp; simpl; [done|]. rewrite decide_False by set_solver.
  by rewrite IH by set_solver.
Qed.

(** [strings.Join]. *)
Fixpoint join (sep : byte) (ps : list bytes) : bytes :=
  match ps with
  | [] => []
  | [p] => p
  | p :: ps => p ++ sep :: join sep ps
  end.
Lemma Split_join sep ps : ps ≠ [] → (∀ p, p ∈ ps → sep ∉ p) → Split sep (join sep ps) = ps.
Proof.
  induction ps as [|p [|q ps] IH]; intros Hne Hps; [done|apply Split_single; set_solver|].
  cbn [join]. rewrite Split_app by set_solver. f_equal. apply IH; [done|]. set_solver.
Qed.
Lemma elem_of_Split sep s p : p ∈ Split sep s → sep ∉ p ∧ ∀ b, b ∈ p → b ∈ s.
Proof.
  revert p. induction s as [|b s IH]; intros p; simpl.
  { rewrite list_elem_of_singleton. intros ->. set_solver. }
  case_decide as Hb; [rewrite elem_of_cons; intros [->|Hp%IH]; set_solver|].
  destruct (Split sep s) as [|q qs].
  { rewrite list_elem_of_singleton. intros ->. set_solver. }
  rewrite elem_of_cons. intros [->|Hp].
  - destruct (IH q) as [H1 H2]; [by left|]. set_solver.
  - destruct (IH p) as [H1 H2]; [by right|]. set_solver.
Qed.

Lemma Cut_app sep a b : sep ∉ a → Cut sep (a ++ sep :: b) = (a, b, true).
Proof.
  induction a as [|x a IH]; intros Ha; simpl; [by rewrite decide_True|].
  rewrite decide_False by set_solver. by rewrite IH by set_solver.
Qed.
Lemma Cut_true sep s a b : Cut sep s = (a, b, true) → s = a ++ sep :: b ∧ sep ∉ a.
Proof.
  revert a. induction s as [|x s IH]; intros a; simpl; [done|]. case_decide as Hx.
  - intros [= <- <-]. subst. split; [done|set_solver].
  - destruct (Cut sep s) as [[a' b'] ok]. intros [= <- -> ->]. destruct (IH a' eq_refl) as [-> Ha].
    split; [done|set_solver].
Qed.

(** ** Trimming *)

(** No element of [ws] begins another one, and none is empty. *)
Definition prefix_free (ws : list bytes) : Prop :=
  (∀ w, w ∈ ws → w ≠ []) ∧ ∀ w w', w ∈ ws → w' ∈ ws → w `prefix_of` w' → w = w'.
Lemma spaces_prefix_free : prefix_free spaces ∧ prefix_free (reverse <$> spaces).
Proof.
  assert (∀ ws, forallb (λ w, bool_decide (w ≠ []) &&
      forallb (λ w', bool_decide (w `prefix_of` w' → w = w')) ws) ws = true → prefix_free ws) as Hdec.
  { intros ws Hb. rewrite forallb_forall in Hb. split.
    - intros w Hw%list_elem_of_In. apply Hb in Hw as [Hw _]%andb_prop. by apply bool_decide_eq_true in Hw.
    - intros w w' Hw%list_elem_of_In Hw'%list_elem_of_In. apply Hb in Hw as [_ Hw]%andb_prop.
      rewrite forallb_forall in Hw. apply Hw in Hw'. by apply bool_decide_eq_true in Hw'. }
  split; apply Hdec; vm_compute; reflexivity.
Qed.

Lemma skip_None ws s : (∀ w, w ∈ ws → ¬ w `prefix_of` s) → skip ws s = None.
Proof. intros Hno. unfold skip. by rewrite filter_none by (by apply Forall_forall). Qed.

Lemma skip_space ws w s : prefix_free ws → w ∈ ws → skip ws (w ++ s) = Some s.
Proof.
  intros [_ Hpf] Hw. unfold skip.
  destruct (filter (λ w', w' `prefix_of` w ++ s) ws) as [|w' l] eqn:Hf.
  { exfalso. assert (w ∈ filter (λ w', w' `prefix_of` w ++ s) ws) as Hin; [|rewrite Hf in Hin; set_solver].
    apply list_elem_of_filter. split; [by apply prefix_app_r|done]. }
  assert (w' ∈ filter (λ w', w' `prefix_of` w ++ s) ws) as [Hp Hin]%list_elem_of_filter
    by (rewrite Hf; by left).
  assert (w' = w) as ->.
  { destruct (prefix_weak_total w' w (w ++ s)) as [H|H]; [done|by apply prefix_app_r|auto|symmetry; auto]. }
  simpl. by rewrite drop_app_length.
Qed.

Lemma trim_loop_fuel ws fuel s : skip ws s = None → trim_loop fuel ws s = s.
Proof. destruct fuel; simpl; [done|]. by intros ->. Qed.

Lemma trim_spaces ws pre s :
  prefix_free ws → (∀ w, w ∈ pre → w ∈ ws) → skip ws s = None → trim ws (concat pre ++ s) = s.
Proof.
  intros Hpf Hpre Hs. unfold trim.
  assert (length (concat pre) ≤ length (concat pre ++ s)) as Hf by len_lia. revert Hf.
  generalize (length (concat pre ++ s)) as fuel. induction pre as [|w pre IH]; intros fuel Hf; simpl.
  { by apply trim_loop_fuel. }
  assert (w ∈ ws) as Hw by set_solver. pose proof (proj1 Hpf w Hw) as Hne.
  destruct fuel as [|fuel]; simpl in Hf; [destruct w; simpl in Hf; [done|lia]|].
  simpl. rewrite <-app_assoc, skip_space by done. apply IH; [set_solver|].
  rewrite length_app in Hf. destruct w; [done|simpl in Hf; lia].
Qed.

(** ** Entries *)
Record entry := MkEntry { e_pre : list bytes; e_id : string; e_addr : string; e_post : list bytes }.
Definition e_text (e : entry) : bytes :=
  concat (e_pre e) ++ (string_bytes (e_id e) ++ x3d :: string_bytes (e_addr e)) ++ concat (e_post e).
Definition render (l : list entry) : string := bytes_string (join x2c (e_text <$> l)).

(** An entry that can be written down: nonempty, no separators in the wrong place,
    no white space at its ends, padded with any white space. *)
Record entry_ok (e : entry) : Prop := {
  ok_id : e_id e ≠ "";
  ok_addr : e_addr e ≠ "";
  ok_id_eq : x3d ∉ string_bytes (e_id e);
  ok_comma : x2c ∉ string_bytes (e_id e) ++ string_bytes (e_addr e);
  ok_left : ∀ w, w ∈ spaces → ¬ w `prefix_of` string_bytes (e_id e);
  ok_right : ∀ w, w ∈ spaces → ¬ w `suffix_of` string_bytes (e_addr e);
  ok_pre : ∀ w, w ∈ e_pre e → w ∈ spaces;
  ok_post : ∀ w, w ∈ e_post e → w ∈ spaces
}.

Lemma spaces_bytes w b : w ∈ spaces → b ∈ w → b ≠ x3d ∧ b ≠ x2c.
Proof.
  intros Hw Hb. assert (Forall (Forall (λ b, b ≠ x3d ∧ b ≠ x2c)) spaces) as Hall.
  { apply (bool_decide_unpack _). vm_compute. exact I. }
  rewrite Forall_forall in Hall. specialize (Hall w Hw). rewrite Forall_forall in Hall. by apply Hall.
Qed.

(** A prefix without the separator lies before it. *)
Lemma prefix_before (sep : byte) (w a b : bytes) : sep ∉ w → w `prefix_of` a ++ sep :: b → w `prefix_of` a.
Proof.
  revert w. induction a as [|x a IH]; intros [|y w] Hw; [done| |intros _; apply prefix_nil|].
  - intros ->%prefix_cons_inv_1. set_solver.
  - simpl. intros Hp. pose proof (prefix_cons_inv_1 _ _ _ _ Hp) as ->.
    apply prefix_cons, IH; [set_solver|]. by eapply prefix_cons_inv_2.
Qed.

Lemma reverse_concat {A} (l : list (list A)) : reverse (concat l) = concat (reverse <$> reverse l).
Proof.
  induction l as [|x l IH]; [done|]. cbn [concat].
  rewrite reverse_app, IH, reverse_cons, fmap_app, concat_app. simpl. by rewrite app_nil_r.
Qed.

Lemma TrimSpace_text e :
  entry_ok e → TrimSpace (e_text e) = string_bytes (e_id e) ++ x3d :: string_bytes (e_addr e).
Proof.
  intros [_ _ _ _ Hl Hr Hpre Hpost]. unfold TrimSpace, e_text.
  destruct spaces_prefix_free as [Hf1 Hf2].
  rewrite trim_spaces; [|done|done|].
  2: { apply skip_None. intros w Hw. rewrite <-app_assoc. simpl. intros Hp%prefix_before; [by eapply Hl|].
       intros Hin. by destruct (spaces_bytes w _ Hw Hin). }
  rewrite (reverse_app _ (concat _)), reverse_concat, trim_spaces; [by rewrite reverse_involutive|done| |].
  - intros w (w' & -> & Hw')%list_elem_of_fmap. apply list_elem_of_fmap. exists w'. split; [done|].
    apply Hpost. by rewrite elem_of_reverse in Hw'.
  - apply skip_None. intros w (w' & -> & Hw')%list_elem_of_fmap.
    rewrite reverse_app, reverse_cons, <-app_assoc. simpl. intros Hp%prefix_before.
    + apply (Hr w' Hw'). rewrite suffix_prefix_reverse. done.
    + rewrite elem_of_reverse. intros Hin. by destruct (spaces_bytes w' _ Hw' Hin).
Qed.

Lemma text_no_comma e : entry_ok e → x2c ∉ e_text e.
Proof.
  intros [_ _ _ Hc _ _ Hpre Hpost]. unfold e_text.
  assert (∀ ws, (∀ w, w ∈ ws → w ∈ spaces) → x2c ∉ concat ws) as Hws.
  { intros ws Hall (w & Hin & Hw)%elem_of_concat. by destruct (spaces_bytes w _ (Hall w Hw) Hin). }
  specialize (Hws _ Hpre) as H1. specialize (Hws _ Hpost) as H2.
  rewrite !elem_of_app, elem_of_cons in *. naive_solver.
Qed.

Lemma string_bytes_nil s : string_bytes s = [] → s = "".
Proof. by destruct s. Qed.

Lemma parse_loop_texts l m :
  Forall entry_ok l →
  parse_loop (e_text <$> l) m = Some (foldl (λ m '(id, addr), <[id := addr]> m) m ((λ e, (e_id e, e_addr e)) <$> l)).
Proof.
  intros Hl. revert m. induction Hl as [|e l He _ IH]; intros m; [done|]. cbn [fmap list_fmap parse_loop foldl].
  rewrite TrimSpace_text, Cut_app by (done || apply He). cbn [negb orb].
  rewrite !bool_decide_eq_false_2 by (intros Hn%string_bytes_nil; by destruct He). simpl.
  rewrite !bytes_string_bytes. apply IH.
Qed.

Lemma parse_render (M : gmap string string) l :
  Forall entry_ok l → (λ e, (e_id e, e_addr e)) <$> l ≡ₚ map_to_list M →
  parsePeers (render l) = Some M ∧ parseNodes (render l) = (if decide (M = ∅) then None else Some M).
Proof.
  intros Hl Hp. assert (NoDup ((λ e, (e_id e, e_addr e)) <$> l).*1) as Hnd
    by (rewrite Hp; apply NoDup_fst_map_to_list).
  assert (list_to_map ((λ e, (e_id e, e_addr e)) <$> l) = M) as HM.
  { rewrite <-(list_to_map_to_list M). by apply list_to_map_proper. }
  unfold parsePeers, parseNodes, render. destruct (decide (l = [])) as [->|Hne].
  { simpl in HM. subst M. by rewrite decide_True. }
  assert (Split x2c (string_bytes (bytes_string (join x2c (e_text <$> l)))) = e_text <$> l) as HS.
  { rewrite string_bytes_string. apply Split_join; [by destruct l|].
    intros p (e & -> & He)%list_elem_of_fmap. apply text_no_comma. by eapply Forall_forall in Hl. }
  assert (M ≠ ∅) as HMne.
  { intros ->. rewrite map_to_list_empty in Hp. apply Permutation_nil_r in Hp. by destruct l. }
  rewrite HS, parse_loop_texts, HashRing.foldl_insert_list_to_map, HM, (right_id_L ∅ (∪)) by done.
  rewrite (decide_False (P := M = ∅)) by done. split; [|done]. case_decide as Heq; [|done]. exfalso.
  rewrite Heq in HS. simpl in HS. destruct l as [|e l]; [done|]. rewrite fmap_cons in HS. injection HS as HS _.
  apply Forall_cons in Hl as [He _]. apply TrimSpace_text in He. rewrite <-HS in He.
  change (TrimSpace []) with (@nil byte) in He. by destruct (string_bytes (e_id e)).
Qed.

Lemma parse_loop_sound parts m m' id addr :
  (∀ p, p ∈ parts → x2c ∉ p) → parse_loop parts m = Some m' → m' !! id = Some addr →
  m !! id = Some addr ∨ (id ≠ "" ∧ addr ≠ "" ∧ x3d ∉ string_bytes id).
Proof.
  revert m. induction parts as [|p parts IH]; intros m Hp; simpl; [intros [= <-]; by left|].
  destruct (Cut x3d (TrimSpace p)) as [[i a] ok] eqn:Hcut. destruct ok; [|done]. simpl.
  destruct (bool_decide_reflect (i = [])), (bool_decide_reflect (a = [])); [done..|].
  simpl. intros Hm Hid. destruct (IH _ ltac:(set_solver) Hm Hid) as [Hin|?]; [|by right].
  apply lookup_insert_Some in Hin as [[<- <-]|[_ Hin]]; [|by left]. right.
  apply Cut_true in Hcut as [_ Hi]. rewrite string_bytes_string. split_and!; [by destruct i|by destruct a|done].
Qed.

(** [entry_ok] by evaluation. *)
Definition entry_okb (e : entry) : bool :=
  let id := string_bytes (e_id e) in let addr := string_bytes (e_addr e) in
  bool_decide (e_id e ≠ "") && bool_decide (e_addr e ≠ "") && bool_decide (x3d ∉ id) && bool_decide (x2c ∉ id ++ addr) &&
  bool_decide (Forall (λ w, ¬ w `prefix_of` id) spaces) && bool_decide (Forall (λ w, ¬ w `suffix_of` addr) spaces) &&
  bool_decide (Forall (λ w, w ∈ spaces) (e_pre e)) && bool_decide (Forall (λ w, w ∈ spaces) (e_post e)).
Lemma entries_okb l : forallb entry_okb l = true → Forall entry_ok l.
Proof.
  intros Hl. apply Forall_forall. intros e He. rewrite forallb_forall in Hl. apply list_elem_of_In, Hl in He.
  unfold entry_okb in He. rewrite !andb_true_iff, !bool_decide_eq_true, !Forall_forall in He.
  destruct_and!. by split.
Qed.

(** ** Theorems *)

(** What is accepted is usable: every ID and address is nonempty, and no ID contains
    the separator. *)
Theorem parse_sound s m id addr :
  parseNodes s = Some m ∨ parsePeers s = Some m → m !! id = Some addr →
  id ≠ "" ∧ addr ≠ "" ∧ x3d ∉ string_bytes id.
Proof.
  intros Hs Hid. assert (m = ∅ ∨ parse_loop (Split x2c (string_bytes s)) ∅ = Some m) as [->|Hp].
  { destruct Hs as [Hs|Hs]; [by right|]. unfold parsePeers in Hs. case_decide; [left; congruence|by right]. }
  - by rewrite lookup_empty in Hid.
  - apply (parse_loop_sound _ _ _ id addr) in Hp as [Hp|Hp]; [by rewrite lookup_empty in Hp|done| |done].
    intros p Hin. by apply elem_of_Split in Hin as [].
Qed.

(** The two parsers invert every way of writing a map down, entries in any order
    and padded with any white space (the empty map can only be written for
    [parsePeers]); the gateway's static ring then has exactly these members, at
    epoch 1, and a client for each. *)
Theorem parse_roundtrip dial (M : gmap string string) l :
  Forall entry_ok l → (λ e, (e_id e, e_addr e)) <$> l ≡ₚ map_to_list M →
  parsePeers (render l) = Some M ∧ parseNodes (render l) = (if decide (M = ∅) then None else Some M) ∧
  (M ≠ ∅ → (∀ id addr, M !! id = Some addr → dial addr = true) →
   ∃ ring, staticSource dial (render l) = Some (ring, dom M) ∧ HashRing.Epoch ring = 1%N ∧
     HashRing.Nodes ring = M).
Proof.
  intros Hl Hp. destruct (parse_render M l Hl Hp) as [H1 H2]. split_and!; [done|done|].
  intros HM Hd. unfold staticSource. rewrite H2, decide_False by done. bind_step.
  rewrite (proj2 (forallb_forall _ _)); [eexists; split_and!; [done..|by apply HashRing.addrs_New_from]|].
  intros [id addr] Hin%list_elem_of_In%elem_of_map_to_list. by eapply Hd.
Qed.

(** ["cn-1=a:1, cn-2=b:1"]. *)
Definition demo_entries : list entry := [MkEntry [] "cn-1" "a:1" []; MkEntry [[x20]] "cn-2" "b:1" [[x09]]].
Lemma demo_entries_ok : Forall entry_ok demo_entries.
Proof. apply entries_okb. vm_compute. reflexivity. Qed.
Lemma parse_roundtrip_witness :
  parseNodes (render demo_entries) = Some {["cn-2" := "b:1"; "cn-1" := "a:1"]} ∧
  ∃ ring, staticSource (λ _, true) (render demo_entries) = Some (ring, {["cn-1"; "cn-2"]}) ∧
    HashRing.Nodes ring = {["cn-2" := "b:1"; "cn-1" := "a:1"]}.
Proof.
  destruct (parse_roundtrip (λ _, true) {["cn-2" := "b:1"; "cn-1" := "a:1"]} demo_entries demo_entries_ok)
    as (_ & H & Hs).
  - vm_compute. reflexivity.
  - split; [rewrite H; reflexivity|]. destruct Hs as (ring & H1 & _ & H2); [discriminate|reflexivity|].
    exists ring. split; [rewrite H1; reflexivity|exact H2].
Defined.
End Flags.
