(* ===== verification/Boot.v ===== *)
(** * Assembling the programs: src/cmd/{directory,gateway,cachenode,prefetcher}/main.go,
      directory.New and grpcTransport.client (src/internal/directory/server.go),
      NewNode and backoff (src/internal/paxos/node.go)

    Each program is a function of its flags to the components it starts, or to the
    reason it exits.  Listeners, metrics, log lines and the Kafka client are not part
    of the result.  The theorem about the directory closes a gap between the flags and
    [PaxosSafety]: replicas that are told about each other start in the initial state
    of the network model, with the same replica set and different ballots. *)

From Stdlib Require Import Floats.SpecFloat.
From S2P Require Import Prelude Float64 Proto Chain HashRing Paxos PaxosLog PaxosNet PaxosSafety Directory.
From S2P Require Import BlockStore PagedList Paged PagedProps RingWatch Gateway Events Prefetch Warmer Agent Flags.

Module Boot.
Local Open Scope N_scope.

(** ** paxos.NewNode and backoff *)
Record NodeConfig := MkNodeConfig {
  nc_Self : string;
  nc_Replicas : list string;
  nc_Equal : option (bytes → bytes → bool);
  nc_RPCTimeout : Z;
  nc_Noop : bytes
}.
Record Node (S : Type) := MkNodeState {
  nd_cfg : Paxos.Config;
  nd_RPCTimeout : Z;
  nd_idx : N;
  nd_Acceptor : Paxos.Acceptor;
  nd_state : Paxos.node (S := S)
}.
Arguments MkNodeState {S}. Arguments nd_cfg {S}. Arguments nd_RPCTimeout {S}. Arguments nd_idx {S}.
Arguments nd_Acceptor {S}. Arguments nd_state {S}.

Definition bytes_Equal (a b : bytes) : bool := bool_decide (a = b).
(** [None] is the panic. *)
Definition NewNode {S} (cfg : NodeConfig) (log : Paxos.Log S) : option (Node S) :=
  let c := Paxos.MkConfig (nc_Self cfg) (nc_Replicas cfg) (default bytes_Equal (nc_Equal cfg)) (nc_Noop cfg) in
  idx ← Paxos.node_idx c;
  Some (MkNodeState c (if (nc_RPCTimeout cfg =? 0)%Z then 500000000%Z else nc_RPCTimeout cfg) idx
          Paxos.NewAcceptor (Paxos.MkNode 0 log)).

(** The wait after a failed attempt, in nanoseconds; [Int63n] is [math/rand]'s. *)
Definition backoff_base (attempt : nat) : Z := Z.shiftl 10000000 (Z.of_nat (attempt `min` 5)).
Definition backoff (Int63n : Z → Z) (attempt : nat) : Z :=
  (backoff_base attempt + Int63n (backoff_base attempt))%Z.

(** ** The other programs *)

(** A comma-separated flag: [strings.Split(s, ",")]. *)
Definition split_flag (s : string) : list string := bytes_string <$> Flags.Split x2c (string_bytes s).

Section programs.
(** Whether dialing an address succeeds, and creating a Kafka producer for some
    brokers or a consumer for a group and a topic. *)
Context {conn : Type} (dial : string → bool).
Context (kafka_ok : list string → bool) (consumer_ok : list string → string → string → bool).

(** cmd/gateway *)
Record gateway_flags := MkGatewayFlags {
  gf_nodes : string;
  gf_directory : string;
  gf_replication : Z;
  gf_kafka : string
}.
Inductive source :=
| Watching (w : RingWatch.Watcher (conn := conn))
| Static (R : HashRing.Ring) (Clients : gset string).
Record gateway := MkGateway { gw_src : source; gw_rf : nat; gw_events : bool }.
Inductive gateway_exit := NoSource | BadNodes | KafkaInit.

Definition gateway_main (fl : gateway_flags) : result gateway_exit gateway :=
  src ← (if decide (gf_directory fl ≠ "") then Ok (Watching (RingWatch.New (split_flag (gf_directory fl)) true))
         else if decide (gf_nodes fl ≠ "") then
           match Flags.staticSource dial (gf_nodes fl) with
           | Some (r, cs) => Ok (Static r cs)
           | None => Err BadNodes
           end
         else Err NoSource);
  if decide (gf_kafka fl ≠ "") then
    if kafka_ok (split_flag (gf_kafka fl))
    then Ok (MkGateway src (Gateway.clamp_rf (gf_replication fl)) true) else Err KafkaInit
  else Ok (MkGateway src (Gateway.clamp_rf (gf_replication fl)) false).

(** The gateway's [RingSource] at one moment. *)
Definition source_snapshot (src : source) : Gateway.snapshot :=
  match src with
  | Watching w => Gateway.MkSnapshot (RingWatch.ring w) (λ id, bool_decide (is_Some (RingWatch.Client w id)))
  | Static r cs => Gateway.MkSnapshot (Some r) (λ id, bool_decide (id ∈ cs))
  end.

(** cmd/prefetcher *)
Inductive prefetcher_exit := PrefetcherFlags | PrefetcherKafka.
Definition prefetcher_main (kafka dirs : string) (rf : Z) (threshold : spec_float)
    : result prefetcher_exit (Prefetch.Prefetcher * RingWatch.Watcher (conn := conn)) :=
  if decide (kafka = "" ∨ dirs = "") then Err PrefetcherFlags
  else if kafka_ok (split_flag kafka) && consumer_ok (split_flag kafka) "prefetcher" Events.TopicAccess
  then Ok (Prefetch.New (Prefetch.MkConfig rf threshold 0 0 0), RingWatch.New (split_flag dirs) false)
  else Err PrefetcherKafka.

(** cmd/cachenode: the store is shared by the server, the agent and the warmer, which
    are represented by what they are started with. *)
Record cachenode_flags := MkCacheNodeFlags {
  cf_listen : string;
  cf_advertise : string;
  cf_node_id : string;
  cf_capacity : N;
  cf_page_bytes : Z;
  cf_eviction : string;
  cf_directory : string;
  cf_kafka : string;
  cf_warm_rate : spec_float
}.
Context {R : Type} (rng0 : R).
Record cachenode := MkCacheNode {
  cn_store : Paged.Paged R;
  cn_agent : option Agent.Agent;                   (* started with the directory; enforces its epoch *)
  cn_warm : option (string * string * spec_float)  (* consumer group, topic, rate *)
}.
Inductive cachenode_exit := NodeIDRequired | BadEviction (flag : string) | StorePanic | WarmKafka.

Definition cachenode_main (fl : cachenode_flags) : result cachenode_exit cachenode :=
  if decide (cf_node_id fl = "") then Err NodeIDRequired
  else
    let advertise := if decide (cf_advertise fl = "") then cf_listen fl else cf_advertise fl in
    match Paged.ParsePolicy (cf_eviction fl) with
    | Err e => Err (BadEviction e)
    | Ok policy =>
        match Paged.NewPaged (cf_capacity fl) (cf_page_bytes fl) policy rng0 with
        | None => Err StorePanic
        | Some store =>
            let agent :=
              if decide (cf_directory fl ≠ "")
              then Some (Agent.NewAgent (pmv1.MkNodeInfo (cf_node_id fl) advertise (cf_capacity fl))
                           (split_flag (cf_directory fl)))
              else None in
            if decide (cf_kafka fl ≠ "") then
              let group := "warm-" +:+ cf_node_id fl in
              if consumer_ok (split_flag (cf_kafka fl)) group Events.TopicWarm && kafka_ok (split_flag (cf_kafka fl))
              then Ok (MkCacheNode store agent (Some (group, Events.TopicWarm, cf_warm_rate fl)))
              else Err WarmKafka
            else Ok (MkCacheNode store agent None)
        end
    end.
(** The epoch the server fences with: [WithEpoch(agent.Epoch)], or none. *)
Definition cn_epoch (c : cachenode) : option N := Agent.Epoch <$> cn_agent c.
End programs.

(** ** directory.New and the transport's connections *)
Section directory.
Context (Marshal : pmv1.ClusterCommand → option bytes) (Unmarshal : bytes → option pmv1.ClusterCommand).

Record dir_config := MkDirConfig {
  dc_ReplicaID : string;
  dc_Peers : gmap string string;
  dc_HeartbeatEvery : Z;
  dc_DeadAfter : Z
}.
(** A connection is the number of the dial that opened it. *)
Record grpcTransport := MkTransport {
  t_self : string;
  t_peers : gmap string string;
  t_clients : gmap string nat;
  t_dials : nat
}.
Inductive client_error := UnknownReplica (peer : string) | DialFailed.
Definition client (dial : nat → string → bool) (peer : string) (t : grpcTransport)
    : result client_error nat * grpcTransport :=
  match t_clients t !! peer with
  | Some c => (Ok c, t)
  | None =>
      match t_peers t !! peer with
      | None => (Err (UnknownReplica peer), t)
      | Some addr =>
          let n := t_dials t in
          if dial n addr
          then (Ok n, MkTransport (t_self t) (t_peers t) (<[peer := n]> (t_clients t)) (S n))
          else (Err DialFailed, MkTransport (t_self t) (t_peers t) (t_clients t) (S n))
      end
  end.

Abbreviation dir_state := (Directory.StateMachine * Directory.hbTracker)%type.
Record Server := MkServer {
  srv_node : Node dir_state;
  srv_HeartbeatEvery : Z;
  srv_tr : grpcTransport
}.
(** [order] is the iteration order of the peers map.  The state machine and the
    heartbeat tracker are the application state of the log ([sm.onJoin = s.hb.seed] is
    the hook in [Directory.apply_both]). *)
Inductive boot_error := MarshalFailed | Panic.
Definition New (order : list (string * string)) (cfg : dir_config) : result boot_error Server :=
  let '(hb, dead) := Directory.defaults (dc_HeartbeatEvery cfg) (dc_DeadAfter cfg) in
  let log := Paxos.NewLog (Directory.NewStateMachine, Directory.newHBTracker dead) in
  match Marshal Directory.noop_command with
  | None => Err MarshalFailed
  | Some noop =>
      match NewNode (MkNodeConfig (dc_ReplicaID cfg) (dc_ReplicaID cfg :: order.*1)
                       (Some (Directory.commandsEqual Unmarshal)) 0 noop) log with
      | None => Err Panic
      | Some node => Ok (MkServer node hb (MkTransport (dc_ReplicaID cfg) (dc_Peers cfg) ∅ 0))
      end
  end.

(** cmd/directory: [Err] is an exit before serving. *)
Inductive exit := MissingFlag | BadPeers | InitFailed.
Definition directory_main (replicaID peersFlag : string) : result exit Server :=
  if decide (replicaID = "") then Err MissingFlag
  else
    match Flags.parsePeers peersFlag with
    | None => Err BadPeers
    | Some peers =>
        match New (map_to_list peers) (MkDirConfig replicaID peers 0 0) with
        | Ok s => Ok s
        | Err _ => Err InitFailed
        end
    end.

(** ** The directory *)
#[local] Set Default Proof Using "Type".

Lemma string_sort_perm l l' : l ≡ₚ l' → Paxos.string_sort l = Paxos.string_sort l'.
Proof.
  intros Hl. unfold Paxos.string_sort.
  apply (StronglySorted_unique String.le); [apply StronglySorted_merge_sort; apply _..|].
  by rewrite !merge_sort_Permutation.
Qed.

(** Ballot ownership does not depend on the order the replicas are listed in. *)
Lemma node_idx_perm self rs rs' eq noop :
  rs ≡ₚ rs' → Paxos.node_idx (Paxos.MkConfig self rs eq noop) = Paxos.node_idx (Paxos.MkConfig self rs' eq noop).
Proof. intros Hrs. unfold Paxos.node_idx. simpl. by rewrite (string_sort_perm _ _ Hrs). Qed.

Lemma peers_and_self (M : gmap string string) id addr :
  M !! id = Some addr → id :: (map_to_list (delete id M)).*1 ≡ₚ (map_to_list M).*1.
Proof. intros Hid. rewrite <-(map_to_list_delete M id addr Hid). done. Qed.

(** C27. A cluster whose replicas are each told about all the others boots into the
    model that the safety theorems speak of: every replica starts, with its acceptor,
    round and log as in the initial state of the network, all replicas have the same
    replica set and majority, and ballots of different replicas are different. *)
Theorem cluster_boots noop (M : gmap string string) id addr l :
  Marshal Directory.noop_command = Some noop →
  M !! id = Some addr → id ≠ "" → (size M ≤ 256)%nat →
  Forall Flags.entry_ok l → (λ e, (Flags.e_id e, Flags.e_addr e)) <$> l ≡ₚ map_to_list (delete id M) →
  let ids := (map_to_list M).*1 in
  let equal := Directory.commandsEqual Unmarshal in
  let s0 := (Directory.NewStateMachine, Directory.newHBTracker 1500000000) in
  ∃ s, directory_main id (Flags.render l) = Ok s ∧ t_peers (srv_tr s) = delete id M ∧
    let n := srv_node s in
    let r := PaxosNet.nodes (PaxosNet.init s0) id in
    Paxos.Self (nd_cfg n) = id ∧ Paxos.Replicas (nd_cfg n) ≡ₚ ids ∧
    Paxos.majority (nd_cfg n) = (size M / 2 + 1)%nat ∧
    nd_Acceptor n = PaxosNet.r_acc r ∧ nd_state n = Paxos.MkNode (PaxosNet.r_round r) (PaxosNet.r_log r) ∧
    nd_idx n = PaxosNet.idx ids equal noop id ∧
    ∀ id' r1 r2, id' ∈ ids → id' ≠ id → r1 < PaxosSafety.two56 → r2 < PaxosSafety.two56 →
      Paxos.MakeBallot r1 (nd_idx n) ≠ Paxos.MakeBallot r2 (PaxosNet.idx ids equal noop id').
Proof.
  intros Hnoop Hid Hne Hsz Hl Hp ids equal s0.
  destruct (Flags.parse_render (delete id M) l Hl Hp) as [Hparse _].
  assert (id :: (map_to_list (delete id M)).*1 ≡ₚ ids) as Hperm by (by eapply peers_and_self).
  assert (NoDup ids) as Hnd by apply NoDup_fst_map_to_list.
  assert (length ids = size M) as Hlen by (unfold ids; by rewrite length_fmap, length_map_to_list).
  assert (id ∈ ids) as Hin by (rewrite <-Hperm; by left).
  destruct (PaxosSafety.idx_lookup ids equal noop ltac:(lia) id Hin) as (j & _ & Hj & Hidx & _).
  unfold directory_main, New. rewrite decide_False, Hparse by done. simpl. rewrite Hnoop. unfold NewNode. simpl.
  rewrite (node_idx_perm id _ ids) by done. unfold PaxosNet.cfg_of, equal in Hidx. rewrite Hidx. simpl.
  eexists. split; [done|]. simpl. split_and!; [done|done|done| |done|done|by rewrite Hj|].
  - unfold Paxos.majority. simpl. by rewrite <-Hlen, <-(Permutation_length Hperm).
  - intros id' r1 r2 Hin' Hid' H1 H2 Heq. rewrite <-Hj in Heq.
    apply PaxosSafety.MakeBallot_inj in Heq as [_ Heq]; [|done|done|by apply (PaxosSafety.idx_lt ids equal noop ltac:(lia))..].
    apply Hid'. symmetry. by apply (PaxosSafety.idx_inj ids equal noop ltac:(lia)).
Qed.

(** ** Connections *)
Definition calls (dial : nat → string → bool) (t : grpcTransport) (peers : list string)
    : list (result client_error nat) * grpcTransport :=
  foldl (λ '(rs, t) peer, let '(r, t) := client dial peer t in (rs ++ [r], t)) ([], t) peers.

(** Open connections lead to known peers and were opened by different dials. *)
Definition transport_wf (t : grpcTransport) : Prop :=
  (∀ p c, t_clients t !! p = Some c → is_Some (t_peers t !! p) ∧ (c < t_dials t)%nat) ∧
  ∀ p q c, t_clients t !! p = Some c → t_clients t !! q = Some c → p = q.

Lemma client_spec dial peer t :
  transport_wf t →
  let '(r, t') := client dial peer t in
  transport_wf t' ∧ t_peers t' = t_peers t ∧ t_clients t ⊆ t_clients t' ∧
  match r with
  | Ok c => t_clients t' !! peer = Some c
  | Err (UnknownReplica p) => p = peer ∧ t_peers t !! peer = None
  | Err DialFailed => t_clients t' = t_clients t
  end.
Proof.
  intros [Hlt Hinj]. unfold client. destruct (t_clients t !! peer) as [c|] eqn:Hc; [done|].
  destruct (t_peers t !! peer) as [addr|] eqn:Ha; [|done].
  destruct (dial _ _); split_and!; simpl; try done.
  - split; simpl.
    + intros p c [[<- <-]|[_ Hp]]%lookup_insert_Some; [split; [by eexists|lia]|].
      destruct (Hlt p c Hp). split; [done|lia].
    + intros p q c [[<- <-]|[_ Hp]]%lookup_insert_Some [[<- Hq]|[_ Hq]]%lookup_insert_Some; [done| | |by eapply Hinj].
      * apply Hlt in Hq as [_ ?]. lia.
      * subst c. apply Hlt in Hp as [_ ?]. lia.
  - by apply insert_subseteq.
  - by rewrite lookup_insert_eq.
  - split; [|done]. intros p c Hp. destruct (Hlt p c Hp). split; [done|simpl; lia].
Qed.

Lemma calls_inv dial t peers rs t' :
  transport_wf t → calls dial t peers = (rs, t') →
  transport_wf t' ∧ t_peers t' = t_peers t ∧ length rs = length peers ∧
  ∀ i p r, peers !! i = Some p → rs !! i = Some r →
    match r with
    | Ok c => t_clients t' !! p = Some c
    | Err (UnknownReplica _) => t_peers t !! p = None
    | Err DialFailed => is_Some (t_peers t !! p)
    end.
Proof.
  intros Hwf. revert rs t'. induction peers as [|p peers IH] using rev_ind; intros rs t'.
  { intros [= <- <-]. split_and!; try done. }
  unfold calls. rewrite foldl_app. fold (calls dial t peers). destruct (calls dial t peers) as [rs1 t1].
  destruct (IH rs1 t1 eq_refl) as (W1 & P1 & L1 & R1). simpl.
  pose proof (client_spec dial p t1 W1) as Hc. destruct (client dial p t1) as [r t2] eqn:Hcl.
  destruct Hc as (W2 & P2 & Sub & Hr). intros [= <- <-].
  split_and!; [done|congruence|rewrite !length_app; simpl; lia|].
  intros i q r' Hq Hr'. apply lookup_app_Some in Hq as [Hq|[Hi Hq]].
  - rewrite lookup_app_l in Hr' by (apply lookup_lt_Some in Hq; lia). specialize (R1 i q r' Hq Hr').
    destruct r' as [c|[]]; [by eapply lookup_weaken|done|done].
  - rewrite lookup_app_r in Hr' by lia. rewrite L1 in Hr'. destruct (i - length peers)%nat; [|done].
    injection Hq as <-. injection Hr' as <-. destruct r as [c|[e|]]; [done|by rewrite <-P1; apply Hr|].
    unfold client in Hcl. rewrite <-P1. destruct (t_clients t1 !! p); [done|].
    destruct (t_peers t1 !! p); [by eexists|done].
Qed.

(** A replica talks to each peer over one connection, and never to a stranger: over
    any sequence of calls, with dials that fail or succeed, all successful calls to a
    peer got the same connection, calls to different peers got different ones, and a
    call is refused as unknown exactly when the ID is not among the peers. *)
Theorem one_connection_per_peer dial t peers rs t' :
  transport_wf t → calls dial t peers = (rs, t') →
  length rs = length peers ∧
  (∀ i j p q c d, peers !! i = Some p → peers !! j = Some q → rs !! i = Some (Ok c) → rs !! j = Some (Ok d) →
     c = d ↔ p = q) ∧
  (∀ i p, peers !! i = Some p → (∃ e, rs !! i = Some (Err (UnknownReplica e))) ↔ t_peers t !! p = None).
Proof.
  intros Hwf Hcalls. destruct (calls_inv dial t peers rs t' Hwf Hcalls) as (Hwf' & Hp' & Hlen & Hr). split_and!; [done| |].
  - intros i j p q c d Hp Hq Hc Hd. apply (Hr i p) in Hc; [|done]. apply (Hr j q) in Hd; [|done].
    split; [intros ->; by eapply Hwf'|]. intros ->. congruence.
  - intros i p Hp. destruct (lookup_lt_is_Some_2 rs i) as [r Hri].
    { apply lookup_lt_Some in Hp. lia. }
    specialize (Hr i p r Hp Hri). rewrite Hri. destruct r as [c|[e|]]; split.
    + by intros [? ?].
    + intros Hn. destruct (proj1 Hwf' p c Hr) as [[a Ha] _]. congruence.
    + done.
    + by eexists.
    + by intros [? ?].
    + intros Hn. rewrite Hn in Hr. by destruct Hr.
Qed.
End directory.


(** ** Properties of the programs *)

(** A failed attempt waits between 10ms and 640ms, so the twenty attempts of [Submit]
    wait less than 10.3 seconds in all. *)
Theorem backoff_bounded Int63n :
  (∀ n, 0 < n → 0 ≤ Int63n n < n)%Z →
  (∀ attempt, 10000000 ≤ backoff Int63n attempt < 640000000)%Z ∧
  (foldr Z.add 0 (backoff Int63n <$> seq 0 20) < 10300000000)%Z.
Proof.
  intros Hr. assert (∀ attempt, 0 < backoff_base attempt ≤ 320000000 ∧ 10000000 ≤ backoff_base attempt)%Z as Hb.
  { intros attempt. unfold backoff_base. rewrite Z.shiftl_mul_pow2 by lia.
    pose proof (Z.pow_le_mono_r 2 (Z.of_nat (attempt `min` 5)) 5 ltac:(lia) ltac:(lia)).
    pose proof (Z.pow_pos_nonneg 2 (Z.of_nat (attempt `min` 5)) ltac:(lia) ltac:(lia)). lia. }
  split.
  - intros attempt. destruct (Hb attempt). pose proof (Hr (backoff_base attempt) ltac:(lia)). unfold backoff. lia.
  - assert (∀ l, foldr Z.add 0 (backoff Int63n <$> l) ≤ 2 * foldr Z.add 0 (backoff_base <$> l))%Z as Hsum.
    { induction l as [|i l IH]; [done|]. rewrite !fmap_cons. cbn [foldr]. destruct (Hb i).
      pose proof (Hr (backoff_base i) ltac:(lia)). unfold backoff at 1. lia. }
    eapply Z.le_lt_trans; [apply Hsum|]. vm_compute. reflexivity.
Qed.

(** The gateway and the prefetcher must use the same replication factor.  Given the
    same flag they do, if it is at least one; given zero the gateway writes one copy
    while the prefetcher plans for two. *)
Theorem replication_flags_agree {conn} dial kafka_ok consumer_ok (fl : gateway_flags) kafka dirs threshold g p
    (w : RingWatch.Watcher (conn := conn)) :
  gateway_main (conn := conn) dial kafka_ok fl = Ok g →
  prefetcher_main kafka_ok consumer_ok kafka dirs (gf_replication fl) threshold = Ok (p, w) →
  ((1 ≤ gf_replication fl)%Z → Prefetch.RF (Prefetch.cfg p) = Z.of_nat (gw_rf g)) ∧
  (gf_replication fl = 0%Z → Prefetch.RF (Prefetch.cfg p) = 2%Z ∧ gw_rf g = 1%nat).
Proof.
  intros Hg Hp. assert (gw_rf g = Gateway.clamp_rf (gf_replication fl)) as ->.
  { unfold gateway_main in Hg. destruct (if decide (gf_directory fl ≠ "") then _ else _) as [src|]; [|done].
    cbn [mbind result_bind] in Hg. repeat case_decide; [destruct (kafka_ok _); [|done]|]; by injection Hg as <-. }
  unfold prefetcher_main in Hp. case_decide; [done|]. destruct (_ && _); [|done]. injection Hp as <- <-.
  unfold Gateway.clamp_rf. simpl. destruct (Z.ltb_spec (gf_replication fl) 1), (Z.eqb_spec (gf_replication fl) 0); lia.
Qed.

(** A cache node with usable flags starts with an empty well-formed store; it fences
    epochs exactly when it has a directory, and joins under the address others can
    reach it at. *)
Theorem cachenode_boots {R} (Intn : R → nat → nat * R) (Exp2 : spec_float → spec_float) (rng0 : R) kafka_ok consumer_ok fl :
  cf_node_id fl ≠ "" → cf_eviction fl = Paged.EvictLRU ∨ cf_eviction fl = Paged.EvictCost →
  cf_capacity fl < 9223372036854775808 → (0 < cf_page_bytes fl < 4611686018427387904)%Z →
  (Z.of_N (cf_capacity fl) / cf_page_bytes fl ≤ 2147483648)%Z →
  (cf_kafka fl = "" ∨ (∀ bs, kafka_ok bs = true) ∧ (∀ bs g t, consumer_ok bs g t = true)) →
  ∃ c, cachenode_main kafka_ok consumer_ok rng0 fl = Ok c ∧
    PagedProps.paged_wf (cn_store c) ∧ PagedProps.recency (cn_store c) = [] ∧
    cn_epoch c = (if decide (cf_directory fl = "") then None else Some 0) ∧
    (∀ a, cn_agent c = Some a →
       pmv1.NodeId (Agent.Self a) = cf_node_id fl ∧ Agent.Directories a = split_flag (cf_directory fl) ∧
       pmv1.Addr (Agent.Self a) = if decide (cf_advertise fl = "") then cf_listen fl else cf_advertise fl).
Proof.
  intros Hid Hev Hcap Hps Hpages Hk. unfold cachenode_main. rewrite decide_False by done.
  unfold Paged.ParsePolicy. rewrite decide_True by done.
  destruct (PagedProps.NewPaged_wf (cf_capacity fl) (cf_page_bytes fl) (cf_eviction fl) rng0 Hcap Hps Hpages)
    as (s & -> & Hwf & Hr & _).
  destruct (decide (cf_kafka fl ≠ "")) as [Hkf|]; [destruct Hk as [Hk|[Hk Hc]]; [done|rewrite Hk, Hc]|].
  all: eexists; (split; [reflexivity|]); simpl; split_and!; [done|done| |];
    destruct (decide (cf_directory fl ≠ "")) as [Hd|Hd], (decide (cf_directory fl = "")) as [Hd'|Hd']; try done.
  all: intros a [= <-]; done.
Qed.

(** ** Witness: the first of three replicas *)
Definition demo_cluster : gmap string string := {["dir-1" := "a:7200"; "dir-2" := "b:7200"; "dir-3" := "c:7200"]}.
Definition demo_peers : list Flags.entry :=
  [Flags.MkEntry [] "dir-2" "b:7200" []; Flags.MkEntry [[x20]] "dir-3" "c:7200" []].
Lemma cluster_boots_witness :
  ∃ s, directory_main (λ _, Some [x00]) (λ _, None) "dir-1" (Flags.render demo_peers) = Ok s ∧
    Paxos.majority (nd_cfg (srv_node s)) = 2%nat ∧
    Paxos.MakeBallot 1 (nd_idx (srv_node s)) ≠
      Paxos.MakeBallot 1 (PaxosNet.idx (map_to_list demo_cluster).*1 (Directory.commandsEqual (λ _, None)) [x00] "dir-3").
Proof.
  destruct (cluster_boots (λ _, Some [x00]) (λ _, None) [x00] demo_cluster "dir-1" "a:7200" demo_peers)
    as (s & H1 & _ & _ & _ & H2 & _ & _ & _ & H3).
  - reflexivity.
  - reflexivity.
  - discriminate.
  - vm_compute. lia.
  - apply Flags.entries_okb. vm_compute. reflexivity.
  - apply (bool_decide_unpack _). vm_compute. exact I.
  - exists s. split; [exact H1|]. split; [exact H2|]. apply (H3 "dir-3" 1 1).
    + apply (bool_decide_unpack _). vm_compute. exact I.
    + discriminate.
    + reflexivity.
    + reflexivity.
Defined.
End Boot.
